(* ===== verification/_CoqProject ===== *)
-Q . S2P
Prelude.v
SipHash.v
HashMap.v
HashSet.v
Allocator.v
Str.v
Utf8.v
Path.v
Io.v
IoBuf.v
Lock.v
Mutex.v
LockSpec.v
Object.v
MutexCell.v
RwLock.v
RwCell.v
Once.v
Condvar.v
Barrier.v
Mpsc.v
ChanLive.v
ChanSpec.v
Park.v
Join.v
Scope.v
Clone.v
Net.v
Syscall.v
RandomState.v
Time.v
Fs.v
Socket.v
SocketIo.v
Env.v
EnvShared.v
Process.v
SysThread.v
Thread.v
Tls.v
Wasi.v
Stdio.v
Arch.v
Stdin.v
LockClients.v
Current.v
ParkThreads.v
Rt.v
Ffi.v
Os.v
Fmt.v
