(* ===== verification/Prelude.v ===== *)
(** * purestd: a verification of the library

    purestd is a replacement for the Rust standard library that talks to the kernel directly.
    This development models its code and proves the properties that its clients rely on.  Source paths are
    relative to the repository; a definition has the name of the function, method or type it
    translates, with a prefix where two share one.

    ** Layers and files

    The library has four layers, and the files follow them.

    - _The kernel interface._  Syscall.v has every wrapper of src/src/syscall.rs as a function
      on a history of traps: a [Machine] is a target and an arbitrary kernel, [Sys] and [Prog] are the
      state monads of code that returns and of code that may not.  Arch.v goes below it: the number tables
      and the inline assembly of src/src/arch/ on a register machine.  Clone.v runs the five assembly
      listings of the thread creation routine (src/src/sys_thread.rs) and SysThread.v has that
      file's futex, sleep and yield calls.  Wasi.v is the WASI backend (src/src/syscall_wasi.rs,
      src/src/arch/wasi.rs) over an arbitrary host.
    - _Memory and data._  Allocator.v (src/src/allocator.rs), SipHash.v (src/src/hash.rs), HashMap.v and
      HashSet.v (src/src/collections.rs), RandomState.v (the default hasher, which puts table, hasher and kernel
      together), Path.v (src/src/path.rs) and Ffi.v (src/src/ffi.rs) on the strings of Str.v; Utf8.v has the
      validity, the encoding and the lossy decoding of UTF-8.
    - _Concurrency._  Each primitive is an interleaving system: a record with the shared words and one
      program counter per thread, an operation as a function from a counter and the words to the next ones (one
      atomic access or one kernel call each), and a step relation that picks a thread.  Mutex.v,
      RwLock.v, Once.v ([Once], [OnceLock], [LazyLock]), Condvar.v, Barrier.v, Mpsc.v (src/src/sync.rs);
      Park.v, Join.v, Scope.v, Current.v, ParkThreads.v and Thread.v (src/src/thread.rs), Tls.v (src/src/tls.rs);
      Stdio.v and Stdin.v (the shared streams of src/src/io.rs).  MutexCell.v and RwCell.v add the value a lock
      protects; ChanLive.v and ChanSpec.v have the progress and the contract of the channel.  Lock.v is the
      contract of the mutex and LockSpec.v its refinement by the futex code; the components that use a mutex are
      proved against Lock.v.  Over the futex mutex the owner of the contract is gone: a client that wants the
      lock goes on when its thread of the mutex of Mutex.v has the guard, and only then.  LockClients.v,
      Object.v (data behind one mutex, each operation reading and writing it in separate steps) and EnvShared.v
      (the environment map of src/src/env.rs) carry the results there.  In Tls.v a thread has a stack of
      accesses, since the initialiser and the closure of [with] may make further ones.
      A futex wait is the load, the call that may find the word changed, the sleep and the wake, with early returns allowed at any time.
      Progress is stated with [settles] (below): the steps of calls already made, without spurious returns, end under
      every schedule, within a bound, and only where they should.
    - _Services._  Io.v and IoBuf.v (src/src/io.rs), Fs.v (src/src/fs.rs), Net.v, Socket.v and SocketIo.v
      (src/src/net.rs), Env.v (src/src/env.rs), Process.v (src/src/process.rs), Time.v (src/src/time.rs), Rt.v
      (src/src/rt.rs, src/src/panic.rs, [panic] of src/src/lib.rs), Os.v (src/src/os.rs), Fmt.v (the text of errors and values).

    Interfaces between them are classes: [BuildHasher] (what HashMap.v asks of a hasher),
    [ArenaSource] (what the allocator asks of the platform, with [VirtualMemory] and [LinearMemory] for
    the two kinds), [Read], [Write] and [BufRead] (the traits), [Sink] (what a writer promises), [FdCalls]
    (the calls behind a descriptor, implemented by Syscall.v and by Wasi.v), [Hash] (what a key writes into
    its hasher), [LockClient] (a component around one lock, which it takes, holds and gives back and otherwise
    does not look at), [ToSocketAddrs], [WasiHost], [Machine] and [Termination].
    Barrier.v is a client of the monitor of Condvar.v and discharges its laws.

    ** What the theorems show

    - Data: a hash table run through any sequence of operations gives the answers of a finite map and keeps
      its probe-chain invariant; streaming SipHash equals the reference function for any split of the
      input; the first default map takes its keys from the kernel's random bytes, later ones ask for nothing,
      and each is that table with that hash; the allocator
      never hands out overlapping blocks, and for alignments up to a page no misaligned ones; no path method cuts a character.
    - Concurrency: [Mutex<T>] shows exactly the histories of a cell with an owner, [RwLock<T>] those of a cell with
      readers or a writer, a channel over the futex mutex those of a queue with senders and a receiver; a client of the
      mutex reaches the same states over the futex as over the contract, and
      the shared environment is atomic; calls of the mutex, the reader-writer lock, the one-time initialisation, the
      monitors with their barrier, the channel, [join] and [scope] end under every schedule, so that no wake-up is lost;
      one-time initialisation (with [LazyLock] refining [OnceLock]), barrier generations, parking
      tokens, joining, scopes, thread-local values (while thread identifiers are not reused), the handle of the current thread, blocks of
      output that do not mix and input that is cut without gaps as long as reading does not fail.
    - Kernel boundary: wrappers ask for the same operation on all targets, but for [dup2] of a descriptor to itself; the assembly
      delivers number and arguments and changes only the registers it declares, but for the second result of macOS; thread creation keeps both stacks in order; no
      path of the file and socket services leaks a descriptor, a failed spawn gives its stack back, and a started process leaves open
      only what its [Child] holds.
    - Streams and formats: buffered readers and writers are transparent, [lines] and
      [read_line] cut at terminators, [copy] is exact unless a write fails, and then says how far it got; socket addresses and DNS messages survive encoding and decoding, and
      the DNS scanner is safe on any input; directory listings are exact.
    - Time: exact arithmetic within the range of a duration, sleeps that ask for what they were given.

    Where the code does not do what it means to, a lemma shows the behaviour (for
    instance [recv_lost_disconnect], [scope_dangling], [tls_recycled], [spawn_leaks_pipes], [dup2_same_fd],
    [second_result_undeclared], [readv_loses]).

    ** Conventions, bounds and fuel

    An integer of [w] bits is a [Z] with its wrap-around written out ([wrap], [to_signed]); [usize] has the
    width of the target.  Indexing out of range and [unwrap] of nothing are [None].  A loop that is not structural
    takes fuel; its theorems give a bound that is enough (the length of the input, the
    reads a stream takes, the number of slots) and show that the loop returns.  Atomics are
    interleaved one at a time, so weaker orderings are not modelled.  Statements on counters that
    wrap carry the bound below which they do not ([2^31] readers, [2^32] notifications,
    [2^64] handles).

    ** Not modelled

    Modules that only re-export [core] and [alloc]; [Arc], whose counts appear where code depends on them (Join.v);
    weak memory orderings; the getters of wrapper types ([get_ref], [get_mut], [into_inner]
    of readers and writers).  Code outside the repository is a parameter: the
    kernel, the WASI host, [core::net]'s address parser, [Hash] and [Debug] of client types, closures given by the client.

    This file holds the build targets, [result] and its binds, machine integers and
    byte codecs, generic lemmas on lists and locks, and the tactics and hint database of the other files. *)
From Stdlib Require Export ZArith Lia.
From stdpp Require Export base tactics numbers list gmap strings.

(** * Build targets

    The source selects code with [cfg(target_os = ..)], [cfg(target_arch = ..)]
    and [cfg(target_pointer_width = ..)].  A definition whose source differs per
    target takes the target as an argument. *)
Inductive Target : Set :=
| X86_64Linux | Aarch64Linux | Riscv64Linux | I686Linux | ArmLinux
| Aarch64MacOS | X86_64MacOS | Wasm32Wasi.

#[export] Instance Target_eq_dec : EqDecision Target.
Proof. solve_decision. Defined.

Definition is_macos (t : Target) : bool :=
  match t with Aarch64MacOS | X86_64MacOS => true | _ => false end.

Definition is_linux (t : Target) : bool :=
  match t with
  | X86_64Linux | Aarch64Linux | Riscv64Linux | I686Linux | ArmLinux => true
  | _ => false
  end.

Definition usize_bits (t : Target) : Z :=
  match t with I686Linux | ArmLinux | Wasm32Wasi => 32 | _ => 64 end.

(** [cfg(all(target_os = "linux", target_pointer_width = "32"))] *)
Definition is_linux32 (t : Target) : bool :=
  match t with I686Linux | ArmLinux => true | _ => false end.

(** * Results and their bind *)
Inductive result (A E : Type) : Type :=
| Ok (a : A)
| Err (e : E).
Arguments Ok {A E} a.
Arguments Err {A E} e.

#[export] Instance result_eq_dec A E `{EqDecision A, EqDecision E} :
  EqDecision (result A E).
Proof. solve_decision. Defined.

Definition map_err {A E F} (f : E → F) (r : result A E) : result A F :=
  match r with Ok a => Ok a | Err e => Err (f e) end.

Definition map_ok {A B E} (f : A → B) (r : result A E) : result B E :=
  match r with Ok a => Ok (f a) | Err e => Err e end.

Definition ok {A E} (r : result A E) : option A :=
  match r with Ok a => Some a | Err _ => None end.

Definition ok_or {A E} (o : option A) (e : E) : result A E :=
  match o with Some a => Ok a | None => Err e end.

Definition is_ok {A E} (r : result A E) : bool :=
  match r with Ok _ => true | Err _ => false end.

Declare Scope rust_scope.
Delimit Scope rust_scope with rust.

(** The [?] operator of the source. *)
Notation "'let?' x := r 'in' k" :=
  (match r with Ok x => k | Err e => Err e end)
  (at level 10, x pattern, r at level 100, k at level 200) : rust_scope.
Open Scope rust_scope.

(** * Machine integers

    A [w]-bit unsigned integer is a [Z] in [0, 2^w); arithmetic that can wrap is
    written with [wrap w]. *)
Definition wrap (w x : Z) : Z := (x `mod` 2 ^ w)%Z.

(** [x as iW] of an unsigned [x]: two's complement. *)
Definition to_signed (w x : Z) : Z :=
  let y := wrap w x in
  if decide (y < 2 ^ (w - 1))%Z then y else (y - 2 ^ w)%Z.

Definition shl (w x n : Z) : Z := wrap w (Z.shiftl x n).

Definition rotate_left (w x n : Z) : Z :=
  Z.lor (shl w x n) (Z.shiftr x (w - n)).

(** * Development tactics and hints *)
Create HintDb purestd.
Create Rewrite HintDb purestd.

(** Split conjunctions, existentials and trivial equations of the context. *)
Ltac split_hyps :=
  repeat match goal with
  | H : _ ∧ _ |- _ => destruct H
  | H : ∃ _, _ |- _ => destruct H
  end; simplify_eq.

(** Case analysis on every [if]/[match] scrutinee of the goal. *)
Ltac case_all := repeat (case_match; simplify_eq).

Open Scope Z_scope.

Section wrap_lemmas.
Context (w : Z) (Hw : 0 ≤ w).

Lemma pow2_pos : 0 < 2 ^ w.
Proof using Hw. apply Z.pow_pos_nonneg; lia. Qed.

Lemma wrap_range x : 0 ≤ wrap w x < 2 ^ w.
Proof using Hw. apply Z.mod_pos_bound, pow2_pos. Qed.

Lemma wrap_small x : 0 ≤ x < 2 ^ w → wrap w x = x.
Proof using Type. intros. by apply Z.mod_small. Qed.

Lemma wrap_add_l x y : wrap w (wrap w x + y) = wrap w (x + y).
Proof using Type. unfold wrap. by rewrite Zplus_mod_idemp_l. Qed.

Lemma wrap_add_r x y : wrap w (x + wrap w y) = wrap w (x + y).
Proof using Type. unfold wrap. by rewrite Zplus_mod_idemp_r. Qed.

Lemma wrap_land_mask x : Z.land x (2 ^ w - 1) = wrap w x.
Proof using Hw.
  unfold wrap. rewrite <-Z.land_ones by lia.
  by rewrite Z.ones_equiv, <-Z.sub_1_r.
Qed.
End wrap_lemmas.

(** Truncating to [w] bits and then to [v <= w] is truncating to [v]. *)
Lemma wrap_wrap v w x : 0 ≤ v ≤ w → wrap v (wrap w x) = wrap v x.
Proof.
  intros [? ?]. unfold wrap. apply Z.mod_mod_divide.
  exists (2 ^ (w - v)). rewrite <-Z.pow_add_r by lia. f_equal. lia.
Qed.

#[export] Hint Resolve wrap_range wrap_small : purestd.

(** [x | (y << n)] is addition when [x] fits below bit [n]. *)
Lemma lor_shiftl_add x y n :
  0 ≤ n → 0 ≤ x < 2 ^ n → Z.lor x (Z.shiftl y n) = x + y * 2 ^ n.
Proof.
  intros Hn Hx. rewrite <-Z.shiftl_mul_pow2 by lia.
  assert (Hd : Z.land x (Z.shiftl y n) = 0).
  { apply Z.bits_inj'. intros i Hi. rewrite Z.land_spec, Z.bits_0, Z.shiftl_spec by lia.
    destruct (decide (i < n)).
    { rewrite (Z.testbit_neg_r y) by lia. apply andb_false_r. }
    rewrite <-(Z.mod_small x (2 ^ n)) by lia.
    by rewrite Z.mod_pow2_bits_high by lia. }
  by rewrite <-Z.lxor_lor, Z.add_nocarry_lxor.
Qed.

Lemma lor_range w x y :
  0 ≤ w → 0 ≤ x < 2 ^ w → 0 ≤ y < 2 ^ w → 0 ≤ Z.lor x y < 2 ^ w.
Proof.
  intros Hw Hx Hy. split; [apply Z.lor_nonneg; lia|].
  destruct (decide (Z.lor x y = 0)) as [->|?]; [apply pow2_pos; lia|].
  pose proof (proj2 (Z.lor_nonneg x y) ltac:(lia)).
  apply Z.log2_lt_pow2; [lia|]. rewrite Z.log2_lor by lia.
  destruct (decide (w = 0)) as [->|].
  { assert (x = 0) as -> by lia. assert (y = 0) as -> by lia. done. }
  apply Z.max_lub_lt.
  - destruct (decide (x = 0)) as [->|]; [simpl; lia|]. apply Z.log2_lt_pow2; lia.
  - destruct (decide (y = 0)) as [->|]; [simpl; lia|]. apply Z.log2_lt_pow2; lia.
Qed.

(** * Bytes and endianness *)
Definition is_byte (b : Z) : Prop := 0 ≤ b < 256.
#[export] Instance is_byte_dec b : Decision (is_byte b).
Proof. unfold is_byte. apply _. Defined.

(** [uN::from_le_bytes] and [uN::to_le_bytes]; every supported target is little
    endian, so the [_ne_] forms are the same functions. *)
Fixpoint from_le_bytes (bs : list Z) : Z :=
  match bs with
  | [] => 0
  | b :: bs => b + 256 * from_le_bytes bs
  end.

Fixpoint to_le_bytes (n : nat) (x : Z) : list Z :=
  match n with
  | O => []
  | S n => x `mod` 256 :: to_le_bytes n (x / 256)
  end.

Definition from_be_bytes (bs : list Z) : Z := from_le_bytes (reverse bs).
Definition to_be_bytes (n : nat) (x : Z) : list Z := reverse (to_le_bytes n x).

Lemma from_le_bytes_range bs :
  Forall is_byte bs → 0 ≤ from_le_bytes bs < 2 ^ (8 * Z.of_nat (length bs)).
Proof.
  induction 1 as [|b bs Hb _ IH]; [simpl; lia|].
  unfold is_byte in Hb. cbn [from_le_bytes length].
  replace (8 * Z.of_nat (S (length bs))) with (8 + 8 * Z.of_nat (length bs)) by lia.
  rewrite Z.pow_add_r by lia. change (2 ^ 8) with 256. lia.
Qed.

Lemma from_le_bytes_app bs cs :
  from_le_bytes (bs ++ cs)
  = from_le_bytes bs + from_le_bytes cs * 2 ^ (8 * Z.of_nat (length bs)).
Proof.
  induction bs as [|b bs IH]; [simpl; lia|].
  cbn [from_le_bytes length app]. rewrite IH.
  replace (8 * Z.of_nat (S (length bs))) with (8 + 8 * Z.of_nat (length bs)) by lia.
  rewrite Z.pow_add_r by lia. change (2 ^ 8) with 256. lia.
Qed.

Lemma length_to_le_bytes n x : length (to_le_bytes n x) = n.
Proof. revert x. induction n; intros; simpl; auto. Qed.

Lemma to_le_bytes_is_byte n x : Forall is_byte (to_le_bytes n x).
Proof.
  revert x. induction n; intros; constructor; auto.
  apply Z.mod_pos_bound. lia.
Qed.

Lemma from_to_le_bytes n x : from_le_bytes (to_le_bytes n x) = wrap (8 * Z.of_nat n) x.
Proof.
  revert x. induction n as [|n IH]; intros x.
  { unfold wrap. simpl. by rewrite Z.mod_1_r. }
  cbn [to_le_bytes from_le_bytes]. rewrite IH. unfold wrap.
  replace (8 * Z.of_nat (S n)) with (8 + 8 * Z.of_nat n) by lia.
  rewrite Z.pow_add_r by lia. change (2 ^ 8) with 256.
  pose proof (pow2_pos (8 * Z.of_nat n)).
  rewrite Z.rem_mul_r by lia. lia.
Qed.

Lemma to_from_le_bytes bs :
  Forall is_byte bs → to_le_bytes (length bs) (from_le_bytes bs) = bs.
Proof.
  induction 1 as [|b bs Hb _ IH]; [done|]. unfold is_byte in Hb.
  cbn [to_le_bytes from_le_bytes length]. f_equal.
  - rewrite Z.mul_comm, Z_mod_plus_full. by apply Z.mod_small.
  - rewrite Z.mul_comm, Z.div_add by lia. by rewrite Z.div_small, Z.add_0_l.
Qed.

#[export] Hint Rewrite length_to_le_bytes : purestd.
#[export] Hint Resolve to_le_bytes_is_byte : purestd.

(** * Lists *)
Lemma Forall_take_bytes n (bs : list Z) : Forall is_byte bs → Forall is_byte (take n bs).
Proof. apply Forall_take. Qed.
Lemma Forall_drop_bytes n (bs : list Z) : Forall is_byte bs → Forall is_byte (drop n bs).
Proof. apply Forall_drop. Qed.
#[export] Hint Resolve Forall_take_bytes Forall_drop_bytes : purestd.

(** [&l[a..b]] of a list: [None] is the slice-index panic. *)
Definition slice {A} (l : list A) (a b : Z) : option (list A) :=
  if decide (0 ≤ a ≤ b ∧ b ≤ Z.of_nat (length l))
  then Some (take (Z.to_nat (b - a)) (drop (Z.to_nat a) l))
  else None.

(** [l[i]] of a list: [None] is the out-of-bounds panic. *)
Definition index {A} (l : list A) (i : Z) : option A :=
  if decide (0 ≤ i) then l !! Z.to_nat i else None.

Lemma slice_Some {A} (l : list A) a b :
  0 ≤ a ≤ b → b ≤ Z.of_nat (length l) →
  slice l a b = Some (take (Z.to_nat (b - a)) (drop (Z.to_nat a) l)).
Proof. intros. unfold slice. by rewrite decide_True by lia. Qed.

Lemma index_Some_range {A} (l : list A) i x :
  index l i = Some x → 0 ≤ i < Z.of_nat (length l).
Proof.
  unfold index. case_decide; [|done]. intros ?%lookup_lt_Some. lia.
Qed.

Lemma index_is_Some {A} (l : list A) i :
  0 ≤ i < Z.of_nat (length l) → is_Some (index l i).
Proof.
  intros. unfold index. rewrite decide_True by lia. apply lookup_lt_is_Some. lia.
Qed.

Lemma slice_at {A} (pre x post l : list A) a b :
  l = pre ++ x ++ post → Z.of_nat (length pre) = a → b = a + Z.of_nat (length x) →
  slice l a b = Some x.
Proof.
  intros -> <- ->. rewrite slice_Some by (rewrite ?length_app; lia). f_equal.
  rewrite Nat2Z.id, drop_app_length.
  replace (Z.to_nat (Z.of_nat (length pre) + Z.of_nat (length x) - Z.of_nat (length pre)))
    with (length x) by lia.
  apply take_app_length.
Qed.

Lemma index_at {A} (pre post l : list A) x a :
  l = pre ++ x :: post → Z.of_nat (length pre) = a → index l a = Some x.
Proof.
  intros -> <-. unfold index. rewrite decide_True by lia. rewrite Nat2Z.id.
  by rewrite lookup_app_r, Nat.sub_diag by lia.
Qed.

(** * Updating one element of a list (a table slot, a thread of a system) *)
Lemma lookup_upd {A} (l : list A) i q p j x :
  l !! i = Some q →
  <[i := p]> l !! j = Some x ↔ (j = i ∧ x = p ∨ j ≠ i ∧ l !! j = Some x).
Proof.
  intros Hi. rewrite list_lookup_insert_Some. apply lookup_lt_Some in Hi.
  split; [intros [(? & ? & ?)|[? ?]]|intros [[? ?]|[? ?]]]; subst; auto.
Qed.

Lemma sum_list_with_insert {A} (f : A → nat) (l : list A) i x y :
  l !! i = Some x →
  (sum_list_with f (<[i:=y]> l) + f x = sum_list_with f l + f y)%nat.
Proof.
  revert i. induction l as [|a l IH]; intros [|i] Hi; simplify_eq/=; [lia|].
  specialize (IH i Hi). lia.
Qed.

Lemma sum_le_length {A} (f : A → nat) (l : list A) :
  (∀ x, f x ≤ 1)%nat → (sum_list_with f l ≤ length l)%nat.
Proof. intros Hf. induction l as [|x l IH]; cbn; [lia|]. specialize (Hf x). lia. Qed.

Lemma sum_pos {A} (f : A → nat) (l : list A) :
  (0 < sum_list_with f l)%nat ↔ ∃ i x, l !! i = Some x ∧ (0 < f x)%nat.
Proof.
  induction l as [|x l IH]; cbn; [split; [lia|intros ([|] & ? & ? & _); done]|].
  split.
  - intros H. destruct (decide (0 < f x)%nat); [by exists 0%nat, x|].
    destruct (proj1 IH) as (i & y & ? & ?); [lia|]. by exists (S i), y.
  - intros ([|i] & y & Hy & Hp); cbn in Hy; [simplify_eq; lia|].
    assert (0 < sum_list_with f l)%nat by (apply IH; eauto). lia.
Qed.

Lemma sum_list_with_zero {A} (f : A → nat) n x :
  f x = 0%nat → sum_list_with f (replicate n x) = 0%nat.
Proof. intros Hf. induction n as [|n IH]; cbn; [done|]. by rewrite Hf, IH. Qed.

Lemma sum_le_mul {A} (f : A → nat) (b : nat) (l : list A) :
  (∀ x, f x ≤ b)%nat → (sum_list_with f l ≤ b * length l)%nat.
Proof. intros Hf. induction l as [|x l IH]; cbn [sum_list_with length]; [lia|]. specialize (Hf x). lia. Qed.

(** ** Systems that settle *)
(** Every run of [R] from [x] has at most [b] steps, and stops only in a final state. *)
Definition settles {A} (R : A → A → Prop) (final : A → Prop) (b : nat) (x : A) : Prop :=
  (∀ k y, nsteps R k x y → (k ≤ b)%nat)
  ∧ (∀ y, rtc R x y → final y ∨ ∃ z, R y z)
  ∧ ∃ y, rtc R x y ∧ final y.

Lemma settles_weaken {A} (R : A → A → Prop) (final final' : A → Prop) b x :
  (∀ y, rtc R x y → final y → final' y) → settles R final b x → settles R final' b x.
Proof.
  intros Hf (Hb & Hl & y & Hy & Hfin). split_and!; [done| |by eauto].
  intros z Hz. destruct (Hl z Hz); eauto.
Qed.

(** Two parts of a measure, the first weighing more than the second can be. *)
Lemma lex_lt (k m m' a a' : nat) :
  (a' < k)%nat → (m' < m ∨ m' = m ∧ a' < a)%nat → (m' * k + a' < m * k + a)%nat.
Proof. intros Ha [H|[-> H]]; nia. Qed.

Section settling.
Context {A : Type} (R : A → A → Prop) (I final : A → Prop) (work : A → nat).
Context (I_step : ∀ x y, I x → R x y → I y ∧ (work y < work x)%nat).
Context (I_live : ∀ x, I x → final x ∨ ∃ y, R x y).

Lemma settling_bound k x y : I x → nsteps R k x y → I y ∧ (k + work y ≤ work x)%nat.
Proof using I_step.
  intros HI. induction 1 as [x|k x y z Hs _ IH]; [by split; [|lia]|].
  destruct (I_step x y HI Hs) as [HI' Hw]. destruct (IH HI') as [HI'' ?]. split; [done|lia].
Qed.

Lemma settling_reaches x : I x → ∃ y, rtc R x y ∧ final y.
Proof using I_step I_live.
  remember (work x) as w eqn:Hw. revert x Hw. induction (lt_wf w) as [w _ IH]. intros x -> HI.
  destruct (I_live x HI) as [Hf|[y Hy]]; [by exists x|].
  destruct (I_step x y HI Hy) as [HI' Hlt]. destruct (IH _ Hlt y eq_refl HI') as (z & ? & ?).
  exists z. split; [by eapply rtc_l|done].
Qed.

Lemma settling x b : I x → (work x ≤ b)%nat → settles R final b x.
Proof using I_step I_live.
  intros HI Hb. split_and!; [| |by apply settling_reaches].
  - intros k y Hk. destruct (settling_bound k x y HI Hk). lia.
  - intros y [k Hk]%rtc_nsteps. by destruct (settling_bound k x y HI Hk) as [? _]; auto.
Qed.
End settling.

(** A lock recorded by its owner, when one thread takes a step: it keeps, takes or drops the lock. *)
Lemma owner_update {P} (holds : P → bool) (l : list P) (o o' : option nat) i p p' :
  (∀ j, o = Some j ↔ ∃ q, l !! j = Some q ∧ holds q = true) → l !! i = Some p →
  (o' = o ∧ holds p' = holds p
   ∨ o = None ∧ o' = Some i ∧ holds p' = true
   ∨ o' = None ∧ holds p = true ∧ holds p' = false) →
  ∀ j, o' = Some j ↔ ∃ q, <[i := p']> l !! j = Some q ∧ holds q = true.
Proof.
  intros Hown Hi Ho j. setoid_rewrite (lookup_upd _ i p); [|done].
  destruct (decide (j = i)) as [->|Hne].
  - transitivity (holds p' = true); [|naive_solver].
    destruct Ho as [[-> ->]|[(E & -> & ->)|(-> & E & ->)]]; [|done|done].
    rewrite Hown. naive_solver.
  - transitivity (o = Some j); [|rewrite Hown; naive_solver].
    destruct Ho as [[-> _]|[(E & -> & _)|(-> & E & _)]]; [done|..].
    + rewrite E. split; [intros [= ?]; done|done].
    + assert (o = Some i) as -> by (apply Hown; eauto). split; [done|intros [= ?]; done].
Qed.

(** [x & !(2^k - 1)]: rounding down to a multiple of [2^k]. *)
Lemma land_lnot_ones w k x :
  0 ≤ k ≤ w → 0 ≤ x < 2 ^ w → Z.land x (wrap w (Z.lnot (Z.ones k))) = x - x mod 2 ^ k.
Proof.
  intros Hk Hx.
  assert (Z.land x (Z.lnot (Z.ones k)) = x - x mod 2 ^ k) as E.
  { rewrite <-Z.ldiff_land, Z.ldiff_ones_r, Z.shiftl_mul_pow2, Z.shiftr_div_pow2 by lia.
    pose proof (Z.div_mod x (2 ^ k) ltac:(lia)). lia. }
  rewrite <-wrap_land_mask, (Z.land_comm (Z.lnot _)), Z.land_assoc by lia.
  rewrite (Z.land_comm x), <-Z.land_assoc, E, Z.land_comm, wrap_land_mask by lia.
  apply wrap_small. pose proof (Z.mod_pos_bound x (2 ^ k) ltac:(lia)).
  pose proof (Z.mod_le x (2 ^ k) ltac:(lia) ltac:(lia)). lia.
Qed.

(** ** [core::time::Duration]: whole seconds and nanoseconds below one second *)
Record Duration := mkDuration { secs : Z; nanos : Z }.

#[export] Instance Duration_eq_dec : EqDecision Duration.
Proof. solve_decision. Defined.

Definition subsec_micros (d : Duration) : Z := nanos d / 1000.
Definition as_micros (d : Duration) : Z := secs d * 1000000 + subsec_micros d.

(** Take one step of a concrete run and evaluate the state it leads to. *)
Ltac advance tac :=
  eapply rtc_l; [solve [tac]|];
  lazymatch goal with |- rtc ?R ?s ?s' => let s1 := eval vm_compute in s in change (rtc R s1 s') end.
