(* ===== verification/SipHash.v ===== *)
(** SipHash-1-3 (src/src/hash.rs).

    [SipHasher13] is the streaming hasher with the source's fields; [write] and
    [finish] follow the source statement by statement, with slice indexing that
    can fail.  [siphash13] is the one-shot reference definition, written over the
    whole message.  The theorems show that indexing never fails and that any
    split of a message into [write] calls hashes to the reference value. *)
From S2P Require Import Prelude.

Section codec.
(** Load [len] bytes of [buf] from [start], little endian (the byte loop). *)
Fixpoint u8to64_le_loop (buf : list Z) (start : Z) (out i : Z) (n : nat) : option Z :=
  match n with
  | O => Some out
  | S n =>
      b ← index buf (start + i);
      u8to64_le_loop buf start (Z.lor out (shl 64 b (8 * i))) (i + 1) n
  end.

Definition u8to64_le (buf : list Z) (start len : Z) : option Z :=
  u8to64_le_loop buf start 0 0 (Z.to_nat len).

Definition load_u64_le (buf : list Z) (start : Z) : option Z :=
  bytes ← slice buf start (start + 8);
  Some (from_le_bytes bytes).
End codec.

Definition vstate : Type := Z * Z * Z * Z.

Definition sipround (v : vstate) : vstate :=
  let '(v0, v1, v2, v3) := v in
  let v0 := wrap 64 (v0 + v1) in
  let v1 := rotate_left 64 v1 13 in
  let v1 := Z.lxor v1 v0 in
  let v0 := rotate_left 64 v0 32 in
  let v2 := wrap 64 (v2 + v3) in
  let v3 := rotate_left 64 v3 16 in
  let v3 := Z.lxor v3 v2 in
  let v0 := wrap 64 (v0 + v3) in
  let v3 := rotate_left 64 v3 21 in
  let v3 := Z.lxor v3 v0 in
  let v2 := wrap 64 (v2 + v1) in
  let v1 := rotate_left 64 v1 17 in
  let v1 := Z.lxor v1 v2 in
  let v2 := rotate_left 64 v2 32 in
  (v0, v1, v2, v3).

Record SipHasher13 := mkSip {
  v0 : Z; v1 : Z; v2 : Z; v3 : Z;
  length_ : Z; (* usize *)
  tail : Z;
  ntail : Z;   (* usize *)
}.

Definition hv (h : SipHasher13) : vstate := (v0 h, v1 h, v2 h, v3 h).

Definition new_with_keys (k0 k1 : Z) : SipHasher13 :=
  mkSip (Z.lxor k0 0x736f6d6570736575) (Z.lxor k1 0x646f72616e646f6d)
        (Z.lxor k0 0x6c7967656e657261) (Z.lxor k1 0x7465646279746573)
        0 0 0.

Definition new : SipHasher13 := new_with_keys 0 0.

(** One message word: [v3 ^= m; sipround; v0 ^= m]. *)
Definition compress (v : vstate) (m : Z) : vstate :=
  let '(a, b, c, d) := v in
  let '(a, b, c, d) := sipround (a, b, c, Z.lxor d m) in
  (Z.lxor a m, b, c, d).

(** The [while i < len - left] loop of [write]; [fuel] bounds its iterations. *)
Fixpoint write_loop (fuel : nat) (msg : list Z) (v : vstate) (i stop : Z)
    : option (vstate * Z) :=
  if decide (i < stop) then
    match fuel with
    | O => None
    | S fuel =>
        mi ← load_u64_le msg i;
        write_loop fuel msg (compress v mi) (i + 8) stop
    end
  else Some (v, i).

Definition with_v (v : vstate) (length tail ntail : Z) : SipHasher13 :=
  let '(a, b, c, d) := v in mkSip a b c d length tail ntail.

(** The part of [write] after the pending tail: whole words, then the new tail. *)
Definition write_rest (v : vstate) (length : Z) (msg : list Z) (needed : Z)
    : option SipHasher13 :=
  let len := Z.of_nat (base.length msg) in
  let remaining := len - needed in
  let left := remaining `mod` 8 in
  '(v, i) ← write_loop (base.length msg) msg v needed (len - left);
  tl ← u8to64_le msg i left;
  Some (with_v v length tl left).

Definition write (t : Target) (h : SipHasher13) (msg : list Z) : option SipHasher13 :=
  let len := Z.of_nat (base.length msg) in
  let length := wrap (usize_bits t) (length_ h + len) in
  if decide (ntail h ≠ 0) then
    let needed := 8 - ntail h in
    let take := Z.min len needed in
    w ← u8to64_le msg 0 take;
    let tl := Z.lor (tail h) (shl 64 w (8 * ntail h)) in
    if decide (len < needed) then
      Some (with_v (hv h) length tl (ntail h + len))
    else
      write_rest (compress (hv h) tl) length msg needed
  else write_rest (hv h) length msg 0.

Definition finish (h : SipHasher13) : Z :=
  let b := Z.lor (shl 64 (Z.land (length_ h) 0xff) 56) (tail h) in
  let '(a, c, d, e) := compress (hv h) b in
  let v := (a, c, Z.lxor d 0xff, e) in
  let '(a, c, d, e) := sipround (sipround (sipround v)) in
  Z.lxor (Z.lxor (Z.lxor a c) d) e.

Definition write_all (t : Target) (h : SipHasher13) (chunks : list (list Z))
    : option SipHasher13 :=
  foldl (λ oh c, h ← oh; write t h c) (Some h) chunks.

(** [DefaultHasher] and [RandomState::build_hasher] only fix the keys. *)
Definition DefaultHasher_new : SipHasher13 := new_with_keys 0 0.
Definition build_hasher (k0 k1 : Z) : SipHasher13 := new_with_keys k0 k1.

(** [process_keys]: the keys from 16 bytes of kernel entropy, or the fixed
    fallback when the syscall failed. *)
Definition process_keys (getrandom : option (list Z)) : option (Z * Z) :=
  match getrandom with
  | Some buf =>
      a ← slice buf 0 8; b ← slice buf 8 16;
      Some (from_le_bytes a, from_le_bytes b)
  | None => Some (0x0706050403020100, 0x0f0e0d0c0b0a0908)
  end.

(** ** Reference definition over the whole message *)
Definition words (n : nat) (msg : list Z) : list Z :=
  (λ i, from_le_bytes (take 8 (drop (8 * i) msg))) <$> seq 0 n.

Definition absorb (v : vstate) (msg : list Z) : vstate :=
  foldl compress v (words (length msg / 8) msg).

Definition remainder (msg : list Z) : list Z := drop (8 * (length msg / 8)) msg.

Definition siphash13 (k0 k1 : Z) (msg : list Z) : Z :=
  let v := absorb (hv (new_with_keys k0 k1)) msg in
  let last := from_le_bytes (remainder msg)
              + (Z.of_nat (length msg) `mod` 256) * 2 ^ 56 in
  let '(a, c, d, e) := compress v last in
  let '(a, c, d, e) := sipround (sipround (sipround (a, c, Z.lxor d 0xff, e))) in
  Z.lxor (Z.lxor (Z.lxor a c) d) e.

(** ** Words of a message *)
Lemma words_app_l n msg m :
  (8 * n ≤ length msg)%nat → words n (msg ++ m) = words n msg.
Proof.
  intros Hn. unfold words. apply list_fmap_ext. intros j i Hi.
  apply lookup_seq in Hi as [-> Hi]. simpl.
  rewrite drop_app_le by lia. rewrite take_app_le; [done|]. rewrite length_drop. lia.
Qed.

Lemma words_add n m msg :
  words (n + m) msg = words n msg ++ words m (drop (8 * n) msg).
Proof.
  unfold words. rewrite seq_app, fmap_app. f_equal. simpl.
  rewrite <-(Nat.add_0_r n) at 1. rewrite <-fmap_add_seq, <-list_fmap_compose.
  apply list_fmap_ext. intros j i _. simpl. rewrite drop_drop.
  do 3 f_equal. lia.
Qed.

Lemma words_S n msg :
  words (S n) msg = from_le_bytes (take 8 msg) :: words n (drop 8 msg).
Proof. change (S n) with (1 + n)%nat. by rewrite words_add. Qed.

Lemma div8_lt (msg : list Z) : (8 * (length msg / 8) ≤ length msg < 8 * (length msg / 8) + 8)%nat.
Proof.
  pose proof (Nat.div_mod_eq (length msg) 8).
  pose proof (Nat.mod_upper_bound (length msg) 8). lia.
Qed.

Lemma length_remainder msg : length (remainder msg) = (length msg `mod` 8)%nat.
Proof.
  unfold remainder. rewrite length_drop.
  pose proof (Nat.div_mod_eq (length msg) 8). lia.
Qed.

Lemma remainder_bytes msg : Forall is_byte msg → Forall is_byte (remainder msg).
Proof. apply Forall_drop. Qed.

(** ** The loops *)
Lemma u8to64_le_loop_spec buf start n : ∀ pre rest i,
  0 ≤ start →
  Forall is_byte (pre ++ rest) → i = Z.of_nat (length pre) →
  (length rest ≤ 8 - length pre)%nat → n = length rest →
  take (length pre + n) (drop (Z.to_nat start) buf) = pre ++ rest →
  u8to64_le_loop buf start (from_le_bytes pre) i n = Some (from_le_bytes (pre ++ rest)).
Proof.
  induction n as [|n IH]; intros pre rest i Hs Hb -> Hl Hn Ht.
  { destruct rest; [|done]. by rewrite app_nil_r. }
  destruct rest as [|b rest]; [done|]. simpl in *.
  assert (Hlk : drop (Z.to_nat start) buf !! length pre = Some b).
  { assert ((pre ++ b :: rest) !! length pre = Some b) as Hp
      by (by rewrite lookup_app_r, Nat.sub_diag).
    rewrite <-Ht in Hp. rewrite lookup_take_lt in Hp by lia. done. }
  rewrite lookup_drop in Hlk.
  assert (index buf (start + Z.of_nat (length pre)) = Some b) as ->.
  { unfold index. rewrite decide_True by lia.
    by replace (Z.to_nat (start + Z.of_nat (length pre)))
      with (Z.to_nat start + length pre)%nat by lia. }
  simpl.
  apply Forall_app in Hb as [Hpre Hr]. inversion_clear Hr as [|?? Hbyte Hrest].
  pose proof (from_le_bytes_range pre Hpre) as Hrng.
  assert (Z.lor (from_le_bytes pre) (shl 64 b (8 * Z.of_nat (length pre)))
          = from_le_bytes (pre ++ [b])) as ->.
  { rewrite from_le_bytes_app. simpl. rewrite Z.mul_0_r, Z.add_0_r.
    unfold shl. rewrite wrap_small; [by apply lor_shiftl_add; lia|].
    unfold is_byte in Hbyte. rewrite Z.shiftl_mul_pow2 by lia. split; [lia|].
    apply Z.lt_le_trans with (2 ^ 8 * 2 ^ (8 * Z.of_nat (length pre))).
    - apply Zmult_lt_compat_r; [apply pow2_pos; lia | simpl; lia].
    - rewrite <-Z.pow_add_r by lia. apply Z.pow_le_mono_r; lia. }
  rewrite (IH (pre ++ [b]) rest).
  - by rewrite <-app_assoc.
  - done.
  - rewrite <-app_assoc. apply Forall_app. split; [done | by constructor].
  - rewrite length_app. simpl. lia.
  - rewrite length_app. simpl. lia.
  - lia.
  - rewrite length_app, <-app_assoc. simpl.
    replace (length pre + 1 + n)%nat with (length pre + S n)%nat by lia. done.
Qed.

Lemma u8to64_le_spec buf start len :
  Forall is_byte buf → 0 ≤ start → 0 ≤ len ≤ 8 → start + len ≤ Z.of_nat (length buf) →
  u8to64_le buf start len
  = Some (from_le_bytes (take (Z.to_nat len) (drop (Z.to_nat start) buf))).
Proof.
  intros Hb Hs Hl Hend. unfold u8to64_le.
  rewrite (u8to64_le_loop_spec buf start (Z.to_nat len) []
             (take (Z.to_nat len) (drop (Z.to_nat start) buf))); simpl; try done.
  - by apply Forall_take, Forall_drop.
  - rewrite length_take, length_drop. lia.
  - rewrite length_take, length_drop. lia.
Qed.

Lemma load_u64_le_spec buf start :
  0 ≤ start → start + 8 ≤ Z.of_nat (length buf) →
  load_u64_le buf start = Some (from_le_bytes (take 8 (drop (Z.to_nat start) buf))).
Proof.
  intros. unfold load_u64_le. rewrite slice_Some by lia. simpl.
  by replace (Z.to_nat (start + 8 - start)) with 8%nat by lia.
Qed.

Lemma write_loop_spec n : ∀ fuel msg v i,
  0 ≤ i → i + 8 * Z.of_nat n ≤ Z.of_nat (length msg) → (n ≤ fuel)%nat →
  write_loop fuel msg v i (i + 8 * Z.of_nat n)
  = Some (foldl compress v (words n (drop (Z.to_nat i) msg)), i + 8 * Z.of_nat n).
Proof.
  induction n as [|n IH]; intros fuel msg v i Hi Hend Hf.
  { rewrite Z.mul_0_r, Z.add_0_r. destruct fuel; simpl; by rewrite decide_False by lia. }
  destruct fuel as [|fuel]; [lia|]. cbn [write_loop].
  rewrite decide_True by lia. rewrite load_u64_le_spec by lia. cbn [mbind option_bind].
  replace (i + 8 * Z.of_nat (S n)) with (i + 8 + 8 * Z.of_nat n) by lia.
  rewrite IH by lia. f_equal. f_equal.
  rewrite words_S. simpl. do 2 f_equal. rewrite drop_drop. f_equal. lia.
Qed.

(** ** Absorbing a message in two parts *)
Lemma absorb_app v p m :
  (length p `mod` 8 = 0)%nat → absorb v (p ++ m) = absorb (absorb v p) m.
Proof.
  intros Hp. unfold absorb. rewrite length_app.
  assert (Hl : length p = (8 * (length p / 8))%nat)
    by (pose proof (Nat.div_mod_eq (length p) 8); lia).
  set (a := (length p / 8)%nat) in *.
  assert (((length p + length m) / 8)%nat = (a + length m / 8)%nat) as ->.
  { rewrite Hl. rewrite (Nat.mul_comm 8 a), Nat.div_add_l; lia. }
  rewrite words_add, foldl_app, words_app_l by lia.
  rewrite drop_app_length' by lia. done.
Qed.

Lemma remainder_app p m :
  (length p `mod` 8 = 0)%nat → remainder (p ++ m) = remainder m.
Proof.
  intros Hp. unfold remainder. rewrite length_app.
  assert (Hl : length p = (8 * (length p / 8))%nat)
    by (pose proof (Nat.div_mod_eq (length p) 8); lia).
  set (a := (length p / 8)%nat) in *. rewrite Hl at 1.
  rewrite (Nat.mul_comm 8 a), Nat.div_add_l by lia.
  rewrite drop_app_ge by lia. f_equal. lia.
Qed.

Lemma mod8_app {A} (p m : list A) :
  (length p `mod` 8 = 0)%nat → (length (p ++ m) `mod` 8)%nat = (length m `mod` 8)%nat.
Proof. intros Hp. by rewrite length_app, Nat.Div0.add_mod, Hp, Nat.add_0_l, Nat.Div0.mod_mod. Qed.

Lemma absorb_lt8 v m : (length m < 8)%nat → absorb v m = v.
Proof. intros Hm. unfold absorb. by rewrite Nat.div_small. Qed.

Lemma remainder_lt8 m : (length m < 8)%nat → remainder m = m.
Proof. intros Hm. unfold remainder. by rewrite Nat.div_small. Qed.

Lemma split_remainder msg :
  msg = take (8 * (length msg / 8)) msg ++ remainder msg.
Proof. symmetry. apply take_drop. Qed.

Lemma length_take_words (msg : list Z) :
  (length (take (8 * (length msg / 8)) msg) `mod` 8 = 0)%nat.
Proof.
  rewrite length_take_le by (pose proof (div8_lt msg); lia).
  rewrite Nat.mul_comm. apply Nat.Div0.mod_mul.
Qed.

(** Only the incomplete last word matters to how the next bytes are absorbed. *)
Lemma absorb_snoc v msg m : absorb v (msg ++ m) = absorb (absorb v msg) (remainder msg ++ m).
Proof.
  pose proof (split_remainder msg) as Hs. pose proof (length_take_words msg) as Ht.
  assert (absorb v msg = absorb v (take (8 * (length msg / 8)) msg)) as ->.
  { rewrite Hs at 1. rewrite absorb_app by done. apply absorb_lt8.
    rewrite length_remainder. by apply Nat.mod_upper_bound. }
  rewrite Hs at 1. by rewrite <-app_assoc, absorb_app.
Qed.

Lemma remainder_snoc msg m : remainder (msg ++ m) = remainder (remainder msg ++ m).
Proof.
  pose proof (split_remainder msg) as Hs. pose proof (length_take_words msg) as Ht.
  rewrite Hs at 1. rewrite <-app_assoc. by rewrite remainder_app.
Qed.

Lemma mod8_snoc (msg m : list Z) :
  (length (msg ++ m) `mod` 8)%nat = (length (remainder msg ++ m) `mod` 8)%nat.
Proof. by rewrite !length_app, length_remainder, Nat.Div0.add_mod_idemp_l. Qed.

(** ** Refinement: the streaming state represents the message written so far *)
Definition rep (t : Target) (v : vstate) (msg : list Z) (h : SipHasher13) : Prop :=
  hv h = absorb v msg ∧ tail h = from_le_bytes (remainder msg)
  ∧ ntail h = Z.of_nat (length msg `mod` 8)
  ∧ length_ h = wrap (usize_bits t) (Z.of_nat (length msg)).

Lemma usize_bits_cases t : usize_bits t = 32 ∨ usize_bits t = 64.
Proof. destruct t; auto. Qed.

Lemma hv_with_v v l tl nt : hv (with_v v l tl nt) = v.
Proof. by destruct v as [[[]]]. Qed.

Lemma with_v_rep t v msg a L tl nt :
  a = absorb v msg → tl = from_le_bytes (remainder msg) →
  nt = Z.of_nat (length msg `mod` 8) →
  L = wrap (usize_bits t) (Z.of_nat (length msg)) → rep t v msg (with_v a L tl nt).
Proof.
  intros -> -> -> ->. unfold rep. rewrite hv_with_v. split; [done|].
  by destruct (absorb v msg) as [[[]]].
Qed.

Lemma write_rest_spec v L msg (k : nat) :
  Forall is_byte msg → (k ≤ length msg)%nat →
  write_rest v L msg (Z.of_nat k)
  = Some (with_v (absorb v (drop k msg)) L (from_le_bytes (remainder (drop k msg)))
            (Z.of_nat (length (drop k msg) `mod` 8))).
Proof.
  intros Hb Hk. unfold write_rest. rewrite length_drop.
  set (n := ((length msg - k) / 8)%nat).
  assert (Hn : (length msg - k = 8 * n + (length msg - k) `mod` 8)%nat)
    by apply Nat.div_mod_eq.
  pose proof (Nat.mod_upper_bound (length msg - k) 8 ltac:(lia)) as Hm.
  assert ((Z.of_nat (length msg) - Z.of_nat k) `mod` 8
          = Z.of_nat ((length msg - k) `mod` 8)) as ->
    by (rewrite <-Nat2Z.inj_sub, Nat2Z.inj_mod by lia; done).
  replace (Z.of_nat (length msg) - Z.of_nat ((length msg - k) `mod` 8))
    with (Z.of_nat k + 8 * Z.of_nat n) by lia.
  rewrite write_loop_spec by lia. cbn [mbind option_bind].
  rewrite u8to64_le_spec by (done || lia). cbn [mbind option_bind].
  f_equal. unfold remainder, absorb. rewrite length_drop. fold n.
  rewrite Nat2Z.id, drop_drop.
  replace (Z.to_nat (Z.of_nat k + 8 * Z.of_nat n)) with (k + 8 * n)%nat by lia.
  by rewrite take_ge by (rewrite length_drop; lia).
Qed.

(** Shifting new bytes above the pending ones appends them. *)
Lemma join_tail r m :
  Forall is_byte r → Forall is_byte m → (length r + length m ≤ 8)%nat →
  Z.lor (from_le_bytes r) (shl 64 (from_le_bytes m) (8 * Z.of_nat (length r)))
  = from_le_bytes (r ++ m).
Proof.
  intros Hr Hm Hl. pose proof (from_le_bytes_range r Hr). pose proof (from_le_bytes_range m Hm).
  rewrite from_le_bytes_app. unfold shl. rewrite wrap_small; [by apply lor_shiftl_add; lia|].
  rewrite Z.shiftl_mul_pow2 by lia. split; [lia|].
  apply Z.lt_le_trans with (2 ^ (8 * Z.of_nat (length m)) * 2 ^ (8 * Z.of_nat (length r))).
  - apply Zmult_lt_compat_r; [apply pow2_pos; lia | lia].
  - rewrite <-Z.pow_add_r by lia. apply Z.pow_le_mono_r; lia.
Qed.

(** A full pending word is compressed before the rest of the chunk. *)
Lemma absorb_word v w m :
  length w = 8%nat → absorb v (w ++ m) = absorb (compress v (from_le_bytes w)) m.
Proof.
  intros Hw. rewrite absorb_app by by rewrite Hw. f_equal.
  unfold absorb. rewrite Hw. unfold words. simpl. by rewrite drop_0, take_ge by lia.
Qed.

Lemma write_rep t v msg h m :
  Forall is_byte msg → Forall is_byte m → rep t v msg h →
  ∃ h', write t h m = Some h' ∧ rep t v (msg ++ m) h'.
Proof.
  intros Hmsg Hm (Hv & Htl & Hnt & Hlen).
  pose proof (remainder_bytes msg Hmsg) as Hrb.
  pose proof (length_remainder msg) as Hrl.
  pose proof (Nat.mod_upper_bound (length msg) 8 ltac:(lia)) as Hmod.
  assert (HL : wrap (usize_bits t) (length_ h + Z.of_nat (length m))
          = wrap (usize_bits t) (Z.of_nat (length (msg ++ m))))
    by (by rewrite Hlen, wrap_add_l, length_app, Nat2Z.inj_add).
  unfold write. rewrite Hnt, Htl, <-Hrl.
  set (r := remainder msg) in *. case_decide as Hz; last first.
  { (* no pending tail *)
    assert (Hr : r = []) by (apply nil_length_inv; lia).
    rewrite (write_rest_spec _ _ m 0), drop_0 by (done || lia).
    eexists. split; [done|]. apply with_v_rep; [| | |done];
      first [rewrite absorb_snoc | rewrite remainder_snoc | rewrite mod8_snoc]; fold r; by rewrite Hr, ?Hv. }
  rewrite u8to64_le_spec by (done || lia). cbn [mbind option_bind]. rewrite drop_0.
  case_decide as Hshort.
  { (* the chunk does not complete the pending word *)
    rewrite take_ge by lia. eexists. split; [done|].
    assert (length (r ++ m) < 8)%nat by (rewrite length_app; lia).
    apply with_v_rep; [| | |done];
      first [rewrite absorb_snoc | rewrite remainder_snoc | rewrite mod8_snoc]; fold r.
    - by rewrite absorb_lt8.
    - rewrite remainder_lt8 by done. apply join_tail; [done..|lia].
    - rewrite (Nat.mod_small (length (r ++ m))) by done. rewrite length_app. lia. }
  (* it does: one word from the tail, then the rest of the chunk *)
  set (k := (8 - length r)%nat).
  replace (Z.min (Z.of_nat (length m)) (8 - Z.of_nat (length r))) with (Z.of_nat k) by lia.
  replace (8 - Z.of_nat (length r)) with (Z.of_nat k) by lia. rewrite Nat2Z.id.
  assert (length (r ++ take k m) = 8)%nat as H8 by (rewrite length_app, length_take; lia).
  rewrite join_tail; [|done|by apply Forall_take|by rewrite length_app in H8; lia].
  rewrite write_rest_spec by (done || lia). eexists. split; [done|].
  apply with_v_rep; [| | |done]; first [rewrite absorb_snoc | rewrite remainder_snoc | rewrite mod8_snoc]; fold r;
    replace (r ++ m) with ((r ++ take k m) ++ drop k m) by (by rewrite <-app_assoc, take_drop).
  - by rewrite absorb_word, Hv.
  - by rewrite remainder_app by by rewrite H8.
  - by rewrite mod8_app by by rewrite H8.
Qed.

Lemma write_all_rep t v chunks : ∀ msg h,
  Forall is_byte msg → Forall (Forall is_byte) chunks → rep t v msg h →
  ∃ h', write_all t h chunks = Some h' ∧ rep t v (msg ++ concat chunks) h'.
Proof.
  unfold write_all. induction chunks as [|c cs IH]; intros msg h Hmsg Hcs Hrep.
  { exists h. simpl. by rewrite app_nil_r. }
  inversion_clear Hcs as [|?? Hc Hcs'].
  destruct (write_rep t v msg h c) as (h1 & Hw & Hr); [done..|].
  destruct (IH (msg ++ c) h1) as (h2 & Hw2 & Hr2); [by apply Forall_app|done..|].
  exists h2. cbn [foldl mbind option_bind concat]. rewrite Hw, app_assoc. done.
Qed.

Lemma new_rep t k0 k1 : rep t (hv (new_with_keys k0 k1)) [] (new_with_keys k0 k1).
Proof. by repeat split; destruct t. Qed.

(** The low byte of the length survives the wrap-around of [usize]. *)
Lemma length_byte t n : Z.land (wrap (usize_bits t) n) 0xff = n `mod` 256.
Proof.
  change 0xff with (2 ^ 8 - 1). rewrite wrap_land_mask by lia.
  destruct (usize_bits_cases t) as [-> | ->]; by rewrite wrap_wrap by lia.
Qed.

Lemma finish_rep t k0 k1 msg h :
  Forall is_byte msg → rep t (hv (new_with_keys k0 k1)) msg h →
  finish h = siphash13 k0 k1 msg.
Proof.
  intros Hb (Hv & Htl & _ & Hlen). unfold finish, siphash13.
  rewrite Hv, Hlen, Htl, length_byte.
  assert (Z.lor (shl 64 (Z.of_nat (length msg) `mod` 256) 56) (from_le_bytes (remainder msg))
          = from_le_bytes (remainder msg) + Z.of_nat (length msg) `mod` 256 * 2 ^ 56) as ->.
  { pose proof (Z.mod_pos_bound (Z.of_nat (length msg)) 256 ltac:(lia)).
    pose proof (from_le_bytes_range _ (remainder_bytes msg Hb)) as Hr.
    rewrite length_remainder in Hr.
    pose proof (Nat.mod_upper_bound (length msg) 8 ltac:(lia)).
    unfold shl. rewrite wrap_small by (rewrite Z.shiftl_mul_pow2 by lia; lia).
    rewrite Z.lor_comm. apply lor_shiftl_add; [lia|]. split; [lia|].
    eapply Z.lt_le_trans; [apply Hr|]. apply Z.pow_le_mono_r; lia. }
  done.
Qed.

(** C21: streaming equivalence. For every sequence of [write] calls on a fresh hasher no slice
    access is out of bounds, and [finish] returns the SipHash-1-3 of the
    concatenated message, whatever the chunk boundaries and the width of
    [usize]. *)
Theorem streaming_eq_reference (t : Target) (k0 k1 : Z) (chunks : list (list Z))
    (Hbytes : Forall (Forall is_byte) chunks) :
  ∃ h, write_all t (new_with_keys k0 k1) chunks = Some h
       ∧ finish h = siphash13 k0 k1 (concat chunks).
Proof.
  destruct (write_all_rep t (hv (new_with_keys k0 k1)) chunks [] (new_with_keys k0 k1))
    as (h & Hw & Hr); [constructor | done | apply new_rep |].
  exists h. split; [done|]. apply (finish_rep t); [|done].
  simpl. by apply Forall_concat.
Qed.

Definition sample_chunks : list (list Z) := [[1; 2; 3]; []; [4; 5; 6; 7; 8; 9; 10; 11; 12; 13; 14; 15; 16; 17]; [255]].

(** Witness of C21: an uneven split of an 18-byte message. *)
Lemma streaming_eq_reference_witness :
  ∃ h, write_all I686Linux (new_with_keys 7 9) sample_chunks = Some h
       ∧ finish h = siphash13 7 9 (concat sample_chunks).
Proof.
  apply (streaming_eq_reference I686Linux 7 9 sample_chunks).
  apply (bool_decide_unpack _). vm_compute. exact I.
Defined.

(** The reference vectors of the canonical implementation: message [i] is the
    [i] bytes [0, 1, .., i-1] under the key bytes [00..0f]. *)
Definition SIP13_VECTORS : list Z :=
  [0xabac0158050fc4dc; 0xc9f49bf37d57ca93; 0x82cb9b024dc7d44d; 0x8bf80ab8e7ddf7fb;
   0xcf75576088d38328; 0xdef9d52f49533b67; 0xc50d2b50c59f22a7; 0xd3927d989bb11140;
   0x369095118d299a8e; 0x25a48eb36c063de4; 0x79de85ee92ff097f; 0x70c118c1f94dc352;
   0x78a384b157b4d9a2; 0x306f760c1229ffa7; 0x605aa111c0f95d34; 0xd320d86d2a519956;
   0xcc4fdd1a7d908b66; 0x9cf2689063dbd80c; 0x8ffc389cb473e63e; 0xf21f9de58d297d1c;
   0xc0dc2f46a6cce040; 0xb992abfe2b45f844; 0x7ffe7b9ba320872e; 0x525a0e7fdae6c123;
   0xf464aeb267349c8c; 0x45cd5928705b0979; 0x3a3e35e3ca9913a5; 0xa91dc74e4ade3b35;
   0xfb0bed02ef6cd00d; 0x88d93cb44ab1e1f4; 0x540f11d643c5e663; 0x2370dd1f8c21d1bc;
   0x81157b6c16a7b60d; 0x4d54b9e57a8ff9bf; 0x759f12781f2a753e; 0xcea1a3bebf186b91;
   0x2cf508d3ada26206; 0xb6101c2da3c33057; 0xb3f47496ae3a36a1; 0x626b57547b108392;
   0xc1d2363299e41531; 0x667cc1923f1ad944; 0x65704ffec8138825; 0x24f280d1c28949a6;
   0xc2ca1cedfaf8876b; 0xc2164bfc9f042196; 0xa16e9c9368b1d623; 0x49fb169c8b5114fd;
   0x9f3143f8df074c46; 0xc6fdaf2412cc86b3; 0x7eaf49d10a52098f; 0x1cf313559d292f9a;
   0xc44a30dda2f41f12; 0x36fae98943a71ed0; 0x318fb34c73f0bce6; 0xa27abf3670a7e980;
   0xb4bcc0db243c6d75; 0x23f8d852fdb71513; 0x8f035f4da67d8a08; 0xd89cd0e5b7e8f148;
   0xf6f4e6bcf7a644ee; 0xaec59ad80f1837f2; 0xc3b2f6154b6694e0; 0x9d199062b7bbb3a8].

(** Conformance. Single-shot hashing of the 64 standard inputs under the
    standard key gives the 64 values of the canonical SipHash-1-3. *)
Theorem sip13_vectors_match :
  (λ n, finish <$> write X86_64Linux
          (new_with_keys 0x0706050403020100 0x0f0e0d0c0b0a0908)
          (Z.of_nat <$> seq 0 n)) <$> seq 0 64
  = Some <$> SIP13_VECTORS.
Proof. vm_compute. reflexivity. Qed.
