(* ===== verification/HashMap.v ===== *)
(** [HashMap] of src/src/collections.rs: open addressing, linear probing,
    tombstones.

    [slots] is the [Vec] of slots, indexed as the source indexes it; a function
    returns [None] where the source panics (index out of bounds, [unreachable!])
    or would probe forever, so "returns [Some]" is part of every theorem below.
    The contract is a finite map: [abs m] is the [gmap] the table stores, and each
    operation is shown to be the corresponding map operation. *)
From S2P Require Import Prelude.

(** What the table needs of [K: Hash] and [S: BuildHasher]: [hash_one]. *)
Class BuildHasher (S K : Type) : Type := hash_one : S → K → Z.

Inductive Slot (K V : Type) : Type :=
| Empty
| Tombstone
| Full (h : Z) (k : K) (v : V).
Arguments Empty {K V}.
Arguments Tombstone {K V}.
Arguments Full {K V} h k v.

Definition is_empty_slot {K V} (s : Slot K V) : bool :=
  match s with Empty => true | _ => false end.

Record HashMap (K V S : Type) := mkHashMap {
  hash_builder : S;
  slots : list (Slot K V);
  len : Z;
  used : Z;   (* len + tombstones *)
}.
Arguments mkHashMap {K V S}.
Arguments hash_builder {K V S}.
Arguments slots {K V S}.
Arguments len {K V S}.
Arguments used {K V S}.

Section operations.
Context (t : Target) {K V S : Type} `{EqDecision K} `{BuildHasher S K}.
Implicit Types (m : HashMap K V S) (sl : list (Slot K V)).

Definition with_hasher (hb : S) : HashMap K V S := mkHashMap hb [] 0 0.

Definition is_empty m : bool := bool_decide (len m = 0).
Definition cap m : Z := Z.of_nat (length (slots m)).
Definition capacity m : Z := cap m / 8 * 7.

Definition clear m : HashMap K V S :=
  mkHashMap (hash_builder m) ((λ _, Empty) <$> slots m) 0 0.

(** [h as usize & mask] *)
Definition start (h mask : Z) : Z := Z.land (wrap (usize_bits t) h) mask.
Definition next_index (i mask : Z) : Z := Z.land (i + 1) mask.

(** The re-insertion loop of [grow_to] for one entry. *)
Fixpoint place (fuel : nat) sl (mask i : Z) (s : Slot K V) : option (list (Slot K V)) :=
  match fuel with
  | O => None
  | Datatypes.S fuel =>
      x ← index sl i;
      if is_empty_slot x then Some (<[Z.to_nat i := s]> sl)
      else place fuel sl mask (next_index i mask) s
  end.

Definition reinsert (mask : Z) (acc : option (list (Slot K V))) (s : Slot K V)
    : option (list (Slot K V)) :=
  sl ← acc;
  match s with
  | Full h k v => place (length sl) sl mask (start h mask) s
  | _ => Some sl
  end.

Definition grow_to m (new_cap : Z) : option (HashMap K V S) :=
  sl ← foldl (reinsert (new_cap - 1)) (Some (replicate (Z.to_nat new_cap) Empty)) (slots m);
  Some (mkHashMap (hash_builder m) sl (len m) (len m)).

Definition ensure_capacity m : option (HashMap K V S) :=
  if decide (cap m = 0) then grow_to m 8
  else if decide (cap m * 7 ≤ (used m + 1) * 8) then grow_to m (cap m * 2)
  else Some m.

Fixpoint probe_loop (fuel : nat) sl (mask hash : Z) (key : K) (i : Z) (ins : option Z)
    : option (option Z * Z) :=
  match fuel with
  | O => None
  | Datatypes.S fuel =>
      x ← index sl i;
      match x with
      | Empty => Some (None, default i ins)
      | Tombstone =>
          probe_loop fuel sl mask hash key (next_index i mask)
            (match ins with None => Some i | Some j => Some j end)
      | Full h k _ =>
          if decide (h = hash ∧ k = key) then Some (Some i, i)
          else probe_loop fuel sl mask hash key (next_index i mask) ins
      end
  end.

Definition probe m (hash : Z) (key : K) : option (option Z * Z) :=
  let mask := cap m - 1 in
  probe_loop (length (slots m)) (slots m) mask hash key (start hash mask) None.

(** Fill slot [ins] with a new entry ([insert] and [or_insert_with] share it). *)
Definition fill m (ins hash : Z) (key : K) (value : V) : option (HashMap K V S) :=
  s ← index (slots m) ins;
  Some (mkHashMap (hash_builder m) (<[Z.to_nat ins := Full hash key value]> (slots m))
          (len m + 1) (if is_empty_slot s then used m + 1 else used m)).

(** Apply [f] to the value of the [Full] slot [i]; anything else is [unreachable!]. *)
Definition update_value m (i : Z) (f : V → V) : option (HashMap K V S * V) :=
  s ← index (slots m) i;
  match s with
  | Full h k v =>
      Some (mkHashMap (hash_builder m) (<[Z.to_nat i := Full h k (f v)]> (slots m))
              (len m) (used m), v)
  | _ => None
  end.

Definition insert m (key : K) (value : V) : option (HashMap K V S * option V) :=
  m ← ensure_capacity m;
  let hash := hash_one (hash_builder m) key in
  '(found, ins) ← probe m hash key;
  match found with
  | Some i => '(m', v) ← update_value m i (λ _, value); Some (m', Some v)
  | None => m' ← fill m ins hash key value; Some (m', None)
  end.

Definition get m (key : K) : option (option V) :=
  if decide (cap m = 0) then Some None
  else
    '(found, _) ← probe m (hash_one (hash_builder m) key) key;
    match found with
    | Some i =>
        s ← index (slots m) i;
        Some (match s with Full _ _ v => Some v | _ => None end)
    | None => Some None
    end.

(** [get_mut], with the write [f] made through the returned reference. *)
Definition get_mut m (key : K) (f : V → V) : option (HashMap K V S * option V) :=
  if decide (cap m = 0) then Some (m, None)
  else
    '(found, _) ← probe m (hash_one (hash_builder m) key) key;
    match found with
    | Some i =>
        s ← index (slots m) i;
        match s with
        | Full _ _ _ => '(m', v) ← update_value m i f; Some (m', Some v)
        | _ => Some (m, None)
        end
    | None => Some (m, None)
    end.

Definition contains_key m (key : K) : option bool :=
  o ← get m key; Some (bool_decide (is_Some o)).

Definition remove m (key : K) : option (HashMap K V S * option V) :=
  if decide (cap m = 0) then Some (m, None)
  else
    '(found, _) ← probe m (hash_one (hash_builder m) key) key;
    match found with
    | Some i =>
        old ← index (slots m) i;
        let sl := <[Z.to_nat i := Tombstone]> (slots m) in
        match old with
        | Full _ _ v => Some (mkHashMap (hash_builder m) sl (len m - 1) (used m), Some v)
        | _ => Some (mkHashMap (hash_builder m) sl (len m) (used m), None)
        end
    | None => Some (m, None)
    end.

(** *** Entry API *)
Inductive Entry : Type :=
| Occupied (map : HashMap K V S) (idx : Z)
| Vacant (map : HashMap K V S) (idx hash : Z) (key : K).

Definition entry m (key : K) : option Entry :=
  m ← ensure_capacity m;
  let hash := hash_one (hash_builder m) key in
  '(found, ins) ← probe m hash key;
  Some (match found with
        | Some i => Occupied m i
        | None => Vacant m ins hash key
        end).

(** [or_insert_with], with the write [f] made through the returned [&mut V]; the
    result is the map and the value the reference pointed to before [f]. *)
Definition or_insert_with (e : Entry) (default : V) (f : V → V)
    : option (HashMap K V S * V) :=
  match e with
  | Occupied m i => update_value m i f
  | Vacant m i hash key => m' ← fill m i hash key default; update_value m' i f
  end.

(** [Entry::or_default]; [default] is [V::default()]. *)
Definition or_default (e : Entry) (default : V) (f : V → V) : option (HashMap K V S * V) :=
  or_insert_with e default f.

Definition or_insert (e : Entry) (default : V) (f : V → V) : option (HashMap K V S * V) :=
  or_insert_with e default f.

Definition and_modify (e : Entry) (f : V → V) : option Entry :=
  match e with
  | Occupied m i =>
      s ← index (slots m) i;
      match s with
      | Full _ _ _ => '(m', _) ← update_value m i f; Some (Occupied m' i)
      | _ => Some e
      end
  | Vacant _ _ _ _ => Some e
  end.

(** *** Iterators *)
Record Iter := mkIter { it_slots : list (Slot K V); it_idx : nat }.

Fixpoint iter_next_loop (fuel : nat) sl (idx : nat) : option (K * V) * nat :=
  match fuel with
  | O => (None, idx)
  | Datatypes.S fuel =>
      match sl !! idx with
      | Some (Full _ k v) => (Some (k, v), Datatypes.S idx)
      | _ => iter_next_loop fuel sl (Datatypes.S idx)
      end
  end.

(** [Iter::next]: the [while idx < slots.len()] loop makes at most
    [slots.len() - idx] turns. *)
Definition iter_next (it : Iter) : option (K * V) * Iter :=
  let '(r, idx) := iter_next_loop (length (it_slots it) - it_idx it) (it_slots it) (it_idx it) in
  (r, mkIter (it_slots it) idx).

Definition iter m : Iter := mkIter (slots m) 0.

Fixpoint collect_loop (fuel : nat) (it : Iter) : list (K * V) :=
  match fuel with
  | O => []
  | Datatypes.S fuel =>
      match iter_next it with
      | (None, _) => []
      | (Some kv, it') => kv :: collect_loop fuel it'
      end
  end.

(** Draining an iterator; at most one item per slot. *)
Definition collect (it : Iter) : list (K * V) :=
  collect_loop (Datatypes.S (length (it_slots it))) it.

Definition keys m : list K := fst <$> collect (iter m).
Definition values m : list V := snd <$> collect (iter m).

(** [iter_mut], and [values_mut] when [f] ignores the key: every full slot hands out its value,
    which the client replaces by [f]. *)
Fixpoint iter_mut_slots (f : K → V → V) (l : list (Slot K V)) : list (Slot K V) :=
  match l with
  | [] => []
  | Full h k v :: l => Full h k (f k v) :: iter_mut_slots f l
  | s :: l => s :: iter_mut_slots f l
  end.

Definition iter_mut (f : K → V → V) m : HashMap K V S :=
  mkHashMap (hash_builder m) (iter_mut_slots f (slots m)) (len m) (used m).

(** [map[key]]: panics when the key is absent. *)
Definition index_key m (key : K) : option V := o ← get m key; o.

(** *** Bulk operations *)
Definition extend m (kvs : list (K * V)) : option (HashMap K V S) :=
  foldl (λ om kv, m ← om; '(m', _) ← insert m kv.1 kv.2; Some m') (Some m) kvs.

Definition from_iter (hb : S) (kvs : list (K * V)) : option (HashMap K V S) :=
  extend (with_hasher hb) kvs.

(** [retain]: [f] sees the key and may rewrite the value ([&mut V]). *)
Definition retain_step (f : K → V → bool * V) m (i : nat) : HashMap K V S :=
  match slots m !! i with
  | Some (Full h k v) =>
      let '(keep, v') := f k v in
      if keep then
        mkHashMap (hash_builder m) (<[i := Full h k v']> (slots m)) (len m) (used m)
      else
        mkHashMap (hash_builder m) (<[i := Tombstone]> (slots m)) (len m - 1) (used m)
  | _ => m
  end.

Definition retain (f : K → V → bool * V) m : HashMap K V S :=
  foldl (retain_step f) m (seq 0 (length (slots m))).

(** *** Sizing: [capacity_for] in machine arithmetic (release profile) *)
Fixpoint capacity_for_loop (fuel : nat) (items cap : Z) : option Z :=
  match fuel with
  | O => None
  | Datatypes.S fuel =>
      if decide (wrap (usize_bits t) (cap * 7) ≤ wrap (usize_bits t) (items * 8))
      then capacity_for_loop fuel items (wrap (usize_bits t) (cap * 2))
      else Some cap
  end.

Definition capacity_for (fuel : nat) (items : Z) : option Z :=
  capacity_for_loop fuel items 8.

Definition with_capacity_and_hasher (fuel : nat) (n : Z) (hb : S)
    : option (HashMap K V S) :=
  let m := with_hasher hb in
  if decide (0 < n) then c ← capacity_for fuel n; grow_to m c else Some m.
End operations.
Arguments Entry : clear implicits.

(** ** Counting slots *)
Section counting.
Context {K V : Type}.
Implicit Types (sl : list (Slot K V)) (s : Slot K V).

Definition full1 s : nat := match s with Full _ _ _ => 1 | _ => 0 end.
Definition used1 s : nat := if is_empty_slot s then 0 else 1.
Definition n_full sl : nat := sum_list_with full1 sl.
Definition n_used sl : nat := sum_list_with used1 sl.

Definition entry_of s : option (K * V) :=
  match s with Full _ k v => Some (k, v) | _ => None end.
Definition entries sl : list (K * V) := omap entry_of sl.

Lemma sum_list_with_replicate {A} (f : A → nat) n x :
  sum_list_with f (replicate n x) = (n * f x)%nat.
Proof. induction n; simpl; lia. Qed.

Lemma sum_list_with_const {A B} (f : A → nat) (g : B → A) (l : list B) c :
  (∀ b, f (g b) = c) → sum_list_with f (g <$> l) = (length l * c)%nat.
Proof. intros Hc. induction l; csimpl; rewrite ?Hc; lia. Qed.

Lemma n_full_le_used sl : (n_full sl ≤ n_used sl)%nat.
Proof. induction sl as [|[] sl IH]; unfold n_full, n_used, entries in *; cbn; lia. Qed.

(** A table with fewer used slots than slots has an [Empty] one. *)
Lemma exists_empty sl :
  (n_used sl < length sl)%nat → ∃ i, sl !! i = Some Empty.
Proof.
  induction sl as [|s sl IH]; cbn; [lia|]. intros Hn.
  destruct s; [by exists 0%nat|..];
    (destruct IH as [i Hi]; [unfold n_used in *; cbn in *; lia | by exists (S i)]).
Qed.

Lemma length_entries sl : length (entries sl) = n_full sl.
Proof. induction sl as [|[] sl IH]; unfold n_full, n_used, entries in *; cbn; lia. Qed.

Lemma elem_of_entries sl k v :
  (k, v) ∈ entries sl ↔ ∃ i h, sl !! i = Some (Full h k v).
Proof.
  unfold entries. rewrite list_elem_of_omap. split.
  - intros (s & Hs & He). apply list_elem_of_lookup in Hs as [i Hi].
    destruct s; simplify_eq/=. eauto.
  - intros (i & h & Hi). exists (Full h k v). split; [|done].
    by apply list_elem_of_lookup_2 in Hi.
Qed.

(** Each key has one slot. *)
Definition unique_keys sl : Prop := ∀ i j h h' k v v',
  sl !! i = Some (Full h k v) → sl !! j = Some (Full h' k v') → i = j.

Lemma unique_keys_NoDup sl : unique_keys sl → NoDup (fst <$> entries sl).
Proof.
  induction sl as [|s sl IH]; intros Hu; [constructor|].
  assert (unique_keys sl) as Hu'.
  { intros i j h h' k v v' Hi Hj.
    specialize (Hu (S i) (S j) h h' k v v' Hi Hj). lia. }
  destruct s as [| |h k v]; simpl; [by apply IH..|]. constructor; [|by apply IH].
  intros Hin. apply list_elem_of_fmap in Hin as ([k' v'] & -> & Hin). simpl in *.
  apply elem_of_entries in Hin as (i & h' & Hi).
  by specialize (Hu 0%nat (S i) h h' k' v v' eq_refl Hi).
Qed.
End counting.

(** ** The table invariant *)
Section invariant.
Context (t : Target) {K V S : Type} `{EqDecision K} `{BuildHasher S K}.
Implicit Types (m : HashMap K V S) (sl : list (Slot K V)) (hb : S).

Definition tcap sl : Z := Z.of_nat (length sl).

(** The slot reached after [d] probe steps for hash [h]. *)
Definition at_dist sl (h d : Z) : Z := (wrap (usize_bits t) h + d) `mod` tcap sl.

Definition slot_at sl (h d : Z) : option (Slot K V) := sl !! Z.to_nat (at_dist sl h d).

(** No [Empty] slot within the first [d] probe steps. *)
Definition chain sl (h d : Z) : Prop :=
  ∀ e, 0 ≤ e < d → slot_at sl h e ≠ Some Empty.

Definition pow2_cap sl : Prop := ∃ k, 3 ≤ k ∧ tcap sl = 2 ^ k.

(** Every entry carries its key's hash and is reachable by probing. *)
Definition reachable hb sl : Prop := ∀ i h k v,
  sl !! i = Some (Full h k v) →
  h = hash_one hb k
  ∧ ∃ d, 0 ≤ d < tcap sl ∧ Z.of_nat i = at_dist sl h d ∧ chain sl h d.

Definition table_ok hb sl : Prop := unique_keys sl ∧ reachable hb sl.

Record wf m : Prop := {
  wf_cap : slots m = [] ∨ pow2_cap (slots m);
  wf_len : len m = Z.of_nat (n_full (slots m));
  wf_used : used m = Z.of_nat (n_used (slots m));
  wf_load : slots m = [] ∨ used m * 8 < tcap (slots m) * 7;
  wf_table : table_ok (hash_builder m) (slots m);
}.

Lemma pow2_cap_pos sl : pow2_cap sl → 8 ≤ tcap sl.
Proof.
  intros (k & Hk & ->). change 8 with (2 ^ 3). apply Z.pow_le_mono_r; lia.
Qed.

Lemma land_mask sl x : pow2_cap sl → Z.land x (tcap sl - 1) = x `mod` tcap sl.
Proof. intros (k & Hk & ->). by apply wrap_land_mask; lia. Qed.

Lemma start_at_dist sl h : pow2_cap sl → start t h (tcap sl - 1) = at_dist sl h 0.
Proof. intros Hp. unfold start, at_dist. by rewrite land_mask, Z.add_0_r. Qed.

Lemma next_at_dist sl h d :
  pow2_cap sl → next_index (at_dist sl h d) (tcap sl - 1) = at_dist sl h (d + 1).
Proof.
  intros Hp. unfold next_index, at_dist. rewrite land_mask by done.
  rewrite Zplus_mod_idemp_l. f_equal. lia.
Qed.

Lemma at_dist_range sl h d : pow2_cap sl → 0 ≤ at_dist sl h d < tcap sl.
Proof. intros Hp%pow2_cap_pos. apply Z.mod_pos_bound. lia. Qed.

Lemma index_at_dist sl h d : pow2_cap sl → index sl (at_dist sl h d) = slot_at sl h d.
Proof.
  intros Hp. pose proof (at_dist_range sl h d Hp).
  unfold index, slot_at. by rewrite decide_True by lia.
Qed.

Lemma slot_at_is_Some sl h d : pow2_cap sl → is_Some (slot_at sl h d).
Proof.
  intros Hp. pose proof (at_dist_range sl h d Hp). apply lookup_lt_is_Some.
  unfold tcap in *. lia.
Qed.

(** Probing visits every slot. *)
Lemma at_dist_surj sl h (i : nat) :
  pow2_cap sl → (i < length sl)%nat →
  ∃ d, 0 ≤ d < tcap sl ∧ at_dist sl h d = Z.of_nat i.
Proof.
  intros Hp Hi. pose proof (pow2_cap_pos sl Hp).
  exists ((Z.of_nat i - wrap (usize_bits t) h) `mod` tcap sl).
  split; [apply Z.mod_pos_bound; lia|]. unfold at_dist.
  rewrite Zplus_mod_idemp_r.
  replace (wrap (usize_bits t) h + (Z.of_nat i - wrap (usize_bits t) h))
    with (Z.of_nat i) by lia.
  apply Z.mod_small. unfold tcap. lia.
Qed.

Lemma exists_empty_dist sl h :
  pow2_cap sl → (∃ i, sl !! i = Some Empty) →
  ∃ d, 0 ≤ d < tcap sl ∧ slot_at sl h d = Some Empty.
Proof.
  intros Hp [i Hi]. pose proof (lookup_lt_Some _ _ _ Hi) as Hlt.
  destruct (at_dist_surj sl h i Hp Hlt) as (d & Hd & He).
  exists d. split; [done|]. unfold slot_at. by rewrite He, Nat2Z.id.
Qed.

(** *** Updating one slot *)
Lemma tcap_insert sl i s : tcap (<[i := s]> sl) = tcap sl.
Proof. unfold tcap. by rewrite length_insert. Qed.

Lemma pow2_cap_insert sl i s : pow2_cap sl → pow2_cap (<[i := s]> sl).
Proof. intros (k & ? & ?). exists k. by rewrite tcap_insert. Qed.

Lemma at_dist_insert sl i s h d : at_dist (<[i := s]> sl) h d = at_dist sl h d.
Proof. unfold at_dist. by rewrite tcap_insert. Qed.

(** Chains only break when a slot becomes [Empty]. *)
Lemma chain_insert sl i s h d :
  is_empty_slot s = false → chain sl h d → chain (<[i := s]> sl) h d.
Proof.
  intros Hs Hc e He Hem. apply (Hc e He). unfold slot_at in *.
  rewrite at_dist_insert in Hem.
  destruct (decide (i = Z.to_nat (at_dist sl h e))) as [->|Hne].
  - apply list_lookup_insert_Some in Hem as [(_ & -> & _)|[? ?]]; done.
  - by rewrite list_lookup_insert_ne in Hem.
Qed.

(** Overwrite slot [j] by a non-[Empty] slot whose entry, if any, is reachable
    there and is the only one of its key. *)
Lemma table_insert hb sl (j : nat) s :
  table_ok hb sl → is_empty_slot s = false →
  (∀ h k v, s = Full h k v →
     h = hash_one hb k
     ∧ (∃ d, 0 ≤ d < tcap sl ∧ Z.of_nat j = at_dist sl h d ∧ chain sl h d)
     ∧ ∀ i h' v', sl !! i = Some (Full h' k v') → i = j) →
  table_ok hb (<[j := s]> sl).
Proof.
  intros [Hu Hr] Hs Hnew. split.
  - intros i i' h h' k v v' Hi Hi'.
    apply list_lookup_insert_Some in Hi as [(-> & -> & _)|[? Hi]];
      apply list_lookup_insert_Some in Hi' as [(-> & ? & _)|[? Hi']]; simplify_eq.
    + done.
    + destruct (Hnew h k v eq_refl) as (_ & _ & Hk). symmetry. by eapply Hk.
    + destruct (Hnew h' k v' eq_refl) as (_ & _ & Hk). by eapply Hk.
    + by eapply Hu.
  - intros i h k v Hi.
    apply list_lookup_insert_Some in Hi as [(-> & -> & _)|[? Hi]].
    + destruct (Hnew h k v eq_refl) as (Hh & (d & Hd & Hj & Hc) & _). split; [done|].
      exists d. rewrite tcap_insert, at_dist_insert. eauto using chain_insert.
    + destruct (Hr i h k v Hi) as (Hh & d & Hd & Hj & Hc). split; [done|].
      exists d. rewrite tcap_insert, at_dist_insert. eauto using chain_insert.
Qed.

Lemma table_overwrite hb sl j h k v v' :
  table_ok hb sl → sl !! j = Some (Full h k v) →
  table_ok hb (<[j := Full h k v']> sl) ∧ table_ok hb (<[j := Tombstone]> sl).
Proof.
  intros Hok Hj. split; (apply table_insert; [done..|]); [|done].
  intros ??? [= <- <- <-]. destruct Hok as [Hu Hr].
  destruct (Hr j h k v Hj) as (Hh & Hd). eauto.
Qed.
End invariant.
#[export] Hint Resolve pow2_cap_insert : purestd.

(** ** Probing *)
Section probing.
Context (t : Target) {K V S : Type} `{EqDecision K} `{BuildHasher S K}.
Implicit Types (m : HashMap K V S) (sl : list (Slot K V)) (hb : S).

(** Slot [j] is where a new entry for hash [h] may go. *)
Definition free_spot sl (h j : Z) : Prop :=
  ∃ d s, 0 ≤ d < tcap sl ∧ j = at_dist t sl h d ∧ chain t sl h d
         ∧ slot_at t sl h d = Some s ∧ full1 s = 0%nat.

Definition no_match sl (h : Z) (k : K) (d : Z) : Prop :=
  ∀ e, 0 ≤ e < d → ∀ v, slot_at t sl h e ≠ Some (Full h k v).

Definition probe_post sl (h : Z) (k : K) (r : option Z * Z) : Prop :=
  match r with
  | (Some i, j) => i = j ∧ 0 ≤ i < tcap sl ∧ ∃ v, sl !! Z.to_nat i = Some (Full h k v)
  | (None, j) => free_spot sl h j
      ∧ ∃ d, slot_at t sl h d = Some Empty ∧ 0 ≤ d ∧ no_match sl h k d
  end.

Lemma chain_snoc sl h d s :
  chain t sl h d → slot_at t sl h d = Some s → is_empty_slot s = false →
  chain t sl h (d + 1).
Proof.
  intros Hc Hs He e Hr. destruct (decide (e = d)) as [->|]; [|apply Hc; lia].
  rewrite Hs. by intros [= ->].
Qed.

Lemma no_match_snoc sl h k d s :
  no_match sl h k d → slot_at t sl h d = Some s → (∀ v, s ≠ Full h k v) →
  no_match sl h k (d + 1).
Proof.
  intros Hn Hs Hf e Hr v. destruct (decide (e = d)) as [->|]; [|apply Hn; lia].
  rewrite Hs. intros [= ->]. by eapply Hf.
Qed.

Lemma probe_loop_spec sl h k n : ∀ d ins,
  pow2_cap sl → 0 ≤ d → d + Z.of_nat n ≤ tcap sl →
  (∃ e, d ≤ e < d + Z.of_nat n ∧ slot_at t sl h e = Some Empty) →
  chain t sl h d → no_match sl h k d →
  (∀ j, ins = Some j → free_spot sl h j) →
  ∃ r, probe_loop n sl (tcap sl - 1) h k (at_dist t sl h d) ins = Some r
       ∧ probe_post sl h k r.
Proof.
  induction n as [|n IH]; intros d ins Hp Hd Hn (e & He & Hem) Hc Hm Hins; [lia|].
  cbn [probe_loop]. rewrite index_at_dist by done.
  destruct (slot_at_is_Some t sl h d Hp) as [s Hs]. rewrite Hs. cbn [mbind option_bind].
  assert (∀ ins', (∀ j, ins' = Some j → free_spot sl h j) →
            is_empty_slot s = false → (∀ v, s ≠ Full h k v) →
            ∃ r, probe_loop n sl (tcap sl - 1) h k (next_index (at_dist t sl h d) (tcap sl - 1)) ins'
                 = Some r ∧ probe_post sl h k r) as Hnext.
  { intros ins' Hins' Hne Hnf. rewrite next_at_dist by done.
    apply IH; try done; [lia | lia | | by eapply chain_snoc | by eapply no_match_snoc].
    exists e. split; [|done]. destruct (decide (e = d)) as [->|]; [|lia].
    rewrite Hs in Hem. by simplify_eq. }
  destruct s as [| |h' k' v'].
  - eexists. split; [done|]. split.
    + destruct ins as [j|]; [by apply Hins|]. exists d, Empty. repeat split; try done. lia.
    + eauto.
  - apply Hnext; [|done..]. intros j ?. destruct ins as [j'|]; simplify_eq.
    + by apply Hins.
    + exists d, Tombstone. repeat split; try done. lia.
  - case_decide as Heq.
    + destruct Heq as [-> ->]. eexists. split; [done|].
      split; [done|]. split; [by apply at_dist_range|]. by exists v'.
    + apply Hnext; [done..|]. intros v [= -> -> ->]. by apply Heq.
Qed.

Lemma probe_spec sl hb l u h k :
  pow2_cap sl → (n_used sl < length sl)%nat →
  ∃ r, probe t (mkHashMap hb sl l u) h k = Some r ∧ probe_post sl h k r.
Proof.
  intros Hp Hu. unfold probe, cap. cbn [slots]. fold (tcap sl).
  rewrite (start_at_dist t) by done.
  apply probe_loop_spec; try done.
  - destruct (exists_empty_dist t sl h Hp (exists_empty sl Hu)) as (e & He & Hem).
    exists e. unfold tcap in *. split; [lia|done].
  - intros e ?. lia.
  - intros e ?. lia.
Qed.

(** An unsuccessful probe proves the key absent. *)
Lemma probe_absent hb sl k j :
  pow2_cap sl → reachable t hb sl →
  probe_post sl (hash_one hb k) k (None, j) →
  ∀ i h v, sl !! i ≠ Some (Full h k v).
Proof.
  intros Hp Hr (_ & d & Hem & Hd & Hm) i h v Hi.
  destruct (Hr i h k v Hi) as (-> & e & He & Hat & Hc).
  assert (slot_at t sl (hash_one hb k) e = Some (Full (hash_one hb k) k v)) as Hse
    by (unfold slot_at; by rewrite <-Hat, Nat2Z.id).
  destruct (Z.lt_trichotomy e d) as [?|[->|?]].
  - by eapply (Hm e ltac:(lia)).
  - congruence.
  - by apply (Hc d ltac:(lia)).
Qed.

(** ** Re-insertion ([grow_to]) *)
Lemma place_spec sl h k v n : ∀ d,
  pow2_cap sl → 0 ≤ d → d + Z.of_nat n ≤ tcap sl →
  (∃ e, d ≤ e < d + Z.of_nat n ∧ slot_at t sl h e = Some Empty) →
  chain t sl h d →
  ∃ j, place n sl (tcap sl - 1) (at_dist t sl h d) (Full h k v)
       = Some (<[j := Full h k v]> sl)
       ∧ sl !! j = Some Empty
       ∧ ∃ d, 0 ≤ d < tcap sl ∧ Z.of_nat j = at_dist t sl h d ∧ chain t sl h d.
Proof.
  induction n as [|n IH]; intros d Hp Hd Hn (e & He & Hem) Hc; [lia|].
  cbn [place]. rewrite index_at_dist by done.
  destruct (slot_at_is_Some t sl h d Hp) as [s Hs]. rewrite Hs. cbn [mbind option_bind].
  destruct (is_empty_slot s) eqn:Hes.
  - exists (Z.to_nat (at_dist t sl h d)). split; [done|].
    pose proof (at_dist_range t sl h d Hp). split; [by destruct s|].
    exists d. rewrite Z2Nat.id by lia. repeat split; try done; lia.
  - rewrite next_at_dist by done.
    apply IH; try done; [lia | lia | | by eapply chain_snoc].
    exists e. split; [|done]. destruct (decide (e = d)) as [->|]; [|lia].
    by simplify_eq.
Qed.

(** What the re-insertion loop has built after the entries of [old]. *)
Definition rebuilt hb (c : nat) (old sl : list (Slot K V)) : Prop :=
  length sl = c ∧ table_ok t hb sl ∧ n_used sl = n_full old ∧ n_full sl = n_full old
  ∧ ∀ k v, (∃ i h, sl !! i = Some (Full h k v)) ↔ (∃ i h, old !! i = Some (Full h k v)).

Lemma n_full_snoc sl s : n_full (sl ++ [s]) = (n_full sl + full1 s)%nat.
Proof. unfold n_full. rewrite sum_list_with_app. simpl. lia. Qed.

Lemma snoc_has sl s (k : K) (v : V) :
  (∃ i h, (sl ++ [s]) !! i = Some (Full h k v))
  ↔ (∃ i h, sl !! i = Some (Full h k v)) ∨ (∃ h, s = Full h k v).
Proof.
  setoid_rewrite <-elem_of_entries. unfold entries.
  rewrite omap_app, elem_of_app. apply or_iff_compat_l.
  destruct s as [| |h k' v']; simpl; split; intros Hx; try (by inversion Hx);
    try (by destruct Hx).
  - apply list_elem_of_singleton in Hx. simplify_eq. by exists h.
  - destruct Hx as [? [= -> -> ->]]. by apply list_elem_of_singleton.
Qed.

Lemma reinsert_spec hb c old s sl :
  pow2_cap sl → rebuilt hb c old sl → (n_full old < c)%nat →
  (∀ h k v, s = Full h k v → h = hash_one hb k
            ∧ ∀ i h' v', old !! i ≠ Some (Full h' k v')) →
  ∃ sl', reinsert t (tcap sl - 1) (Some sl) s = Some sl' ∧ rebuilt hb c (old ++ [s]) sl'.
Proof.
  intros Hp (Hlen & Hok & Hnu & Hnf & Hhas) Hroom Hs.
  destruct s as [| |h k v]; cbn [reinsert mbind option_bind].
  1,2: exists sl; (split; [done|]); split; [done|]; split; [done|];
       rewrite n_full_snoc; cbn [full1]; split; [lia|]; split; [lia|];
       intros k v; rewrite snoc_has, Hhas; (split; [by left | by intros [?|[? [=]]]]).
  destruct (Hs h k v eq_refl) as [Hh Hnew].
  destruct (place_spec sl h k v (length sl) 0) as (j & Hpl & Hj & Hd);
    try done; [ | intros e ?; lia |].
  { destruct (exists_empty_dist t sl h Hp (exists_empty sl ltac:(lia))) as (e & He & ?).
    exists e. unfold tcap in *. split; [lia|done]. }
  rewrite (start_at_dist t) by done. rewrite Hpl. eexists. split; [done|].
  pose proof (sum_list_with_insert used1 sl j Empty (Full h k v) Hj) as Hu.
  pose proof (sum_list_with_insert full1 sl j Empty (Full h k v) Hj) as Hf.
  fold (n_used sl) (n_full sl) in Hu, Hf.
  change (sum_list_with used1 (<[j:=Full h k v]> sl)) with (n_used (<[j:=Full h k v]> sl)) in Hu.
  change (sum_list_with full1 (<[j:=Full h k v]> sl)) with (n_full (<[j:=Full h k v]> sl)) in Hf.
  unfold used1 in Hu. cbn in Hu, Hf.
  split; [by rewrite length_insert|]. split.
  { apply table_insert; [done..|]. intros ??? [= <- <- <-]. split; [done|].
    split; [done|]. intros i h' v' Hi. exfalso.
    destruct (proj1 (Hhas k v')) as (i' & h'' & Hi'); [by eauto|]. by eapply Hnew. }
  rewrite n_full_snoc. cbn [full1]. split; [lia|]. split; [lia|].
  intros k0 v0. rewrite snoc_has, <-Hhas. split.
  - intros (i & h0 & Hi).
    apply list_lookup_insert_Some in Hi as [(_ & [= -> -> ->] & _)|[_ Hi]]; eauto.
  - intros [(i & h0 & Hi)|[h0 [= -> -> ->]]].
    + exists i, h0. rewrite list_lookup_insert_ne; [done|]. intros <-. congruence.
    + exists j, h0. rewrite list_lookup_insert_eq; [done|]. by apply lookup_lt_Some in Hj.
Qed.

Lemma reinsert_all hb c rest : ∀ old sl,
  pow2_cap sl → rebuilt hb c old sl → (n_full (old ++ rest) < c)%nat →
  table_ok t hb (old ++ rest) ∨ (unique_keys (old ++ rest)
    ∧ ∀ i h k v, (old ++ rest) !! i = Some (Full h k v) → h = hash_one hb k) →
  ∃ sl', foldl (reinsert t (tcap sl - 1)) (Some sl) rest = Some sl'
         ∧ pow2_cap sl' ∧ rebuilt hb c (old ++ rest) sl'.
Proof.
  induction rest as [|s rest IH]; intros old sl Hp Hr Hroom Hok.
  { exists sl. by rewrite app_nil_r. }
  assert (unique_keys (old ++ s :: rest)
    ∧ ∀ i h k v, (old ++ s :: rest) !! i = Some (Full h k v) → h = hash_one hb k) as [Hu Hh].
  { destruct Hok as [[Hu Hre]|?]; [|done]. split; [done|].
    intros i h k v Hi. by destruct (Hre i h k v Hi). }
  assert (Hs : (old ++ s :: rest) !! length old = Some s)
    by (by rewrite lookup_app_r, Nat.sub_diag).
  assert (n_full (old ++ s :: rest) = n_full (old ++ [s]) + n_full rest)%nat as Hcnt.
  { unfold n_full. rewrite !sum_list_with_app. simpl. lia. }
  rewrite n_full_snoc in Hcnt.
  destruct (reinsert_spec hb c old s sl) as (sl1 & Hre & Hr1); [done|done|lia| |].
  { intros h k v ->. split; [by eapply Hh|]. intros i h' v' Hi.
    assert (i = length old); [|by (apply lookup_lt_Some in Hi; lia)].
    eapply Hu; [|done]. by apply lookup_app_l_Some. }
  assert (tcap sl1 = tcap sl) as Htc.
  { unfold tcap. destruct Hr1 as [-> _]. by destruct Hr as [-> _]. }
  assert (pow2_cap sl1) as Hp1.
  { destruct Hp as (e & ? & ?). exists e. by rewrite Htc. }
  destruct (IH (old ++ [s]) sl1) as (sl2 & Hf & Hp2 & Hr2);
    [done | done | by rewrite <-app_assoc | right; by rewrite <-app_assoc |].
  exists sl2. rewrite <-app_assoc in Hr2. cbn [foldl]. rewrite Hre, <-Htc. done.
Qed.
End probing.

(** ** Refinement of finite maps *)
Section refinement.
Context (t : Target) {K V S : Type} `{Countable K} `{BuildHasher S K}.
Implicit Types (m : HashMap K V S) (sl : list (Slot K V)) (hb : S).

Definition abs m : gmap K V := list_to_map (entries (slots m)).

Lemma abs_lookup m k v :
  unique_keys (slots m) →
  abs m !! k = Some v ↔ ∃ i h, slots m !! i = Some (Full h k v).
Proof.
  intros Hu. rewrite <-elem_of_entries. unfold abs.
  symmetry. apply elem_of_list_to_map. by apply unique_keys_NoDup.
Qed.

Lemma abs_None m k :
  unique_keys (slots m) →
  abs m !! k = None ↔ ∀ i h v, slots m !! i ≠ Some (Full h k v).
Proof.
  intros Hu. rewrite eq_None_not_Some. split.
  - intros Hn i h v Hi. apply Hn. exists v. apply abs_lookup; eauto.
  - intros Hn [v Hv]. apply abs_lookup in Hv as (i & h & Hi); [|done]. by eapply Hn.
Qed.

Lemma abs_ext m m' :
  unique_keys (slots m) → unique_keys (slots m') →
  (∀ k v, (∃ i h, slots m !! i = Some (Full h k v))
          ↔ (∃ i h, slots m' !! i = Some (Full h k v))) →
  abs m = abs m'.
Proof.
  intros Hu Hu' Hiff. apply map_eq. intros k. apply option_eq. intros v.
  by rewrite !abs_lookup.
Qed.

Lemma wf_unique m : wf t m → unique_keys (slots m).
Proof. by intros [? ? ? ? [? ?]]. Qed.

(** [len] is the number of entries. *)
Lemma len_size m : wf t m → len m = Z.of_nat (size (abs m)).
Proof.
  intros Hwf. rewrite (wf_len _ _ Hwf). f_equal. unfold abs.
  rewrite <-length_entries, <-length_map_to_list.
  apply Permutation_length. symmetry. rewrite map_to_list_to_map; [done|].
  by apply unique_keys_NoDup, wf_unique.
Qed.

Lemma wf_empty_slots m : wf t m → slots m = [] → abs m = ∅ ∧ used m = 0 ∧ len m = 0.
Proof.
  intros Hwf He. unfold abs. rewrite (wf_used _ _ Hwf), (wf_len _ _ Hwf), He. done.
Qed.

Lemma with_hasher_wf hb : wf t (with_hasher hb : HashMap K V S) ∧ abs (with_hasher hb) = ∅.
Proof. split; [|done]. split; by auto. Qed.

(** Replace slot [j], known to be [old], by [new]. *)
Lemma wf_set m j old new l u :
  wf t m → slots m !! j = Some old →
  l + Z.of_nat (full1 old) = len m + Z.of_nat (full1 new) →
  u + Z.of_nat (used1 old) = used m + Z.of_nat (used1 new) →
  u * 8 < tcap (slots m) * 7 →
  table_ok t (hash_builder m) (<[j := new]> (slots m)) →
  wf t (mkHashMap (hash_builder m) (<[j := new]> (slots m)) l u).
Proof.
  intros Hwf Hj Hl Hu Hload Hok. pose proof (wf_cap _ _ Hwf) as Hcap.
  pose proof (sum_list_with_insert full1 (slots m) j old new Hj) as Hf.
  pose proof (sum_list_with_insert used1 (slots m) j old new Hj) as Hus.
  rewrite (wf_len _ _ Hwf) in Hl. rewrite (wf_used _ _ Hwf) in Hu.
  split; cbn [slots len used hash_builder]; unfold n_full, n_used in *.
  - destruct Hcap as [He|?]; [by rewrite He in Hj | right; by apply pow2_cap_insert].
  - lia.
  - lia.
  - right. by rewrite tcap_insert.
  - done.
Qed.

(** *** Growth *)
Lemma replicate_ok hb (c : nat) :
  table_ok t hb (replicate c (@Empty K V)) ∧ n_used (replicate c (@Empty K V)) = 0%nat.
Proof.
  split; [split|].
  - intros ??????? [? _]%lookup_replicate. done.
  - intros ???? [? _]%lookup_replicate. done.
  - unfold n_used. rewrite sum_list_with_replicate. cbn. lia.
Qed.

Lemma grow_to_spec m k :
  wf t m → 3 ≤ k → len m * 8 < 2 ^ k * 7 →
  ∃ m', grow_to t m (2 ^ k) = Some m' ∧ wf t m' ∧ abs m' = abs m
        ∧ hash_builder m' = hash_builder m ∧ cap m' = 2 ^ k ∧ used m' = len m.
Proof.
  intros Hwf Hk Hload. pose proof (pow2_pos k ltac:(lia)).
  set (c := Z.to_nat (2 ^ k)). set (sl0 := replicate c (@Empty K V)).
  assert (tcap sl0 = 2 ^ k) as Hc0 by (unfold tcap, sl0, c; rewrite length_replicate; lia).
  destruct (replicate_ok (hash_builder m) c) as [Hok0 Hu0]. fold sl0 in Hok0, Hu0.
  destruct (reinsert_all t (hash_builder m) c (slots m) [] sl0)
    as (sl & Hfold & Hp & Hlen & Hok & Hnu & Hnf & Hhas).
  - exists k. split; [lia|done].
  - split; [apply length_replicate|]. split; [done|]. split; [done|].
    split; [pose proof (n_full_le_used sl0); cbn; lia|].
    intros k0 v. split; intros (i & h & Hi); [|done].
    by apply lookup_replicate in Hi as [? _].
  - simpl. pose proof (wf_len _ _ Hwf). lia.
  - left. by apply wf_table.
  - simpl in *. unfold grow_to. fold c sl0. rewrite Hc0 in Hfold. rewrite Hfold.
    eexists. split; [done|]. pose proof (wf_len _ _ Hwf) as Hl.
    split; [split; cbn [slots len used hash_builder]|].
    + by right.
    + by rewrite Hnf.
    + by rewrite Hnu.
    + right. unfold tcap. rewrite Hlen. lia.
    + done.
    + split; [|unfold cap; cbn; rewrite Hlen; split_and!; done || lia].
      apply abs_ext; [by destruct Hok | by apply wf_unique | done].
Qed.

Lemma cap_tcap m : cap m = tcap (slots m).
Proof. done. Qed.

Lemma cap_zero m : cap m = 0 ↔ slots m = [].
Proof. unfold cap. destruct (slots m); simpl; split; done || lia. Qed.

Lemma used_bounds m : wf t m → 0 ≤ len m ≤ used m.
Proof.
  intros Hwf. rewrite (wf_len _ _ Hwf), (wf_used _ _ Hwf).
  pose proof (n_full_le_used (slots m)). lia.
Qed.

(** After [ensure_capacity] one more entry fits under the load limit. *)
Lemma ensure_capacity_spec m :
  wf t m →
  ∃ m', ensure_capacity t m = Some m' ∧ wf t m' ∧ abs m' = abs m
        ∧ hash_builder m' = hash_builder m ∧ pow2_cap (slots m')
        ∧ (used m' + 1) * 8 < cap m' * 7.
Proof.
  intros Hwf. unfold ensure_capacity. pose proof (used_bounds m Hwf).
  assert (Hgrow : ∀ k, 3 ≤ k → (len m + 1) * 8 < 2 ^ k * 7 →
    ∃ m', grow_to t m (2 ^ k) = Some m' ∧ wf t m' ∧ abs m' = abs m
        ∧ hash_builder m' = hash_builder m ∧ pow2_cap (slots m')
        ∧ (used m' + 1) * 8 < cap m' * 7).
  { intros k Hk Hl. destruct (grow_to_spec m k) as (m' & ? & ? & ? & ? & Hc & Hu); [done|done|lia|].
    exists m'. split_and!; try done; [|lia]. by exists k. }
  case_decide as Hz.
  { apply cap_zero in Hz. destruct (wf_empty_slots m Hwf Hz) as (_ & _ & Hl).
    apply (Hgrow 3); lia. }
  destruct (wf_cap _ _ Hwf) as [He|Hp]; [by apply cap_zero in He|].
  pose proof (pow2_cap_pos _ Hp). destruct (Hp) as (k & Hk & Hc).
  destruct (wf_load _ _ Hwf) as [He|Hload]; [by apply cap_zero in He|].
  rewrite cap_tcap in *. case_decide.
  - rewrite Hc in *. replace (2 ^ k * 2) with (2 ^ (k + 1)) by (rewrite Z.pow_add_r; lia).
    apply Hgrow; [lia|]. rewrite Z.pow_add_r by lia. lia.
  - exists m. split_and!; try done. rewrite cap_tcap. lia.
Qed.

(** *** The two slot updates *)
Lemma abs_set_full m j h k v :
  unique_keys (<[j := Full h k v]> (slots m)) → unique_keys (slots m) →
  (j < length (slots m))%nat →
  (∀ h' k' v', slots m !! j = Some (Full h' k' v') → k' = k) →
  list_to_map (entries (<[j := Full h k v]> (slots m))) = <[k := v]> (abs m).
Proof.
  intros Hu' Hu Hj Hold.
  change (abs (mkHashMap (hash_builder m) (<[j := Full h k v]> (slots m)) 0 0)
          = <[k := v]> (abs m)).
  apply map_eq. intros k'. apply option_eq. intros v'.
  rewrite abs_lookup by done. cbn [slots].
  rewrite lookup_insert. case_decide as Hk.
  - subst k'. split.
    + intros (i & h' & Hi). f_equal.
      assert (i = j) as ->.
      { eapply Hu'; [exact Hi|]. by apply list_lookup_insert_eq. }
      rewrite list_lookup_insert_eq in Hi by done. by simplify_eq.
    + intros [= <-]. exists j, h. by apply list_lookup_insert_eq.
  - rewrite abs_lookup by done. split.
    + intros (i & h' & Hi).
      apply list_lookup_insert_Some in Hi as [(_ & ? & _)|[_ Hi]]; [by simplify_eq|eauto].
    + intros (i & h' & Hi). exists i, h'. rewrite list_lookup_insert_ne; [done|].
      intros <-. by apply Hk; symmetry; eapply Hold.
Qed.

Lemma abs_set_tombstone m j h k v :
  unique_keys (slots m) → slots m !! j = Some (Full h k v) →
  list_to_map (entries (<[j := Tombstone]> (slots m))) = delete k (abs m).
Proof.
  intros Hu Hj.
  assert (unique_keys (<[j := Tombstone]> (slots m))) as Hu'.
  { intros i i' h1 h2 k0 v1 v2 Hi Hi'.
    apply list_lookup_insert_Some in Hi as [(_ & ? & _)|[_ Hi]]; [done|].
    apply list_lookup_insert_Some in Hi' as [(_ & ? & _)|[_ Hi']]; [done|].
    by eapply Hu. }
  change (abs (mkHashMap (hash_builder m) (<[j := Tombstone]> (slots m)) 0 0)
          = delete k (abs m)).
  apply map_eq. intros k'. apply option_eq. intros v'.
  rewrite abs_lookup by done. cbn [slots]. rewrite lookup_delete_Some, abs_lookup by done.
  split.
  - intros (i & h' & Hi).
    apply list_lookup_insert_Some in Hi as [(_ & ? & _)|[Hne Hi]]; [done|].
    split; [|by eauto]. intros <-. apply Hne. by eapply Hu.
  - intros (Hk & i & h' & Hi). exists i, h'. rewrite list_lookup_insert_ne; [done|].
    intros <-. congruence.
Qed.

Lemma fill_spec m j k v :
  wf t m → (used m + 1) * 8 < cap m * 7 →
  free_spot t (slots m) (hash_one (hash_builder m) k) j →
  (∀ i h v, slots m !! i ≠ Some (Full h k v)) →
  ∃ m', fill m j (hash_one (hash_builder m) k) k v = Some m' ∧ wf t m'
        ∧ abs m' = <[k := v]> (abs m) ∧ hash_builder m' = hash_builder m
        ∧ cap m' = cap m ∧ slots m' !! Z.to_nat j = Some (Full (hash_one (hash_builder m) k) k v).
Proof.
  intros Hwf Hload (d & s & Hd & -> & Hch & Hs & Hfree) Habs.
  set (h := hash_one (hash_builder m) k) in *.
  pose proof (lookup_lt_Some _ _ _ Hs) as Hlt.
  assert (pow2_cap (slots m)) as Hp.
  { destruct (wf_cap _ _ Hwf) as [He|]; [|done]. rewrite He in Hlt. simpl in Hlt. lia. }
  pose proof (at_dist_range t (slots m) h d Hp) as Hr.
  assert (table_ok t (hash_builder m)
            (<[Z.to_nat (at_dist t (slots m) h d) := Full h k v]> (slots m))) as Hok.
  { apply table_insert; [by apply wf_table | done |]. intros ??? [= <- <- <-].
    split; [done|]. split; [|intros i h' v' Hi; by apply Habs in Hi].
    exists d. rewrite Z2Nat.id by lia. done. }
  unfold fill. rewrite index_at_dist by done. rewrite Hs. cbn [mbind option_bind].
  eexists. split; [done|]. split.
  - eapply wf_set; [done | exact Hs | | | |done].
    + rewrite Hfree. cbn. lia.
    + unfold used1. destruct s; cbn in *; try done; lia.
    + rewrite cap_tcap in Hload. destruct (is_empty_slot s); lia.
  - split; [|split; [done|split]].
    + apply abs_set_full; [by destruct Hok | by apply wf_unique | done |].
      intros h' k' v' Hi. unfold slot_at in Hs. rewrite Hs in Hi. by simplify_eq.
    + unfold cap. cbn. by rewrite length_insert.
    + cbn. by apply list_lookup_insert_eq.
Qed.

Lemma update_value_spec m i h k v f :
  wf t m → 0 ≤ i → slots m !! Z.to_nat i = Some (Full h k v) →
  ∃ m', update_value m i f = Some (m', v) ∧ wf t m' ∧ abs m' = <[k := f v]> (abs m)
        ∧ hash_builder m' = hash_builder m ∧ cap m' = cap m.
Proof.
  intros Hwf Hi Hs. unfold update_value, index. rewrite decide_True by done.
  rewrite Hs. cbn [mbind option_bind]. eexists. split; [done|].
  destruct (table_overwrite t _ _ _ h k v (f v) (wf_table _ _ Hwf) Hs) as [Hok _].
  split.
  - eapply wf_set; [done | exact Hs | done | done | | done].
    destruct (wf_load _ _ Hwf) as [He|]; [by rewrite He in Hs | done].
  - split; [|split; [done | unfold cap; cbn; by rewrite length_insert]].
    apply abs_set_full; [by destruct Hok | by apply wf_unique | by eapply lookup_lt_Some |].
    intros h' k' v' Hi'. by simplify_eq.
Qed.

(** A probe on a well-formed table decides membership. *)
Lemma probe_wf m k :
  wf t m → pow2_cap (slots m) →
  ∃ r, probe t m (hash_one (hash_builder m) k) k = Some r
    ∧ match r with
      | (Some i, j) => i = j ∧ 0 ≤ i ∧ ∃ v,
          slots m !! Z.to_nat i = Some (Full (hash_one (hash_builder m) k) k v)
          ∧ abs m !! k = Some v
      | (None, j) => free_spot t (slots m) (hash_one (hash_builder m) k) j
          ∧ (∀ i h v, slots m !! i ≠ Some (Full h k v)) ∧ abs m !! k = None
      end.
Proof.
  intros Hwf Hp. destruct m as [hb sl l u]. cbn [slots hash_builder] in *.
  pose proof (pow2_cap_pos _ Hp). pose proof (wf_used _ _ Hwf) as Hu.
  destruct (probe_spec t sl hb l u (hash_one hb k) k) as (r & Hr & Hpost); [done| |].
  { destruct (wf_load _ _ Hwf) as [He|Hl]; cbn [slots used] in *;
      [by rewrite He in * | unfold tcap in *; lia]. }
  exists r. split; [done|]. destruct r as [[i|] j].
  - destruct Hpost as (-> & Hi & v & Hv). split; [done|]. split; [lia|]. exists v.
    split; [done|]. apply abs_lookup; [by apply wf_unique|]. eauto.
  - pose proof Hpost as [Hfree _].
    assert (∀ i h v, sl !! i ≠ Some (Full h k v)) as Habs.
    { eapply probe_absent; [done| |done]. by destruct (wf_table _ _ Hwf). }
    split; [done|]. split; [done|]. apply abs_None; [by apply wf_unique | done].
Qed.
End refinement.

(** ** Each operation is the finite-map operation *)
Section correctness.
Context (t : Target) {K V S : Type} `{Countable K} `{BuildHasher S K}.
Implicit Types (m : HashMap K V S).

Lemma insert_spec m k v :
  wf t m → ∃ m', insert t m k v = Some (m', abs m !! k)
    ∧ wf t m' ∧ abs m' = <[k := v]> (abs m) ∧ hash_builder m' = hash_builder m.
Proof.
  intros Hwf. unfold insert.
  destruct (ensure_capacity_spec t m Hwf) as (m1 & -> & Hwf1 & Ha & Hb & Hp & Hload).
  cbn [mbind option_bind]. destruct (probe_wf t m1 k Hwf1 Hp) as (r & -> & Hr).
  rewrite <-Ha, <-Hb. destruct r as [[i|] j]; cbn [mbind option_bind].
  - destruct Hr as (-> & Hi & v0 & Hs & Hk).
    destruct (update_value_spec t m1 j _ k v0 (λ _, v) Hwf1 Hi Hs)
      as (m2 & -> & Hwf2 & Ha2 & Hb2 & _).
    exists m2. rewrite Hk. done.
  - destruct Hr as (Hfree & Habs & Hk).
    destruct (fill_spec t m1 j k v Hwf1 Hload Hfree Habs) as (m2 & -> & Hwf2 & Ha2 & Hb2 & _).
    exists m2. rewrite Hk. done.
Qed.

Lemma nonempty_pow2 m : wf t m → cap m ≠ 0 → pow2_cap (slots m).
Proof. intros Hwf Hc. destruct (wf_cap _ _ Hwf) as [He%cap_zero|]; done. Qed.

Lemma empty_cap_abs m : wf t m → cap m = 0 → abs m = ∅.
Proof. intros Hwf Hz%cap_zero. by apply (wf_empty_slots t). Qed.

Lemma get_spec m k : wf t m → get t m k = Some (abs m !! k).
Proof.
  intros Hwf. unfold get. case_decide as Hz.
  { by rewrite (empty_cap_abs m Hwf Hz). }
  destruct (probe_wf t m k Hwf (nonempty_pow2 m Hwf Hz)) as ([[i|] j] & -> & Hr);
    cbn [mbind option_bind].
  - destruct Hr as (-> & Hi & v & Hs & ->). unfold index. by rewrite decide_True, Hs.
  - by destruct Hr as (_ & _ & ->).
Qed.

Lemma get_mut_spec m k f :
  wf t m → ∃ m', get_mut t m k f = Some (m', abs m !! k)
    ∧ wf t m' ∧ abs m' = alter f k (abs m) ∧ hash_builder m' = hash_builder m.
Proof.
  intros Hwf. unfold get_mut. case_decide as Hz.
  { exists m. by rewrite (empty_cap_abs m Hwf Hz). }
  destruct (probe_wf t m k Hwf (nonempty_pow2 m Hwf Hz)) as ([[i|] j] & -> & Hr);
    cbn [mbind option_bind].
  - destruct Hr as (-> & Hi & v & Hs & Hk). unfold index at 1.
    rewrite decide_True, Hs by done. cbn [mbind option_bind].
    destruct (update_value_spec t m j _ k v f Hwf Hi Hs) as (m2 & -> & Hwf2 & Ha2 & Hb2 & _).
    exists m2. rewrite Hk. split_and!; try done. rewrite Ha2.
    apply map_eq. intros k'. rewrite lookup_insert, lookup_alter.
    case_decide as Hkk; [subst; by rewrite Hk | done].
  - destruct Hr as (_ & _ & Hk). exists m. rewrite Hk. split_and!; try done.
    apply map_eq. intros k'. rewrite lookup_alter. case_decide; [subst; by rewrite Hk | done].
Qed.

Lemma remove_spec m k :
  wf t m → ∃ m', remove t m k = Some (m', abs m !! k)
    ∧ wf t m' ∧ abs m' = delete k (abs m) ∧ hash_builder m' = hash_builder m.
Proof.
  intros Hwf. unfold remove. case_decide as Hz.
  { exists m. by rewrite (empty_cap_abs m Hwf Hz). }
  destruct (probe_wf t m k Hwf (nonempty_pow2 m Hwf Hz)) as ([[i|] j] & -> & Hr);
    cbn [mbind option_bind].
  - destruct Hr as (-> & Hi & v & Hs & Hk). unfold index.
    rewrite decide_True, Hs by done. cbn [mbind option_bind].
    eexists. rewrite Hk. split; [done|].
    destruct (table_overwrite t _ _ _ _ k v v (wf_table _ _ Hwf) Hs) as [_ Hok].
    split; [|split; [|done]].
    + eapply wf_set; [done | exact Hs | cbn; lia | cbn; lia | | done].
      destruct (wf_load _ _ Hwf) as [He|]; [by rewrite He in Hs | done].
    + eapply abs_set_tombstone; [by eapply wf_unique | exact Hs].
  - destruct Hr as (_ & _ & Hk). exists m. rewrite Hk. split_and!; try done.
    symmetry. by apply delete_id.
Qed.

(** What [entry] returns: an occupied slot of the key or the spot for it. *)
Definition entry_ok m (k : K) (e : Entry K V S) : Prop :=
  match e with
  | Occupied m' i => wf t m' ∧ abs m' = abs m ∧ hash_builder m' = hash_builder m
      ∧ 0 ≤ i ∧ ∃ h v, slots m' !! Z.to_nat i = Some (Full h k v) ∧ abs m !! k = Some v
  | Vacant m' j h k' => wf t m' ∧ abs m' = abs m ∧ hash_builder m' = hash_builder m
      ∧ k' = k ∧ h = hash_one (hash_builder m') k ∧ (used m' + 1) * 8 < cap m' * 7
      ∧ free_spot t (slots m') h j
      ∧ (∀ i h v, slots m' !! i ≠ Some (Full h k v)) ∧ abs m !! k = None
  end.

Lemma entry_spec m k : wf t m → ∃ e, entry t m k = Some e ∧ entry_ok m k e.
Proof.
  intros Hwf. unfold entry.
  destruct (ensure_capacity_spec t m Hwf) as (m1 & -> & Hwf1 & Ha & Hb & Hp & Hload).
  cbn [mbind option_bind]. destruct (probe_wf t m1 k Hwf1 Hp) as ([[i|] j] & -> & Hr);
    cbn [mbind option_bind]; eexists; (split; [done|]); unfold entry_ok; rewrite <-Ha.
  - destruct Hr as (-> & Hi & v & Hs & Hk). split_and!; try done. eauto.
  - destruct Hr as (Hfree & Habs & Hk). split_and!; done.
Qed.

Lemma or_insert_with_spec m k e d f :
  entry_ok m k e → ∃ m', or_insert_with e d f = Some (m', default d (abs m !! k))
    ∧ wf t m' ∧ abs m' = <[k := f (default d (abs m !! k))]> (abs m)
    ∧ hash_builder m' = hash_builder m.
Proof.
  destruct e as [m1 i|m1 j h k1]; cbn.
  - intros (Hwf & Ha & Hb & Hi & h & v & Hs & Hk). rewrite Hk, <-Ha, <-Hb. cbn.
    destruct (update_value_spec t m1 i h k v f Hwf Hi Hs) as (m2 & ? & ? & ? & ? & _). eauto.
  - intros (Hwf & Ha & Hb & -> & -> & Hload & Hfree & Habs & Hk). rewrite Hk, <-Ha, <-Hb.
    destruct (fill_spec t m1 j k d Hwf Hload Hfree Habs)
      as (m2 & -> & Hwf2 & Ha2 & Hb2 & _ & Hs2). cbn [mbind option_bind].
    assert (0 ≤ j) as Hj.
    { destruct Hfree as (dd & s & Hd & -> & _). apply at_dist_range.
      apply nonempty_pow2; [done|]. rewrite cap_tcap. lia. }
    destruct (update_value_spec t m2 j _ k d f Hwf2 Hj Hs2) as (m3 & -> & Hwf3 & Ha3 & Hb3 & _).
    exists m3. cbn. split_and!; try done; [|by rewrite Hb3].
    by rewrite Ha3, Ha2, insert_insert_eq.
Qed.

Lemma and_modify_spec m k e f :
  entry_ok m k e → ∃ e', and_modify e f = Some e'
    ∧ ∃ m', entry_ok m' k e' ∧ abs m' = alter f k (abs m) ∧ hash_builder m' = hash_builder m.
Proof.
  destruct e as [m1 i|m1 j h k1]; cbn.
  - intros (Hwf & Ha & Hb & Hi & h & v & Hs & Hk).
    unfold index. rewrite decide_True, Hs by done. cbn [mbind option_bind].
    destruct (update_value_spec t m1 i h k v f Hwf Hi Hs) as (m2 & Hup & Hwf2 & Ha2 & Hb2 & _).
    pose proof Hup as Hup'. rewrite Hup. cbn [mbind option_bind].
    eexists. split; [done|]. exists m2.
    assert (abs m2 !! k = Some (f v)) as Hk2 by (rewrite Ha2; apply lookup_insert_eq).
    unfold update_value, index in Hup'. rewrite decide_True, Hs in Hup' by done.
    cbn in Hup'. simplify_eq. split; [|split].
    + cbn. split_and!; try done. exists h, (f v). split; [|done].
      apply list_lookup_insert_eq. by eapply lookup_lt_Some.
    + rewrite Ha2, Ha. apply map_eq. intros k'. rewrite lookup_insert, lookup_alter.
      case_decide as Hkk; [subst; by rewrite Hk | done].
    + by rewrite Hb2.
  - intros Hok. eexists. split; [done|]. exists m1. cbn.
    destruct Hok as (Hwf & Ha & Hb & -> & -> & Hload & Hfree & Habs & Hk).
    split_and!; try done; [by rewrite Ha|]. rewrite Ha.
    apply map_eq. intros k'. rewrite lookup_alter. case_decide; [subst; by rewrite Hk | done].
Qed.

Lemma clear_spec m :
  wf t m → wf t (clear m) ∧ abs (clear m) = (∅ : gmap K V)
           ∧ hash_builder (clear m) = hash_builder m.
Proof.
  intros Hwf. unfold clear.
  assert (∀ i s, ((λ _, Empty) <$> slots m : list (Slot K V)) !! i = Some s → s = Empty) as Hall.
  { intros i s. rewrite list_lookup_fmap. by destruct (slots m !! i); intros [= <-]. }
  assert (unique_keys ((λ _, Empty) <$> slots m : list (Slot K V))) as Hu
    by (intros ??????? [=]%Hall).
  split; [|split; [|done]].
  - split; cbn [slots len used hash_builder].
    + destruct (wf_cap _ _ Hwf) as [->|(k & ? & Hk)]; [by left | right].
      exists k. unfold tcap in *. by rewrite length_fmap.
    + unfold n_full. by rewrite (sum_list_with_const _ _ _ 0%nat), Nat.mul_0_r.
    + unfold n_used. by rewrite (sum_list_with_const _ _ _ 0%nat), Nat.mul_0_r.
    + destruct (wf_cap _ _ Hwf) as [->|Hp%pow2_cap_pos]; [by left | right].
      unfold tcap in *. rewrite length_fmap. lia.
    + split; [done|]. intros ???? [=]%Hall.
  - apply map_empty. intros k. apply abs_None; [done|]. intros i h v [=]%Hall.
Qed.
End correctness.

(** ** Sequences of operations *)
Section histories.
Context (t : Target) {K V S : Type} `{Countable K} `{BuildHasher S K}.
Implicit Types (m : HashMap K V S).

Inductive op : Type :=
| OInsert (k : K) (v : V)
| OGet (k : K)
| OGetMut (k : K) (f : V → V)
| OContains (k : K)
| ORemove (k : K)
| OOrInsert (k : K) (v : V) (f : V → V)
| OAndModify (k : K) (f : V → V) (v : V)   (* entry(k).and_modify(f).or_insert(v) *)
| OClear
| OLen.

Inductive output : Type :=
| OutVal (v : option V)
| OutBool (b : bool)
| OutLen (n : Z).

(** The table's behaviour on one operation. *)
Definition run_op m (o : op) : option (HashMap K V S * output) :=
  match o with
  | OInsert k v => '(m', r) ← insert t m k v; Some (m', OutVal r)
  | OGet k => r ← get t m k; Some (m, OutVal r)
  | OGetMut k f => '(m', r) ← get_mut t m k f; Some (m', OutVal r)
  | OContains k => b ← contains_key t m k; Some (m, OutBool b)
  | ORemove k => '(m', r) ← remove t m k; Some (m', OutVal r)
  | OOrInsert k v f => e ← entry t m k; '(m', r) ← or_insert e v f; Some (m', OutVal (Some r))
  | OAndModify k f v =>
      e ← entry t m k; e' ← and_modify e f;
      '(m', r) ← or_insert e' v id; Some (m', OutVal (Some r))
  | OClear => Some (clear m, OutLen 0)
  | OLen => Some (m, OutLen (len m))
  end.

(** The contract: the same operation on a finite map. *)
Definition spec_op (g : gmap K V) (o : op) : gmap K V * output :=
  match o with
  | OInsert k v => (<[k := v]> g, OutVal (g !! k))
  | OGet k => (g, OutVal (g !! k))
  | OGetMut k f => (alter f k g, OutVal (g !! k))
  | OContains k => (g, OutBool (bool_decide (is_Some (g !! k))))
  | ORemove k => (delete k g, OutVal (g !! k))
  | OOrInsert k v f => (<[k := f (default v (g !! k))]> g, OutVal (Some (default v (g !! k))))
  | OAndModify k f v =>
      let g' := alter f k g in
      (<[k := default v (g' !! k)]> g', OutVal (Some (default v (g' !! k))))
  | OClear => (∅, OutLen 0)
  | OLen => (g, OutLen (Z.of_nat (size g)))
  end.

Fixpoint run_ops m (os : list op) : option (HashMap K V S * list output) :=
  match os with
  | [] => Some (m, [])
  | o :: os =>
      '(m1, r) ← run_op m o;
      '(m2, rs) ← run_ops m1 os;
      Some (m2, r :: rs)
  end.

Fixpoint spec_ops (g : gmap K V) (os : list op) : gmap K V * list output :=
  match os with
  | [] => (g, [])
  | o :: os =>
      let '(g1, r) := spec_op g o in
      let '(g2, rs) := spec_ops g1 os in
      (g2, r :: rs)
  end.

Lemma run_op_spec m o :
  wf t m → ∃ m', run_op m o = Some (m', (spec_op (abs m) o).2)
    ∧ wf t m' ∧ abs m' = (spec_op (abs m) o).1.
Proof.
  intros Hwf. destruct o as [k v|k|k f|k|k|k v f|k f v| |]; cbn [run_op spec_op fst snd].
  - destruct (insert_spec t m k v Hwf) as (m' & -> & ? & ? & _). eauto.
  - rewrite (get_spec t m k Hwf). eauto.
  - destruct (get_mut_spec t m k f Hwf) as (m' & -> & ? & ? & _). eauto.
  - unfold contains_key. rewrite (get_spec t m k Hwf). eauto.
  - destruct (remove_spec t m k Hwf) as (m' & -> & ? & ? & _). eauto.
  - destruct (entry_spec t m k Hwf) as (e & -> & He). cbn [mbind option_bind].
    destruct (or_insert_with_spec t m k e v f He) as (m' & Hm & ? & ? & _).
    unfold or_insert. rewrite Hm. eauto.
  - destruct (entry_spec t m k Hwf) as (e & -> & He). cbn [mbind option_bind].
    destruct (and_modify_spec t m k e f He) as (e' & -> & m1 & He' & <- & _).
    cbn [mbind option_bind].
    destruct (or_insert_with_spec t m1 k e' v id He') as (m' & Hm & ? & ? & _).
    unfold or_insert. rewrite Hm. eauto.
  - destruct (clear_spec t m Hwf) as (? & ? & _). eauto.
  - rewrite (len_size t) by done. eauto.
Qed.

Lemma run_ops_spec os : ∀ m,
  wf t m → ∃ m', run_ops m os = Some (m', (spec_ops (abs m) os).2)
    ∧ wf t m' ∧ abs m' = (spec_ops (abs m) os).1.
Proof.
  induction os as [|o os IH]; intros m Hwf; cbn [run_ops spec_ops]; [by eauto|].
  destruct (run_op_spec m o Hwf) as (m1 & -> & Hwf1 & Ha1). cbn [mbind option_bind].
  destruct (IH m1 Hwf1) as (m2 & -> & Hwf2 & Ha2). cbn [mbind option_bind].
  exists m2. rewrite Ha1 in Ha2 |- *. destruct (spec_op (abs m) o) as [g1 r]. cbn in *.
  by destruct (spec_ops g1 os) as [g2 rs].
Qed.

(** C1: refinement. Every sequence of operations on a new [HashMap] returns (it
    never panics and never probes forever), produces exactly the outputs of the
    same operations on a finite map, and leaves a well-formed table that stores
    the same map. *)
Theorem hashmap_refines_map (hb : S) (os : list op) :
  ∃ m, run_ops (with_hasher hb) os = Some (m, (spec_ops ∅ os).2)
       ∧ wf t m ∧ abs m = (spec_ops ∅ os).1 ∧ len m = Z.of_nat (size (abs m)).
Proof.
  destruct (with_hasher_wf (K:=K) (V:=V) t hb) as [Hwf Ha].
  destruct (run_ops_spec os (with_hasher hb) Hwf) as (m & Hr & Hwf' & Ha').
  rewrite Ha in Hr, Ha'. exists m. split_and!; try done. by apply (len_size t).
Qed.

Lemma extend_spec kvs : ∀ m,
  wf t m → ∃ m', extend t m kvs = Some m' ∧ wf t m'
    ∧ abs m' = foldl (λ g kv, <[kv.1 := kv.2]> g) (abs m) kvs.
Proof.
  unfold extend. induction kvs as [|[k v] kvs IH]; intros m Hwf; [by eauto|].
  cbn [foldl mbind option_bind fst snd].
  destruct (insert_spec t m k v Hwf) as (m1 & -> & Hwf1 & <- & _). cbn [mbind option_bind].
  by apply IH.
Qed.

(** Bulk construction. [from_iter] returns a well-formed map in which the last pair
    given for a key wins. *)
Theorem from_iter_last_wins (hb : S) (kvs : list (K * V)) :
  ∃ m, from_iter t hb kvs = Some m ∧ wf t m ∧ abs m = list_to_map (reverse kvs).
Proof.
  destruct (with_hasher_wf (K:=K) (V:=V) t hb) as [Hwf Ha]. unfold from_iter.
  destruct (extend_spec kvs _ Hwf) as (m & Hm & Hwf' & Ha'). exists m.
  split_and!; try done. rewrite Ha', Ha.
  clear. induction kvs as [|[k v] l IH] using rev_ind; [done|].
  rewrite foldl_snoc, reverse_snoc, IH. done.
Qed.
End histories.

(** ** Iteration, [retain] and sizing *)
Section bulk.
Context (t : Target) {K V S : Type} `{Countable K} `{BuildHasher S K}.
Implicit Types (m : HashMap K V S) (sl : list (Slot K V)).

Lemma entries_drop sl i s :
  sl !! i = Some s →
  entries (drop i sl)
  = match entry_of s with Some kv => [kv] | None => [] end ++ entries (drop (Datatypes.S i) sl).
Proof.
  intros Hs. rewrite (drop_S _ _ _ Hs). unfold entries. cbn. by destruct (entry_of s).
Qed.

Lemma iter_next_loop_spec sl n : ∀ i,
  n = (length sl - i)%nat →
  match entries (drop i sl) with
  | [] => (iter_next_loop n sl i).1 = None
  | kv :: rest => (iter_next_loop n sl i).1 = Some kv
      ∧ entries (drop (iter_next_loop n sl i).2 sl) = rest
  end.
Proof.
  induction n as [|n IH]; intros i Hn; cbn [iter_next_loop].
  { rewrite drop_ge by lia. done. }
  destruct (lookup_lt_is_Some_2 sl i ltac:(lia)) as [s Hs].
  rewrite (entries_drop sl i s Hs), Hs. specialize (IH (Datatypes.S i) ltac:(lia)).
  by destruct s as [| |h k v].
Qed.

Lemma collect_loop_spec sl n : ∀ i,
  (length (entries (drop i sl)) < n)%nat →
  collect_loop n (mkIter sl i) = entries (drop i sl).
Proof.
  induction n as [|n IH]; intros i Hn; [lia|]. cbn [collect_loop].
  unfold iter_next. cbn [it_slots it_idx].
  pose proof (iter_next_loop_spec sl _ i eq_refl) as Hstep.
  destruct (iter_next_loop _ sl i) as [r i']. cbn [fst snd] in Hstep.
  destruct (entries (drop i sl)) as [|kv rest]; [by subst|].
  destruct Hstep as [-> <-]. f_equal. apply IH. cbn in Hn. lia.
Qed.

Lemma collect_iter m : collect (iter m) = entries (slots m).
Proof.
  unfold collect, iter. cbn [it_slots]. rewrite collect_loop_spec; [by rewrite drop_0|].
  rewrite drop_0, length_entries. pose proof (n_full_le_used (slots m)).
  assert (∀ sl, n_used sl ≤ length sl)%nat as Hle.
  { intros sl. unfold n_used. induction sl as [|[] sl IH]; cbn in *; lia. }
  specialize (Hle (slots m)). lia.
Qed.

(** Iteration. Draining [iter()] on a well-formed map yields every entry exactly
    once: a permutation of the stored map's entries, [len()] items, no repeated
    key. *)
Theorem iter_exact m (Hwf : wf t m) :
  collect (iter m) ≡ₚ map_to_list (abs m) ∧ NoDup (keys m)
  ∧ Z.of_nat (length (collect (iter m))) = len m.
Proof.
  unfold keys. rewrite collect_iter. pose proof (wf_unique t m Hwf) as Hu.
  split_and!.
  - unfold abs. symmetry. by apply map_to_list_to_map, unique_keys_NoDup.
  - by apply unique_keys_NoDup.
  - by rewrite length_entries, (wf_len _ _ Hwf).
Qed.

(** *** [retain] *)
Definition retain_slot (f : K → V → bool * V) (s : Slot K V) : Slot K V :=
  match s with
  | Full h k v => if (f k v).1 then Full h k (f k v).2 else Tombstone
  | _ => s
  end.

Lemma retain_step_spec f m i :
  wf t m →
  wf t (retain_step f m i) ∧ hash_builder (retain_step f m i) = hash_builder m
  ∧ slots (retain_step f m i) = alter (retain_slot f) i (slots m).
Proof.
  intros Hwf. unfold retain_step. destruct (slots m !! i) as [s|] eqn:Hs; last first.
  { split_and!; try done. apply list_eq. intros j. rewrite list_lookup_alter.
    case_decide; [subst; by rewrite Hs | done]. }
  assert (used m * 8 < tcap (slots m) * 7) as Hload
    by (destruct (wf_load _ _ Hwf) as [He|]; [by rewrite He in Hs | done]).
  assert (Halter : alter (retain_slot f) i (slots m) = <[i := retain_slot f s]> (slots m)).
  { apply list_eq. intros j. destruct (decide (i = j)) as [<-|].
    - rewrite list_lookup_alter_eq, list_lookup_insert_eq, Hs; [done|].
      by eapply lookup_lt_Some.
    - by rewrite list_lookup_alter_ne, list_lookup_insert_ne. }
  rewrite Halter. destruct s as [| |h k v]; cbn [retain_slot].
  1,2: split_and!; try done; by rewrite list_insert_id.
  destruct (table_overwrite t _ _ _ h k v (f k v).2 (wf_table _ _ Hwf) Hs) as [Hok1 Hok2].
  destruct (f k v) as [[|] v']; cbn in *; split_and!; try done;
    (eapply wf_set; [done | exact Hs | cbn; lia | cbn; lia | done | done]).
Qed.

Lemma retain_loop_spec f n : ∀ m i,
  wf t m →
  let m' := foldl (retain_step f) m (seq i n) in
  wf t m' ∧ hash_builder m' = hash_builder m
  ∧ ∀ j, slots m' !! j = (if decide (i ≤ j < i + n)%nat then retain_slot f else id) <$> slots m !! j.
Proof.
  induction n as [|n IH]; intros m i Hwf; cbn [seq foldl].
  { split_and!; try done. intros j. rewrite decide_False by lia. by destruct (slots m !! j). }
  destruct (retain_step_spec f m i Hwf) as (Hwf1 & Hb1 & Hs1).
  destruct (IH (retain_step f m i) (Datatypes.S i) Hwf1) as (Hwf2 & Hb2 & Hs2).
  split_and!; [done | by rewrite Hb2 |]. intros j. rewrite Hs2, Hs1, list_lookup_alter.
  repeat case_decide; subst; try lia;
    match goal with |- context [slots m !! ?x] => by destruct (slots m !! x) end.
Qed.

(** [retain] keeps exactly the entries the predicate keeps, with the values it
    wrote, and preserves the table invariant. *)
Theorem retain_correct (f : K → V → bool * V) m (Hwf : wf t m) :
  wf t (retain f m)
  ∧ abs (retain f m) = map_imap (λ k v, if (f k v).1 then Some (f k v).2 else None) (abs m).
Proof.
  unfold retain. destruct (retain_loop_spec f (length (slots m)) m 0 Hwf) as (Hwf' & _ & Hs).
  cbn zeta in *. set (m' := foldl _ _ _) in *. split; [done|].
  assert (∀ j, slots m' !! j = retain_slot f <$> slots m !! j) as Hs'.
  { intros j. rewrite Hs. case_decide; [done|].
    by rewrite (lookup_ge_None_2 (slots m) j) by lia. }
  apply map_eq. intros k. rewrite map_lookup_imap. apply option_eq. intros v.
  rewrite (abs_lookup m') by by eapply wf_unique. split.
  - intros (i & h & Hi). rewrite Hs' in Hi.
    destruct (slots m !! i) as [[| |h0 k0 v0]|] eqn:Hi0; simplify_eq/=.
    destruct (f k0 v0) as [[|] v1] eqn:Hf; simplify_eq/=.
    assert (abs m !! k = Some v0) as -> by (apply abs_lookup; [by eapply wf_unique | eauto]).
    cbn. by rewrite Hf.
  - intros Hb. apply bind_Some in Hb as (v0 & Hv0 & Hf).
    apply abs_lookup in Hv0 as (i & h & Hi); [|by eapply wf_unique].
    exists i, h. rewrite Hs', Hi. cbn. by destruct (f k v0) as [[|] v1]; simplify_eq/=.
Qed.

(** *** [iter_mut] *)
Lemma iter_mut_slots_fmap f (l : list (Slot K V)) :
  iter_mut_slots f l = retain_slot (λ k v, (true, f k v)) <$> l.
Proof. induction l as [|[| |h k v] l IH]; cbn; by rewrite ?IH. Qed.

Lemma retain_all_counts (f : K → V → V) n : ∀ (m : HashMap K V S) i,
  let m' := foldl (retain_step (λ k v, (true, f k v))) m (seq i n) in
  len m' = len m ∧ used m' = used m ∧ length (slots m') = length (slots m).
Proof.
  induction n as [|n IH]; intros m i; cbn [seq foldl]; [done|].
  destruct (IH (retain_step (λ k v, (true, f k v)) m i) (Datatypes.S i)) as (-> & -> & ->).
  unfold retain_step. destruct (slots m !! i) as [[]|]; cbn; by rewrite ?length_insert.
Qed.

(** Rewriting every value is [retain] with a predicate that keeps everything. *)
Lemma iter_mut_retain (f : K → V → V) (m : HashMap K V S) :
  wf t m → iter_mut f m = retain (λ k v, (true, f k v)) m.
Proof.
  intros Hwf. unfold retain.
  destruct (retain_loop_spec (λ k v, (true, f k v)) (length (slots m)) m 0 Hwf) as (_ & Hb & Hs).
  destruct (retain_all_counts f (length (slots m)) m 0) as (Hl & Hu & Hlen).
  cbn zeta in *. set (m' := foldl _ _ _) in *. destruct m' as [hb sl l u]. cbn in *. subst.
  unfold iter_mut. f_equal. rewrite iter_mut_slots_fmap. apply list_eq. intros j.
  rewrite list_lookup_fmap, Hs. case_decide; [done|]. by rewrite (lookup_ge_None_2 (slots m) j) by lia.
Qed.

(** [iter_mut] changes the values and nothing else. *)
Lemma iter_mut_correct (f : K → V → V) (m : HashMap K V S) :
  wf t m → wf t (iter_mut f m) ∧ abs (iter_mut f m) = map_imap (λ k v, Some (f k v)) (abs m).
Proof. intros Hwf. rewrite iter_mut_retain by done. by apply retain_correct. Qed.

Lemma index_key_spec (m : HashMap K V S) k : wf t m → index_key t m k = abs m !! k.
Proof. intros Hwf. unfold index_key. by rewrite (get_spec t m k Hwf). Qed.

(** *** Sizing *)
Lemma capacity_for_loop_spec items n : ∀ k,
  3 ≤ k ≤ usize_bits t - 3 → 0 ≤ items < 2 ^ (usize_bits t - 4) →
  usize_bits t - 3 - k < Z.of_nat n →
  k = 3 ∨ 2 ^ (k - 1) * 7 ≤ items * 8 →
  ∃ c, capacity_for_loop t n items (2 ^ k) = Some (2 ^ c) ∧ 3 ≤ c
       ∧ items * 8 < 2 ^ c * 7 ∧ (c = 3 ∨ 2 ^ (c - 1) * 7 ≤ items * 8).
Proof.
  induction n as [|n IH]; intros k Hk Hi Hn Hmin; [lia|]. cbn [capacity_for_loop].
  set (w := usize_bits t) in *.
  assert (2 ^ w = 2 ^ (w - 4) * 16) as Hw by (rewrite <-(Z.pow_add_r 2 _ 4) by lia; f_equal; lia).
  assert (2 ^ (w - 3) = 2 ^ (w - 4) * 2) as Hw3 by (rewrite <-(Z.pow_add_r 2 _ 1) by lia; f_equal; lia).
  assert (2 ^ k ≤ 2 ^ (w - 3)) as Hkw by (apply Z.pow_le_mono_r; lia).
  pose proof (pow2_pos k ltac:(lia)).
  rewrite (wrap_small w (2 ^ k * 7)), (wrap_small w (items * 8)) by lia.
  case_decide as Hc; [|by exists k; split_and!; try done; lia].
  rewrite wrap_small by lia.
  replace (2 ^ k * 2) with (2 ^ (k + 1)) by (rewrite Z.pow_add_r; lia).
  apply IH; [|done|lia|].
  - split; [lia|]. assert (k < w - 3); [|lia].
    apply (Z.pow_lt_mono_r_iff 2); lia.
  - right. replace (k + 1 - 1) with k by lia. done.
Qed.

(** [capacity_for] returns the smallest power-of-two table (at least 8) that
    keeps [items] under the 7/8 load factor, for every request below
    [2^(usize::BITS - 4)]; no intermediate product overflows. *)
Theorem capacity_for_smallest (items : Z)
    (Hitems : 0 ≤ items < 2 ^ (usize_bits t - 4)) :
  ∃ c, capacity_for t 64 items = Some (2 ^ c) ∧ 3 ≤ c ∧ items * 8 < 2 ^ c * 7
       ∧ (c = 3 ∨ 2 ^ (c - 1) * 7 ≤ items * 8).
Proof.
  apply (capacity_for_loop_spec items 64 3); [|done| |by left];
    destruct t; cbn; lia.
Qed.

(** An insertion within the load limit does not move the table. *)
Lemma insert_no_grow m k v :
  wf t m → (used m + 1) * 8 < cap m * 7 →
  ∃ m' r, insert t m k v = Some (m', r) ∧ wf t m' ∧ cap m' = cap m ∧ used m' ≤ used m + 1.
Proof.
  intros Hwf Hload. pose proof (used_bounds t m Hwf).
  assert (cap m ≠ 0) as Hz by lia.
  unfold insert, ensure_capacity. rewrite decide_False, decide_False by lia.
  cbn [mbind option_bind].
  destruct (probe_wf t m k Hwf (nonempty_pow2 t m Hwf Hz)) as ([[i|] j] & -> & Hr);
    cbn [mbind option_bind].
  - destruct Hr as (-> & Hi & v0 & Hs & Hk).
    destruct (update_value_spec t m j _ k v0 (λ _, v) Hwf Hi Hs) as (m2 & Hu & Hwf2 & _ & _ & Hc).
    rewrite Hu. cbn [mbind option_bind]. exists m2, (Some v0). split_and!; try done.
    unfold update_value in Hu. destruct (index (slots m) j) as [[]|]; simplify_eq/=. lia.
  - destruct Hr as (Hfree & Habs & Hk).
    destruct (fill_spec t m j k v Hwf Hload Hfree Habs) as (m2 & Hu & Hwf2 & _ & _ & Hc & _).
    rewrite Hu. cbn [mbind option_bind]. exists m2, None. split_and!; try done.
    unfold fill in Hu. destruct (index (slots m) j) as [s|]; simplify_eq/=.
    destruct (is_empty_slot s); lia.
Qed.

Lemma extend_no_grow kvs : ∀ m,
  wf t m → (used m + Z.of_nat (length kvs)) * 8 < cap m * 7 →
  ∃ m', extend t m kvs = Some m' ∧ cap m' = cap m.
Proof.
  unfold extend. induction kvs as [|[k v] kvs IH]; intros m Hwf Hload; [by eauto|].
  cbn [foldl mbind option_bind fst snd length] in *.
  destruct (insert_no_grow m k v Hwf) as (m1 & r & -> & Hwf1 & Hc & Hu); [lia|].
  cbn [mbind option_bind]. rewrite <-Hc. apply IH; [done|]. lia.
Qed.

(** [with_capacity(n)] pays for [n] insertions: no insertion among the first
    [n] reallocates the table. *)
Theorem with_capacity_no_realloc (hb : S) (n : Z) (kvs : list (K * V))
    (Hn : 0 < n < 2 ^ (usize_bits t - 4)) (Hkvs : Z.of_nat (length kvs) ≤ n) :
  ∃ m m', with_capacity_and_hasher t 64 n hb = Some m ∧ extend t m kvs = Some m'
          ∧ cap m' = cap m.
Proof.
  unfold with_capacity_and_hasher. rewrite decide_True by lia.
  destruct (capacity_for_loop_spec n 64 3) as (c & Hc & Hc3 & Hload & _);
    [destruct t; cbn; lia | lia | destruct t; cbn; lia | by left |].
  unfold capacity_for. change 8 with (2 ^ 3) at 1. rewrite Hc. cbn [mbind option_bind].
  destruct (with_hasher_wf (K:=K) (V:=V) t hb) as [Hwf _].
  destruct (grow_to_spec t (with_hasher hb : HashMap K V S) c Hwf) as (m & -> & Hwf' & _ & _ & Hcap & Hu);
    [done | cbn; pose proof (pow2_pos c); lia |].
  destruct (extend_no_grow kvs m Hwf') as (m' & Hm' & Hc'); [rewrite Hu, Hcap; cbn; lia|].
  eauto.
Qed.

(** [capacity()] overstates: a table holding one entry less than [capacity()] reports
    reallocates (doubles) on the very next insertion, whatever the key. *)
Theorem capacity_overstated m (k : K) (v : V)
    (Hwf : wf t m) (Hcap : cap m ≠ 0) (Hfull : used m = capacity m - 1) :
  ∃ m' r, insert t m k v = Some (m', r) ∧ cap m' = 2 * cap m.
Proof.
  pose proof (nonempty_pow2 t m Hwf Hcap) as Hp. pose proof (pow2_cap_pos _ Hp).
  destruct Hp as (e & He & Hce). pose proof (used_bounds t m Hwf).
  assert (cap m = 8 * 2 ^ (e - 3)) as H8.
  { rewrite cap_tcap, Hce. rewrite <-(Z.pow_add_r 2 3) by lia. f_equal. lia. }
  assert (cap m / 8 = 2 ^ (e - 3)) as Hdiv by (rewrite H8, Z.mul_comm; by apply Z.div_mul).
  unfold capacity in Hfull. rewrite Hdiv in Hfull. rewrite cap_tcap in *.
  unfold insert, ensure_capacity. rewrite cap_tcap, decide_False, decide_True by lia.
  replace (tcap (slots m) * 2) with (2 ^ (e + 1)) by (rewrite Z.pow_add_r; lia).
  assert (2 ^ (e + 1) = 2 * tcap (slots m)) as He1 by (rewrite Z.pow_add_r; lia).
  destruct (grow_to_spec t m (e + 1) Hwf) as (m1 & -> & Hwf1 & _ & _ & Hc1 & Hu1); [lia|lia|].
  cbn [mbind option_bind].
  destruct (insert_no_grow m1 k v Hwf1) as (m2 & r & Hins & _ & Hc2 & _); [lia|].
  unfold insert, ensure_capacity in Hins.
  rewrite decide_False, decide_False in Hins by lia. cbn [mbind option_bind] in Hins.
  rewrite Hins. exists m2, r. split; [done|]. lia.
Qed.

(** [ensure_capacity] in machine arithmetic. *)
Definition ensure_capacity_machine m : option (HashMap K V S) :=
  let w := usize_bits t in
  if decide (cap m = 0) then grow_to t m 8
  else if decide (wrap w (cap m * 7) ≤ wrap w (wrap w (used m + 1) * 8))
  then grow_to t m (wrap w (cap m * 2))
  else Some m.

(** No arithmetic of [ensure_capacity] overflows while the slot array respects
    the allocation limit [isize::MAX] (a slot holds a [u64] and a tag, so it
    occupies at least 12 bytes on every target). *)
Theorem ensure_capacity_no_overflow m (slot_size : Z)
    (Hwf : wf t m) (Hsize : 12 ≤ slot_size) (Hmax : cap m * slot_size < 2 ^ (usize_bits t - 1)) :
  ensure_capacity_machine m = ensure_capacity t m.
Proof.
  unfold ensure_capacity_machine, ensure_capacity. case_decide as Hz; [done|].
  pose proof (used_bounds t m Hwf).
  destruct (wf_load _ _ Hwf) as [He%cap_zero|Hl]; [done|]. rewrite cap_tcap in *.
  assert (2 ^ usize_bits t = 2 * 2 ^ (usize_bits t - 1)) as Hw.
  { rewrite <-(Z.pow_add_r 2 1) by (destruct t; cbn; lia). f_equal. lia. }
  assert (0 < tcap (slots m)) by (unfold tcap in *; lia).
  assert (tcap (slots m) * 12 < 2 ^ (usize_bits t - 1)) by nia.
  by rewrite !wrap_small by (rewrite ?wrap_small; lia).
Qed.
End bulk.

(** ** Overflow of [capacity_for] on huge requests *)
Definition overflow_caps : list Z := 0 :: ((λ k, 2 ^ k) <$> seqZ 3 61).

(** For a request of [2^61 - 1] items on a 64-bit target [capacity_for] never
    returns: the doubled table size wraps to 0 and the loop condition stays true
    (the release profile; the debug profile panics on the overflow). *)
Theorem capacity_for_diverges (fuel : nat) :
  capacity_for X86_64Linux fuel (2 ^ 61 - 1) = None.
Proof.
  assert (Hall : Forall (λ c,
    wrap 64 (c * 7) ≤ wrap 64 ((2 ^ 61 - 1) * 8) ∧ wrap 64 (c * 2) ∈ overflow_caps) overflow_caps).
  { apply (bool_decide_unpack _). vm_compute. exact I. }
  assert (Hin : 8 ∈ overflow_caps) by (apply (bool_decide_unpack _); vm_compute; exact I).
  rewrite Forall_forall in Hall. unfold capacity_for. revert Hin. generalize 8.
  induction fuel as [|fuel IH]; intros c Hc; cbn [capacity_for_loop]; [done|].
  destruct (Hall c Hc) as [Hle Hnext]. rewrite decide_True by exact Hle. by apply IH.
Qed.

(** ** Concrete instances *)
Section samples.
(** A hasher that collides often: the key itself. *)
#[local] Instance identity_hasher : BuildHasher unit Z := λ _ k, k.

Definition sample : HashMap Z Z unit :=
  default (with_hasher tt)
    (extend X86_64Linux (with_hasher tt) [(1, 10); (9, 20); (17, 30); (2, 40); (3, 50); (4, 60)]).

Lemma sample_wf : wf X86_64Linux sample.
Proof.
  destruct (with_hasher_wf (K:=Z) (V:=Z) X86_64Linux tt) as [Hwf _].
  destruct (extend_spec X86_64Linux
    [(1, 10); (9, 20); (17, 30); (2, 40); (3, 50); (4, 60)] _ Hwf) as (m' & Hm & Hwf' & _).
  unfold sample. rewrite Hm. exact Hwf'.
Qed.

(** Three keys with the same home slot, probed past a tombstone. *)
Example colliding_keys :
  run_ops X86_64Linux (with_hasher tt)
    [OInsert 1 10; OInsert 9 20; OInsert 17 30; ORemove 9; OGet 17; OInsert 17 31; OGet 17; OLen]
  ≫= (λ r, Some r.2)
  = Some [OutVal None; OutVal None; OutVal None; OutVal (Some 20); OutVal (Some 30);
          OutVal (Some 30); OutVal (Some 31); OutLen 2].
Proof. vm_compute. reflexivity. Qed.

(** An instance. *)
Lemma iter_exact_witness :
  collect (iter sample) ≡ₚ map_to_list (abs sample) ∧ NoDup (keys sample)
  ∧ Z.of_nat (length (collect (iter sample))) = len sample.
Proof. apply (iter_exact X86_64Linux sample). exact sample_wf. Defined.

(** An instance: drop the odd keys, double the others. *)
Lemma retain_correct_witness :
  wf X86_64Linux (retain (λ k v, (Z.even k, 2 * v)) sample)
  ∧ abs (retain (λ k v, (Z.even k, 2 * v)) sample)
    = map_imap (λ k v, if Z.even k then Some (2 * v) else None) (abs sample).
Proof. apply (retain_correct X86_64Linux (λ k v, (Z.even k, 2 * v)) sample). exact sample_wf. Defined.

(** An instance. *)
Lemma capacity_for_smallest_witness :
  ∃ c, capacity_for I686Linux 64 1000 = Some (2 ^ c) ∧ 3 ≤ c ∧ 1000 * 8 < 2 ^ c * 7
       ∧ (c = 3 ∨ 2 ^ (c - 1) * 7 ≤ 1000 * 8).
Proof. apply (capacity_for_smallest I686Linux 1000). cbn. lia. Defined.

(** An instance. *)
Lemma with_capacity_no_realloc_witness :
  ∃ m m' : HashMap Z Z unit,
    with_capacity_and_hasher X86_64Linux 64 7 tt = Some m
    ∧ extend X86_64Linux m [(1, 1); (2, 2); (3, 3); (4, 4); (5, 5); (6, 6); (7, 7)] = Some m'
    ∧ cap m' = cap m.
Proof.
  apply (with_capacity_no_realloc X86_64Linux tt 7
           [(1, 1); (2, 2); (3, 3); (4, 4); (5, 5); (6, 6); (7, 7)]); cbn; lia.
Defined.

(** An instance: six entries in a table of eight, whose [capacity()] is 7. *)
Lemma capacity_overstated_witness :
  capacity sample = 7 ∧ len sample = 6
  ∧ ∃ m' r, insert X86_64Linux sample 5 70 = Some (m', r) ∧ cap m' = 2 * cap sample.
Proof.
  split; [vm_compute; reflexivity|]. split; [vm_compute; reflexivity|].
  apply (capacity_overstated X86_64Linux sample 5 70);
    [exact sample_wf | vm_compute; discriminate | vm_compute; reflexivity].
Defined.

(** An instance. *)
Lemma ensure_capacity_no_overflow_witness :
  ensure_capacity_machine X86_64Linux sample = ensure_capacity X86_64Linux sample.
Proof.
  apply (ensure_capacity_no_overflow X86_64Linux sample 24);
    [exact sample_wf | lia | vm_compute; reflexivity].
Defined.
End samples.
