(* ===== verification/HashSet.v ===== *)
(** [HashSet] of src/src/collections.rs: a thin wrapper over [HashMap<T, ()>].

    The contract is a finite set ([gset]): [elems s] is the set of stored keys.
    The lazy set operations ([union], [intersection], ..) are modelled by the list
    of items their iterator yields. *)
From S2P Require Import Prelude HashMap.

Record HashSet (T S : Type) := mkHashSet { map : HashMap T unit S }.
Arguments mkHashSet {T S}.
Arguments map {T S}.

Section operations.
Context (t : Target) {T S : Type} `{EqDecision T} `{BuildHasher S T}.
Implicit Types (s : HashSet T S) (v : T).

Definition set_with_hasher (hb : S) : HashSet T S := mkHashSet (with_hasher hb).
Definition set_len s : Z := len (map s).
Definition set_is_empty s : bool := is_empty (map s).
Definition set_clear s : HashSet T S := mkHashSet (clear (map s)).
Definition set_iter s : list T := keys (map s).

Definition set_insert s v : option (HashSet T S * bool) :=
  '(m, old) ← insert t (map s) v tt;
  Some (mkHashSet m, bool_decide (old = None)).

Definition set_contains s v : option bool := contains_key t (map s) v.

Definition set_remove s v : option (HashSet T S * bool) :=
  '(m, old) ← remove t (map s) v;
  Some (mkHashSet m, bool_decide (is_Some old)).

Definition set_extend s (vs : list T) : option (HashSet T S) :=
  foldl (λ os v, s ← os; '(s', _) ← set_insert s v; Some s') (Some s) vs.

Definition set_from_iter (hb : S) (vs : list T) : option (HashSet T S) :=
  set_extend (set_with_hasher hb) vs.

(** [get]: test membership, then find the stored key. *)
Definition set_get s v : option (option T) :=
  b ← contains_key t (map s) v;
  Some (if b : bool then snd <$> list_find (λ k, k = v) (keys (map s)) else None).

(** [iter().all(p)] and [iter().filter(p)] with a predicate that can fail. *)
Fixpoint all_items (p : T → option bool) (l : list T) : option bool :=
  match l with
  | [] => Some true
  | x :: l => b ← p x; if b : bool then all_items p l else Some false
  end.

Fixpoint filter_items (p : T → option bool) (l : list T) : option (list T) :=
  match l with
  | [] => Some []
  | x :: l => b ← p x; r ← filter_items p l; Some (if b : bool then x :: r else r)
  end.

Definition is_disjoint s s' : option bool :=
  all_items (λ v, b ← set_contains s' v; Some (negb b)) (set_iter s).
Definition is_subset s s' : option bool := all_items (set_contains s') (set_iter s).
Definition is_superset s s' : option bool := is_subset s' s.
Definition intersection s s' : option (list T) :=
  filter_items (set_contains s') (set_iter s).
Definition difference s s' : option (list T) :=
  filter_items (λ v, b ← set_contains s' v; Some (negb b)) (set_iter s).
Definition union s s' : option (list T) :=
  r ← filter_items (λ v, b ← set_contains s v; Some (negb b)) (set_iter s');
  Some (set_iter s ++ r).

Definition set_retain (f : T → bool) s : HashSet T S :=
  mkHashSet (retain (λ (k : T) (v : unit), (f k, v)) (map s)).
End operations.

Section correctness.
Context (t : Target) {T S : Type} `{Countable T} `{BuildHasher S T}.
Implicit Types (s : HashSet T S) (v : T).

Definition set_wf s : Prop := wf t (map s).
Definition elems s : gset T := dom (abs (map s)).

Lemma iter_elems s v : set_wf s → v ∈ set_iter s ↔ v ∈ elems s.
Proof.
  intros Hwf. unfold set_iter, keys, elems. rewrite collect_iter, elem_of_dom.
  rewrite list_elem_of_fmap. split.
  - intros ([k u] & -> & Hin%elem_of_entries). exists u.
    apply abs_lookup; [by eapply wf_unique | done].
  - intros [u Hu]. exists (v, u). split; [done|]. apply elem_of_entries.
    apply abs_lookup in Hu; [done | by eapply wf_unique].
Qed.

Lemma iter_NoDup s : set_wf s → NoDup (set_iter s).
Proof.
  intros Hwf. unfold set_iter, keys. rewrite collect_iter.
  by eapply unique_keys_NoDup, wf_unique.
Qed.

Lemma contains_spec s v : set_wf s → set_contains t s v = Some (bool_decide (v ∈ elems s)).
Proof.
  intros Hwf. unfold set_contains, contains_key. rewrite (get_spec t (map s) v Hwf). cbn.
  f_equal. apply bool_decide_ext. symmetry. apply elem_of_dom.
Qed.

Lemma set_insert_spec s v :
  set_wf s → ∃ s', set_insert t s v = Some (s', bool_decide (v ∉ elems s))
    ∧ set_wf s' ∧ elems s' = {[v]} ∪ elems s.
Proof.
  intros Hwf. unfold set_insert.
  destruct (insert_spec t (map s) v tt Hwf) as (m & -> & Hwf' & Ha & _). cbn.
  exists (mkHashSet m). split_and!; [|done|].
  - do 2 f_equal. apply bool_decide_ext. unfold elems. by rewrite not_elem_of_dom.
  - unfold elems. cbn. by rewrite Ha, dom_insert_L.
Qed.

Lemma set_remove_spec s v :
  set_wf s → ∃ s', set_remove t s v = Some (s', bool_decide (v ∈ elems s))
    ∧ set_wf s' ∧ elems s' = elems s ∖ {[v]}.
Proof.
  intros Hwf. unfold set_remove.
  destruct (remove_spec t (map s) v Hwf) as (m & -> & Hwf' & Ha & _). cbn.
  exists (mkHashSet m). split_and!; [|done|].
  - do 2 f_equal. apply bool_decide_ext. unfold elems. by rewrite elem_of_dom.
  - unfold elems. cbn. by rewrite Ha, dom_delete_L.
Qed.

Lemma all_items_spec (p : T → option bool) (P : T → Prop) `{∀ x, Decision (P x)} l :
  (∀ x, p x = Some (bool_decide (P x))) →
  all_items p l = Some (bool_decide (Forall P l)).
Proof.
  intros Hp. induction l as [|x l IH]; cbn; [done|].
  rewrite Hp. cbn. destruct (bool_decide_reflect (P x)) as [HPx|HPx]; cbn.
  - rewrite IH. f_equal. apply bool_decide_ext. rewrite Forall_cons. tauto.
  - f_equal. symmetry. apply bool_decide_eq_false_2. rewrite Forall_cons. tauto.
Qed.

Lemma filter_items_spec (p : T → option bool) (P : T → Prop) `{∀ x, Decision (P x)} l :
  (∀ x, p x = Some (bool_decide (P x))) → filter_items p l = Some (filter P l).
Proof.
  intros Hp. induction l as [|x l IH]; cbn [filter_items]; [done|].
  rewrite Hp, IH, filter_cons. cbn. by destruct (bool_decide_reflect (P x)); case_decide.
Qed.

Lemma not_contains_spec s v :
  set_wf s →
  (b ← set_contains t s v; Some (negb b)) = Some (bool_decide (v ∉ elems s)).
Proof.
  intros Hwf. rewrite contains_spec by done. cbn. f_equal.
  by rewrite <-bool_decide_not.
Qed.

(** The relations of [HashSet] are the relations of the stored finite sets, and
    they always return. *)
Theorem set_relations s s' (Hwf : set_wf s) (Hwf' : set_wf s') :
  is_subset t s s' = Some (bool_decide (elems s ⊆ elems s'))
  ∧ is_superset t s s' = Some (bool_decide (elems s' ⊆ elems s))
  ∧ is_disjoint t s s' = Some (bool_decide (elems s ## elems s')).
Proof.
  assert (∀ a b, set_wf a → set_wf b →
    is_subset t a b = Some (bool_decide (elems a ⊆ elems b))) as Hsub.
  { intros a b Ha Hb. unfold is_subset.
    rewrite (all_items_spec _ (λ v, v ∈ elems b)) by (intros; by apply contains_spec).
    f_equal. apply bool_decide_ext. rewrite Forall_forall. unfold subseteq, set_subseteq_instance.
    by setoid_rewrite iter_elems. }
  split_and!; [by apply Hsub | by apply Hsub |]. unfold is_disjoint.
  rewrite (all_items_spec _ (λ v, v ∉ elems s')) by (intros; by apply not_contains_spec).
  f_equal. apply bool_decide_ext. rewrite Forall_forall. setoid_rewrite iter_elems; [|done].
  set_solver.
Qed.

(** The set operations yield every element of the mathematical union,
    intersection and difference exactly once. *)
Theorem set_algebra s s' (Hwf : set_wf s) (Hwf' : set_wf s') :
  ∃ u i d, union t s s' = Some u ∧ intersection t s s' = Some i ∧ difference t s s' = Some d
    ∧ NoDup u ∧ NoDup i ∧ NoDup d
    ∧ list_to_set u = elems s ∪ elems s'
    ∧ list_to_set i = elems s ∩ elems s'
    ∧ list_to_set d = elems s ∖ elems s'.
Proof.
  unfold union, intersection, difference.
  rewrite (filter_items_spec (set_contains t s') (λ v, v ∈ elems s'))
    by (intros; by apply contains_spec).
  rewrite (filter_items_spec _ (λ v, v ∉ elems s') (set_iter s))
    by (intros; by apply not_contains_spec).
  rewrite (filter_items_spec _ (λ v, v ∉ elems s) (set_iter s'))
    by (intros; by apply not_contains_spec).
  cbn [mbind option_bind]. do 3 eexists. split_and!; [done..| | | | | |].
  - apply NoDup_app. split_and!; [by apply iter_NoDup | | by apply NoDup_filter, iter_NoDup].
    intros x Hx%iter_elems Hf%list_elem_of_filter; [by destruct Hf | done].
  - by apply NoDup_filter, iter_NoDup.
  - by apply NoDup_filter, iter_NoDup.
  - apply set_eq. intros x. rewrite elem_of_list_to_set, elem_of_app, list_elem_of_filter.
    rewrite !iter_elems, elem_of_union by done.
    destruct (decide (x ∈ elems s)); naive_solver.
  - apply set_eq. intros x. rewrite elem_of_list_to_set, list_elem_of_filter.
    rewrite iter_elems, elem_of_intersection by done. naive_solver.
  - apply set_eq. intros x. rewrite elem_of_list_to_set, list_elem_of_filter.
    rewrite iter_elems, elem_of_difference by done. naive_solver.
Qed.

Lemma set_extend_spec vs : ∀ s,
  set_wf s → ∃ s', set_extend t s vs = Some s' ∧ set_wf s'
    ∧ elems s' = elems s ∪ list_to_set vs.
Proof.
  unfold set_extend. induction vs as [|v vs IH]; intros s Hwf; cbn.
  { exists s. split_and!; try done. set_solver. }
  destruct (set_insert_spec s v Hwf) as (s1 & -> & Hwf1 & He1). cbn.
  destruct (IH s1 Hwf1) as (s2 & Hs2 & Hwf2 & He2). exists s2.
  split_and!; try done. rewrite He2, He1. set_solver.
Qed.

Lemma set_new_spec (hb : S) :
  set_wf (set_with_hasher hb) ∧ elems (set_with_hasher hb) = (∅ : gset T).
Proof. destruct (with_hasher_wf (K:=T) (V:=unit) t hb). split; done. Qed.
End correctness.

Section samples.
#[local] Instance set_identity_hasher : BuildHasher unit Z := λ _ k, k.

Definition sample_set (vs : list Z) : HashSet Z unit :=
  default (set_with_hasher tt) (set_from_iter X86_64Linux tt vs).

Lemma sample_set_wf vs : set_wf X86_64Linux (sample_set vs).
Proof.
  destruct (set_new_spec (T:=Z) X86_64Linux tt) as [Hwf _].
  destruct (set_extend_spec X86_64Linux vs _ Hwf) as (s & Hs & Hwf' & _).
  unfold sample_set, set_from_iter. rewrite Hs. exact Hwf'.
Qed.

(** An instance. *)
Lemma set_relations_witness :
  is_subset X86_64Linux (sample_set [1; 9]) (sample_set [17; 9; 1])
    = Some (bool_decide (elems (sample_set [1; 9]) ⊆ elems (sample_set [17; 9; 1])))
  ∧ is_superset X86_64Linux (sample_set [1; 9]) (sample_set [17; 9; 1])
    = Some (bool_decide (elems (sample_set [17; 9; 1]) ⊆ elems (sample_set [1; 9])))
  ∧ is_disjoint X86_64Linux (sample_set [1; 9]) (sample_set [17; 9; 1])
    = Some (bool_decide (elems (sample_set [1; 9]) ## elems (sample_set [17; 9; 1]))).
Proof.
  apply (set_relations X86_64Linux (sample_set [1; 9]) (sample_set [17; 9; 1]));
    apply sample_set_wf.
Defined.

(** An instance. *)
Lemma set_algebra_witness :
  ∃ u i d, union X86_64Linux (sample_set [1; 9]) (sample_set [17; 9]) = Some u
    ∧ intersection X86_64Linux (sample_set [1; 9]) (sample_set [17; 9]) = Some i
    ∧ difference X86_64Linux (sample_set [1; 9]) (sample_set [17; 9]) = Some d
    ∧ NoDup u ∧ NoDup i ∧ NoDup d
    ∧ list_to_set u = elems (sample_set [1; 9]) ∪ elems (sample_set [17; 9])
    ∧ list_to_set i = elems (sample_set [1; 9]) ∩ elems (sample_set [17; 9])
    ∧ list_to_set d = elems (sample_set [1; 9]) ∖ elems (sample_set [17; 9]).
Proof.
  apply (set_algebra X86_64Linux (sample_set [1; 9]) (sample_set [17; 9]));
    apply sample_set_wf.
Defined.
End samples.
