(* ===== verification/Allocator.v ===== *)
(** The global allocator (src/src/allocator.rs).

    Small requests come from per-class intrusive free lists carved out of 1 MiB
    arenas, large ones from their own page-rounded mapping.  Memory is the map of
    pointer-sized words the allocator writes into its blocks; the operating system
    is reached through [ArenaSource], an interface that both [map] functions of the
    source (native [mmap] and WebAssembly [memory.grow]) implement. *)
From S2P Require Import Prelude.

Definition GRAN : Z := 16384.
Definition MIN_MAP_ALIGN : Z := 4096.
Definition MIN_SHIFT : Z := 4.
Definition MAX_SMALL : Z := MIN_MAP_ALIGN.
Definition NUM_CLASSES : nat := 9.
Definition ARENA : Z := Z.shiftl 1 20.

(** [core::alloc::Layout]: a size and a power-of-two alignment. *)
Record Layout := mkLayout { size_ : Z; align_ : Z }.

#[export] Instance Layout_eq_dec : EqDecision Layout.
Proof. solve_decision. Defined.

(** What the allocator needs from the platform: [map] returns null or a fresh page-aligned region
    and [unmap] gives one back.  [owned] is the part of the address space the
    program holds.  Requests are at most [isize::MAX] rounded up to [GRAN]. *)
Class ArenaSource (t : Target) (σ : Type) := {
  map : σ → Z → Z * σ;
  unmap : σ → Z → Z → σ;
  owned : σ → Z → Prop;
  map_spec : ∀ s len p s', 0 < len < 2 ^ (usize_bits t - 1) + GRAN → map s len = (p, s') →
    (∀ a, owned s a → owned s' a) ∧
    (p = 0 ∨
     0 < p ∧ p `mod` MIN_MAP_ALIGN = 0 ∧
     (∀ a, p ≤ a < p + len → ¬ owned s a ∧ owned s' a));
  unmap_spec : ∀ s p len a,
    owned s a → ¬ (p ≤ a < p + len) → owned (unmap s p len) a;
}.

Section sizes.
Context (t : Target).

Definition round_up (v to : Z) : Z :=
  Z.land (wrap (usize_bits t) (v + to - 1)) (wrap (usize_bits t) (Z.lnot (to - 1))).

(** The [while (1 << shift) < need] loop. *)
Fixpoint class_loop (fuel : nat) (shift need : Z) : option Z :=
  if decide (shl (usize_bits t) 1 shift < need) then
    match fuel with
    | O => None
    | S fuel => class_loop fuel (shift + 1) need
    end
  else Some shift.

Definition class_for (size align : Z) : option (option Z) :=
  let need := Z.max (Z.max size align) (Z.shiftl 1 MIN_SHIFT) in
  if decide (MAX_SMALL < need) then Some None
  else shift ← class_loop NUM_CLASSES MIN_SHIFT need; Some (Some (shift - MIN_SHIFT)).

Definition class_size (idx : Z) : Z := shl (usize_bits t) 1 (idx + MIN_SHIFT).
End sizes.

(** The allocator's fields, the memory it writes through raw pointers and the
    platform state. *)
Record Heap (σ : Type) := mkHeap {
  lock_ : bool;
  free : list Z;
  mem : gmap Z Z;
  os : σ;
}.
Arguments mkHeap {σ}.
Arguments lock_ {σ}.
Arguments free {σ}.
Arguments mem {σ}.
Arguments os {σ}.

Section operations.
Context (t : Target) {σ : Type} `{ArenaSource t σ}.
Implicit Types (h : Heap σ) (m : gmap Z Z).

Definition new (m : gmap Z Z) (s : σ) : Heap σ :=
  mkHeap false (replicate NUM_CLASSES 0) m s.

(** [lock] spins while the flag is set: with nobody to clear it, it never returns. *)
Definition lock h : option (Heap σ) :=
  if lock_ h then None else Some (mkHeap true (free h) (mem h) (os h)).

Definition unlock h : Heap σ := mkHeap false (free h) (mem h) (os h).

(** The carving loop of [refill], from the last block of the arena to the first. *)
Fixpoint carve m (base block : Z) (i : nat) (next : Z) : gmap Z Z * Z :=
  match i with
  | O => (m, next)
  | S i => let blk := base + Z.of_nat i * block in carve (<[blk := next]> m) base block i blk
  end.

Definition refill h (idx : Z) : option (bool * Heap σ) :=
  let block := class_size t idx in
  let '(base, s) := map (t:=t) (os h) ARENA in
  if decide (base = 0) then Some (false, mkHeap (lock_ h) (free h) (mem h) s)
  else
    let count := ARENA / block in
    head ← index (free h) idx;
    let '(m, next) := carve (mem h) base block (Z.to_nat count) head in
    Some (true, mkHeap (lock_ h) (<[Z.to_nat idx := next]> (free h)) m s).

(** [ptr::read] of a word the allocator never wrote is [None]. *)
Definition alloc_small h (idx : Z) : option (Z * Heap σ) :=
  h ← lock h;
  head ← index (free h) idx;
  '(ok, h) ← (if decide (head = 0) then refill h idx else Some (true, h));
  if negb ok then Some (0, unlock h)
  else
    blk ← index (free h) idx;
    next ← mem h !! blk;
    Some (blk, unlock (mkHeap (lock_ h) (<[Z.to_nat idx := next]> (free h)) (mem h) (os h))).

Definition free_small h (idx ptr : Z) : option (Heap σ) :=
  h ← lock h;
  head ← index (free h) idx;
  Some (unlock (mkHeap (lock_ h) (<[Z.to_nat idx := ptr]> (free h))
                  (<[ptr := head]> (mem h)) (os h))).

Definition alloc h (l : Layout) : option (Z * Heap σ) :=
  c ← class_for t (size_ l) (align_ l);
  match c with
  | Some idx => alloc_small h idx
  | None =>
      if decide (GRAN < align_ l) then Some (0, h)
      else
        let '(p, s)   := map (t:=t) (os h) (round_up t (size_ l) GRAN) in
        Some (p, mkHeap (lock_ h) (free h) (mem h) s)
  end.

Definition dealloc h (ptr : Z) (l : Layout) : option (Heap σ) :=
  if decide (ptr = 0) then Some h
  else
    c ← class_for t (size_ l) (align_ l);
    match c with
    | Some idx => free_small h idx ptr
    | None =>
        Some (mkHeap (lock_ h) (free h) (mem h)
                (unmap (t:=t) (os h) ptr (round_up t (size_ l) GRAN)))
    end.
End operations.

(** ** The two implementations of [map] *)

(** The kernel's [mmap]/[munmap], as the manual pages describe them. *)
Class VirtualMemory (κ : Type) := {
  mmap_anon : κ → Z → result Z Z * κ;
  munmap : κ → Z → Z → result unit Z * κ;
  mapped : κ → Z → Prop;
  mmap_anon_spec : ∀ k len r k', 0 < len → mmap_anon k len = (r, k') →
    (∀ a, mapped k a → mapped k' a) ∧
    (∀ p, r = Ok p →
       0 < p ∧ p `mod` 4096 = 0 ∧ ∀ a, p ≤ a < p + len → ¬ mapped k a ∧ mapped k' a);
  munmap_spec : ∀ k p len a,
    mapped k a → ¬ (p ≤ a < p + len) → mapped (munmap k p len).2 a;
}.

Definition map_native {κ} `{VirtualMemory κ} (k : κ) (len : Z) : Z * κ :=
  match mmap_anon k len with
  | (Ok p, k) => (p, k)
  | (Err _, k) => (0, k)
  end.

(** [core::arch::wasm32::memory_grow]: the old size in pages, or [usize::MAX]. *)
Class LinearMemory (κ : Type) := {
  memory_grow : κ → Z → Z * κ;
  memory_size : κ → Z;
  memory_grow_spec : ∀ k n r k', 0 ≤ n → memory_grow k n = (r, k') →
    0 < memory_size k ∧
    (r = 2 ^ 32 - 1 ∧ memory_size k' = memory_size k ∨
     r = memory_size k ∧ memory_size k' = memory_size k + n ∧ memory_size k' ≤ 65536);
}.

Definition map_wasm {κ} `{LinearMemory κ} (k : κ) (len : Z) : Z * κ :=
  let PAGE := 65536 in
  let pages := wrap 32 (len + PAGE - 1) / PAGE in
  match memory_grow k pages with
  | (prev, k) => if decide (prev = 2 ^ 32 - 1) then (0, k) else (wrap 32 (prev * PAGE), k)
  end.

#[export] Program Instance native_source (t : Target) κ `{VirtualMemory κ} : ArenaSource t κ := {
  map := map_native;
  unmap := λ k p len, (munmap k p len).2;
  owned := mapped;
}.
Next Obligation.
  unfold map_native. intros t κ ? k len p k' Hlen Hm.
  destruct (mmap_anon k len) as [r k1] eqn:E.
  destruct (mmap_anon_spec k len r k1 ltac:(lia) E) as [Hmono Hfresh].
  destruct r as [q|e]; simplify_eq; split; auto.
Qed.
Next Obligation. intros. by apply munmap_spec. Qed.

(** The linear memory only grows, and [munmap] does nothing there. *)
#[export] Program Instance wasm_source κ `{LinearMemory κ} : ArenaSource Wasm32Wasi κ := {
  map := map_wasm;
  unmap := λ k _ _, k;
  owned := λ k a, 0 ≤ a < memory_size k * 65536;
}.
Next Obligation.
  unfold map_wasm, GRAN, MIN_MAP_ALIGN. intros κ ? k len p k' Hlen. cbn in Hlen.
  rewrite wrap_small by lia.
  destruct (memory_grow k _) as [prev k1] eqn:E.
  pose proof (Z.div_mod (len + 65536 - 1) 65536 ltac:(done)) as Hdm.
  pose proof (Z.mod_pos_bound (len + 65536 - 1) 65536 ltac:(done)).
  assert (0 ≤ (len + 65536 - 1) / 65536) as Hn by lia.
  destruct (memory_grow_spec k _ _ _ Hn E) as (Hpos & [[-> Hs]|(-> & Hs & Hb)]).
  - rewrite decide_True by done. intros ?; simplify_eq. split; [lia|by left].
  - rewrite decide_False by lia. rewrite wrap_small by lia. intros ?; simplify_eq.
    split; [lia|right]. split_and!; [lia| |lia].
    replace (memory_size k * 65536) with (memory_size k * 16 * 4096) by lia.
    by rewrite Z.mod_mul.
Qed.
Next Obligation. done. Qed.

(** ** Size classes and rounding *)
Section size_lemmas.
Context (t : Target).

Lemma usize_bits_bounds : 32 ≤ usize_bits t ≤ 64.
Proof. by destruct t. Qed.

Lemma round_up_gran v :
  0 ≤ v → v + GRAN ≤ 2 ^ usize_bits t →
  v ≤ round_up t v GRAN < v + GRAN ∧ round_up t v GRAN `mod` GRAN = 0.
Proof.
  pose proof usize_bits_bounds. intros Hv Hmax. unfold round_up.
  assert (GRAN = 2 ^ 14) as HG by done.
  rewrite wrap_small by lia. set (x := v + GRAN - 1) in *.
  assert (Z.land x (wrap (usize_bits t) (Z.lnot (GRAN - 1))) = Z.ldiff x (Z.ones 14)) as ->.
  { apply Z.bits_inj'. intros i Hi. rewrite Z.land_spec, Z.ldiff_spec. unfold wrap.
    destruct (decide (i < usize_bits t)).
    - rewrite Z.mod_pow2_bits_low, Z.lnot_spec by lia. by rewrite HG.
    - rewrite <-(Z.mod_small x (2 ^ usize_bits t)) by lia.
      by rewrite !(Z.mod_pow2_bits_high x) by lia. }
  rewrite Z.ldiff_ones_r, Z.shiftr_div_pow2, Z.shiftl_mul_pow2, <-HG by lia.
  split; [|by rewrite Z.mod_mul].
  pose proof (Z.div_mod x GRAN). pose proof (Z.mod_pos_bound x GRAN). lia.
Qed.

Lemma class_size_pow2 idx : 0 ≤ idx < 9 → class_size t idx = 2 ^ (idx + 4).
Proof.
  pose proof usize_bits_bounds. intros Hi. unfold class_size, shl, MIN_SHIFT.
  rewrite Z.shiftl_1_l. apply wrap_small. split; [lia|].
  apply Z.pow_lt_mono_r; lia.
Qed.

Lemma class_loop_spec fuel shift need :
  4 ≤ shift → shift + Z.of_nat fuel = 13 → need ≤ 4096 →
  (shift = 4 ∨ 2 ^ (shift - 1) < need) →
  ∃ s, class_loop t fuel shift need = Some s ∧ shift ≤ s ≤ 12 ∧ need ≤ 2 ^ s
       ∧ (s = 4 ∨ 2 ^ (s - 1) < need).
Proof.
  pose proof usize_bits_bounds.
  revert shift. induction fuel as [|fuel IH]; intros shift Hs Hf Hn Hlo; cbn [class_loop].
  - assert (shift = 13) as -> by lia.
    destruct Hlo as [?|Hlo]; [lia|]. change (2 ^ (13 - 1)) with 4096 in Hlo. lia.
  - unfold shl. rewrite Z.shiftl_1_l, wrap_small
      by (split; [lia|apply Z.pow_lt_mono_r; lia]).
    destruct (decide (2 ^ shift < need)) as [Hlt|Hge].
    + destruct (IH (shift + 1)) as (s & Hs' & ? & ? & ?); try lia.
      * right. by replace (shift + 1 - 1) with shift by lia.
      * exists s. split_and!; [done|lia..].
    + exists shift. split_and!; [done|lia..].
Qed.

(** The class of a request is the smallest one that holds its size and its alignment. *)
Lemma class_for_spec size align :
  0 ≤ size → 1 ≤ align →
  (class_for t size align = Some None ∧ MAX_SMALL < Z.max size align) ∨
  ∃ idx, class_for t size align = Some (Some idx) ∧ 0 ≤ idx < 9
    ∧ size ≤ class_size t idx ∧ align ≤ class_size t idx
    ∧ (idx = 0 ∨ class_size t (idx - 1) < Z.max size align).
Proof.
  intros Hsz Hal. unfold class_for, MIN_SHIFT, MAX_SMALL, MIN_MAP_ALIGN.
  change (Z.shiftl 1 4) with 16.
  set (need := Z.max (Z.max size align) 16).
  destruct (decide (4096 < need)); [left; split; [done|lia]|right].
  destruct (class_loop_spec NUM_CLASSES 4 need) as (s & -> & ? & Hn & Hlo); [done|done|lia|lia|].
  exists (s - 4). cbn [mbind option_bind].
  rewrite (class_size_pow2 (s - 4)) by lia. replace (s - 4 + 4) with s by lia.
  split_and!; try done; try lia.
  destruct (decide (s = 4)); [left; lia|right].
  rewrite class_size_pow2 by lia. replace (s - 4 - 1 + 4) with (s - 1) by lia.
  assert (2 ^ 4 ≤ 2 ^ (s - 1)) by (apply Z.pow_le_mono_r; lia). lia.
Qed.
End size_lemmas.

(** ** Invariant *)
Section invariant.
Context (t : Target) {σ : Type} `{ArenaSource t σ}.
Implicit Types (m : gmap Z Z) (live : gmap Z Layout) (s : σ).

(** The bytes a block of layout [l] really occupies. *)
Definition block_size (l : Layout) : Z :=
  match class_for t (size_ l) (align_ l) with
  | Some (Some idx) => class_size t idx
  | _ => round_up t (size_ l) GRAN
  end.

(** The contract of [GlobalAlloc]: a non-zero size of at most [isize::MAX] and a
    power-of-two alignment. *)
Definition valid_layout (l : Layout) : Prop :=
  1 ≤ size_ l < 2 ^ (usize_bits t - 1) ∧ ∃ k, 0 ≤ k ∧ align_ l = 2 ^ k.

(** A null-terminated list of blocks linked through their first word. *)
Fixpoint chain m (head : Z) (l : list Z) : Prop :=
  match l with
  | [] => head = 0
  | x :: l => head = x ∧ x ≠ 0 ∧ ∃ nx, m !! x = Some nx ∧ chain m nx l
  end.

(** [blocks] gives every block's size, [fl] the free list of every class. *)
Record heap_inv (fr : list Z) m s live (blocks : gmap Z Z) (fl : list (list Z)) : Prop := {
  hi_len : length fr = NUM_CLASSES ∧ length fl = NUM_CLASSES;
  hi_chain : ∀ i head l, fr !! i = Some head → fl !! i = Some l → chain m head l;
  hi_free : ∀ i l x, fl !! i = Some l → x ∈ l →
    blocks !! x = Some (class_size t (Z.of_nat i)) ∧ live !! x = None;
  hi_nodup : ∀ i l, fl !! i = Some l → NoDup l;
  hi_live : ∀ p l, live !! p = Some l → blocks !! p = Some (block_size l) ∧ valid_layout l;
  hi_disj : ∀ p q n n', blocks !! p = Some n → blocks !! q = Some n' → p ≠ q →
    p + n ≤ q ∨ q + n' ≤ p;
  hi_block : ∀ p n, blocks !! p = Some n →
    0 < p ∧ 16 ≤ n ∧ p `mod` Z.min n MIN_MAP_ALIGN = 0
    ∧ ∀ a, p ≤ a < p + n → owned (t:=t) s a;
}.

Definition inv (h : Heap σ) live : Prop :=
  lock_ h = false ∧ ∃ blocks fl, heap_inv (free h) (mem h) (os h) live blocks fl.

(** *** Free lists *)
Lemma chain_frame m m' head l :
  (∀ x, x ∈ l → m' !! x = m !! x) → chain m head l → chain m' head l.
Proof.
  revert head. induction l as [|x l IH]; intros head Heq; [done|].
  intros (-> & ? & nx & Hx & Hc). split_and!; [done|done|]. exists nx.
  split; [rewrite Heq; [done|left]|]. apply IH; [|done]. intros y ?. apply Heq. by right.
Qed.

Lemma carve_spec m base block n next l :
  0 < base → 0 < block → chain m next l →
  (∀ k, (k < n)%nat → base + Z.of_nat k * block ∉ l) →
  ∃ m' head, carve m base block n next = (m', head)
    ∧ chain m' head (((λ k, base + Z.of_nat k * block) <$> seq 0 n) ++ l)
    ∧ (∀ a, (∀ k, (k < n)%nat → a ≠ base + Z.of_nat k * block) → m' !! a = m !! a).
Proof.
  intros Hb Hs. revert m next l. induction n as [|n IH]; intros m next l Hc Hnin.
  { exists m, next. done. }
  cbn [carve]. set (blk := base + Z.of_nat n * block).
  destruct (IH (<[blk := next]> m) blk (blk :: l)) as (m' & head & -> & Hc' & Hfr).
  { cbn [chain]. split_and!; [done|lia|]. exists next. rewrite lookup_insert_eq. split; [done|].
    eapply chain_frame; [|done]. intros x Hx. apply lookup_insert_ne. intros Heq.
    apply (Hnin n); [lia|]. by rewrite <-Heq in Hx. }
  { intros k Hk [Heq|Hin]%elem_of_cons; [subst blk; nia|]. apply (Hnin k); [lia|done]. }
  exists m', head. split_and!; [done| |].
  - rewrite seq_S, fmap_app, <-app_assoc. done.
  - intros a Ha. rewrite Hfr by (intros k ?; apply Ha; lia).
    apply lookup_insert_ne. intros Heq. by apply (Ha n); [lia|].
Qed.

Lemma class_size_inj i j :
  0 ≤ i < 9 → 0 ≤ j < 9 → class_size t i = class_size t j → i = j.
Proof. intros. rewrite !class_size_pow2 in * by lia. apply Z.pow_inj_r in H2; lia. Qed.

Lemma class_size_bounds i : 0 ≤ i < 9 → 16 ≤ class_size t i ≤ 4096.
Proof.
  intros. rewrite class_size_pow2 by lia. change 16 with (2 ^ 4). change 4096 with (2 ^ 12).
  split; apply Z.pow_le_mono_r; lia.
Qed.

Lemma block_size_class l idx :
  class_for t (size_ l) (align_ l) = Some (Some idx) → block_size l = class_size t idx.
Proof. unfold block_size. by intros ->. Qed.

Lemma valid_class l :
  valid_layout l →
  (class_for t (size_ l) (align_ l) = Some None ∧ MAX_SMALL < Z.max (size_ l) (align_ l)
     ∧ block_size l = round_up t (size_ l) GRAN) ∨
  ∃ idx, class_for t (size_ l) (align_ l) = Some (Some idx) ∧ 0 ≤ idx < 9
    ∧ size_ l ≤ block_size l ∧ align_ l ≤ block_size l ∧ block_size l = class_size t idx.
Proof.
  intros [[? ?] (k & ? & Hk)]. pose proof (pow2_pos k ltac:(done)).
  destruct (class_for_spec t (size_ l) (align_ l)) as [[Hc ?]|(idx & Hc & ? & ? & ? & _)];
    [lia|lia| |].
  - left. unfold block_size. by rewrite Hc.
  - right. exists idx. rewrite (block_size_class l idx) by done. done.
Qed.

(** A request without a class gets a mapping of whole granules. *)
Lemma block_size_large l :
  valid_layout l → class_for t (size_ l) (align_ l) = Some None →
  size_ l ≤ block_size l ∧ block_size l < 2 ^ (usize_bits t - 1) + GRAN ∧ GRAN ≤ block_size l.
Proof.
  intros Hv Hc. pose proof (usize_bits_bounds t).
  assert (2 ^ 31 ≤ 2 ^ (usize_bits t - 1)) by (apply Z.pow_le_mono_r; lia).
  assert (2 ^ usize_bits t = 2 * 2 ^ (usize_bits t - 1)) as Hdbl.
  { rewrite <-Z.pow_succ_r by lia. f_equal. lia. }
  destruct (valid_class l Hv) as [(_ & _ & Hsz)|(? & ? & _)]; [|congruence].
  destruct Hv as [[? ?] _].
  destruct (round_up_gran t (size_ l)) as [? Hmod]; [lia|unfold GRAN in *; lia|].
  rewrite <-Hsz in *. split_and!; [lia|lia|].
  apply Z.mod_divide in Hmod as [q Hq]; [|done]. unfold GRAN in *. nia.
Qed.

(** *** Preservation by the pieces of the operations *)
Lemma heap_inv_os fr m s s' live bl fl :
  (∀ p n a, bl !! p = Some n → p ≤ a < p + n → owned (t:=t) s a → owned (t:=t) s' a) →
  heap_inv fr m s live bl fl → heap_inv fr m s' live bl fl.
Proof.
  intros Hmono [? ? ? ? ? ? Hb]; constructor; try done.
  intros p n Hp. destruct (Hb p n Hp) as (? & ? & ? & Ho). split_and!; eauto.
Qed.

(** Popping the head of a class's free list hands out a block that is not live. *)
Lemma heap_inv_pop fr m s live bl fl i x l :
  heap_inv fr m s live bl fl → fr !! i = Some x → x ≠ 0 →
  valid_layout l → block_size l = class_size t (Z.of_nat i) →
  ∃ nx, m !! x = Some nx ∧ live !! x = None
    ∧ bl !! x = Some (block_size l)
    ∧ ∃ fl', heap_inv (<[i := nx]> fr) m s (<[x := l]> live) bl fl'.
Proof.
  intros [[Hfr Hfl] Hc Hf Hn Hl Hd Hb] Hi Hx Hv Hsz.
  assert (is_Some (fl !! i)) as [li Hli].
  { apply lookup_lt_is_Some. apply lookup_lt_Some in Hi. lia. }
  destruct li as [|y li]; [by specialize (Hc _ _ _ Hi Hli)|].
  destruct (Hc _ _ _ Hi Hli) as (<- & _ & nx & Hnx & Hc').
  destruct (Hf _ _ x Hli) as [Hbx Hlx]; [left|].
  pose proof (Hn _ _ Hli) as Hnd. apply NoDup_cons in Hnd as [Hxl Hnd].
  exists nx. rewrite Hbx, Hsz. split_and!; [done..|]. exists (<[i := li]> fl).
  constructor.
  - by rewrite !length_insert.
  - intros j head lj. rewrite !list_lookup_insert_Some.
    intros [(-> & -> & _)|[? Hj]] [(? & -> & _)|[? Hlj]]; try congruence; eauto.
  - intros j lj y Hlj Hy.
    assert (∃ lj', fl !! j = Some lj' ∧ y ∈ lj' ∧ y ≠ x) as (lj' & Hlj' & Hy' & Hne).
    { apply list_lookup_insert_Some in Hlj as [(-> & -> & _)|[Hne Hlj]].
      - exists (x :: lj). split_and!; [done|by right|]. intros ->. done.
      - exists lj. split_and!; [done..|]. intros ->. destruct (Hf _ _ x Hlj Hy) as [Hs _].
        rewrite Hbx in Hs. injection Hs as Hs. apply class_size_inj in Hs; [lia| |].
        + apply lookup_lt_Some in Hli. unfold NUM_CLASSES in *. lia.
        + apply lookup_lt_Some in Hlj. unfold NUM_CLASSES in *. lia. }
    rewrite lookup_insert_ne by done. eauto.
  - intros j lj [(-> & -> & _)|[_ Hlj]]%list_lookup_insert_Some; eauto.
  - intros p l' [[<- <-]|[? Hp]]%lookup_insert_Some; [|eauto]. by rewrite Hbx, Hsz.
  - done.
  - done.
Qed.

(** Pushing a live block back on the list of its class. *)
Lemma heap_inv_push fr m s live bl fl i x head l :
  heap_inv fr m s live bl fl → fr !! i = Some head → live !! x = Some l →
  block_size l = class_size t (Z.of_nat i) →
  ∃ fl', heap_inv (<[i := x]> fr) (<[x := head]> m) s (delete x live) bl fl'.
Proof.
  intros [[Hfr Hfl] Hc Hf Hn Hl Hd Hb] Hi Hx Hsz.
  assert (is_Some (fl !! i)) as [li Hli].
  { apply lookup_lt_is_Some. apply lookup_lt_Some in Hi. lia. }
  destruct (Hl _ _ Hx) as [Hbx _]. destruct (Hb _ _ Hbx) as (Hpos & _).
  assert (∀ j lj, fl !! j = Some lj → x ∉ lj) as Hnin.
  { intros j lj Hlj Hin. destruct (Hf _ _ _ Hlj Hin) as [_ ?]. congruence. }
  assert (∀ j h lj, fr !! j = Some h → fl !! j = Some lj → chain (<[x := head]> m) h lj) as Hc'.
  { intros j h lj Hj Hlj. eapply chain_frame; [|eauto]. intros y Hy.
    apply lookup_insert_ne. intros <-. by apply (Hnin j lj). }
  exists (<[i := x :: li]> fl). constructor.
  - by rewrite !length_insert.
  - intros j h lj. rewrite !list_lookup_insert_Some.
    intros [(<- & <- & _)|[? Hj]] [(? & <- & _)|[? Hlj]]; try congruence; [|eauto].
    cbn [chain]. split_and!; [done|lia|]. exists head. rewrite lookup_insert_eq. eauto.
  - intros j lj y [(<- & <- & _)|[Hne Hlj]]%list_lookup_insert_Some Hy.
    + apply elem_of_cons in Hy as [->|Hy].
      * by rewrite lookup_delete_eq, Hbx, Hsz.
      * destruct (Hf _ _ _ Hli Hy) as [? ?]. split; [done|].
        apply lookup_delete_None. by right.
    + destruct (Hf _ _ _ Hlj Hy) as [? ?]. split; [done|]. apply lookup_delete_None. by right.
  - intros j lj [(<- & <- & _)|[_ Hlj]]%list_lookup_insert_Some; [|eauto].
    apply NoDup_cons. eauto.
  - intros p l' [? ?]%lookup_delete_Some. eauto.
  - done.
  - done.
Qed.

(** Blocks of a fresh arena. *)
Definition arena_blocks (base block : Z) (n : nat) : gmap Z Z :=
  list_to_map ((λ k, (base + Z.of_nat k * block, block)) <$> seq 0 n).

Lemma arena_blocks_lookup base block n p x :
  0 < block →
  arena_blocks base block n !! p = Some x ↔
  x = block ∧ ∃ k, (k < n)%nat ∧ p = base + Z.of_nat k * block.
Proof.
  intros Hb. unfold arena_blocks.
  rewrite <-elem_of_list_to_map.
  - rewrite list_elem_of_fmap. setoid_rewrite elem_of_seq. split.
    + intros (k & [= -> ->] & ?). split; [done|]. exists k. split; [lia|done].
    + intros (-> & k & ? & ->). exists k. split; [done|lia].
  - rewrite <-list_fmap_compose. apply NoDup_fmap_2_strong; [|apply NoDup_seq].
    cbn. intros i j _ _ ?. nia.
Qed.

Lemma arena_count i : 0 ≤ i < 9 → ARENA / class_size t i * class_size t i = ARENA.
Proof.
  intros. rewrite class_size_pow2 by lia. change ARENA with (2 ^ 20).
  rewrite <-Z.pow_sub_r, <-Z.pow_add_r by lia. f_equal. lia.
Qed.

(** A page-aligned address is aligned for every class. *)
Lemma arena_aligned base i :
  0 ≤ i < 9 → base `mod` MIN_MAP_ALIGN = 0 → base `mod` class_size t i = 0.
Proof.
  intros Hi Hal. rewrite class_size_pow2 by lia. unfold MIN_MAP_ALIGN in Hal.
  apply Z.mod_divide; [lia|]. apply Z.mod_divide in Hal; [|lia].
  etransitivity; [|exact Hal]. exists (2 ^ (8 - i)). rewrite <-Z.pow_add_r by lia.
  change 4096 with (2 ^ 12). f_equal. lia.
Qed.

(** A new family of blocks in memory that was not owned joins the old ones. *)
Lemma disjoint_union fr m s live bl fl base len (new : gmap Z Z) :
  heap_inv fr m s live bl fl →
  (∀ a, base ≤ a < base + len → ¬ owned (t:=t) s a) →
  (∀ p n, new !! p = Some n → 0 < n ∧ base ≤ p ∧ p + n ≤ base + len) →
  (∀ p n, new !! p = Some n → bl !! p = None) ∧
  (∀ p q n n', new !! p = Some n → bl !! q = Some n' → p + n ≤ q ∨ q + n' ≤ p).
Proof.
  intros [_ _ _ _ _ _ Hb] Hfresh Hnew. split.
  - intros p n Hp. destruct (Hnew p n Hp) as (? & ? & ?).
    destruct (bl !! p) as [x|] eqn:E; [|done].
    destruct (Hb _ _ E) as (_ & ? & _ & Ho). destruct (Hfresh p); [lia|]. apply Ho. lia.
  - intros p q n n' Hp Hq. destruct (Hnew p n Hp) as (? & ? & ?).
    destruct (Hb _ _ Hq) as (_ & ? & _ & Ho).
    destruct (decide (p + n ≤ q)); [by left|]. destruct (decide (q + n' ≤ p)); [by right|].
    destruct (Hfresh (Z.max p q)); [lia|]. apply Ho. lia.
Qed.

Lemma arena_len : 0 < ARENA < 2 ^ (usize_bits t - 1) + GRAN.
Proof.
  pose proof (usize_bits_bounds t).
  assert (2 ^ 31 ≤ 2 ^ (usize_bits t - 1)) by (apply Z.pow_le_mono_r; lia).
  change ARENA with 1048576. unfold GRAN. lia.
Qed.

Lemma arena_mono s p s' a :
  map (t:=t) s ARENA = (p, s') → owned (t:=t) s a → owned (t:=t) s' a.
Proof. intros Hm. by apply (map_spec s ARENA p s' arena_len Hm). Qed.

(** New blocks of one class, in memory that was not owned, join its free list. *)
Lemma heap_inv_add_free fr m m' s s' live bl fl i next li xs (new : gmap Z Z) :
  heap_inv fr m s live bl fl → fl !! i = Some li →
  (∀ p n, new !! p = Some n → bl !! p = None) →
  (∀ p q n n', new !! p = Some n → bl !! q = Some n' → p + n ≤ q ∨ q + n' ≤ p) →
  (∀ p q n n', new !! p = Some n → new !! q = Some n' → p ≠ q → p + n ≤ q ∨ q + n' ≤ p) →
  (∀ p n, new !! p = Some n → 0 < p ∧ 16 ≤ n ∧ p `mod` Z.min n MIN_MAP_ALIGN = 0
     ∧ ∀ a, p ≤ a < p + n → owned (t:=t) s' a) →
  (∀ a, owned (t:=t) s a → owned (t:=t) s' a) →
  NoDup xs → (∀ x, x ∈ xs → new !! x = Some (class_size t (Z.of_nat i))) →
  chain m' next (xs ++ li) → (∀ a, a ∉ xs → m' !! a = m !! a) →
  heap_inv (<[i := next]> fr) m' s' live (new ∪ bl) (<[i := xs ++ li]> fl).
Proof.
  intros [Hlen Hc Hf Hn Hl Hd Hb] Hli Hnone Hdis Hnew Hok Hmono Hxs Hin Hch Hframe.
  assert (∀ x y, bl !! x = Some y → (new ∪ bl) !! x = Some y) as Hold.
  { intros x y Hx. rewrite lookup_union_r; [done|].
    destruct (new !! x) as [z|] eqn:E; [|done]. apply Hnone in E. congruence. }
  assert (∀ j lj x, fl !! j = Some lj → x ∈ lj → x ∉ xs) as Hout.
  { intros j lj x Hj Hx ?%Hin%Hnone. destruct (Hf _ _ _ Hj Hx). congruence. }
  constructor.
  - by rewrite !length_insert.
  - intros j h lj. rewrite !list_lookup_insert_Some.
    intros [(<- & <- & _)|[? Hj]] [(? & <- & _)|[? Hlj]]; try congruence.
    eapply chain_frame; [|eauto]. eauto.
  - intros j lj y [(<- & <- & _)|[Hne Hlj]]%list_lookup_insert_Some Hy;
      [apply elem_of_app in Hy as [Hy|Hy]|]; [|by destruct (Hf _ _ _ Hli Hy); eauto|by destruct (Hf _ _ _ Hlj Hy); eauto].
    split; [by apply lookup_union_Some_l, Hin|]. destruct (live !! _) as [l|] eqn:E; [|done].
    apply Hl in E as [E _]. apply Hin, Hnone in Hy. congruence.
  - intros j lj [(<- & <- & _)|[_ Hlj]]%list_lookup_insert_Some; [|eauto].
    apply NoDup_app. split_and!; [done| |eauto]. intros x Hx Hx'. by eapply Hout.
  - intros p l Hp. destruct (Hl _ _ Hp). eauto.
  - intros p q x y. rewrite !lookup_union_Some_raw.
    intros [Hp|[_ Hp]] [Hq|[_ Hq]] Hne; [| |apply or_comm|]; eauto.
  - intros p x [Hp|[_ Hp]]%lookup_union_Some_raw; [eauto|].
    destruct (Hb _ _ Hp) as (? & ? & ? & Ho). split_and!; eauto.
Qed.

(** The blocks carved out of an arena are apart, aligned and inside it. *)
Lemma arena_blocks_ok base i :
  0 < base → base `mod` MIN_MAP_ALIGN = 0 → 0 ≤ i < 9 →
  let block := class_size t i in
  let n := Z.to_nat (ARENA / block) in
  (∀ p x, arena_blocks base block n !! p = Some x →
     0 < x ∧ base ≤ p ∧ p + x ≤ base + ARENA ∧ 16 ≤ x ∧ p `mod` Z.min x MIN_MAP_ALIGN = 0)
  ∧ (∀ p q x y, arena_blocks base block n !! p = Some x → arena_blocks base block n !! q = Some y →
       p ≠ q → p + x ≤ q ∨ q + y ≤ p).
Proof.
  intros Hpos Hal Hi block n. pose proof (class_size_bounds i Hi) as Hsz.
  pose proof (arena_count i Hi) as Hcnt. fold block in Hsz, Hcnt.
  assert (Z.of_nat n * block = ARENA) as Hn'
    by (unfold n; rewrite Z2Nat.id; [done|apply Z.div_pos; [done|lia]]).
  split.
  - intros p x (-> & k & ? & ->)%arena_blocks_lookup; [|lia].
    split_and!; [lia|nia|nia|lia|]. rewrite Z.min_l by (unfold MIN_MAP_ALIGN; lia).
    rewrite Z.mod_add by lia. by apply arena_aligned.
  - intros p q x y (-> & k & ? & ->)%arena_blocks_lookup (-> & k' & ? & ->)%arena_blocks_lookup Hne; [|lia..].
    assert (k ≠ k') by (intros ->; done). nia.
Qed.

Lemma heap_inv_refill fr m s s' live bl fl i base head :
  heap_inv fr m s live bl fl → fr !! i = Some head →
  map (t:=t) s ARENA = (base, s') → base ≠ 0 →
  let block := class_size t (Z.of_nat i) in
  ∃ m' next, carve m base block (Z.to_nat (ARENA / block)) head = (m', next)
    ∧ next ≠ 0 ∧ ∃ bl' fl', heap_inv (<[i := next]> fr) m' s' live bl' fl'.
Proof.
  intros Hinv Hi Hmap Hbase block.
  destruct (map_spec s ARENA base s') as [Hmono [?|(Hpos & Hal & Hfresh)]]; [|done..|].
  { apply arena_len. }
  pose proof Hinv as [[Hfr Hfl] Hc Hf _ _ _ _].
  assert (i < 9)%nat as Hi9 by (apply lookup_lt_Some in Hi; unfold NUM_CLASSES in *; lia).
  assert (is_Some (fl !! i)) as [li Hli] by (apply lookup_lt_is_Some; unfold NUM_CLASSES in *; lia).
  pose proof (class_size_bounds (Z.of_nat i) ltac:(lia)) as Hsz.
  pose proof (arena_count (Z.of_nat i) ltac:(lia)) as Hcnt. fold block in Hsz, Hcnt.
  destruct (arena_blocks_ok base (Z.of_nat i) Hpos Hal ltac:(lia)) as [Hin Hapart].
  fold block in Hin, Hapart. set (n := Z.to_nat (ARENA / block)) in *.
  destruct (disjoint_union fr m s live bl fl base ARENA (arena_blocks base block n) Hinv) as [Hnone Hdis];
    [intros a ?; by apply Hfresh|intros p x Hp; by destruct (Hin p x Hp) as (? & ? & ? & _)|].
  assert (∀ k, (k < n)%nat → arena_blocks base block n !! (base + Z.of_nat k * block) = Some block)
    as Hlook by (intros k ?; apply arena_blocks_lookup; [lia|eauto]).
  destruct (carve_spec m base block n head li) as (m' & next & -> & Hch & Hframe);
    [lia|lia|by eapply Hc| |].
  { intros k Hk Hin'. specialize (Hlook k Hk). apply Hnone in Hlook.
    destruct (Hf _ _ _ Hli Hin'). congruence. }
  assert (∃ n', n = S n') as [n' En].
  { exists (pred n). assert (0 < ARENA / block) by (apply Z.div_str_pos; change ARENA with 1048576; nia). lia. }
  exists m', next. split_and!; [done| |].
  { rewrite En in Hch; cbn in Hch; by destruct Hch as (-> & ? & _). }
  eexists _, _. eapply heap_inv_add_free; try done.
  - intros p x Hp. destruct (Hin p x Hp) as (? & ? & ? & ? & ?). split_and!; [lia|done|done|].
    intros a ?. apply Hfresh. lia.
  - apply NoDup_fmap_2_strong; [|apply NoDup_seq]. intros ?? _ _ ?. nia.
  - intros x (k & -> & Hk%elem_of_seq)%list_elem_of_fmap. apply Hlook. lia.
  - intros a Ha. apply Hframe. intros k Hk ->. apply Ha, list_elem_of_fmap. exists k.
    split; [done|]. apply elem_of_seq. lia.
Qed.


(** A large mapping becomes a live block. *)
Lemma heap_inv_map fr m s s' live bl fl p l :
  heap_inv fr m s live bl fl → valid_layout l →
  class_for t (size_ l) (align_ l) = Some None →
  map (t:=t) s (block_size l) = (p, s') → p ≠ 0 →
  live !! p = None ∧ bl !! p = None
  ∧ heap_inv fr m s' (<[p := l]> live) (<[p := block_size l]> bl) fl.
Proof.
  intros Hinv Hv Hc Hm Hp.
  destruct (block_size_large l Hv Hc) as (Hge & Hlt & H4).
  assert (0 < block_size l) by (unfold GRAN in H4; lia).
  destruct (map_spec s (block_size l) p s') as [Hmono [?|(Hpos & Hal & Hfresh)]];
    [lia|done..|].
  pose proof Hinv as [? Hch Hf Hn Hl Hd Hb].
  destruct (disjoint_union fr m s live bl fl p (block_size l) {[p := block_size l]} Hinv)
    as [Hnone Hdis]; [intros a ?; by apply Hfresh|by intros q n [<- <-]%lookup_singleton_Some; lia|].
  assert (bl !! p = None) as Hblp by (eapply Hnone, lookup_singleton_eq).
  assert (∀ q n', bl !! q = Some n' → p + block_size l ≤ q ∨ q + n' ≤ p) as Hdis'.
  { intros q n' Hq. eapply Hdis; [apply lookup_singleton_eq|done]. }
  assert (live !! p = None) as Hlp.
  { destruct (live !! p) as [l'|] eqn:E; [|done]. apply Hl in E as [E _]. congruence. }
  split_and!; [done..|]. constructor; try done.
  - intros i li x Hi Hx. destruct (Hf _ _ _ Hi Hx) as [Hbx Hlx].
    rewrite !lookup_insert_ne by congruence. done.
  - intros q l' [[<- <-]|[? Hq]]%lookup_insert_Some; [by rewrite lookup_insert_eq|].
    rewrite lookup_insert_ne by done. eauto.
  - intros q q' n n' [[<- <-]|[? Hq]]%lookup_insert_Some [[<- <-]|[? Hq']]%lookup_insert_Some Hne;
      [done| |apply or_comm|]; eauto.
  - intros q n [[<- <-]|[? Hq]]%lookup_insert_Some.
    + unfold MIN_MAP_ALIGN, GRAN in *. rewrite Z.min_r by lia.
      split_and!; [done|lia|done|]. intros a ?. by apply Hfresh.
    + destruct (Hb _ _ Hq) as (? & ? & ? & ?). split_and!; eauto.
Qed.

(** Giving a large block back to the platform. *)
Lemma heap_inv_unmap fr m s live bl fl p l :
  heap_inv fr m s live bl fl → live !! p = Some l →
  class_for t (size_ l) (align_ l) = Some None →
  heap_inv fr m (unmap (t:=t) s p (block_size l)) (delete p live) (delete p bl) fl.
Proof.
  intros [? Hch Hf Hn Hl Hd Hb] Hp Hc.
  destruct (Hl _ _ Hp) as [Hbp Hv]. destruct (block_size_large l Hv Hc) as (Hge & _ & H4).
  constructor; try done.
  - intros i li x Hi Hx. destruct (Hf _ _ _ Hi Hx) as [Hbx Hlx].
    assert (p ≠ x) by congruence. by rewrite !lookup_delete_ne by done.
  - intros q l' [? Hq]%lookup_delete_Some. rewrite lookup_delete_ne by done. eauto.
  - intros q q' n n' [? Hq]%lookup_delete_Some [? Hq']%lookup_delete_Some. eauto.
  - intros q n [Hne Hq]%lookup_delete_Some. destruct (Hb _ _ Hq) as (? & ? & ? & Ho).
    split_and!; [done..|]. intros a Ha. apply unmap_spec; [by apply Ho|].
    destruct (Hd _ _ _ _ Hbp Hq Hne); lia.
Qed.

(** The program may write anything into its live blocks. *)
Definition agrees_outside live m m' : Prop :=
  ∀ a, (∀ p l, live !! p = Some l → ¬ (p ≤ a < p + block_size l)) → m' !! a = m !! a.

Lemma heap_inv_scribble fr m m' s live bl fl :
  agrees_outside live m m' → heap_inv fr m s live bl fl → heap_inv fr m' s live bl fl.
Proof.
  intros Hag [? Hch Hf Hn Hl Hd Hb]. constructor; try done.
  intros i head li Hi Hli. eapply chain_frame; [|eauto]. intros x Hx. apply Hag.
  intros p l Hp Hin. destruct (Hf _ _ _ Hli Hx) as [Hbx Hlx].
  destruct (Hl _ _ Hp) as [Hbp _]. destruct (Hb _ _ Hbx) as (_ & ? & _).
  destruct (Hd _ _ _ _ Hbp Hbx); [congruence|lia..].
Qed.

(** *** The operations *)
Lemma index_nat {A} (l : list A) (i : nat) : index l (Z.of_nat i) = l !! i.
Proof.
  unfold index. rewrite decide_True by lia. by rewrite Nat2Z.id.
Qed.

Lemma alloc_small_spec h live l idx :
  inv h live → valid_layout l → 0 ≤ idx < 9 → block_size l = class_size t idx →
  ∃ p h', alloc_small t h idx = Some (p, h') ∧
    (p = 0 ∧ inv h' live ∨ p ≠ 0 ∧ live !! p = None ∧ inv h' (<[p := l]> live)).
Proof.
  intros [Hlock (bl & fl & Hinv)] Hv Hi Hsz. unfold alloc_small, lock. rewrite Hlock.
  pose proof Hinv as [[Hfr Hfl] _ _ _ _ _ _].
  rewrite <-(Z2Nat.id idx) in * by lia. set (i := Z.to_nat idx) in *.
  assert (is_Some (free h !! i)) as [head Hhead].
  { apply lookup_lt_is_Some. unfold NUM_CLASSES in *. lia. }
  cbn [mbind option_bind free]. rewrite index_nat, Hhead. cbn [mbind option_bind].
  destruct (decide (head = 0)) as [->|Hne].
  - unfold refill. cbn [os free mem lock_].
    destruct (map (os h) ARENA) as [base s'] eqn:Em.
    destruct (decide (base = 0)) as [->|Hb].
    + cbn. eexists _, _. split; [done|left]. split; [done|]. split; [done|].
      exists bl, fl. cbn. eapply heap_inv_os; [|done]. intros ???? ?.
      by apply (arena_mono _ _ _ _ Em).
    + rewrite index_nat, Hhead. cbn [mbind option_bind].
      destruct (heap_inv_refill _ _ _ _ _ _ _ i _ _ Hinv Hhead Em Hb)
        as (m' & next & -> & Hnext & bl' & fl' & Hinv').
      cbn [mbind option_bind negb free mem lock_ os]. rewrite Nat2Z.id, index_nat.
      assert ((<[i := next]> (free h)) !! i = Some next) as Hn.
      { apply list_lookup_insert_eq. by eapply lookup_lt_Some. }
      rewrite Hn. cbn [mbind option_bind].
      destruct (heap_inv_pop _ _ _ _ _ _ i next l Hinv' Hn Hnext Hv Hsz)
        as (nx & -> & Hlive & _ & fl'' & Hinv'').
      cbn. eexists _, _. split; [done|right]. split_and!; [done|done|]. split; [done|]. eauto.
  - cbn [mbind option_bind negb free mem lock_ os]. rewrite index_nat, Hhead, Nat2Z.id.
    cbn [mbind option_bind].
    destruct (heap_inv_pop _ _ _ _ _ _ i head l Hinv Hhead Hne Hv Hsz)
      as (nx & -> & Hlive & _ & fl'' & Hinv'').
    cbn. eexists _, _. split; [done|right]. split_and!; [done|done|]. split; [done|]. eauto.
Qed.

(** [alloc] always returns; a non-null result is a new live block. *)
Lemma alloc_spec h live l :
  inv h live → valid_layout l →
  ∃ p h', alloc t h l = Some (p, h') ∧
    (p = 0 ∧ inv h' live ∨ p ≠ 0 ∧ live !! p = None ∧ inv h' (<[p := l]> live)).
Proof.
  intros Hinv Hv. unfold alloc.
  destruct (valid_class l Hv) as [(Hc & _ & Hsz)|(idx & Hc & ? & _ & _ & Hsz)];
    rewrite Hc; cbn [mbind option_bind].
  - destruct (decide (GRAN < align_ l)); [eexists _, _; eauto|].
    rewrite <-Hsz. destruct (map (os h) (block_size l)) as [p s'] eqn:Em.
    destruct Hinv as [Hlock (bl & fl & Hinv)]. eexists _, _. split; [done|].
    destruct (decide (p = 0)) as [->|Hp].
    + left. split; [done|]. split; [done|]. exists bl, fl. cbn.
      destruct (block_size_large l Hv Hc) as (_ & Hlt & Hg).
      destruct (map_spec (t:=t) _ _ _ _ (conj (Z.lt_le_trans 0 GRAN _ eq_refl Hg) Hlt) Em) as [Hm _].
      eapply heap_inv_os; [|done]. eauto.
    + right. destruct (heap_inv_map _ _ _ _ _ _ _ _ _ Hinv Hv Hc Em Hp) as (? & _ & ?).
      split_and!; [done|done|]. split; [done|]. eauto.
  - by apply alloc_small_spec.
Qed.

Lemma free_small_spec h live p l idx :
  inv h live → live !! p = Some l → 0 ≤ idx < 9 → block_size l = class_size t idx →
  ∃ head h', free_small h idx p = Some h' ∧ inv h' (delete p live) ∧ os h' = os h
    ∧ free h !! Z.to_nat idx = Some head ∧ mem h' !! p = Some head
    ∧ free h' = <[Z.to_nat idx := p]> (free h).
Proof.
  intros [Hlock (bl & fl & Hinv)] Hp Hi Hsz. unfold free_small, lock. rewrite Hlock.
  rewrite <-(Z2Nat.id idx) in * by lia. set (i := Z.to_nat idx) in *.
  assert (is_Some (free h !! i)) as [head Hhead].
  { apply lookup_lt_is_Some. destruct Hinv as [[? _] _ _ _ _ _ _]. unfold NUM_CLASSES in *. lia. }
  cbn [mbind option_bind free]. rewrite index_nat, Hhead. cbn. rewrite !Nat2Z.id.
  destruct (heap_inv_push _ _ _ _ _ _ i p head l Hinv Hhead Hp Hsz) as [fl' Hinv'].
  eexists _, _. split_and!; [done| |done|done|apply lookup_insert_eq|done].
  split; [done|]. cbn. eauto.
Qed.

Lemma inv_live_pos h live p l :
  inv h live → live !! p = Some l → p ≠ 0 ∧ valid_layout l.
Proof.
  intros [_ (bl & fl & [_ _ _ _ Hl _ Hb])] Hp. destruct (Hl _ _ Hp) as [Hbp ?].
  destruct (Hb _ _ Hbp) as (? & _). split; [lia|done].
Qed.

(** [dealloc] of a live block always returns and takes the block out. *)
Lemma dealloc_spec h live p l :
  inv h live → live !! p = Some l →
  ∃ h', dealloc t h p l = Some h' ∧ inv h' (delete p live).
Proof.
  intros Hinv Hp. destruct (inv_live_pos h live p l Hinv Hp) as [? Hv].
  unfold dealloc. rewrite decide_False by done.
  destruct (valid_class l Hv) as [(Hc & _ & Hsz)|(idx & Hc & ? & _ & _ & Hsz)];
    rewrite Hc; cbn [mbind option_bind].
  - rewrite <-Hsz. eexists. split; [done|]. destruct Hinv as [Hlock (bl & fl & Hinv)].
    split; [done|]. cbn. eauto using heap_inv_unmap.
  - destruct (free_small_spec h live p l idx) as (? & h' & -> & ? & _); eauto.
Qed.

(** What the invariant gives the program: its blocks are where their layouts ask,
    in memory the program owns, and never overlap. *)
Record live_ok (h : Heap σ) live : Prop := {
  lo_align : ∀ p l, live !! p = Some l → align_ l ≤ MIN_MAP_ALIGN → p `mod` align_ l = 0;
  lo_owned : ∀ p l a, live !! p = Some l → p ≤ a < p + size_ l → owned (t:=t) (os h) a;
  lo_disjoint : ∀ p q l l', live !! p = Some l → live !! q = Some l' → p ≠ q →
    p + size_ l ≤ q ∨ q + size_ l' ≤ p;
}.

Lemma size_le_block l : valid_layout l → size_ l ≤ block_size l.
Proof.
  intros Hv. destruct (valid_class l Hv) as [(Hc & _)|(idx & _ & _ & ? & _)]; [|done].
  by destruct (block_size_large l Hv Hc).
Qed.

Lemma inv_live_ok h live : inv h live → live_ok h live.
Proof.
  intros [_ (bl & fl & [_ _ _ _ Hl Hd Hb])]. constructor.
  - intros p l Hp Hal. destruct (Hl _ _ Hp) as [Hbp Hv]. destruct (Hb _ _ Hbp) as (? & ? & Hm & _).
    pose proof Hv as [_ (k & Hk & Ek)]. rewrite Ek in *. unfold MIN_MAP_ALIGN in *.
    assert (k ≤ 12) by (change 4096 with (2 ^ 12) in Hal; apply Z.pow_le_mono_r_iff in Hal; lia).
    apply Z.mod_divide; [lia|]. apply Z.mod_divide in Hm; [|lia]. etransitivity; [|exact Hm].
    destruct (valid_class l Hv) as [(Hc & _)|(idx & _ & Hi & _ & Ha & Hsz)].
    + destruct (block_size_large l Hv Hc) as (_ & _ & Hg). unfold GRAN in Hg.
      rewrite Z.min_r by lia. exists (2 ^ (12 - k)). rewrite <-Z.pow_add_r by lia.
      change 4096 with (2 ^ 12). f_equal. lia.
    + pose proof (class_size_bounds idx Hi). rewrite Z.min_l by lia.
      rewrite Hsz, class_size_pow2 in * by lia. rewrite Ek in Ha.
      apply Z.pow_le_mono_r_iff in Ha; [|lia..]. exists (2 ^ (idx + 4 - k)).
      rewrite <-Z.pow_add_r by lia. f_equal. lia.
  - intros p l a Hp Ha. destruct (Hl _ _ Hp) as [Hbp Hv]. destruct (Hb _ _ Hbp) as (_ & _ & _ & Ho).
    pose proof (size_le_block l Hv). apply Ho. lia.
  - intros p q l l' Hp Hq Hne. destruct (Hl _ _ Hp) as [Hbp Hv]. destruct (Hl _ _ Hq) as [Hbq Hv'].
    pose proof (size_le_block l Hv). pose proof (size_le_block l' Hv').
    destruct (Hd _ _ _ _ Hbp Hbq Hne); lia.
Qed.

(** ** Client histories *)

(** A step of the program: an allocation, a release of a live block, or writes of any
    words into live blocks. *)
Inductive step : Heap σ * gmap Z Layout → Heap σ * gmap Z Layout → Prop :=
| step_alloc h live l p h' :
    valid_layout l → alloc t h l = Some (p, h') → p ≠ 0 →
    step (h, live) (h', <[p := l]> live)
| step_alloc_null h live l h' :
    valid_layout l → alloc t h l = Some (0, h') → step (h, live) (h', live)
| step_dealloc h live p l h' :
    live !! p = Some l → dealloc t h p l = Some h' → step (h, live) (h', delete p live)
| step_write h live m' :
    agrees_outside live (mem h) m' →
    step (h, live) (mkHeap (lock_ h) (free h) m' (os h), live).

Lemma new_inv m s : inv (new m s) ∅.
Proof.
  split; [done|]. exists ∅, (replicate NUM_CLASSES []). constructor; try done.
  - intros i head l [-> _]%lookup_replicate [-> _]%lookup_replicate. done.
  - intros i l x [-> _]%lookup_replicate Hx. by apply elem_of_nil in Hx.
  - intros i l [-> _]%lookup_replicate. constructor.
Qed.

Lemma step_inv c c' : step c c' → inv c.1 c.2 → inv c'.1 c'.2.
Proof.
  intros [h live l p h' Hv Ha Hp|h live l h' Hv Ha|h live p l h' Hp Hd|h live m' Hag]; cbn;
    intros Hinv.
  - destruct (alloc_spec h live l Hinv Hv) as (? & ? & ? & [[-> _]|(_ & _ & ?)]); naive_solver.
  - destruct (alloc_spec h live l Hinv Hv) as (? & ? & ? & [[_ ?]|(? & _ & ?)]); naive_solver.
  - destruct (dealloc_spec h live p l Hinv Hp) as (? & ? & ?). naive_solver.
  - destruct Hinv as [? (bl & fl & ?)]. split; [done|]. eauto using heap_inv_scribble.
Qed.

Lemma steps_inv m s c : rtc step (new m s, ∅) c → inv c.1 c.2.
Proof.
  assert (∀ c0, rtc step c0 c → inv c0.1 c0.2 → inv c.1 c.2) as Hall.
  { intros c0. induction 1 as [|c0 c1 c2 Hs _ IH]; [done|]. eauto using step_inv. }
  intros Hs. apply (Hall _ Hs), new_inv.
Qed.

(** C3: memory safety. Whatever sequence of allocations, releases and writes into its own
    blocks the program makes, every live block lies in memory the program owns, no
    two live blocks overlap, and blocks have the alignment of their layout when that is at most the page
    size of 4096 (a larger one is not respected: [large_align_misplaced]); every further allocation returns, either null or a block that overlaps no
    live one, and every release of a live block returns. *)
Theorem allocator_sound m s h live (Hrun : rtc step (new m s, ∅) (h, live)) :
  live_ok h live
  ∧ (∀ l, valid_layout l → ∃ p h', alloc t h l = Some (p, h')
       ∧ (p = 0 ∨ live !! p = None ∧ live_ok h' (<[p := l]> live)))
  ∧ (∀ p l, live !! p = Some l → ∃ h', dealloc t h p l = Some h' ∧ live_ok h' (delete p live)).
Proof.
  apply steps_inv in Hrun; cbn in Hrun. split_and!.
  - by apply inv_live_ok.
  - intros l Hv. destruct (alloc_spec h live l Hrun Hv) as (p & h' & Ha & [[-> _]|(_ & ? & ?)]);
      eauto 10 using inv_live_ok.
  - intros p l Hp. destruct (dealloc_spec h live p l Hrun Hp) as (h' & ? & ?).
    eauto using inv_live_ok.
Qed.

(** Reuse. Releasing a small block and allocating any layout of the same size
    class gives the same block back, without asking the platform for memory. *)
Theorem dealloc_then_alloc m s h live p l l' idx
    (Hrun : rtc step (new m s, ∅) (h, live)) (Hp : live !! p = Some l)
    (Hc : class_for t (size_ l) (align_ l) = Some (Some idx))
    (Hc' : class_for t (size_ l') (align_ l') = Some (Some idx)) :
  ∃ h1 h2, dealloc t h p l = Some h1 ∧ alloc t h1 l' = Some (p, h2) ∧ os h2 = os h.
Proof.
  apply steps_inv in Hrun; cbn in Hrun.
  destruct (inv_live_pos h live p l Hrun Hp) as [Hp0 Hv].
  destruct (valid_class l Hv) as [(? & _)|(idx' & Hc2 & Hi & _ & _ & Hsz)]; [congruence|].
  assert (idx' = idx) as -> by congruence.
  destruct (free_small_spec h live p l idx Hrun Hp Hi Hsz)
    as (head & h1 & Hf & [Hlock _] & Hos & Hhead & Hm & Hfr).
  exists h1. unfold dealloc, alloc. rewrite decide_False, Hc, Hc' by done.
  cbn [mbind option_bind]. rewrite Hf. unfold alloc_small, lock. rewrite Hlock.
  cbn [mbind option_bind free]. rewrite Hfr. rewrite <-(Z2Nat.id idx) by lia.
  rewrite index_nat, Nat2Z.id, list_lookup_insert_eq by (by eapply lookup_lt_Some).
  cbn [mbind option_bind]. rewrite decide_False by done.
  cbn [mbind option_bind negb free mem lock_ os].
  rewrite index_nat, list_lookup_insert_eq by (by eapply lookup_lt_Some).
  cbn [mbind option_bind]. rewrite Hm. cbn. eauto.
Qed.

(** Fragmentation. A block holds its layout and wastes less than half of itself,
    or less than one granule for a large request. *)
Theorem block_size_tight l (Hv : valid_layout l) :
  size_ l ≤ block_size l
  ∧ (block_size l < 2 * Z.max 16 (Z.max (size_ l) (align_ l)) ∨ block_size l < size_ l + GRAN).
Proof.
  split; [by apply size_le_block|].
  pose proof Hv as [[? Hmax] (k & ? & Hk)]. pose proof (pow2_pos k ltac:(done)).
  pose proof (usize_bits_bounds t).
  destruct (class_for_spec t (size_ l) (align_ l)) as [[Hc _]|(idx & Hc & Hi & _ & _ & Hlo)];
    [lia|lia| |].
  - right. unfold block_size. rewrite Hc. apply round_up_gran; [lia|].
    assert (2 ^ 31 ≤ 2 ^ (usize_bits t - 1)) by (apply Z.pow_le_mono_r; lia).
    assert (2 ^ usize_bits t = 2 * 2 ^ (usize_bits t - 1)).
    { rewrite <-Z.pow_succ_r by lia. f_equal. lia. }
    unfold GRAN. lia.
  - left. rewrite (block_size_class l idx) by done. rewrite class_size_pow2 by lia.
    destruct Hlo as [->|Hlo]; [change (2 ^ (0 + 4)) with 16; lia|].
    destruct (decide (idx = 0)) as [->|]; [change (2 ^ (0 + 4)) with 16; lia|].
    rewrite class_size_pow2 in Hlo by lia.
    replace (idx + 4) with (Z.succ (idx - 1 + 4)) by lia. rewrite Z.pow_succ_r by lia. lia.
Qed.
End invariant.

(** ** A concrete platform: mappings are handed out at increasing page addresses *)
Record Bump := mkBump { bump_next : Z }.

Definition bump_mmap (k : Bump) (len : Z) : result Z Z * Bump :=
  let n := (len + 4095) / 4096 * 4096 in
  if decide (0 < len ∧ 0 < bump_next k ∧ bump_next k `mod` 4096 = 0 ∧ bump_next k + n ≤ 2 ^ 46) then
    (Ok (bump_next k), mkBump (bump_next k + n))
  else (Err 12, k).

#[export] Program Instance bump_memory : VirtualMemory Bump := {
  mmap_anon := bump_mmap;
  munmap k _ _ := (Ok tt, k);
  mapped k a := 0 ≤ a < bump_next k;
}.
Next Obligation.
  unfold bump_mmap. intros k len r k' Hlen.
  pose proof (Z.div_mod (len + 4095) 4096 ltac:(done)).
  pose proof (Z.mod_pos_bound (len + 4095) 4096 ltac:(done)).
  destruct (decide _) as [(? & ? & ? & ?)|]; intros ?; simplify_eq; cbn; split; [lia| |lia|done].
  intros p ?; simplify_eq. split_and!; [done|done|]. lia.
Qed.
Next Obligation. done. Qed.

Definition sample_os : Bump := mkBump 4096.
Definition sample_layout : Layout := mkLayout 3000 8.

Lemma sample_valid : valid_layout X86_64Linux sample_layout.
Proof. split; [cbn; lia|]. exists 3. done. Qed.

Definition heap_of (o : option (Z * Heap Bump)) : Heap Bump :=
  match o with Some (_, h) => h | None => new ∅ sample_os end.
Definition ptr_of (o : option (Z * Heap Bump)) : Z :=
  match o with Some (p, _) => p | None => 0 end.

Definition sample_a1 := alloc X86_64Linux (new ∅ sample_os) sample_layout.
Definition sample_a2 := alloc X86_64Linux (heap_of sample_a1) sample_layout.
Definition sample_live : gmap Z Layout := <[8192 := sample_layout]> {[4096 := sample_layout]}.

Lemma sample_run :
  rtc (step X86_64Linux) (new ∅ sample_os, ∅) (heap_of sample_a2, sample_live).
Proof.
  assert (sample_a1 = Some (4096, heap_of sample_a1)) as H1 by (vm_compute; reflexivity).
  assert (sample_a2 = Some (8192, heap_of sample_a2)) as H2 by (vm_compute; reflexivity).
  eapply rtc_l; [by eapply (step_alloc _ _ _ sample_layout 4096); [apply sample_valid|exact H1|]|].
  eapply rtc_l; [by eapply (step_alloc _ _ _ sample_layout 8192); [apply sample_valid|exact H2|]|].
  apply rtc_refl.
Qed.

(** Witness of C3. *)
Lemma allocator_sound_witness :
  live_ok X86_64Linux (heap_of sample_a2) sample_live
  ∧ ∃ p h', alloc X86_64Linux (heap_of sample_a2) (mkLayout 64 64) = Some (p, h').
Proof.
  destruct (allocator_sound X86_64Linux ∅ sample_os _ _ sample_run) as (H1 & H2 & _).
  split; [exact H1|]. destruct (H2 (mkLayout 64 64)) as (p & h' & Ha & _); [|eauto].
  split; [cbn; lia|]. exists 6. done.
Defined.

(** An instance: the first of the two blocks is released and asked for again. *)
Lemma dealloc_then_alloc_witness :
  ∃ h1 h2, dealloc X86_64Linux (heap_of sample_a2) 4096 sample_layout = Some h1
    ∧ alloc X86_64Linux h1 (mkLayout 4096 1024) = Some (4096, h2)
    ∧ os h2 = os (heap_of sample_a2).
Proof.
  apply (dealloc_then_alloc X86_64Linux ∅ sample_os _ sample_live 4096 sample_layout
           (mkLayout 4096 1024) 8 sample_run); vm_compute; reflexivity.
Defined.

(** An instance. *)
Lemma block_size_tight_witness :
  3000 ≤ 4096 ∧ (4096 < 2 * 3000 ∨ 4096 < 3000 + GRAN).
Proof. exact (block_size_tight X86_64Linux sample_layout sample_valid). Defined.

(** An alignment above the page size is accepted but not honoured: the mapping is
    only page aligned, so a request aligned to 8192 can get an address that is not. *)
Theorem large_align_misplaced :
  let l := mkLayout 8192 8192 in
  ∃ p h', alloc X86_64Linux (new ∅ sample_os) l = Some (p, h') ∧ valid_layout X86_64Linux l
    ∧ p ≠ 0 ∧ p `mod` align_ l ≠ 0.
Proof.
  eexists _, _. split; [vm_compute; reflexivity|]. split; [|done].
  split; [cbn; lia|]. exists 13. done.
Qed.
