(* ===== verification/Str.v ===== *)
(** The [str] methods the source uses, on strings as lists of bytes.

    A Rust [str] is its UTF-8 bytes; the patterns searched for ('/', '.', ':', white
    space) are ASCII, so byte positions and character boundaries agree. *)
From S2P Require Import Prelude.
From Stdlib Require Export Ascii.
From Stdlib Require String.
Open Scope Z_scope.

Definition str : Type := list ascii.

(** String literals of the source. *)
Definition lit (s : string) : str := String.list_ascii_of_string s.
Arguments lit s%_string.

(** The bytes of a string, and back. *)
Definition as_bytes (s : str) : list Z := (λ c, Z.of_N (N_of_ascii c)) <$> s.
Definition of_bytes (b : list Z) : str := (λ x, ascii_of_N (Z.to_N x)) <$> b.

Lemma of_as_bytes s : of_bytes (as_bytes s) = s.
Proof.
  unfold of_bytes, as_bytes. induction s as [|c s IH]; [done|].
  cbn [fmap list_fmap]. by rewrite IH, N2Z.id, ascii_N_embedding.
Qed.

Lemma as_of_bytes b : Forall is_byte b → as_bytes (of_bytes b) = b.
Proof.
  unfold of_bytes, as_bytes, is_byte. induction 1 as [|x b Hx _ IH]; [done|].
  cbn [fmap list_fmap]. by rewrite IH, N_ascii_embedding, Z2N.id by lia.
Qed.

Section searching.
Context (c : ascii).

Fixpoint find (s : str) : option nat :=
  match s with
  | [] => None
  | x :: s => if decide (x = c) then Some 0%nat else S <$> find s
  end.

Fixpoint rfind (s : str) : option nat :=
  match s with
  | [] => None
  | x :: s =>
      match rfind s with
      | Some i => Some (S i)
      | None => if decide (x = c) then Some 0%nat else None
      end
  end.

Fixpoint trim_start (s : str) : str :=
  match s with
  | [] => []
  | x :: s' => if decide (x = c) then trim_start s' else s
  end.

Definition trim_end (s : str) : str := reverse (trim_start (reverse s)).

Definition starts_with_char (s : str) : bool := bool_decide (head s = Some c).
Definition ends_with_char (s : str) : bool := bool_decide (last s = Some c).

(** [str::split]. *)
Fixpoint split (s : str) : list str :=
  match s with
  | [] => [[]]
  | x :: s =>
      if decide (x = c) then [] :: split s
      else match split s with [] => [[x]] | h :: t => (x :: h) :: t end
  end.
End searching.

Fixpoint strip_prefix_str (p s : str) : option str :=
  match p, s with
  | [], _ => Some s
  | _ :: _, [] => None
  | x :: p, y :: s => if decide (x = y) then strip_prefix_str p s else None
  end.

Definition strip_suffix_str (p s : str) : option str :=
  reverse <$> strip_prefix_str (reverse p) (reverse s).

(** ** Their laws *)
Section laws.
Context (c : ascii).

Lemma find_Some s i :
  find c s = Some i → s = take i s ++ c :: drop (S i) s ∧ c ∉ take i s.
Proof.
  revert i. induction s as [|x s IH]; intros i; cbn; [done|].
  destruct (decide (x = c)) as [->|Hx].
  { intros [= <-]. cbn. split; [done|apply not_elem_of_nil]. }
  intros (j & Hj & ->)%fmap_Some. destruct (IH j Hj) as [Hs Hn]. cbn.
  split; [by f_equal|]. rewrite elem_of_cons. naive_solver.
Qed.

Lemma find_None s : find c s = None → c ∉ s.
Proof.
  induction s as [|x s IH]; cbn; [intros _; apply not_elem_of_nil|].
  destruct (decide (x = c)); [done|]. intros ?%fmap_None. rewrite elem_of_cons. naive_solver.
Qed.

Lemma rfind_None s : rfind c s = None ↔ c ∉ s.
Proof.
  induction s as [|x s IH]; cbn; [split; [intros _; apply not_elem_of_nil|done]|].
  rewrite elem_of_cons. destruct (rfind c s); [naive_solver|].
  destruct (decide (x = c)); naive_solver.
Qed.

Lemma rfind_Some s i :
  rfind c s = Some i → s = take i s ++ c :: drop (S i) s ∧ c ∉ drop (S i) s.
Proof.
  revert i. induction s as [|x s IH]; intros i; cbn [rfind]; [done|].
  destruct (rfind c s) as [j|] eqn:E.
  - intros [= <-]. destruct (IH j eq_refl) as [Hs Hn]. cbn. split; [by f_equal|done].
  - destruct (decide (x = c)) as [->|]; [|done]. intros [= <-]. cbn. rewrite drop_0.
    by rewrite <-rfind_None.
Qed.

Lemma rfind_app a b : c ∉ b → rfind c (a ++ c :: b) = Some (length a).
Proof.
  intros Hb. induction a as [|x a IH]; cbn; [|by rewrite IH].
  apply rfind_None in Hb. rewrite Hb. by rewrite decide_True.
Qed.

Lemma trim_start_spec s :
  ∃ k, s = replicate k c ++ trim_start c s ∧ head (trim_start c s) ≠ Some c.
Proof.
  induction s as [|x s (k & Hs & Hh)]; cbn; [by exists 0%nat|].
  destruct (decide (x = c)) as [->|Hx].
  - exists (S k). cbn. split; [by f_equal|done].
  - exists 0%nat. cbn. split; [done|]. by intros [= ->].
Qed.

Lemma trim_end_spec s :
  ∃ k, s = trim_end c s ++ replicate k c ∧ last (trim_end c s) ≠ Some c.
Proof.
  destruct (trim_start_spec (reverse s)) as (k & Hs & Hh). exists k. unfold trim_end. split.
  - rewrite <-(reverse_replicate k), <-reverse_app, <-Hs. by rewrite reverse_involutive.
  - by rewrite last_reverse.
Qed.

Lemma trim_start_id s : head s ≠ Some c → trim_start c s = s.
Proof. destruct s as [|x s]; [done|]. cbn. intros ?. rewrite decide_False; [done|congruence]. Qed.

Lemma trim_end_id s : last s ≠ Some c → trim_end c s = s.
Proof.
  intros. unfold trim_end. rewrite trim_start_id; [apply reverse_involutive|].
  by rewrite head_reverse.
Qed.

Lemma split_nonempty s : split c s ≠ [].
Proof. destruct s as [|x s]; cbn; [done|]. destruct (decide _), (split c s); done. Qed.

Lemma split_app a b : split c (a ++ c :: b) = split c a ++ split c b.
Proof.
  induction a as [|x a IH]; cbn; [by rewrite decide_True|].
  rewrite IH. destruct (decide (x = c)); [done|].
  pose proof (split_nonempty a). by destruct (split c a).
Qed.

Lemma split_none s : c ∉ s → split c s = [s].
Proof.
  induction s as [|x s IH]; cbn; [done|]. rewrite elem_of_cons. intros.
  rewrite decide_False, IH by naive_solver. done.
Qed.
End laws.

Lemma strip_prefix_str_Some p s r : strip_prefix_str p s = Some r ↔ s = p ++ r.
Proof.
  revert s. induction p as [|x p IH]; intros s; cbn; [naive_solver|].
  destruct s as [|y s]; [naive_solver|]. destruct (decide (x = y)); [|naive_solver].
  rewrite IH. naive_solver.
Qed.

Lemma strip_suffix_str_Some p s r : strip_suffix_str p s = Some r ↔ s = r ++ p.
Proof.
  unfold strip_suffix_str. rewrite fmap_Some. setoid_rewrite strip_prefix_str_Some. split.
  - intros (x & Hs & ->). apply (f_equal reverse) in Hs.
    by rewrite reverse_app, !reverse_involutive in Hs.
  - intros ->. exists (reverse r). by rewrite reverse_app, reverse_involutive.
Qed.
