(* ===== verification/Utf8.v ===== *)
(** UTF-8 (the standard library's [core::str::from_utf8] and [String::from_utf8_lossy]) and
    the strings that are well formed.

    A Rust [str] is well-formed UTF-8 by its type, and a slice of one must begin and end between
    characters.  The model keeps strings as lists of bytes, so that the type is a property here:
    [valid_str].  This file has the two decoders the source calls, the encoding of scalar values
    as the reference they are compared with, and the lemmas by which the files that cut and
    build strings show that they keep the type. *)
From S2P Require Import Prelude Str.

(** * The decoders *)
(** [core::str::from_utf8]: well-formed UTF-8 (no overlong forms, no surrogates). *)
Definition cont (b : Z) : bool := bool_decide (0x80 ≤ b ≤ 0xBF).

Fixpoint utf8_valid (l : list Z) : bool :=
  match l with
  | [] => true
  | a :: l1 =>
      if decide (a < 0x80) then utf8_valid l1
      else
        match l1 with
        | [] => false
        | b :: l2 =>
            if decide (0xC2 ≤ a ≤ 0xDF) then cont b && utf8_valid l2
            else
              match l2 with
              | [] => false
              | c :: l3 =>
                  if decide (0xE0 ≤ a ≤ 0xEF) then
                    cont b && cont c
                    && negb (bool_decide (a = 0xE0 ∧ b < 0xA0))
                    && negb (bool_decide (a = 0xED ∧ 0x9F < b)) && utf8_valid l3
                  else
                    match l3 with
                    | [] => false
                    | d :: l4 =>
                        bool_decide (0xF0 ≤ a ≤ 0xF4) && cont b && cont c && cont d
                        && negb (bool_decide (a = 0xF0 ∧ b < 0x90))
                        && negb (bool_decide (a = 0xF4 ∧ 0x8F < b)) && utf8_valid l4
                    end
              end
        end
  end.

(** [String::from_utf8_lossy]: each maximal ill-formed piece becomes U+FFFD. *)
Definition cont_in (lo hi : Z) (l : list Z) : bool :=
  match l with b :: _ => bool_decide (lo ≤ b ≤ hi) | [] => false end.

(** The length of the first sequence, and whether it is well formed. *)
Definition utf8_head (l : list Z) : bool * nat :=
  match l with
  | [] => (true, 0%nat)
  | a :: l =>
      if decide (a < 0x80) then (true, 1%nat)
      else if decide (0xC2 ≤ a ≤ 0xDF) then
        if cont_in 0x80 0xBF l then (true, 2%nat) else (false, 1%nat)
      else if decide (0xE0 ≤ a ≤ 0xEF) then
        if cont_in (if decide (a = 0xE0) then 0xA0 else 0x80) (if decide (a = 0xED) then 0x9F else 0xBF) l
        then if cont_in 0x80 0xBF (drop 1 l) then (true, 3%nat) else (false, 2%nat)
        else (false, 1%nat)
      else if decide (0xF0 ≤ a ≤ 0xF4) then
        if cont_in (if decide (a = 0xF0) then 0x90 else 0x80) (if decide (a = 0xF4) then 0x8F else 0xBF) l
        then if cont_in 0x80 0xBF (drop 1 l)
             then if cont_in 0x80 0xBF (drop 2 l) then (true, 4%nat) else (false, 3%nat)
             else (false, 2%nat)
        else (false, 1%nat)
      else (false, 1%nat)
  end.

Fixpoint utf8_lossy_loop (fuel : nat) (l : list Z) : list Z :=
  match fuel, l with
  | S fuel, _ :: _ =>
      let '(good, n) := utf8_head l in
      (if good then take n l else [0xEF; 0xBF; 0xBD]) ++ utf8_lossy_loop fuel (drop n l)
  | _, _ => []
  end.

Definition from_utf8_lossy (l : list Z) : str := of_bytes (utf8_lossy_loop (length l) l).

(** * Characters *)
(** The first byte says how long the sequence is. *)
Definition char_len (a : Z) : nat :=
  if decide (a < 0x80) then 1 else if decide (0xC2 ≤ a ≤ 0xDF) then 2
  else if decide (0xE0 ≤ a ≤ 0xEF) then 3 else 4.

(** One well-formed sequence. *)
Definition is_char (l : list Z) : bool :=
  match l with
  | [a] => bool_decide (a < 0x80)
  | [a; b] => bool_decide (0xC2 ≤ a ≤ 0xDF) && cont b
  | [a; b; c] =>
      bool_decide (0xE0 ≤ a ≤ 0xEF) && cont b && cont c
      && negb (bool_decide (a = 0xE0 ∧ b < 0xA0)) && negb (bool_decide (a = 0xED ∧ 0x9F < b))
  | [a; b; c; d] =>
      bool_decide (0xF0 ≤ a ≤ 0xF4) && cont b && cont c && cont d
      && negb (bool_decide (a = 0xF0 ∧ b < 0x90)) && negb (bool_decide (a = 0xF4 ∧ 0x8F < b))
  | _ => false
  end.

Lemma is_char_len a l : is_char (a :: l) = true → length (a :: l) = char_len a.
Proof.
  intros H. destruct l as [|b [|c [|d [|e l]]]]; cbn in H; try done; destruct_and?;
    rewrite ?bool_decide_eq_true in *; unfold char_len; repeat case_decide; done || lia.
Qed.

Lemma utf8_valid_cons a l :
  utf8_valid (a :: l) =
    is_char (take (char_len a) (a :: l)) && utf8_valid (drop (char_len a) (a :: l)).
Proof.
  unfold char_len. cbn [utf8_valid]. destruct (decide (a < 0x80)) as [H1|H1].
  { cbn. by rewrite bool_decide_eq_true_2. }
  destruct (decide (0xC2 ≤ a ≤ 0xDF)) as [H2|H2].
  { destruct l as [|b l]; cbn; unfold cont; repeat case_bool_decide; done || lia. }
  destruct (decide (0xE0 ≤ a ≤ 0xEF)) as [H3|H3].
  { destruct l as [|b [|c l]]; cbn; unfold cont; repeat case_bool_decide; done || lia. }
  destruct l as [|b [|c [|d l]]]; cbn; unfold cont; repeat case_bool_decide; done || lia.
Qed.

(** A valid text is empty or a character and a valid text. *)
Lemma utf8_valid_inv l :
  utf8_valid l = true → l = [] ∨ ∃ c l', l = c ++ l' ∧ is_char c = true ∧ utf8_valid l' = true.
Proof.
  destruct l as [|a l]; [by left|]. rewrite utf8_valid_cons. intros [? ?]%andb_true_iff. right.
  eexists _, _. split_and!; [symmetry; apply take_drop|done..].
Qed.

Lemma is_char_nonnil c : is_char c = true → c ≠ [].
Proof. by destruct c. Qed.

(** A character is a prefix code: it can be removed from the front. *)
Lemma utf8_valid_char c l : is_char c = true → utf8_valid (c ++ l) = utf8_valid l.
Proof.
  intros Hc. destruct c as [|a c]; [done|]. cbn [app]. rewrite utf8_valid_cons.
  rewrite <-(is_char_len a c Hc). change (a :: c ++ l) with ((a :: c) ++ l).
  by rewrite take_app_length, drop_app_length, Hc.
Qed.

(** Induction on the characters of a valid text. *)
Lemma utf8_ind (P : list Z → Prop) :
  P [] → (∀ c l, is_char c = true → utf8_valid l = true → P l → P (c ++ l)) →
  ∀ l, utf8_valid l = true → P l.
Proof.
  intros Hnil Hchar l. induction l as [l IH] using (induction_ltof1 _ length). intros Hl.
  destruct (utf8_valid_inv l Hl) as [->|(c & l' & -> & Hc & Hl')]; [done|].
  apply Hchar; [done..|]. apply IH; [|done]. unfold ltof. rewrite length_app.
  destruct c; [done|]. cbn. lia.
Qed.

Lemma utf8_valid_app a b : utf8_valid a = true → utf8_valid (a ++ b) = utf8_valid b.
Proof.
  intros Ha. revert a Ha. apply utf8_ind; [done|]. intros c l Hc _ IH.
  by rewrite <-(assoc_L (++)), utf8_valid_char.
Qed.

(** The bytes of a longer character are not ASCII. *)
Lemma is_char_ascii c x : is_char c = true → x ∈ c → x < 0x80 → c = [x].
Proof.
  intros Hc Hx Hlt. destruct c as [|a [|b [|d [|e [|f c]]]]]; cbn in Hc; try done;
    unfold cont in Hc; rewrite ?andb_true_iff, ?bool_decide_eq_true in Hc;
    rewrite ?elem_of_cons, elem_of_nil in Hx; naive_solver lia.
Qed.

Lemma utf8_valid_ascii x l : x < 0x80 → utf8_valid (x :: l) = utf8_valid l.
Proof. intros. cbn. by rewrite decide_True. Qed.

(** An ASCII byte is a character of its own wherever it is found: a text can be cut before and after it. *)
Lemma utf8_valid_cut a x b :
  x < 0x80 → utf8_valid (a ++ x :: b) = true → utf8_valid a = true ∧ utf8_valid b = true.
Proof.
  intros Hx. remember (a ++ x :: b) as l eqn:El. intros Hl. revert l Hl a El.
  apply (utf8_ind (λ l, ∀ a, l = a ++ x :: b → utf8_valid a = true ∧ utf8_valid b = true));
    [by destruct a|].
  intros c l Hc Hl IH a El. apply app_eq_inv in El as [(k & -> & Hk)|(k & -> & Hk)].
  - destruct k as [|y k]; cbn in Hk.
    + rewrite app_nil_r in *. subst l. rewrite utf8_valid_ascii in Hl by done.
      split; [|done]. rewrite <-(app_nil_r a). by rewrite utf8_valid_char.
    + injection Hk as <- Hb. assert (a ++ x :: k = [x]) as Ha.
      { apply is_char_ascii; [done| |done]. rewrite elem_of_app, elem_of_cons. auto. }
      destruct a as [|z a]; [|by destruct a]. cbn in Ha. by simplify_eq.
  - destruct (IH k Hk) as [Hv Hb]. split; [|done]. by rewrite utf8_valid_char.
Qed.

(** * The decoder against the encoding of scalar values *)
Definition scalar (u : Z) : Prop := 0 ≤ u < 0xD800 ∨ 0xE000 ≤ u < 0x110000.

Definition encode_utf8 (u : Z) : list Z :=
  if decide (u < 0x80) then [u]
  else if decide (u < 0x800) then [0xC0 + u / 64; 0x80 + u mod 64]
  else if decide (u < 0x10000) then [0xE0 + u / 4096; 0x80 + u / 64 mod 64; 0x80 + u mod 64]
  else [0xF0 + u / 262144; 0x80 + u / 4096 mod 64; 0x80 + u / 64 mod 64; 0x80 + u mod 64].

Lemma encode_is_char u : scalar u → is_char (encode_utf8 u) = true.
Proof.
  intros Hu. unfold scalar in Hu. unfold encode_utf8. repeat case_decide; cbn; unfold cont;
    rewrite ?andb_true_iff, ?negb_true_iff, ?bool_decide_eq_true, ?bool_decide_eq_false.
  all: Z.to_euclidean_division_equations; lia.
Qed.

Ltac char_bytes :=
  unfold is_char, cont in *;
  repeat match goal with
  | H : _ && _ = true |- _ => apply andb_true_iff in H as [? ?]
  | H : negb _ = true |- _ => apply negb_true_iff in H
  | H : bool_decide _ = true |- _ => apply bool_decide_eq_true in H
  | H : bool_decide _ = false |- _ => apply bool_decide_eq_false in H
  end.

(** The scalar value of a character. *)
Definition decode_char (l : list Z) : Z :=
  match l with
  | [a] => a
  | [a; b] => (a - 0xC0) * 64 + (b - 0x80)
  | [a; b; c] => (a - 0xE0) * 4096 + (b - 0x80) * 64 + (c - 0x80)
  | [a; b; c; d] => (a - 0xF0) * 262144 + (b - 0x80) * 4096 + (c - 0x80) * 64 + (d - 0x80)
  | _ => 0
  end.

Lemma encode_decode c :
  is_char c = true → Forall is_byte c → scalar (decode_char c) ∧ encode_utf8 (decode_char c) = c.
Proof.
  intros Hc Hb. destruct c as [|a [|b [|d [|e [|f c]]]]]; try done; char_bytes;
    cbn [decode_char]; unfold scalar, encode_utf8; inversion Hb as [|? ? Ha _]; unfold is_byte in Ha; subst.
  - rewrite decide_True by done. split; [lia|done].
  - rewrite decide_False, decide_True by lia. split; [lia|]. repeat f_equal;
     Z.to_euclidean_division_equations; lia.
  - rewrite !decide_False, decide_True by lia. split; [lia|]. repeat f_equal;
     Z.to_euclidean_division_equations; lia.
  - rewrite !decide_False by lia. split; [lia|]. repeat f_equal;
     Z.to_euclidean_division_equations; lia.
Qed.

(** The decoder accepts exactly the encodings of sequences of scalar values. *)
Lemma utf8_valid_iff l :
  Forall is_byte l → utf8_valid l = true ↔ ∃ us, Forall scalar us ∧ l = concat (encode_utf8 <$> us).
Proof.
  intros Hb. split.
  - intros Hl. revert l Hl Hb. apply (utf8_ind (λ l, Forall is_byte l → _)).
    + intros _. by exists [].
    + intros c l Hc _ IH [Hbc Hbl]%Forall_app. destruct (IH Hbl) as (us & Hus & ->).
      destruct (encode_decode c Hc Hbc) as [Hs He]. exists (decode_char c :: us).
      split; [by constructor|]. cbn. by rewrite He.
  - intros (us & Hus & ->). clear Hb. induction Hus as [|u us Hu _ IH]; [done|].
    cbn. by rewrite utf8_valid_char by (by apply encode_is_char).
Qed.

(** * Lossy decoding *)
(** The second byte of a long sequence has a range that depends on the first. *)
Lemma is_char3 a b c :
  0xE0 ≤ a ≤ 0xEF →
  is_char [a; b; c] = cont_in (if decide (a = 0xE0) then 0xA0 else 0x80)
                        (if decide (a = 0xED) then 0x9F else 0xBF) [b] && cont c.
Proof.
  intros Ha. apply eq_bool_prop_intro. cbn. unfold cont.
  rewrite !andb_True, !negb_True, !bool_decide_spec. repeat case_decide; lia.
Qed.

Lemma is_char4 a b c d :
  0xF0 ≤ a ≤ 0xF4 →
  is_char [a; b; c; d] = cont_in (if decide (a = 0xF0) then 0x90 else 0x80)
                           (if decide (a = 0xF4) then 0x8F else 0xBF) [b] && cont c && cont d.
Proof.
  intros Ha. apply eq_bool_prop_intro. cbn. unfold cont.
  rewrite !andb_True, !negb_True, !bool_decide_spec. repeat case_decide; lia.
Qed.

Lemma utf8_head_spec a l :
  let '(good, n) := utf8_head (a :: l) in
  (1 ≤ n)%nat ∧ good = is_char (take (char_len a) (a :: l)) ∧ (good = true → n = char_len a).
Proof.
  cbn [utf8_head]. unfold char_len. destruct (decide (a < 0x80)) as [H1|H1].
  { cbn. by rewrite bool_decide_eq_true_2. }
  destruct (decide (0xC2 ≤ a ≤ 0xDF)) as [H2|H2].
  { destruct l as [|b l]; cbn; unfold cont; repeat case_bool_decide; split_and!; (done || lia). }
  destruct (decide (0xE0 ≤ a ≤ 0xEF)) as [H3|H3].
  { destruct l as [|b [|c l]]; cbn [take drop]; [..|rewrite is_char3 by done]; cbn; unfold cont.
    all: repeat case_bool_decide; cbn; split_and!; (done || lia). }
  destruct (decide (0xF0 ≤ a ≤ 0xF4)) as [H4|H4].
  - destruct l as [|b [|c [|d l]]]; cbn [take drop]; [..|rewrite is_char4 by done]; cbn; unfold cont.
    all: repeat case_bool_decide; cbn; split_and!; (done || lia).
  - destruct l as [|b [|c [|d l]]]; cbn; rewrite bool_decide_eq_false_2 by lia; split_and!; (done || lia).
Qed.

Lemma lossy_loop_valid fuel l : utf8_valid (utf8_lossy_loop fuel l) = true.
Proof.
  revert l. induction fuel as [|fuel IH]; intros l; [done|]. destruct l as [|a l]; [done|].
  cbn [utf8_lossy_loop]. pose proof (utf8_head_spec a l) as H.
  destruct (utf8_head (a :: l)) as [[] n]; destruct H as (_ & Hc & Hn).
  - rewrite Hn, utf8_valid_char by done. apply IH.
  - rewrite (utf8_valid_char [0xEF; 0xBF; 0xBD]) by done. apply IH.
Qed.

(** Nothing is replaced in a valid text. *)
Lemma lossy_loop_id fuel l :
  (length l ≤ fuel)%nat → utf8_valid l = true → utf8_lossy_loop fuel l = l.
Proof.
  revert l. induction fuel as [|fuel IH]; intros l Hf Hl; destruct l as [|a l]; try done; [cbn in Hf; lia|].
  cbn [utf8_lossy_loop]. rewrite utf8_valid_cons in Hl. apply andb_true_iff in Hl as [Hc Hl].
  pose proof (utf8_head_spec a l) as H. destruct (utf8_head (a :: l)) as [good n].
  destruct H as (Hn & -> & Heq). rewrite Hc in *. rewrite (Heq eq_refl) in *.
  rewrite IH; [by rewrite take_drop| |done]. rewrite length_drop. cbn [length] in *. lia.
Qed.

Lemma utf8_lossy_bytes fuel l : Forall is_byte l → Forall is_byte (utf8_lossy_loop fuel l).
Proof.
  revert l. induction fuel as [|fuel IH]; intros l Hl; [constructor|]. destruct l as [|a l]; [constructor|].
  cbn [utf8_lossy_loop]. destruct (utf8_head (a :: l)) as [good n]. apply Forall_app. split.
  - destruct good; [by apply Forall_take|]. repeat constructor; lia.
  - apply IH. by apply Forall_drop.
Qed.

(** * Well-formed strings *)
Definition valid_str (s : str) : Prop := utf8_valid (as_bytes s) = true.

#[export] Instance valid_str_dec s : Decision (valid_str s).
Proof. apply _. Defined.

(** An ASCII character. *)
Definition ascii_char (c : ascii) : Prop := Z.of_N (N_of_ascii c) < 0x80.

Lemma as_bytes_app a b : as_bytes (a ++ b) = as_bytes a ++ as_bytes b.
Proof. apply fmap_app. Qed.

Lemma valid_nil : valid_str [].
Proof. done. Qed.

Lemma valid_app a b : valid_str a → valid_str b → valid_str (a ++ b).
Proof. unfold valid_str. intros. by rewrite as_bytes_app, utf8_valid_app. Qed.

Lemma valid_cancel a b : valid_str a → valid_str (a ++ b) → valid_str b.
Proof. unfold valid_str. rewrite as_bytes_app. intros Ha. by rewrite utf8_valid_app. Qed.

Lemma valid_cut a c b : ascii_char c → valid_str (a ++ c :: b) → valid_str a ∧ valid_str b.
Proof. unfold valid_str. rewrite as_bytes_app. intros Hc. by apply utf8_valid_cut. Qed.

Lemma valid_replicate k c : ascii_char c → valid_str (replicate k c).
Proof.
  intros Hc. induction k as [|k IH]; [done|]. unfold valid_str in *. cbn [replicate as_bytes fmap list_fmap].
  by rewrite utf8_valid_ascii.
Qed.

Lemma valid_of_bytes b : Forall is_byte b → utf8_valid b = true → valid_str (of_bytes b).
Proof. unfold valid_str. intros ??. by rewrite as_of_bytes. Qed.

(** What [from_utf8_lossy] makes is well formed, and a well-formed string comes back. *)
Lemma lossy_valid b : Forall is_byte b → valid_str (from_utf8_lossy b).
Proof. intros Hb. apply valid_of_bytes; [by apply utf8_lossy_bytes|apply lossy_loop_valid]. Qed.

Lemma lossy_id s : valid_str s → from_utf8_lossy (as_bytes s) = s.
Proof. intros Hs. unfold from_utf8_lossy. rewrite lossy_loop_id by done. apply of_as_bytes. Qed.

(** Cutting at an ASCII character, as [find], [rfind], [trim] and [split] do. *)
Section cutting.
Context (c : ascii) (Hc : ascii_char c).

Lemma valid_find s i : find c s = Some i → valid_str s → valid_str (take i s) ∧ valid_str (drop (S i) s).
Proof. intros [Hs _]%find_Some Hv. rewrite Hs in Hv. by apply valid_cut in Hv. Qed.

Lemma valid_rfind s i : rfind c s = Some i → valid_str s → valid_str (take i s) ∧ valid_str (drop (S i) s).
Proof. intros [Hs _]%rfind_Some Hv. rewrite Hs in Hv. by apply valid_cut in Hv. Qed.

Lemma valid_trim_start s : valid_str s → valid_str (trim_start c s).
Proof.
  intros Hv. destruct (trim_start_spec c s) as (k & Hs & _). rewrite Hs in Hv.
  by apply valid_cancel in Hv; [|apply valid_replicate].
Qed.

Lemma valid_trim_end s : valid_str s → valid_str (trim_end c s).
Proof.
  intros Hv. destruct (trim_end_spec c s) as ([|k] & Hs & _); cbn in Hs.
  - rewrite app_nil_r in Hs. by rewrite <-Hs.
  - rewrite Hs in Hv. by apply valid_cut in Hv as [? _].
Qed.
End cutting.

Create HintDb utf8.
#[export] Hint Resolve valid_nil valid_app lossy_valid valid_trim_start valid_trim_end : utf8.
#[export] Hint Extern 1 (ascii_char _) => reflexivity : utf8.
