(* ===== verification/Path.v ===== *)
(** Paths (src/src/path.rs).

    [Path] and [PathBuf] are UTF-8 strings; every method is translated on [str].
    The reference view of a path is the list [comps] of its components: split at
    the separators, empty and "." segments dropped. *)
From S2P Require Import Prelude Str Utf8.

Definition SEP : ascii := "/"%char.
Definition DOT : ascii := "."%char.

Implicit Types (s p base child name ext : str).

Definition is_absolute s : bool := starts_with_char SEP s.
Definition is_relative s : bool := negb (is_absolute s).

Definition is_empty_str s : bool := bool_decide (s = []).

Definition file_name s : option str :=
  if is_empty_str s || ends_with_char SEP s then None
  else match rfind SEP s with
       | Some i => Some (drop (i + 1) s)
       | None => Some s
       end.

Definition parent s : option str :=
  let trimmed := trim_end SEP s in
  match rfind SEP trimmed with
  | Some 0%nat => Some (lit "/")
  | Some i => Some (take i trimmed)
  | None => None
  end.

Definition extension s : option str :=
  name ← file_name s;
  match rfind DOT name with
  | Some 0%nat | None => None
  | Some i => Some (drop (i + 1) name)
  end.

Definition file_stem s : option str :=
  name ← file_name s;
  match rfind DOT name with
  | Some 0%nat | None => Some name
  | Some i => Some (take i name)
  end.

(** [PathBuf::push] *)
Definition push s p : str :=
  if starts_with_char SEP p then p
  else
    let s := if negb (is_empty_str s) && negb (ends_with_char SEP s) then s ++ [SEP] else s in
    s ++ p.

Definition join s p : str := push s p.

Definition starts_with s base : bool :=
  let base := trim_end SEP base in
  let me := trim_end SEP s in
  if is_empty_str base then true
  else bool_decide (me = base)
       || default false ((λ r, starts_with_char SEP r) <$> strip_prefix_str base me).

Definition ends_with s child : bool :=
  let child := trim_end SEP (trim_start SEP child) in
  let me := trim_end SEP s in
  bool_decide (me = child)
  || default false ((λ r, ends_with_char SEP r) <$> strip_suffix_str child me).

Definition strip_prefix s base : result str unit :=
  let base := trim_end SEP base in
  if is_empty_str base then Ok s
  else match strip_prefix_str base s with
       | Some rest => Ok (trim_start SEP rest)
       | None => Err tt
       end.

(** [PathBuf::pop]: the new buffer and whether anything was popped. *)
Definition pop s : str * bool :=
  match parent s with
  | Some p => (p, true)
  | None => (s, false)
  end.

Definition set_file_name s name : str :=
  let s := match file_name s with Some _ => (pop s).1 | None => s end in
  push s name.

Definition set_extension s ext : str * bool :=
  match file_stem s with
  | Some stem =>
      let name := if negb (is_empty_str ext) then (stem ++ [DOT]) ++ ext else stem in
      (set_file_name s name, true)
  | None => (s, false)
  end.

Definition with_extension s ext : str := (set_extension s ext).1.

Definition with_file_name s name : str :=
  match parent s with
  | Some p => join p name
  | None => name
  end.

(** ** Components *)
Inductive Component : Type :=
| RootDir
| CurDir
| ParentDir
| Normal (s : str).

#[export] Instance Component_eq_dec : EqDecision Component.
Proof. solve_decision. Defined.

Definition as_str (c : Component) : str :=
  match c with
  | RootDir => lit "/"
  | CurDir => lit "."
  | ParentDir => lit ".."
  | Normal s => s
  end.

Record Components := mkComponents { rest : str; root_pending : bool }.

(** The [loop] of [Components::next]; every turn consumes a byte of [rest]. [None]: no fuel, or a slice out of range. *)
Fixpoint next_loop (fuel : nat) (rest : str) : option (option Component * str) :=
  match fuel with
  | O => None
  | S fuel =>
      let rest := trim_start SEP rest in
      if is_empty_str rest then Some (None, rest)
      else
        let end_ := default (length rest) (find SEP rest) in
        seg ← slice rest 0 (Z.of_nat end_);
        rest ← slice rest (Z.of_nat end_) (Z.of_nat (length rest));
        if decide (seg = lit ".") then next_loop fuel rest
        else if decide (seg = lit "..") then Some (Some ParentDir, rest)
        else Some (Some (Normal seg), rest)
  end.

Definition next (c : Components) : option (option Component * Components) :=
  if root_pending c then Some (Some RootDir, mkComponents (rest c) false)
  else '(o, r) ← next_loop (S (length (rest c))) (rest c); Some (o, mkComponents r false).

Definition components s : Components := mkComponents s (starts_with_char SEP s).

(** Draining the iterator. *)
Fixpoint drain (fuel : nat) (c : Components) : option (list Component) :=
  match fuel with
  | O => None
  | S fuel =>
      '(o, c) ← next c;
      match o with
      | Some x => l ← drain fuel c; Some (x :: l)
      | None => Some []
      end
  end.

Definition collect_components s : option (list Component) :=
  drain (length s + 3) (components s).

(** [Ancestors::next] repeated: the path, its parent, and so on. *)
Fixpoint ancestors_loop (fuel : nat) (nxt : option str) : option (list str) :=
  match nxt with
  | None => Some []
  | Some cur =>
      match fuel with
      | O => None
      | S fuel => l ← ancestors_loop fuel (parent cur); Some (cur :: l)
      end
  end.

Definition ancestors s : option (list str) := ancestors_loop (S (length s)) (Some s).

(** ** Reference view *)
Definition classify (seg : str) : option Component :=
  if decide (seg = []) then None
  else if decide (seg = lit ".") then None
  else if decide (seg = lit "..") then Some ParentDir
  else Some (Normal seg).

Definition body s : list Component := omap classify (split SEP s).

Definition comps s : list Component :=
  (if is_absolute s then [RootDir] else []) ++ body s.

Lemma body_app a b : body (a ++ SEP :: b) = body a ++ body b.
Proof. unfold body. by rewrite split_app, omap_app. Qed.

Lemma body_sep s : body (SEP :: s) = body s.
Proof. apply (body_app []). Qed.

Lemma body_replicate k s : body (replicate k SEP ++ s) = body s.
Proof. induction k as [|k IH]; [done|]. cbn [replicate app]. by rewrite body_sep. Qed.

Lemma body_trailing s k : body (s ++ replicate k SEP) = body s.
Proof.
  destruct k as [|k]; [by rewrite app_nil_r|]. cbn [replicate].
  rewrite body_app. rewrite <-(app_nil_r (replicate k SEP)), body_replicate.
  by rewrite app_nil_r.
Qed.

Lemma body_segment s : SEP ∉ s → body s = option_list (classify s).
Proof. intros. unfold body. rewrite split_none by done. cbn. by destruct (classify s). Qed.

Lemma body_trim_start s : body (trim_start SEP s) = body s.
Proof.
  destruct (trim_start_spec SEP s) as (k & Hs & _). rewrite Hs at 2. by rewrite body_replicate.
Qed.

Lemma body_trim_end s : body (trim_end SEP s) = body s.
Proof.
  destruct (trim_end_spec SEP s) as (k & Hs & _). rewrite Hs at 2. by rewrite body_trailing.
Qed.

Lemma length_trim_start s : (length (trim_start SEP s) ≤ length s)%nat.
Proof.
  destruct (trim_start_spec SEP s) as (k & Hs & _). rewrite Hs at 2.
  rewrite length_app. lia.
Qed.

(** An index that a search returns is in range, and so is the one behind it: the slices at [i] and [i + 1] of
    [file_name], [parent], [extension], [file_stem] and [next] do not panic, and are [take] and [drop]. *)
Lemma found_in_range c s i : find c s = Some i ∨ rfind c s = Some i → (i + 1 ≤ length s)%nat.
Proof.
  intros [[E _]%find_Some|[E _]%rfind_Some]; apply (f_equal length) in E;
    rewrite length_app, length_take in E; cbn [length] in E; lia.
Qed.

Lemma slice_split s n :
  (n ≤ length s)%nat →
  slice s 0 (Z.of_nat n) = Some (take n s) ∧ slice s (Z.of_nat n) (Z.of_nat (length s)) = Some (drop n s).
Proof.
  intros Hn. unfold slice. rewrite !decide_True by lia. split.
  - by rewrite Z.sub_0_r, Nat2Z.id, drop_0.
  - rewrite Nat2Z.id, take_ge; [done|]. rewrite length_drop. lia.
Qed.

(** One turn of [next]: the first component of [body], and a shorter rest. *)
Lemma next_loop_spec fuel r :
  (length r < fuel)%nat →
  ∃ r', next_loop fuel r = Some (head (body r), r') ∧ body r' = tail (body r)
    ∧ (body r ≠ [] → (length r' < length r)%nat).
Proof.
  revert r. induction fuel as [|fuel IH]; intros r Hf; [lia|]. cbn [next_loop].
  pose proof (length_trim_start r) as Hlen. rewrite <-(body_trim_start r).
  destruct (trim_start_spec SEP r) as (_ & _ & Hh).
  generalize dependent (trim_start SEP r). intros s Hlen Hh. unfold is_empty_str.
  destruct (bool_decide_reflect (s = [])) as [->|Hne]; [by exists []|].
  destruct (slice_split s (default (length s) (find SEP s))) as [-> ->].
  { destruct (find SEP s) as [e|] eqn:E; cbn; [|lia]. pose proof (found_in_range SEP s e (or_introl E)). lia. }
  cbn [mbind option_bind].
  assert (∃ seg r', (take (default (length s) (find SEP s)) s) = seg
    ∧ (drop (default (length s) (find SEP s)) s) = r' ∧ (SEP ∉ seg) ∧ seg ≠ []
    ∧ body s = option_list (classify seg) ++ body r' ∧ (length r' < length s)%nat)
    as (seg & r' & -> & -> & Hns & Hseg & Hb & Hl).
  { destruct (find SEP s) as [e|] eqn:E; cbn [default from_option id].
    - destruct (find_Some SEP s e E) as [Hs Hn]. eexists _, _. split_and!; [done..| | |].
      + intros Ht. rewrite Ht in Hs. cbn in Hs. rewrite Hs in Hh. done.
      + rewrite Hs at 1. rewrite body_app, (body_segment (take e s)) by done. f_equal.
        rewrite Hs at 2. rewrite drop_app_length'; [by rewrite body_sep|].
        rewrite length_take. assert (e < length s)%nat; [|lia].
        apply (f_equal length) in Hs. rewrite length_app, length_take in Hs. cbn in Hs. lia.
      + rewrite length_drop. destruct s; [done|]. destruct e; cbn in *; [|lia].
        apply (f_equal (@head ascii)) in Hs. done.
    - apply find_None in E. rewrite take_ge, drop_ge by lia. eexists _, []. split_and!; try done.
      + rewrite body_segment by done. cbn. by rewrite app_nil_r.
      + destruct s; [done|cbn; lia]. }
  unfold classify in Hb. rewrite (decide_False (P := seg = [])) in Hb by done.
  rewrite Hb. repeat case_decide; try done; cbn [option_list app head tail].
  { destruct (IH r') as (r'' & -> & Hr'' & Hl''); [lia|].
    exists r''. split_and!; [done..|]. intros Hn. specialize (Hl'' Hn). lia. }
  all: exists r'; split_and!; try done; lia.
Qed.

Lemma drain_body fuel r :
  (length r + 1 < fuel)%nat → drain fuel (mkComponents r false) = Some (body r).
Proof.
  revert r. induction fuel as [|fuel IH]; intros r Hf; [lia|]. cbn [drain].
  unfold next. cbn [root_pending rest].
  destruct (next_loop_spec (S (length r)) r) as (r' & -> & Hr' & Hl); [lia|].
  cbn [mbind option_bind]. destruct (body r) as [|x l] eqn:E; [done|]. cbn [head].
  rewrite IH by (specialize (Hl ltac:(done)); lia). cbn. by rewrite Hr'.
Qed.

(** Draining [components()] gives the reference list. *)
Lemma collect_components_spec s : collect_components s = Some (comps s).
Proof.
  unfold collect_components, components, comps, is_absolute.
  destruct (starts_with_char SEP s); [|by rewrite drain_body by lia].
  replace (length s + 3)%nat with (S (length s + 2)) by lia.
  cbn [drain next root_pending rest mbind option_bind].
  by rewrite drain_body by lia.
Qed.

(** ** Joining *)
Lemma ends_with_char_spec c s : ends_with_char c s = true ↔ ∃ s', s = s' ++ [c].
Proof.
  unfold ends_with_char. rewrite bool_decide_eq_true. apply last_Some.
Qed.

Lemma is_absolute_app a b : a ≠ [] → is_absolute (a ++ b) = is_absolute a.
Proof. destruct a; [done|]. intros _. done. Qed.

(** What [push] does with a relative path. *)
Lemma push_relative s p :
  is_absolute p = false →
  (s = [] ∧ push s p = p) ∨
  (s ≠ [] ∧ ∃ s', (s = s' ∨ s = s' ++ [SEP]) ∧ push s p = s' ++ SEP :: p).
Proof.
  unfold is_absolute, push, is_empty_str. intros ->.
  destruct (bool_decide_reflect (s = [])) as [->|Hne]; [by left|]. right. split; [done|].
  destruct (ends_with_char SEP s) eqn:E; cbn.
  - apply ends_with_char_spec in E as [s' ->]. exists s'. rewrite <-app_assoc. eauto.
  - exists s. rewrite <-app_assoc. eauto.
Qed.

Lemma body_snoc_sep s : body (s ++ [SEP]) = body s.
Proof. apply (body_trailing s 1). Qed.

Lemma comps_join s p :
  comps (join s p) = if is_absolute p then comps p else comps s ++ comps p.
Proof.
  unfold join. destruct (is_absolute p) eqn:Ep.
  { unfold push. unfold is_absolute in Ep. by rewrite Ep. }
  destruct (push_relative s p Ep) as [[-> ->]|(Hne & s' & Hs & ->)]; [done|].
  unfold comps. rewrite Ep, body_app. cbn [app]. rewrite app_assoc. f_equal.
  destruct Hs as [->| ->].
  - by rewrite is_absolute_app.
  - rewrite body_snoc_sep. destruct s' as [|x s']; [done|].
    by rewrite !is_absolute_app.
Qed.

(** Joining. The components of [a.join(b)] are those of [a] followed by those of [b],
    or those of [b] alone when it is absolute; the iterator yields exactly them. *)
Theorem join_components s p :
  collect_components (join s p)
  = Some (if is_absolute p then comps p else comps s ++ comps p).
Proof. by rewrite collect_components_spec, comps_join. Qed.

(** ** Parents *)
Lemma parent_spec s p :
  parent s = Some p →
  ∃ n, (SEP ∉ n) ∧ n ≠ [] ∧ comps s = comps p ++ option_list (classify n)
    ∧ (length p < length s)%nat ∧ p ≠ []
    ∧ (ends_with_char SEP s = false → file_name s = Some n).
Proof.
  unfold parent. destruct (trim_end_spec SEP s) as (k & Hs & Hl).
  generalize dependent (trim_end SEP s). intros tr Hs Hl.
  destruct (rfind SEP tr) as [i|] eqn:E; [|done].
  pose proof E as Hr. apply rfind_Some in E as [Htr Hn]. set (n := drop (S i) tr) in *.
  assert (n ≠ []) as Hn0.
  { intros H0. rewrite H0 in Htr. rewrite Htr, last_snoc in Hl. done. }
  assert (length s = length (take i tr) + S (length n) + k)%nat as Hlen.
  { rewrite Hs, length_app, length_replicate, Htr at 1. rewrite length_app. cbn. lia. }
  assert (length (take i tr) = i) as Hi.
  { apply length_take_le. apply (f_equal length) in Htr. rewrite length_app in Htr. cbn in Htr.
    rewrite length_take in Htr. lia. }
  assert (length n ≠ 0%nat) by (by destruct n).
  intros Hp. exists n.
  assert (ends_with_char SEP s = false → file_name s = Some n) as Hfile.
  { intros He. unfold file_name, is_empty_str. rewrite He.
    rewrite bool_decide_eq_false_2 by (intros ->; cbn in Hlen; lia). cbn [orb].
    assert (k = 0%nat) as ->.
    { destruct k as [|k]; [done|]. rewrite replicate_S_end, app_assoc in Hs.
      enough (ends_with_char SEP s = true) by congruence.
      apply ends_with_char_spec. eauto. }
    cbn in Hs. rewrite app_nil_r in Hs. rewrite Hs, Hr. by rewrite Nat.add_1_r. }
  assert (body s = body (take i tr) ++ option_list (classify n)) as Hb.
  { rewrite Hs, body_trailing, Htr at 1. by rewrite body_app, (body_segment n). }
  destruct i as [|i]; injection Hp as <-.
  - rewrite take_0 in Hb. cbn in Hb. split_and!; try done; [|cbn; lia].
    unfold comps. rewrite Hb. rewrite take_0 in Htr. cbn in Htr. by rewrite Hs, Htr.
  - assert (take (S i) tr ≠ []) by (intros H0; rewrite H0 in Hi; done).
    split_and!; try done; [|lia]. unfold comps. rewrite Hb, (app_assoc _ _ (option_list _)).
    f_equal. f_equal. rewrite Hs, Htr, <-app_assoc at 1. by rewrite is_absolute_app.
Qed.

Lemma ancestors_loop_spec fuel s :
  (length s < fuel)%nat →
  ∃ l, ancestors_loop fuel (Some s) = Some (s :: l) ∧ Forall (λ a, comps a `prefix_of` comps s) l.
Proof.
  revert s. induction fuel as [|fuel IH]; intros s Hf; [lia|]. cbn [ancestors_loop].
  destruct (parent s) as [p|] eqn:E.
  - destruct (parent_spec s p E) as (n & _ & _ & Hc & Hl & _).
    destruct (IH p) as (l & -> & Hall); [lia|]. cbn. eexists. split; [done|].
    assert (comps p `prefix_of` comps s) by (rewrite Hc; by apply prefix_app_r).
    constructor; [done|]. apply (Forall_impl _ _ _ Hall). intros a Ha. by transitivity (comps p).
  - exists []. split; [by destruct fuel|constructor].
Qed.

(** Ancestors. The iteration ends; it starts with the path itself and every ancestor's
    components are a prefix of the path's. *)
Theorem ancestors_prefixes s :
  ∃ l, ancestors s = Some (s :: l) ∧ Forall (λ a, comps a `prefix_of` comps s) l.
Proof. apply ancestors_loop_spec. lia. Qed.

(** ** File names *)
Lemma ends_with_char_app c a b : b ≠ [] → c ∉ b → ends_with_char c (a ++ b) = false.
Proof.
  intros Hb Hc. apply not_true_is_false. rewrite ends_with_char_spec. intros [s' Hs].
  apply (f_equal last) in Hs. rewrite last_app, last_snoc in Hs.
  destruct (last b) as [x|] eqn:E; [|by apply last_None in E].
  apply last_Some in E as [b' ->]. injection Hs as ->.
  apply Hc, elem_of_app. right. by left.
Qed.

Lemma relative_name n : SEP ∉ n → is_absolute n = false.
Proof.
  intros Hn. unfold is_absolute, starts_with_char. apply bool_decide_eq_false_2.
  destruct n as [|x n]; [done|]. intros [= ->]. by apply Hn; left.
Qed.

Lemma file_name_sep a n : SEP ∉ n → n ≠ [] → file_name (a ++ SEP :: n) = Some n.
Proof.
  intros Hn H0. unfold file_name, is_empty_str.
  rewrite bool_decide_eq_false_2 by (intros H; by destruct a).
  rewrite (cons_middle SEP a n), app_assoc, ends_with_char_app by done. cbn [orb].
  rewrite <-app_assoc. cbn [app]. rewrite rfind_app by done.
  rewrite (cons_middle SEP a n), app_assoc. f_equal. apply drop_app_length'.
  by rewrite length_app.
Qed.

(** After [push] of a file name, [file_name] reads it back. *)
Lemma file_name_push s n : SEP ∉ n → n ≠ [] → file_name (push s n) = Some n.
Proof.
  intros Hn H0.
  destruct (push_relative s n (relative_name n Hn)) as [[-> ->]|(_ & s' & _ & ->)].
  - unfold file_name, is_empty_str. rewrite bool_decide_eq_false_2 by done.
    pose proof (ends_with_char_app SEP [] n H0 Hn) as He. cbn [app] in He. rewrite He. cbn [orb].
    by apply rfind_None in Hn as ->.
  - by apply file_name_sep.
Qed.

(** The stem of a name and what [extension] and [file_stem] read from a name. *)
Definition stem_of (n : str) : str :=
  match rfind DOT n with Some 0%nat | None => n | Some i => take i n end.

Lemma stem_of_spec n : n ≠ [] → stem_of n ≠ [] ∧ (SEP ∉ n → SEP ∉ stem_of n).
Proof.
  intros Hn. unfold stem_of. destruct (rfind DOT n) as [[|i]|] eqn:E; [done| |done].
  split; [by destruct n|]. intros Hs Hin. apply Hs. rewrite <-(take_drop (S i) n).
  apply elem_of_app. by left.
Qed.

Lemma name_with_extension st ext :
  st ≠ [] → DOT ∉ ext → rfind DOT (st ++ DOT :: ext) = Some (length st) ∧ length st ≠ 0%nat.
Proof. intros. split; [by apply rfind_app|by destruct st]. Qed.

(** Extensions. On a path with a parent, [set_extension] replaces the
    extension and nothing else: the new path has that extension, the old file stem and
    the parent's components. *)
Theorem set_extension_correct s p n ext
    (Hp : parent s = Some p) (Hn : file_name s = Some n)
    (Hext : ext ≠ []) (Hd : DOT ∉ ext) (Hs : SEP ∉ ext) :
  let s' := with_extension s ext in
  extension s' = Some ext ∧ file_stem s' = file_stem s
  ∧ comps s' = comps p ++ option_list (classify (stem_of n ++ DOT :: ext)).
Proof.
  destruct (parent_spec s p Hp) as (n' & Hsep & Hn0 & _ & _ & _ & Hfile).
  assert (ends_with_char SEP s = false) as He.
  { unfold file_name in Hn. destruct (ends_with_char SEP s); [|done]. by rewrite orb_true_r in Hn. }
  rewrite Hfile in Hn by done. injection Hn as <-. specialize (Hfile He).
  destruct (stem_of_spec n' Hn0) as [Hst Hst'].
  assert (file_stem s = Some (stem_of n')) as Hfs.
  { unfold file_stem, stem_of. rewrite Hfile. cbn. by destruct (rfind DOT n') as [[|i]|]. }
  assert (with_extension s ext = push p (stem_of n' ++ DOT :: ext)) as ->.
  { unfold with_extension, set_extension. rewrite Hfs. unfold set_file_name, pop.
    rewrite Hfile, Hp. unfold is_empty_str. rewrite bool_decide_eq_false_2 by done. cbn.
    by rewrite <-app_assoc. }
  assert (SEP ∉ stem_of n' ++ DOT :: ext) as Hsn.
  { rewrite elem_of_app, elem_of_cons. intros [?|[?|?]]; [by apply Hst'|done|done]. }
  assert (stem_of n' ++ DOT :: ext ≠ []) by (by destruct (stem_of n')).
  destruct (name_with_extension (stem_of n') ext Hst Hd) as [Hr Hl].
  unfold extension. rewrite Hfs. unfold file_stem. rewrite file_name_push by done.
  cbn [mbind option_bind]. rewrite Hr. destruct (length (stem_of n')) eqn:El; [done|].
  split_and!.
  - f_equal. rewrite cons_middle, app_assoc. apply drop_app_length'.
    rewrite length_app, El. done.
  - by rewrite <-El, take_app_length.
  - pose proof (comps_join p (stem_of n' ++ DOT :: ext)) as Hj. unfold join in Hj.
    rewrite relative_name in Hj by done. rewrite Hj. f_equal. unfold comps.
    rewrite relative_name by done. by apply body_segment.
Qed.

(** ** Prefix tests *)

(** [starts_with] is sound on components: when it holds for a base other than the
    root or the empty path, the base's components are a prefix of the path's, and
    [strip_prefix] returns the remaining ones. *)
Theorem starts_with_sound s base
    (Hb : trim_end SEP base ≠ []) (Hst : starts_with s base = true) :
  comps base `prefix_of` comps s
  ∧ ∃ r, strip_prefix s base = Ok r ∧ comps s = comps base ++ body r.
Proof.
  assert (∀ b, body b = body (trim_end SEP b)) as Hbt by (intros; by rewrite body_trim_end).
  assert (∀ b, trim_end SEP b ≠ [] → is_absolute b = is_absolute (trim_end SEP b)) as Hat.
  { intros b Hne. destruct (trim_end_spec SEP b) as (k & Hs & _).
    rewrite Hs at 1. by rewrite is_absolute_app. }
  unfold starts_with, is_empty_str in Hst. unfold strip_prefix, is_empty_str.
  rewrite bool_decide_eq_false_2 in * by done.
  assert (∃ r k, trim_end SEP s = trim_end SEP base ++ r
    ∧ s = trim_end SEP base ++ r ++ replicate k SEP
    ∧ body s = body base ++ body (r ++ replicate k SEP)) as (r & k & Hme & Hs & Hbs).
  { destruct (trim_end_spec SEP s) as (k & Hs & _).
    apply orb_true_iff in Hst as [Hme%bool_decide_eq_true|Hpre].
    - exists [], k. rewrite app_nil_r. split_and!; [done|by rewrite <-Hme|].
      cbn [app]. rewrite <-(app_nil_r (replicate k SEP)), body_replicate.
      rewrite (Hbt s), Hme, <-Hbt. cbn. by rewrite app_nil_r.
    - destruct (strip_prefix_str _ _) as [r|] eqn:E; [|done]. cbn in Hpre.
      apply strip_prefix_str_Some in E. exists r, k. split_and!; [done| |].
      + by rewrite app_assoc, <-E.
      + unfold starts_with_char in Hpre. apply bool_decide_eq_true in Hpre.
        destruct r as [|x r]; [done|]. injection Hpre as ->. rewrite Hs, E, <-app_assoc.
        cbn [app]. by rewrite body_app, body_sep, <-Hbt. }
  assert (comps s = comps base ++ body (r ++ replicate k SEP)) as Hc.
  { unfold comps. rewrite <-app_assoc, Hbs. f_equal. rewrite (Hat base Hb).
    rewrite Hs. by rewrite is_absolute_app. }
  split; [rewrite Hc; by apply prefix_app_r|].
  assert (strip_prefix_str (trim_end SEP base) s = Some (r ++ replicate k SEP)) as ->.
  { by apply strip_prefix_str_Some. }
  eexists. split; [done|]. by rewrite body_trim_start.
Qed.

(** ** Paths are strings *)
(** The methods that give strings, and what they give. *)
Inductive PathCall : Type :=
| CFileName | CParent | CExtension | CFileStem | CPop | CComponents | CAncestors
| CJoin (p : str) | CStripPrefix (base : str) | CSetFileName (name : str)
| CSetExtension (ext : str) | CWithFileName (name : str).

Definition path_arg (c : PathCall) : str :=
  match c with
  | CJoin p | CStripPrefix p | CSetFileName p | CSetExtension p | CWithFileName p => p
  | _ => []
  end.

Definition path_call (c : PathCall) s : list str :=
  match c with
  | CFileName => option_list (file_name s)
  | CParent => option_list (parent s)
  | CExtension => option_list (extension s)
  | CFileStem => option_list (file_stem s)
  | CPop => [(pop s).1]
  | CComponents => as_str <$> default [] (collect_components s)
  | CAncestors => default [] (ancestors s)
  | CJoin p => [join s p]
  | CStripPrefix base => match strip_prefix s base with Ok r => [r] | Err _ => [] end
  | CSetFileName name => [set_file_name s name]
  | CSetExtension ext => [(set_extension s ext).1]
  | CWithFileName name => [with_file_name s name]
  end.

Lemma valid_file_name s n : valid_str s → file_name s = Some n → valid_str n.
Proof.
  intros Hs. unfold file_name. destruct (_ || _); [done|]. destruct (rfind SEP s) as [i|] eqn:E.
  - intros [= <-]. rewrite Nat.add_1_r. by eapply valid_rfind in E as [_ ?]; eauto with utf8.
  - by intros [= <-].
Qed.

Lemma valid_parent s p : valid_str s → parent s = Some p → valid_str p.
Proof.
  intros Hs. unfold parent. destruct (rfind SEP (trim_end SEP s)) as [i|] eqn:E; [|done].
  eapply valid_rfind in E as [Ht _]; eauto with utf8. by destruct i; intros [= <-].
Qed.

Lemma valid_extension s e : valid_str s → extension s = Some e → valid_str e.
Proof.
  intros Hs. unfold extension. destruct (file_name s) as [n|] eqn:En; [|done]. cbn.
  apply valid_file_name in En; [|done]. destruct (rfind DOT n) as [[|i]|] eqn:E; [done| |done].
  intros [= <-]. rewrite Nat.add_1_r. by eapply valid_rfind in E as [_ ?]; eauto with utf8.
Qed.

Lemma valid_file_stem s e : valid_str s → file_stem s = Some e → valid_str e.
Proof.
  intros Hs. unfold file_stem. destruct (file_name s) as [n|] eqn:En; [|done]. cbn.
  apply valid_file_name in En; [|done].
  destruct (rfind DOT n) as [[|i]|] eqn:E; intros [= <-]; [done| |done].
  by eapply valid_rfind in E as [? _]; eauto with utf8.
Qed.

Lemma valid_push s p : valid_str s → valid_str p → valid_str (push s p).
Proof.
  intros. unfold push. repeat case_match; [done|..]; by repeat apply valid_app.
Qed.

Lemma valid_pop s : valid_str s → valid_str (pop s).1.
Proof. intros Hs. unfold pop. destruct (parent s) eqn:E; [by eapply valid_parent|done]. Qed.

Lemma valid_set_file_name s n : valid_str s → valid_str n → valid_str (set_file_name s n).
Proof. intros. unfold set_file_name. apply valid_push; [|done]. destruct (file_name s); eauto using valid_pop. Qed.

Lemma valid_strip_prefix s base r :
  valid_str s → valid_str base → strip_prefix s base = Ok r → valid_str r.
Proof.
  intros Hs Hb. unfold strip_prefix. destruct (is_empty_str _); [by intros [= <-]|].
  destruct (strip_prefix_str (trim_end SEP base) s) as [x|] eqn:E; [|done]. intros [= <-].
  apply strip_prefix_str_Some in E as ->. eapply valid_cancel in Hs; eauto with utf8.
Qed.

Lemma valid_classify seg c : valid_str seg → classify seg = Some c → valid_str (as_str c).
Proof. intros. unfold classify in *. repeat case_decide; by simplify_eq. Qed.

Lemma valid_segments s : valid_str s → Forall valid_str (split SEP s).
Proof.
  induction s as [s IH] using (induction_ltof1 _ length). intros Hs.
  destruct (find SEP s) as [i|] eqn:E.
  - pose proof (valid_find SEP ltac:(auto with utf8) s i E Hs) as [Hl Hr].
    apply find_Some in E as [Es Hn]. rewrite Es, split_app, split_none by done.
    constructor; [done|]. apply IH; [|done]. unfold ltof. rewrite Es at 2.
    rewrite length_app. cbn. lia.
  - apply find_None in E. rewrite split_none by done. by repeat constructor.
Qed.

Lemma valid_comps s : valid_str s → Forall (λ c, valid_str (as_str c)) (comps s).
Proof.
  intros Hs. unfold comps, body. apply Forall_app. split; [destruct (is_absolute s); by repeat constructor|].
  apply Forall_forall. intros c (seg & Hseg & Hc)%list_elem_of_omap.
  eapply valid_classify; [|done]. pose proof (valid_segments s Hs) as Hall.
  by rewrite Forall_forall in Hall; apply Hall.
Qed.

Lemma valid_ancestors fuel s l :
  valid_str s → ancestors_loop fuel (Some s) = Some l → Forall valid_str l.
Proof.
  revert s l. induction fuel as [|fuel IH]; intros s l Hs; [done|]. cbn.
  destruct (parent s) as [p|] eqn:E.
  - destruct (ancestors_loop fuel (Some p)) as [l'|] eqn:El; [|done]. cbn. intros [= <-].
    constructor; [done|]. eapply IH; [by eapply valid_parent|done].
  - destruct fuel; cbn; intros [= <-]; by repeat constructor.
Qed.

(** C40: paths are strings. Whatever method of [Path] or [PathBuf] is called with well-formed
    strings, every string it gives is well formed: each slice is cut between characters, so
    that no slice of the source panics. *)
Theorem path_utf8 c s (Hs : valid_str s) (Harg : valid_str (path_arg c)) :
  Forall valid_str (path_call c s).
Proof.
  assert (∀ o : option str, (∀ x, o = Some x → valid_str x) → Forall valid_str (option_list o)) as Hopt
    by (intros [x|] Hx; repeat constructor; auto).
  destruct c; cbn [path_call path_arg] in *.
  - apply Hopt. eauto using valid_file_name.
  - apply Hopt. eauto using valid_parent.
  - apply Hopt. eauto using valid_extension.
  - apply Hopt. eauto using valid_file_stem.
  - repeat constructor. by apply valid_pop.
  - rewrite collect_components_spec. apply Forall_fmap. by apply valid_comps.
  - unfold ancestors. destruct (ancestors_loop _ _) eqn:E; [|constructor]. exact (valid_ancestors _ _ _ Hs E).
  - repeat constructor. by apply valid_push.
  - destruct (strip_prefix s base) eqn:E; repeat constructor. exact (valid_strip_prefix _ _ _ Hs Harg E).
  - repeat constructor. by apply valid_set_file_name.
  - repeat constructor. unfold set_extension. destruct (file_stem s) eqn:E; [|done].
    apply valid_file_stem in E; [|done]. apply valid_set_file_name; [done|].
    destruct (negb _); [|done]. by repeat apply valid_app.
  - repeat constructor. unfold with_file_name. destruct (parent s) eqn:E; [|done].
    apply valid_push; [exact (valid_parent _ _ Hs E)|done].
Qed.

(** Where the methods leave [std::path]: a bare name has no parent, so replacing
    its file name appends instead; [strip_prefix] cuts inside a name that
    [starts_with] rejects; every path starts with the root. *)
Theorem path_divergences :
  (∀ s name, SEP ∉ s → s ≠ [] → SEP ∉ name → set_file_name s name = s ++ SEP :: name)
  ∧ with_extension (lit "foo.txt") (lit "md") = lit "foo.txt/foo.md"
  ∧ strip_prefix (lit "foobar") (lit "foo") = Ok (lit "bar")
  ∧ starts_with (lit "foobar") (lit "foo") = false
  ∧ (∀ s, starts_with s (lit "/") = true).
Proof.
  split_and!; try reflexivity. intros s name Hs H0 Hn. unfold set_file_name, pop.
  assert (parent s = None) as ->.
  { unfold parent. rewrite trim_end_id.
    - by apply rfind_None in Hs as ->.
    - intros [s' ->]%last_Some. apply Hs, elem_of_app. right. by left. }
  destruct (push_relative s name (relative_name name Hn)) as [[-> _]|(_ & s' & Hs' & Hp)]; [done|].
  assert (s = s') as ->.
  { destruct Hs' as [?| ->]; [done|]. destruct Hs. apply elem_of_app. right. by left. }
  by destruct (file_name s').
Qed.

(** An instance. *)
Lemma set_extension_correct_witness :
  extension (with_extension (lit "/var/log.old/app.tar.gz") (lit "txt")) = Some (lit "txt")
  ∧ file_stem (with_extension (lit "/var/log.old/app.tar.gz") (lit "txt")) = Some (lit "app.tar").
Proof.
  destruct (set_extension_correct (lit "/var/log.old/app.tar.gz") (lit "/var/log.old")
              (lit "app.tar.gz") (lit "txt")) as (H1 & H2 & _);
    [reflexivity|reflexivity|done|apply (bool_decide_unpack _); reflexivity..|].
  by split.
Defined.

(** An instance. *)
Lemma starts_with_sound_witness :
  starts_with (lit "/usr/./lib//x") (lit "/usr/") = true
  ∧ comps (lit "/usr/") `prefix_of` comps (lit "/usr/./lib//x").
Proof.
  split; [reflexivity|].
  by apply (starts_with_sound (lit "/usr/./lib//x") (lit "/usr/")).
Defined.

(** Witness of C40: a path with two-byte characters around its separators. *)
Lemma path_utf8_witness :
  Forall valid_str (path_call CComponents (of_bytes [0xC3; 0xA9; 0x2F; 0xC3; 0xBC; 0x2E; 0x63])).
Proof. apply path_utf8; vm_compute; reflexivity. Defined.
