(* ===== verification/Io.v ===== *)
(** Errors, the [Read]/[Write] traits and raw descriptors (src/src/io.rs).

    A reader maps a buffer length to the bytes it put at the front of the buffer; a
    writer maps the bytes offered to how many it took.  [None] is an operation that
    never returns (or panics), so the loops of the source are total functions with
    fuel, and the theorems give the fuel that is enough.

    [stream] says what a reader will deliver before it ends; [Sink] is the contract a
    writer promises to its clients: what it has taken so far is a log that only grows. *)
From S2P Require Import Prelude.

Inductive ErrorKind : Set :=
| NotFound | PermissionDenied | ConnectionRefused | ConnectionReset | ConnectionAborted
| NotConnected | AddrInUse | AddrNotAvailable | BrokenPipe | AlreadyExists | WouldBlock
| InvalidInput | InvalidData | TimedOut | WriteZero | Interrupted | UnexpectedEof
| Unsupported | OutOfMemory | Other.

#[export] Instance ErrorKind_eq_dec : EqDecision ErrorKind.
Proof. solve_decision. Defined.

(** [Repr]: the payload of a custom error is its message. *)
Inductive Error : Set :=
| Os (c : Z)
| Simple (k : ErrorKind)
| Custom (k : ErrorKind) (msg : string).

#[export] Instance Error_eq_dec : EqDecision Error.
Proof. solve_decision. Defined.

Definition errno_kind (t : Target) (c : Z) : ErrorKind :=
  match c with
  | 1 => PermissionDenied
  | 2 => NotFound
  | 4 => Interrupted
  | 13 => PermissionDenied
  | 17 => AlreadyExists
  | 22 => InvalidInput
  | 32 => BrokenPipe
  | _ =>
      if is_macos t then
        match c with
        | 35 => WouldBlock
        | 61 => ConnectionRefused
        | 54 => ConnectionReset
        | 53 => ConnectionAborted
        | 57 => NotConnected
        | 48 => AddrInUse
        | 49 => AddrNotAvailable
        | 60 => TimedOut
        | 78 => Unsupported
        | _ => Other
        end
      else
        match c with
        | 11 => WouldBlock
        | 111 => ConnectionRefused
        | 104 => ConnectionReset
        | 103 => ConnectionAborted
        | 107 => NotConnected
        | 98 => AddrInUse
        | 99 => AddrNotAvailable
        | 110 => TimedOut
        | 38 => Unsupported
        | _ => Other
        end
  end.

Definition raw_os_error (e : Error) : option Z :=
  match e with Os c => Some c | _ => None end.

Definition kind (t : Target) (e : Error) : ErrorKind :=
  match e with
  | Os c => errno_kind t c
  | Simple k => k
  | Custom k _ => k
  end.

(** [Err(ref e) if e.kind() == ErrorKind::Interrupted] *)
Definition is_interrupted (t : Target) (e : Error) : bool :=
  bool_decide (kind t e = Interrupted).

(** ** The traits *)
Class Read (R : Type) := read : R → nat → option (result (list Z) Error * R).

Class Write (W : Type) := {
  write : W → list Z → option (result Z Error * W);
  flush : W → option (result unit Error * W);
}.

(** The first non-empty buffer of a vectored operation. *)
Definition first_nonempty {A} (len : A → nat) (bufs : list A) : option A :=
  head (filter (λ b, len b ≠ 0%nat) bufs).

Section provided.
Context (t : Target).

Section read_methods.
Context {R : Type} `{Read R}.
Implicit Types r : R.

(** The default [read_vectored]: [lens] are the lengths of the buffers. *)
Definition read_vectored r (lens : list nat) : option (result (list Z) Error * R) :=
  match first_nonempty id lens with
  | Some n => read r n
  | None => read r 0
  end.

Fixpoint read_to_end_loop (fuel : nat) r (buf : list Z)
    : option (result unit Error * list Z * R) :=
  match fuel with
  | O => None
  | S fuel =>
      '(res, r) ← read r (Z.to_nat 4096);
      match res with
      | Ok [] => Some (Ok tt, buf, r)
      | Ok d => read_to_end_loop fuel r (buf ++ d)
      | Err e => if is_interrupted t e then read_to_end_loop fuel r buf else Some (Err e, buf, r)
      end
  end.

Definition read_to_end (fuel : nat) r (buf : list Z)
    : option (result Z Error * list Z * R) :=
  let start := Z.of_nat (length buf) in
  '(res, buf, r) ← read_to_end_loop fuel r buf;
  Some (map_ok (λ _, Z.of_nat (length buf) - start) res, buf, r).

(** [read_exact] into a buffer of which [want] bytes are still to fill; the result
    also gives the bytes it has put there. *)
Fixpoint read_exact (fuel : nat) r (want : nat) (got : list Z)
    : option (result unit Error * list Z * R) :=
  if decide (want = 0%nat) then Some (Ok tt, got, r)
  else
    match fuel with
    | O => None
    | S fuel =>
        '(res, r) ← read r want;
        match res with
        | Ok [] => Some (Err (Simple UnexpectedEof), got, r)
        | Ok d =>
            if decide (length d ≤ want)%nat
            then read_exact fuel r (want - length d) (got ++ d) else None
        | Err e =>
            if is_interrupted t e then read_exact fuel r want got else Some (Err e, got, r)
        end
    end.
End read_methods.

Section write_methods.
Context {W : Type} `{Write W}.
Implicit Types w : W.

Definition write_vectored w (bufs : list (list Z)) : option (result Z Error * W) :=
  match first_nonempty length bufs with
  | Some b => write w b
  | None => write w []
  end.

Fixpoint write_all (fuel : nat) w (buf : list Z) : option (result unit Error * W) :=
  if decide (buf = []) then Some (Ok tt, w)
  else
    match fuel with
    | O => None
    | S fuel =>
        '(res, w) ← write w buf;
        match res with
        | Ok n =>
            if decide (n = 0) then Some (Err (Simple WriteZero), w)
            else
              if decide (n ≤ Z.of_nat (length buf))
              then write_all fuel w (drop (Z.to_nat n) buf) else None
        | Err e => if is_interrupted t e then write_all fuel w buf else Some (Err e, w)
        end
    end.

(** What [core::fmt::write] sends to its sink: pieces of text, or a formatting
    failure of an argument's own. *)
Inductive FmtPiece : Type :=
| Piece (s : list Z)
| FmtFail.

Fixpoint write_fmt (fuel : nat) w (args : list FmtPiece) : option (result unit Error * W) :=
  match args with
  | [] => Some (Ok tt, w)
  | FmtFail :: _ => Some (Err (Simple Other), w)
  | Piece s :: args =>
      '(res, w) ← write_all fuel w s;
      match res with
      | Ok _ => write_fmt fuel w args
      | Err e => Some (Err e, w)
      end
  end.
End write_methods.

(** [io::copy]: [fuel] bounds the reads, [wfuel] the writes of each [write_all]. *)
Fixpoint copy {R W} `{Read R, Write W} (fuel wfuel : nat) (r : R) (w : W) (total : Z)
    : option (result Z Error * R * W) :=
  match fuel with
  | O => None
  | S fuel =>
      '(res, r) ← read r (Z.to_nat 8192);
      match res with
      | Ok [] => Some (Ok total, r, w)
      | Ok d =>
          '(res, w) ← write_all wfuel w d;
          match res with
          | Ok _ => copy fuel wfuel r w (wrap 64 (total + Z.of_nat (length d)))
          | Err e => Some (Err e, r, w)
          end
      | Err e => if is_interrupted t e then copy fuel wfuel r w total else Some (Err e, r, w)
      end
  end.
End provided.
Arguments FmtPiece : clear implicits.

(** ** Raw descriptors *)

(** The system calls on a descriptor, on a kernel state [κ]: the bytes read or the
    number written, or the error number. *)
Class FdCalls (κ : Type) := {
  sys_read : κ → Z → nat → result (list Z) Z * κ;
  sys_readv : κ → Z → list nat → result (list Z) Z * κ;
  sys_write : κ → Z → list Z → result Z Z * κ;
  sys_writev : κ → Z → list (list Z) → result Z Z * κ;
  sys_lseek : κ → Z → Z → Z → result Z Z * κ;
}.

(** [loop { match call { Err(Errno(4)) => continue, other => return other } }] *)
Fixpoint retry {κ A} (fuel : nat) (call : κ → result A Z * κ) (k : κ)
    : option (result A Z * κ) :=
  match fuel with
  | O => None
  | S fuel =>
      match call k with
      | (Err 4, k) => retry fuel call k
      | other => Some other
      end
  end.

Inductive SeekFrom : Type :=
| Start (n : Z)
| End (n : Z)
| Current (n : Z).

Section fd.
Context {κ : Type} `{FdCalls κ}.

(** A descriptor with the kernel it belongs to and a bound on interruptions. *)
Record Fd := mkFd { fd_num : Z; fd_kernel : κ; fd_patience : nat }.

Definition os_result {A} (fd : Fd) (o : option (result A Z * κ))
    : option (result A Error * Fd) :=
  '(res, k) ← o; Some (map_err Os res, mkFd (fd_num fd) k (fd_patience fd)).

#[export] Instance fd_read : Read Fd := λ fd n,
  os_result fd (retry (fd_patience fd) (λ k, sys_read k (fd_num fd) n) (fd_kernel fd)).

Definition fd_read_vectored (fd : Fd) (lens : list nat) : option (result (list Z) Error * Fd) :=
  os_result fd (retry (fd_patience fd) (λ k, sys_readv k (fd_num fd) lens) (fd_kernel fd)).

#[export] Instance fd_write : Write Fd := {
  write := λ fd buf,
    os_result fd (retry (fd_patience fd) (λ k, sys_write k (fd_num fd) buf) (fd_kernel fd));
  flush := λ fd, Some (Ok tt, fd);
}.

Definition fd_write_vectored (fd : Fd) (bufs : list (list Z)) : option (result Z Error * Fd) :=
  os_result fd (retry (fd_patience fd) (λ k, sys_writev k (fd_num fd) bufs) (fd_kernel fd)).

(** [SEEK_SET], [SEEK_CUR] and [SEEK_END] are 0, 1 and 2 on every target. *)
Definition fd_seek (fd : Fd) (pos : SeekFrom) : result Z Error * Fd :=
  let '(off, whence) :=
    match pos with
    | Start n => (to_signed 64 n, 0)
    | End n => (n, 2)
    | Current n => (n, 1)
    end in
  let '(res, k) := sys_lseek (fd_kernel fd) (fd_num fd) off whence in
  (map_err Os res, mkFd (fd_num fd) k (fd_patience fd)).

Fixpoint write_all_raw (fuel : nat) (n : Z) (k : κ) (buf : list Z) : option (result unit Z * κ) :=
  if decide (buf = []) then Some (Ok tt, k)
  else
    match fuel with
    | O => None
    | S fuel =>
        match sys_write k n buf with
        | (Ok c, k) =>
            if decide (c = 0) then Some (Err 5, k)
            else if decide (c ≤ Z.of_nat (length buf))
                 then write_all_raw fuel n k (drop (Z.to_nat c) buf) else None
        | (Err 4, k) => write_all_raw fuel n k buf
        | (Err e, k) => Some (Err e, k)
        end
    end.
End fd.
Arguments Fd : clear implicits.

(** ** What readers deliver *)
Section streams.
Context (t : Target) {R : Type} `{Read R}.
Implicit Types (r : R) (s : list Z).

(** Within [k] reads of positive length, [r] delivers the bytes [s] and then ends: with
    end of file ([fin = None]) or with the error [fin]; interruptions may come in
    between.  How the bytes are cut into reads is up to the reader. *)
Fixpoint stream (k : nat) r s (fin : option Error) : Prop :=
  match k with
  | O => False
  | S k => ∀ n, (0 < n)%nat →
      match read r n with
      | Some (Ok d, r') =>
          (length d ≤ n)%nat ∧
          (if decide (d = []) then s = [] ∧ fin = None
           else ∃ s', s = d ++ s' ∧ stream k r' s' fin)
      | Some (Err e, r') =>
          if is_interrupted t e then stream k r' s fin else s = [] ∧ fin = Some e
      | None => False
      end
  end.

Lemma stream_S k r s fin : stream k r s fin → stream (S k) r s fin.
Proof.
  revert r s. induction k as [|k IH]; intros r s Hs; [done|].
  intros n Hn. specialize (Hs n Hn). destruct (read r n) as [[[d|e] r']|]; [|auto..].
  - destruct Hs as [Hl Hs]. split; [done|]. destruct (decide (d = [])); [done|].
    destruct Hs as (s' & -> & ?). eauto.
  - destruct (is_interrupted t e); auto.
Qed.

Lemma stream_le k k' r s fin : (k ≤ k')%nat → stream k r s fin → stream k' r s fin.
Proof. intros Hle Hs. induction Hle; auto using stream_S. Qed.

(** The result a whole-input operation returns when the input ends with [fin]. *)
Definition ended {A} (a : A) (fin : option Error) : result A Error :=
  match fin with None => Ok a | Some e => Err e end.

Lemma read_to_end_loop_stream k r s fin buf :
  stream k r s fin → ∃ r', read_to_end_loop t k r buf = Some (ended tt fin, buf ++ s, r').
Proof.
  revert r s buf. induction k as [|k IH]; intros r s buf Hs; [done|].
  cbn [read_to_end_loop]. specialize (Hs (Z.to_nat 4096) ltac:(lia)).
  destruct (read r (Z.to_nat 4096)) as [[[d|e] r']|]; cbn [mbind option_bind]; [| |done].
  - destruct Hs as [_ Hs]. destruct d as [|x d].
    + destruct Hs as [-> ->]. rewrite app_nil_r. eauto.
    + destruct Hs as (s' & -> & Hs). rewrite (app_assoc buf). eauto.
  - destruct (is_interrupted t e); [eauto|]. destruct Hs as [-> ->]. rewrite app_nil_r. eauto.
Qed.

Lemma read_to_end_stream k r s fin buf :
  stream k r s fin →
  ∃ r', read_to_end t k r buf = Some (ended (Z.of_nat (length s)) fin, buf ++ s, r').
Proof.
  intros Hs. destruct (read_to_end_loop_stream k r s fin buf Hs) as [r' Hr]. exists r'.
  unfold read_to_end. rewrite Hr. cbn. rewrite length_app. do 3 f_equal.
  destruct fin; cbn; [done|]. f_equal. lia.
Qed.

(** [read_to_end] returns, appends exactly what the reader delivers, and reports the
    number of bytes, or the reader's error with the bytes before it already stored. *)
Theorem read_to_end_correct k r s fin buf (Hs : stream k r s fin) :
  ∃ r', read_to_end t k r buf = Some (ended (Z.of_nat (length s)) fin, buf ++ s, r').
Proof. by apply read_to_end_stream. Qed.

(** Reading exactly [want] bytes of a stream: full, or ended too early. *)
Definition exact_post (want : nat) (got s : list Z) (fin : option Error) (k : nat)
    (o : option (result unit Error * list Z * R)) : Prop :=
  if decide (want ≤ length s)%nat then
    ∃ r' k', o = Some (Ok tt, got ++ take want s, r') ∧ (k' ≤ k)%nat
             ∧ stream k' r' (drop want s) fin
  else ∃ r', o = Some (Err (default (Simple UnexpectedEof) fin), got ++ s, r').

Lemma read_exact_stream k r s fin want got :
  stream k r s fin → exact_post want got s fin k (read_exact t k r want got).
Proof.
  revert r s want got. induction k as [|k IH]; intros r s want got Hs; [done|].
  unfold exact_post. cbn [read_exact]. destruct (decide (want = 0%nat)) as [->|Hw].
  { rewrite decide_True by lia. cbn [take drop]. rewrite app_nil_r. eauto. }
  specialize (Hs want ltac:(lia)).
  destruct (read r want) as [[[d|e] r']|]; cbn [mbind option_bind]; [| |done].
  - destruct Hs as [Hl Hs]. destruct d as [|x d].
    { destruct Hs as [-> ->]. rewrite decide_False by (cbn; lia). cbn. rewrite app_nil_r. eauto. }
    destruct Hs as (s' & -> & Hs).
    rewrite (decide_True (P := (length (x :: d) ≤ want)%nat)) by done.
    specialize (IH r' s' (want - length (x :: d))%nat (got ++ x :: d) Hs). unfold exact_post in IH.
    rewrite length_app.
    destruct (decide (want - length (x :: d) ≤ length s')%nat).
    + destruct IH as (r'' & k' & -> & Hk & Hst). rewrite decide_True by lia.
      exists r'', k'. rewrite take_app_ge, drop_app_ge by done. rewrite <-app_assoc. eauto.
    + destruct IH as (r'' & ->). rewrite decide_False by lia. exists r''. by rewrite <-app_assoc.
  - destruct (is_interrupted t e).
    + specialize (IH r' s want got Hs). unfold exact_post in IH.
      destruct (decide (want ≤ length s)%nat); [|done].
      destruct IH as (r'' & k' & -> & Hk & Hst). exists r'', k'. eauto.
    + destruct Hs as [-> ->]. rewrite decide_False by (cbn; lia). rewrite app_nil_r. eauto.
Qed.

(** [read_exact] returns; it fills the buffer with the next bytes and leaves the
    rest of the stream in place, or fails with [UnexpectedEof] (or the
    reader's own error) exactly when fewer bytes are left than asked for. *)
Theorem read_exact_correct k r s fin want (Hs : stream k r s fin) :
  ((want ≤ length s)%nat → ∃ r' k',
     read_exact t k r want [] = Some (Ok tt, take want s, r') ∧ stream k' r' (drop want s) fin)
  ∧ ((length s < want)%nat → ∃ r',
     read_exact t k r want [] = Some (Err (default (Simple UnexpectedEof) fin), s, r')).
Proof.
  pose proof (read_exact_stream k r s fin want [] Hs) as Hp. unfold exact_post in Hp.
  split; intros Hw.
  - rewrite decide_True in Hp by done. naive_solver.
  - rewrite decide_False in Hp by lia. naive_solver.
Qed.
End streams.

(** ** What writers promise *)
Class Sink (t : Target) (W : Type) `{Write W} := {
  log : W → list Z;        (* every byte taken so far *)
  patience : W → nat;      (* a bound on the interruptions to come *)
  write_spec : ∀ w b, b ≠ [] → ∃ res w', write w b = Some (res, w') ∧
    match res with
    | Ok n => 0 ≤ n ≤ Z.of_nat (length b) ∧ log w' = log w ++ take (Z.to_nat n) b
              ∧ (patience w' ≤ patience w)%nat
    | Err e => log w' = log w ∧ (patience w' ≤ patience w)%nat
               ∧ (is_interrupted t e = true → patience w' < patience w)%nat
    end;
}.

Section writers.
Context (t : Target) {W : Type} `{Sink t W}.
Implicit Types w : W.

Lemma write_all_spec fuel w buf :
  (length buf + patience w ≤ fuel)%nat →
  ∃ res w', write_all t fuel w buf = Some (res, w') ∧ (patience w' ≤ patience w)%nat ∧
    match res with
    | Ok _ => log w' = log w ++ buf
    | Err e => is_interrupted t e = false ∧
               ∃ n, (n < length buf)%nat ∧ log w' = log w ++ take n buf
    end.
Proof.
  revert w buf. induction fuel as [|fuel IH]; intros w buf Hf.
  { destruct buf; [|cbn in Hf; lia]. cbn. exists (Ok tt), w. by rewrite app_nil_r. }
  cbn [write_all]. destruct (decide (buf = [])) as [->|Hne].
  { exists (Ok tt), w. by rewrite app_nil_r. }
  assert (0 < length buf)%nat by (destruct buf; [done|cbn; lia]).
  destruct (write_spec w buf Hne) as (res & w1 & -> & Hres). cbn [mbind option_bind].
  destruct res as [n|e].
  - destruct Hres as (Hn & Hlog & Hp). destruct (decide (n = 0)) as [->|Hn0].
    { exists (Err (Simple WriteZero)), w1. split_and!; [done..|]. exists 0%nat. by split. }
    rewrite decide_True by lia.
    destruct (IH w1 (drop (Z.to_nat n) buf)) as (res & w' & Hw & Hp' & Hr).
    { rewrite length_drop. lia. }
    exists res, w'. split_and!; [done|lia|]. destruct res as [u|e].
    + by rewrite Hr, Hlog, <-app_assoc, take_drop.
    + destruct Hr as (He & m & Hm & Hr). rewrite length_drop in Hm. split; [done|].
      exists (Z.to_nat n + m)%nat. split; [lia|].
      rewrite Hr, Hlog, <-app_assoc. f_equal.
      rewrite <-(take_drop (Z.to_nat n) buf) at 3. 
      rewrite take_app_ge, length_take_le by (rewrite ?length_take; lia).
      f_equal. f_equal. lia.
  - destruct Hres as (Hlog & Hp & Hpi). destruct (is_interrupted t e) eqn:Ei.
    + specialize (Hpi eq_refl). destruct (IH w1 buf) as (res & w' & -> & Hp' & Hr); [lia|].
      exists res, w'. rewrite Hlog in Hr. split_and!; [done|lia|done].
    + exists (Err e), w1. split_and!; [done|done|done|]. exists 0%nat. cbn.
      by rewrite app_nil_r.
Qed.

(** [write_all] returns; on success the whole buffer has been taken, in order, and on
    failure a proper prefix of it and the error is not an interruption. *)
Theorem write_all_correct w buf :
  ∃ res w', write_all t (length buf + patience w) w buf = Some (res, w') ∧
    match res with
    | Ok _ => log w' = log w ++ buf
    | Err e => is_interrupted t e = false ∧
               ∃ n, (n < length buf)%nat ∧ log w' = log w ++ take n buf
    end.
Proof. destruct (write_all_spec _ w buf ltac:(done)) as (res & w' & ? & _ & ?). eauto. Qed.

(** The writer turns a write down: an error that is no interruption, or no byte taken. *)
Definition refuses w (b : list Z) (e : Error) w' : Prop :=
  write w b = Some (Err e, w') ∧ is_interrupted t e = false
  ∨ write w b = Some (Ok 0, w') ∧ e = Simple WriteZero.

(** One state of the writer leads to another by writes. *)
Definition writes : W → W → Prop := rtc (λ w w', ∃ b res, write w b = Some (res, w')).

(** What a failed [write_all] or [copy] of [s] reports: the writer took [n] bytes, and then refused the next ones. *)
Definition refused w (s : list Z) (n : nat) (e : Error) w' : Prop :=
  (n < length s)%nat ∧ log w' = log w ++ take n s
  ∧ ∃ w1 b, writes w w1 ∧ log w1 = log w' ∧ b ≠ [] ∧ b `prefix_of` drop n s ∧ refuses w1 b e w'.

Lemma refused_later w w1 s m n e w' :
  writes w w1 → (m ≤ length s)%nat → log w1 = log w ++ take m s →
  refused w1 (drop m s) n e w' → refused w s (m + n) e w'.
Proof.
  intros Hw Hm Hlog (Hn & Hl & w2 & b & Hw2 & Hl2 & Hb & Hp & Hr). rewrite length_drop in Hn.
  split_and!; [lia| |].
  - rewrite Hl, Hlog, <-app_assoc. f_equal.
    rewrite <-(take_drop m s) at 3. by rewrite <-(length_take_le s m) at 3 by done; rewrite take_app_add.
  - exists w2, b. split_and!; [by etrans|done|done|by rewrite <-drop_drop|done].
Qed.

Lemma write_all_refused fuel w buf e w' :
  write_all t fuel w buf = Some (Err e, w') → ∃ n, refused w buf n e w'.
Proof.
  revert w buf. induction fuel as [|fuel IH]; intros w buf; cbn [write_all]; (case_decide as Hne; [done|]); [done|].
  assert (0 < length buf)%nat by (destruct buf; [done|cbn; lia]).
  destruct (write_spec w buf Hne) as (res & w1 & Hw & Hres). rewrite Hw. cbn [mbind option_bind].
  assert (writes w w1) as Hw1 by (apply rtc_once; eauto).
  assert (∀ e0, log w1 = log w → refuses w buf e0 w1 → refused w buf 0 e0 w1) as Hnow.
  { intros e0 Hl Hr. split_and!; [lia|by rewrite app_nil_r|]. exists w, buf. split_and!; try done. }
  destruct res as [n|e1].
  - destruct Hres as (Hn & Hlog & _). destruct (decide (n = 0)) as [->|Hn0].
    { intros ?; simplify_eq. exists 0%nat. apply Hnow; [by rewrite Hlog, app_nil_r|by right]. }
    rewrite decide_True by lia. intros (m & Hm)%IH. exists (Z.to_nat n + m)%nat.
    by apply (refused_later w w1); [|lia|..].
  - destruct Hres as (Hlog & _). destruct (is_interrupted t e1) eqn:Ei.
    + intros (m & Hm)%IH. exists (0 + m)%nat. apply (refused_later w w1); [done|lia|by rewrite app_nil_r|done].
    + intros ?; simplify_eq. exists 0%nat. apply Hnow; [done|by left].
Qed.

(** A successful [write_all] is a sequence of writes. *)
Lemma write_all_writes fuel w buf res w' : write_all t fuel w buf = Some (res, w') → writes w w'.
Proof.
  revert w buf. induction fuel as [|fuel IH]; intros w buf; cbn [write_all];
    (case_decide; [intros ?; simplify_eq; apply rtc_refl|]); [done|].
  destruct (write w buf) as [[r w1]|] eqn:Hw; cbn [mbind option_bind]; [|done].
  assert (writes w w1) as Hw1 by (apply rtc_once; eauto).
  intros Hr. repeat case_match; simplify_eq; try done; (etrans; [exact Hw1|]); eauto.
Qed.

Lemma copy_stream {R} `{Read R} k wfuel (r : R) w s fin total :
  stream t k r s fin → (Z.to_nat 8192 + patience w ≤ wfuel)%nat →
  0 ≤ total → total + Z.of_nat (length s) < 2 ^ 64 →
  ∃ res r' w', copy t k wfuel r w total = Some (res, r', w')
    ∧ (res = ended (total + Z.of_nat (length s)) fin ∧ log w' = log w ++ s
       ∨ ∃ e n, res = Err e ∧ refused w s n e w').
Proof.
  revert r w s total. induction k as [|k IH]; intros r w s total Hs Hw Htot Hmax; [done|].
  cbn [copy]. specialize (Hs (Z.to_nat 8192) ltac:(lia)).
  destruct (read r (Z.to_nat 8192)) as [[[d|e] r']|]; cbn [mbind option_bind]; [| |done].
  - destruct Hs as [Hl Hs]. destruct d as [|x d].
    { destruct Hs as [-> ->]. eexists _, _, _. split; [done|].
      left. cbn. by rewrite Z.add_0_r, app_nil_r. }
    destruct Hs as (s' & -> & Hs).
    destruct (write_all_spec wfuel w (x :: d)) as (res & w1 & Ew & Hp & Hr); [lia|]. rewrite Ew.
    cbn [mbind option_bind]. rewrite length_app in *. destruct res as [u|e].
    + rewrite wrap_small by lia.
      destruct (IH r' w1 s' (total + Z.of_nat (length (x :: d))) Hs)
        as (res & r'' & w' & -> & Hres); [lia..|].
      exists res, r'', w'. split; [done|].
      destruct Hres as [[-> Hlog]|(e & n & -> & Hn)]; [left|right].
      * split; [f_equal; lia|]. by rewrite Hlog, Hr, <-app_assoc.
      * exists e, (length (x :: d) + n)%nat. split; [done|].
        apply (refused_later w w1); [by eapply write_all_writes|rewrite length_app; lia|..].
        -- by rewrite Hr, take_app_length.
        -- by rewrite drop_app_length.
    + apply write_all_refused in Ew as (n & Hn & Hlog & w2 & b & Hw2 & Hl2 & Hb & Hpre & Href).
      eexists _, _, _. split; [done|]. right. exists e, n. split; [done|]. split_and!.
      * rewrite length_app. lia.
      * by rewrite take_app_le by lia.
      * exists w2, b. split_and!; try done. rewrite drop_app_le by lia. by apply prefix_app_r.
  - destruct (is_interrupted t e); [by apply IH|]. destruct Hs as [-> ->].
    eexists _, _, _. split; [done|]. left. by rewrite app_nil_r.
Qed.

(** C25: [io::copy] returns. Either it has copied exactly the stream and reports its length (or the reader's error),
    or the writer refused a write ([Err], or a write of no byte): then the writer's error is what is reported,
    what the writer took before is a proper prefix of the stream, and what it refused is the bytes that come next. *)
Theorem copy_correct {R} `{Read R} k wfuel (r : R) w s fin
    (Hs : stream t k r s fin) (Hw : (Z.to_nat 8192 + patience w ≤ wfuel)%nat)
    (Hlen : Z.of_nat (length s) < 2 ^ 64) :
  ∃ res r' w', copy t k wfuel r w 0 = Some (res, r', w')
    ∧ (res = ended (Z.of_nat (length s)) fin ∧ log w' = log w ++ s
       ∨ ∃ e n, res = Err e ∧ refused w s n e w').
Proof. by apply (copy_stream k wfuel r w s fin 0). Qed.

(** [write_fmt] over sinks: the pieces go out in order up to the first failure. *)
Lemma write_fmt_spec fuel w args :
  (∀ s, Piece s ∈ args → (length s + patience w ≤ fuel)%nat) →
  ∃ res w', write_fmt t fuel w args = Some (res, w') ∧
    match res with
    | Ok _ => ∃ ps, args = Piece <$> ps ∧ log w' = log w ++ concat ps
    | Err _ => ∃ done_, log w' = log w ++ done_
    end.
Proof.
  revert w. induction args as [|[s|] args IH]; intros w Hf.
  - exists (Ok tt), w. split; [done|]. exists []. by rewrite app_nil_r.
  - cbn [write_fmt]. destruct (write_all_spec fuel w s) as (res & w1 & -> & Hp & Hr).
    { apply Hf. by left. }
    cbn [mbind option_bind]. destruct res as [u|e].
    + destruct (IH w1) as (res & w' & -> & Hres).
      { intros s' Hs'. specialize (Hf s' ltac:(by right)). lia. }
      exists res, w'. split; [done|]. destruct res.
      * destruct Hres as (ps & -> & Hlog). exists (s :: ps). by rewrite Hlog, Hr, <-app_assoc.
      * destruct Hres as (d & Hlog). exists (s ++ d). by rewrite Hlog, Hr, <-app_assoc.
    + destruct Hr as (_ & n & _ & Hr). eexists _, _. split; [done|]. cbn. eauto.
  - eexists _, w. split; [done|]. cbn. exists []. by rewrite app_nil_r.
Qed.
End writers.

(** ** Descriptors hide interruptions *)
Lemma errno_interrupted t c : errno_kind t c = Interrupted ↔ c = 4.
Proof.
  split; [|by intros ->]. unfold errno_kind.
  repeat (case_match; try done); congruence.
Qed.

Lemma retry_not_eintr {κ A} fuel (call : κ → result A Z * κ) k res k' :
  retry fuel call k = Some (res, k') → res ≠ Err 4.
Proof.
  revert k. induction fuel as [|fuel IH]; intros k; cbn; [done|].
  destruct (call k) as [[a|c] k1]; [congruence|].
  destruct (decide (c = 4)) as [->|Hc]; [apply IH|].
  intros Heq. assert (res = Err c) as -> by (repeat (case_match; simplify_eq; try done)).
  congruence.
Qed.

(** A descriptor's [read] and [write] never report an interruption. *)
Theorem fd_never_interrupted t {κ} `{FdCalls κ} (fd : Fd κ) n b :
  (∀ e fd', read fd n = Some (Err e, fd') → is_interrupted t e = false)
  ∧ (∀ e fd', write fd b = Some (Err e, fd') → is_interrupted t e = false).
Proof.
  assert (∀ A (o : option (result A Z * κ)) e fd', os_result fd o = Some (Err e, fd') →
    (∀ k, o ≠ Some (Err 4, k)) → is_interrupted t e = false) as Hos.
  { intros A o e fd' Ho Hne. destruct o as [[[a|c] k]|]; cbn in Ho; simplify_eq.
    apply bool_decide_eq_false_2. cbn. rewrite errno_interrupted. intros ->. by eapply Hne. }
  split; intros e fd' Hr; (eapply Hos; [exact Hr|]); intros k Hk; by apply retry_not_eintr in Hk.
Qed.

(** ** [Write for Vec<u8>] *)
Record VecU8 := mkVec { vec_bytes : list Z }.

Definition vec_write (v : VecU8) (buf : list Z) : option (result Z Error * VecU8) :=
  Some (Ok (Z.of_nat (length buf)), mkVec (vec_bytes v ++ buf)).

#[export] Instance vec_is_write : Write VecU8 := {
  write := vec_write;
  flush v := Some (Ok tt, v);
}.

#[export] Program Instance vec_sink t : Sink t VecU8 := {
  log := vec_bytes;
  patience _ := 0%nat;
}.
Next Obligation.
  intros t w b _. eexists _, _. split; [done|]. cbn.
  rewrite Nat2Z.id, firstn_all. split_and!; [lia|lia|done|done].
Qed.

(** ** A reader that plays a script of chunks and faults *)
Inductive Event : Type :=
| Data (d : list Z)
| Fault (e : Error).

#[export] Instance script_read : Read (list Event) := λ s n,
  match s with
  | [] => Some (Ok [], [])
  | Data d :: s =>
      Some (if decide (length d ≤ n)%nat then (Ok d, s)
            else (Ok (take n d), Data (drop n d) :: s))
  | Fault e :: s => Some (Err e, s)
  end.

Fixpoint contents t (s : list Event) : list Z * option Error :=
  match s with
  | [] => ([], None)
  | Data d :: s => let '(c, f) := contents t s in (d ++ c, f)
  | Fault e :: s => if is_interrupted t e then contents t s else ([], Some e)
  end.

Definition no_empty (s : list Event) : Prop :=
  Forall (λ ev, match ev with Data [] => False | _ => True end) s.

Lemma script_stream t k s :
  (length (contents t s).1 + length s < k)%nat → no_empty s →
  stream t k s (contents t s).1 (contents t s).2.
Proof.
  revert s. induction k as [|k IH]; intros s Hk Hs; [lia|]. intros n Hn. unfold read, script_read.
  destruct s as [|[d|e] s]; cbn in *; [split; [lia|done]| |].
  - pose proof Hs as [Hd Hs']%Forall_cons_1.
    destruct (contents t s) as [c f] eqn:Ec. cbn in *. rewrite length_app in Hk.
    assert (d ≠ []) by (by destruct d).
    assert (0 < length d)%nat by (destruct d; [done|cbn; lia]).
    destruct (decide (length d ≤ n)%nat).
    + split; [done|]. rewrite decide_False by done. exists c. split; [done|].
      specialize (IH s). rewrite Ec in IH. cbn in IH. apply IH; [lia|done].
    + rewrite length_take. split; [lia|].
      rewrite decide_False by (intros Ht; apply (f_equal length) in Ht; rewrite length_take in Ht; cbn in Ht; lia).
      exists (drop n d ++ c). split; [by rewrite app_assoc, take_drop|].
      specialize (IH (Data (drop n d) :: s)). cbn in IH. rewrite Ec in IH. cbn in IH.
      apply IH; [rewrite length_app, length_drop; lia|].
      constructor; [|done]. destruct (drop n d) eqn:E; [|done].
      apply (f_equal length) in E. rewrite length_drop in E. cbn in E. lia.
  - apply Forall_cons in Hs as [_ Hs]. destruct (is_interrupted t e); [|done].
    apply IH; [lia|done].
Qed.

Definition sample_script : list Event :=
  [Data [10; 20; 30]; Fault (Os 4); Data [40; 50; 60; 70]].

Lemma sample_script_stream :
  stream X86_64Linux 12 sample_script [10; 20; 30; 40; 50; 60; 70] None.
Proof.
  apply (script_stream X86_64Linux 12 sample_script); [vm_compute; lia|].
  repeat constructor.
Qed.

(** An instance: the interruption is retried and the bytes are appended. *)
Lemma read_to_end_correct_witness :
  ∃ r', read_to_end X86_64Linux 12 sample_script [1]
        = Some (Ok 7, [1; 10; 20; 30; 40; 50; 60; 70], r').
Proof. exact (read_to_end_correct X86_64Linux 12 _ _ _ [1] sample_script_stream). Defined.

(** An instance: five bytes are there, eight are not. *)
Lemma read_exact_correct_witness :
  (∃ r' k', read_exact X86_64Linux 12 sample_script 5 []
            = Some (Ok tt, [10; 20; 30; 40; 50], r') ∧ stream X86_64Linux k' r' [60; 70] None)
  ∧ ∃ r', read_exact X86_64Linux 12 sample_script 8 []
          = Some (Err (Simple UnexpectedEof), [10; 20; 30; 40; 50; 60; 70], r').
Proof.
  split.
  - apply (read_exact_correct X86_64Linux 12 _ _ _ 5 sample_script_stream). cbn. lia.
  - apply (read_exact_correct X86_64Linux 12 _ _ _ 8 sample_script_stream). cbn. lia.
Defined.

(** Witness of C25. *)
Lemma copy_correct_witness :
  ∃ r' w', copy X86_64Linux 12 (Z.to_nat 8192) sample_script (mkVec [9]) 0 = Some (Ok 7, r', w')
    ∧ log (t:=X86_64Linux) w' = [9; 10; 20; 30; 40; 50; 60; 70].
Proof.
  destruct (copy_correct X86_64Linux 12 (Z.to_nat 8192) sample_script (mkVec [9]) _ None
              sample_script_stream) as (res & r' & w' & H1 & H2); [cbn; lia|cbn; lia|].
  exists r', w'. destruct H2 as [[Hr Hl]|(e & n & _ & _ & _ & w1 & b & _ & _ & Hb & _ & Hr)].
  - split; [|exact Hl]. rewrite Hr in H1. exact H1.
  - exfalso. destruct Hr as [[Hr _]|[Hr _]]; [discriminate Hr|]. destruct b; [done|]. injection Hr. lia.
Defined.

(** An instance. *)
Lemma write_all_correct_witness :
  ∃ res w', write_all X86_64Linux 3 (mkVec [7]) [1; 2; 3] = Some (res, w') ∧
    match res with
    | Ok _ => log (t:=X86_64Linux) w' = [7; 1; 2; 3]
    | Err e => is_interrupted X86_64Linux e = false ∧
               ∃ n, (n < 3)%nat ∧ log (t:=X86_64Linux) w' = [7] ++ take n [1; 2; 3]
    end.
Proof. exact (write_all_correct X86_64Linux (mkVec [7]) [1; 2; 3]). Defined.
