(* ===== verification/IoBuf.v ===== *)
(** Cursors, buffered readers and writers, lines (src/src/io.rs).

    [BufReader] and [Cursor] are readers whose streams are computed from what they
    wrap; [BufWriter] is analysed over any [Sink]. *)
From S2P Require Import Prelude Str Utf8 Io.

(** ** Slices and cursors *)
Definition slice_read (s : list Z) (n : nat) : list Z * list Z :=
  let n := Nat.min n (length s) in (take n s, drop n s).

#[export] Instance slice_is_read : Read (list Z) := λ s n,
  let '(d, s) := slice_read s n in Some (Ok d, s).

Record Cursor := mkCursor { inner : list Z; pos : Z }.

Definition cursor_new (data : list Z) : Cursor := mkCursor data 0.
Definition set_position (c : Cursor) (p : Z) : Cursor := mkCursor (inner c) p.

Section cursor.
Context (t : Target).

Definition cursor_read (c : Cursor) (n : nat) : option (result (list Z) Error * Cursor) :=
  let data := inner c in
  let p := Z.min (wrap (usize_bits t) (pos c)) (Z.of_nat (length data)) in
  let '(d, _) := slice_read (drop (Z.to_nat p) data) n in
  Some (Ok d, mkCursor data (wrap 64 (pos c + Z.of_nat (length d)))).

#[export] Instance cursor_is_read : Read Cursor := cursor_read.

Definition cursor_seek (c : Cursor) (p : SeekFrom) : result Z Error * Cursor :=
  let len := to_signed 64 (Z.of_nat (length (inner c))) in
  let new :=
    match p with
    | Start n => to_signed 64 n
    | End n => to_signed 64 (len + n)
    | Current n => to_signed 64 (to_signed 64 (pos c) + n)
    end in
  if decide (new < 0) then (Err (Custom InvalidInput "negative seek position"%string), c)
  else (Ok (wrap 64 new), mkCursor (inner c) (wrap 64 new)).

(** [Seek::rewind] and [Seek::stream_position] *)
Definition cursor_rewind (c : Cursor) : result unit Error * Cursor :=
  let '(res, c) := cursor_seek c (Start 0) in (map_ok (λ _, tt) res, c).
Definition stream_position (c : Cursor) : result Z Error * Cursor := cursor_seek c (Current 0).

(** [Vec::resize(n, 0)] *)
Definition resize (l : list Z) (n : Z) : list Z :=
  take (Z.to_nat n) l ++ replicate (Z.to_nat n - length l) 0.

Definition cursor_write (c : Cursor) (buf : list Z) : option (result Z Error * Cursor) :=
  let p := wrap (usize_bits t) (pos c) in
  let v := inner c in
  let v := if decide (Z.of_nat (length v) < p) then resize v p else v in
  let e := wrap (usize_bits t) (p + Z.of_nat (length buf)) in
  let v := if decide (Z.of_nat (length v) < e) then resize v e else v in
  if decide (p ≤ e ≤ Z.of_nat (length v) ∧ e - p = Z.of_nat (length buf)) then
    Some (Ok (Z.of_nat (length buf)),
          mkCursor (take (Z.to_nat p) v ++ buf ++ drop (Z.to_nat e) v) e)
  else None.
End cursor.

(** ** Buffered readers *)
Class BufRead (B : Type) := {
  fill_buf : B → option (result (list Z) Error * B);
  consume : B → nat → B;
}.

(** [iter().position(|&b| b == delim)] *)
Fixpoint position (delim : Z) (l : list Z) : option nat :=
  match l with
  | [] => None
  | x :: l => if decide (x = delim) then Some 0%nat else S <$> position delim l
  end.

Section bufread.
Context (t : Target) {B : Type} `{BufRead B}.

Fixpoint read_until (fuel : nat) (b : B) (delim : Z) (buf : list Z) (count : Z)
    : option (result Z Error * list Z * B) :=
  match fuel with
  | O => None
  | S fuel =>
      '(res, b) ← fill_buf b;
      match res with
      | Err e =>
          if is_interrupted t e then read_until fuel b delim buf count
          else Some (Err e, buf, b)
      | Ok available =>
          let '(done_, used, chunk) :=
            match position delim available with
            | Some i => (true, S i, take (S i) available)
            | None => (false, length available, available)
            end in
          let buf := buf ++ chunk in
          let b := consume b used in
          let count := count + Z.of_nat used in
          if done_ || bool_decide (used = 0%nat) then Some (Ok count, buf, b)
          else read_until fuel b delim buf count
      end
  end.
End bufread.

(** [Read::read_to_string]: nothing is appended unless the whole input is UTF-8. *)
Definition read_to_string (t : Target) {R} `{Read R} (fuel : nat) (r : R) (buf : list Z)
    : option (result Z Error * list Z * R) :=
  '(res, bytes, r) ← read_to_end t fuel r [];
  match res with
  | Err e => Some (Err e, buf, r)
  | Ok n =>
      if utf8_valid bytes then Some (Ok n, buf ++ bytes, r)
      else Some (Err (Simple InvalidData), buf, r)
  end.

Section lines.
Context (t : Target) {B : Type} `{BufRead B}.

Definition read_line (fuel : nat) (b : B) (buf : list Z) : option (result Z Error * list Z * B) :=
  '(res, bytes, b) ← read_until t fuel b 10 [] 0;
  match res with
  | Err e => Some (Err e, buf, b)
  | Ok n =>
      if utf8_valid bytes then Some (Ok n, buf ++ bytes, b)
      else Some (Err (Simple InvalidData), buf, b)
  end.

Definition ends_with_byte (c : Z) (l : list Z) : bool := bool_decide (last l = Some c).
Definition pop_last (l : list Z) : list Z := take (length l - 1) l.

(** The terminator handling of [Lines::next]. *)
Definition trim_line (line : list Z) : list Z :=
  if ends_with_byte 10 line then
    let line := pop_last line in
    if ends_with_byte 13 line then pop_last line else line
  else line.

Definition lines_next (fuel : nat) (b : B) : option (option (result (list Z) Error) * B) :=
  '(res, line, b) ← read_line fuel b [];
  match res with
  | Ok n => if decide (n = 0) then Some (None, b) else Some (Some (Ok (trim_line line)), b)
  | Err e => Some (Some (Err e), b)
  end.

Fixpoint lines_drain (n fuel : nat) (b : B) : option (list (result (list Z) Error)) :=
  match n with
  | O => None
  | S n =>
      '(o, b) ← lines_next fuel b;
      match o with
      | None => Some []
      | Some x => l ← lines_drain n fuel b; Some (x :: l)
      end
  end.
End lines.

Record BufReader (R : Type) := mkBufReader { br_inner : R; br_buf : list Z; br_pos : nat; br_cap : nat }.
Arguments mkBufReader {R}.
Arguments br_inner {R}.
Arguments br_buf {R}.
Arguments br_pos {R}.
Arguments br_cap {R}.

Section bufreader.
Context {R : Type} `{Read R}.
Implicit Types b : BufReader R.

Definition br_with_capacity (capacity : nat) (r : R) : BufReader R :=
  mkBufReader r (replicate capacity 0) 0 0.

Definition br_new (r : R) : BufReader R := br_with_capacity (8 * 1024) r.

Definition br_consume b (amt : nat) : BufReader R :=
  mkBufReader (br_inner b) (br_buf b) (Nat.min (br_pos b + amt) (br_cap b)) (br_cap b).

(** [&self.buf[self.pos..self.cap]]; out of range is a panic. *)
Definition br_window b : option (list Z) :=
  if decide (br_pos b ≤ br_cap b ≤ length (br_buf b))%nat
  then Some (take (br_cap b - br_pos b) (drop (br_pos b) (br_buf b))) else None.

Definition br_fill_buf b : option (result (list Z) Error * BufReader R) :=
  if decide (br_cap b ≤ br_pos b)%nat then
    '(res, r) ← read (br_inner b) (length (br_buf b));
    match res with
    | Ok d =>
        let b := mkBufReader r (d ++ drop (length d) (br_buf b)) 0 (length d) in
        w ← br_window b; Some (Ok w, b)
    | Err e => Some (Err e, mkBufReader r (br_buf b) (br_pos b) (br_cap b))
    end
  else w ← br_window b; Some (Ok w, b).

#[export] Instance bufreader_bufread : BufRead (BufReader R) := {
  fill_buf := br_fill_buf;
  consume := br_consume;
}.

Definition br_read b (n : nat) : option (result (list Z) Error * BufReader R) :=
  if bool_decide (br_pos b = br_cap b) && bool_decide (length (br_buf b) ≤ n)%nat then
    '(res, r) ← read (br_inner b) n;
    Some (res, mkBufReader r (br_buf b) (br_pos b) (br_cap b))
  else
    '(res, b) ← br_fill_buf b;
    match res with
    | Ok available =>
        let n := Nat.min (length available) n in
        Some (Ok (take n available), br_consume b n)
    | Err e => Some (Err e, b)
    end.

#[export] Instance bufreader_read : Read (BufReader R) := br_read.
End bufreader.

(** ** Buffered writers *)
Record BufWriter (W : Type) := mkBufWriter { bw_inner : W; bw_buf : list Z; bw_capacity : nat }.
Arguments mkBufWriter {W}.
Arguments bw_inner {W}.
Arguments bw_buf {W}.
Arguments bw_capacity {W}.

Section bufwriter.
Context (t : Target) (fuel : nat) {W : Type} `{Write W}.
Implicit Types b : BufWriter W.

Definition bw_with_capacity (capacity : nat) (w : W) : BufWriter W := mkBufWriter w [] capacity.

Definition bw_new (w : W) : BufWriter W := bw_with_capacity (8 * 1024) w.

Definition flush_buf b : option (result unit Error * BufWriter W) :=
  if decide (bw_buf b ≠ []) then
    '(res, w) ← write_all t fuel (bw_inner b) (bw_buf b);
    match res with
    | Ok _ => Some (Ok tt, mkBufWriter w [] (bw_capacity b))
    | Err e => Some (Err e, mkBufWriter w (bw_buf b) (bw_capacity b))
    end
  else Some (Ok tt, b).

Definition bw_write b (buf : list Z) : option (result Z Error * BufWriter W) :=
  '(res, b) ← (if decide (bw_capacity b < length (bw_buf b) + length buf)%nat
               then flush_buf b else Some (Ok tt, b));
  match res with
  | Err e => Some (Err e, b)
  | Ok _ =>
      if decide (bw_capacity b ≤ length buf)%nat then
        '(res, w) ← write (bw_inner b) buf;
        Some (res, mkBufWriter w (bw_buf b) (bw_capacity b))
      else Some (Ok (Z.of_nat (length buf)),
                 mkBufWriter (bw_inner b) (bw_buf b ++ buf) (bw_capacity b))
  end.

Definition bw_flush b : option (result unit Error * BufWriter W) :=
  '(res, b) ← flush_buf b;
  match res with
  | Err e => Some (Err e, b)
  | Ok _ =>
      '(res, w) ← flush (bw_inner b);
      Some (res, mkBufWriter w (bw_buf b) (bw_capacity b))
  end.

(** [Drop]: flush and ignore the result. *)
Definition bw_drop b : option W := '(_, b) ← flush_buf b; Some (bw_inner b).

(** [into_inner]: on success the writer is handed back; on failure the buffer is
    dropped, which flushes it once more.  Either way [W] is the inner writer at the end. *)
Definition bw_into_inner b : option (result unit Error * W) :=
  '(res, b) ← flush_buf b;
  match res with
  | Ok _ => Some (Ok tt, bw_inner b)
  | Err e => w ← bw_drop b; Some (Err e, w)
  end.
End bufwriter.

(** ** Readers in memory *)
Lemma take_min_length {A} (n : nat) (l : list A) : take (Nat.min n (length l)) l = take n l.
Proof.
  destruct (decide (n ≤ length l)%nat); [by rewrite Nat.min_l|].
  by rewrite Nat.min_r, !take_ge by lia.
Qed.

Lemma drop_min_length {A} (n : nat) (l : list A) : drop (Nat.min n (length l)) l = drop n l.
Proof.
  destruct (decide (n ≤ length l)%nat); [by rewrite Nat.min_l|].
  by rewrite Nat.min_r, !drop_ge by lia.
Qed.

Lemma slice_stream t (s : list Z) : stream t (S (length s)) s s None.
Proof.
  enough (∀ k (s : list Z), (length s < k)%nat → stream t k s s None) as Hk by (apply Hk; lia).
  intros k. induction k as [|k IH]; intros l Hl; [lia|]. intros n Hn.
  unfold read, slice_is_read, slice_read. cbn. rewrite length_take. split; [lia|].
  destruct l as [|x l]; [by rewrite Nat.min_0_r|].
  destruct n as [|n]; [lia|]. cbn [length Nat.min take drop] in *. rewrite decide_False by done.
  eexists. split; [|apply IH].
  - cbn [app]. by rewrite take_drop.
  - rewrite length_drop. lia.
Qed.

Section cursor_props.
Context (t : Target).

Lemma usize_le_64 : usize_bits t ≤ 64.
Proof. by destruct t. Qed.

Lemma usize_pos : 0 ≤ usize_bits t.
Proof. by destruct t. Qed.

(** What a cursor has left to read. *)
Definition cursor_rest (c : Cursor) : list Z := drop (Z.to_nat (pos c)) (inner c).

Definition cursor_ok (c : Cursor) : Prop :=
  0 ≤ pos c < 2 ^ usize_bits t ∧ Z.of_nat (length (inner c)) < 2 ^ usize_bits t.

Lemma pow_usize_64 : 2 ^ usize_bits t ≤ 2 ^ 64.
Proof. apply Z.pow_le_mono_r; [lia|apply usize_le_64]. Qed.

Lemma cursor_read_spec c n :
  cursor_ok c →
  ∃ c', cursor_read t c n = Some (Ok (take n (cursor_rest c)), c')
    ∧ cursor_rest c' = drop n (cursor_rest c) ∧ cursor_ok c' ∧ inner c' = inner c.
Proof.
  intros [Hp Hl]. pose proof pow_usize_64.
  unfold cursor_read, slice_read. rewrite wrap_small by done.
  assert (drop (Z.to_nat (Z.min (pos c) (Z.of_nat (length (inner c))))) (inner c) = cursor_rest c)
    as ->.
  { unfold cursor_rest. destruct (decide (pos c ≤ Z.of_nat (length (inner c)))).
    - by rewrite Z.min_l.
    - rewrite Z.min_r, Nat2Z.id, !drop_ge by lia. done. }
  assert (length (cursor_rest c) = length (inner c) - Z.to_nat (pos c))%nat as Hr
    by apply length_drop.
  rewrite length_take.
  rewrite wrap_small by lia.
  eexists. split; [f_equal; f_equal; f_equal; by rewrite take_min_length|].
  unfold cursor_rest, cursor_ok in *. cbn [pos inner]. split_and!; [|lia|lia|lia|done].
  rewrite drop_drop. destruct (decide (length (inner c) ≤ Z.to_nat (pos c))%nat).
  - rewrite !drop_ge by lia. done.
  - destruct (decide (n ≤ length (drop (Z.to_nat (pos c)) (inner c)))%nat).
    + f_equal. lia.
    + rewrite !drop_ge by lia. done.
Qed.

Lemma cursor_seek_start c n :
  0 ≤ n < 2 ^ 63 → cursor_seek c (Start n) = (Ok n, mkCursor (inner c) n).
Proof.
  intros Hn. unfold cursor_seek, to_signed. rewrite (wrap_small 64 n) by lia.
  rewrite (decide_True (P := n < 2 ^ (64 - 1))) by lia.
  rewrite decide_False by lia. by rewrite wrap_small by lia.
Qed.

Lemma cursor_rewind_spec c : cursor_rewind c = (Ok tt, mkCursor (inner c) 0).
Proof. done. Qed.

Lemma stream_position_spec c : 0 ≤ pos c < 2 ^ 63 → stream_position c = (Ok (pos c), c).
Proof.
  intros Hp. unfold stream_position, cursor_seek, to_signed. rewrite (wrap_small 64 (pos c)) by lia.
  rewrite (decide_True (P := pos c < 2 ^ (64 - 1))) by lia. rewrite Z.add_0_r.
  rewrite (wrap_small 64 (pos c)), (decide_True (P := pos c < 2 ^ (64 - 1))) by lia.
  rewrite decide_False, wrap_small by lia. by destruct c.
Qed.

Lemma length_resize v n :
  Z.of_nat (length v) ≤ n → Z.of_nat (length (resize v n)) = n.
Proof. intros. unfold resize. rewrite length_app, length_replicate, take_ge by lia. lia. Qed.

(** The bytes after a write: the old ones (with zeros up to the position), the new
    ones over them, and what follows. *)
Lemma cursor_write_spec c buf :
  0 ≤ pos c → pos c + Z.of_nat (length buf) < 2 ^ usize_bits t →
  ∃ c', cursor_write t c buf = Some (Ok (Z.of_nat (length buf)), c')
    ∧ pos c' = pos c + Z.of_nat (length buf)
    ∧ inner c' = take (Z.to_nat (pos c)) (inner c)
                   ++ replicate (Z.to_nat (pos c) - length (inner c)) 0
                   ++ buf ++ drop (Z.to_nat (pos c) + length buf) (inner c).
Proof.
  intros Hp He. unfold cursor_write. rewrite !wrap_small by lia.
  set (p := pos c) in *. set (v := inner c) in *. set (e := p + Z.of_nat (length buf)) in *.
  assert (∃ z, (if decide (Z.of_nat (length v) < p) then resize v p else v) = v ++ z
    ∧ z = replicate (Z.to_nat p - length v) 0) as (z & -> & Hz).
  { eexists. split; [|done]. destruct (decide _).
    - unfold resize. by rewrite take_ge by lia.
    - replace (Z.to_nat p - length v)%nat with 0%nat by lia. by rewrite app_nil_r. }
  assert (length z = Z.to_nat p - length v)%nat as Hlz by (rewrite Hz; apply length_replicate).
  assert (∃ y, (if decide (Z.of_nat (length (v ++ z)) < e) then resize (v ++ z) e else v ++ z)
    = (v ++ z) ++ y ∧ length y = (Z.to_nat e - length (v ++ z))%nat) as (y & -> & Hy).
  { destruct (decide _).
    - unfold resize. rewrite take_ge by lia. eexists. split; [done|]. by rewrite length_replicate.
    - exists []. rewrite app_nil_r. split; [done|]. cbn. lia. }
  rewrite !length_app in *.
  rewrite decide_True by lia. eexists. split; [done|]. cbn [pos inner].
  split; [done|]. rewrite (app_assoc _ (replicate _ _)), <-Hz.
  assert (∀ q, (q ≤ length v + length z)%nat → take q ((v ++ z) ++ y) = take q (v ++ z)) as Ht.
  { intros q Hq. apply take_app_le. by rewrite length_app. }
  f_equal.
  - rewrite Ht by lia. destruct (decide (Z.of_nat (length v) < p)).
    + rewrite take_app_ge, (take_ge v) by lia. f_equal. apply take_ge. lia.
    + assert (z = []) as -> by (apply nil_length_inv; lia). by rewrite !app_nil_r.
  - f_equal. replace (Z.to_nat p + length buf)%nat with (Z.to_nat e) by lia.
    destruct (decide (length v ≤ Z.to_nat e)%nat).
    + rewrite !drop_ge; [done|lia|rewrite !length_app; lia].
    + assert (z = []) as -> by (apply nil_length_inv; lia).
      assert (y = []) as -> by (apply nil_length_inv; cbn in Hy; lia).
      by rewrite !app_nil_r.
Qed.

(** Cursors. Bytes written at a position below [2^63] are read back from it, the
    bytes before it and after them are unchanged, and a gap is filled with zeros. *)
Theorem cursor_roundtrip data p buf
    (Hp : 0 ≤ p < 2 ^ 63) (He : p + Z.of_nat (length buf) < 2 ^ usize_bits t)
    (Hd : Z.of_nat (length data) < 2 ^ usize_bits t) :
  ∃ c1 c2 c3 r,
    cursor_seek (cursor_new data) (Start p) = (Ok p, c1)
    ∧ cursor_write t c1 buf = Some (Ok (Z.of_nat (length buf)), c2)
    ∧ cursor_seek c2 (Start p) = (Ok p, c3)
    ∧ cursor_read t c3 (length buf) = Some (Ok buf, r)
    ∧ (∀ i, (i < length data)%nat → (Z.of_nat i < p ∨ p + Z.of_nat (length buf) ≤ Z.of_nat i) →
         inner r !! i = data !! i)
    ∧ (∀ i, (length data ≤ i)%nat → Z.of_nat i < p → inner r !! i = Some 0).
Proof.
  destruct (cursor_write_spec (mkCursor data p) buf) as (c2 & Hw & Hp2 & Hi); [cbn; lia..|].
  cbn [pos inner] in *. set (q := Z.to_nat p) in *.
  assert (length (take q data ++ replicate (q - length data) 0) = q) as Hq.
  { rewrite length_app, length_replicate, length_take. lia. }
  destruct (cursor_read_spec (mkCursor (inner c2) p) (length buf)) as (r & Hr & _ & _ & Hin).
  { split; cbn; [lia|]. rewrite Hi, !length_app, length_take, length_replicate, length_drop. lia. }
  eexists _, c2, _, r. split_and!; [by apply cursor_seek_start|done|by apply cursor_seek_start| | |].
  - rewrite Hr. do 3 f_equal. unfold cursor_rest. cbn [pos inner]. rewrite Hi, app_assoc.
    fold q. rewrite drop_app_length' by done. by apply take_app_length'.
  - intros i Hid Hi'. rewrite Hin, Hi. cbn [inner]. destruct Hi' as [Hlt|Hge].
    + rewrite lookup_app_l by (rewrite length_take; lia). apply lookup_take_lt. lia.
    + rewrite (app_assoc (take q data)), (app_assoc _ buf).
      rewrite lookup_app_r by (rewrite length_app, Hq; lia).
      rewrite length_app, Hq, lookup_drop. f_equal. lia.
  - intros i Hid Hlt. rewrite Hin, Hi. cbn [inner].
    rewrite lookup_app_r by (rewrite length_take; lia).
    rewrite lookup_app_l by (rewrite length_replicate, length_take; lia).
    apply lookup_replicate_2. rewrite length_take. lia.
Qed.

(** A [SeekFrom::Start] of [2^63] or more, which [std::io::Cursor] accepts, is turned
    negative and refused. *)
Theorem cursor_seek_huge c n (Hn : 2 ^ 63 ≤ n < 2 ^ 64) :
  cursor_seek c (Start n) = (Err (Custom InvalidInput "negative seek position"%string), c).
Proof.
  unfold cursor_seek, to_signed. rewrite (wrap_small 64 n) by lia.
  rewrite (decide_False (P := n < 2 ^ (64 - 1))) by lia. by rewrite decide_True by lia.
Qed.
End cursor_props.

(** [read_to_string] returns; it appends the whole input if that is UTF-8 and fails otherwise. *)
Lemma read_to_string_stream t {R} `{Read R} k (r : R) s fin buf :
  stream t k r s fin →
  ∃ r', read_to_string t k r buf =
    Some (match fin with
          | Some e => (Err e, buf, r')
          | None => if utf8_valid s then (Ok (Z.of_nat (length s)), buf ++ s, r')
                    else (Err (Simple InvalidData), buf, r')
          end).
Proof.
  intros Hs. destruct (read_to_end_stream t k r s fin [] Hs) as [r' Hr]. exists r'.
  unfold read_to_string. rewrite Hr. cbn. destruct fin; cbn; [done|]. by destruct (utf8_valid s).
Qed.

(** ** [BufReader] is transparent *)
Section bufreader_props.
Context (t : Target) {R : Type} `{Read R}.
Implicit Types b : BufReader R.

Definition buffered b : list Z := take (br_cap b - br_pos b) (drop (br_pos b) (br_buf b)).

Definition br_ok b : Prop :=
  (br_pos b ≤ br_cap b ≤ length (br_buf b))%nat ∧ (0 < length (br_buf b))%nat.

Lemma br_window_ok b : br_ok b → br_window b = Some (buffered b).
Proof. intros [? _]. unfold br_window. by rewrite decide_True. Qed.

Lemma length_buffered b : br_ok b → length (buffered b) = (br_cap b - br_pos b)%nat.
Proof. intros [? _]. unfold buffered. rewrite length_take, length_drop. lia. Qed.

Lemma buffered_consume b n :
  br_ok b → (n ≤ length (buffered b))%nat →
  br_ok (br_consume b n) ∧ buffered (br_consume b n) = drop n (buffered b).
Proof.
  intros Hok. rewrite length_buffered by done. intros Hn. destruct Hok as [? ?].
  unfold br_ok, buffered, br_consume. cbn. rewrite Nat.min_l by lia. split; [lia|].
  rewrite skipn_firstn_comm, drop_drop. f_equal. lia.
Qed.

(** A buffered reader holds [buffered b] and its inner reader still delivers the rest. *)
Definition br_stream (k : nat) b (s : list Z) (fin : option Error) : Prop :=
  br_ok b ∧ ∃ s', s = buffered b ++ s' ∧ stream t k (br_inner b) s' fin.

(** [fill_buf] shows a prefix of what is left, empty only at the end. *)
Lemma fill_buf_spec k b s fin :
  br_stream k b s fin →
  ∃ res b', br_fill_buf b = Some (res, b') ∧
    match res with
    | Ok d => d = buffered b' ∧ length (br_buf b') = length (br_buf b) ∧
        (if decide (d = [])
         then s = [] ∧ fin = None ∧ br_ok b' ∧
              ∃ r n, (0 < n)%nat ∧ read r n = Some (Ok [], br_inner b')
         else ∃ k', (k' ≤ k)%nat ∧ br_stream k' b' s fin ∧ (buffered b = [] → k' < k)%nat)
    | Err e =>
        if is_interrupted t e
        then ∃ k', (k' < k)%nat ∧ br_stream k' b' s fin ∧ buffered b' = []
        else s = [] ∧ fin = Some e
    end.
Proof.
  intros [Hok (s' & -> & Hs)]. unfold br_fill_buf.
  destruct (decide (br_cap b ≤ br_pos b)%nat) as [Hge|Hlt].
  - assert (buffered b = []) as E.
    { apply nil_length_inv. rewrite length_buffered by done. lia. }
    rewrite E. cbn [app]. destruct k as [|k]; [done|]. pose proof Hok as [Hr Hpos].
    specialize (Hs _ Hpos). destruct (read (br_inner b) _) as [[[d|e] r]|] eqn:Er;
      cbn [mbind option_bind]; [| |done].
    + destruct Hs as [Hl Hs].
      set (b' := mkBufReader r (d ++ drop (length d) (br_buf b)) 0 (length d)).
      assert (br_ok b') as Hok'.
      { unfold br_ok, b'. cbn. rewrite length_app, length_drop. lia. }
      assert (buffered b' = d) as Hd.
      { unfold buffered, b'. cbn. rewrite Nat.sub_0_r, drop_0. by rewrite take_app_length. }
      rewrite (br_window_ok b') by done. cbn [mbind option_bind]. eexists _, _. split; [done|].
      rewrite Hd. split; [done|]. split; [cbn; rewrite length_app, length_drop; lia|].
      destruct (decide (d = [])) as [->|Hd0]; [destruct Hs as [-> ->]; eauto 10|].
      destruct Hs as (s'' & -> & Hs). exists k. split_and!; [lia| |lia].
      split; [done|]. exists s''. by rewrite Hd.
    + eexists _, _. split; [done|]. cbn. destruct (is_interrupted t e).
      * exists k. split_and!; [lia| |done]. split; [done|]. exists s'. split; [|done].
        change (s' = buffered b ++ s'). by rewrite E.
      * destruct Hs as [-> ->]. done.
  - rewrite br_window_ok by done. cbn [mbind option_bind]. eexists _, _. split; [done|].
    cbn. assert (buffered b ≠ []).
    { intros E. apply (f_equal length) in E. rewrite length_buffered in E by done. cbn in E. lia. }
    split_and!; [done|done|]. rewrite decide_False by done. exists k. split_and!; [done| |done].
    split; eauto.
Qed.

(** Serving a read of [n] bytes out of a filled buffer. *)
Lemma serve k' n d b' s k fin :
  (0 < n)%nat → (length s + k ≤ S k')%nat →
  (∀ k b s, br_stream k b s fin → (length s + k ≤ k')%nat → stream t k' b s fin) →
  d = buffered b' →
  (if decide (d = []) then s = [] ∧ fin = None ∧ br_ok b'
   else ∃ k1, (k1 ≤ k)%nat ∧ br_stream k1 b' s fin) →
  (length (take (Nat.min (length d) n) d) ≤ n)%nat ∧
  (if decide (take (Nat.min (length d) n) d = []) then s = [] ∧ fin = None
   else ∃ s', s = take (Nat.min (length d) n) d ++ s'
              ∧ stream t k' (br_consume b' (Nat.min (length d) n)) s' fin).
Proof.
  intros Hn Hk IH Hd Hres. rewrite length_take. split; [lia|].
  destruct (decide (d = [])) as [->|Hd0].
  { rewrite decide_True by apply take_nil. naive_solver. }
  destruct Hres as (k1 & Hk1 & Hok & s' & -> & Hs). rewrite <-Hd in Hk |- *.
  assert (0 < length d)%nat by (destruct d; [done|cbn; lia]).
  set (m := Nat.min (length d) n).
  assert (length (take m d) = m) as Hm by (rewrite length_take; lia).
  rewrite decide_False by (intros E; rewrite E in Hm; cbn in Hm; lia).
  destruct (buffered_consume b' m) as [Hok' Hb']; [done|rewrite <-Hd; lia|].
  exists (drop m d ++ s'). split; [by rewrite app_assoc, take_drop|].
  apply (IH k1).
  - split; [done|]. exists s'. rewrite Hb', <-Hd. done.
  - rewrite length_app in *. rewrite length_drop. lia.
Qed.

Lemma buffered_read k' n k b s fin :
  (0 < n)%nat → br_stream k b s fin → (length s + k ≤ S k')%nat →
  (∀ k b s, br_stream k b s fin → (length s + k ≤ k')%nat → stream t k' b s fin) →
  match
    '(res, b) ← br_fill_buf b;
    match res with
    | Ok available =>
        let n := Nat.min (length available) n in
        Some (Ok (take n available), br_consume b n)
    | Err e => Some (Err e, b)
    end
  with
  | Some (Ok d, r') =>
      (length d ≤ n)%nat ∧
      (if decide (d = []) then s = [] ∧ fin = None
       else ∃ s', s = d ++ s' ∧ stream t k' r' s' fin)
  | Some (Err e, r') =>
      if is_interrupted t e then stream t k' r' s fin else s = [] ∧ fin = Some e
  | None => False
  end.
Proof.
  intros Hn Hb Hk IH. destruct (fill_buf_spec k b s fin Hb) as (res & b' & -> & Hres).
  cbn [mbind option_bind]. destruct res as [d|e].
  - destruct Hres as (Hd & _ & Hres). apply (serve k' n d b' s k fin Hn Hk IH Hd).
    destruct (decide (d = [])); naive_solver.
  - destruct (is_interrupted t e); [|done]. destruct Hres as (k1 & ? & Hb1 & _).
    apply (IH k1); [done|lia].
Qed.

(** C22: buffering is transparent. A [BufReader] delivers exactly what its inner reader
    delivers after what it has already buffered, whatever the read sizes. *)
Theorem bufreader_transparent k b s fin k' (Hb : br_stream k b s fin)
    (Hk : (length s + k ≤ k')%nat) :
  stream t k' b s fin.
Proof.
  revert k b s Hb Hk. induction k' as [|k' IH]; intros k b s Hb Hk.
  { destruct Hb as [_ (s' & -> & Hs)]. assert (k = 0%nat) as -> by lia. done. }
  intros n Hn. unfold read at 1, bufreader_read, br_read.
  destruct (bool_decide_reflect (br_pos b = br_cap b)) as [Hpc|Hpc];
    [destruct (bool_decide_reflect (length (br_buf b) ≤ n)%nat) as [Hle|Hle]|]; cbn [andb].
  - destruct Hb as [Hok (s' & -> & Hs)].
    assert (buffered b = []) as E.
    { apply nil_length_inv. rewrite length_buffered by done. lia. }
    rewrite E in *. cbn [app] in *. destruct k as [|k]; [done|].
    assert (∀ r, br_ok (mkBufReader r (br_buf b) (br_pos b) (br_cap b))
      ∧ buffered (mkBufReader r (br_buf b) (br_pos b) (br_cap b)) = []) as Hsame by done.
    specialize (Hs n Hn). destruct (read (br_inner b) n) as [[[d|e] r]|];
      cbn [mbind option_bind]; [| |done].
    + destruct Hs as [Hl Hs]. split; [done|]. destruct (decide (d = [])) as [->|Hd]; [done|].
      destruct Hs as (s'' & -> & Hs). exists s''. split; [done|].
      rewrite length_app in Hk. apply (IH k); [|lia].
      destruct (Hsame r) as [? E']. split; [done|]. exists s''. by rewrite E'.
    + destruct (is_interrupted t e); [|done]. apply (IH k); [|lia].
      destruct (Hsame r) as [? E']. split; [done|]. exists s'. by rewrite E'.
  - by apply (buffered_read k' n k b s fin).
  - by apply (buffered_read k' n k b s fin).
Qed.

(** *** Lines *)
Lemma position_app d l l' :
  position d (l ++ l') =
  match position d l with
  | Some i => Some i
  | None => (λ i, length l + i)%nat <$> position d l'
  end.
Proof.
  induction l as [|x l IH]; cbn; [by destruct (position d l')|].
  destruct (decide (x = d)); [done|]. rewrite IH.
  destruct (position d l); [done|]. cbn. by destruct (position d l').
Qed.

Lemma position_lt d l i : position d l = Some i → (i < length l)%nat.
Proof.
  revert i. induction l as [|x l IH]; cbn; [done|]. intros i.
  destruct (decide (x = d)); [intros [= <-]; lia|].
  intros (j & Hj & ->)%fmap_Some. specialize (IH j Hj). lia.
Qed.

(** A reader at end of file stays there. *)
Definition fused : Prop :=
  ∀ (r : R) n r', (0 < n)%nat → read r n = Some (Ok [], r') → stream t 1 r' [] None.

Lemma read_until_spec (Hf : fused) fuel k b s fin delim buf count :
  br_stream k b s fin → (k + length (buffered b) ≤ fuel)%nat →
  match position delim s with
  | Some i => ∃ b' k',
      read_until t fuel b delim buf count
        = Some (Ok (count + Z.of_nat (S i)), buf ++ take (S i) s, b')
      ∧ br_stream k' b' (drop (S i) s) fin ∧ (k' ≤ k)%nat
  | None => ∃ b',
      read_until t fuel b delim buf count
        = Some (ended (count + Z.of_nat (length s)) fin, buf ++ s, b')
      ∧ (fin = None → br_stream 1 b' [] None)
  end.
Proof.
  revert k b s buf count. induction fuel as [|fuel IH]; intros k b s buf count Hb Hk.
  { destruct Hb as [_ (s' & -> & Hs)]. destruct k; [done|lia]. }
  cbn [read_until fill_buf consume bufreader_bufread].
  destruct (fill_buf_spec k b s fin Hb) as (res & b' & -> & Hres). cbn [mbind option_bind].
  destruct res as [d|e].
  - destruct Hres as (Hd & _ & Hres). destruct (decide (d = [])) as [->|Hne].
    { destruct Hres as (-> & -> & Hok & r & n & Hn & Hr). cbn [position length orb].
      rewrite bool_decide_eq_true_2 by done. cbn [take app].
      exists (br_consume b' 0). split; [by rewrite app_nil_r|]. intros _.
      destruct (buffered_consume b' 0) as [Hok' Hb']; [done|lia|]. split; [done|].
      exists []. rewrite Hb', <-Hd. split; [done|]. by apply (Hf r n). }
    destruct Hres as (k1 & Hk1 & [Hok (s' & -> & Hs)] & Hlt). rewrite <-Hd in *.
    rewrite position_app. destruct (position delim d) as [i|] eqn:Ei; cbn [orb].
    + pose proof (position_lt _ _ _ Ei) as Hi.
      destruct (buffered_consume b' (S i)) as [Hok' Hb']; [done|rewrite <-Hd; lia|].
      eexists _, k1. split; [by rewrite take_app_le by lia|]. split; [|done].
      split; [done|]. exists s'. rewrite Hb', <-Hd. by rewrite drop_app_le by lia.
    + assert (0 < length d)%nat by (destruct d; [done|cbn; lia]).
      rewrite bool_decide_eq_false_2 by lia.
      destruct (buffered_consume b' (length d)) as [Hok' Hb']; [done|by rewrite <-Hd|].
      rewrite <-Hd, drop_all in Hb'.
      specialize (IH k1 (br_consume b' (length d)) s' (buf ++ d) (count + Z.of_nat (length d))).
      rewrite Hb' in IH.
      assert (k1 + length (A:=Z) [] ≤ fuel)%nat as Hfuel.
      { cbn. destruct (buffered b) eqn:Eb; [specialize (Hlt eq_refl); lia|cbn in Hk; lia]. }
      specialize (IH ltac:(split; [done|]; exists s'; by rewrite Hb') Hfuel).
      destruct (position delim s') as [i|]; cbn [fmap option_fmap option_map].
      * destruct IH as (b'' & k' & -> & Hb'' & Hk'). exists b'', k'.
        replace (S (length d + i)) with (length d + S i)%nat by lia.
        rewrite take_app_add, drop_app_add, <-app_assoc. split_and!; [|done|lia].
        do 4 f_equal. lia.
      * destruct IH as (b'' & -> & Hb''). exists b''. split; [|done].
        rewrite <-app_assoc, length_app. do 4 f_equal. lia.
  - destruct (is_interrupted t e).
    + destruct Hres as (k1 & Hk1 & Hb1 & E).
      assert (k1 + length (buffered b') ≤ fuel)%nat by (rewrite E; cbn; lia).
      specialize (IH k1 b' s buf count Hb1 ltac:(done)).
      destruct (position delim s) as [i|]; [|done].
      destruct IH as (b'' & k' & -> & ? & ?). exists b'', k'. split_and!; [done..|lia].
    + destruct Hres as [-> ->]. cbn. exists b'. by rewrite app_nil_r.
Qed.

(** The lines of a text, each with its terminator. *)
Fixpoint split_inclusive (d : Z) (l : list Z) : list (list Z) :=
  match l with
  | [] => []
  | x :: l =>
      if decide (x = d) then [x] :: split_inclusive d l
      else match split_inclusive d l with [] => [[x]] | h :: tl => (x :: h) :: tl end
  end.

Lemma split_inclusive_position d l :
  split_inclusive d l =
  match position d l with
  | Some i => take (S i) l :: split_inclusive d (drop (S i) l)
  | None => if decide (l = []) then [] else [l]
  end.
Proof.
  induction l as [|x l IH]; [done|]. cbn [split_inclusive position].
  destruct (decide (x = d)); [done|]. rewrite IH.
  destruct (position d l) as [i|]; cbn; [done|]. by destruct (decide (l = [])) as [->|].
Qed.

(** A line without its ending. *)
Fixpoint chomp (l : list Z) : list Z :=
  match l with
  | [] => []
  | x :: l' => if decide (l = [10] ∨ l = [13; 10]) then [] else x :: chomp l'
  end.

Lemma chomp_cons x l :
  l ≠ [] → (x, l) ≠ (13, [10]) → chomp (x :: l) = x :: chomp l.
Proof.
  intros Hl Hn. cbn [chomp]. rewrite decide_False; [done|]. intros [E|E]; by simplify_eq.
Qed.

Lemma chomp_crlf l : chomp (l ++ [13; 10]) = l.
Proof.
  induction l as [|x l IH]; [done|]. cbn [app]. rewrite chomp_cons, IH; [done| |].
  - by destruct l.
  - intros E. apply (f_equal (length ∘ snd)) in E. revert E. cbn. rewrite length_app. cbn. lia.
Qed.

Lemma chomp_lf l : last l ≠ Some 13 → chomp (l ++ [10]) = l.
Proof.
  induction l as [|x l IH]; [done|]. intros Hl. cbn [app]. rewrite chomp_cons.
  - rewrite IH; [done|]. by destruct l.
  - by destruct l.
  - intros E. destruct l as [|y l]; [by injection E as ->|].
    apply (f_equal (length ∘ snd)) in E. revert E. cbn. rewrite length_app. cbn. lia.
Qed.

Lemma chomp_none l : last l ≠ Some 10 → chomp l = l.
Proof.
  induction l as [|x l IH]; [done|]. intros Hl. destruct l as [|y l].
  - cbn. rewrite decide_False; [done|]. intros [E|E]; by simplify_eq.
  - rewrite chomp_cons; [by rewrite IH|done|]. intros E. injection E as -> -> ->. done.
Qed.

Lemma pop_last_snoc l (x : Z) : pop_last (l ++ [x]) = l.
Proof. unfold pop_last. rewrite length_app. cbn. by rewrite Nat.add_sub, take_app_length. Qed.

Lemma trim_line_chomp l : trim_line l = chomp l.
Proof.
  unfold trim_line, ends_with_byte. case_bool_decide as H10; [|by rewrite chomp_none].
  apply last_Some in H10 as [l' ->]. rewrite pop_last_snoc. cbn zeta.
  case_bool_decide as H13; [|by rewrite chomp_lf].
  apply last_Some in H13 as [l'' ->].
  rewrite pop_last_snoc, <-app_assoc. by rewrite chomp_crlf.
Qed.

(** What the iterator yields for one such line. *)
Definition line_result (l : list Z) : result (list Z) Error :=
  if utf8_valid l then Ok (chomp l) else Err (Simple InvalidData).

Lemma lines_next_spec (Hf : fused) fuel k b s :
  br_stream k b s None → (k + length s ≤ fuel)%nat →
  match split_inclusive 10 s with
  | [] => ∃ b', lines_next t fuel b = Some (None, b')
  | l :: ls => ∃ b' k' s', lines_next t fuel b = Some (Some (line_result l), b')
      ∧ br_stream k' b' s' None ∧ (k' ≤ k)%nat ∧ (length s' < length s)%nat
      ∧ split_inclusive 10 s' = ls
  end.
Proof.
  intros Hb Hk. unfold lines_next, read_line. rewrite split_inclusive_position.
  assert (k + length (buffered b) ≤ fuel)%nat as Hk'.
  { destruct Hb as [_ (s' & -> & _)]. rewrite length_app in Hk. lia. }
  assert (1 ≤ k)%nat by (destruct Hb as [_ (s' & _ & Hs)]; destruct k; [done|lia]).
  pose proof (read_until_spec Hf fuel k b s None 10 [] 0 Hb Hk') as Hr.
  destruct (position 10 s) as [i|] eqn:Ei.
  - destruct Hr as (b' & k' & -> & Hb' & ?). cbn [mbind option_bind app].
    apply position_lt in Ei. exists b', k', (drop (S i) s). unfold line_result. rewrite <-trim_line_chomp.
    assert (length (drop (S i) s) < length s)%nat by (rewrite length_drop; lia).
    destruct (utf8_valid (take (S i) s)); cbn [mbind option_bind app]; [|done].
    rewrite decide_False by lia. done.
  - destruct Hr as (b' & -> & Hb'). cbn [mbind option_bind app ended].
    destruct (decide (s = [])) as [->|Hne].
    { cbn. eauto. }
    exists b', 1%nat, []. unfold line_result. rewrite <-trim_line_chomp.
    assert (0 < length s)%nat by (destruct s; [done|cbn; lia]).
    destruct (utf8_valid s); cbn [mbind option_bind app]; [|by split_and!; [|apply Hb'|..]].
    rewrite decide_False by lia. by split_and!; [|apply Hb'|..].
Qed.

(** C23: lines. Over a reader whose input ends without an error and that keeps reporting its end, with a buffer of
    positive capacity, draining [lines()] ends and yields every line of the input once, in order,
    without its line feed or carriage return and line feed; a line that is not UTF-8 is an [InvalidData] error
    and the iteration goes on after it. *)
Theorem lines_correct fuel k b s (Hf : fused) (Hb : br_stream k b s None)
    (Hk : (k + length s ≤ fuel)%nat) :
  lines_drain t (S (length s)) fuel b = Some (line_result <$> split_inclusive 10 s).
Proof.
  assert (∀ n k b s, br_stream k b s None → (k + length s ≤ fuel)%nat → (length s < n)%nat →
    lines_drain t n fuel b = Some (line_result <$> split_inclusive 10 s)) as Hall;
    [|apply (Hall _ k); [done|done|lia]].
  clear k b s Hb Hk. induction n as [|n IH]; intros k b s Hb Hk Hn; [lia|]. cbn [lines_drain].
  pose proof (lines_next_spec Hf fuel k b s Hb Hk) as Hnext.
  destruct (split_inclusive 10 s) as [|l ls].
  - destruct Hnext as [b' ->]. done.
  - destruct Hnext as (b' & k' & s' & -> & Hb' & ? & ? & <-). cbn [mbind option_bind].
    rewrite (IH k' b' s') by (done || lia). done.
Qed.
End bufreader_props.

(** ** [BufWriter] keeps the order *)
Section bufwriter_props.
Context (t : Target) {W : Type} `{Sink t W}.
Implicit Types b : BufWriter W.

(** Everything handed to the buffered writer so far. *)
Definition total b : list Z := log (t:=t) (bw_inner b) ++ bw_buf b.

Definition bw_fuel (fuel : nat) b : Prop :=
  (length (bw_buf b) ≤ bw_capacity b)%nat
  ∧ (bw_capacity b + patience (t:=t) (bw_inner b) ≤ fuel)%nat.

Lemma flush_buf_spec fuel b :
  bw_fuel fuel b →
  ∃ res b', flush_buf t fuel b = Some (res, b') ∧ bw_fuel fuel b' ∧ bw_capacity b' = bw_capacity b
    ∧ match res with
      | Ok _ => bw_buf b' = [] ∧ log (t:=t) (bw_inner b') = total b
      | Err _ => bw_buf b' = bw_buf b
          ∧ ∃ n, log (t:=t) (bw_inner b') = log (t:=t) (bw_inner b) ++ take n (bw_buf b)
      end.
Proof.
  intros [Hl Hf]. unfold flush_buf. destruct (decide (bw_buf b ≠ [])) as [Hne|Hnil].
  - destruct (write_all_spec t fuel (bw_inner b) (bw_buf b)) as (res & w & -> & Hp & Hr); [lia|].
    cbn [mbind option_bind]. destruct res as [u|e].
    + eexists _, _. split; [done|]. unfold bw_fuel. cbn. split_and!; [lia|lia|done|done|done].
    + destruct Hr as (_ & n & _ & Hr). eexists _, _. split; [done|]. unfold bw_fuel. cbn.
      split_and!; [lia|lia|done|done|eauto].
  - assert (bw_buf b = []) as E by (by destruct (bw_buf b); [|destruct Hnil]).
    exists (Ok tt), b. unfold total. rewrite E, app_nil_r. split_and!; try done.
Qed.

(** One [write]: what it reports as taken is appended to [total]. *)
Lemma bw_write_spec fuel b buf :
  bw_fuel fuel b → buf ≠ [] →
  ∃ res b', bw_write t fuel b buf = Some (res, b') ∧ bw_fuel fuel b'
    ∧ match res with
      | Ok n => 0 ≤ n ≤ Z.of_nat (length buf) ∧ total b' = total b ++ take (Z.to_nat n) buf
      | Err _ => True
      end.
Proof.
  intros Hf Hne. unfold bw_write.
  assert (∃ res b1, (if decide (bw_capacity b < length (bw_buf b) + length buf)%nat
                     then flush_buf t fuel b else Some (Ok tt, b)) = Some (res, b1)
    ∧ bw_fuel fuel b1 ∧ bw_capacity b1 = bw_capacity b
    ∧ (res = Ok tt → total b1 = total b
         ∧ (length (bw_buf b1) + length buf ≤ bw_capacity b ∨ bw_buf b1 = [])%nat))
    as (res & b1 & -> & Hf1 & Hc & Hok).
  { destruct (decide _).
    - destruct (flush_buf_spec fuel b Hf) as (res & b1 & -> & Hf1 & Hc & Hr).
      exists res, b1. split_and!; [done..|]. intros ->. destruct Hr as [E Hlog].
      split; [|by right]. unfold total in *. by rewrite E, app_nil_r.
    - exists (Ok tt), b. split_and!; try done. intros _. split; [done|left; lia]. }
  cbn [mbind option_bind]. destruct res as [[]|e]; [|by eexists _, _].
  destruct (Hok eq_refl) as [Htot Hroom]. rewrite <-Htot.
  destruct (decide (bw_capacity b1 ≤ length buf)%nat) as [Hbig|Hsmall].
  - assert (bw_buf b1 = []) as E.
    { destruct Hroom as [?|?]; [|done]. apply nil_length_inv. lia. }
    destruct (write_spec (bw_inner b1) buf Hne) as (res & w & -> & Hr). cbn [mbind option_bind].
    eexists _, _. split; [done|]. unfold bw_fuel, total in *. cbn. rewrite E in *. cbn in *.
    destruct res as [n|e]; destruct Hr as (? & ? & ?); split_and!; try lia; try done.
    by rewrite !app_nil_r.
  - eexists _, _. split; [done|]. unfold bw_fuel, total in *. cbn [bw_buf bw_capacity bw_inner].
    rewrite length_app, Nat2Z.id, firstn_all, app_assoc.
    destruct Hroom as [?|E]; [|rewrite E in *; cbn [length] in *]; split_and!; try done; lia.
Qed.

(** A run of writes, stopping at the first failure: the bytes reported as taken. *)
Fixpoint bw_writes (fuel : nat) b (bufs : list (list Z)) : option (list Z * bool * BufWriter W) :=
  match bufs with
  | [] => Some ([], true, b)
  | buf :: bufs =>
      '(res, b) ← bw_write t fuel b buf;
      match res with
      | Ok n =>
          '(taken, ok, b) ← bw_writes fuel b bufs;
          Some (take (Z.to_nat n) buf ++ taken, ok, b)
      | Err _ => Some ([], false, b)
      end
  end.

Lemma bw_writes_spec fuel b bufs :
  bw_fuel fuel b → Forall (λ buf, buf ≠ []) bufs →
  ∃ taken ok b', bw_writes fuel b bufs = Some (taken, ok, b') ∧ bw_fuel fuel b'
    ∧ (ok = true → total b' = total b ++ taken).
Proof.
  revert b. induction bufs as [|buf bufs IH]; intros b Hf Hall.
  { eexists _, _, _. split_and!; [done..|]. intros _. by rewrite app_nil_r. }
  apply Forall_cons in Hall as [Hne Hall]. cbn [bw_writes].
  destruct (bw_write_spec fuel b buf Hf Hne) as (res & b1 & -> & Hf1 & Hr).
  cbn [mbind option_bind]. destruct res as [n|e].
  - destruct (IH b1 Hf1 Hall) as (taken & ok & b' & -> & Hf' & Ht). cbn [mbind option_bind].
    eexists _, _, _. split_and!; [done..|]. intros Hok. destruct Hr as [_ Hr].
    by rewrite (Ht Hok), Hr, app_assoc.
  - eexists _, _, _. by split_and!.
Qed.

(** C24: when no write fails, a flush of a [BufWriter] has sent to the inner writer exactly
    the bytes its writes reported as taken, in order, and nothing is left
    behind. *)
Theorem bufwriter_order fuel w cap bufs taken b b'
    (Hfuel : (cap + patience (t:=t) w ≤ fuel)%nat)
    (Hne : Forall (λ buf, buf ≠ []) bufs)
    (Hrun : bw_writes fuel (bw_with_capacity cap w) bufs = Some (taken, true, b))
    (Hflush : flush_buf t fuel b = Some (Ok tt, b')) :
  bw_buf b' = [] ∧ log (t:=t) (bw_inner b') = log (t:=t) w ++ taken.
Proof.
  assert (bw_fuel fuel (bw_with_capacity cap w)) as Hf by (split; cbn; lia).
  destruct (bw_writes_spec fuel _ bufs Hf Hne) as (? & ? & ? & Hrun' & Hf' & Ht).
  rewrite Hrun in Hrun'. injection Hrun' as <- <- <-. specialize (Ht eq_refl).
  destruct (flush_buf_spec fuel b Hf') as (? & ? & Hfl & _ & _ & Hr).
  rewrite Hflush in Hfl. injection Hfl as <- <-. destruct Hr as [-> ->]. split; [done|].
  rewrite Ht. unfold total. cbn. by rewrite app_nil_r.
Qed.
End bufwriter_props.

(** ** Concrete instances *)

(** A writer that takes [n] bytes, then fails once with [ENOSPC]-like error 28, then takes all. *)
Record Flaky := mkFlaky { fl_log : list Z; fl_room : option nat }.

#[export] Instance flaky_write : Write Flaky := {
  write w b :=
    match fl_room w with
    | None => Some (Ok (Z.of_nat (length b)), mkFlaky (fl_log w ++ b) None)
    | Some 0%nat => Some (Err (Os 28), mkFlaky (fl_log w) None)
    | Some n =>
        let k := Nat.min n (length b) in
        Some (Ok (Z.of_nat k), mkFlaky (fl_log w ++ take k b) (Some (n - k)%nat))
    end;
  flush w := Some (Ok tt, w);
}.

#[export] Program Instance flaky_sink t : Sink t Flaky := {
  log := fl_log;
  patience _ := 0%nat;
}.
Next Obligation.
  intros t w b _. unfold write, flaky_write.
  destruct (fl_room w) as [[|n]|]; eexists _, _; (split; [done|]); cbn -[take Nat.min].
  - split_and!; [done|done|]. unfold is_interrupted. cbn. by destruct t.
  - rewrite Nat2Z.id. split_and!; [lia|lia|done|done].
  - rewrite Nat2Z.id, firstn_all. split_and!; [lia|lia|done|done].
Qed.

(** After a failed flush the part already written is still in the buffer, so the
    next flush (or the drop) writes it a second time. *)
Theorem bufwriter_duplicates :
  ∃ b1 b2 b3,
    bw_write X86_64Linux 10 (bw_with_capacity 8 (mkFlaky [] (Some 2%nat))) [1; 2; 3]
      = Some (Ok 3, b1)
    ∧ flush_buf X86_64Linux 10 b1 = Some (Err (Os 28), b2)
    ∧ flush_buf X86_64Linux 10 b2 = Some (Ok tt, b3)
    ∧ log (t:=X86_64Linux) (bw_inner b3) = [1; 2; 1; 2; 3].
Proof. do 3 eexists. repeat split; reflexivity. Qed.

(** An instance: two bytes over the end of a three byte buffer, with a gap. *)
Lemma cursor_roundtrip_witness :
  ∃ c1 c2 c3 r,
    cursor_seek (cursor_new [1; 2; 3]) (Start 5) = (Ok 5, c1)
    ∧ cursor_write X86_64Linux c1 [8; 9] = Some (Ok 2, c2)
    ∧ cursor_seek c2 (Start 5) = (Ok 5, c3)
    ∧ cursor_read X86_64Linux c3 2 = Some (Ok [8; 9], r) ∧ inner r !! 4%nat = Some 0.
Proof.
  destruct (cursor_roundtrip X86_64Linux [1; 2; 3] 5 [8; 9])
    as (c1 & c2 & c3 & r & ? & ? & ? & ? & _ & Hgap); [cbn; lia..|].
  exists c1, c2, c3, r. split_and!; [done..|]. apply Hgap; cbn; lia.
Defined.

(** A two-byte buffer over the text [a CR LF b c], read in pieces. *)
Definition sample_reader : BufReader (list Z) :=
  br_with_capacity 2 [97; 13; 10; 98; 99].

Lemma sample_reader_stream t : br_stream t 6 sample_reader [97; 13; 10; 98; 99] None.
Proof.
  split; [by split; cbn; lia|]. exists [97; 13; 10; 98; 99]. split; [done|].
  apply (slice_stream t [97; 13; 10; 98; 99]).
Qed.

Lemma slice_fused t : fused (R:=list Z) t.
Proof.
  intros r n r' Hn Hr. unfold read, slice_is_read, slice_read in Hr. simplify_eq.
  destruct r as [|x r]; [rewrite drop_nil; apply (slice_stream t [])|].
  destruct n; [lia|]. done.
Qed.

(** Witness of C22: one read after another through the two-byte buffer. *)
Lemma bufreader_transparent_witness :
  stream X86_64Linux 11 sample_reader [97; 13; 10; 98; 99] None.
Proof.
  apply (bufreader_transparent X86_64Linux 6 sample_reader _ None 11
           (sample_reader_stream X86_64Linux)). cbn. lia.
Defined.

(** Witness of C23: the line [a] and the unterminated line [bc]. *)
Lemma lines_correct_witness :
  lines_drain X86_64Linux 6 20 sample_reader = Some [Ok [97]; Ok [98; 99]].
Proof.
  apply (lines_correct X86_64Linux 20 6 sample_reader [97; 13; 10; 98; 99]
           (slice_fused X86_64Linux) (sample_reader_stream X86_64Linux)). cbn. lia.
Defined.

(** Witness of C24: four writes through a four-byte buffer. *)
Lemma bufwriter_order_witness :
  ∃ b b', bw_writes X86_64Linux 10 (bw_with_capacity 4 (mkVec [])) [[1; 2]; [3]; [4; 5]; [6; 7; 8; 9]]
          = Some ([1; 2; 3; 4; 5; 6; 7; 8; 9], true, b)
    ∧ flush_buf X86_64Linux 10 b = Some (Ok tt, b')
    ∧ log (t:=X86_64Linux) (bw_inner b') = [1; 2; 3; 4; 5; 6; 7; 8; 9].
Proof.
  eexists _, _. split; [reflexivity|]. split; [reflexivity|].
  refine (proj2 (bufwriter_order X86_64Linux 10 (mkVec []) 4
                   [[1; 2]; [3]; [4; 5]; [6; 7; 8; 9]] _ _ _ _ _ _ _)); [|..|reflexivity|reflexivity].
  - cbn. lia.
  - repeat constructor; done.
Defined.

(** ** Text read is UTF-8 *)
Lemma pop_last_valid c l :
  c < 0x80 → ends_with_byte c l = true → utf8_valid l = true → utf8_valid (pop_last l) = true.
Proof.
  unfold ends_with_byte. intros Hc [l' ->]%bool_decide_eq_true%last_Some Hl.
  rewrite pop_last_snoc. by apply utf8_valid_cut in Hl as [? _].
Qed.

Lemma trim_line_valid l : utf8_valid l = true → utf8_valid (trim_line l) = true.
Proof.
  intros Hl. unfold trim_line. destruct (ends_with_byte 10 l) eqn:E10; [|done]. cbn zeta.
  pose proof (pop_last_valid 10 l ltac:(lia) E10 Hl).
  destruct (ends_with_byte 13 (pop_last l)) eqn:E13; [|done]. by apply (pop_last_valid 13).
Qed.

Lemma read_line_valid t {B} `{BufRead B} fuel (b : B) buf res buf' b' :
  utf8_valid buf = true → read_line t fuel b buf = Some (res, buf', b') → utf8_valid buf' = true.
Proof.
  intros Hbuf Hr. unfold read_line in Hr.
  destruct (read_until _ _ _ _ _ _) as [[[[n|e] bytes] b1]|]; cbn in Hr; [|by simplify_eq|done].
  destruct (utf8_valid bytes) eqn:E; simplify_eq; [by rewrite utf8_valid_app|done].
Qed.

(** A string given to [read_to_string] or [read_line] is well formed afterwards, whatever the reader
    delivers and however the call ends, and so is every line of [lines()]. *)
Lemma text_utf8 t {R B} `{Read R, BufRead B} fuel (r : R) (b : B) buf :
  utf8_valid buf = true →
  (∀ res buf' r', read_to_string t fuel r buf = Some (res, buf', r') → utf8_valid buf' = true)
  ∧ (∀ res buf' b', read_line t fuel b buf = Some (res, buf', b') → utf8_valid buf' = true)
  ∧ (∀ line b', lines_next t fuel b = Some (Some (Ok line), b') → utf8_valid line = true).
Proof.
  intros Hbuf. split_and!.
  - intros res buf' r' Hr. unfold read_to_string in Hr.
    destruct (read_to_end _ _ _ _) as [[[[n|e] bytes] r1]|]; cbn in Hr; [|by simplify_eq|done].
    destruct (utf8_valid bytes) eqn:E; simplify_eq; [by rewrite utf8_valid_app|done].
  - intros res buf' b'. by apply read_line_valid.
  - intros line b' Hl. unfold lines_next in Hl.
    destruct (read_line t fuel b []) as [[[[n|e] l] b1]|] eqn:E; cbn in Hl; [|done..].
    destruct (decide (n = 0)); simplify_eq. apply trim_line_valid. by eapply read_line_valid in E.
Qed.
