(* ===== verification/Lock.v ===== *)
(** The contract of [Mutex] (src/src/sync.rs) and what a component that uses one promises.

    A client of the mutex sees three events: a thread gets the guard, a thread drops it, and
    a [try_lock] comes back with nothing.  The contract is a lock with an owner, on which each event
    is one step.  A component that protects its data with a mutex is a [LockClient]: it is
    modelled with the owner of its lock, and every step of it leaves the owner alone and does not depend on it,
    or is one event of the lock.  To run a client over a mutex its own owner is taken away ([free_step]), so
    that nothing but the mutex keeps a thread from entering.  LockSpec.v shows that the futex mutex has
    exactly the events of this lock, and that a client without its owner has the same states over it. *)
From S2P Require Import Prelude.

Inductive LockEv : Set :=
| Acquire (i : nat)   (* lock() or try_lock() returns a guard *)
| Release (i : nat)   (* the guard is dropped *)
| TryFail (i : nat).  (* try_lock() returns None *)

#[export] Instance LockEv_eq_dec : EqDecision LockEv.
Proof. solve_decision. Defined.

(** The lock of [n] threads; its state is the owner. *)
Inductive lock_step (n : nat) : option nat → LockEv → option nat → Prop :=
| lock_acquire i : (i < n)%nat → lock_step n None (Acquire i) (Some i)
| lock_release i : (i < n)%nat → lock_step n (Some i) (Release i) None
| lock_try_fail i j : (i < n)%nat → i ≠ j → lock_step n (Some j) (TryFail i) (Some j).

Inductive lock_run (n : nat) : option nat → list LockEv → option nat → Prop :=
| lock_run_nil o : lock_run n o [] o
| lock_run_cons o o' o'' e tr :
    lock_step n o e o' → lock_run n o' tr o'' → lock_run n o (e :: tr) o''.

#[export] Hint Constructors lock_step lock_run : lock.

Lemma lock_run_app n o o' o'' tr tr' :
  lock_run n o tr o' → lock_run n o' tr' o'' → lock_run n o (tr ++ tr') o''.
Proof. induction 1; cbn; eauto with lock. Qed.

Lemma lock_run_one n o e o' : lock_run n o [e] o' ↔ lock_step n o e o'.
Proof.
  split; [|eauto with lock]. inversion 1 as [|? ? ? ? ? ? Hnil]; subst. by inversion Hnil; subst.
Qed.

Lemma lock_run_nil_inv n o o' : lock_run n o [] o' → o' = o.
Proof. by inversion 1. Qed.

Lemma lock_step_mono n n' o e o' : (n ≤ n')%nat → lock_step n o e o' → lock_step n' o e o'.
Proof. destruct 2; constructor; lia || done. Qed.

(** * What a step of a system of threads shows *)
(** [event i p p'] is what a client sees of thread [i] moving from [p] to [p']. *)
Section moves.
Context {P E : Type} (event : nat → P → P → list E).

Fixpoint moves (k : nat) (l l' : list P) : list E :=
  match l, l' with
  | p :: l, p' :: l' => event k p p' ++ moves (S k) l l'
  | _, _ => []
  end.

Context (event_same : ∀ i p, event i p p = []).

Lemma moves_silent k l l' :
  (∀ i p p', l !! i = Some p → l' !! i = Some p' → event (k + i) p p' = []) → moves k l l' = [].
Proof using Type.
  revert k l'. induction l as [|p l IH]; intros k [|p' l'] He; cbn; try done.
  rewrite (IH (S k)), app_nil_r.
  - specialize (He 0%nat p p' eq_refl eq_refl). by rewrite Nat.add_0_r in He.
  - intros i q q' Hq Hq'. specialize (He (S i) q q' Hq Hq'). by rewrite Nat.add_succ_r in He.
Qed.

Lemma moves_insert k l i p p' :
  l !! i = Some p → moves k l (<[i := p']> l) = event (k + i) p p'.
Proof using event_same.
  revert k i. induction l as [|q l IH]; intros k [|i] Hi; simplify_eq/=.
  - rewrite moves_silent, app_nil_r, Nat.add_0_r; [done|]. intros; by simplify_eq.
  - rewrite event_same, IH by done. cbn. by rewrite Nat.add_succ_r.
Qed.
End moves.

(** * Components around one lock *)
(** Which threads are between lock and unlock, where each thread has a program counter. *)
Section held.
Context {P : Type} (holds : P → bool).

Definition held_in (l : list P) (i : nat) : bool := default false (holds <$> l !! i).

Lemma held_at l i p : l !! i = Some p → held_in l i = holds p.
Proof. intros Hi. unfold held_in. by rewrite Hi. Qed.

Lemma held_insert l i p p' : l !! i = Some p → held_in (<[i := p']> l) i = holds p'.
Proof. intros Hi. apply held_at, list_lookup_insert_eq. by eapply lookup_lt_Some. Qed.

Lemma held_insert_ne l i j p' : j ≠ i → held_in (<[i := p']> l) j = held_in l j.
Proof. intros Hj. unfold held_in. by rewrite list_lookup_insert_ne by done. Qed.

Lemma held_insert_same l i p p' j :
  l !! i = Some p → holds p' = holds p → held_in (<[i := p']> l) j = held_in l j.
Proof.
  intros Hi Hp. destruct (decide (j = i)) as [->|Hj]; [|by apply held_insert_ne].
  by rewrite (held_insert l i p), (held_at l i p).
Qed.

Lemma held_replicate n p i : holds p = false → held_in (replicate n p) i = false.
Proof.
  intros Hp. unfold held_in. destruct (replicate n p !! i) as [q|] eqn:E; [|done].
  apply lookup_replicate in E as [-> _]. done.
Qed.
End held.

Section contract.
Context {C : Type} (step : C → C → Prop) (own : C → option nat) (put : option nat → C → C) (inside : C → nat → bool).

(** What a step is to the lock. *)
Inductive client_kind (c c' : C) : Prop :=
| kind_silent :
    own c' = own c → (∀ o, step (put o c) (put o c')) → (∀ j, inside c' j = inside c j) → client_kind c c'
| kind_acquire i :
    own c = None → own c' = Some i → inside c' i = true → (∀ j, j ≠ i → inside c' j = inside c j) →
    client_kind c c'
| kind_release i :
    own c' = None → inside c i = true → inside c' i = false → (∀ j, j ≠ i → inside c' j = inside c j) →
    client_kind c c'.

(** A system of threads around one lock: [own] is who has it, [put] replaces that and nothing else, and
    [inside] says which threads are between lock and unlock. *)
Class LockClient (c0 : C) : Prop := {
  client_free : own c0 = None;
  client_outside i : inside c0 i = false;
  client_put_own c : put (own c) c = c;
  client_own_put o c : own (put o c) = o;
  client_put_put o o' c : put o (put o' c) = put o c;
  client_inside_put o c i : inside (put o c) i = inside c i;
  client_kinds c c' : step c c' → client_kind c c';
}.

(** A step of the client with the owner taken away: what its own lock would allow is not asked. *)
Inductive free_step (c : C) : option LockEv → C → Prop :=
| free_silent c' : (∀ o, step (put o c) (put o c')) → free_step c None c'
| free_acquire c' i :
    step (put None c) (put (Some i) c') → inside c i = false → inside c' i = true →
    free_step c (Some (Acquire i)) c'
| free_release c' i :
    step (put (Some i) c) (put None c') → inside c i = true → inside c' i = false →
    free_step c (Some (Release i)) c'.

(** The client over the abstract lock. *)
Inductive over_lock (n : nat) : C * option nat → C * option nat → Prop :=
| ol_silent c c' o : free_step c None c' → over_lock n (c, o) (c', o)
| ol_event c c' e o o' : free_step c (Some e) c' → lock_step n o e o' → over_lock n (c, o) (c', o').

Lemma over_lock_mono n n' x y : (n ≤ n')%nat → over_lock n x y → over_lock n' x y.
Proof.
  intros Hn [c c' o Hs|c c' e o o' Hs He]; [by constructor|].
  eapply ol_event; eauto using lock_step_mono.
Qed.

Context (c0 : C) `{!LockClient c0}.

(** Exactly the owner is inside. *)
Lemma client_inside c : rtc step c0 c → ∀ i, own c = Some i ↔ inside c i = true.
Proof using All.
  revert c. apply (rtc_ind_r (λ c, ∀ i, own c = Some i ↔ inside c i = true)).
  - intros i. rewrite client_free, client_outside. done.
  - intros c c' _ Hs IH j. destruct (client_kinds c c' Hs) as [Ho _ Hi|i Ho Ho' Hi Hj|i Ho Hi Hi' Hj].
    + by rewrite Ho, Hi.
    + rewrite Ho'. destruct (decide (j = i)) as [->|Hne]; [by rewrite Hi|].
      rewrite Hj, <-IH, Ho by done. naive_solver.
    + rewrite Ho. split; [done|]. destruct (decide (j = i)) as [->|Hne]; [by rewrite Hi'|].
      rewrite Hj by done. rewrite <-IH. apply IH in Hi. congruence.
Qed.

(** A step of the client needs from its lock what the contract gives. *)
Lemma step_over_lock c c' :
  rtc step c0 c → step c c' → ∃ n, over_lock n (c, own c) (c', own c').
Proof using All.
  intros Hc Hs. pose proof (client_inside c Hc) as Hin.
  destruct (client_kinds c c' Hs) as [Ho Hall _|i Ho Ho' Hi _|i Ho Hi Hi' _].
  - exists 0%nat. rewrite Ho. by apply ol_silent, free_silent.
  - exists (S i). rewrite Ho, Ho'. apply (ol_event _ _ _ (Acquire i)); [|apply lock_acquire; lia].
    apply free_acquire; [by rewrite <-Ho', <-Ho, !client_put_own| |done].
    destruct (inside c i) eqn:E; [|done]. apply Hin in E. congruence.
  - apply Hin in Hi as Ho1. exists (S i). rewrite Ho, Ho1. apply (ol_event _ _ _ (Release i)); [|apply lock_release; lia].
    apply free_release; [by rewrite <-Ho1, <-Ho, !client_put_own|done..].
Qed.

Lemma client_over_lock c : rtc step c0 c → ∃ n, rtc (over_lock n) (c0, None) (c, own c).
Proof using All.
  revert c. apply rtc_ind_r; [|intros c c' Hs Hstep [n IH]].
  - exists 0%nat. by rewrite client_free.
  - destruct (step_over_lock c c' Hs Hstep) as [n' Hn'].
    exists (n `max` n')%nat. eapply rtc_r; [|eapply over_lock_mono, Hn'; lia].
    eapply rtc_subrel; [|exact IH]. intros x y. apply over_lock_mono. lia.
Qed.

(** Conversely: with the lock's owner put back, every step is one of the client. *)
Lemma over_lock_step n c o c' o' : over_lock n (c, o) (c', o') → step (put o c) (put o' c').
Proof.
  intros Hs. inversion Hs as [? ? ? Hf|? ? e ? ? Hf He]; subst.
  - inversion Hf; subst. done.
  - inversion Hf; subst; inversion He; subst; done.
Qed.

Lemma over_lock_reach n x : rtc (over_lock n) (c0, None) x → rtc step c0 (put x.2 x.1).
Proof using All.
  revert x. apply rtc_ind_r.
  - cbn [fst snd]. by rewrite <-client_free, client_put_own.
  - intros [c o] [c' o'] _ Hx IH; cbn in *. eapply rtc_r; [exact IH|]. by eapply over_lock_step.
Qed.

(** So the lock's owner is the thread inside. *)
Lemma over_lock_inside n c o : rtc (over_lock n) (c0, None) (c, o) → ∀ i, o = Some i ↔ inside c i = true.
Proof using All.
  intros Hr%over_lock_reach i. cbn in Hr. pose proof (client_inside _ Hr i) as Hin.
  by rewrite client_own_put, client_inside_put in Hin.
Qed.
End contract.

(** The kind of a step carries over to a system that has the first one inside. *)
Lemma client_kind_impl {C D : Type} (step : C → C → Prop) own put inside (step' : D → D → Prop) own' put' inside'
    (c c' : C) (d d' : D) :
  client_kind step own put inside c c' → own' d = own c → own' d' = own c' →
  (∀ i, inside' d i = inside c i) → (∀ i, inside' d' i = inside c' i) →
  (∀ o, step (put o c) (put o c') → step' (put' o d) (put' o d')) → client_kind step' own' put' inside' d d'.
Proof.
  intros Hk E E' Ei Ei' Hs. destruct Hk as [Ho Ha Hi|i Ho Ho' Hi Hj|i Ho Hi Hi' Hj].
  - apply kind_silent; [congruence|auto|]. intros j. by rewrite Ei, Ei'.
  - apply (kind_acquire _ _ _ _ _ _ i); [congruence|congruence|by rewrite Ei'|]. intros j Hne. rewrite Ei, Ei'. auto.
  - apply (kind_release _ _ _ _ _ _ i); [congruence|by rewrite Ei|by rewrite Ei'|]. intros j Hne. rewrite Ei, Ei'. auto.
Qed.

Arguments LockClient {C} step own put inside c0 : assert.
