(* ===== verification/Mutex.v ===== *)
(** The futex-backed [Mutex] (src/src/sync.rs) as a system of threads.

    Every atomic operation of [raw_lock], [raw_unlock], [try_lock] and of the
    [futex_wait]/[futex_wake] calls they make (src/src/sys_thread.rs) is one step;
    steps of different threads interleave in any order.  The kernel's futex compares
    the word and goes to sleep in one step; it may return early at any time. *)
From S2P Require Import Prelude.

(** Where a thread is in its call. *)
Inductive Pc : Set :=
| Idle       (* outside *)
| LCas       (* raw_lock: compare_exchange(0, 1) *)
| LSwap      (* raw_lock loop: swap(2) *)
| FLoad      (* futex_wait: load and compare with 2 *)
| FSys       (* futex_wait: the system call *)
| Asleep     (* asleep in the kernel *)
| Held       (* owns the lock: a MutexGuard exists *)
| UWake      (* raw_unlock: futex_wake after swap(0) returned 2 *)
| TCas.      (* try_lock: compare_exchange(0, 1) *)

#[export] Instance Pc_eq_dec : EqDecision Pc.
Proof. solve_decision. Defined.

Record MutexSys := mkSys { state : Z; threads : list Pc }.

Definition set_pc (s : MutexSys) (i : nat) (p : Pc) (w : Z) : MutexSys :=
  mkSys w (<[i := p]> (threads s)).

(** One atomic operation of [raw_lock] in a state word [w]: where the thread goes and
    the new word. *)
Definition raw_lock (p : Pc) (w : Z) : option (Pc * Z) :=
  match p with
  | LCas => Some (if decide (w = 0) then (Held, 1) else (LSwap, w))
  | LSwap => Some (if decide (w = 0) then Held else FLoad, 2)
  | _ => None
  end.

(** [futex_wait(&state, 2)]: [while addr.load() == expected { syscall }]; the system call
    sleeps only while the word still has the expected value. *)
Definition futex_wait (p : Pc) (w : Z) : option (Pc * Z) :=
  match p with
  | FLoad => Some (if decide (w = 2) then FSys else LSwap, w)
  | FSys => Some (if decide (w = 2) then Asleep else FLoad, w)
  | _ => None
  end.

Definition raw_unlock (p : Pc) (w : Z) : option (Pc * Z) :=
  match p with
  | Held => Some (if decide (w = 2) then UWake else Idle, 0)
  | _ => None
  end.

Definition try_lock (p : Pc) (w : Z) : option (Pc * Z) :=
  match p with
  | TCas => Some (if decide (w = 0) then (Held, 1) else (Idle, w))
  | _ => None
  end.

(** The next operation of a thread that is inside a call or holds the lock. *)
Definition local (p : Pc) (w : Z) : option (Pc * Z) :=
  match raw_lock p w, futex_wait p w, raw_unlock p w, try_lock p w with
  | Some r, _, _, _ | _, Some r, _, _ | _, _, Some r, _ | _, _, _, Some r => Some r
  | _, _, _, _ => None
  end.

Inductive step : MutexSys → MutexSys → Prop :=
| step_local s i p p' w' :
    threads s !! i = Some p → local p (state s) = Some (p', w') → step s (set_pc s i p' w')
| step_call_lock s i : threads s !! i = Some Idle → step s (set_pc s i LCas (state s))
| step_call_try s i : threads s !! i = Some Idle → step s (set_pc s i TCas (state s))
| step_early s i :   (* the system call is interrupted *)
    threads s !! i = Some FSys ∨ threads s !! i = Some Asleep →
    step s (set_pc s i FLoad (state s))
| step_wake s i j :  (* futex_wake wakes one sleeper *)
    threads s !! i = Some UWake → threads s !! j = Some Asleep →
    step s (mkSys (state s) (<[j := FLoad]> (<[i := Idle]> (threads s))))
| step_wake_none s i :
    threads s !! i = Some UWake → Asleep ∉ threads s → step s (set_pc s i Idle (state s)).

Definition init (n : nat) : MutexSys := mkSys 0 (replicate n Idle).

(** ** Invariant *)
Definition at_pc (s : MutexSys) (p : Pc) : Prop := ∃ i, threads s !! i = Some p.

Record inv (s : MutexSys) : Prop := {
  inv_word : state s = 0 ∨ state s = 1 ∨ state s = 2;
  inv_held : state s ≠ 0 ↔ at_pc s Held;
  inv_excl : ∀ i j, threads s !! i = Some Held → threads s !! j = Some Held → i = j;
  inv_wake : at_pc s Asleep →
    state s = 2 ∨ at_pc s UWake ∨ at_pc s LSwap ∨ at_pc s FLoad ∨ at_pc s FSys;
}.

Lemma set_pc_lookup s i q p w j x :
  threads s !! i = Some q →
  threads (set_pc s i p w) !! j = Some x ↔
  (j = i ∧ x = p ∨ j ≠ i ∧ threads s !! j = Some x).
Proof. apply lookup_upd. Qed.

(** A pc other than the one that changed stays where it was. *)
Lemma at_pc_keep s i q p w x : threads s !! i = Some q → x ≠ q → at_pc s x → at_pc (set_pc s i p w) x.
Proof.
  intros Hi Hx [j Hj]. exists j. apply (set_pc_lookup s i q); [done|]. right.
  split; [congruence|done].
Qed.

Lemma at_pc_new s i q p w : threads s !! i = Some q → at_pc (set_pc s i p w) p.
Proof. intros Hi. exists i. apply (set_pc_lookup s i q); [done|]. by left. Qed.

Lemma at_pc_inv s i q p w x :
  threads s !! i = Some q → at_pc (set_pc s i p w) x → x = p ∨ at_pc s x.
Proof.
  intros Hi [j Hj]. apply (set_pc_lookup s i q) in Hj; [|done].
  destruct Hj as [[_ ->]|[_ Hj]]; [by left|right; by exists j].
Qed.

(** A thread moves without taking or releasing the lock, and leaves the word alone:
    the invariant holds if the wake-up clause does. *)
Lemma inv_move s i q p :
  inv s → threads s !! i = Some q → q ≠ Held → p ≠ Held →
  (at_pc (set_pc s i p (state s)) Asleep →
   state s = 2 ∨ at_pc (set_pc s i p (state s)) UWake ∨ at_pc (set_pc s i p (state s)) LSwap
   ∨ at_pc (set_pc s i p (state s)) FLoad ∨ at_pc (set_pc s i p (state s)) FSys) →
  inv (set_pc s i p (state s)).
Proof.
  intros [Hw Hh He _] Hi Hq Hp Hwake. constructor; [done| | |done].
  - change (state (set_pc s i p (state s))) with (state s). rewrite Hh. split.
    + by apply (at_pc_keep s i q).
    + intros [?|?]%(at_pc_inv s i q); done.
  - intros j k Hj Hk. apply (set_pc_lookup s i q) in Hj; [|done].
    apply (set_pc_lookup s i q) in Hk; [|done]. naive_solver.
Qed.

(** The lock is taken: it was free. *)
Lemma inv_take s i q w :
  inv s → threads s !! i = Some q → q = LCas ∨ q = TCas ∨ q = LSwap → state s = 0 →
  w = 1 ∨ w = 2 → (q = LSwap → w = 2) → inv (set_pc s i Held w).
Proof.
  intros [Hw Hh He Hwake] Hi Hq Hs0 Hw' Hq2.
  assert (∀ j, threads s !! j ≠ Some Held) as Hnone.
  { intros j Hj. assert (at_pc s Held) as Ha by (by exists j). by apply Hh in Ha. }
  constructor; cbn [state set_pc].
  - naive_solver.
  - split; [intros _; by apply (at_pc_new s i q)|intros _; lia].
  - intros j k Hj Hk. apply (set_pc_lookup s i q) in Hj; [|done].
    apply (set_pc_lookup s i q) in Hk; [|done]. naive_solver.
  - intros [?|Ha]%(at_pc_inv s i q); [done| |done].
    destruct (decide (q = LSwap)) as [->|Hne]; [left; by apply Hq2|].
    destruct (Hwake Ha) as [?|[?|[?|[?|?]]]]; [lia|right..];
      [left|right; left|do 2 right; left|do 3 right];
      (apply (at_pc_keep s i q); [done|naive_solver|done]).
Qed.

(** The lock is released. *)
Lemma inv_release s i :
  inv s → threads s !! i = Some Held →
  inv (set_pc s i (if decide (state s = 2) then UWake else Idle) 0).
Proof.
  intros [Hw Hh He Hwake] Hi. set (p := if decide (state s = 2) then UWake else Idle).
  assert (p ≠ Held ∧ p ≠ Asleep) as [Hp Hp'] by (unfold p; by destruct (decide _)).
  assert (∀ j, threads (set_pc s i p 0) !! j ≠ Some Held) as Hnone.
  { intros j Hj. apply (set_pc_lookup s i Held) in Hj; [|done]. naive_solver. }
  constructor; cbn [state set_pc].
  - by left.
  - split; [done|]. intros [j Hj]. by apply Hnone in Hj.
  - intros j k Hj. by apply Hnone in Hj.
  - intros [?|Ha]%(at_pc_inv s i Held); [done| |done].
    destruct (Hwake Ha) as [H2|Hother].
    + right; left. subst p. rewrite decide_True by done. by apply (at_pc_new s i Held).
    + right. assert (∀ x, x ≠ Held → at_pc s x → at_pc (set_pc s i p 0) x) as Hk
        by (intros; by apply (at_pc_keep s i Held)).
      destruct Hother as [?|[?|[?|?]]]; [left|right; left|do 2 right; left|do 3 right]; by apply Hk.
Qed.

(** Moving to a state from which the word is looked at again keeps every clause. *)
Lemma inv_contend s i q p :
  inv s → threads s !! i = Some q → q ≠ Held → p = LSwap ∨ p = FLoad ∨ p = FSys →
  inv (set_pc s i p (state s)).
Proof.
  intros Hinv Hi Hq Hp. apply (inv_move s i q); try done; [naive_solver|].
  intros _. assert (at_pc (set_pc s i p (state s)) p) by (by apply (at_pc_new s i q)).
  destruct Hp as [->|[->| ->]]; auto.
Qed.

(** Moves of threads the wake-up clause does not count on. *)
Lemma inv_bystander s i q p :
  inv s → threads s !! i = Some q → q = Idle ∨ q = TCas → p = Idle ∨ p = LCas ∨ p = TCas →
  inv (set_pc s i p (state s)).
Proof.
  intros Hinv Hi Hq Hp. apply (inv_move s i q); [done|done|naive_solver|naive_solver|].
  assert (∀ x, x ≠ Idle → x ≠ TCas → at_pc s x → at_pc (set_pc s i p (state s)) x) as Hk
    by (intros x ?? Hx; apply (at_pc_keep s i q); [done|naive_solver|done]).
  intros [?|Ha]%(at_pc_inv s i q); [naive_solver| |done].
  destruct (inv_wake s Hinv Ha) as [?|[?|[?|[?|?]]]];
    [by left|right..]; [left|right; left|do 2 right; left|do 3 right]; by apply Hk.
Qed.

Lemma local_inv s i p p' w' :
  inv s → threads s !! i = Some p → local p (state s) = Some (p', w') → inv (set_pc s i p' w').
Proof.
  intros Hinv Hi Hl. destruct p; try done; cbn in Hl.
  - destruct (decide (state s = 0)); simplify_eq;
      [apply (inv_take s i LCas); naive_solver|apply (inv_contend s i LCas); naive_solver].
  - destruct (decide (state s = 0)); simplify_eq; [apply (inv_take s i LSwap); naive_solver|].
    destruct Hinv as [Hw Hh He _]. constructor; cbn [state set_pc]; [by do 2 right| | |by left].
    + split; [intros _|done]. apply (at_pc_keep s i LSwap); [done..|]. by apply Hh.
    + intros j k Hj Hk. apply (set_pc_lookup s i LSwap) in Hj; [|done].
      apply (set_pc_lookup s i LSwap) in Hk; [|done]. naive_solver.
  - destruct (decide (state s = 2)); simplify_eq; apply (inv_contend s i FLoad); naive_solver.
  - destruct (decide (state s = 2)); simplify_eq; [|apply (inv_contend s i FSys); naive_solver].
    apply (inv_move s i FSys); try done. intros _. by left.
  - injection Hl as <- <-. by apply inv_release.
  - destruct (decide (state s = 0)); simplify_eq;
      [apply (inv_take s i TCas); naive_solver|apply (inv_bystander s i TCas); naive_solver].
Qed.

Lemma mutex_step_inv s s' : step s s' → inv s → inv s'.
Proof.
  intros Hstep Hinv.
  destruct Hstep as [s i p p' w' Hi Hl|s i Hi|s i Hi|s i Hi|s i j Hi Hj|s i Hi Hno].
  - by apply (local_inv s i p).
  - apply (inv_bystander s i Idle); naive_solver.
  - apply (inv_bystander s i Idle); naive_solver.
  - destruct Hi as [Hi|Hi]; eapply (inv_contend s i); naive_solver.
  - assert (i ≠ j) by congruence. rewrite list_insert_insert_ne by done.
    set (s1 := set_pc s j FLoad (state s)).
    assert (inv s1) as Hinv1 by (apply (inv_contend s j Asleep); naive_solver).
    assert (threads s1 !! i = Some UWake) as Hi1.
    { apply (set_pc_lookup s j Asleep); [done|]. right. done. }
    change (inv (set_pc s1 i Idle (state s1))). apply (inv_move s1 i UWake); try done.
    intros _. do 3 right. left. apply (at_pc_keep s1 i UWake); [done..|].
    by apply (at_pc_new s j Asleep).
  - apply (inv_move s i UWake); try done. intros [?|[j Hj]]%(at_pc_inv s i UWake); [done| |done].
    destruct Hno. by eapply list_elem_of_lookup_2.
Qed.

Lemma init_inv n : inv (init n).
Proof.
  assert (∀ p, p ≠ Idle → ¬ at_pc (init n) p) as Hno.
  { intros p Hp [i Hi]. cbn in Hi. apply lookup_replicate in Hi as [? _]. done. }
  constructor; cbn [state init].
  - by left.
  - split; [done|]. intros ?. by destruct (Hno Held).
  - intros i j Hi. destruct (Hno Held); [done|]. by exists i.
  - intros ?. by destruct (Hno Asleep).
Qed.

Lemma reachable_inv n s : rtc step (init n) s → inv s.
Proof.
  assert (∀ s0, rtc step s0 s → inv s0 → inv s) as Hall.
  { intros s0. induction 1; eauto using mutex_step_inv. }
  intros Hs. apply (Hall _ Hs), init_inv.
Qed.

(** Mutual exclusion. In every reachable state at most one thread owns the lock, and
    the word is non-zero exactly when one does. *)
Theorem mutex_exclusion n s (Hs : rtc step (init n) s) :
  (∀ i j, threads s !! i = Some Held → threads s !! j = Some Held → i = j)
  ∧ (state s ≠ 0 ↔ ∃ i, threads s !! i = Some Held).
Proof. destruct (reachable_inv n s Hs) as [_ Hh He _]. done. Qed.

(** ** Progress *)
(** The steps of calls already made, when the kernel never returns early. *)
Inductive quiet_step : MutexSys → MutexSys → Prop :=
| quiet_local s i p p' w' :
    threads s !! i = Some p → local p (state s) = Some (p', w') → quiet_step s (set_pc s i p' w')
| quiet_wake s i j :
    threads s !! i = Some UWake → threads s !! j = Some Asleep →
    quiet_step s (mkSys (state s) (<[j := FLoad]> (<[i := Idle]> (threads s))))
| quiet_wake_none s i :
    threads s !! i = Some UWake → Asleep ∉ threads s → quiet_step s (set_pc s i Idle (state s)).

Lemma quiet_is_step s s' : quiet_step s s' → step s s'.
Proof. destruct 1; by econstructor. Qed.

(** What a call has left to do: to get the lock, to release it, to wake a sleeper. *)
Definition todo (p : Pc) : nat := match p with Idle => 0 | UWake => 1 | Held => 2 | _ => 3 end.

(** How far a thread that waits is from sleeping (a contended word) or from trying again. *)
Definition rank (w : Z) (p : Pc) : nat :=
  if decide (w = 2) then match p with LCas => 4 | LSwap => 3 | FLoad => 2 | FSys => 1 | _ => 0 end
  else match p with FSys => 3 | FLoad => 2 | LCas => 2 | LSwap => 1 | _ => 0 end.

Definition rest (s : MutexSys) : nat :=
  (if decide (state s = 2) then 0 else S (4 * length (threads s)))
  + sum_list_with (rank (state s)) (threads s).

Definition work (s : MutexSys) : nat :=
  sum_list_with todo (threads s) * (8 * length (threads s) + 2) + rest s.

Lemma rank_bound w p : (rank w p ≤ 4)%nat.
Proof. unfold rank. destruct (decide _), p; lia. Qed.

Lemma rest_bound s : (rest s < 8 * length (threads s) + 2)%nat.
Proof.
  pose proof (sum_le_mul _ 4 (threads s) (rank_bound (state s))). unfold rest. case_decide; lia.
Qed.

Lemma work_bound s : (work s ≤ 3 * length (threads s) * (8 * length (threads s) + 2) + 8 * length (threads s) + 1)%nat.
Proof.
  pose proof (rest_bound s). pose proof (sum_le_mul todo 3 (threads s)) as Ht. unfold work.
  assert (sum_list_with todo (threads s) ≤ 3 * length (threads s))%nat by (apply Ht; intros []; cbn; lia).
  nia.
Qed.

(** The work shrinks when the calls have less left to do, the word becomes contended, or a thread
    gets on at the same word. *)
Lemma work_lt s s' :
  length (threads s') = length (threads s) →
  (sum_list_with todo (threads s') < sum_list_with todo (threads s)
   ∨ sum_list_with todo (threads s') = sum_list_with todo (threads s)
     ∧ (state s ≠ 2%Z ∧ state s' = 2%Z
        ∨ state s' = state s
          ∧ sum_list_with (rank (state s)) (threads s') < sum_list_with (rank (state s)) (threads s)))%nat →
  (work s' < work s)%nat.
Proof.
  intros Hl Hd. unfold work. pose proof (rest_bound s') as Hb. rewrite Hl in *.
  apply lex_lt; [done|]. destruct Hd as [?|[-> Hd]]; [by left|right]. split; [done|].
  destruct Hd as [[Hn Hy]|[Hw Hr]].
  - pose proof (sum_le_mul _ 4 (threads s') (rank_bound 2)). unfold rest.
    rewrite decide_True, decide_False, Hy by done. lia.
  - unfold rest. rewrite Hw, Hl. lia.
Qed.

Lemma quiet_work s s' : quiet_step s s' → (work s' < work s)%nat.
Proof.
  intros Hs. apply work_lt; destruct Hs as [s i p p' w' Hi Hl|s i j Hi Hj|s i Hi _];
    cbn [threads state set_pc]; rewrite ?length_insert; try done.
  - pose proof (sum_list_with_insert todo _ i p p' Hi) as Ht.
    pose proof (sum_list_with_insert (rank (state s)) _ i p p' Hi) as Hr. unfold rank in Hr at 2 4.
    destruct p; try done; cbn in Hl; repeat case_decide; simplify_eq; cbn [todo] in *; lia.
  - left. assert (i ≠ j) by congruence.
    pose proof (sum_list_with_insert todo _ i UWake Idle Hi) as Ht.
    pose proof (sum_list_with_insert todo (<[i:=Idle]> (threads s)) j Asleep FLoad) as Ht'.
    rewrite list_lookup_insert_ne in Ht' by done. specialize (Ht' Hj). cbn in *. lia.
  - left. pose proof (sum_list_with_insert todo _ i UWake Idle Hi). cbn in *. lia.
Qed.

(** Nobody is in a call. *)
Definition all_idle (s : MutexSys) : Prop := ∀ i p, threads s !! i = Some p → p = Idle.

Lemma quiet_at s i p : threads s !! i = Some p → p ≠ Idle → p ≠ Asleep → ∃ s', quiet_step s s'.
Proof.
  intros Hi Hp Ha. destruct (decide (p = UWake)) as [->|Hu].
  - destruct (decide (Asleep ∈ threads s)) as [[j Hj]%list_elem_of_lookup_1|Hno].
    + eexists. by apply (quiet_wake s i j).
    + eexists. by apply quiet_wake_none.
  - assert (∃ p' w', local p (state s) = Some (p', w')) as (p' & w' & Hl).
    { destruct p; try done; cbn; try case_decide; eauto. }
    eexists. by apply (quiet_local s i p p' w').
Qed.

(** A thread that is in a call can step, or sleeps while another one can step. *)
Lemma quiet_live s : inv s → all_idle s ∨ ∃ s', quiet_step s s'.
Proof.
  intros Hinv. destruct (decide (Forall (λ p, p = Idle) (threads s))) as [Hall|Hno].
  { left. intros i p Hi. by eapply (Forall_lookup_1 _ _ _ _ Hall). }
  right. apply not_Forall_Exists, Exists_exists in Hno as (p & [i Hi]%list_elem_of_lookup_1 & Hp); [|apply _].
  destruct (decide (p = Asleep)) as [->|Ha]; [|by eapply quiet_at].
  destruct (inv_wake s Hinv) as [H2|Ho]; [by exists i| |].
  - destruct (proj1 (inv_held s Hinv)) as [j Hj]; [lia|]. by eapply quiet_at.
  - destruct Ho as [[j Hj]|[[j Hj]|[[j Hj]|[j Hj]]]]; by eapply quiet_at.
Qed.

Lemma step_threads s s' : step s s' → length (threads s') = length (threads s).
Proof. destruct 1; cbn; by rewrite ?length_insert. Qed.

(** C6: progress. Let threads be anywhere in their calls, in any reachable state. When no thread calls
    again and the kernel never returns early, every schedule ends: there is a
    bound on the number of steps, quadratic in the number of threads, and a schedule stops only when
    every call has returned, every guard is dropped and the word is 0; so no wake-up is
    lost and no thread sleeps or spins for ever. *)
Theorem mutex_progress n s (Hs : rtc step (init n) s) :
  settles quiet_step (λ s', all_idle s' ∧ state s' = 0) (3 * n * (8 * n + 2) + 8 * n + 1) s.
Proof.
  assert (length (threads s) = n) as Hn.
  { revert s Hs. apply rtc_ind_r; [by cbn; rewrite length_replicate|].
    intros x y _ Hxy IH. by rewrite (step_threads x y Hxy). }
  apply (settling _ inv _ work); [| |by eapply reachable_inv|rewrite <-Hn; apply work_bound].
  - intros x y Hx Hxy. split; [by eapply mutex_step_inv; [apply quiet_is_step|]|by apply quiet_work].
  - intros x Hx. destruct (quiet_live x Hx) as [Hi|Hq]; [left|by right]. split; [done|].
    destruct (decide (state x = 0)) as [|Hne]; [done|].
    apply (inv_held x Hx) in Hne as [i Hheld]. by apply Hi in Hheld.
Qed.

(** ** A contended run of three threads *)
Definition sample_asleep : MutexSys := mkSys 2 [Held; Asleep; Idle].

Lemma sample_asleep_reachable : rtc step (init 3) sample_asleep.
Proof.
  advance ltac:(by apply (step_call_lock _ 0)).
  advance ltac:(by apply (step_local _ 0 LCas Held 1)).
  advance ltac:(by apply (step_call_lock _ 1)).
  advance ltac:(by apply (step_local _ 1 LCas LSwap 1)).
  advance ltac:(by apply (step_local _ 1 LSwap FLoad 2)).
  advance ltac:(by apply (step_local _ 1 FLoad FSys 2)).
  advance ltac:(by apply (step_local _ 1 FSys Asleep 2)).
  apply rtc_refl.
Qed.

(** An instance. *)
Lemma mutex_exclusion_witness : ∃ i, threads sample_asleep !! i = Some Held.
Proof.
  apply (mutex_exclusion 3 sample_asleep sample_asleep_reachable). cbn. lia.
Defined.

(** Witness of C6. *)
Lemma mutex_progress_witness :
  ∃ s, rtc quiet_step sample_asleep s ∧ all_idle s ∧ state s = 0.
Proof. exact (proj2 (proj2 (mutex_progress 3 sample_asleep sample_asleep_reachable))). Defined.
