(* ===== verification/LockSpec.v ===== *)
(** The futex mutex of Mutex.v implements the lock of Lock.v.

    Every interleaving of the implementation shows the events of the lock, every sequence of
    events of the lock is shown by one, and a [LockClient] reaches the same states over either. *)
From S2P Require Import Prelude Lock Mutex.

(** * The events of the implementation *)
(** What a client sees of thread [i] moving from [p] to [p']. *)
Definition event (i : nat) (p p' : Pc) : list LockEv :=
  match p, p' with
  | Held, Held => []
  | _, Held => [Acquire i]
  | Held, _ => [Release i]
  | TCas, Idle => [TryFail i]
  | _, _ => []
  end.

Definition visible (s s' : MutexSys) : list LockEv := moves event 0 (threads s) (threads s').

(** An interleaving and the events it shows. *)
Inductive run : MutexSys → list LockEv → MutexSys → Prop :=
| run_refl s : run s [] s
| run_step s s' s'' tr : step s s' → run s' tr s'' → run s (visible s s' ++ tr) s''.

(** Who owns the lock: the thread with the guard. *)
Definition owner (s : MutexSys) : option nat := fst <$> list_find (λ p, p = Held) (threads s).

#[local] Arguments event : simpl never.

(** * Lemmas on events *)
Lemma event_refl i p : event i p p = [].
Proof. by destruct p. Qed.

Lemma visible_set_pc s i p p' w : threads s !! i = Some p → visible s (set_pc s i p' w) = event i p p'.
Proof. apply (moves_insert event event_refl 0). Qed.

Lemma visible_wake s i j :
  threads s !! i = Some UWake → threads s !! j = Some Asleep →
  visible s (mkSys (state s) (<[j := FLoad]> (<[i := Idle]> (threads s)))) = [].
Proof.
  intros Hi Hj. apply moves_silent. intros k p p' Hp. cbn [threads].
  rewrite !list_lookup_insert_Some.
  intros [(-> & <- & _)|[_ [(-> & <- & _)|[_ Hp']]]]; simplify_eq; [done..|]. apply event_refl.
Qed.

Lemma run_app s s' s'' tr tr' : run s tr s' → run s' tr' s'' → run s (tr ++ tr') s''.
Proof. induction 1; [done|]. intros. rewrite <-(assoc_L (++)). econstructor; eauto. Qed.

(** * The implementation does what the lock may do *)
Lemma owner_some s i : inv s → owner s = Some i ↔ threads s !! i = Some Held.
Proof.
  intros Hinv. unfold owner. split.
  - intros ([k p] & (Hk & -> & _)%list_find_Some & ->)%fmap_Some. done.
  - intros Hi. destruct (list_find_elem_of (λ p, p = Held) (threads s) Held) as [[k p] Hk];
      [by eapply list_elem_of_lookup_2|done|].
    rewrite Hk. apply list_find_Some in Hk as (Hk & -> & _). cbn. f_equal. by eapply inv_excl.
Qed.

Lemma owner_none s : inv s → owner s = None ↔ state s = 0.
Proof.
  intros Hinv. pose proof (inv_held s Hinv) as Hh. split.
  - intros Ho. destruct (decide (state s = 0)) as [?|Hne]; [done|].
    apply Hh in Hne as [i Hi]. apply (owner_some s i Hinv) in Hi. congruence.
  - intros H0. destruct (owner s) as [i|] eqn:E; [|done]. apply (owner_some s i Hinv) in E.
    assert (state s ≠ 0) by (apply Hh; by exists i). lia.
Qed.

(** The owner after thread [i] moved: taken, released or unchanged. *)
Lemma owner_set_pc s i p p' w :
  inv s → inv (set_pc s i p' w) → threads s !! i = Some p →
  owner (set_pc s i p' w) =
    if decide (p' = Held) then Some i else if decide (p = Held) then None else owner s.
Proof.
  intros Hinv Hinv' Hi. destruct (decide (p' = Held)) as [->|Hp'].
  { apply owner_some, (set_pc_lookup s i p); [done|done|]. by left. }
  apply option_eq. intros j. rewrite (owner_some _ _ Hinv'), (set_pc_lookup s i p) by done.
  destruct (decide (p = Held)) as [->|Hp].
  - split; [|done]. intros [[-> ?]|[Hne Hj]]; [congruence|]. destruct Hne. by apply (inv_excl s Hinv).
  - rewrite (owner_some s j Hinv). naive_solver.
Qed.

(** What an operation of a thread can be to the lock. *)
Inductive move_view (w : Z) : Pc → Pc → Prop :=
| view_take p : p ≠ Held → w = 0 → move_view w p Held
| view_drop p' : p' ≠ Held → move_view w Held p'
| view_fail : w ≠ 0 → move_view w TCas Idle
| view_silent p p' : p ≠ Held → p' ≠ Held → (∀ i, event i p p' = []) → move_view w p p'.

Lemma local_view p w p' w' : local p w = Some (p', w') → move_view w p p'.
Proof.
  intros Hl. destruct p; try done; cbn in Hl; repeat case_decide; simplify_eq.
  all: first [by apply view_take|by apply view_drop|by apply view_fail|by apply view_silent].
Qed.

Lemma local_sim n s i p p' w' :
  length (threads s) = n → inv s → threads s !! i = Some p → local p (state s) = Some (p', w') →
  lock_run n (owner s) (event i p p') (owner (set_pc s i p' w')).
Proof.
  intros <- Hinv Hi Hl. assert (i < length (threads s))%nat as Hlt by (by eapply lookup_lt_Some).
  rewrite (owner_set_pc s i p) by eauto using local_inv.
  destruct (local_view _ _ _ _ Hl) as [p Hp H0|p' Hp'|H0|p p' Hp Hp' He].
  - rewrite decide_True, (proj2 (owner_none s Hinv) H0) by done.
    replace (event i p Held) with [Acquire i] by (by destruct p). eauto with lock.
  - rewrite decide_False, decide_True, (proj2 (owner_some s i Hinv) Hi) by done.
    replace (event i Held p') with [Release i] by (by destruct p'). eauto with lock.
  - rewrite !decide_False by done. destruct (owner s) as [j|] eqn:E.
    + apply lock_run_one, lock_try_fail; [done|]. intros ->. apply owner_some in E; [congruence|done].
    + by apply owner_none in E.
  - rewrite !decide_False, He by done. constructor.
Qed.

Lemma silent_sim n s i p p' :
  length (threads s) = n → inv s → inv (set_pc s i p' (state s)) → threads s !! i = Some p →
  p ≠ Held → p' ≠ Held → event i p p' = [] →
  lock_run n (owner s) (visible s (set_pc s i p' (state s))) (owner (set_pc s i p' (state s))).
Proof.
  intros Hn Hinv Hinv' Hi Hp Hp' He. rewrite (visible_set_pc s i p), He by done.
  rewrite (owner_set_pc s i p) by done. rewrite !decide_False by done. constructor.
Qed.

Lemma step_sim n s s' :
  length (threads s) = n → inv s → step s s' → lock_run n (owner s) (visible s s') (owner s').
Proof.
  intros Hn Hinv Hstep. pose proof (mutex_step_inv s s' Hstep Hinv) as Hinv'.
  destruct Hstep as [s i p p' w' Hi Hl|s i Hi|s i Hi|s i Hi|s i j Hi Hj|s i Hi Hno].
  - rewrite (visible_set_pc s i p) by done. by apply local_sim.
  - by apply (silent_sim n s i Idle).
  - by apply (silent_sim n s i Idle).
  - destruct Hi; by eapply (silent_sim n s i).
  - rewrite visible_wake by done. set (s' := mkSys _ _) in *. assert (owner s' = owner s) as ->; [|constructor].
    apply option_eq. intros k. rewrite !owner_some by done. unfold s'. cbn [threads].
    rewrite !list_lookup_insert_Some, length_insert. naive_solver eauto using lookup_lt_Some.
  - by apply (silent_sim n s i UWake).
Qed.

Lemma step_length s s' : step s s' → length (threads s') = length (threads s).
Proof. destruct 1; cbn; by rewrite ?length_insert. Qed.

Lemma run_sim n s tr s' :
  length (threads s) = n → inv s → run s tr s' → lock_run n (owner s) tr (owner s').
Proof.
  intros Hn Hinv Hrun. revert Hn Hinv. induction Hrun as [|s s1 s2 tr Hstep _ IH]; [constructor|].
  intros Hn Hinv. eapply lock_run_app; [by apply step_sim|].
  apply IH; [by rewrite (step_length s)|by eapply mutex_step_inv].
Qed.

(** * The implementation can do what the lock may do *)
Definition silent (s s' : MutexSys) : Prop := step s s' ∧ visible s s' = [].

(** A state in which nobody but the owner is inside a call. *)
Definition quiet (n : nat) (o : option nat) : MutexSys :=
  match o with
  | None => init n
  | Some i => mkSys 1 (<[i := Held]> (replicate n Idle))
  end.

(** Thread [i] makes the call [p] and returns from it at once. *)
Definition realises (s : MutexSys) (e : LockEv) (s' : MutexSys) : Prop :=
  ∃ s1, rtc silent s s1 ∧ step s1 s' ∧ visible s1 s' = [e].

Lemma quiet_idle n o i : (i < n)%nat → o ≠ Some i → threads (quiet n o) !! i = Some Idle.
Proof.
  intros Hi Ho. destruct o as [j|]; cbn; rewrite ?list_lookup_insert_ne by congruence;
    by apply lookup_replicate_2.
Qed.

Lemma quiet_held n i : (i < n)%nat → threads (quiet n (Some i)) !! i = Some Held.
Proof. intros Hi. apply list_lookup_insert_eq. by rewrite length_replicate. Qed.

(** A call, then its first operation. *)
Lemma realises_call s i p q w e :
  threads s !! i = Some Idle → step s (set_pc s i p (state s)) → event i Idle p = [] →
  local p (state s) = Some (q, w) → event i p q = [e] → realises s e (set_pc s i q w).
Proof.
  intros Hi Hcall He Hl Hq. set (s1 := set_pc s i p (state s)) in *.
  assert (threads s1 !! i = Some p) as H1 by (apply (set_pc_lookup s i Idle); [done|by left]).
  exists s1. assert (set_pc s i q w = set_pc s1 i q w) as ->
    by (unfold s1, set_pc; cbn; by rewrite list_insert_insert_eq).
  split_and!.
  - apply rtc_once. split; [done|]. unfold s1. by rewrite (visible_set_pc s i Idle).
  - by eapply step_local.
  - by rewrite (visible_set_pc s1 i p).
Qed.

Lemma quiet_realises n o e o' : lock_step n o e o' → realises (quiet n o) e (quiet n o').
Proof.
  destruct 1 as [i Hi|i Hi|i j Hi Hne].
  - apply (realises_call (init n) i LCas Held 1); try done; [by apply (quiet_idle n None)|].
    apply step_call_lock. by apply (quiet_idle n None).
  - pose proof (quiet_held n i Hi) as H0. exists (quiet n (Some i)).
    assert (quiet n None = set_pc (quiet n (Some i)) i Idle 0) as ->.
    { unfold set_pc, quiet, init; cbn. f_equal. rewrite list_insert_insert_eq.
      symmetry. apply list_insert_id. by apply lookup_replicate_2. }
    split_and!; [done|by eapply step_local|by rewrite (visible_set_pc _ i Held)].
  - pose proof (quiet_idle n (Some j) i Hi ltac:(congruence)) as H0.
    assert (quiet n (Some j) = set_pc (quiet n (Some j)) i Idle 1) as Heq
      by (unfold set_pc, quiet; cbn; f_equal; symmetry; by apply list_insert_id).
    rewrite Heq at 2. by apply (realises_call _ i TCas Idle 1); [|apply step_call_try|..].
Qed.

Lemma run_silent s s' s'' tr : rtc silent s s' → run s' tr s'' → run s tr s''.
Proof.
  induction 1 as [|s s1 s' [Hs Hv] _ IH]; [done|]. intros Hr. change tr with ([] ++ tr).
  rewrite <-Hv. econstructor; eauto.
Qed.

Lemma realises_run s e s' : realises s e s' → run s [e] s'.
Proof.
  intros (s1 & Hsil & Hs & Hv). eapply run_silent; [done|]. change [e] with ([e] ++ []).
  rewrite <-Hv. by repeat econstructor.
Qed.

Lemma lock_run_real n o tr o' : lock_run n o tr o' → run (quiet n o) tr (quiet n o').
Proof.
  induction 1 as [o|o o1 o2 e tr Hs _ IH]; [constructor|]. change (e :: tr) with ([e] ++ tr).
  eapply run_app; [|exact IH]. by apply realises_run, quiet_realises.
Qed.

Lemma run_rtc s tr s' : run s tr s' → rtc step s s'.
Proof. induction 1; [constructor|by eapply rtc_l]. Qed.

(** * The two theorems *)
Lemma owner_init n : owner (init n) = None.
Proof. apply owner_none; [apply init_inv|done]. Qed.

(** The owner of a quiet state that an interleaving reaches. *)
Lemma owner_quiet n o : (∀ i, o = Some i → (i < n)%nat) → owner (quiet n o) = o.
Proof.
  intros Ho. destruct o as [i|]; [|apply owner_init]. pose proof (Ho i eq_refl) as Hi.
  apply owner_some; [|by apply quiet_held]. apply (reachable_inv n), (run_rtc _ [Acquire i]).
  by apply (realises_run (quiet n None)), quiet_realises, lock_acquire.
Qed.

Lemma lock_step_bound n o e o' : lock_step n o e o' → ∀ i, o' = Some i → o = Some i ∨ (i < n)%nat.
Proof. destruct 1; naive_solver. Qed.

Lemma lock_run_bound n o tr o' : lock_run n o tr o' → ∀ i, o' = Some i → o = Some i ∨ (i < n)%nat.
Proof. induction 1 as [|? ? ? ? ? Hs _ IH]; [naive_solver|]. naive_solver eauto using lock_step_bound. Qed.

(** The mutex is a lock. The sequences of events that the interleavings of [n] threads show
    (guards obtained, guards dropped, failed [try_lock]s) are exactly those of the abstract lock,
    and the thread with the guard is its owner. *)
Theorem mutex_refines_lock n tr o :
  (∃ s, run (init n) tr s ∧ owner s = o) ↔ lock_run n None tr o.
Proof.
  split.
  - intros (s & Hrun & <-). rewrite <-(owner_init n).
    apply run_sim; [apply length_replicate|apply init_inv|done].
  - intros Hrun. exists (quiet n o). split; [by apply (lock_run_real n None)|].
    apply owner_quiet. intros i ->. by destruct (lock_run_bound n None tr _ Hrun i).
Qed.

(** * Clients *)
Section client.
Context {C : Type} (cstep : C → C → Prop) (own : C → option nat) (put : option nat → C → C) (inside : C → nat → bool).

Notation free := (free_step cstep put inside).
Notation on_lock := (over_lock cstep put inside).

(** A client over the futex mutex: the client's own owner is taken away, its locks and unlocks happen with those
    of the mutex, and the mutex makes its other steps whenever it likes. *)
Inductive over_mutex : C * MutexSys → C * MutexSys → Prop :=
| om_client c c' s : free c None c' → over_mutex (c, s) (c', s)
| om_mutex c s s' : silent s s' → over_mutex (c, s) (c, s')
| om_event c c' s s' e :
    free c (Some e) c' → step s s' → visible s s' = [e] → over_mutex (c, s) (c', s').

Lemma over_mutex_sim n c s x :
  length (threads s) = n → inv s → over_mutex (c, s) x →
  length (threads x.2) = n ∧ inv x.2 ∧ rtc (on_lock n) (c, owner s) (x.1, owner x.2).
Proof.
  intros Hn Hinv Hx. inversion Hx as [? c' ? Hc|? ? s' [Hs Hv]|? c' ? s' e Hc Hs Hv]; subst; cbn.
  - split_and!; [done..|]. by apply rtc_once, ol_silent.
  - pose proof (step_sim _ s s' eq_refl Hinv Hs) as Hsim. rewrite Hv in Hsim.
    apply lock_run_nil_inv in Hsim as ->.
    split_and!; [by apply step_length|by eapply mutex_step_inv|done].
  - pose proof (step_sim _ s s' eq_refl Hinv Hs) as Hsim. rewrite Hv, lock_run_one in Hsim.
    split_and!; [by apply step_length|by eapply mutex_step_inv|]. by eapply rtc_once, ol_event.
Qed.

Lemma over_mutex_lock n c0 x :
  rtc over_mutex (c0, init n) x →
  length (threads x.2) = n ∧ inv x.2 ∧ rtc (on_lock n) (c0, None) (x.1, owner x.2).
Proof.
  revert x. apply rtc_ind_r.
  - cbn [fst snd]. rewrite owner_init. split_and!; [apply length_replicate|apply init_inv|done].
  - intros [c s] x _ Hx (Hn & Hinv & IH).
    destruct (over_mutex_sim n c s x Hn Hinv Hx) as (? & ? & ?).
    split_and!; [done..|]. by etrans.
Qed.

Lemma over_lock_mutex n c0 x :
  rtc (on_lock n) (c0, None) x → rtc over_mutex (c0, init n) (x.1, quiet n x.2).
Proof.
  revert x. apply rtc_ind_r; [done|]. intros ? ? _ Hx IH. etrans; [exact IH|].
  destruct Hx as [c c' o Hc|c c' e o o' Hc He]; cbn; [by apply rtc_once, om_client|].
  destruct (quiet_realises n o e o' He) as (s1 & Hsil & Hs & Hv). eapply rtc_r; [|by eapply om_event].
  clear -Hsil. induction Hsil; [done|]. eapply rtc_l; [|done]. by apply om_mutex.
Qed.

Lemma over_lock_bound n c0 x : rtc (on_lock n) (c0, None) x → ∀ i, x.2 = Some i → (i < n)%nat.
Proof.
  revert x. apply (rtc_ind_r (λ x : C * option nat, ∀ i, x.2 = Some i → (i < n)%nat)); [done|].
  intros x y _ Hxy IH i. destruct Hxy as [c c' o _|c c' e o o' _ He]; [apply IH|].
  cbn in *. intros Ho'. destruct (lock_step_bound _ _ _ _ He i Ho'); [by apply IH|done].
Qed.

(** The states of a client over the mutex are its states over the abstract lock. *)
Lemma over_mutex_reach c0 `{!LockClient cstep own put inside c0} n c s :
  rtc over_mutex (c0, init n) (c, s) →
  rtc cstep c0 (put (owner s) c) ∧ ∀ i, owner s = Some i ↔ inside c i = true.
Proof.
  intros (_ & _ & Hl)%over_mutex_lock. cbn in Hl. split.
  - by apply (over_lock_reach cstep own put inside c0 n (c, owner s)).
  - by eapply over_lock_inside.
Qed.

Lemma reach_over_mutex c0 `{!LockClient cstep own put inside c0} c :
  rtc cstep c0 c → ∃ n s, rtc over_mutex (c0, init n) (c, s) ∧ owner s = own c.
Proof.
  intros [n Hn]%(client_over_lock cstep own put inside c0). exists n, (quiet n (own c)).
  split; [by apply (over_lock_mutex n c0 (c, own c))|]. apply owner_quiet. intros i. by apply (over_lock_bound n c0 (c, own c)).
Qed.

(** C5: clients of the mutex. Take a system whose threads work around one lock, take its own record of the owner away, so
    that no lock call of it ever waits, and make every lock and unlock together with one of the futex mutex. It then
    reaches exactly the states it reaches over the abstract lock, with the thread that has the mutex as the owner; and the
    thread that has the mutex is exactly the one between lock and unlock. *)
Theorem lock_client_over_mutex c0 (HC : LockClient cstep own put inside c0) :
  (∀ n c s, rtc over_mutex (c0, init n) (c, s) →
     rtc cstep c0 (put (owner s) c) ∧ ∀ i, owner s = Some i ↔ inside c i = true)
  ∧ (∀ c, rtc cstep c0 c → ∃ n s, rtc over_mutex (c0, init n) (c, s) ∧ owner s = own c).
Proof. split; [intros; by eapply over_mutex_reach|intros; by eapply reach_over_mutex]. Qed.
End client.
