(* ===== verification/Object.v ===== *)
(** Data behind one [Mutex], used by operations that each lock, work and unlock: the shape of the
    environment map (src/src/env.rs) and of other statics of the library.

    An operation reads the data in one step and stores the new data in another one, so that two threads at work at the same
    time could lose an update; the lock prevents that, and the object is atomic: what threads see of it, the calls and returns with their
    results, is exactly what they see of an object that makes each operation in one step between its call
    and its return.  The lock is used through its contract (Lock.v), and the result is stated
    over the futex mutex (LockSpec.v). *)
From S2P Require Import Prelude Lock Mutex LockSpec.

Section object.
Context {T Op Res : Type} (apply : Op → T → Res * T).

(** What is seen from outside. *)
Inductive ObjEv : Type :=
| Invoke (i : nat) (op : Op)
| Return (i : nat) (r : Res).

(** * The contract *)
Inductive AtPc : Type := AIdle | APending (op : Op) | ADone (r : Res).

Record AtSys := mkAt { at_data : T; at_pcs : list AtPc; at_hist : list ObjEv }.

Inductive at_step : AtSys → AtSys → Prop :=
| at_invoke a i op :
    at_pcs a !! i = Some AIdle →
    at_step a (mkAt (at_data a) (<[i := APending op]> (at_pcs a)) (at_hist a ++ [Invoke i op]))
| at_effect a i op :
    at_pcs a !! i = Some (APending op) →
    at_step a (mkAt (apply op (at_data a)).2 (<[i := ADone (apply op (at_data a)).1]> (at_pcs a)) (at_hist a))
| at_return a i r :
    at_pcs a !! i = Some (ADone r) →
    at_step a (mkAt (at_data a) (<[i := AIdle]> (at_pcs a)) (at_hist a ++ [Return i r])).

Definition at_init (n : nat) (x : T) : AtSys := mkAt x (replicate n AIdle) [].

(** * The locked object *)
Inductive ObjPc : Type :=
| OIdle
| OLock (op : Op)                (* cell.lock() *)
| ORead (op : Op)                (* the guard is held: the data is read *)
| OWrite (op : Op) (r : Res) (x : T)   (* the new data is stored *)
| ODrop (r : Res)                (* the guard is dropped *)
| ORet (r : Res).

Record ObjSys := mkObj { ob_owner : option nat; ob_data : T; ob_pcs : list ObjPc; ob_hist : list ObjEv }.

(** One thread's next step: the counter, the owner and the data after it. *)
Definition obj_op (i : nat) (p : ObjPc) (o : option nat) (x : T) : option (ObjPc * option nat * T) :=
  match p with
  | OLock op => match o with None => Some (ORead op, Some i, x) | Some _ => None end
  | ORead op => let '(r, x') := apply op x in Some (OWrite op r x', o, x)
  | OWrite _ r x' => Some (ODrop r, o, x')
  | ODrop r => Some (ORet r, None, x)
  | _ => None
  end.

Inductive obj_step : ObjSys → ObjSys → Prop :=
| obj_invoke s i op :
    ob_pcs s !! i = Some OIdle →
    obj_step s (mkObj (ob_owner s) (ob_data s) (<[i := OLock op]> (ob_pcs s)) (ob_hist s ++ [Invoke i op]))
| obj_move s i p p' o x :
    ob_pcs s !! i = Some p → obj_op i p (ob_owner s) (ob_data s) = Some (p', o, x) →
    obj_step s (mkObj o x (<[i := p']> (ob_pcs s)) (ob_hist s))
| obj_return s i r :
    ob_pcs s !! i = Some (ORet r) →
    obj_step s (mkObj (ob_owner s) (ob_data s) (<[i := OIdle]> (ob_pcs s)) (ob_hist s ++ [Return i r])).

Definition obj_init (n : nat) (x : T) : ObjSys := mkObj None x (replicate n OIdle) [].

(** ** The lock *)
Definition obj_holds (p : ObjPc) : bool :=
  match p with ORead _ | OWrite _ _ _ | ODrop _ => true | _ => false end.
Definition obj_put (o : option nat) (s : ObjSys) : ObjSys := mkObj o (ob_data s) (ob_pcs s) (ob_hist s).
Definition obj_inside (s : ObjSys) (i : nat) : bool := held_in obj_holds (ob_pcs s) i.

#[export] Instance object_lock_client n x : LockClient obj_step ob_owner obj_put obj_inside (obj_init n x).
Proof.
  split; [done|intros; by apply held_replicate|by intros []|done|done|done|].
  assert (∀ s s' i p p', ob_pcs s !! i = Some p → ob_pcs s' = <[i := p']> (ob_pcs s) → obj_holds p' = obj_holds p →
    ob_owner s' = ob_owner s → (∀ o, obj_step (obj_put o s) (obj_put o s')) →
    client_kind obj_step ob_owner obj_put obj_inside s s') as Hsilent.
  { intros s s' i p p' Hi Hp Hh Ho Hs. apply kind_silent; [done..|]. intros j. unfold obj_inside. rewrite Hp.
    by apply held_insert_same with p. }
  intros s s' Hs. destruct Hs as [s i op Hi|s i p p' o x' Hi Hop|s i r Hi].
  - eapply (Hsilent _ _ i OIdle); [done|reflexivity|done|done|]. intros o. by apply (obj_invoke (obj_put o s)).
  - destruct p as [|op|op|op r y|r|]; cbn in Hop; try done.
    + destruct (ob_owner s) eqn:Eo; [done|]. injection Hop as <- <- <-. apply (kind_acquire _ _ _ _ _ _ i); [done..| |].
      * by apply (held_insert obj_holds _ i (OLock op)).
      * intros j Hj. by apply held_insert_ne.
    + destruct (apply op (ob_data s)) as [r y] eqn:E. injection Hop as <- <- <-.
      eapply (Hsilent _ _ i (ORead op)); [done|reflexivity|done|done|].
      intros o. eapply (obj_move (obj_put o s) i (ORead op)); [done|]. cbn. by rewrite E.
    + injection Hop as <- <- <-. eapply (Hsilent _ _ i (OWrite op r y)); [done|reflexivity|done|done|].
      intros o. by eapply (obj_move (obj_put o s) i (OWrite op r y)).
    + injection Hop as <- <- <-. apply (kind_release _ _ _ _ _ _ i); [done|by apply (held_at obj_holds _ i (ODrop r))| |].
      * by apply (held_insert obj_holds _ i (ODrop r)).
      * intros j Hj. by apply held_insert_ne.
  - eapply (Hsilent _ _ i (ORet r)); [done|reflexivity|done|done|]. intros o. by apply (obj_return (obj_put o s)).
Qed.

(** ** What the lock is for: nobody changes the data between a thread's read and its write. *)
Definition obj_inv (s : ObjSys) : Prop :=
  ∀ i op r x, ob_pcs s !! i = Some (OWrite op r x) → apply op (ob_data s) = (r, x).

Lemma obj_step_inv n x s s' : rtc obj_step (obj_init n x) s → obj_step s s' → obj_inv s → obj_inv s'.
Proof.
  intros Hr Hs Hinv. pose proof (client_inside _ _ _ _ (obj_init n x) s Hr) as Hin.
  assert (∀ i j p q, ob_pcs s !! i = Some p → obj_holds p = true → ob_pcs s !! j = Some q → obj_holds q = true → i = j)
    as Hone.
  { intros i j p q Hi Hp Hj Hq. rewrite <-(held_at obj_holds _ i p Hi) in Hp. rewrite <-(held_at obj_holds _ j q Hj) in Hq.
    apply Hin in Hp, Hq. congruence. }
  destruct Hs as [s i op Hi|s i p p' o y Hi Hop|s i r Hi]; intros j op' r' x' Hj; cbn in *.
  - apply (lookup_upd _ i OIdle) in Hj as [[_ ?]|[_ Hj]]; [done|by eapply Hinv|done].
  - destruct p as [|op|op|op r z|r|]; cbn in Hop; try done.
    + destruct (ob_owner s); simplify_eq.
      apply (lookup_upd _ i (OLock op)) in Hj as [[_ ?]|[_ Hj]]; [done|by eapply Hinv|done].
    + destruct (apply op (ob_data s)) as [r y'] eqn:E. simplify_eq.
      apply (lookup_upd _ i (ORead op)) in Hj as [[-> Hj]|[_ Hj]]; [by simplify_eq|by eapply Hinv|done].
    + simplify_eq. apply (lookup_upd _ i (OWrite op r y)) in Hj as [[_ ?]|[Hne Hj]]; [done| |done].
      destruct Hne. by eapply (Hone j i).
    + simplify_eq. apply (lookup_upd _ i (ODrop r)) in Hj as [[_ ?]|[_ Hj]]; [done|by eapply Hinv|done].
  - apply (lookup_upd _ i (ORet r)) in Hj as [[_ ?]|[_ Hj]]; [done|by eapply Hinv|done].
Qed.

Lemma obj_reachable n x s : rtc obj_step (obj_init n x) s → obj_inv s.
Proof.
  revert s. apply (rtc_ind_r obj_inv); [by intros i op r y [? _]%lookup_replicate|].
  intros s s' Hr Hs. by eapply obj_step_inv.
Qed.

(** * Refinement *)
Definition view (p : ObjPc) : AtPc :=
  match p with
  | OIdle => AIdle
  | OLock op | ORead op | OWrite op _ _ => APending op
  | ODrop r | ORet r => ADone r
  end.

Definition atomic_view (s : ObjSys) : AtSys := mkAt (ob_data s) (view <$> ob_pcs s) (ob_hist s).

Lemma lookup_view s i p : ob_pcs s !! i = Some p → at_pcs (atomic_view s) !! i = Some (view p).
Proof. intros Hi. cbn. by rewrite list_lookup_fmap, Hi. Qed.

(** A step of the locked object is a step of the atomic one, or nothing: the write is the effect. *)
Lemma obj_step_sim s s' :
  obj_inv s → obj_step s s' → at_step (atomic_view s) (atomic_view s') ∨ atomic_view s = atomic_view s'.
Proof.
  assert (∀ s i p p', ob_pcs s !! i = Some p → view p' = view p →
            view <$> <[i := p']> (ob_pcs s) = view <$> ob_pcs s) as Hsame.
  { intros s0 i p p' Hi E. rewrite list_fmap_insert, E. apply list_insert_id. by rewrite list_lookup_fmap, Hi. }
  intros Hinv Hs. destruct Hs as [s i op Hi|s i p p' o x Hi Hop|s i r Hi]; unfold atomic_view; cbn.
  - left. rewrite list_fmap_insert. apply (at_invoke (atomic_view s) i). by apply lookup_view in Hi.
  - destruct p as [|op|op|op r y|r|]; cbn in Hop; try done.
    + right. destruct (ob_owner s); simplify_eq. by rewrite (Hsame s i _ (ORead op) Hi).
    + right. destruct (apply op (ob_data s)) as [r y]. simplify_eq. by rewrite (Hsame s i _ (OWrite op r y) Hi).
    + left. pose proof (Hinv i op r y Hi) as E. apply lookup_view in Hi.
      pose proof (at_effect (atomic_view s) i op Hi) as H. cbn in H. rewrite E in H. simplify_eq/=.
      by rewrite list_fmap_insert.
    + right. simplify_eq. by rewrite (Hsame s i _ (ORet r) Hi).
  - left. rewrite list_fmap_insert. apply (at_return (atomic_view s) i). by apply lookup_view in Hi.
Qed.

Lemma obj_run_sim n x s : rtc obj_step (obj_init n x) s → rtc at_step (at_init n x) (atomic_view s).
Proof.
  revert s. apply (rtc_ind_r (λ s, rtc at_step (at_init n x) (atomic_view s))); [|intros s s' Hr Hs IH].
  - unfold atomic_view, at_init. cbn. by rewrite fmap_replicate.
  - apply obj_step_sim in Hs as [Hs| <-]; [by eapply rtc_r|done|by eapply obj_reachable].
Qed.

(** Conversely the locked object can make each operation at once, with nobody at the lock. *)
Definition real (p : AtPc) : ObjPc :=
  match p with AIdle => OIdle | APending op => OLock op | ADone r => ORet r end.

Definition at_rest (a : AtSys) : ObjSys := mkObj None (at_data a) (real <$> at_pcs a) (at_hist a).

Lemma lookup_real a i p : at_pcs a !! i = Some p → ob_pcs (at_rest a) !! i = Some (real p).
Proof. intros Hi. cbn. by rewrite list_lookup_fmap, Hi. Qed.

Lemma at_step_real a a' : at_step a a' → rtc obj_step (at_rest a) (at_rest a').
Proof.
  intros Hs. destruct Hs as [a i op Hi|a i op Hi|a i r Hi]; apply lookup_real in Hi.
  - apply rtc_once. pose proof (obj_invoke (at_rest a) i op Hi) as H. cbn in H.
    unfold at_rest at 2. cbn. by rewrite list_fmap_insert.
  - assert (i < length (real <$> at_pcs a))%nat as Hlt by (by eapply lookup_lt_Some).
    destruct (apply op (at_data a)) as [r y] eqn:E.
    eapply rtc_l; [by eapply (obj_move _ i (OLock op))|].
    eapply rtc_l; [eapply (obj_move _ i (ORead op)); cbn; [by apply list_lookup_insert_eq|by rewrite E]|].
    eapply rtc_l; [eapply (obj_move _ i (OWrite op r y)); cbn; [|done]|].
    { apply list_lookup_insert_eq. by rewrite length_insert. }
    eapply rtc_l; [eapply (obj_move _ i (ODrop r)); cbn; [|done]|].
    { apply list_lookup_insert_eq. by rewrite !length_insert. }
    cbn. rewrite !list_insert_insert_eq. unfold at_rest. cbn. by rewrite list_fmap_insert.
  - apply rtc_once. pose proof (obj_return (at_rest a) i r Hi) as H. cbn in H.
    unfold at_rest at 2. cbn. by rewrite list_fmap_insert.
Qed.

Lemma at_run_real n x a : rtc at_step (at_init n x) a → rtc obj_step (obj_init n x) (at_rest a).
Proof.
  assert (obj_init n x = at_rest (at_init n x)) as ->.
  { unfold at_rest, obj_init. cbn. by rewrite fmap_replicate. }
  induction 1 as [|a1 a2 a3 Hs _ IH]; [done|]. etrans; [by apply at_step_real|done].
Qed.

(** Over the futex mutex, the calls and returns seen and the data left are exactly those of
    the atomic object. *)
Lemma object_atomic n x h d :
  (∃ k s m, rtc (over_mutex obj_step obj_put obj_inside) (obj_init n x, init k) (s, m) ∧ ob_hist s = h ∧ ob_data s = d)
  ↔ (∃ a, rtc at_step (at_init n x) a ∧ at_hist a = h ∧ at_data a = d).
Proof.
  split.
  - intros (k & s & m & Hr & <- & <-).
    destruct (over_mutex_reach obj_step ob_owner obj_put obj_inside (obj_init n x) k s m Hr) as [Hs _].
    exists (atomic_view (obj_put (owner m) s)). split_and!; [by apply obj_run_sim|done..].
  - intros (a & Ha%at_run_real & <- & <-).
    destruct (reach_over_mutex obj_step ob_owner obj_put obj_inside (obj_init n x) _ Ha) as (k & m & Hr & _).
    by eexists k, (at_rest a), _.
Qed.

(** * The order of the operations *)
(** The operations in the order of their effects, each with its thread and its result. *)
Inductive seq_run : T → list (nat * Op * Res) → T → Prop :=
| seq_nil x : seq_run x [] x
| seq_snoc x log x' i op : seq_run x log x' →
    seq_run x (log ++ [(i, op, (apply op x').1)]) (apply op x').2.

(** What was returned was made before, and what was made was called before. *)
Record explained (x : T) (a : AtSys) (log : list (nat * Op * Res)) : Prop := {
  ex_run : seq_run x log (at_data a);
  ex_pending : ∀ i op, at_pcs a !! i = Some (APending op) → Invoke i op ∈ at_hist a;
  ex_done : ∀ i r, at_pcs a !! i = Some (ADone r) → ∃ op, (i, op, r) ∈ log;
  ex_returned : ∀ i r, Return i r ∈ at_hist a → ∃ op, (i, op, r) ∈ log;
  ex_called : ∀ i op r, (i, op, r) ∈ log → Invoke i op ∈ at_hist a;
}.

Lemma at_step_explained x a a' log :
  explained x a log → at_step a a' → ∃ log', explained x a' log'.
Proof.
  intros [H1 H2 H3 H4 H5] Hs. destruct Hs as [a i op Hi|a i op Hi|a i r Hi].
  - exists log. constructor; cbn; [done|..].
    + intros j q [(-> & [= <-] & _)|[_ Hj]]%list_lookup_insert_Some; set_solver.
    + intros j r [(_ & [=] & _)|[_ Hj]]%list_lookup_insert_Some. eauto.
    + intros j r. rewrite elem_of_app, list_elem_of_singleton. intros [?|[=]]. eauto.
    + intros j q r Hj%H5. set_solver.
  - exists (log ++ [(i, op, (apply op (at_data a)).1)]). constructor; cbn; [by constructor|..].
    + intros j q [(_ & [=] & _)|[_ Hj]]%list_lookup_insert_Some. eauto.
    + intros j r [(-> & [= <-] & _)|[_ Hj]]%list_lookup_insert_Some; [exists op; set_solver|].
      destruct (H3 j r Hj) as [q ?]. exists q. set_solver.
    + intros j r [q ?]%H4. exists q. set_solver.
    + intros j q r. rewrite elem_of_app, list_elem_of_singleton. intros [?|[= -> -> _]]; eauto.
  - exists log. constructor; cbn; [done|..].
    + intros j q [(_ & [=] & _)|[_ Hj]]%list_lookup_insert_Some. set_solver.
    + intros j q [(_ & [=] & _)|[_ Hj]]%list_lookup_insert_Some. eauto.
    + intros j q. rewrite elem_of_app, list_elem_of_singleton. intros [?|[= -> ->]]; eauto.
    + intros j q r' Hj%H5. set_solver.
Qed.

Lemma at_run_explained n x a : rtc at_step (at_init n x) a → ∃ log, explained x a log.
Proof.
  revert a. apply rtc_ind_r; [|intros a a' _ Hs [log IH]; by eapply at_step_explained].
  exists []. constructor; cbn; try done; [constructor|..].
  - by intros i op [? _]%lookup_replicate.
  - by intros i op [? _]%lookup_replicate.
  - by intros i r ?%elem_of_nil.
  - by intros i op r ?%elem_of_nil.
Qed.

(** A result is that of its operation after the ones before it. *)
Lemma seq_run_result x log x' i op r :
  seq_run x log x' → (i, op, r) ∈ log →
  ∃ before after x1, log = before ++ (i, op, r) :: after ∧ seq_run x before x1 ∧ r = (apply op x1).1.
Proof.
  induction 1 as [|x log x' j q Hrun IH]; [by intros ?%elem_of_nil|].
  rewrite elem_of_app, list_elem_of_singleton. intros [Hin|[= -> -> ->]].
  - destruct (IH Hin) as (b & l & x1 & -> & ? & ?). exists b, (l ++ [(j, q, (apply q x').1)]), x1.
    split_and!; [by rewrite <-app_assoc|done..].
  - by exists log, [], x'.
Qed.
End object.
