(* ===== verification/MutexCell.v ===== *)
(** [Mutex<T>] (src/src/sync.rs): the futex lock of Mutex.v and the value it protects.

    A thread with the guard reads and writes the value through [Deref] and [DerefMut] and gives
    the lock back by dropping the guard.  The contract is a cell with an owner: only the owner sees the
    value or changes it.  The futex implementation shows exactly the histories of that cell. *)
From S2P Require Import Prelude Lock Mutex LockSpec.

Section cell.
Context {T : Type}.

(** What the threads see: the lock's events, and the values read and written. *)
Inductive CellEv : Type :=
| Lk (e : LockEv)
| Saw (i : nat) (x : T)       (* *guard *)
| Store (i : nat) (x : T).    (* *guard = x *)

(** * The contract *)
Inductive cell_step (n : nat) : option nat * T → CellEv → option nat * T → Prop :=
| cell_lock o o' v e : lock_step n o e o' → cell_step n (o, v) (Lk e) (o', v)
| cell_saw i v : cell_step n (Some i, v) (Saw i v) (Some i, v)
| cell_store i v x : cell_step n (Some i, v) (Store i x) (Some i, x).

Inductive cell_run (n : nat) : option nat * T → list CellEv → option nat * T → Prop :=
| cell_nil c : cell_run n c [] c
| cell_cons c c' c'' e tr : cell_step n c e c' → cell_run n c' tr c'' → cell_run n c (e :: tr) c''.

(** * The implementation *)
Record MutexT := mkMutexT { raw : MutexSys; data : T }.

(** [Mutex::new] with [n] threads that know of it *)
Definition mutex_new (n : nat) (v : T) : MutexT := mkMutexT (Mutex.init n) v.

(** [MutexGuard::deref], [MutexGuard::deref_mut] and the end of a guard's life; [Mutex::get_mut] and
    [Mutex::into_inner] need no lock because the mutex is not shared then. *)
Definition deref (m : MutexT) : T := data m.
Definition deref_mut (m : MutexT) (x : T) : MutexT := mkMutexT (raw m) x.
Definition guard_drop (p : Pc) (w : Z) : option (Pc * Z) := raw_unlock p w.
Definition into_inner (m : MutexT) : T := data m.
Definition mutex_get_mut (m : MutexT) (x : T) : MutexT := mkMutexT (raw m) x.

Inductive mutex_step : MutexT → list CellEv → MutexT → Prop :=
| ms_lock s s' v : Mutex.step s s' → mutex_step (mkMutexT s v) (Lk <$> visible s s') (mkMutexT s' v)
| ms_saw m i : threads (raw m) !! i = Some Held → mutex_step m [Saw i (deref m)] m
| ms_store m i x : threads (raw m) !! i = Some Held → mutex_step m [Store i x] (deref_mut m x).

Inductive mutex_run : MutexT → list CellEv → MutexT → Prop :=
| mr_nil m : mutex_run m [] m
| mr_cons m m' m'' tr tr' : mutex_step m tr m' → mutex_run m' tr' m'' → mutex_run m (tr ++ tr') m''.

(** * Refinement *)
Lemma cell_run_app n c c' c'' tr tr' :
  cell_run n c tr c' → cell_run n c' tr' c'' → cell_run n c (tr ++ tr') c''.
Proof. induction 1; cbn; [done|]. econstructor; eauto. Qed.

Lemma cell_run_lock n o tr o' v : lock_run n o tr o' → cell_run n (o, v) (Lk <$> tr) (o', v).
Proof. induction 1; cbn; [constructor|]. econstructor; [by apply cell_lock|done]. Qed.

Lemma mutex_run_app m m' m'' tr tr' : mutex_run m tr m' → mutex_run m' tr' m'' → mutex_run m (tr ++ tr') m''.
Proof. induction 1; cbn; [done|]. intros. rewrite <-(assoc_L (++)). econstructor; eauto. Qed.

Lemma mutex_run_one m tr m' : mutex_step m tr m' → mutex_run m tr m'.
Proof. intros. rewrite <-(app_nil_r tr). econstructor; [done|constructor]. Qed.

Lemma mutex_step_sim n m tr m' :
  length (threads (raw m)) = n → inv (raw m) → mutex_step m tr m' →
  length (threads (raw m')) = n ∧ inv (raw m')
  ∧ cell_run n (owner (raw m), data m) tr (owner (raw m'), data m').
Proof.
  intros Hn Hinv Hs. destruct Hs as [s s' v Hs|m i Hi|m i x Hi]; cbn in *.
  - split_and!; [by rewrite (step_length s)|by eapply mutex_step_inv|]. by apply cell_run_lock, step_sim.
  - apply (owner_some _ i Hinv) in Hi as ->. split_and!; [done..|].
    econstructor; [apply cell_saw|constructor].
  - apply (owner_some _ i Hinv) in Hi as ->. split_and!; [done..|].
    econstructor; [apply cell_store|constructor].
Qed.

Lemma mutex_run_sim n m tr m' :
  length (threads (raw m)) = n → inv (raw m) → mutex_run m tr m' →
  cell_run n (owner (raw m), data m) tr (owner (raw m'), data m').
Proof.
  intros Hn Hinv Hr. revert Hn Hinv. induction Hr as [|m m1 m2 tr tr' Hs _ IH]; [constructor|].
  intros Hn Hinv. destruct (mutex_step_sim n m tr m1 Hn Hinv Hs) as (Hn' & Hinv' & Hc).
  eapply cell_run_app; eauto.
Qed.

(** An interleaving of the lock leaves the value alone. *)
Lemma lock_run_mutex s tr s' v : run s tr s' → mutex_run (mkMutexT s v) (Lk <$> tr) (mkMutexT s' v).
Proof.
  induction 1; cbn; [constructor|]. rewrite fmap_app. econstructor; [by apply ms_lock|done].
Qed.

Lemma cell_run_bound n c tr c' :
  cell_run n c tr c' → (∀ i, c.1 = Some i → (i < n)%nat) → ∀ i, c'.1 = Some i → (i < n)%nat.
Proof.
  induction 1 as [|c c1 c2 e tr Hs _ IH]; [done|]. intros Hc. apply IH. intros i Hi.
  destruct Hs as [o o' v e Hs| |]; cbn in *; [|auto..].
  destruct (lock_step_bound n o e o' Hs i Hi); auto.
Qed.

Lemma cell_run_real n c tr c' :
  cell_run n c tr c' → (∀ i, c.1 = Some i → (i < n)%nat) →
  mutex_run (mkMutexT (quiet n c.1) c.2) tr (mkMutexT (quiet n c'.1) c'.2).
Proof.
  induction 1 as [|c c1 c2 e tr Hs Hr IH]; [constructor|]. intros Hc.
  assert (∀ i, c1.1 = Some i → (i < n)%nat) as Hc1
    by (apply (cell_run_bound n c [e]); [by econstructor; [|constructor]|done]).
  change (e :: tr) with ([e] ++ tr). eapply mutex_run_app; [|by apply IH].
  destruct Hs as [o o' v e Hs|i v|i v x]; cbn in *.
  - change [Lk e] with (Lk <$> [e]). by apply lock_run_mutex, realises_run, quiet_realises.
  - apply mutex_run_one, (ms_saw (mkMutexT _ v)), quiet_held. by apply Hc.
  - apply mutex_run_one, (ms_store (mkMutexT _ v)), quiet_held. by apply Hc.
Qed.

(** C4: the mutex is a locked cell. The histories that the interleavings of [n] threads over the
    futex mutex show (guards obtained and dropped, failed [try_lock]s, values read and written through
    guards) are exactly those of the cell that only its owner sees and changes; the thread with the
    guard is the owner and the value is the cell's. *)
Theorem mutex_refines_cell n v0 tr o v :
  (∃ m, mutex_run (mutex_new n v0) tr m ∧ owner (raw m) = o ∧ data m = v)
  ↔ cell_run n (None, v0) tr (o, v).
Proof.
  split.
  - intros (m & Hr & <- & <-). rewrite <-(owner_init n).
    apply (mutex_run_sim n (mutex_new n v0)); [apply length_replicate|apply init_inv|done].
  - intros Hr. exists (mkMutexT (quiet n o) v).
    split_and!; [by apply (cell_run_real n (None, v0) tr (o, v))| |done].
    apply owner_quiet. by apply (cell_run_bound n _ _ _ Hr).
Qed.

(** Who makes an event. *)
Definition by_thread (i : nat) (e : CellEv) : Prop :=
  match e with Saw j _ | Store j _ => j = i | Lk (Release j) => j = i | Lk (Acquire _) => False | _ => True end.

(** A critical section is one thread's: from a guard to its drop nobody else is heard of the value. *)
Lemma section_exclusive n c tr c' i :
  cell_run n c tr c' → c.1 = Some i → Lk (Release i) ∉ tr → Forall (by_thread i) tr ∧ c'.1 = Some i.
Proof.
  induction 1 as [|c c1 c2 e tr Hs _ IH]; [done|]. intros Hc Hno.
  apply not_elem_of_cons in Hno as [He Hno].
  assert (c1.1 = Some i ∧ by_thread i e) as [Hc1 Hb].
  { destruct Hs as [o o' v e Hs|j v|j v x]; cbn in *; [|by simplify_eq..].
    destruct Hs; simplify_eq; try done. }
  destruct (IH Hc1 Hno) as [Hall Hend]. split; [by constructor|done].
Qed.
End cell.
