(* ===== verification/RwLock.v ===== *)
(** The futex-backed [RwLock] (src/src/sync.rs) as a system of threads.

    As in Mutex, one step is one atomic operation or one futex call; the word has
    the writer bit on top of the number of readers.  A thread stands for one guard:
    a program that holds several read guards at once is several threads here. *)
From S2P Require Import Prelude.

Definition RW_WRITER : Z := Z.shiftl 1 31.

Inductive RwPc : Set :=
| Idle
| RLoad | RCas (s : Z) | RWait (s : Z) | RSys (s : Z) | RAsleep (s : Z) | RHeld
| WCas | WLoad | WWait (s : Z) | WSys (s : Z) | WAsleep (s : Z) | WHeld
| WakeAll                      (* futex_wake_all after a release *)
| TRLoad | TRCas (s : Z)       (* try_read *)
| TWCas.                       (* try_write *)

#[export] Instance RwPc_eq_dec : EqDecision RwPc.
Proof. solve_decision. Defined.

Record RwSys := mkRw { word : Z; guards : list RwPc }.

Definition no_writer (s : Z) : bool := bool_decide (Z.land s RW_WRITER = 0).

(** [RwLock::read] with the [futex_wait(&state, s)] loop. *)
Definition rw_read (p : RwPc) (w : Z) : option (RwPc * Z) :=
  match p with
  | RLoad => Some (if no_writer w then RCas w else RWait w, w)
  | RCas s => Some (if decide (w = s) then (RHeld, wrap 32 (s + 1)) else (RLoad, w))
  | RWait s => Some (if decide (w = s) then RSys s else RLoad, w)
  | RSys s => Some (if decide (w = s) then RAsleep s else RWait s, w)
  | _ => None
  end.

Definition rw_try_read (p : RwPc) (w : Z) : option (RwPc * Z) :=
  match p with
  | TRLoad => Some (if no_writer w then TRCas w else Idle, w)
  | TRCas s => Some (if decide (w = s) then (RHeld, wrap 32 (s + 1)) else (Idle, w))
  | _ => None
  end.

Definition rw_write (p : RwPc) (w : Z) : option (RwPc * Z) :=
  match p with
  | WCas => Some (if decide (w = 0) then (WHeld, RW_WRITER) else (WLoad, w))
  | WLoad => Some (if decide (w ≠ 0) then WWait w else WCas, w)
  | WWait s => Some (if decide (w = s) then WSys s else WCas, w)
  | WSys s => Some (if decide (w = s) then WAsleep s else WWait s, w)
  | _ => None
  end.

Definition rw_try_write (p : RwPc) (w : Z) : option (RwPc * Z) :=
  match p with
  | TWCas => Some (if decide (w = 0) then (WHeld, RW_WRITER) else (Idle, w))
  | _ => None
  end.

(** [Drop] of the two guards. *)
Definition read_guard_drop (p : RwPc) (w : Z) : option (RwPc * Z) :=
  match p with
  | RHeld => Some (if decide (w = 1) then WakeAll else Idle, wrap 32 (w - 1))
  | _ => None
  end.

Definition write_guard_drop (p : RwPc) (w : Z) : option (RwPc * Z) :=
  match p with
  | WHeld => Some (WakeAll, 0)
  | _ => None
  end.

Definition rw_local (p : RwPc) (w : Z) : option (RwPc * Z) :=
  match p with
  | RLoad | RCas _ | RWait _ | RSys _ => rw_read p w
  | WCas | WLoad | WWait _ | WSys _ => rw_write p w
  | TRLoad | TRCas _ => rw_try_read p w
  | TWCas => rw_try_write p w
  | RHeld => read_guard_drop p w
  | WHeld => write_guard_drop p w
  | _ => None
  end.

(** What [futex_wake_all] does to a thread. *)
Definition wake (p : RwPc) : RwPc :=
  match p with
  | RAsleep s => RWait s
  | WAsleep s => WWait s
  | p => p
  end.

Definition asleep (p : RwPc) : bool :=
  match p with RAsleep _ | WAsleep _ => true | _ => false end.

Inductive rw_step : RwSys → RwSys → Prop :=
| rw_step_local s i p p' w' :
    guards s !! i = Some p → rw_local p (word s) = Some (p', w') →
    rw_step s (mkRw w' (<[i := p']> (guards s)))
| rw_step_call s i p :
    guards s !! i = Some Idle → p ∈ [RLoad; WCas; TRLoad; TWCas] →
    rw_step s (mkRw (word s) (<[i := p]> (guards s)))
| rw_step_weak s i x :  (* compare_exchange_weak fails spuriously *)
    guards s !! i = Some (RCas x) →
    rw_step s (mkRw (word s) (<[i := RLoad]> (guards s)))
| rw_step_early s i p :  (* the futex call returns early *)
    guards s !! i = Some p → asleep p = true →
    rw_step s (mkRw (word s) (<[i := wake p]> (guards s)))
| rw_step_wake s i :
    guards s !! i = Some WakeAll →
    rw_step s (mkRw (word s) (wake <$> <[i := Idle]> (guards s))).

Definition rw_init (n : nat) : RwSys := mkRw 0 (replicate n Idle).

(** ** Counting guards *)
Definition is_r (p : RwPc) : nat := match p with RHeld => 1 | _ => 0 end.
Definition is_w (p : RwPc) : nat := match p with WHeld => 1 | _ => 0 end.
Definition readers (l : list RwPc) : nat := sum_list_with is_r l.
Definition writers (l : list RwPc) : nat := sum_list_with is_w l.

(** What a thread may have loaded. *)
Definition pc_ok (p : RwPc) : Prop :=
  match p with
  | RCas s | TRCas s => Z.land s RW_WRITER = 0
  | RWait s | RSys s | RAsleep s => Z.land s RW_WRITER ≠ 0
  | WWait s | WSys s | WAsleep s => s ≠ 0
  | _ => True
  end.

Definition someone_wakes (s : RwSys) : Prop := ∃ i, guards s !! i = Some WakeAll.

Record rw_inv (s : RwSys) : Prop := {
  ri_word : word s = RW_WRITER * Z.of_nat (writers (guards s)) + Z.of_nat (readers (guards s));
  ri_excl : writers (guards s) = 0%nat ∨ writers (guards s) = 1%nat ∧ readers (guards s) = 0%nat;
  ri_pc : ∀ i p, guards s !! i = Some p → pc_ok p;
  ri_wake : (∃ i p, guards s !! i = Some p ∧ asleep p = true) → word s ≠ 0 ∨ someone_wakes s;
}.

Lemma land_writer x : 0 ≤ x < RW_WRITER → Z.land x RW_WRITER = 0.
Proof.
  intros Hx. change RW_WRITER with (2 ^ 31) in *. apply Z.bits_inj'. intros i Hi.
  rewrite Z.land_spec, Z.pow2_bits_eqb, Z.bits_0 by lia.
  destruct (Z.eqb_spec 31 i) as [<-|]; [|by rewrite andb_false_r].
  rewrite <-(Z.mod_small x (2 ^ 31)) by lia. by rewrite Z.mod_pow2_bits_high by lia.
Qed.

Section preservation.
Context (s : RwSys) (Hlen : Z.of_nat (length (guards s)) < RW_WRITER) (Hinv : rw_inv s).

Lemma readers_bound : Z.of_nat (readers (guards s)) < RW_WRITER.
Proof using Hlen.
  assert (readers (guards s) ≤ length (guards s))%nat.
  { apply sum_le_length. intros []; cbn; lia. }
  lia.
Qed.

(** The writer bit tells whether there is a writer. *)
Lemma no_writer_spec : Z.land (word s) RW_WRITER = 0 ↔ writers (guards s) = 0%nat.
Proof using Hlen Hinv.
  pose proof readers_bound. destruct Hinv as [Hw He _ _]. rewrite Hw.
  destruct He as [E|[E1 E2]].
  - rewrite E, Z.mul_0_r, Z.add_0_l. split; [done|intros _]. apply land_writer. lia.
  - rewrite E1, E2. split; [|lia]. by vm_compute.
Qed.

Lemma word_zero : word s = 0 ↔ writers (guards s) = 0%nat ∧ readers (guards s) = 0%nat.
Proof using Hlen Hinv.
  destruct Hinv as [Hw He _ _]. rewrite Hw. change RW_WRITER with 2147483648. lia.
Qed.

(** A change of one thread: counts, program counters and the wake-up clause. *)
Lemma rw_update i p p' w' :
  guards s !! i = Some p → pc_ok p' →
  w' = word s + RW_WRITER * (Z.of_nat (is_w p') - Z.of_nat (is_w p))
       + (Z.of_nat (is_r p') - Z.of_nat (is_r p)) →
  (is_w p' = 0%nat ∨ is_w p = 0%nat ∧ word s = 0 ∧ is_r p' = 0%nat) →
  (is_r p' = 0%nat ∨ writers (guards s) = 0%nat) →
  (p ≠ WakeAll) →
  (asleep p' = true → w' ≠ 0) →
  (w' = 0 → word s ≠ 0 → p' = WakeAll) →
  rw_inv (mkRw w' (<[i := p']> (guards s))).
Proof using Hlen Hinv.
  intros Hi Hpc Hw' Htake Hread Hp Hsleep Hzero.
  pose proof (sum_list_with_insert is_r (guards s) i p p' Hi) as Hr.
  pose proof (sum_list_with_insert is_w (guards s) i p p' Hi) as Hwr.
  pose proof word_zero as Hz. destruct Hinv as [Hw He Hpcs Hwake].
  fold (readers (guards s)) in Hr. fold (writers (guards s)) in Hwr.
  fold (readers (<[i:=p']> (guards s))) in Hr. fold (writers (<[i:=p']> (guards s))) in Hwr.
  assert (is_w p' ≤ 1 ∧ is_w p ≤ 1 ∧ is_r p' ≤ 1 ∧ is_r p ≤ 1)%nat
    by (destruct p, p'; cbn; lia).
  constructor; cbn [word guards].
  - rewrite Hw', Hw. lia.
  - destruct Htake as [E|(E & Ew & E')]; [|apply Hz in Ew; lia].
    destruct Hread as [E'|E']; [|lia]. lia.
  - intros j q [(-> & -> & _)|[_ Hj]]%list_lookup_insert_Some; eauto.
  - intros (j & q & Hj & Hq). destruct (decide (w' = 0)) as [E0|]; [|by left]. right.
    assert (i < length (guards s))%nat by (by eapply lookup_lt_Some).
    destruct (decide (word s = 0)) as [Ews|Ews].
    + apply list_lookup_insert_Some in Hj as [(-> & -> & _)|[Hne Hj]].
      { by destruct (Hsleep Hq). }
      destruct Hwake as [?|[k Hk]]; [eauto|done|].
      exists k. cbn. rewrite list_lookup_insert_ne; [done|]. intros ->. congruence.
    + exists i. cbn. rewrite list_lookup_insert_eq by done. f_equal. by apply Hzero.
Qed.
End preservation.

Lemma no_writer_true w : no_writer w = true ↔ Z.land w RW_WRITER = 0.
Proof. apply bool_decide_eq_true. Qed.

(** A move that neither takes nor releases: the word stays. *)
Lemma rw_move s i p p' :
  Z.of_nat (length (guards s)) < RW_WRITER → rw_inv s → guards s !! i = Some p →
  is_r p = 0%nat → is_w p = 0%nat → is_r p' = 0%nat → is_w p' = 0%nat → p ≠ WakeAll →
  pc_ok p' → (asleep p' = true → word s ≠ 0) →
  rw_inv (mkRw (word s) (<[i := p']> (guards s))).
Proof.
  intros Hlen Hinv Hi E1 E2 E3 E4 Hp Hpc Hsl.
  apply (rw_update s Hlen Hinv i p p'); try done; [rewrite E1, E2, E3, E4; lia|auto..].
Qed.

Lemma acquire_read s i p x :
  Z.of_nat (length (guards s)) < RW_WRITER → rw_inv s → guards s !! i = Some p →
  p = RCas x ∨ p = TRCas x → word s = x →
  rw_inv (mkRw (wrap 32 (x + 1)) (<[i := RHeld]> (guards s))).
Proof.
  intros Hlen Hinv Hi Hp Hx.
  assert (Z.land x RW_WRITER = 0) as Hl.
  { pose proof (ri_pc s Hinv i p Hi) as Hpc. by destruct Hp as [->| ->]. }
  assert (writers (guards s) = 0%nat) as Hw0.
  { apply (no_writer_spec s Hlen Hinv). by rewrite Hx. }
  pose proof (readers_bound s Hlen) as Hrb.
  assert (word s = Z.of_nat (readers (guards s))) as Hword.
  { rewrite (ri_word s Hinv), Hw0. lia. }
  assert (is_r p = 0%nat ∧ is_w p = 0%nat ∧ p ≠ WakeAll) as (E1 & E2 & E3)
    by (by destruct Hp as [->| ->]).
  rewrite wrap_small by (rewrite <-Hx, Hword; change RW_WRITER with (2 ^ 31) in *; lia).
  apply (rw_update s Hlen Hinv i p RHeld); try done; try (by left); try (by right).
  - rewrite E1, E2. cbn. lia.
  - lia.
Qed.

Lemma acquire_write s i p :
  Z.of_nat (length (guards s)) < RW_WRITER → rw_inv s → guards s !! i = Some p →
  p = WCas ∨ p = TWCas → word s = 0 →
  rw_inv (mkRw RW_WRITER (<[i := WHeld]> (guards s))).
Proof.
  intros Hlen Hinv Hi Hp Hw.
  assert (is_r p = 0%nat ∧ is_w p = 0%nat ∧ p ≠ WakeAll) as (E1 & E2 & E3)
    by (by destruct Hp as [->| ->]).
  apply (rw_update s Hlen Hinv i p WHeld); try done; try (by left); try (by right).
  rewrite E1, E2, Hw. cbn. lia.
Qed.

Lemma release s i p p' w' :
  Z.of_nat (length (guards s)) < RW_WRITER → rw_inv s → guards s !! i = Some p →
  p = RHeld ∨ p = WHeld → rw_local p (word s) = Some (p', w') →
  rw_inv (mkRw w' (<[i := p']> (guards s))).
Proof.
  intros Hlen Hinv Hi Hp Hl. pose proof (readers_bound s Hlen) as Hrb.
  assert (∀ f : RwPc → nat, (0 < f p)%nat → (0 < sum_list_with f (guards s))%nat) as Hpos
    by (intros f Hf; apply sum_pos; eauto).
  pose proof (ri_word s Hinv) as Hw. pose proof (ri_excl s Hinv) as He.
  destruct Hp as [->| ->]; cbn in Hl.
  - specialize (Hpos is_r ltac:(cbn; lia)). fold (readers (guards s)) in Hpos.
    assert (writers (guards s) = 0%nat) as Hw0 by lia. rewrite Hw0 in Hw.
    change RW_WRITER with (2 ^ 31) in *.
    rewrite wrap_small in Hl by lia.
    destruct (decide (word s = 1)); simplify_eq; apply (rw_update s Hlen Hinv i RHeld);
      cbn; try done; try (by left); try (by right); lia.
  - specialize (Hpos is_w ltac:(cbn; lia)). fold (writers (guards s)) in Hpos.
    destruct He as [?|[E1 E2]]; [lia|]. rewrite E1, E2 in Hw.
    simplify_eq. apply (rw_update s Hlen Hinv i WHeld); cbn; try done; try (by left); lia.
Qed.

Lemma rw_local_inv s i p p' w' :
  Z.of_nat (length (guards s)) < RW_WRITER → rw_inv s →
  guards s !! i = Some p → rw_local p (word s) = Some (p', w') →
  rw_inv (mkRw w' (<[i := p']> (guards s))).
Proof.
  intros Hlen Hinv Hi Hl. pose proof (ri_pc s Hinv i p Hi) as Hpc.
  assert (0 ≤ word s) by (rewrite (ri_word s Hinv); change RW_WRITER with (2 ^ 31); lia).
  destruct p; try done; try (by eapply release; eauto); cbn in Hl, Hpc.
  all: repeat case_decide; simplify_eq.
  all: try (by eapply acquire_read; eauto).
  all: try (by eapply acquire_write; eauto).
  all: try (destruct (no_writer (word s)) eqn:En; simplify_eq).
  all: eapply rw_move; eauto; cbn; try done.
  all: try (by apply no_writer_true).
  all: try (by intros E; apply no_writer_true in E; congruence).
  all: try (intros _ E; rewrite E in Hpc; done).
Qed.

Lemma lookup_wake (l : list RwPc) i p : (wake <$> l) !! i = Some p ↔ ∃ q, l !! i = Some q ∧ p = wake q.
Proof. rewrite list_lookup_fmap, fmap_Some. naive_solver. Qed.

Lemma sum_wake (f : RwPc → nat) (l : list RwPc) :
  (∀ p, f (wake p) = f p) → sum_list_with f (wake <$> l) = sum_list_with f l.
Proof. intros Hf. induction l as [|p l IH]; cbn; [done|]. by rewrite Hf, IH. Qed.

Lemma rw_step_length s s' : rw_step s s' → length (guards s') = length (guards s).
Proof. destruct 1; cbn; by rewrite ?length_fmap, length_insert. Qed.

Lemma rw_step_inv s s' :
  Z.of_nat (length (guards s)) < RW_WRITER → rw_step s s' → rw_inv s → rw_inv s'.
Proof.
  intros Hlen Hstep Hinv.
  destruct Hstep as [s i p p' w' Hi Hl|s i p Hi Hp|s i x Hi|s i p Hi Hp|s i Hi].
  - by apply (rw_local_inv s i p).
  - rewrite !elem_of_cons, elem_of_nil in Hp.
    destruct Hp as [->|[->|[->|[->|?]]]]; [..|done]; by apply (rw_move s i Idle).
  - by apply (rw_move s i (RCas x)).
  - pose proof (ri_pc s Hinv i p Hi). destruct p; try done; by eapply rw_move.
  - pose proof (sum_list_with_insert is_r (guards s) i WakeAll Idle Hi) as Hr.
    pose proof (sum_list_with_insert is_w (guards s) i WakeAll Idle Hi) as Hw. cbn in Hr, Hw.
    destruct Hinv as [Hword He Hpcs Hwake].
    assert (readers (wake <$> <[i:=Idle]> (guards s)) = readers (guards s)) as Er.
    { unfold readers in *. rewrite sum_wake by (by intros []). lia. }
    assert (writers (wake <$> <[i:=Idle]> (guards s)) = writers (guards s)) as Ew.
    { unfold writers in *. rewrite sum_wake by (by intros []). lia. }
    constructor; cbn [word guards]; rewrite ?Er, ?Ew; try done.
    + intros j q (p & Hj & ->)%lookup_wake.
      assert (pc_ok p) as Hok.
      { apply list_lookup_insert_Some in Hj as [(_ & <- & _)|[_ Hj]]; [done|eauto]. }
      by destruct p.
    + intros (j & q & (p & _ & ->)%lookup_wake & Hq). by destruct p.
Qed.

Lemma rw_reachable n s :
  Z.of_nat n < RW_WRITER → rtc rw_step (rw_init n) s →
  rw_inv s ∧ Z.of_nat (length (guards s)) < RW_WRITER.
Proof.
  intros Hn Hs.
  assert (∀ s0, rtc rw_step s0 s →
    rw_inv s0 ∧ Z.of_nat (length (guards s0)) < RW_WRITER →
    rw_inv s ∧ Z.of_nat (length (guards s)) < RW_WRITER) as Hall.
  { intros s0. induction 1 as [|s0 s1 s2 H01 _ IH]; [done|]. intros [? Hl]. refine (IH Hs (conj _ _)).
    - by eapply rw_step_inv.
    - by rewrite (rw_step_length _ _ H01). }
  apply (Hall _ Hs). cbn. rewrite length_replicate. split; [|done].
  constructor; cbn [word guards rw_init].
  - unfold writers, readers. by rewrite !sum_list_with_zero.
  - left. by apply sum_list_with_zero.
  - intros i p [-> _]%lookup_replicate. done.
  - intros (i & p & [-> _]%lookup_replicate & Hp). done.
Qed.

(** Readers and writers. With fewer than [2^31] guards, a writer excludes every other
    guard in every reachable state, and the word is the number of readers, or the
    writer bit. *)
Theorem rwlock_exclusion n s (Hn : Z.of_nat n < RW_WRITER) (Hs : rtc rw_step (rw_init n) s) :
  (∀ i j p, guards s !! i = Some WHeld → guards s !! j = Some p → p = WHeld ∨ p = RHeld → i = j)
  ∧ word s = (if decide (writers (guards s) = 0%nat) then Z.of_nat (readers (guards s))
              else RW_WRITER).
Proof.
  destruct (rw_reachable n s Hn Hs) as [[Hw He _ _] _]. split.
  - intros i j p Hi Hj Hp. destruct (decide (i = j)) as [|Hne]; [done|exfalso].
    assert (0 < writers (guards s))%nat by (apply sum_pos; exists i, WHeld; cbn; auto).
    destruct He as [?|[E1 E2]]; [lia|].
    pose proof (sum_list_with_insert is_w (guards s) i WHeld Idle Hi) as Hu. cbn in Hu.
    fold (writers (guards s)) in Hu.
    destruct Hp as [->| ->].
    + assert (0 < sum_list_with is_w (<[i:=Idle]> (guards s)))%nat; [|lia].
      apply sum_pos. exists j, WHeld. rewrite list_lookup_insert_ne by done. cbn; auto.
    + assert (0 < readers (guards s))%nat; [|lia]. apply sum_pos. exists j, RHeld. cbn; auto.
  - rewrite Hw. destruct (decide _) as [E|E]; [rewrite E; lia|].
    destruct He as [?|[E1 E2]]; [done|]. rewrite E1, E2. lia.
Qed.

(** ** Progress *)
(** The steps of calls already made, when nothing fails or returns spuriously. *)
Inductive rw_quiet : RwSys → RwSys → Prop :=
| rw_quiet_local s i p p' w' :
    guards s !! i = Some p → rw_local p (word s) = Some (p', w') →
    rw_quiet s (mkRw w' (<[i := p']> (guards s)))
| rw_quiet_wake s i :
    guards s !! i = Some WakeAll → rw_quiet s (mkRw (word s) (wake <$> <[i := Idle]> (guards s))).

Lemma rw_quiet_step s s' : rw_quiet s s' → rw_step s s'.
Proof. destruct 1; by econstructor. Qed.

(** What a call has left to do: to get a guard, to drop it, to wake the sleepers. *)
Definition rw_todo (p : RwPc) : nat :=
  match p with Idle => 0 | WakeAll => 1 | RHeld | WHeld => 2 | _ => 3 end.

(** How far a thread is from a guard or from sleeping while the word stays [w]: a thread that
    compares with another value first has to look at the word again. *)
Definition rw_rank (w : Z) (p : RwPc) : nat :=
  match p with
  | RSys s => if decide (w = s) then 1 else 5
  | RWait s => if decide (w = s) then 2 else 4
  | RLoad => 3
  | RCas s => if decide (w = s) then 2 else 4
  | WSys s => if decide (w = s) then 1 else 7
  | WWait s => if decide (w = s) then 2 else 6
  | WLoad => if decide (w = 0) then 5 else 3
  | WCas => 4
  | TRLoad => 1
  | _ => 0
  end.

Definition rw_work (s : RwSys) : nat :=
  sum_list_with rw_todo (guards s) * (7 * length (guards s) + 1)
  + sum_list_with (rw_rank (word s)) (guards s).

Lemma rw_rank_bound w p : (rw_rank w p ≤ 7)%nat.
Proof. destruct p; cbn; repeat case_decide; lia. Qed.

Lemma rw_work_bound s :
  (rw_work s ≤ 3 * length (guards s) * (7 * length (guards s) + 1) + 7 * length (guards s))%nat.
Proof.
  pose proof (sum_le_mul _ 7 (guards s) (rw_rank_bound (word s))). unfold rw_work.
  pose proof (sum_le_mul rw_todo 3 (guards s)) as Ht.
  assert (sum_list_with rw_todo (guards s) ≤ 3 * length (guards s))%nat by (apply Ht; intros []; cbn; lia).
  nia.
Qed.

Lemma rw_work_lt s s' :
  length (guards s') = length (guards s) →
  (sum_list_with rw_todo (guards s') < sum_list_with rw_todo (guards s)
   ∨ sum_list_with rw_todo (guards s') = sum_list_with rw_todo (guards s)
     ∧ word s' = word s
     ∧ sum_list_with (rw_rank (word s)) (guards s') < sum_list_with (rw_rank (word s)) (guards s))%nat →
  (rw_work s' < rw_work s)%nat.
Proof.
  intros Hl Hd. unfold rw_work. rewrite Hl. apply lex_lt.
  - pose proof (sum_le_mul _ 7 (guards s') (rw_rank_bound (word s'))). lia.
  - destruct Hd as [?|(-> & -> & ?)]; auto.
Qed.

Lemma rw_quiet_work s s' : rw_quiet s s' → (rw_work s' < rw_work s)%nat.
Proof.
  intros Hs. apply rw_work_lt; destruct Hs as [s i p p' w' Hi Hl|s i Hi];
    cbn [guards word]; rewrite ?length_fmap, ?length_insert; try done.
  - pose proof (sum_list_with_insert rw_todo _ i p p' Hi) as Ht.
    pose proof (sum_list_with_insert (rw_rank (word s)) _ i p p' Hi) as Hr.
    destruct p; try done; cbn in Hl; try destruct (no_writer (word s));
      repeat case_decide; simplify_eq; cbn [rw_todo rw_rank] in *;
      repeat case_decide; simplify_eq; lia.
  - left. rewrite sum_wake by (by intros []).
    pose proof (sum_list_with_insert rw_todo _ i WakeAll Idle Hi). cbn in *. lia.
Qed.

(** Nobody is in a call or has a guard. *)
Definition rw_all_idle (s : RwSys) : Prop := ∀ i p, guards s !! i = Some p → p = Idle.

Lemma rw_quiet_at s i p : guards s !! i = Some p → p ≠ Idle → asleep p = false → ∃ s', rw_quiet s s'.
Proof.
  intros Hi Hp Ha. destruct (decide (p = WakeAll)) as [->|Hu]; [eexists; by apply rw_quiet_wake|].
  assert (∃ p' w', rw_local p (word s) = Some (p', w')) as (p' & w' & Hl).
  { destruct p; try done; cbn; repeat case_match; eauto. }
  eexists. by apply (rw_quiet_local s i p p' w').
Qed.

(** While a thread sleeps, a guard is held or a [futex_wake_all] is about to happen. *)
Lemma rw_sleeper s i p :
  Z.of_nat (length (guards s)) < RW_WRITER → rw_inv s → guards s !! i = Some p → asleep p = true →
  ∃ j q, guards s !! j = Some q ∧ (q = WHeld ∨ q = RHeld ∨ q = WakeAll).
Proof.
  intros Hlen Hinv Hi Hp. destruct (ri_wake s Hinv) as [Hw|[j Hj]]; [eauto| |eauto 10].
  assert (0 < writers (guards s) ∨ 0 < readers (guards s))%nat as [H|H].
  { destruct (decide (writers (guards s) = 0%nat)), (decide (readers (guards s) = 0%nat)); try lia.
    destruct Hw. by apply (word_zero s Hlen Hinv). }
  all: apply sum_pos in H as (j & q & Hj & Hq); exists j, q; (split; [done|]).
  all: destruct q; cbn in Hq; try lia; auto.
Qed.

Lemma rw_quiet_live s :
  Z.of_nat (length (guards s)) < RW_WRITER → rw_inv s → rw_all_idle s ∨ ∃ s', rw_quiet s s'.
Proof.
  intros Hlen Hinv. destruct (decide (Forall (λ p, p = Idle) (guards s))) as [Hall|Hno].
  { left. intros i p Hi. by eapply (Forall_lookup_1 _ _ _ _ Hall). }
  right. apply not_Forall_Exists, Exists_exists in Hno as (p & [i Hi]%list_elem_of_lookup_1 & Hp); [|apply _].
  destruct (asleep p) eqn:Ha; [|by eapply rw_quiet_at].
  destruct (rw_sleeper s i p Hlen Hinv Hi Ha) as (j & q & Hj & Hq).
  apply (rw_quiet_at s j q); naive_solver.
Qed.

(** C10: progress. Let guards be held or asked for in any way, fewer than [2^31] of them, in any
    reachable state. When no thread calls again and the kernel never
    returns early, every schedule ends within a number of steps quadratic in the number of guards, and
    stops only when every call has returned, every guard is dropped and the word is 0; so no wake-up is
    lost and no reader or writer sleeps or retries for ever. *)
Theorem rwlock_progress n s (Hn : Z.of_nat n < RW_WRITER) (Hs : rtc rw_step (rw_init n) s) :
  settles rw_quiet (λ s', rw_all_idle s' ∧ word s' = 0) (3 * n * (7 * n + 1) + 7 * n) s.
Proof.
  assert (length (guards s) = n) as Hl.
  { clear Hn. revert s Hs. apply rtc_ind_r; [by cbn; rewrite length_replicate|].
    intros x y _ Hxy IH. by rewrite (rw_step_length x y Hxy). }
  apply (settling _ (λ x, rw_inv x ∧ Z.of_nat (length (guards x)) < RW_WRITER) _ rw_work);
    [| |by eapply rw_reachable|rewrite <-Hl; apply rw_work_bound].
  - intros x y [Hx Hb] Hxy. split_and!; [|by rewrite (rw_step_length x y (rw_quiet_step x y Hxy))|by apply rw_quiet_work].
    eapply rw_step_inv; [done|by apply rw_quiet_step|done].
  - intros x [Hx Hb]. destruct (rw_quiet_live x Hb Hx) as [Hi|Hq]; [left|by right]. split; [done|].
    apply (word_zero x Hb Hx). assert (∀ f : RwPc → nat, f Idle = 0%nat → sum_list_with f (guards x) = 0%nat) as Hz.
    { intros f Hf. destruct (decide (sum_list_with f (guards x) = 0%nat)) as [|Hne]; [done|].
      assert (0 < sum_list_with f (guards x))%nat as (i & p & Hp & ?)%sum_pos by lia.
      apply Hi in Hp as ->. lia. }
    by split; apply Hz.
Qed.

(** ** A run: a reader holds the lock and a writer sleeps *)
Definition sample_rw : RwSys := mkRw 1 [RHeld; WAsleep 1].

Lemma sample_rw_reachable : rtc rw_step (rw_init 2) sample_rw.
Proof.
  eapply rtc_l; [by apply (rw_step_call _ 0 RLoad); [|left]|].
  eapply rtc_l; [by apply (rw_step_local _ 0 RLoad (RCas 0) 0)|].
  eapply rtc_l; [by apply (rw_step_local _ 0 (RCas 0) RHeld 1)|].
  eapply rtc_l; [by apply (rw_step_call _ 1 WCas); [|right; left]|].
  eapply rtc_l; [by apply (rw_step_local _ 1 WCas WLoad 1)|].
  eapply rtc_l; [by apply (rw_step_local _ 1 WLoad (WWait 1) 1)|].
  eapply rtc_l; [by apply (rw_step_local _ 1 (WWait 1) (WSys 1) 1)|].
  eapply rtc_l; [by apply (rw_step_local _ 1 (WSys 1) (WAsleep 1) 1)|].
  apply rtc_refl.
Qed.

(** An instance. *)
Lemma rwlock_exclusion_witness :
  word sample_rw = (if decide (writers (guards sample_rw) = 0%nat)
                    then Z.of_nat (readers (guards sample_rw)) else RW_WRITER).
Proof. apply (rwlock_exclusion 2 sample_rw); [done|exact sample_rw_reachable]. Defined.

(** Witness of C10. *)
Lemma rwlock_progress_witness :
  ∃ s, rtc rw_quiet sample_rw s ∧ rw_all_idle s ∧ word s = 0.
Proof.
  refine (proj2 (proj2 (rwlock_progress 2 sample_rw _ _))); [done|exact sample_rw_reachable].
Defined.
