(* ===== verification/RwCell.v ===== *)
(** [RwLock<T>] (src/src/sync.rs): the futex lock of RwLock.v and the value it protects.

    The contract is a cell with a set of readers or one writer: readers and the writer see the value,
    only the writer changes it.  Every history of the implementation is one of that
    cell, for fewer than [2^31] guards, and every history of the cell that needs no race is one of the implementation. *)
From S2P Require Import Prelude Lock RwLock.
From stdpp Require Import gmap list.
Open Scope Z_scope.

Section cell.
Context {T : Type}.

(** What the threads see. *)
Inductive RwEv : Type :=
| ReadAcq (i : nat) | ReadRel (i : nat)
| WriteAcq (i : nat) | WriteRel (i : nat)
| TryRwFail (i : nat)          (* try_read() or try_write() returns None *)
| RwSaw (i : nat) (x : T)      (* *guard *)
| RwStore (i : nat) (x : T).   (* *guard = x, for a write guard *)

(** * The contract *)
Record RwSpec := mkSpec { readers_of : gset nat; writer_of : option nat; value : T }.

Inductive rwcell_step : RwSpec → RwEv → RwSpec → Prop :=
| rc_read rs v i : i ∉ rs → rwcell_step (mkSpec rs None v) (ReadAcq i) (mkSpec ({[i]} ∪ rs) None v)
| rc_read_rel rs w v i : i ∈ rs → rwcell_step (mkSpec rs w v) (ReadRel i) (mkSpec (rs ∖ {[i]}) w v)
| rc_write v i : rwcell_step (mkSpec ∅ None v) (WriteAcq i) (mkSpec ∅ (Some i) v)
| rc_write_rel rs v i : rwcell_step (mkSpec rs (Some i) v) (WriteRel i) (mkSpec rs None v)
| rc_fail c i : rwcell_step c (TryRwFail i) c
| rc_saw rs w v i : i ∈ rs ∨ w = Some i → rwcell_step (mkSpec rs w v) (RwSaw i v) (mkSpec rs w v)
| rc_store rs v x i : rwcell_step (mkSpec rs (Some i) v) (RwStore i x) (mkSpec rs (Some i) x).

Inductive rwcell_run : RwSpec → list RwEv → RwSpec → Prop :=
| rcr_nil c : rwcell_run c [] c
| rcr_cons c c' c'' e tr : rwcell_step c e c' → rwcell_run c' tr c'' → rwcell_run c (e :: tr) c''.

(** * The implementation *)
Definition rw_event (i : nat) (p p' : RwPc) : list RwEv :=
  match p, p' with
  | RHeld, RHeld | WHeld, WHeld => []
  | _, RHeld => [ReadAcq i]
  | _, WHeld => [WriteAcq i]
  | RHeld, _ => [ReadRel i]
  | WHeld, _ => [WriteRel i]
  | TRLoad, Idle | TRCas _, Idle | TWCas, Idle => [TryRwFail i]
  | _, _ => []
  end.

Definition rw_visible (s s' : RwSys) : list RwEv := moves rw_event 0 (guards s) (guards s').

Record RwLockT := mkRwLockT { rw_raw : RwSys; rw_data : T }.

(** [RwLock::new], the two [Deref]s, [DerefMut] and [RwLock::into_inner] *)
Definition rwlock_new (n : nat) (v : T) : RwLockT := mkRwLockT (rw_init n) v.
Definition rw_deref (m : RwLockT) : T := rw_data m.
Definition rw_deref_mut (m : RwLockT) (x : T) : RwLockT := mkRwLockT (rw_raw m) x.
Definition rw_into_inner (m : RwLockT) : T := rw_data m.

Inductive rwt_step : RwLockT → list RwEv → RwLockT → Prop :=
| rt_lock s s' v : rw_step s s' → rwt_step (mkRwLockT s v) (rw_visible s s') (mkRwLockT s' v)
| rt_saw m i p :
    guards (rw_raw m) !! i = Some p → p = RHeld ∨ p = WHeld → rwt_step m [RwSaw i (rw_deref m)] m
| rt_store m i x :
    guards (rw_raw m) !! i = Some WHeld → rwt_step m [RwStore i x] (rw_deref_mut m x).

Inductive rwt_run : RwLockT → list RwEv → RwLockT → Prop :=
| rtr_nil m : rwt_run m [] m
| rtr_cons m m' m'' tr tr' : rwt_step m tr m' → rwt_run m' tr' m'' → rwt_run m (tr ++ tr') m''.

#[local] Arguments rw_event : simpl never.

Lemma rw_event_refl i p : rw_event i p p = [].
Proof. by destruct p. Qed.

Lemma rw_visible_insert s i p p' w :
  guards s !! i = Some p → rw_visible s (mkRw w (<[i := p']> (guards s))) = rw_event i p p'.
Proof. apply (moves_insert rw_event rw_event_refl 0). Qed.

Lemma rw_visible_wake s i :
  guards s !! i = Some WakeAll → rw_visible s (mkRw (word s) (wake <$> <[i := Idle]> (guards s))) = [].
Proof.
  intros Hi. apply moves_silent. intros k p p' Hp. cbn [guards].
  intros (q & [(-> & <- & _)|[_ Hq]]%list_lookup_insert_Some & ->)%lookup_wake; [by simplify_eq|].
  rewrite Hp in Hq. injection Hq as <-. by destruct p.
Qed.

Lemma rwcell_run_app c c' c'' tr tr' :
  rwcell_run c tr c' → rwcell_run c' tr' c'' → rwcell_run c (tr ++ tr') c''.
Proof. induction 1; cbn; [done|]. econstructor; eauto. Qed.

Lemma rwcell_run_one c e c' : rwcell_step c e c' → rwcell_run c [e] c'.
Proof. intros. econstructor; [done|constructor]. Qed.

(** * Simulation *)
(** The threads with guards are the readers and the writer of the contract. *)
Definition rep (s : RwSys) (c : RwSpec) : Prop :=
  (∀ i, i ∈ readers_of c ↔ guards s !! i = Some RHeld)
  ∧ (∀ i, writer_of c = Some i ↔ guards s !! i = Some WHeld).

(** What an operation of a thread is to the contract. *)
Inductive rw_view (w : Z) : RwPc → RwPc → Prop :=
| rv_read p : p ≠ RHeld → p ≠ WHeld → Z.land w RW_WRITER = 0 → rw_view w p RHeld
| rv_write p : p ≠ RHeld → p ≠ WHeld → w = 0 → rw_view w p WHeld
| rv_read_rel p' : p' ≠ RHeld → p' ≠ WHeld → rw_view w RHeld p'
| rv_write_rel p' : p' ≠ RHeld → p' ≠ WHeld → rw_view w WHeld p'
| rv_other p p' :
    p ≠ RHeld → p ≠ WHeld → p' ≠ RHeld → p' ≠ WHeld →
    (∀ i, rw_event i p p' = [] ∨ rw_event i p p' = [TryRwFail i]) → rw_view w p p'.

Lemma rw_local_view p w p' w' : pc_ok p → rw_local p w = Some (p', w') → rw_view w p p'.
Proof.
  intros Hok Hl. destruct p; try done; cbn in Hl, Hok; repeat case_decide; try (destruct (no_writer w));
    simplify_eq; first [by apply rv_read|by apply rv_write|by apply rv_read_rel|by apply rv_write_rel|idtac].
  all: by apply rv_other; try done; intros; auto.
Qed.

(** No guard of a kind that is not counted. *)
Lemma no_holder (f : RwPc → nat) l i p : sum_list_with f l = 0%nat → l !! i = Some p → f p = 0%nat.
Proof.
  intros Hs Hi. destruct (decide (f p = 0)%nat) as [?|Hne]; [done|].
  assert (0 < sum_list_with f l)%nat; [|lia]. apply sum_pos. exists i, p. split; [done|lia].
Qed.

Section simulation.
Context (s : RwSys) (Hlen : Z.of_nat (length (guards s)) < RW_WRITER) (Hinv : rw_inv s).
Context (c : RwSpec) (Hrep : rep s c).

Lemma rep_no_writer : Z.land (word s) RW_WRITER = 0 → writer_of c = None.
Proof using All.
  intros H0. apply (no_writer_spec s Hlen Hinv) in H0. destruct (writer_of c) as [j|] eqn:Ew; [|done].
  apply Hrep in Ew. by apply (no_holder is_w _ _ _ H0) in Ew.
Qed.

Lemma rep_no_reader : word s = 0 → readers_of c = ∅ ∧ writer_of c = None.
Proof using All.
  intros H0. pose proof H0 as [Hw Hr]%(word_zero s Hlen Hinv). split.
  - apply set_eq. intros j. split; [|by intros ?%elem_of_empty]. intros Hj. apply Hrep in Hj.
    by apply (no_holder is_r _ _ _ Hr) in Hj.
  - apply rep_no_writer. by rewrite H0.
Qed.

(** The contract follows a move of thread [i]. *)
Lemma rw_local_sim i p p' w' :
  guards s !! i = Some p → rw_local p (word s) = Some (p', w') →
  ∃ c', value c' = value c ∧ rwcell_run c (rw_event i p p') c'
    ∧ rep (mkRw w' (<[i := p']> (guards s))) c'.
Proof using All.
  intros Hi Hl. pose proof Hrep as [Hr Hw]. pose proof rep_no_writer as Hnw. pose proof rep_no_reader as Hnr.
  assert (∀ q j, <[i := p']> (guards s) !! j = Some q ↔ j = i ∧ q = p' ∨ j ≠ i ∧ guards s !! j = Some q) as Hq
    by (intros; by apply (lookup_upd _ _ p)).
  pose proof (Hr i) as Hri. pose proof (Hw i) as Hwi. rewrite Hi in Hri, Hwi.
  unfold rep. cbn [guards]. setoid_rewrite Hq. clear Hq. destruct c as [rs wo v]; cbn in *.
  destruct (rw_local_view _ _ _ _ (ri_pc s Hinv i p Hi) Hl) as [p H1 H2 H0|p H1 H2 H0|p' H1 H2|p' H1 H2|p p' H1 H2 H3 H4 He].
  - rewrite (Hnw H0) in *. exists (mkSpec ({[i]} ∪ rs) None v). cbn. split_and!; [done| | |].
    + replace (rw_event i p RHeld) with [ReadAcq i] by (by destruct p). apply rwcell_run_one, rc_read. naive_solver.
    + set_solver.
    + naive_solver.
  - destruct (Hnr H0) as [-> ->]. exists (mkSpec ∅ (Some i) v). cbn. split_and!; [done| | |].
    + replace (rw_event i p WHeld) with [WriteAcq i] by (by destruct p). apply rwcell_run_one, rc_write.
    + set_solver.
    + naive_solver.
  - exists (mkSpec (rs ∖ {[i]}) wo v). cbn. split_and!; [done| | |].
    + replace (rw_event i RHeld p') with [ReadRel i] by (by destruct p'). apply rwcell_run_one, rc_read_rel. naive_solver.
    + set_solver.
    + naive_solver.
  - assert (wo = Some i) as -> by naive_solver. exists (mkSpec rs None v). cbn. split_and!; [done| | |].
    + replace (rw_event i WHeld p') with [WriteRel i] by (by destruct p'). apply rwcell_run_one, rc_write_rel.
    + naive_solver.
    + naive_solver.
  - exists (mkSpec rs wo v). cbn. split_and!; [done| | |].
    + destruct (He i) as [->| ->]; [constructor|apply rwcell_run_one, rc_fail].
    + naive_solver.
    + naive_solver.
Qed.
End simulation.

(** A step in which no thread gets or gives back a guard. *)
Lemma rep_same s s' c :
  rep s c → (∀ i q, q = RHeld ∨ q = WHeld → guards s' !! i = Some q ↔ guards s !! i = Some q) → rep s' c.
Proof. intros [Hr Hw] Hsame. split; intros i; rewrite Hsame by auto; auto. Qed.

Lemma rw_step_sim s s' c :
  Z.of_nat (length (guards s)) < RW_WRITER → rw_inv s → rep s c → rw_step s s' →
  ∃ c', value c' = value c ∧ rwcell_run c (rw_visible s s') c' ∧ rep s' c'.
Proof.
  intros Hlen Hinv Hrep Hs.
  assert (∀ i p p', guards s !! i = Some p → p ≠ RHeld → p ≠ WHeld → p' ≠ RHeld → p' ≠ WHeld →
    rw_event i p p' = [] → let s' := mkRw (word s) (<[i := p']> (guards s)) in
    ∃ c', value c' = value c ∧ rwcell_run c (rw_visible s s') c' ∧ rep s' c') as Hsilent.
  { intros i p p' Hi H1 H2 H3 H4 He s1. exists c. unfold s1. rewrite (rw_visible_insert s i p), He by done.
    split_and!; [done|constructor|]. apply (rep_same s); [done|]. intros j q Hq. cbn [guards].
    rewrite (lookup_upd _ _ p) by done. naive_solver. }
  destruct Hs as [s i p p' w' Hi Hl|s i p Hi Hp|s i x Hi|s i p Hi Hp|s i Hi].
  - rewrite (rw_visible_insert s i p) by done. by apply rw_local_sim.
  - rewrite !elem_of_cons, elem_of_nil in Hp.
    destruct Hp as [->|[->|[->|[->|?]]]]; [..|done]; by apply (Hsilent i Idle).
  - by apply (Hsilent i (RCas x)).
  - destruct p; try done; by eapply Hsilent.
  - exists c. rewrite rw_visible_wake by done. split_and!; [done|constructor|].
    apply (rep_same s); [done|]. intros j q Hq. cbn [guards]. rewrite lookup_wake.
    setoid_rewrite (lookup_upd _ _ WakeAll); [|done]. split.
    + intros (x & [[-> ->]|[_ Hx]] & ->); [naive_solver|]. destruct x; naive_solver.
    + intros Hj. exists q. split; [right; naive_solver|]. by destruct Hq as [->| ->].
Qed.

Lemma rwt_run_sim m tr m' c :
  Z.of_nat (length (guards (rw_raw m))) < RW_WRITER → rw_inv (rw_raw m) → rep (rw_raw m) c →
  value c = rw_data m → rwt_run m tr m' →
  ∃ c', rwcell_run c tr c' ∧ rep (rw_raw m') c' ∧ value c' = rw_data m'.
Proof.
  intros Hlen Hinv Hrep Hv Hrun. revert c Hlen Hinv Hrep Hv.
  induction Hrun as [|m m1 m2 tr tr' Hs _ IH]; intros c Hlen Hinv Hrep Hv; [by exists c; split_and!; [constructor|..]|].
  assert (∃ c1, rwcell_run c tr c1 ∧ rep (rw_raw m1) c1 ∧ value c1 = rw_data m1
    ∧ Z.of_nat (length (guards (rw_raw m1))) < RW_WRITER ∧ rw_inv (rw_raw m1)) as (c1 & Hr1 & Hrep1 & Hv1 & Hl1 & Hi1).
  { destruct Hs as [s s' v Hs|m i p Hi Hp|m i x Hi]; cbn in *.
    - destruct (rw_step_sim s s' c Hlen Hinv Hrep Hs) as (c1 & Hv1 & Hr1 & Hrep1). exists c1.
      split_and!; [done|done|by rewrite Hv1|by rewrite (rw_step_length s)|by eapply rw_step_inv].
    - exists c. split_and!; try done. apply rwcell_run_one. unfold rw_deref. rewrite <-Hv.
      destruct c as [rs w v]. apply rc_saw. destruct Hp as [->| ->]; [left|right]; by apply Hrep.
    - destruct c as [rs w v]. assert (w = Some i) as -> by (by apply Hrep).
      exists (mkSpec rs (Some i) x). split_and!; try done. apply rwcell_run_one, rc_store. }
  destruct (IH c1 Hl1 Hi1 Hrep1 Hv1) as (c' & Hr' & ? & ?). exists c'. split_and!; [|done..].
  by eapply rwcell_run_app.
Qed.

(** * Realisation *)
(** What a thread without a guard can be made to show at once: it takes a guard, or it fails because somebody has one. *)
Definition rw_plain (n : nat) (c : RwSpec) (e : RwEv) : Prop :=
  match e with
  | ReadAcq i | WriteAcq i => (i < n)%nat
  | TryRwFail i => (i < n)%nat ∧ i ∉ readers_of c ∧ writer_of c ≠ Some i ∧ (readers_of c ≠ ∅ ∨ writer_of c ≠ None)
  | _ => True
  end.

Inductive rwcell_plain (n : nat) (c : RwSpec) : list RwEv → RwSpec → Prop :=
| rp_nil : rwcell_plain n c [] c
| rp_snoc tr c' e c'' :
    rwcell_plain n c tr c' → rw_plain n c' e → rwcell_step c' e c'' → rwcell_plain n c (tr ++ [e]) c''.

Lemma rwcell_step_det c e c1 c2 : rwcell_step c e c1 → rwcell_step c e c2 → c1 = c2.
Proof. destruct 1; by inversion 1. Qed.

Definition at_ease (s : RwSys) : Prop := ∀ i p, guards s !! i = Some p → p = Idle ∨ p = RHeld ∨ p = WHeld.

Lemma at_ease_insert s w i p :
  at_ease s → p = Idle ∨ p = RHeld ∨ p = WHeld → at_ease (mkRw w (<[i := p]> (guards s))).
Proof. intros Hs Hp j q [(_ & <- & _)|[_ Hj]]%list_lookup_insert_Some; eauto. Qed.

Lemma at_ease_wake s w i : at_ease s → at_ease (mkRw w (wake <$> <[i := Idle]> (guards s))).
Proof.
  intros Hs j q (p & [(_ & <- & _)|[_ Hj]]%list_lookup_insert_Some & ->)%lookup_wake; [by left|].
  by destruct (Hs j p Hj) as [-> |[-> | ->]]; auto.
Qed.

Section going.
Context (s : RwSys) (i : nat) (v : T) (tr : list RwEv) (m : RwLockT).

Lemma rw_go p p' w' :
  guards s !! i = Some p → rw_local p (word s) = Some (p', w') →
  rwt_run (mkRwLockT (mkRw w' (<[i := p']> (guards s))) v) tr m →
  rwt_run (mkRwLockT s v) (rw_event i p p' ++ tr) m.
Proof. intros Hi Hl Hr. rewrite <-(rw_visible_insert s i p p' w' Hi). econstructor; [by eapply rt_lock, rw_step_local|done]. Qed.

Lemma rw_call p :
  guards s !! i = Some Idle → p ∈ [RLoad; WCas; TRLoad; TWCas] →
  rwt_run (mkRwLockT (mkRw (word s) (<[i := p]> (guards s))) v) tr m → rwt_run (mkRwLockT s v) tr m.
Proof.
  intros Hi Hp Hr. change tr with ([] ++ tr). replace [] with (rw_event i Idle p) by
    (rewrite !elem_of_cons, elem_of_nil in Hp; by destruct Hp as [-> |[-> |[-> |[-> |?]]]]).
  rewrite <-(rw_visible_insert s i Idle p (word s) Hi). econstructor; [by eapply rt_lock, rw_step_call|done].
Qed.

Lemma rw_wake :
  guards s !! i = Some WakeAll →
  rwt_run (mkRwLockT (mkRw (word s) (wake <$> <[i := Idle]> (guards s))) v) tr m → rwt_run (mkRwLockT s v) tr m.
Proof.
  intros Hi Hr. change tr with ([] ++ tr). rewrite <-(rw_visible_wake s i Hi).
  econstructor; [by eapply rt_lock, rw_step_wake|done].
Qed.
End going.

Lemma idle_of s c n i :
  rep s c → at_ease s → length (guards s) = n → (i < n)%nat → i ∉ readers_of c → writer_of c ≠ Some i →
  guards s !! i = Some Idle.
Proof.
  intros [Hr Hw] He <- [p Hp]%lookup_lt_is_Some Hnr Hnw. rewrite Hr in Hnr. rewrite Hw in Hnw.
  by destruct (He i p Hp) as [-> |[-> | ->]].
Qed.

Lemma rwt_run_raw m tr m' : rwt_run m tr m' → rtc rw_step (rw_raw m) (rw_raw m').
Proof. induction 1 as [|m m1 m2 tr tr' Hs _ IH]; [done|]. destruct Hs; cbn in *; [by eapply rtc_l|done..]. Qed.

Lemma rwt_run_app m m' m'' tr tr' : rwt_run m tr m' → rwt_run m' tr' m'' → rwt_run m (tr ++ tr') m''.
Proof. induction 1; cbn; [done|]. intros. rewrite <-(assoc_L (++)). econstructor; eauto. Qed.

(** Whole operations of thread [i], from [s], with nobody in between. *)
Section alone.
Context (s : RwSys) (i : nat) (v : T).

Lemma at_self p q : guards s !! i = Some p → <[i := q]> (guards s) !! i = Some q.
Proof. intros. apply list_lookup_insert_eq. by eapply lookup_lt_Some. Qed.

Lemma read_alone :
  guards s !! i = Some Idle → Z.land (word s) RW_WRITER = 0 →
  ∃ w, rwt_run (mkRwLockT s v) [ReadAcq i] (mkRwLockT (mkRw w (<[i := RHeld]> (guards s))) v).
Proof.
  intros Hi Hw. exists (wrap 32 (word s + 1)). apply (rw_call s i v _ _ RLoad); [done|by left|].
  apply (rw_go (mkRw _ _) i v [ReadAcq i] _ RLoad (RCas (word s)) (word s)); cbn; [by eapply at_self|..].
  { unfold no_writer. by rewrite bool_decide_eq_true_2. }
  apply (rw_go (mkRw _ _) i v [] _ (RCas (word s)) RHeld (wrap 32 (word s + 1))); cbn; rewrite ?list_insert_insert_eq.
  - by eapply at_self.
  - by rewrite decide_True.
  - constructor.
Qed.

Lemma write_alone :
  guards s !! i = Some Idle → word s = 0 →
  rwt_run (mkRwLockT s v) [WriteAcq i] (mkRwLockT (mkRw RW_WRITER (<[i := WHeld]> (guards s))) v).
Proof.
  intros Hi Hw. apply (rw_call s i v _ _ WCas); [done|by right; left|].
  apply (rw_go (mkRw _ _) i v [] _ WCas WHeld RW_WRITER); cbn; [by eapply at_self|by rewrite decide_True|].
  rewrite list_insert_insert_eq. constructor.
Qed.

Lemma fail_alone :
  guards s !! i = Some Idle → word s ≠ 0 →
  rwt_run (mkRwLockT s v) [TryRwFail i] (mkRwLockT (mkRw (word s) (<[i := Idle]> (guards s))) v).
Proof.
  intros Hi Hw. apply (rw_call s i v _ _ TWCas); [done|by do 3 right; left|].
  apply (rw_go (mkRw _ _) i v [] _ TWCas Idle (word s)); cbn; [by eapply at_self|by rewrite decide_False|].
  rewrite list_insert_insert_eq. constructor.
Qed.

(** A guard is dropped; its thread wakes the sleepers when it has to. *)
Lemma drop_alone p w e :
  guards s !! i = Some p → p = RHeld ∧ e = ReadRel i ∨ p = WHeld ∧ e = WriteRel i →
  rw_local p (word s) = Some (WakeAll, w) ∨ rw_local p (word s) = Some (Idle, w) → at_ease s →
  ∃ s', rwt_run (mkRwLockT s v) [e] (mkRwLockT s' v) ∧ at_ease s'.
Proof.
  intros Hi Hp [Hl|Hl] He.
  - exists (mkRw w (wake <$> <[i := Idle]> (guards s))). split; [|by apply at_ease_wake].
    change [e] with ([e] ++ []). replace [e] with (rw_event i p WakeAll) by (by destruct Hp as [[-> ->]|[-> ->]]).
    eapply rw_go; [done..|]. apply (rw_wake _ i); cbn; [by eapply at_self|]. rewrite list_insert_insert_eq. constructor.
  - exists (mkRw w (<[i := Idle]> (guards s))). split; [|apply at_ease_insert; auto].
    change [e] with ([e] ++ []). replace [e] with (rw_event i p Idle) by (by destruct Hp as [[-> ->]|[-> ->]]).
    eapply rw_go; [done..|]. constructor.
Qed.
End alone.

Lemma rep_no_writers s c : rep s c → writer_of c = None → writers (guards s) = 0%nat.
Proof.
  intros [_ Hw] E. destruct (decide (writers (guards s) = 0)%nat) as [|Hne]; [done|exfalso].
  destruct (proj1 (sum_pos is_w (guards s))) as (i & p & Hi & Hp); [unfold writers in Hne; lia|].
  assert (p = WHeld) as -> by (destruct p; cbn in Hp; done || lia). apply Hw in Hi. congruence.
Qed.

Lemma rep_no_readers s c : rep s c → readers_of c = ∅ → readers (guards s) = 0%nat.
Proof.
  intros [Hr _] E. destruct (decide (readers (guards s) = 0)%nat) as [|Hne]; [done|exfalso].
  destruct (proj1 (sum_pos is_r (guards s))) as (i & p & Hi & Hp); [unfold readers in Hne; lia|].
  assert (p = RHeld) as -> by (destruct p; cbn in Hp; done || lia). apply Hr in Hi. set_solver.
Qed.

Lemma rep_taken s c :
  rep s c → readers_of c ≠ ∅ ∨ writer_of c ≠ None → ¬ (writers (guards s) = 0%nat ∧ readers (guards s) = 0%nat).
Proof.
  intros [Hr Hw] Hc [H1 H2]. destruct Hc as [[j Hj]%set_choose_L|Hc].
  - apply Hr in Hj. by apply (no_holder is_r _ _ _ H2) in Hj.
  - destruct (writer_of c) as [j|]; [|done]. assert (guards s !! j = Some WHeld) as Hj by (by apply Hw).
    by apply (no_holder is_w _ _ _ H1) in Hj.
Qed.

(** The contract's step from a state at ease, made in one go. *)
Lemma rw_step_real n s c e c' :
  at_ease s → rw_inv s → length (guards s) = n → Z.of_nat n < RW_WRITER → rep s c →
  rw_plain n c e → rwcell_step c e c' →
  ∃ m', rwt_run (mkRwLockT s (value c)) [e] m' ∧ at_ease (rw_raw m').
Proof.
  intros He Hinv Hn Hlen Hrep Hp Hs. rewrite <-Hn in Hlen.
  pose proof (idle_of s c n) as Hidle. pose proof (no_writer_spec s Hlen Hinv) as Hnw.
  pose proof (word_zero s Hlen Hinv) as Hz.
  pose proof (rep_no_writers s c Hrep) as Hnwr. pose proof (rep_no_readers s c Hrep) as Hnrd.
  pose proof (rep_taken s c Hrep) as Htaken.
  destruct Hs as [rs v i Hi|rs w v i Hi|v i|rs v i|c i|rs w v i Hi|rs v x i]; cbn in *.
  - destruct (read_alone s i v) as [w Hr]; [by apply Hidle|by apply Hnw, Hnwr|]. eexists. split; [exact Hr|].
    apply at_ease_insert; auto.
  - apply Hrep in Hi. destruct (drop_alone s i v RHeld (wrap 32 (word s - 1)) (ReadRel i)) as (s' & Hr & ?); auto.
    { cbn. case_decide; auto. }
    by exists (mkRwLockT s' v).
  - eexists. split; [apply write_alone; [by apply Hidle|apply Hz; auto]|]. apply at_ease_insert; auto.
  - assert (guards s !! i = Some WHeld) as Hi by (by apply Hrep).
    destruct (drop_alone s i v WHeld 0 (WriteRel i)) as (s' & Hr & ?); auto. by exists (mkRwLockT s' v).
  - destruct Hp as (Hlt & Hnr & Hno & Hsome). eexists.
    split; [apply fail_alone; [by apply Hidle|rewrite Hz; auto]|].
    apply at_ease_insert; auto.
  - exists (mkRwLockT s v). split; [|done]. change [RwSaw i v] with ([RwSaw i v] ++ []).
    econstructor; [|constructor]. destruct Hi as [Hi| ->]; [apply (rt_saw (mkRwLockT s v) i RHeld)|apply (rt_saw (mkRwLockT s v) i WHeld)];
      auto; by apply Hrep.
  - exists (mkRwLockT s x). split; [|done]. change [RwStore i x] with ([RwStore i x] ++ []).
    econstructor; [|constructor]. apply (rt_store (mkRwLockT s v)). by apply Hrep.
Qed.

Lemma rw_steps_length s s' : rtc rw_step s s' → length (guards s') = length (guards s).
Proof. induction 1 as [|s1 s2 s3 Hs _ IH]; [done|]. by rewrite IH, (rw_step_length _ _ Hs). Qed.

Lemma rep_start n v : rep (rw_init n) (mkSpec ∅ None v).
Proof. split; intros i; cbn; split; try done. all: by intros [? _]%lookup_replicate. Qed.

Lemma rw_plain_real n v0 tr c :
  Z.of_nat n < RW_WRITER → rwcell_plain n (mkSpec ∅ None v0) tr c →
  ∃ m, rwt_run (rwlock_new n v0) tr m ∧ at_ease (rw_raw m) ∧ rep (rw_raw m) c ∧ value c = rw_data m.
Proof.
  intros Hn. induction 1 as [|tr c e c' _ (m & Hrun & He & Hrep & Hv) Hp Hs].
  - exists (rwlock_new n v0). split_and!; [constructor| |apply rep_start|done].
    by intros i p [-> _]%lookup_replicate; left.
  - destruct m as [s v]; cbn in *; subst v. pose proof (rwt_run_raw _ _ _ Hrun : rtc rw_step (rw_init n) s) as Hraw.
    destruct (rw_reachable n s Hn Hraw) as [Hinv Hlen]. pose proof (rw_steps_length _ _ Hraw) as Hl.
    cbn [rw_init guards] in Hl. rewrite length_replicate in Hl.
    destruct (rw_step_real n s c e c' He Hinv Hl Hn Hrep Hp Hs) as (m' & Hm' & He').
    destruct (rwt_run_sim (mkRwLockT s (value c)) _ _ c Hlen Hinv Hrep eq_refl Hm') as (c1 & Hc1 & Hrep1 & Hv1).
    assert (c1 = c') as ->.
    { inversion Hc1 as [|? ? ? ? ? Hc2 Hnil]; subst. inversion Hnil; subst. by eapply rwcell_step_det. }
    exists m'. split_and!; [by eapply rwt_run_app|done..].
Qed.

(** C9: the reader-writer lock is a shared cell. With fewer than [2^31] guards, every history that the interleavings
    over the futex lock show (guards obtained and dropped, failed attempts, values read and written through
    guards) is one of the cell in which readers only share it with readers, a writer is alone, every guard
    sees the last value written, and only a write guard writes; conversely every history of that cell in which
    attempts fail only while somebody has a guard is shown by the futex lock. *)
Theorem rwlock_refines_cell n (v0 : T) (Hn : Z.of_nat n < RW_WRITER) :
  (∀ tr m, rwt_run (rwlock_new n v0) tr m →
     ∃ c, rwcell_run (mkSpec ∅ None v0) tr c ∧ rep (rw_raw m) c ∧ value c = rw_data m)
  ∧ (∀ tr c, rwcell_plain n (mkSpec ∅ None v0) tr c →
     ∃ m, rwt_run (rwlock_new n v0) tr m ∧ rep (rw_raw m) c ∧ value c = rw_data m).
Proof.
  destruct (rw_reachable n (rw_init n) Hn ltac:(constructor)) as [Hinv Hlen]. split.
  - intros tr m. apply rwt_run_sim; [done..|apply rep_start|done].
  - intros tr c Hc. destruct (rw_plain_real n v0 tr c Hn Hc) as (m & ? & _ & ? & ?). eauto.
Qed.
End cell.

(** ** A run: a writer that stores 7 *)
Lemma rw_one {T} (s s' : RwSys) (v : T) tr m :
  rw_step s s' → rwt_run (mkRwLockT s' v) tr m → rwt_run (mkRwLockT s v) (rw_visible s s' ++ tr) m.
Proof. intros. econstructor; [by apply rt_lock|done]. Qed.

(** Witness of C9. *)
Lemma rwlock_refines_cell_witness :
  ∃ m c, rwt_run (rwlock_new 1 (0 : Z)) [WriteAcq 0; RwStore 0 7] m
    ∧ rwcell_run (mkSpec ∅ None 0) [WriteAcq 0; RwStore 0 7] c ∧ value c = 7.
Proof.
  set (s1 := mkRw 0 [WCas]). set (s2 := mkRw RW_WRITER [WHeld]).
  assert (rwt_run (rwlock_new 1 (0 : Z)) [WriteAcq 0; RwStore 0 7] (mkRwLockT s2 7)) as Hrun.
  { apply (rw_one (rw_init 1) s1).
    { apply (rw_step_call (rw_init 1) 0 WCas); [done|]. by apply (bool_decide_unpack _). }
    apply (rw_one s1 s2). { by apply (rw_step_local s1 0 WCas WHeld RW_WRITER). }
    change [RwStore 0%nat 7] with ([RwStore 0%nat 7] ++ []).
    econstructor; [by apply (rt_store (mkRwLockT s2 0) 0 7)|constructor]. }
  destruct (rwlock_refines_cell 1 (0 : Z)) as [Href _]; [vm_compute; reflexivity|].
  destruct (Href [WriteAcq 0%nat; RwStore 0%nat 7] (mkRwLockT s2 7) Hrun) as (c & Hc & _ & Hv).
  exists (mkRwLockT s2 7), c. split; [exact Hrun|]. split; [exact Hc|exact Hv].
Defined.
