(* ===== verification/Once.v ===== *)
(** [Once], [OnceLock] and [LazyLock] (src/src/sync.rs) as a system of threads.

    [call_once] runs its closure between the exchange INCOMPLETE -> RUNNING and the
    store of COMPLETE; the closure of [OnceLock] and [LazyLock] writes the value
    cell.  One step is one atomic operation, one turn of the spin loop, or the closure. *)
From S2P Require Import Prelude.

Definition INCOMPLETE : Z := 0.
Definition RUNNING : Z := 1.
Definition COMPLETE : Z := 2.

Section once.
Context {V : Type}.

(** A caller of [get_or_init] (or [set], or [force]) with the value [v] its closure
    produces. *)
Inductive OncePc : Type :=
| Idle
| OLoad (v : V)
| OCas (v : V)
| ORun (v : V)               (* inside the closure *)
| OStore                     (* store COMPLETE *)
| OSpin
| ODone (ran : bool)         (* call_once returned; ran: it ran our closure *)
| Ret (ran : bool) (v : V).  (* the caller has read the cell *)

Record OnceSys := mkOnce { once_state : Z; cell : option V; runs : nat; callers : list OncePc }.

(** One operation of [call_once] with the closure of [get_or_init]. *)
Definition call_once (p : OncePc) (st : Z) (c : option V) (k : nat)
    : option (OncePc * Z * option V * nat) :=
  match p with
  | OLoad v => Some (if decide (st = COMPLETE) then ODone false else OCas v, st, c, k)
  | OCas v =>
      Some (if decide (st = INCOMPLETE) then (ORun v, RUNNING, c, k) else (OSpin, st, c, k))
  | ORun v => Some (OStore, st, Some v, S k)
  | OStore => Some (ODone true, COMPLETE, c, k)
  | OSpin => Some (if decide (st = COMPLETE) then ODone false else OSpin, st, c, k)
  | _ => None
  end.

(** The read of the cell after [call_once]; [unwrap] of an empty cell is stuck. *)
Definition read_cell (p : OncePc) (c : option V) : option OncePc :=
  match p with
  | ODone ran => v ← c; Some (Ret ran v)
  | _ => None
  end.

(** [Once::is_completed] and [OnceLock::get] *)
Definition is_completed (s : OnceSys) : bool := bool_decide (once_state s = COMPLETE).

Definition once_get (s : OnceSys) : option V := if is_completed s then cell s else None.

(** [OnceLock::set]: [Ok] when our closure ran, else the value back. *)
Definition set_result (ran : bool) (v : V) : result unit V := if ran then Ok tt else Err v.

Inductive once_step : OnceSys → OnceSys → Prop :=
| once_step_call s i v :
    callers s !! i = Some Idle →
    once_step s (mkOnce (once_state s) (cell s) (runs s) (<[i := OLoad v]> (callers s)))
| once_step_op s i p p' st c k :
    callers s !! i = Some p → call_once p (once_state s) (cell s) (runs s) = Some (p', st, c, k) →
    once_step s (mkOnce st c k (<[i := p']> (callers s)))
| once_step_read s i p p' :
    callers s !! i = Some p → read_cell p (cell s) = Some p' →
    once_step s (mkOnce (once_state s) (cell s) (runs s) (<[i := p']> (callers s)))
| once_step_return s i ran v :
    callers s !! i = Some (Ret ran v) →
    once_step s (mkOnce (once_state s) (cell s) (runs s) (<[i := Idle]> (callers s))).

Definition once_init (n : nat) : OnceSys := mkOnce INCOMPLETE None 0 (replicate n Idle).

(** ** Invariant *)
Definition in_run (p : OncePc) : nat := match p with ORun _ | OStore => 1 | _ => 0 end.

(** What a program counter tells about the state and the cell. *)
Definition pc_says (st : Z) (c : option V) (p : OncePc) : Prop :=
  match p with
  | ORun _ => st = RUNNING ∧ c = None
  | OStore => st = RUNNING ∧ is_Some c
  | OSpin => st ≠ INCOMPLETE
  | ODone _ => st = COMPLETE
  | Ret _ v => st = COMPLETE ∧ c = Some v
  | _ => True
  end.

Record once_inv (s : OnceSys) : Prop := {
  oi_state : once_state s = INCOMPLETE ∨ once_state s = RUNNING ∨ once_state s = COMPLETE;
  oi_run : sum_list_with in_run (callers s) = if decide (once_state s = RUNNING) then 1%nat else 0%nat;
  oi_cell : (once_state s = INCOMPLETE → cell s = None) ∧ (once_state s = COMPLETE → is_Some (cell s));
  oi_runs : runs s = match cell s with Some _ => 1%nat | None => 0%nat end;
  oi_pc : ∀ i p, callers s !! i = Some p → pc_says (once_state s) (cell s) p;
}.

(** A caller moves and nothing else changes. *)
Lemma once_move s i p p' :
  once_inv s → callers s !! i = Some p → in_run p = 0%nat → in_run p' = 0%nat →
  pc_says (once_state s) (cell s) p' →
  once_inv (mkOnce (once_state s) (cell s) (runs s) (<[i := p']> (callers s))).
Proof.
  intros [H1 H2 H3 H4 H5] Hi E1 E2 Hp. constructor; cbn; try done.
  - pose proof (sum_list_with_insert in_run (callers s) i p p' Hi). lia.
  - intros j q [[-> ->]|[_ Hj]]%(lookup_upd _ i p); [done|eauto|done].
Qed.

Lemma in_run_unique s i j p q :
  once_inv s → callers s !! i = Some p → callers s !! j = Some q →
  in_run p = 1%nat → in_run q = 1%nat → i = j.
Proof.
  intros [_ H2 _ _ _] Hi Hj Ep Eq. destruct (decide (i = j)) as [|Hne]; [done|exfalso].
  pose proof (sum_list_with_insert in_run (callers s) i p Idle Hi) as Hu. cbn in Hu.
  assert (0 < sum_list_with in_run (<[i:=Idle]> (callers s)))%nat.
  { apply sum_pos. exists j, q. rewrite list_lookup_insert_ne by done. split; [done|lia]. }
  destruct (decide _); lia.
Qed.

Lemma running_is_running s i p :
  once_inv s → callers s !! i = Some p → in_run p = 1%nat → once_state s = RUNNING.
Proof.
  intros [_ _ _ _ H5] Hi Ep. specialize (H5 i p Hi). destruct p; try done; apply H5.
Qed.

Lemma call_once_inv s i p p' st c k :
  once_inv s → callers s !! i = Some p →
  call_once p (once_state s) (cell s) (runs s) = Some (p', st, c, k) →
  once_inv (mkOnce st c k (<[i := p']> (callers s))).
Proof.
  intros Hinv Hi Hc.
  pose proof (in_run_unique s i) as Huniq.
  assert (∀ q, (sum_list_with in_run (<[i:=q]> (callers s)) + in_run p
                = sum_list_with in_run (callers s) + in_run q)%nat) as Hsum
    by (intros q; by apply sum_list_with_insert).
  pose proof (oi_pc s Hinv i p Hi) as Hpc.
  destruct p as [|v|v|v| | |ran|ran v]; try done; cbn in Hc, Hpc.
  - destruct (decide (once_state s = COMPLETE)); simplify_eq; by apply (once_move s i (OLoad v)).
  - destruct (decide (once_state s = INCOMPLETE)) as [E|]; simplify_eq;
      [|by apply (once_move s i (OCas v))].
    pose proof Hinv as [_ H2 [H3 _] H4 H5]. rewrite E in *. constructor; cbn [once_state cell runs callers].
    + by right; left.
    + specialize (Hsum (ORun v)). rewrite decide_False in H2 by done.
      rewrite decide_True by done. cbn [in_run] in Hsum. lia.
    + done.
    + by rewrite H4.
    + intros j q [[-> ->]|[Hne Hj]]%(lookup_upd _ i (OCas v)); [by split; [|apply H3]| |done].
      specialize (H5 j q Hj). destruct q; cbn in *; naive_solver.
  - destruct Hpc as [E Ec]. simplify_eq. pose proof Hinv as [_ H2 _ H4 H5].
    constructor; cbn [once_state cell runs callers].
    + by right; left.
    + specialize (Hsum OStore). cbn [in_run] in Hsum. lia.
    + rewrite E. done.
    + by rewrite H4, Ec.
    + intros j q [[-> ->]|[Hne Hj]]%(lookup_upd _ i (ORun v)); [by split; eauto| |done].
      specialize (H5 j q Hj). destruct q; cbn in *; try done; [|naive_solver].
      destruct Hne. symmetry. by apply (Huniq j (ORun v) (ORun v0)).
  - destruct Hpc as [E Ec]. simplify_eq. pose proof Hinv as [_ H2 _ H4 H5].
    constructor; cbn [once_state cell runs callers].
    + by do 2 right.
    + specialize (Hsum (ODone true)). cbn [in_run] in Hsum. rewrite decide_True in H2 by done.
      rewrite decide_False by done. lia.
    + done.
    + done.
    + intros j q [[-> ->]|[Hne Hj]]%(lookup_upd _ i OStore); [done| |done].
      specialize (H5 j q Hj). destruct q; cbn in *; try done; [| |naive_solver].
      all: exfalso; apply Hne; symmetry; by eapply (Huniq j OStore).
  - destruct (decide (once_state s = COMPLETE)); simplify_eq; by apply (once_move s i OSpin).
Qed.

Lemma once_step_inv s s' : once_step s s' → once_inv s → once_inv s'.
Proof.
  intros Hstep Hinv. destruct Hstep as [s i v Hi|s i p p' st c k Hi Hc|s i p p' Hi Hr|s i ran v Hi].
  - by apply (once_move s i Idle).
  - by eapply call_once_inv.
  - pose proof (oi_pc s Hinv i p Hi) as Hpc. destruct p; try done; cbn in Hr, Hpc.
    destruct (cell s) as [v|] eqn:Ec; [|done]. cbn in Hr. simplify_eq.
    rewrite <-Ec. eapply (once_move s i); [done..|]. by rewrite Ec.
  - by apply (once_move s i (Ret ran v)).
Qed.

Lemma once_reachable n s : rtc once_step (once_init n) s → once_inv s.
Proof.
  assert (∀ s0, rtc once_step s0 s → once_inv s0 → once_inv s) as Hall.
  { intros s0. induction 1; eauto using once_step_inv. }
  intros Hs. apply (Hall _ Hs). constructor; cbn [once_state cell runs callers once_init].
  - by left.
  - by rewrite sum_list_with_zero.
  - done.
  - done.
  - intros i p [-> _]%lookup_replicate. done.
Qed.

Lemma once_step_cell s s' v :
  once_inv s → once_step s s' → cell s = Some v → cell s' = Some v.
Proof.
  intros Hinv Hstep Hv. destruct Hstep as [s i u Hi|s i p p' st c k Hi Hc|s i p p' Hi Hr|s i ran u Hi];
    cbn; try done.
  pose proof (oi_pc s Hinv i p Hi) as Hpc.
  destruct p; cbn in Hc, Hpc; repeat case_decide; simplify_eq; try done.
  destruct Hpc. congruence.
Qed.

Lemma once_steps_cell n s s' v :
  rtc once_step (once_init n) s → rtc once_step s s' → cell s = Some v → cell s' = Some v.
Proof.
  intros Hs. apply once_reachable in Hs. induction 1 as [|s s1 s2 H01 _ IH]; [done|].
  intros Hv. apply IH; [by eapply once_step_inv|by eapply once_step_cell].
Qed.

Lemma once_length n s : rtc once_step (once_init n) s → length (callers s) = n.
Proof.
  revert s. apply rtc_ind_r; [by cbn; rewrite length_replicate|]. intros x y _ Hxy IH.
  destruct Hxy; cbn; by rewrite length_insert.
Qed.

(** ** Progress *)
(** The steps of the calls already made, without the turns of the spin loop that change nothing. *)
Inductive once_quiet : OnceSys → OnceSys → Prop :=
| once_quiet_op s i p p' st c k :
    callers s !! i = Some p → call_once p (once_state s) (cell s) (runs s) = Some (p', st, c, k) →
    p' ≠ p → once_quiet s (mkOnce st c k (<[i := p']> (callers s)))
| once_quiet_read s i p p' :
    callers s !! i = Some p → read_cell p (cell s) = Some p' →
    once_quiet s (mkOnce (once_state s) (cell s) (runs s) (<[i := p']> (callers s)))
| once_quiet_return s i ran v :
    callers s !! i = Some (Ret ran v) →
    once_quiet s (mkOnce (once_state s) (cell s) (runs s) (<[i := Idle]> (callers s))).

Lemma once_quiet_step s s' : once_quiet s s' → once_step s s'.
Proof. destruct 1; by econstructor. Qed.

Definition once_todo (p : OncePc) : nat :=
  match p with
  | Idle => 0 | Ret _ _ => 1 | ODone _ => 2 | OStore => 3 | OSpin => 3 | ORun _ => 4 | OCas _ => 5 | OLoad _ => 6
  end.

Definition once_idle (s : OnceSys) : Prop := ∀ i p, callers s !! i = Some p → p = Idle.

Lemma once_quiet_work s s' :
  once_quiet s s' → (sum_list_with once_todo (callers s') < sum_list_with once_todo (callers s))%nat.
Proof.
  destruct 1 as [s i p p' st c k Hi Hop Hne|s i p p' Hi Hr|s i ran v Hi]; cbn [callers].
  - pose proof (sum_list_with_insert once_todo _ i p p' Hi) as Hw.
    destruct p; try done; cbn in Hop; repeat case_decide; simplify_eq; cbn in Hw; lia.
  - pose proof (sum_list_with_insert once_todo _ i p p' Hi) as Hw.
    destruct p; try done; cbn in Hr. destruct (cell s); simplify_eq/=. lia.
  - pose proof (sum_list_with_insert once_todo _ i (Ret ran v) Idle Hi) as Hw. cbn in Hw. lia.
Qed.

(** A caller can step, unless it spins while another one is inside the closure. *)
Lemma once_quiet_at s i p :
  once_inv s → callers s !! i = Some p → (0 < once_todo p)%nat →
  (p = OSpin → once_state s = COMPLETE) → ∃ s', once_quiet s s'.
Proof.
  intros Hinv Hi Hp Hspin. pose proof (oi_pc s Hinv i p Hi) as Hpc. pose proof (oi_cell s Hinv) as [_ Hcell].
  assert ((∃ ran, p = ODone ran) ∨ (∃ ran v, p = Ret ran v)
    ∨ ∃ p' st c k, call_once p (once_state s) (cell s) (runs s) = Some (p', st, c, k) ∧ p' ≠ p) as Hcase.
  { destruct p; cbn in Hp, Hpc |- *; try lia; try rewrite (Hspin eq_refl); eauto 10; right; right;
      repeat case_decide; repeat eexists; done. }
  destruct Hcase as [[ran ->]|[(ran & v & ->)|(p' & st & c & k & Hop & Hne)]].
  - destruct (Hcell Hpc) as [v Hv]. eexists. apply (once_quiet_read s i _ (Ret ran v) Hi). cbn. by rewrite Hv.
  - eexists. by apply (once_quiet_return s i ran v).
  - eexists. by apply (once_quiet_op s i p p' st c k).
Qed.

Lemma once_quiet_live s : once_inv s → once_idle s ∨ ∃ s', once_quiet s s'.
Proof.
  intros Hinv. destruct (decide (sum_list_with once_todo (callers s) = 0%nat)) as [Hz|Hz].
  - left. intros i p Hi. destruct p; try done; exfalso;
      (assert (0 < sum_list_with once_todo (callers s))%nat; [apply sum_pos; eexists i, _; split; [done|cbn; lia]|lia]).
  - right. assert (0 < sum_list_with once_todo (callers s))%nat as (i & p & Hi & Hp)%sum_pos by lia.
    destruct (decide (once_state s = RUNNING)) as [Er|Er].
    + pose proof (oi_run s Hinv) as Hrun. rewrite decide_True in Hrun by done.
      assert (0 < sum_list_with in_run (callers s))%nat as (j & q & Hj & Hq)%sum_pos by lia.
      apply (once_quiet_at s j q); [done..| |]; destruct q; cbn in *; done || lia.
    + apply (once_quiet_at s i p); [done..|]. intros ->. pose proof (oi_pc s Hinv i _ Hi) as Hpc. cbn in Hpc.
      destruct (oi_state s Hinv) as [?|[?|?]]; done.
Qed.

(** C11: one-time initialisation. However the callers interleave, at most one closure runs;
    a caller past [call_once] finds the cell full (the [unwrap] never fails) and
    every caller, now and later, reads that one value. When nobody calls again, the callers all return
    within six steps each, not counting the turns of a spin loop that find the closure still running. *)
Theorem once_lock_correct n s (Hs : rtc once_step (once_init n) s) :
  (runs s ≤ 1)%nat
  ∧ (∀ i ran, callers s !! i = Some (ODone ran) → is_Some (cell s))
  ∧ (∀ i ran v, callers s !! i = Some (Ret ran v) → once_get s = Some v ∧ runs s = 1%nat)
  ∧ (∀ s' v, rtc once_step s s' → once_get s = Some v → cell s' = Some v)
  ∧ settles once_quiet once_idle (6 * n) s.
Proof.
  pose proof (once_reachable n s Hs) as Hinv. pose proof Hinv as [H1 H2 [_ H3] H4 H5]. split_and!.
  - rewrite H4. destruct (cell s); lia.
  - intros i ran Hi. apply H3. exact (H5 i _ Hi).
  - intros i ran v Hi. destruct (H5 i _ Hi) as [E Ec]. unfold once_get, is_completed. rewrite H4, E, Ec. done.
  - intros s' v Hs' Hg. unfold once_get, is_completed in Hg. case_bool_decide; [|done]. by eapply once_steps_cell.
  - apply (settling _ once_inv _ (λ x, sum_list_with once_todo (callers x))); [| |done|].
    + intros x y Hx Hxy. split; [eapply once_step_inv, Hx; by apply once_quiet_step|by apply once_quiet_work].
    + apply once_quiet_live.
    + rewrite <-(once_length n s Hs). apply sum_le_mul. intros []; cbn; lia.
Qed.
End once.
Arguments OncePc : clear implicits.
Arguments OnceSys : clear implicits.

(** ** Two callers race with different values; both return the first one's *)
Definition sample_once : OnceSys Z := mkOnce COMPLETE (Some 7) 1 [Ret true 7; Ret false 7].

Lemma sample_once_reachable : rtc once_step (once_init (V:=Z) 2) sample_once.
Proof.
  advance ltac:(by apply (once_step_call _ 0 7)).
  advance ltac:(by apply (once_step_call _ 1 8)).
  advance ltac:(by apply (once_step_op _ 1 (OLoad 8) (OCas 8) 0 None 0)).
  advance ltac:(by apply (once_step_op _ 0 (OLoad 7) (OCas 7) 0 None 0)).
  advance ltac:(by apply (once_step_op _ 0 (OCas 7) (ORun 7) 1 None 0)).
  advance ltac:(by apply (once_step_op _ 1 (OCas 8) OSpin 1 None 0)).
  advance ltac:(by apply (once_step_op _ 0 (ORun 7) OStore 1 (Some 7) 1)).
  advance ltac:(by apply (once_step_op _ 0 OStore (ODone true) 2 (Some 7) 1)).
  advance ltac:(by apply (once_step_op _ 1 OSpin (ODone false) 2 (Some 7) 1)).
  advance ltac:(by apply (once_step_read _ 0 (ODone true) (Ret true 7))).
  advance ltac:(by apply (once_step_read _ 1 (ODone false) (Ret false 7))).
  apply rtc_refl.
Qed.

(** Witness of C11. *)
Lemma once_lock_correct_witness :
  (runs sample_once ≤ 1)%nat ∧ once_get sample_once = Some 7 ∧ runs sample_once = 1%nat.
Proof.
  destruct (once_lock_correct 2 sample_once sample_once_reachable) as (H1 & _ & H3 & _).
  split; [exact H1|]. by apply (H3 1%nat false 7).
Defined.

(** ** [LazyLock]: the closure is stored beside the cell and taken by the one caller that runs
    it.  The system is simulated by the one above, with every caller bringing the value of
    the stored closure. *)
Section lazy.
Context {V : Type}.

Inductive LazyPc : Type :=
| LIdle
| LLoad
| LCas
| LTake              (* this.init.take().unwrap() *)
| LInit (v : V)      (* the closure returned v: this.value = Some(v) *)
| LStore
| LSpin
| LDone              (* this.value.as_ref().unwrap() *)
| LRet (v : V).

Record LazySys := mkLazy {
  lazy_state : Z; value : option V; init : option V; lazy_runs : nat; forcers : list LazyPc }.

Definition at_ (s : LazySys) (i : nat) (p : LazyPc) (st : Z) : LazySys :=
  mkLazy st (value s) (init s) (lazy_runs s) (<[i := p]> (forcers s)).

(** [LazyLock::force]; an [unwrap] of [None] is stuck. *)
Definition force (i : nat) (p : LazyPc) (s : LazySys) : option LazySys :=
  let st := lazy_state s in
  match p with
  | LLoad => Some (at_ s i (if decide (st = COMPLETE) then LDone else LCas) st)
  | LCas => Some (if decide (st = INCOMPLETE) then at_ s i LTake RUNNING else at_ s i LSpin st)
  | LTake =>
      v ← init s;
      Some (mkLazy st (value s) None (lazy_runs s) (<[i := LInit v]> (forcers s)))
  | LInit v =>
      Some (mkLazy st (Some v) (init s) (S (lazy_runs s)) (<[i := LStore]> (forcers s)))
  | LStore => Some (at_ s i LDone COMPLETE)
  | LSpin => Some (at_ s i (if decide (st = COMPLETE) then LDone else LSpin) st)
  | LDone => v ← value s; Some (at_ s i (LRet v) st)
  | LRet v => Some (at_ s i LIdle st)
  | LIdle => None
  end.

Inductive lazy_step : LazySys → LazySys → Prop :=
| lazy_call s i :
    forcers s !! i = Some LIdle → lazy_step s (at_ s i LLoad (lazy_state s))
| lazy_op s s' i p : forcers s !! i = Some p → force i p s = Some s' → lazy_step s s'.

Definition lazy_new (v : V) (n : nat) : LazySys :=
  mkLazy INCOMPLETE None (Some v) 0 (replicate n LIdle).

(** *** Simulation *)
Context (v0 : V).

(** Whether a caller ran the closure is not recorded here; the simulating system does. *)
Definition matches (p : LazyPc) (q : OncePc V) : Prop :=
  match p, q with
  | LIdle, Idle => True
  | LLoad, OLoad v | LCas, OCas v => v = v0
  | LTake, ORun v => v = v0
  | LInit w, ORun v => v = v0 ∧ w = v0
  | LStore, OStore | LSpin, OSpin | LDone, ODone _ => True
  | LRet w, Ret _ v => w = v
  | _, _ => False
  end.

Record simulates (s : LazySys) (o : OnceSys V) : Prop := {
  sim_inv : once_inv o;
  sim_state : lazy_state s = once_state o;
  sim_cell : value s = cell o;
  sim_runs : lazy_runs s = runs o;
  sim_pcs : Forall2 matches (forcers s) (callers o);
  sim_value : ∀ v, value s = Some v → v = v0;
  sim_init : lazy_state s = INCOMPLETE ∨ LTake ∈ forcers s → init s = Some v0;
}.

Lemma sim_pc s o i p :
  simulates s o → forcers s !! i = Some p → ∃ q, callers o !! i = Some q ∧ matches p q.
Proof. intros Hsim Hi. by eapply Forall2_lookup_l; [apply Hsim|]. Qed.

Lemma take_keep (s : LazySys) i (p p' : LazyPc) :
  forcers s !! i = Some p → p' ≠ LTake → LTake ∈ <[i := p']> (forcers s) → LTake ∈ forcers s.
Proof.
  intros Hi Hp [j Hj]%list_elem_of_lookup. apply (lookup_upd _ i p) in Hj; [|done].
  destruct Hj as [[-> ?]|[_ Hj]]; [congruence|]. by eapply list_elem_of_lookup_2.
Qed.

(** A caller moves together with its counterpart. *)
Lemma sim_move s o i p p' q' st c k :
  simulates s o → forcers s !! i = Some p → p' ≠ LTake →
  once_inv (mkOnce st c k (<[i := q']> (callers o))) → matches p' q' →
  (∀ v, c = Some v → v = v0) → (st = INCOMPLETE → lazy_state s = INCOMPLETE) →
  simulates (mkLazy st c (init s) k (<[i := p']> (forcers s)))
            (mkOnce st c k (<[i := q']> (callers o))).
Proof.
  intros [H1 H2 H3 H4 H5 H6 H7] Hi Hp Hinv Hm Hc Hst. constructor; cbn; auto.
  - by apply Forall2_insert.
  - intros [E|E]; apply H7; [left; auto|right; by eapply take_keep].
Qed.

Lemma once_op_sim s o i p p' q q' st c k :
  simulates s o → forcers s !! i = Some p → callers o !! i = Some q → p' ≠ LTake →
  call_once q (once_state o) (cell o) (runs o) = Some (q', st, c, k) → matches p' q' →
  (∀ v, c = Some v → v = v0) → (st = INCOMPLETE → lazy_state s = INCOMPLETE) →
  ∃ o', rtc once_step o o'
        ∧ simulates (mkLazy st c (init s) k (<[i := p']> (forcers s))) o'.
Proof.
  intros Hsim Hi Hq Hp Hop Hm Hc Hst. pose proof (sim_inv s o Hsim) as Hinv.
  exists (mkOnce st c k (<[i := q']> (callers o))). split.
  - apply rtc_once. by eapply once_step_op.
  - eapply sim_move; try done. by eapply call_once_inv.
Qed.

(** The one caller in the closure takes it; the counterpart stays. *)
Lemma take_sim s o i :
  simulates s o → forcers s !! i = Some LTake →
  simulates (mkLazy (lazy_state s) (value s) None (lazy_runs s) (<[i := LInit v0]> (forcers s))) o.
Proof.
  intros Hsim Hi. destruct (sim_pc s o i _ Hsim Hi) as (q & Hq & Hm). destruct q; try done.
  pose proof Hsim as [H1 H2 H3 H4 H5 H6 H7]. constructor; cbn; auto.
  - rewrite <-(list_insert_id (callers o) i (ORun v)) by done. by apply Forall2_insert.
  - intros [E|[j Hj]%list_elem_of_lookup]; exfalso.
    + pose proof (running_is_running o i (ORun v) H1 Hq eq_refl) as E2. by rewrite H2, E2 in E.
    + apply (lookup_upd _ i LTake) in Hj; [|done]. destruct Hj as [[_ ?]|[Hne Hj]]; [done|].
      destruct (sim_pc s o j _ Hsim Hj) as (q & Hq' & Hm'). destruct q; try done.
      apply Hne. by eapply (in_run_unique o j i).
Qed.

Lemma cas_sim s o i :
  simulates s o → forcers s !! i = Some LCas → lazy_state s = INCOMPLETE →
  ∃ o', rtc once_step o o' ∧ simulates (at_ s i LTake RUNNING) o'.
Proof.
  intros Hsim Hi Hst. destruct (sim_pc s o i _ Hsim Hi) as (q & Hq & Hm). destruct q; try done.
  cbn in Hm. subst v. pose proof Hsim as [H1 H2 H3 H4 H5 H6 H7].
  assert (call_once (OCas v0) (once_state o) (cell o) (runs o)
          = Some (ORun v0, RUNNING, cell o, runs o)) as Hop
    by (cbn; by rewrite decide_True by congruence).
  exists (mkOnce RUNNING (cell o) (runs o) (<[i := ORun v0]> (callers o))). split.
  - apply rtc_once. by eapply once_step_op.
  - constructor; cbn; auto; [by eapply call_once_inv|by apply Forall2_insert].
Qed.

Lemma lazy_step_sim s s' o :
  lazy_step s s' → simulates s o → ∃ o', rtc once_step o o' ∧ simulates s' o'.
Proof.
  intros Hstep Hsim. pose proof Hsim as [H1 H2 H3 H4 H5 H6 H7]. destruct Hstep as [s i Hi|s s' i p Hi Hop].
  - destruct (sim_pc s o i _ Hsim Hi) as (q & Hq & Hm). destruct q; try done.
    exists (mkOnce (once_state o) (cell o) (runs o) (<[i := OLoad v0]> (callers o))). split.
    + apply rtc_once. by apply once_step_call.
    + unfold at_. rewrite H2, H3, H4. eapply sim_move; try done; [|by rewrite <-H3|by rewrite H2].
      by apply (once_move o i Idle).
  - destruct (sim_pc s o i _ Hsim Hi) as (q & Hq & Hm).
    assert (∀ p' q' st c k, p' ≠ LTake →
      call_once q (once_state o) (cell o) (runs o) = Some (q', st, c, k) → matches p' q' →
      (∀ v, c = Some v → v = v0) → (st = INCOMPLETE → lazy_state s = INCOMPLETE) →
      ∃ o', rtc once_step o o'
        ∧ simulates (mkLazy st c (init s) k (<[i := p']> (forcers s))) o') as Hgo
      by (intros; by eapply once_op_sim).
    rewrite H3 in H6.
    destruct p; cbn in Hop; try done; destruct q; try done; cbn in Hm; unfold at_ in Hop;
      rewrite ?H2, ?H3, ?H4 in Hop.
    + simplify_eq. destruct (decide (once_state o = COMPLETE)) as [E|E];
        (eapply Hgo; [done|cbn|..]; [by rewrite ?decide_True, ?decide_False by done|done..|by rewrite H2]).
    + destruct (decide (once_state o = INCOMPLETE)) as [E|E]; simplify_eq.
      * rewrite <-H3, <-H4. apply cas_sim; congruence.
      * eapply Hgo; [done|cbn; by rewrite decide_False by done|done..|by rewrite H2].
    + rewrite H7 in Hop by (right; by eapply list_elem_of_lookup_2). cbn in Hop. simplify_eq.
      exists o. split; [done|]. rewrite <-?H2, <-?H3, <-?H4. by apply take_sim.
    + destruct Hm as [-> ->]. simplify_eq.
      eapply Hgo; [done|reflexivity|done|congruence|by rewrite H2].
    + simplify_eq. eapply Hgo; [done|reflexivity|done..].
    + simplify_eq. destruct (decide (once_state o = COMPLETE)) as [E|E];
        (eapply Hgo; [done|cbn|..]; [by rewrite ?decide_True, ?decide_False by done|done..|by rewrite H2]).
    + destruct (cell o) as [v|] eqn:Ec; [|done]. cbn in Hop. simplify_eq.
      exists (mkOnce (once_state o) (cell o) (runs o) (<[i := Ret ran v]> (callers o))). split.
      * apply rtc_once. eapply once_step_read; [done|]. cbn. by rewrite Ec.
      * rewrite Ec. eapply sim_move; try done; [|by rewrite H2].
        rewrite <-Ec. apply (once_move o i (ODone ran)); try done.
        cbn. split; [|done]. exact (oi_pc o H1 i _ Hq).
    + simplify_eq.
      exists (mkOnce (once_state o) (cell o) (runs o) (<[i := Idle]> (callers o))). split.
      * apply rtc_once. by eapply once_step_return.
      * eapply sim_move; try done; [|by rewrite H2]. by apply (once_move o i (Ret ran v1)).
Qed.

Lemma lazy_reachable n s :
  rtc lazy_step (lazy_new v0 n) s → ∃ o, rtc once_step (once_init n) o ∧ simulates s o.
Proof.
  assert (∀ s0, rtc lazy_step s0 s → ∀ o0, simulates s0 o0 →
            ∃ o, rtc once_step o0 o ∧ simulates s o) as Hall.
  { intros s0. induction 1 as [s0|s0 s1 s2 H01 _ IH]; intros o0 Hsim; [by exists o0|].
    destruct (lazy_step_sim s0 s1 o0 H01 Hsim) as (o1 & Hr & Hs1).
    destruct (IH o1 Hs1) as (o & Hr' & Hs). exists o. split; [by etrans|done]. }
  intros Hs. apply (Hall _ Hs). constructor; cbn; try done.
  - by apply (once_reachable n), rtc_refl.
  - by apply Forall2_replicate.
Qed.

(** *** Progress *)
(** The steps of the calls already made, without the turns of the spin loop that change nothing. *)
Inductive lazy_quiet : LazySys → LazySys → Prop :=
| lazy_quiet_op s s' i p :
    forcers s !! i = Some p → force i p s = Some s' → forcers s' !! i ≠ Some p → lazy_quiet s s'.

Definition lazy_todo (p : LazyPc) : nat :=
  match p with
  | LIdle => 0 | LRet _ => 1 | LDone => 2 | LStore => 3 | LSpin => 3 | LInit _ => 4 | LTake => 5 | LCas => 6
  | LLoad => 7
  end.

Definition lazy_idle (s : LazySys) : Prop := ∀ i p, forcers s !! i = Some p → p = LIdle.

Lemma lazy_quiet_step s s' : lazy_quiet s s' → lazy_step s s'.
Proof. destruct 1. by eapply lazy_op. Qed.

Lemma force_todo s s' i p :
  forcers s !! i = Some p → force i p s = Some s' →
  ∃ p', forcers s' = <[i := p']> (forcers s) ∧ (p' = p ∨ lazy_todo p' < lazy_todo p)%nat.
Proof.
  intros Hi Hop. destruct p; cbn in Hop; try done; try (destruct (init s)); try (destruct (value s));
    simplify_eq/=; repeat case_decide; simplify_eq/=; (eexists; split; [reflexivity|]); cbn; auto with lia.
Qed.

Lemma lazy_quiet_work s s' :
  lazy_quiet s s' → (sum_list_with lazy_todo (forcers s') < sum_list_with lazy_todo (forcers s))%nat.
Proof.
  destruct 1 as [s s' i p Hi Hop Hne]. destruct (force_todo s s' i p Hi Hop) as (p' & E & Hp).
  rewrite E in *. rewrite list_lookup_insert_eq in Hne by (by eapply lookup_lt_Some).
  destruct Hp as [->|Hp]; [done|]. pose proof (sum_list_with_insert lazy_todo _ i p p' Hi). lia.
Qed.

(** A caller in a call can step, unless it spins while the closure runs. *)
Lemma lazy_quiet_at s o i p :
  simulates s o → forcers s !! i = Some p → p ≠ LIdle → (p = LSpin → lazy_state s = COMPLETE) →
  ∃ s', lazy_quiet s s'.
Proof.
  intros Hsim Hi Hp Hspin. pose proof Hsim as [H1 H2 H3 H4 H5 H6 H7].
  destruct (sim_pc s o i p Hsim Hi) as (q & Hq & Hm). pose proof (oi_pc o H1 i q Hq) as Hpc.
  assert (∃ s', force i p s = Some s' ∧ forcers s' !! i ≠ Some p) as (s' & Hop & Hne); [|by exists s'; econstructor].
  assert (∀ p' st c b k, p' ≠ p → forcers (mkLazy st c b k (<[i := p']> (forcers s))) !! i ≠ Some p) as Hnew.
  { intros p' st c b k Hne. cbn. rewrite list_lookup_insert_eq by (by eapply lookup_lt_Some). congruence. }
  destruct p; try done; cbn.
  - eexists. split; [reflexivity|]. apply Hnew. by case_decide.
  - case_decide; (eexists; split; [reflexivity|]); by apply Hnew.
  - rewrite H7 by (right; by eapply list_elem_of_lookup_2). eexists. split; [reflexivity|]. by apply Hnew.
  - eexists. split; [reflexivity|]. by apply Hnew.
  - eexists. split; [reflexivity|]. by apply Hnew.
  - eexists. split; [reflexivity|]. apply Hnew. by rewrite decide_True by auto.
  - destruct q; try done. destruct (proj2 (oi_cell o H1) Hpc) as [v Hv].
    rewrite H3, Hv. eexists. split; [reflexivity|]. by apply Hnew.
  - eexists. split; [reflexivity|]. by apply Hnew.
Qed.

Lemma lazy_quiet_live s o : simulates s o → lazy_idle s ∨ ∃ s', lazy_quiet s s'.
Proof.
  intros Hsim. pose proof Hsim as [H1 H2 H3 H4 H5 H6 H7].
  destruct (decide (sum_list_with lazy_todo (forcers s) = 0%nat)) as [Hz|Hz].
  - left. intros i p Hi. destruct p; try done; exfalso;
      (assert (0 < sum_list_with lazy_todo (forcers s))%nat; [apply sum_pos; eexists i, _; split; [done|cbn; lia]|lia]).
  - right. assert (0 < sum_list_with lazy_todo (forcers s))%nat as (i & p & Hi & Hp)%sum_pos by lia.
    destruct (decide (once_state o = RUNNING)) as [Er|Er].
    + pose proof (oi_run o H1) as Hrun. rewrite decide_True in Hrun by done.
      assert (0 < sum_list_with in_run (callers o))%nat as (j & q & Hj & Hq)%sum_pos by lia.
      destruct (Forall2_lookup_r _ _ _ _ _ H5 Hj) as (x & Hx & Hm).
      apply (lazy_quiet_at s o j x); try done; destruct x, q; cbn in *; done || lia.
    + apply (lazy_quiet_at s o i p); try done; [by intros ->; cbn in Hp; lia|]. intros ->.
      destruct (sim_pc s o i _ Hsim Hi) as (q & Hq & Hm). destruct q; try done.
      pose proof (oi_pc o H1 i _ Hq) as Hpc. cbn in Hpc. rewrite H2. destruct (oi_state o H1) as [?|[?|?]]; done.
Qed.

Lemma lazy_length n s : rtc lazy_step (lazy_new v0 n) s → length (forcers s) = n.
Proof.
  revert s. apply rtc_ind_r; [by cbn; rewrite length_replicate|]. intros x y _ Hxy <-.
  destruct Hxy as [s i Hi|s s' i p Hi Hop]; [cbn; by rewrite length_insert|].
  destruct (force_todo s s' i p Hi Hop) as (p' & -> & _). by rewrite length_insert.
Qed.

(** C12: lazy values. [LazyLock] refines the one-time initialisation: in every
    reachable state there is a reachable state of [OnceLock] callers with the same word, cell
    and count of closures run, the stored closure is there for
    the caller that takes it, a caller past [call_once] finds the cell full, and every [force] returns
    the value of the closure. When nobody calls again the callers all return, within seven steps each, not
    counting the turns of a spin loop that find the closure still running. *)
Theorem lazy_lock_correct n s (Hs : rtc lazy_step (lazy_new v0 n) s) :
  (∃ o, rtc once_step (once_init n) o ∧ lazy_state s = once_state o ∧ value s = cell o
        ∧ lazy_runs s = runs o)
  ∧ (lazy_runs s ≤ 1)%nat
  ∧ (LTake ∈ forcers s → init s = Some v0)
  ∧ (LDone ∈ forcers s → value s = Some v0)
  ∧ (∀ v, LRet v ∈ forcers s → v = v0)
  ∧ settles lazy_quiet lazy_idle (7 * n) s.
Proof.
  destruct (lazy_reachable n s Hs) as (o & Ho & Hsim). pose proof Hsim as [H1 H2 H3 H4 H5 H6 H7].
  split_and!.
  - by exists o.
  - rewrite H4, (oi_runs o H1). destruct (cell o); lia.
  - intros Hin. apply H7. by right.
  - intros [i Hi]%list_elem_of_lookup. destruct (sim_pc s o i _ Hsim Hi) as (q & Hq & Hm).
    destruct q; try done. destruct (proj2 (oi_cell o H1)) as [v Hv]; [exact (oi_pc o H1 i _ Hq)|].
    rewrite H3, Hv. f_equal. apply H6. by rewrite H3.
  - intros v [i Hi]%list_elem_of_lookup. destruct (sim_pc s o i _ Hsim Hi) as (q & Hq & Hm).
    destruct q; try done. cbn in Hm. subst. apply H6. rewrite H3. apply (oi_pc o H1 i _ Hq).
  - apply (settling _ (λ x, ∃ y, simulates x y) _ (λ x, sum_list_with lazy_todo (forcers x))).
    + intros x y [z Hz] Hxy. apply lazy_quiet_work in Hxy as Hw. apply lazy_quiet_step in Hxy.
      destruct (lazy_step_sim x y z Hxy Hz) as (z' & _ & Hz'). eauto.
    + intros x [z Hz]. by eapply lazy_quiet_live.
    + by exists o.
    + rewrite <-(lazy_length n s Hs). apply sum_le_mul. intros []; cbn; lia.
Qed.
End lazy.
Arguments LazyPc : clear implicits.
Arguments LazySys : clear implicits.

(** Two threads force a value; one has read it, the other spins. *)
Definition sample_lazy : LazySys Z := mkLazy COMPLETE (Some 7) None 1 [LRet 7; LSpin].

Lemma sample_lazy_reachable : rtc lazy_step (lazy_new 7 2) sample_lazy.
Proof.
  advance ltac:(by apply (lazy_call _ 0)).
  advance ltac:(by apply (lazy_call _ 1)).
  advance ltac:(by apply (lazy_op _ _ 0 LLoad)).
  advance ltac:(by apply (lazy_op _ _ 1 LLoad)).
  advance ltac:(by apply (lazy_op _ _ 0 LCas)).
  advance ltac:(by apply (lazy_op _ _ 1 LCas)).
  advance ltac:(by apply (lazy_op _ _ 0 LTake)).
  advance ltac:(by apply (lazy_op _ _ 0 (LInit 7))).
  advance ltac:(by apply (lazy_op _ _ 0 LStore)).
  advance ltac:(by apply (lazy_op _ _ 0 LDone)).
  apply rtc_refl.
Qed.

(** Witness of C12. *)
Lemma lazy_lock_correct_witness :
  (lazy_runs sample_lazy ≤ 1)%nat ∧ ∀ v, LRet v ∈ forcers sample_lazy → v = 7.
Proof.
  destruct (lazy_lock_correct 7 2 sample_lazy sample_lazy_reachable) as (_ & H1 & _ & _ & H2 & _).
  split; [exact H1|exact H2].
Defined.
