(* ===== verification/Condvar.v ===== *)
(** [Condvar] (src/src/sync.rs) under a [Mutex]: a monitor as a system of threads.

    A monitor has data protected by a [Mutex] and one condition variable.  An operation locks
    the mutex, changes the data and either finishes, with an optional
    [notify_one] or [notify_all] before the guard is dropped, or waits: the loop
    [while cond { guard = cv.wait(guard) }] of [wait_while], after which it changes the data
    again and finishes.  The data, the operations and the condition are parameters.

    The mutex is used through its contract (Lock.v): one owner, taken in one step
    when it is free; LockSpec.v carries the results over to the futex mutex.  Every other atomic operation and every futex call is a step of its own. *)
From S2P Require Import Prelude Lock.

Inductive Notified : Set := NoNotify | NotifyOne | NotifyAll.

#[export] Instance Notified_eq_dec : EqDecision Notified.
Proof. solve_decision. Defined.

Section monitor.
Context {Op D L R : Type}.

Inductive Outcome : Type :=
| Wait (l : L)
| Finish (r : R) (n : Notified).

(** An operation under the lock, the condition of its loop, and the end of a wait. *)
Context (enter : Op → D → D * Outcome) (cond : L → D → bool) (leave : L → D → D * (R * Notified)).

Inductive MonPc : Type :=
| Idle
| Lock (o : Op)           (* mutex.lock() *)
| Enter (o : Op)          (* the guard is held from here ... *)
| Test (l : L)            (* while cond *)
| Leave (l : L)           (* the condition was false *)
| CLoad (l : L)           (* Condvar::wait: load seq *)
| CUnlock (l : L) (q : Z) (* ... to here: Condvar::wait: raw_unlock *)
| CWait (l : L) (q : Z)   (* futex_wait(&seq, q): load and compare *)
| CSys (l : L) (q : Z)    (* futex_wait: the system call *)
| CAsleep (l : L) (q : Z)
| CRelock (l : L)         (* Condvar::wait: raw_lock *)
| Notify (r : R) (n : Notified)   (* notify: seq.fetch_add(1); the guard is held *)
| Wake (r : R) (n : Notified)     (* notify: futex_wake or futex_wake_all *)
| Unlock (r : R)          (* the guard is dropped *)
| Ret (r : R).

(** [notes] counts the notifications; the word [seq] of the condition variable is that
    number in 32 bits, and a [q] above is the number that was current when [seq] was read. *)
Record MonSys := mkMon { data : D; owner : option nat; notes : Z; pcs : list MonPc }.

Definition seq (s : MonSys) : Z := wrap 32 (notes s).

Definition with_pc (s : MonSys) (i : nat) (p : MonPc) : MonSys :=
  mkMon (data s) (owner s) (notes s) (<[i := p]> (pcs s)).
Definition with_owner (s : MonSys) (o : option nat) : MonSys :=
  mkMon (data s) o (notes s) (pcs s).
Definition with_data (s : MonSys) (d : D) : MonSys :=
  mkMon d (owner s) (notes s) (pcs s).

(** [Condvar::wait] *)
Definition cv_wait (i : nat) (p : MonPc) (s : MonSys) : option MonSys :=
  match p with
  | CLoad l => Some (with_pc s i (CUnlock l (notes s)))
  | CUnlock l q => Some (with_pc (with_owner s None) i (CWait l q))
  | CWait l q => Some (with_pc s i (if decide (seq s = wrap 32 q) then CSys l q else CRelock l))
  | CSys l q => Some (with_pc s i (if decide (seq s = wrap 32 q) then CAsleep l q else CWait l q))
  | CRelock l =>
      match owner s with
      | None => Some (with_pc (with_owner s (Some i)) i (Test l))
      | Some _ => None
      end
  | _ => None
  end.

(** [Condvar::wait_while], its closure being [cond l] *)
Definition wait_while (i : nat) (p : MonPc) (s : MonSys) : option MonSys :=
  match p with
  | Test l => Some (with_pc s i (if cond l (data s) then CLoad l else Leave l))
  | _ => cv_wait i p s
  end.

(** [futex_wake_all(&seq)] *)
Definition wake_all (ps : list MonPc) : list MonPc :=
  (λ p, match p with CAsleep l q => CWait l q | p => p end) <$> ps.

Definition bump (s : MonSys) : MonSys := mkMon (data s) (owner s) (notes s + 1) (pcs s).

(** [Condvar::notify_one] and [Condvar::notify_all], up to the wake of one sleeper *)
Definition notify (i : nat) (p : MonPc) (s : MonSys) : option MonSys :=
  match p with
  | Notify r n => Some (with_pc (bump s) i (Wake r n))
  | Wake r NotifyAll =>
      Some (with_pc (mkMon (data s) (owner s) (notes s) (wake_all (pcs s))) i (Unlock r))
  | _ => None
  end.

Definition finish (r : R) (n : Notified) : MonPc :=
  match n with NoNotify => Unlock r | _ => Notify r n end.

(** The rest of an operation. *)
Definition operate (i : nat) (p : MonPc) (s : MonSys) : option MonSys :=
  match p with
  | Lock o =>
      match owner s with
      | None => Some (with_pc (with_owner s (Some i)) i (Enter o))
      | Some _ => None
      end
  | Enter o =>
      let '(d, r) := enter o (data s) in
      Some (with_pc (with_data s d) i
              (match r with Wait l => Test l | Finish r n => finish r n end))
  | Leave l =>
      let '(d, (r, n)) := leave l (data s) in
      Some (with_pc (with_data s d) i (finish r n))
  | Unlock r => Some (with_pc (with_owner s None) i (Ret r))
  | Ret r => Some (with_pc s i Idle)
  | _ => None
  end.

Inductive mon_step : MonSys → MonSys → Prop :=
| ms_call s i o : pcs s !! i = Some Idle → mon_step s (with_pc s i (Lock o))
| ms_op s s' i p : pcs s !! i = Some p → operate i p s = Some s' → mon_step s s'
| ms_wait s s' i p : pcs s !! i = Some p → wait_while i p s = Some s' → mon_step s s'
| ms_notify s s' i p : pcs s !! i = Some p → notify i p s = Some s' → mon_step s s'
| ms_early s i p l q :
    pcs s !! i = Some p → p = CSys l q ∨ p = CAsleep l q → mon_step s (with_pc s i (CWait l q))
| ms_wake_one s i j r l q :
    pcs s !! i = Some (Wake r NotifyOne) → pcs s !! j = Some (CAsleep l q) →
    mon_step s (with_pc (with_pc s j (CWait l q)) i (Unlock r))
| ms_wake_none s i r :
    pcs s !! i = Some (Wake r NotifyOne) → (∀ l q, CAsleep l q ∉ pcs s) →
    mon_step s (with_pc s i (Unlock r)).

Definition mon_init (n : nat) (d : D) : MonSys := mkMon d None 0 (replicate n Idle).

(** ** The lock *)
(** A thread is between lock and unlock. *)
Definition holds (p : MonPc) : bool :=
  match p with
  | Enter _ | Test _ | Leave _ | CLoad _ | CUnlock _ _ | Notify _ _ | Wake _ _ | Unlock _ => true
  | _ => false
  end.

Definition mon_put (o : option nat) (s : MonSys) : MonSys := with_owner s o.
Definition mon_inside (s : MonSys) (i : nat) : bool := held_in holds (pcs s) i.

Notation mon_kind := (client_kind mon_step owner mon_put mon_inside).

Lemma wake_all_held ps j : held_in holds (wake_all ps) j = held_in holds ps j.
Proof. unfold held_in, wake_all. rewrite list_lookup_fmap. destruct (ps !! j) as [p|]; [|done]. by destruct p. Qed.

Lemma finish_held r n : holds (finish r n) = true.
Proof. by destruct n. Qed.

(** A silent step of thread [i]: the same step is possible whoever has the lock. *)
Lemma mon_silent s s' i p p' :
  pcs s !! i = Some p → pcs s' = <[i := p']> (pcs s) → holds p' = holds p → owner s' = owner s →
  (∀ o, mon_step (mon_put o s) (mon_put o s')) → mon_kind s s'.
Proof.
  intros Hi Hp Hh Ho Hs. apply kind_silent; [done..|]. intros j. unfold mon_inside. rewrite Hp.
  by apply held_insert_same with p.
Qed.

Lemma mon_operate_kind s s' i p : pcs s !! i = Some p → operate i p s = Some s' → mon_kind s s'.
Proof.
  intros Hi Hop. destruct p as [|o|o| |l| | | | | | | | |r|r]; try done; cbn in Hop.
  - destruct (owner s) eqn:Eo; [done|]. injection Hop as <-. apply (kind_acquire _ _ _ _ _ _ i); [done..| |].
    + by apply (held_insert holds _ i (Lock o)).
    + intros j Hj. by apply held_insert_ne.
  - destruct (enter o (data s)) as [d out] eqn:E. injection Hop as <-.
    eapply (mon_silent _ _ i (Enter o)); [done|reflexivity|by destruct out as [|? []]|done|].
    intros o'. eapply (ms_op _ _ i (Enter o)); [done|]. cbn. by rewrite E.
  - destruct (leave l (data s)) as [d [r n]] eqn:E. injection Hop as <-.
    eapply (mon_silent _ _ i (Leave l)); [done|reflexivity|apply finish_held|done|].
    intros o'. eapply (ms_op _ _ i (Leave l)); [done|]. cbn. by rewrite E.
  - injection Hop as <-. apply (kind_release _ _ _ _ _ _ i); [done|by apply (held_at holds _ i (Unlock r))| |].
    + by apply (held_insert holds _ i (Unlock r)).
    + intros j Hj. by apply held_insert_ne.
  - injection Hop as <-. eapply (mon_silent _ _ i (Ret r)); [done|reflexivity|done|done|].
    intros o'. by eapply (ms_op _ _ i (Ret r)).
Qed.

Lemma mon_wait_kind s s' i p : pcs s !! i = Some p → wait_while i p s = Some s' → mon_kind s s'.
Proof.
  intros Hi Hop. destruct p as [| | |l| |l|l q|l q|l q| |l| | | |]; try done; cbn in Hop.
  - injection Hop as <-. eapply (mon_silent _ _ i (Test l)); [done|reflexivity|by destruct (cond l (data s))|done|].
    intros o'. by eapply (ms_wait _ _ i (Test l)).
  - injection Hop as <-. eapply (mon_silent _ _ i (CLoad l)); [done|reflexivity|done|done|].
    intros o'. by eapply (ms_wait _ _ i (CLoad l)).
  - injection Hop as <-. apply (kind_release _ _ _ _ _ _ i); [done|by apply (held_at holds _ i (CUnlock l q))| |].
    + by apply (held_insert holds _ i (CUnlock l q)).
    + intros j Hj. by apply held_insert_ne.
  - injection Hop as <-. eapply (mon_silent _ _ i (CWait l q)); [done|reflexivity|by case_decide|done|].
    intros o'. by eapply (ms_wait _ _ i (CWait l q)).
  - injection Hop as <-. eapply (mon_silent _ _ i (CSys l q)); [done|reflexivity|by case_decide|done|].
    intros o'. by eapply (ms_wait _ _ i (CSys l q)).
  - destruct (owner s) eqn:Eo; [done|]. injection Hop as <-. apply (kind_acquire _ _ _ _ _ _ i); [done..| |].
    + by apply (held_insert holds _ i (CRelock l)).
    + intros j Hj. by apply held_insert_ne.
Qed.

Lemma mon_notify_kind s s' i p : pcs s !! i = Some p → notify i p s = Some s' → mon_kind s s'.
Proof.
  intros Hi Hop. destruct p as [| | | | | | | | | | |r n|r n| |]; try done; cbn in Hop.
  - injection Hop as <-. eapply (mon_silent _ _ i (Notify r n)); [done|reflexivity|done|done|].
    intros o'. by eapply (ms_notify _ _ i (Notify r n)).
  - destruct n; try done. injection Hop as <-. apply kind_silent; [done| |].
    + intros o'. by eapply (ms_notify _ _ i (Wake r NotifyAll)).
    + intros j. unfold mon_inside. cbn [pcs with_pc]. rewrite <-(wake_all_held (pcs s)).
      apply held_insert_same with (Wake r NotifyAll); [|done]. unfold wake_all. by rewrite list_lookup_fmap, Hi.
Qed.

#[export] Instance monitor_lock_client n d : LockClient mon_step owner mon_put mon_inside (mon_init n d).
Proof.
  split; [done|intros; by apply held_replicate|by intros []|done|done|done|].
  intros s s' Hs. destruct Hs as [s i o Hi|s s' i p Hi Hop|s s' i p Hi Hop|s s' i p Hi Hop|s i p l q Hi Hp
                               |s i j r l q Hi Hj|s i r Hi Hno].
  - eapply (mon_silent _ _ i Idle); [done|reflexivity|done|done|]. intros o'. by apply (ms_call (mon_put o' s)).
  - by eapply mon_operate_kind.
  - by eapply mon_wait_kind.
  - by eapply mon_notify_kind.
  - eapply (mon_silent _ _ i p); [done|reflexivity|by destruct Hp as [-> | ->]|done|].
    intros o'. by eapply (ms_early (mon_put o' s)).
  - apply kind_silent; [done|intros o'; by apply (ms_wake_one (mon_put o' s))|].
    intros k. unfold mon_inside. cbn [pcs with_pc].
    rewrite (held_insert_same _ _ i (Wake r NotifyOne)) by (done || by rewrite list_lookup_insert_ne by congruence).
    by apply held_insert_same with (CAsleep l q).
  - eapply (mon_silent _ _ i (Wake r NotifyOne)); [done|reflexivity|done|done|].
    intros o'. by apply (ms_wake_none (mon_put o' s)).
Qed.

(** ** Invariant *)
(** What a client says of its data: an invariant, what a waiting thread and what a finished one
    may rely on. *)
Context (Inv : D → Prop) (W : L → D → Prop) (Q : R → D → Prop).

(** A change of the data keeps all of it, and makes no thread's condition false unless
    everybody is notified. *)
Record change_ok (d d' : D) (n : Notified) : Prop := {
  co_inv : Inv d';
  co_wait : ∀ l, W l d → W l d';
  co_done : ∀ r, Q r d → Q r d';
  co_cond : n ≠ NotifyAll → ∀ l, W l d → cond l d = true → cond l d' = true;
}.

Context (Henter : ∀ o d d' out, Inv d → enter o d = (d', out) →
  match out with
  | Wait l => change_ok d d' NoNotify ∧ W l d'
  | Finish r n => change_ok d d' n ∧ Q r d'
  end).
Context (Hleave : ∀ l d d' r n, Inv d → W l d → cond l d = false → leave l d = (d', (r, n)) →
  change_ok d d' n ∧ Q r d').

(** The condition still holds, or somebody is about to notify everybody ... *)
Definition awaited (s : MonSys) (l : L) : Prop :=
  cond l (data s) = true ∨ ∃ j r, pcs s !! j = Some (Notify r NotifyAll).

(** ... or to wake everybody. *)
Definition waking (s : MonSys) : Prop := ∃ j r, pcs s !! j = Some (Wake r NotifyAll).

Definition says (s : MonSys) (p : MonPc) : Prop :=
  match p with
  | Test l | CRelock l => W l (data s)
  | Leave l => W l (data s) ∧ cond l (data s) = false
  | CLoad l => W l (data s) ∧ cond l (data s) = true
  | CUnlock l q | CWait l q | CSys l q =>
      W l (data s) ∧ 0 ≤ q ≤ notes s ∧ (q = notes s → awaited s l)
  | CAsleep l q =>
      W l (data s) ∧ 0 ≤ q ≤ notes s ∧ (q = notes s → awaited s l)
      ∧ (notes s < 2 ^ 32 → awaited s l ∨ waking s)
  | Notify r _ | Wake r _ | Unlock r | Ret r => Q r (data s)
  | Idle | Lock _ | Enter _ => True
  end.

Record mon_inv (s : MonSys) : Prop := {
  mi_data : Inv (data s);
  mi_notes : 0 ≤ notes s;
  mi_owner : ∀ i, owner s = Some i ↔ ∃ p, pcs s !! i = Some p ∧ holds p = true;
  mi_says : ∀ i p, pcs s !! i = Some p → says s p;
}.

Lemma holder s i p :
  mon_inv s → pcs s !! i = Some p → holds p = true → owner s = Some i.
Proof. intros Hinv Hi Hp. apply (mi_owner s Hinv). eauto. Qed.

Lemma holder_unique s i j p q :
  mon_inv s → pcs s !! i = Some p → pcs s !! j = Some q →
  holds p = true → holds q = true → i = j.
Proof.
  intros Hinv Hi Hj Hp Hq. pose proof (holder s i p Hinv Hi Hp).
  pose proof (holder s j q Hinv Hj Hq). congruence.
Qed.

(** What another thread knows survives a step. *)
Lemma says_other s s' i j p q :
  mon_inv s → pcs s !! i = Some p → pcs s !! j = Some q → j ≠ i →
  notes s ≤ notes s' →
  (∀ l, W l (data s) → W l (data s')) → (∀ r, Q r (data s) → Q r (data s')) →
  data s' = data s ∨ holds p = true →
  (∀ l, W l (data s) → awaited s l → notes s' = notes s → awaited s' l) →
  (∀ l, W l (data s) → awaited s l ∨ waking s → awaited s' l ∨ waking s') →
  says s' q.
Proof.
  intros Hinv Hi Hj Hne Hn HW HQ Hd Ha Hw. pose proof (mi_says s Hinv j q Hj) as Hs.
  assert (holds q = true → data s' = data s) as Hhold.
  { intros Hq. destruct Hd as [?|Hp]; [done|]. destruct Hne. by eapply holder_unique. }
  destruct q; cbn in *; try done; try (by auto).
  - destruct Hs. rewrite Hhold by done. auto.
  - destruct Hs. rewrite Hhold by done. auto.
  - destruct Hs as (? & ? & Hq). split_and!; [auto|lia..|]. intros ->. apply Ha; [done| |lia].
    apply Hq. lia.
  - destruct Hs as (? & ? & Hq). split_and!; [auto|lia..|]. intros ->. apply Ha; [done| |lia].
    apply Hq. lia.
  - destruct Hs as (? & ? & Hq). split_and!; [auto|lia..|]. intros ->. apply Ha; [done| |lia].
    apply Hq. lia.
  - destruct Hs as (? & ? & Hq & Hr). split_and!; [auto|lia..| |].
    + intros ->. apply Ha; [done| |lia]. apply Hq. lia.
    + intros Hlt. apply (Hw l); [done|]. apply Hr. lia.
Qed.

Lemma owner_step s i p p' o :
  mon_inv s → pcs s !! i = Some p →
  (o = owner s ∧ holds p' = holds p
   ∨ owner s = None ∧ o = Some i ∧ holds p' = true
   ∨ o = None ∧ holds p = true ∧ holds p' = false) →
  ∀ j, o = Some j ↔ ∃ q, <[i := p']> (pcs s) !! j = Some q ∧ holds q = true.
Proof. intros Hinv Hi. apply owner_update; [apply Hinv|done]. Qed.

(** A thread takes a step that keeps what the others know. *)
Lemma mon_move s i p p' d' o' n' :
  let s' := mkMon d' o' n' (<[i := p']> (pcs s)) in
  mon_inv s → pcs s !! i = Some p → Inv d' → notes s ≤ n' →
  (o' = owner s ∧ holds p' = holds p
   ∨ owner s = None ∧ o' = Some i ∧ holds p' = true
   ∨ o' = None ∧ holds p = true ∧ holds p' = false) →
  (∀ l, W l (data s) → W l d') → (∀ r, Q r (data s) → Q r d') →
  d' = data s ∨ holds p = true →
  (∀ l, W l (data s) → awaited s l → n' = notes s → awaited s' l) →
  (∀ l, W l (data s) → awaited s l ∨ waking s → awaited s' l ∨ waking s') →
  says s' p' → mon_inv s'.
Proof.
  intros s' Hinv Hi Hd Hn Ho HW HQ Hdata Ha Hw Hp. pose proof (mi_notes s Hinv).
  constructor; [done|cbn; lia|by apply (owner_step s i p)|].
  intros j q [[-> ->]|[Hne Hj]]%(lookup_upd _ i p); [done| |done].
  by apply (says_other s s' i j p).
Qed.

(** The moves that leave the data and the count of notifications alone. *)
Definition quiet (p : MonPc) : Prop :=
  match p with Notify _ NotifyAll | Wake _ NotifyAll => False | _ => True end.

Lemma awaited_quiet s i p p' o l :
  pcs s !! i = Some p → quiet p → awaited s l →
  awaited (mkMon (data s) o (notes s) (<[i := p']> (pcs s))) l.
Proof.
  intros Hi Hq [Hc|(j & r & Hj)]; [by left|right]. exists j, r. cbn.
  rewrite list_lookup_insert_ne; [done|]. intros <-. by simplify_eq.
Qed.

Lemma waking_quiet s i p p' o :
  pcs s !! i = Some p → quiet p → waking s →
  waking (mkMon (data s) o (notes s) (<[i := p']> (pcs s))).
Proof.
  intros Hi Hq (j & r & Hj). exists j, r. cbn.
  rewrite list_lookup_insert_ne; [done|]. intros <-. by simplify_eq.
Qed.

Lemma quiet_move s i p p' o' :
  let s' := mkMon (data s) o' (notes s) (<[i := p']> (pcs s)) in
  mon_inv s → pcs s !! i = Some p → quiet p →
  (o' = owner s ∧ holds p' = holds p
   ∨ owner s = None ∧ o' = Some i ∧ holds p' = true
   ∨ o' = None ∧ holds p = true ∧ holds p' = false) →
  says s' p' → mon_inv s'.
Proof.
  intros s' Hinv Hi Hq Ho Hp. pose proof (mi_data s Hinv).
  apply (mon_move s i p); [done..|lia|done| | |by left| | |done].
  - done.
  - done.
  - intros l _ Ha _. by eapply awaited_quiet.
  - intros l _ [Ha|Hw]; [left; by eapply awaited_quiet|right; by eapply waking_quiet].
Qed.

(** The data changes under the lock. *)
Lemma change_move s i p p' d' n :
  let s' := mkMon d' (owner s) (notes s) (<[i := p']> (pcs s)) in
  mon_inv s → pcs s !! i = Some p → quiet p → holds p = true → holds p' = true →
  change_ok (data s) d' n → (n = NotifyAll → ∃ r, p' = Notify r NotifyAll) →
  says s' p' → mon_inv s'.
Proof.
  intros s' Hinv Hi Hq Hh Hh' [Hd HW HQ Hc] Hn Hp.
  assert (∀ l, W l (data s) → awaited s l → awaited s' l) as Ha.
  { intros l Hl [Hl'|Hl'].
    - destruct (decide (n = NotifyAll)) as [E|E]; [|left; by apply Hc].
      destruct (Hn E) as [r ->]. right. exists i, r. apply list_lookup_insert_eq.
      by eapply lookup_lt_Some.
    - right. destruct Hl' as (j & r & Hj). exists j, r. cbn.
      rewrite list_lookup_insert_ne; [done|]. intros <-. by simplify_eq. }
  apply (mon_move s i p); try done; [left; by rewrite Hh|by right|auto|].
  intros l Hl [?|Hw]; [left; by apply Ha|right]. destruct Hw as (j & r & Hj). exists j, r. cbn.
  rewrite list_lookup_insert_ne; [done|]. intros <-. by simplify_eq.
Qed.

Lemma finish_move s i p d' r n :
  mon_inv s → pcs s !! i = Some p → quiet p → holds p = true →
  change_ok (data s) d' n → Q r d' →
  mon_inv (with_pc (with_data s d') i (finish r n)).
Proof.
  intros Hinv Hi Hq Hh Hc Hr. apply (change_move s i p _ d' n); try done.
  - by destruct n.
  - intros ->. by exists r.
  - by destruct n.
Qed.

Lemma operate_inv s s' i p :
  mon_inv s → pcs s !! i = Some p → operate i p s = Some s' → mon_inv s'.
Proof.
  intros Hinv Hi Hop. pose proof (mi_says s Hinv i p Hi) as Hs. pose proof (mi_data s Hinv) as Hd.
  destruct p; try done; cbn in Hop, Hs.
  - destruct (owner s) eqn:Eo; simplify_eq. apply (quiet_move s i (Lock o)); try done; auto.
  - destruct (enter o (data s)) as [d' out] eqn:E. pose proof (Henter o _ _ _ Hd E) as Hout.
    destruct out as [l|r n]; simplify_eq; destruct Hout as [Hc Hl].
    + by apply (change_move s i (Enter o) _ d' NoNotify).
    + by apply (finish_move s i (Enter o)).
  - destruct (leave l (data s)) as [d' [r n]] eqn:E. destruct Hs as [Hl Hf]. simplify_eq.
    destruct (Hleave l _ _ _ _ Hd Hl Hf E). by apply (finish_move s i (Leave l)).
  - simplify_eq. apply (quiet_move s i (Unlock r)); try done; auto.
  - simplify_eq. apply (quiet_move s i (Ret r)); try done; auto.
Qed.

Lemma wait_while_inv s s' i p :
  mon_inv s → pcs s !! i = Some p → wait_while i p s = Some s' → mon_inv s'.
Proof.
  intros Hinv Hi Hop. pose proof (mi_says s Hinv i p Hi) as Hs. pose proof (mi_notes s Hinv) as Hn.
  assert (∀ o p' l, quiet p → awaited s l →
            awaited (mkMon (data s) o (notes s) (<[i := p']> (pcs s))) l) as Ha
    by (intros; by eapply awaited_quiet).
  destruct p; try done; cbn in Hop, Hs.
  - destruct (cond l (data s)) eqn:E; simplify_eq; by apply (quiet_move s i (Test l)); [..|left|].
  - simplify_eq. apply (quiet_move s i (CLoad l)); try done; auto. destruct Hs as [? ?].
    split_and!; [done|lia|cbn; lia|]. intros _. by left.
  - simplify_eq. apply (quiet_move s i (CUnlock l q)); try done; auto. destruct Hs as (? & ? & Hq).
    split_and!; [done|lia|cbn; lia|]. intros E. by apply Ha, Hq.
  - simplify_eq. destruct Hs as (? & ? & Hq).
    destruct (decide _); apply (quiet_move s i (CWait l q)); try done; auto.
    split_and!; [done|lia|cbn; lia|]. intros E. by apply Ha, Hq.
  - simplify_eq. destruct Hs as (? & ? & Hq).
    destruct (decide (seq s = wrap 32 q)) as [E|]; apply (quiet_move s i (CSys l q)); try done; auto.
    + split_and!; [done|lia|cbn; lia| |].
      * intros E'. by apply Ha, Hq.
      * intros Hlt. left. apply Ha, Hq; [done|]. unfold seq, wrap in E. cbn in Hlt.
        rewrite !Z.mod_small in E by lia. done.
    + split_and!; [done|lia|cbn; lia|]. intros E'. by apply Ha, Hq.
  - destruct (owner s) eqn:Eo; simplify_eq. apply (quiet_move s i (CRelock l)); try done; auto.
Qed.

Lemma early_inv s i p l q :
  mon_inv s → pcs s !! i = Some p → p = CSys l q ∨ p = CAsleep l q →
  mon_inv (with_pc s i (CWait l q)).
Proof.
  intros Hinv Hi Hp. pose proof (mi_says s Hinv i p Hi) as Hs.
  assert (quiet p ∧ holds p = false) as [Hq Hh] by (by destruct Hp as [->| ->]).
  apply (quiet_move s i p); [done..|by left|].
  assert (W l (data s) ∧ 0 ≤ q ≤ notes s ∧ (q = notes s → awaited s l)) as (? & ? & Hw)
    by (destruct Hp as [->| ->]; cbn in Hs; tauto).
  split_and!; [done|lia|cbn; lia|]. intros E. by eapply awaited_quiet; [..|apply Hw].
Qed.

(** The sequence number is bumped: nobody has read the new one. *)
Lemma mon_bump_inv s i r n :
  mon_inv s → pcs s !! i = Some (Notify r n) → mon_inv (with_pc (bump s) i (Wake r n)).
Proof.
  intros Hinv Hi. pose proof (mi_says s Hinv i _ Hi) as Hs. pose proof (mi_data s Hinv).
  pose proof (holder_unique s i) as Hu.
  apply (mon_move s i (Notify r n)); cbn; try done; [lia|by left|by left|intros; lia|].
  intros l _ Hw.
  destruct (decide (n = NotifyAll)) as [->|Hne].
  { right. exists i, r. apply list_lookup_insert_eq. by eapply lookup_lt_Some. }
  left. left. destruct Hw as [[Hc|(j & r' & Hj)]|(j & r' & Hj)]; [done|exfalso..].
  - assert (i = j) as <- by (by eapply Hu). simplify_eq.
  - assert (i = j) as <- by (by eapply Hu). simplify_eq.
Qed.

Lemma wake_all_lookup (ps : list MonPc) j p :
  wake_all ps !! j = Some p →
  ps !! j = Some p ∧ (∀ l q, p ≠ CAsleep l q)
  ∨ ∃ l q, ps !! j = Some (CAsleep l q) ∧ p = CWait l q.
Proof.
  unfold wake_all. rewrite list_lookup_fmap. intros H.
  destruct (ps !! j) as [p0|]; [|done]. cbn in H. destruct p0; naive_solver.
Qed.

Lemma wake_all_holder (ps : list MonPc) j :
  (∃ p, wake_all ps !! j = Some p ∧ holds p = true) ↔ ∃ p, ps !! j = Some p ∧ holds p = true.
Proof.
  unfold wake_all. rewrite list_lookup_fmap. destruct (ps !! j) as [p|]; cbn; [|naive_solver].
  destruct p; naive_solver.
Qed.

Lemma awaited_wake_all s l :
  awaited s l → awaited (mkMon (data s) (owner s) (notes s) (wake_all (pcs s))) l.
Proof.
  intros [?|(j & r & Hj)]; [by left|right]. exists j, r. cbn. unfold wake_all.
  by rewrite list_lookup_fmap, Hj.
Qed.

Lemma waking_wake_all s :
  waking s → waking (mkMon (data s) (owner s) (notes s) (wake_all (pcs s))).
Proof. intros (j & r & Hj). exists j, r. cbn. unfold wake_all. by rewrite list_lookup_fmap, Hj. Qed.

(** Waking every sleeper only moves sleepers to their next look at the sequence number. *)
Lemma wake_all_inv s :
  mon_inv s → mon_inv (mkMon (data s) (owner s) (notes s) (wake_all (pcs s))).
Proof.
  intros [H1 H2 H3 H4]. constructor; [done|done| |].
  - intros i. cbn. by rewrite wake_all_holder.
  - intros i p [[Hi Hp]|(l & q & Hi & ->)]%wake_all_lookup; specialize (H4 i _ Hi).
    + destruct p; cbn in *; try done; try (by destruct (Hp l q));
        destruct H4 as (? & ? & Hq); split_and!; try done; try lia;
        intros E; by apply awaited_wake_all, Hq.
    + cbn in *. destruct H4 as (? & ? & Hq & _). split_and!; [done|lia|lia|].
      intros E. by apply awaited_wake_all, Hq.
Qed.

Lemma wake_done_inv s i r :
  mon_inv s → pcs s !! i = Some (Wake r NotifyAll) → (∀ j l q, pcs s !! j ≠ Some (CAsleep l q)) →
  mon_inv (with_pc s i (Unlock r)).
Proof.
  intros Hinv Hi Hno. pose proof (mi_says s Hinv i _ Hi) as Hs. pose proof Hinv as [H1 H2 H3 H4].
  constructor; [done|done| |].
  - by apply (owner_step s i (Wake r NotifyAll)); [..|left].
  - intros j p [[-> ->]|[Hne Hj]]%(lookup_upd _ i (Wake r NotifyAll)); [done| |done].
    specialize (H4 j p Hj).
    assert (∀ l, awaited s l → awaited (with_pc s i (Unlock r)) l) as Ha.
    { intros l [?|(k & r' & Hk)]; [by left|right]. exists k, r'. cbn.
      rewrite list_lookup_insert_ne; [done|]. intros <-. by simplify_eq. }
    destruct p; cbn in *; try done; try (by destruct (Hno j l q));
      destruct H4 as (? & ? & Hq); split_and!; try done; try lia; auto.
Qed.

Lemma notify_inv s s' i p :
  mon_inv s → pcs s !! i = Some p → notify i p s = Some s' → mon_inv s'.
Proof.
  intros Hinv Hi Hop. destruct p as [| | | | | | | | | | |r n|r n| |]; try done; cbn in Hop.
  - simplify_eq. by apply mon_bump_inv.
  - destruct n; try done. simplify_eq.
    apply (wake_done_inv (mkMon (data s) (owner s) (notes s) (wake_all (pcs s)))).
    + by apply wake_all_inv.
    + cbn. unfold wake_all. by rewrite list_lookup_fmap, Hi.
    + cbn. intros j l q [[_ Hp]|(? & ? & _ & ?)]%wake_all_lookup; [by destruct (Hp l q)|done].
Qed.

Lemma mon_step_inv s s' : mon_step s s' → mon_inv s → mon_inv s'.
Proof.
  intros Hstep Hinv.
  destruct Hstep as [s i o Hi|s s' i p Hi Hop|s s' i p Hi Hop|s s' i p Hi Hop|s i p l q Hi Hp
                    |s i j r l q Hi Hj|s i r Hi Hno].
  - apply (quiet_move s i Idle); try done. by left.
  - by eapply operate_inv.
  - by eapply wait_while_inv.
  - by eapply notify_inv.
  - by eapply early_inv.
  - assert (i ≠ j) by congruence.
    assert (mon_inv (with_pc s j (CWait l q))) as Hinv1 by (eapply early_inv; eauto).
    assert (pcs (with_pc s j (CWait l q)) !! i = Some (Wake r NotifyOne)) as Hi1
      by (cbn; by rewrite list_lookup_insert_ne).
    pose proof (mi_says _ Hinv1 i _ Hi1).
    apply (quiet_move (with_pc s j (CWait l q)) i (Wake r NotifyOne)); try done. by left.
  - pose proof (mi_says _ Hinv i _ Hi).
    apply (quiet_move s i (Wake r NotifyOne)); try done. by left.
Qed.

Lemma mon_reachable n d s : Inv d → rtc mon_step (mon_init n d) s → mon_inv s.
Proof.
  intros Hd. assert (∀ s0, rtc mon_step s0 s → mon_inv s0 → mon_inv s) as Hall.
  { intros s0. induction 1; eauto using mon_step_inv. }
  intros Hs. apply (Hall _ Hs). constructor; cbn; [done..| |].
  - intros i. split; [done|]. intros (p & [-> _]%lookup_replicate & ?). done.
  - intros i p [-> _]%lookup_replicate. done.
Qed.

Lemma asleep_awaited s i l q :
  mon_inv s → pcs s !! i = Some (CAsleep l q) → cond l (data s) = false → notes s < 2 ^ 32 →
  ∃ j r, pcs s !! j = Some (Notify r NotifyAll) ∨ pcs s !! j = Some (Wake r NotifyAll).
Proof.
  intros Hinv Hi Hc Hn. destruct (mi_says s Hinv i _ Hi) as (_ & _ & _ & Hw).
  destruct (Hw Hn) as [[?|(j & r & Hj)]|(j & r & Hj)]; [congruence|eauto..].
Qed.

(** ** Progress *)
(** The steps of calls already made, when the kernel never returns early. *)
Inductive mon_quiet : MonSys → MonSys → Prop :=
| mq_op s s' i p : pcs s !! i = Some p → operate i p s = Some s' → mon_quiet s s'
| mq_wait s s' i p : pcs s !! i = Some p → wait_while i p s = Some s' → mon_quiet s s'
| mq_notify s s' i p : pcs s !! i = Some p → notify i p s = Some s' → mon_quiet s s'
| mq_wake_one s i j r l q :
    pcs s !! i = Some (Wake r NotifyOne) → pcs s !! j = Some (CAsleep l q) →
    mon_quiet s (with_pc (with_pc s j (CWait l q)) i (Unlock r))
| mq_wake_none s i r :
    pcs s !! i = Some (Wake r NotifyOne) → (∀ l q, CAsleep l q ∉ pcs s) →
    mon_quiet s (with_pc s i (Unlock r)).

Lemma mon_quiet_step s s' : mon_quiet s s' → mon_step s s'.
Proof. destruct 1; [by eapply ms_op|by eapply ms_wait|by eapply ms_notify|by eapply ms_wake_one|by eapply ms_wake_none]. Qed.

(** What a call has left to do. *)
Definition mon_todo (p : MonPc) : nat :=
  match p with
  | Idle => 0 | Ret _ => 1 | Unlock _ => 2 | Wake _ _ => 3 | Notify _ _ => 4 | Leave _ => 5 | Enter _ => 7 | Lock _ => 8
  | _ => 6
  end.

(** How far a waiting thread is from sleeping, as long as nobody notifies; one whose number is old
    first tests its condition again. *)
Definition mon_rank (k : Z) (p : MonPc) : nat :=
  let fresh q (a b : nat) := if decide (wrap 32 k = wrap 32 q) then a else b in
  match p with
  | CUnlock _ q => fresh q 5%nat 11%nat
  | CWait _ q => fresh q 4%nat 9%nat
  | CSys _ q => fresh q 3%nat 10%nat
  | CRelock _ => 8
  | Test _ => 7
  | CLoad _ => 6
  | _ => 0
  end.

Definition mon_work (s : MonSys) : nat :=
  sum_list_with mon_todo (pcs s) * (11 * length (pcs s) + 1) + sum_list_with (mon_rank (notes s)) (pcs s).

Lemma mon_rank_bound k p : (mon_rank k p ≤ 11)%nat.
Proof. destruct p; cbn; repeat case_decide; lia. Qed.

Lemma mon_work_bound s : (mon_work s ≤ 8 * length (pcs s) * (11 * length (pcs s) + 1) + 11 * length (pcs s))%nat.
Proof.
  pose proof (sum_le_mul _ 11 (pcs s) (mon_rank_bound (notes s))). unfold mon_work.
  pose proof (sum_le_mul mon_todo 8 (pcs s)) as Ht.
  assert (sum_list_with mon_todo (pcs s) ≤ 8 * length (pcs s))%nat by (apply Ht; intros []; cbn; lia).
  nia.
Qed.

Lemma mon_work_lt s s' :
  length (pcs s') = length (pcs s) →
  (sum_list_with mon_todo (pcs s') < sum_list_with mon_todo (pcs s)
   ∨ sum_list_with mon_todo (pcs s') = sum_list_with mon_todo (pcs s)
     ∧ notes s' = notes s
     ∧ sum_list_with (mon_rank (notes s)) (pcs s') < sum_list_with (mon_rank (notes s)) (pcs s))%nat →
  (mon_work s' < mon_work s)%nat.
Proof.
  intros Hl Hd. unfold mon_work. rewrite Hl. apply lex_lt.
  - pose proof (sum_le_mul _ 11 (pcs s') (mon_rank_bound (notes s'))). lia.
  - destruct Hd as [?|(-> & -> & ?)]; auto.
Qed.

(** One thread moves to [p'] on other data or another owner. *)
Lemma move_work s i p p' d o :
  pcs s !! i = Some p →
  (mon_todo p' < mon_todo p ∨ mon_todo p' = mon_todo p ∧ mon_rank (notes s) p' < mon_rank (notes s) p)%nat →
  (mon_work (mkMon d o (notes s) (<[i := p']> (pcs s))) < mon_work s)%nat.
Proof.
  intros Hi Hp. apply mon_work_lt; cbn [pcs notes]; [by rewrite length_insert|].
  pose proof (sum_list_with_insert mon_todo _ i p p' Hi).
  pose proof (sum_list_with_insert (mon_rank (notes s)) _ i p p' Hi). lia.
Qed.

Lemma todo_wake_all ps : sum_list_with mon_todo (wake_all ps) = sum_list_with mon_todo ps.
Proof. unfold wake_all. induction ps as [|[] ps IH]; cbn in *; by rewrite ?IH. Qed.

Lemma notify_work s s' i p :
  pcs s !! i = Some p → notify i p s = Some s' → (mon_work s' < mon_work s)%nat.
Proof.
  intros Hi Hop. destruct p as [| | | | | | | | | | |r n|r n| |]; try done; cbn in Hop.
  - simplify_eq. apply mon_work_lt; cbn [pcs notes with_pc bump]; [by rewrite length_insert|left].
    pose proof (sum_list_with_insert mon_todo _ i _ (Wake r n) Hi) as Hw. cbn in Hw. lia.
  - destruct n; simplify_eq. apply mon_work_lt; cbn [pcs notes with_pc].
    { unfold wake_all. by rewrite length_insert, length_fmap. }
    left. pose proof (sum_list_with_insert mon_todo (wake_all (pcs s)) i (Wake r NotifyAll) (Unlock r)) as Hw.
    unfold wake_all in Hw at 1. rewrite list_lookup_fmap, Hi in Hw. specialize (Hw eq_refl).
    rewrite todo_wake_all in Hw. cbn in Hw. lia.
Qed.

Lemma mon_quiet_work s s' : mon_quiet s s' → (mon_work s' < mon_work s)%nat.
Proof.
  destruct 1 as [s s' i p Hi Hop|s s' i p Hi Hop|s s' i p Hi Hop|s i j r l q Hi Hj|s i r Hi _].
  - destruct p; try done; cbn in Hop; repeat case_match; simplify_eq;
      cbv [with_pc with_owner with_data]; cbn [data owner notes pcs];
      (eapply move_work; [done|]); left; cbn; try lia; unfold finish; repeat case_match; cbn; lia.
  - destruct p; try done; cbn in Hop; repeat case_match; simplify_eq;
      cbv [with_pc with_owner with_data]; cbn [data owner notes pcs]; (eapply move_work; [done|]); cbn;
      repeat case_decide; try (left; lia); try (right; split; [done|]; lia); unfold seq in *; done.
  - by eapply notify_work.
  - assert (i ≠ j) by congruence. apply mon_work_lt; cbn [pcs notes with_pc]; [by rewrite !length_insert|left].
    pose proof (sum_list_with_insert mon_todo _ j _ (CWait l q) Hj) as Hw.
    pose proof (sum_list_with_insert mon_todo (<[j:=CWait l q]> (pcs s)) i (Wake r NotifyOne) (Unlock r)) as Hw'.
    rewrite list_lookup_insert_ne in Hw' by done. specialize (Hw' Hi). cbn in *. lia.
  - eapply move_work; [done|]. left. cbn. lia.
Qed.
(** Only [notify_one] and [notify_all] notify. *)
Definition real_pc (p : MonPc) : Prop := match p with Notify _ n | Wake _ n => n ≠ NoNotify | _ => True end.
Definition real (s : MonSys) : Prop := Forall real_pc (pcs s).

Lemma real_finish r n : real_pc (finish r n).
Proof. by destruct n. Qed.

Lemma real_wake_all ps : Forall real_pc ps → Forall real_pc (wake_all ps).
Proof. intros Hr. apply Forall_fmap. eapply Forall_impl; [exact Hr|]. by intros []. Qed.

Lemma mon_step_real s s' : mon_step s s' → real s → real s'.
Proof.
  intros Hs Hr. pose proof real_finish as Hf.
  destruct Hs as [s i o Hi|s s' i p Hi Hop|s s' i p Hi Hop|s s' i p Hi Hop|s i p l q Hi Hp
                 |s i j r l q Hi Hj|s i r Hi Hno]; unfold real in *; cbn [pcs with_pc].
  - by apply Forall_insert.
  - destruct p; try done; cbn in Hop; repeat case_match; simplify_eq; cbn; by apply Forall_insert.
  - destruct p; try done; cbn in Hop; repeat case_match; simplify_eq; cbn; by apply Forall_insert.
  - pose proof (Forall_lookup_1 _ _ _ _ Hr Hi) as Hp. destruct p; try done; cbn in Hop; repeat case_match; simplify_eq;
      cbn; apply Forall_insert; try done. by apply real_wake_all.
  - by apply Forall_insert.
  - by repeat apply Forall_insert.
  - by apply Forall_insert.
Qed.

(** At rest a thread is outside, or asleep while its condition holds. *)
Definition at_rest (s : MonSys) : Prop :=
  ∀ i p, pcs s !! i = Some p →
    p = Idle ∨ ∃ l q, p = CAsleep l q ∧ (notes s < 2 ^ 32 → cond l (data s) = true).

Definition resting_pc (p : MonPc) : bool := match p with Idle | CAsleep _ _ => true | _ => false end.

(** The owner of the lock can step ... *)
Lemma holder_quiet s i p :
  real s → pcs s !! i = Some p → holds p = true → ∃ s', mon_quiet s s'.
Proof.
  intros Hr Hi Hp. pose proof (Forall_lookup_1 _ _ _ _ Hr Hi) as Hreal. destruct p; try done; cbn in Hreal.
  - destruct (enter o (data s)) as [d out] eqn:E. eexists. eapply mq_op; [done|]. cbn. by rewrite E.
  - eexists. eapply mq_wait; [done|]. reflexivity.
  - destruct (leave l (data s)) as [d [r n]] eqn:E. eexists. eapply mq_op; [done|]. cbn. by rewrite E.
  - eexists. eapply mq_wait; [done|]. reflexivity.
  - eexists. eapply mq_wait; [done|]. reflexivity.
  - eexists. eapply mq_notify; [done|]. reflexivity.
  - destruct n; [done| |eexists; eapply mq_notify; [done|]; reflexivity].
    destruct (decide (Exists (λ p, mon_todo p = 6%nat ∧ resting_pc p = true) (pcs s))) as [He|Hno].
    + apply Exists_exists in He as (p & [j Hj]%list_elem_of_lookup_1 & Ht & Hp').
      destruct p; try done. eexists. by eapply mq_wake_one.
    + eexists. apply mq_wake_none; [done|]. intros l q Hin. apply Hno, Exists_exists. by exists (CAsleep l q).
  - eexists. eapply mq_op; [done|]. reflexivity.
Qed.

(** ... and so can any other thread that is in a call and not asleep, or the lock has an owner. *)
Lemma awake_quiet s i p :
  mon_inv s → real s → pcs s !! i = Some p → resting_pc p = false → ∃ s', mon_quiet s s'.
Proof.
  intros Hinv Hr Hi Hp. destruct (owner s) as [j|] eqn:Ho.
  { apply (mi_owner s Hinv) in Ho as (q & Hj & Hq). by eapply holder_quiet. }
  destruct (holds p) eqn:Hh; [by eapply holder_quiet|]. destruct p; try done.
  - eexists. eapply mq_op; [done|]. cbn. by rewrite Ho.
  - eexists. eapply mq_wait; [done|]. reflexivity.
  - eexists. eapply mq_wait; [done|]. reflexivity.
  - eexists. eapply mq_wait; [done|]. cbn. by rewrite Ho.
  - eexists. eapply mq_op; [done|]. reflexivity.
Qed.

Lemma mon_quiet_live s : mon_inv s → real s → at_rest s ∨ ∃ s', mon_quiet s s'.
Proof.
  intros Hinv Hr. destruct (decide (Forall (λ p, resting_pc p = true) (pcs s))) as [Hall|Hno].
  - left. intros i p Hi. pose proof (Forall_lookup_1 _ _ _ _ Hall Hi) as Hp.
    destruct p as [| | | | | | | | |l q| | | | |]; try done; [by left|right]. exists l, q. split; [done|].
    intros Hn. destruct (cond l (data s)) eqn:Hc; [done|exfalso].
    destruct (asleep_awaited s i l q Hinv Hi Hc Hn) as (j & r & [Hj|Hj]);
      by pose proof (Forall_lookup_1 _ _ _ _ Hall Hj).
  - right. apply not_Forall_Exists, Exists_exists in Hno as (p & [i Hi]%list_elem_of_lookup_1 & Hp); [|apply _].
    apply (awake_quiet s i p); try done. by apply not_true_is_false.
Qed.

Lemma mon_step_length s s' : mon_step s s' → length (pcs s') = length (pcs s).
Proof.
  destruct 1; unfold operate, wait_while, cv_wait, notify, wake_all in *; repeat case_match; simplify_eq; cbn;
    by rewrite ?length_insert, ?length_fmap.
Qed.

Lemma mon_length n d s : rtc mon_step (mon_init n d) s → length (pcs s) = n.
Proof.
  revert s. apply rtc_ind_r; [by cbn; rewrite length_replicate|]. intros x y _ Hxy <-. by apply mon_step_length.
Qed.

Lemma mon_real n d s : rtc mon_step (mon_init n d) s → real s.
Proof.
  revert s. apply rtc_ind_r; [by apply Forall_replicate|]. intros x y _ Hxy. by apply mon_step_real.
Qed.

Lemma mon_settles n d s :
  Inv d → rtc mon_step (mon_init n d) s → settles mon_quiet at_rest (8 * n * (11 * n + 1) + 11 * n) s.
Proof.
  intros Hd Hs. apply (settling _ (λ x, mon_inv x ∧ real x) _ mon_work).
  - intros x y [Hx Hr] Hxy. apply mon_quiet_work in Hxy as Hw. apply mon_quiet_step in Hxy.
    split_and!; [by eapply mon_step_inv|by eapply mon_step_real|done].
  - intros x [Hx Hr]. by apply mon_quiet_live.
  - split; [by eapply mon_reachable|by eapply mon_real].
  - rewrite <-(mon_length n d s Hs). apply mon_work_bound.
Qed.

(** C13: condition variables. For every monitor whose operations notify everybody when they make
    a condition false: the data's invariant holds in every reachable state,
    one thread at a time has the guard, and [wait_while] goes on only while its condition is
    false. When nobody calls again and the kernel never returns early, every schedule ends, within a number
    of steps quadratic in the number of threads, and stops only when each thread is outside or sleeps in a
    [wait_while] whose condition really holds (as long as fewer than [2^32] notifications were made): no
    wake-up is lost. *)
Theorem condvar_correct n d s (Hd : Inv d) (Hs : rtc mon_step (mon_init n d) s) :
  Inv (data s)
  ∧ (∀ i j p q, pcs s !! i = Some p → pcs s !! j = Some q →
       holds p = true → holds q = true → i = j)
  ∧ (∀ i l, pcs s !! i = Some (Leave l) → cond l (data s) = false)
  ∧ settles mon_quiet at_rest (8 * n * (11 * n + 1) + 11 * n) s.
Proof.
  apply mon_reachable in Hs as Hinv; [|done]. split_and!.
  - apply (mi_data s Hinv).
  - intros i j p q Hi Hj Hp Hq. by eapply holder_unique.
  - intros i l Hi. apply (mi_says s Hinv i _ Hi).
  - by apply mon_settles with d.
Qed.
End monitor.
Arguments Outcome : clear implicits.
Arguments MonPc : clear implicits.
Arguments MonSys : clear implicits.

(** ** A flag: operation [true] sets it and notifies, operation [false] waits for it *)
Definition flag_enter (o b : bool) : bool * Outcome unit unit :=
  if o then (true, Finish tt NotifyAll) else (b, Wait tt).
Definition flag_cond (_ : unit) (b : bool) : bool := negb b.
Definition flag_leave (_ : unit) (b : bool) : bool * (unit * Notified) := (b, (tt, NoNotify)).

Definition flag_step := mon_step flag_enter flag_cond flag_leave.

(** Thread 0 sleeps, thread 1 has set the flag. *)
Definition sample_flag : MonSys bool bool unit unit :=
  mkMon true (Some 1%nat) 0 [CAsleep tt 0; Notify tt NotifyAll].

Lemma sample_flag_reachable : rtc flag_step (mon_init 2 false) sample_flag.
Proof.
  advance ltac:(by apply (ms_call _ _ _ _ 0 false)).
  advance ltac:(by apply (ms_op _ _ _ _ _ 0 (Lock false))).
  advance ltac:(by apply (ms_op _ _ _ _ _ 0 (Enter false))).
  advance ltac:(by apply (ms_wait _ _ _ _ _ 0 (Test tt))).
  advance ltac:(by apply (ms_wait _ _ _ _ _ 0 (CLoad tt))).
  advance ltac:(by apply (ms_wait _ _ _ _ _ 0 (CUnlock tt 0))).
  advance ltac:(by apply (ms_wait _ _ _ _ _ 0 (CWait tt 0))).
  advance ltac:(by apply (ms_wait _ _ _ _ _ 0 (CSys tt 0))).
  advance ltac:(by apply (ms_call _ _ _ _ 1 true)).
  advance ltac:(by apply (ms_op _ _ _ _ _ 1 (Lock true))).
  advance ltac:(by apply (ms_op _ _ _ _ _ 1 (Enter true))).
  apply rtc_refl.
Qed.

(** Witness of C13. *)
Lemma condvar_correct_witness :
  ∃ s, rtc (mon_quiet flag_enter flag_cond flag_leave) sample_flag s ∧ at_rest flag_cond s.
Proof.
  destruct (condvar_correct flag_enter flag_cond flag_leave
    (λ _, True) (λ _ _, True) (λ _ _, True)) with (n := 2%nat) (d := false) (s := sample_flag)
    as (_ & _ & _ & _ & _ & H).
  - intros [] b b' out _ E; cbn in E; injection E as <- <-; (split; [|done]); constructor; done.
  - intros l b b' r n _ _ _ E. injection E as <- <- <-. split; [|done]. constructor; done.
  - done.
  - exact sample_flag_reachable.
  - exact H.
Defined.
