(* ===== verification/Barrier.v ===== *)
(** [Barrier] (src/src/sync.rs): the monitor of Condvar.v with the barrier's state.

    [generation] is kept without its wrap-around; the word of the code is that number
    modulo [2^usize::BITS], and only words are compared.  [arrived] counts the calls of [wait]
    that have entered; a call keeps the number it found, so that its result tells which arrival it was. *)
From S2P Require Import Prelude Condvar.

Record BarrierState := mkBarrier { count : Z; generation : Z; arrived : Z }.

Section barrier.
Context (t : Target) (n : Z).

Definition gen_word (g : Z) : Z := wrap (usize_bits t) g.

(** [Barrier::wait] from the lock to its loop, or to the end for the leader: a waiter has its generation and its
    number, a result is [BarrierWaitResult] with the number of the call. *)
Definition wait (_ : unit) (b : BarrierState) : BarrierState * Outcome (Z * Z) (bool * Z) :=
  let gen := generation b in
  let c := count b + 1 in
  if decide (c < n)
  then (mkBarrier c gen (arrived b + 1), Wait (gen, arrived b))
  else (mkBarrier 0 (gen + 1) (arrived b + 1), Finish (true, arrived b) NotifyAll).

(** [BarrierWaitResult::is_leader] *)
Definition is_leader (r : bool * Z) : bool := r.1.

(** [while gen == state.generation] *)
Definition same_generation (l : Z * Z) (b : BarrierState) : bool :=
  bool_decide (gen_word l.1 = gen_word (generation b)).

(** [BarrierWaitResult(false)] *)
Definition follow (l : Z * Z) (b : BarrierState) : BarrierState * ((bool * Z) * Notified) :=
  (b, ((false, l.2), NoNotify)).

Notation Sys_ := (MonSys unit BarrierState (Z * Z) (bool * Z)).

Definition barrier_step : Sys_ → Sys_ → Prop := mon_step wait same_generation follow.
Definition barrier_quiet : Sys_ → Sys_ → Prop := mon_quiet wait same_generation follow.

(** [Barrier::new] *)
Definition barrier_new : BarrierState := mkBarrier 0 0 0.

(** ** Invariant *)
(** A barrier for no thread behaves as one for one thread. *)
Definition width : Z := Z.max 1 n.

Record barrier_ok (b : BarrierState) : Prop := {
  bo_count : 0 ≤ count b < width;
  bo_gen : 0 ≤ generation b;
  bo_arrived : arrived b = generation b * width + count b;
}.

(** A waiter is in its generation, and not the last one of it. *)
Definition waits (l : Z * Z) (b : BarrierState) : Prop :=
  0 ≤ l.1 ≤ generation b ∧ l.1 * width ≤ l.2 ∧ l.2 + 1 < (l.1 + 1) * width.

(** A result: the generation is over, and the leader was the last one of it. *)
Definition passed (r : bool * Z) (b : BarrierState) : Prop :=
  0 ≤ r.2 ∧ r.2 / width < generation b ∧ (is_leader r = true ↔ (r.2 + 1) mod width = 0).

Lemma in_generation g k :
  0 ≤ g → g * width ≤ k → k + 1 < (g + 1) * width → 0 ≤ k ∧ k / width = g ∧ (k + 1) mod width ≠ 0.
Proof.
  intros Hg H1 H2. assert (0 < width) as Hw by (unfold width; lia).
  replace k with (k - g * width + g * width) by lia. set (r := k - g * width) in *.
  rewrite Z.div_add, (Z.div_small r) by (unfold r; lia).
  replace (r + g * width + 1) with (r + 1 + g * width) by lia. rewrite Z.mod_add, Z.mod_small by (unfold r; lia).
  unfold r. nia.
Qed.

Lemma end_of_generation g c :
  0 ≤ g → c + 1 = width → (g * width + c) / width = g ∧ (g * width + c + 1) mod width = 0.
Proof.
  intros Hg Hc. assert (0 < width) as Hw by (unfold width; lia). split.
  - rewrite Z.div_add_l, Z.div_small by lia. lia.
  - replace (g * width + c + 1) with ((g + 1) * width) by lia. apply Z.mod_mul. lia.
Qed.

Lemma wait_ok o b b' out :
  barrier_ok b → wait o b = (b', out) →
  match out with
  | Wait l => change_ok same_generation barrier_ok waits passed b b' NoNotify ∧ waits l b'
  | Finish r m => change_ok same_generation barrier_ok waits passed b b' m ∧ passed r b'
  end.
Proof.
  intros [Hc Hg Ha] E. unfold wait in E. case_decide as Hd; injection E as <- <-.
  - split; [|unfold waits, width in *; cbn; lia]. constructor; [|done..].
    constructor; cbn; unfold width in *; lia.
  - destruct (end_of_generation (generation b) (count b)) as [E1 E2]; [done|unfold width in *; lia|].
    split; [|unfold passed, width in *; cbn; rewrite Ha, E1, E2; split_and!; [nia|lia|done]].
    constructor; cbn; [|unfold waits, passed; cbn; intros; naive_solver lia..|done].
    constructor; cbn; unfold width in *; [lia|lia|]. rewrite Ha. nia.
Qed.

Lemma follow_ok l b b' r m :
  barrier_ok b → waits l b → same_generation l b = false → follow l b = (b', (r, m)) →
  change_ok same_generation barrier_ok waits passed b b' m ∧ passed r b'.
Proof.
  intros Hb (Hg & Hk & Hk') Hs E. injection E as <- <- <-. split; [by constructor|].
  apply bool_decide_eq_false in Hs. assert (l.1 ≠ generation b) by (by intros E; rewrite E in Hs).
  destruct (in_generation l.1 l.2) as (H0 & Hd & Hm); [lia..|]. unfold passed. cbn.
  split_and!; [done|lia|done].
Qed.

Lemma barrier_reachable k s :
  rtc barrier_step (mon_init k barrier_new) s →
  mon_inv same_generation barrier_ok waits passed s.
Proof.
  apply mon_reachable; [apply wait_ok|apply follow_ok|]. constructor; cbn; unfold width; lia.
Qed.

Lemma all_arrived g b : barrier_ok b → g < generation b → (g + 1) * width ≤ arrived b.
Proof.
  intros [Hc _ ->] Hg.
  assert ((g + 1) * width ≤ generation b * width) by (apply Z.mul_le_mono_nonneg_r; lia). lia.
Qed.

Lemma not_arrived g b : barrier_ok b → g = generation b → arrived b < (g + 1) * width.
Proof. intros [Hc _ ->] ->. lia. Qed.

(** ** Every call has a number of its own *)
Definition number (p : MonPc unit (Z * Z) (bool * Z)) : option Z :=
  match p with
  | Idle | Lock _ | Enter _ => None
  | Test l | Leave l | CLoad l | CUnlock l _ | CWait l _ | CSys l _ | CAsleep l _ | CRelock l => Some l.2
  | Notify r _ | Wake r _ | Unlock r | Ret r => Some r.2
  end.

Record numbered (s : Sys_) : Prop := {
  nu_fresh : ∀ i p k, pcs s !! i = Some p → number p = Some k → k < arrived (data s);
  nu_inj : ∀ i j p q k, pcs s !! i = Some p → pcs s !! j = Some q → number p = Some k → number q = Some k → i = j;
}.

(** A thread moves and keeps its number, or loses it. *)
Lemma numbered_keep s i p p' o m :
  numbered s → pcs s !! i = Some p → number p' = number p ∨ number p' = None →
  numbered (mkMon (data s) o m (<[i := p']> (pcs s))).
Proof.
  intros [Hf Hj] Hi Hp. assert (∀ k, number p' = Some k → number p = Some k) as Hk by (destruct Hp; congruence).
  constructor; cbn.
  - intros j q k [[-> ->]|[_ Hq]]%(lookup_upd _ i p); eauto.
  - intros j1 j2 q1 q2 k [[-> ->]|[N1 H1]]%(lookup_upd _ i p) [[-> ->]|[N2 H2]]%(lookup_upd _ i p); eauto.
Qed.

Lemma numbered_enter s i p p' d :
  numbered s → pcs s !! i = Some p → number p' = Some (arrived (data s)) → arrived d = arrived (data s) + 1 →
  numbered (mkMon d (owner s) (notes s) (<[i := p']> (pcs s))).
Proof.
  intros [Hf Hj] Hi Hp Hd. constructor; cbn.
  - intros j q k [[-> ->]|[_ Hq]]%(lookup_upd _ i p); [intros ?; simplify_eq; lia| |done].
    intros ?. enough (k < arrived (data s)) by lia. eauto.
  - assert (∀ j q, pcs s !! j = Some q → number q = Some (arrived (data s)) → False) as Hno
      by (intros j q Hq E; specialize (Hf j q _ Hq E); lia).
    intros j1 j2 q1 q2 k [[-> ->]|[N1 H1]]%(lookup_upd _ i p) [[-> ->]|[N2 H2]]%(lookup_upd _ i p); try done; intros E1 E2.
    + exfalso. apply (Hno j2 q2); [done|congruence].
    + exfalso. apply (Hno j1 q1); [done|congruence].
    + eauto.
Qed.

Lemma numbered_wake_all s o m : numbered s → numbered (mkMon (data s) o m (wake_all (pcs s))).
Proof.
  assert (∀ ps j q, wake_all ps !! j = Some q → ∃ q', ps !! j = Some q' ∧ number q' = number q) as Hw.
  { intros ps j q Hq. unfold wake_all in Hq. rewrite list_lookup_fmap in Hq.
    destruct (ps !! j) as [x|]; [|done]. cbn in Hq. injection Hq as <-. exists x. by destruct x. }
  intros [Hf Hj]. constructor; cbn.
  - intros j q k (q' & Hq' & <-)%Hw. eauto.
  - intros j1 j2 q1 q2 k (x1 & H1 & <-)%Hw (x2 & H2 & <-)%Hw. eauto.
Qed.

(** The thread of the step keeps its number or loses it. *)
Ltac keep_number :=
  match goal with H : numbered ?s, Hi : pcs ?s !! ?i = Some ?p |- _ =>
    eapply (numbered_keep s i p); [exact H|exact Hi|first [by left | by right]] end.

Lemma barrier_step_numbered s s' : barrier_step s s' → numbered s → numbered s'.
Proof.
  intros Hs Hn. destruct Hs as [s i o Hi|s s' i p Hi Hop|s s' i p Hi Hop|s s' i p Hi Hop|s i p l q Hi Hp
                               |s i j r l q Hi Hj|s i r Hi Hno].
  - keep_number.
  - destruct p as [| |o|l| | | | | | | | | | |]; try done; cbn in Hop.
    + case_match; simplify_eq. keep_number.
    + unfold wait in Hop. case_decide; cbn in Hop; simplify_eq; by eapply (numbered_enter s).
    + repeat case_match; simplify_eq; keep_number.
    + repeat case_match; simplify_eq; keep_number.
    + repeat case_match; simplify_eq; keep_number.
  - destruct p; try done; cbn in Hop; repeat case_match; simplify_eq; keep_number.
  - destruct p as [| | | | | | | | | | |r m|r m| |]; try done; cbn in Hop; [simplify_eq; keep_number|].
    destruct m; simplify_eq. pose proof (numbered_wake_all s (owner s) (notes s) Hn) as Hn'.
    eapply (numbered_keep _ i (Wake r NotifyAll) (Unlock r)) in Hn'; [exact Hn'| |by left].
    cbn. unfold wake_all. by rewrite list_lookup_fmap, Hi.
  - destruct Hp as [-> | ->]; keep_number.
  - assert (i ≠ j) by congruence.
    eapply (numbered_keep _ j _ (CWait l q) (owner s) (notes s)) in Hn; [|exact Hj|by left].
    eapply (numbered_keep _ i (Wake r NotifyOne) (Unlock r)) in Hn; [exact Hn| |by left].
    cbn. by rewrite list_lookup_insert_ne.
  - keep_number.
Qed.

Lemma barrier_numbered k s : rtc barrier_step (mon_init k barrier_new) s → numbered s.
Proof.
  revert s. apply rtc_ind_r; [|intros x y _ Hxy; by apply barrier_step_numbered].
  constructor; cbn; [by intros i p j [-> _]%lookup_replicate|by intros i j p q m [-> _]%lookup_replicate].
Qed.

(** At rest a thread is outside, or asleep in a generation that still lacks threads. *)
Definition barrier_rest (s : Sys_) : Prop :=
  ∀ i p, pcs s !! i = Some p →
    p = Idle ∨ ∃ l q, p = CAsleep l q ∧ (notes s < 2 ^ 32 → generation (data s) < 2 ^ 32 →
                                         arrived (data s) < (l.1 + 1) * width).

Lemma rest_lacks k s :
  rtc barrier_step (mon_init k barrier_new) s → at_rest same_generation s → barrier_rest s.
Proof.
  intros Hs Hr i p Hi. apply barrier_reachable in Hs as Hinv.
  pose proof (mi_data _ _ _ _ s Hinv : barrier_ok (data s)) as Hb.
  destruct (Hr i p Hi) as [->|(l & q & -> & Hc)]; [by left|right]. exists l, q. split; [done|]. intros Hn Hg.
  destruct (mi_says _ _ _ _ s Hinv i _ Hi) as ((Hl & _) & _). apply bool_decide_eq_true in Hc as E; [|done].
  apply (not_arrived l.1); [done|].
  assert (2 ^ 32 ≤ 2 ^ usize_bits t) by (by destruct t).
  unfold gen_word, wrap in E. rewrite !Z.mod_small in E; [done|split; lia..].
Qed.

(** C14: barriers. Calls of [wait] are numbered as they arrive, no two threads in a call have the same number, and a
    generation is [n] successive ones. In every reachable state a thread that has returned from [wait] was
    in a generation all of whose threads have arrived, and it is told to be the leader exactly if it was the last of
    them, so that each generation has one leader. When nobody calls again and the kernel never returns
    early, every schedule ends, and stops only when each thread has returned or sleeps in a
    generation that still lacks threads, as long as fewer than [2^32] notifications and generations have passed: a
    generation that is complete lets all its threads go. *)
Theorem barrier_correct k s (Hs : rtc barrier_step (mon_init k barrier_new) s) :
  (∀ i r, pcs s !! i = Some (Ret r) →
     (r.2 / width + 1) * width ≤ arrived (data s)
     ∧ (is_leader r = true ↔ r.2 = (r.2 / width + 1) * width - 1))
  ∧ (∀ i j p q m, pcs s !! i = Some p → pcs s !! j = Some q → number p = Some m → number q = Some m → i = j)
  ∧ (∀ i p m, pcs s !! i = Some p → number p = Some m → m < arrived (data s))
  ∧ settles barrier_quiet barrier_rest (8 * k * (11 * k + 1) + 11 * k) s.
Proof.
  apply barrier_reachable in Hs as Hinv. destruct (barrier_numbered k s Hs) as [Hf Hj].
  pose proof (mi_data _ _ _ _ s Hinv : barrier_ok (data s)) as Hb. split_and!; [|exact Hj|exact Hf|].
  - intros i r Hi. destruct (mi_says _ _ _ _ s Hinv i _ Hi) as (H0 & Hg & Hl). split; [by apply all_arrived|].
    rewrite Hl. assert (0 < width) as Hw by (unfold width; lia).
    pose proof (Z.div_mod r.2 width ltac:(lia)). pose proof (Z.mod_pos_bound r.2 width Hw).
    split.
    + intros E. destruct (decide (r.2 mod width + 1 = width)); [nia|exfalso].
      rewrite <-Zplus_mod_idemp_l, Z.mod_small in E by lia. lia.
    + intros E. rewrite E. replace ((r.2 / width + 1) * width - 1 + 1) with ((r.2 / width + 1) * width) by lia.
      apply Z.mod_mul. lia.
  - apply settles_weaken with (at_rest same_generation).
    + intros y Hy. apply (rest_lacks k). etrans; [exact Hs|]. eapply rtc_subrel; [|exact Hy]. apply mon_quiet_step.
    + eapply mon_settles; [apply wait_ok|apply follow_ok| |exact Hs]. constructor; cbn; unfold width; lia.
Qed.
End barrier.

(** ** Two threads of three wait, asleep *)
Definition sample_barrier : MonSys unit BarrierState (Z * Z) (bool * Z) :=
  mkMon (mkBarrier 2 0 2) None 0 [CAsleep (0, 0) 0; CAsleep (0, 1) 0; Idle].

(** One more thread arrives and goes to sleep. *)
Ltac go_to_sleep i l :=
  advance ltac:(by apply (ms_call _ _ _ _ i tt));
  advance ltac:(by apply (ms_op _ _ _ _ _ i (Lock tt)));
  advance ltac:(by apply (ms_op _ _ _ _ _ i (Enter tt)));
  advance ltac:(by apply (ms_wait _ _ _ _ _ i (Test l)));
  advance ltac:(by apply (ms_wait _ _ _ _ _ i (CLoad l)));
  advance ltac:(by apply (ms_wait _ _ _ _ _ i (CUnlock l 0)));
  advance ltac:(by apply (ms_wait _ _ _ _ _ i (CWait l 0)));
  advance ltac:(by apply (ms_wait _ _ _ _ _ i (CSys l 0))).

Lemma sample_barrier_reachable :
  rtc (barrier_step X86_64Linux 3) (mon_init 3 barrier_new) sample_barrier.
Proof. go_to_sleep 0%nat (0, 0). go_to_sleep 1%nat (0, 1). apply rtc_refl. Qed.

(** The third one arrives, leads and has returned. *)
Definition sample_leader : MonSys unit BarrierState (Z * Z) (bool * Z) :=
  mkMon (mkBarrier 0 1 3) None 1 [CWait (0, 0) 0; CWait (0, 1) 0; Ret (true, 2)].

Lemma sample_leader_reachable :
  rtc (barrier_step X86_64Linux 3) (mon_init 3 barrier_new) sample_leader.
Proof.
  etrans; [exact sample_barrier_reachable|].
  advance ltac:(by apply (ms_call _ _ _ _ 2 tt)).
  advance ltac:(by apply (ms_op _ _ _ _ _ 2 (Lock tt))).
  advance ltac:(by apply (ms_op _ _ _ _ _ 2 (Enter tt))).
  advance ltac:(by apply (ms_notify _ _ _ _ _ 2 (Notify (true, 2) NotifyAll))).
  advance ltac:(by apply (ms_notify _ _ _ _ _ 2 (Wake (true, 2) NotifyAll))).
  advance ltac:(by apply (ms_op _ _ _ _ _ 2 (Unlock (true, 2)))).
  apply rtc_refl.
Qed.

(** Witness of C14. *)
Lemma barrier_correct_witness :
  (is_leader (true, 2) = true ↔ 2 = (2 / width 3 + 1) * width 3 - 1)
  ∧ ∃ s, rtc (barrier_quiet X86_64Linux 3) sample_leader s ∧ barrier_rest 3 s.
Proof.
  destruct (barrier_correct X86_64Linux 3 3 sample_leader sample_leader_reachable)
    as (H1 & _ & _ & _ & _ & H3).
  split; [|exact H3]. apply (H1 2%nat (true, 2)). reflexivity.
Defined.
