(* ===== verification/Mpsc.v ===== *)
(** The [mpsc] channel with its [Condvar] (src/src/sync.rs) as a system of threads.

    The queue's [Mutex] is used through its contract (Lock.v): a lock with one owner,
    taken in one step when it is free.  Every other atomic operation (the condition
    variable's sequence number, the count of senders, the receiver-gone flag) and
    every futex call is a step of its own. *)
From S2P Require Import Prelude Lock.

Section channel.
Context {T : Type}.

(** A [Sender]: [send], [clone] and [drop]. *)
Inductive SenderPc : Type :=
| SIdle
| SCheck (m : T)     (* load receiver_gone *)
| SLock (m : T)      (* queue.lock() *)
| SPush (m : T)      (* push_back; the lock is held *)
| SUnlock            (* the guard is dropped *)
| SNotify            (* notify_one: fetch_add on seq *)
| SWake              (* notify_one: futex_wake *)
| SDec               (* drop: fetch_sub on senders *)
| SNotifyAll         (* drop: notify_all: fetch_add on seq *)
| SWakeAll           (* drop: notify_all: futex_wake_all *)
| SGone.

(** The [Receiver]: [recv] (with [Condvar::wait]), [try_recv] and [drop]. *)
Inductive ReceiverPc : Type :=
| RIdle
| RLock              (* queue.lock() *)
| RPop               (* pop_front; the lock is held from here to CUnlock *)
| RCheck             (* load senders *)
| CLoad              (* Condvar::wait: load seq *)
| CUnlock (q : Z)    (* Condvar::wait: raw_unlock *)
| CWait (q : Z)      (* futex_wait: load seq and compare *)
| CSys (q : Z)       (* futex_wait: the system call *)
| CAsleep (q : Z)
| CRelock            (* Condvar::wait: raw_lock *)
| RRet (r : option T)      (* recv returns Some v: Ok(v), None: Err(RecvError) *)
| TLock              (* try_recv *)
| TPop
| TCheck
| TRet (r : result T bool) (* Err true: Disconnected, Err false: Empty *)
| RGone.

Inductive Owner : Set := Nobody | ByReceiver | BySender (i : nat).

Record Chan := mkChan {
  queue : list T;
  owner : Owner;
  seq : Z;
  n_senders : Z;
  receiver_gone : bool;
  receiver : ReceiverPc;
  sender : list SenderPc;
  sent : list T;       (* every message pushed, in order *)
  received : list T;   (* every message popped, in order *)
}.

(** ** Steps of a sender *)
Definition with_sender (c : Chan) (i : nat) (p : SenderPc) : Chan :=
  mkChan (queue c) (owner c) (seq c) (n_senders c) (receiver_gone c) (receiver c)
         (<[i := p]> (sender c)) (sent c) (received c).

Definition with_receiver (c : Chan) (p : ReceiverPc) : Chan :=
  mkChan (queue c) (owner c) (seq c) (n_senders c) (receiver_gone c) p
         (sender c) (sent c) (received c).

Definition with_owner (c : Chan) (o : Owner) : Chan :=
  mkChan (queue c) o (seq c) (n_senders c) (receiver_gone c) (receiver c)
         (sender c) (sent c) (received c).

(** [Condvar::notify_one] and [notify_all]: bump the sequence number, ... *)
Definition bump_seq (c : Chan) : Chan :=
  mkChan (queue c) (owner c) (wrap 32 (seq c + 1)) (n_senders c) (receiver_gone c) (receiver c)
         (sender c) (sent c) (received c).

(** ... then wake the waiter, if it sleeps. *)
Definition cv_wake (c : Chan) : Chan :=
  match receiver c with
  | CAsleep q => with_receiver c (CWait q)
  | _ => c
  end.

Definition push_back (c : Chan) (m : T) : Chan :=
  mkChan (queue c ++ [m]) (owner c) (seq c) (n_senders c) (receiver_gone c) (receiver c)
         (sender c) (sent c ++ [m]) (received c).

Definition add_senders (c : Chan) (d : Z) (new : list SenderPc) : Chan :=
  mkChan (queue c) (owner c) (seq c) (n_senders c + d) (receiver_gone c) (receiver c)
         (sender c ++ new) (sent c) (received c).

(** [Sender::send]. *)
Definition send_op (i : nat) (p : SenderPc) (c : Chan) : option Chan :=
  match p with
  | SCheck m => Some (with_sender c i (if receiver_gone c then SIdle else SLock m))
  | SLock m =>
      match owner c with
      | Nobody => Some (with_sender (with_owner c (BySender i)) i (SPush m))
      | _ => None
      end
  | SPush m => Some (with_sender (push_back c m) i SUnlock)
  | SUnlock => Some (with_sender (with_owner c Nobody) i SNotify)
  | SNotify => Some (with_sender (bump_seq c) i SWake)
  | SWake => Some (with_sender (cv_wake c) i SIdle)
  | _ => None
  end.

(** [Drop for Sender]: neither the count nor the notification takes the lock. *)
Definition sender_drop_op (i : nat) (p : SenderPc) (c : Chan) : option Chan :=
  match p with
  | SDec => Some (with_sender (add_senders c (-1) []) i
                    (if decide (n_senders c = 1) then SNotifyAll else SGone))
  | SNotifyAll => Some (with_sender (bump_seq c) i SWakeAll)
  | SWakeAll => Some (with_sender (cv_wake c) i SGone)
  | _ => None
  end.

(** ** Steps of the receiver *)
Definition pop_front (c : Chan) (found : T → ReceiverPc) (empty : ReceiverPc) : Chan :=
  match queue c with
  | m :: q =>
      mkChan q (owner c) (seq c) (n_senders c) (receiver_gone c) (found m)
             (sender c) (sent c) (received c ++ [m])
  | [] => with_receiver c empty
  end.

Definition recv_op (p : ReceiverPc) (c : Chan) : option Chan :=
  match p with
  | RLock =>
      match owner c with
      | Nobody => Some (with_receiver (with_owner c ByReceiver) RPop)
      | _ => None
      end
  | RPop => Some (pop_front c (λ m, RRet (Some m)) RCheck)
  | RCheck => Some (with_receiver c (if decide (n_senders c = 0) then RRet None else CLoad))
  | RRet _ => Some (with_receiver (with_owner c Nobody) RIdle)
  | _ => None
  end.

(** [Condvar::wait] with the [futex_wait(&seq, q)] loop. *)
Definition cv_wait_op (p : ReceiverPc) (c : Chan) : option Chan :=
  match p with
  | CLoad => Some (with_receiver c (CUnlock (seq c)))
  | CUnlock q => Some (with_receiver (with_owner c Nobody) (CWait q))
  | CWait q => Some (with_receiver c (if decide (seq c = q) then CSys q else CRelock))
  | CSys q => Some (with_receiver c (if decide (seq c = q) then CAsleep q else CWait q))
  | CRelock =>
      match owner c with
      | Nobody => Some (with_receiver (with_owner c ByReceiver) RPop)
      | _ => None
      end
  | _ => None
  end.

Definition try_recv_op (p : ReceiverPc) (c : Chan) : option Chan :=
  match p with
  | TLock =>
      match owner c with
      | Nobody => Some (with_receiver (with_owner c ByReceiver) TPop)
      | _ => None
      end
  | TPop => Some (pop_front c (λ m, TRet (Ok m)) TCheck)
  | TCheck => Some (with_receiver c (TRet (Err (bool_decide (n_senders c = 0)))))
  | TRet _ => Some (with_receiver (with_owner c Nobody) RIdle)
  | _ => None
  end.

Definition receiver_op (p : ReceiverPc) (c : Chan) : option Chan :=
  match recv_op p c, cv_wait_op p c, try_recv_op p c with
  | Some c, _, _ | _, Some c, _ | _, _, Some c => Some c
  | _, _, _ => None
  end.

Inductive chan_step : Chan → Chan → Prop :=
| st_send c i p c' :
    sender c !! i = Some p → send_op i p c = Some c' → chan_step c c'
| st_drop_op c i p c' :
    sender c !! i = Some p → sender_drop_op i p c = Some c' → chan_step c c'
| st_call_send c i m : sender c !! i = Some SIdle → chan_step c (with_sender c i (SCheck m))
| st_call_drop c i : sender c !! i = Some SIdle → chan_step c (with_sender c i SDec)
| st_clone c i : sender c !! i = Some SIdle → chan_step c (add_senders c 1 [SIdle])
| st_recv c c' : receiver_op (receiver c) c = Some c' → chan_step c c'
| st_call_recv c p :
    receiver c = RIdle → p = RLock ∨ p = TLock → chan_step c (with_receiver c p)
| st_early c q :  (* the futex call returns early *)
    receiver c = CAsleep q ∨ receiver c = CSys q → chan_step c (with_receiver c (CWait q))
| st_drop_receiver c :
    receiver c = RIdle →
    chan_step c (mkChan (queue c) (owner c) (seq c) (n_senders c) true RGone
                   (sender c) (sent c) (received c)).

Definition channel : Chan := mkChan [] Nobody 0 1 false RIdle [SIdle] [] [].

(** The lock seen from outside: the receiver is thread 0 and the senders follow. *)
Definition chan_owner (c : Chan) : option nat :=
  match owner c with Nobody => None | ByReceiver => Some 0%nat | BySender i => Some (S i) end.

Definition chan_put (o : option nat) (c : Chan) : Chan :=
  with_owner c (match o with None => Nobody | Some O => ByReceiver | Some (S i) => BySender i end).

Definition recv_holds (p : ReceiverPc) : bool :=
  match p with
  | RPop | RCheck | CLoad | CUnlock _ | RRet _ | TPop | TCheck | TRet _ => true
  | _ => false
  end.

Definition send_holds (p : SenderPc) : bool :=
  match p with SPush _ | SUnlock => true | _ => false end.

Definition chan_inside (c : Chan) (i : nat) : bool :=
  match i with O => recv_holds (receiver c) | S i => held_in send_holds (sender c) i end.

Notation chan_kind R := (client_kind R chan_owner chan_put chan_inside).

(** What a step of a sender or of the receiver is to the lock. *)
Lemma sender_silent (R : Chan → Chan → Prop) c c' i p p' :
  sender c !! i = Some p → sender c' = <[i := p']> (sender c) → send_holds p' = send_holds p →
  recv_holds (receiver c') = recv_holds (receiver c) → owner c' = owner c →
  (∀ o, R (chan_put o c) (chan_put o c')) → chan_kind R c c'.
Proof.
  intros Hi Hp Hh Hr Ho Hs. apply kind_silent; [by unfold chan_owner; rewrite Ho|done|].
  intros [|j]; cbn; [done|]. rewrite Hp. by apply held_insert_same with p.
Qed.

Lemma receiver_silent (R : Chan → Chan → Prop) c c' :
  sender c' = sender c → recv_holds (receiver c') = recv_holds (receiver c) → owner c' = owner c →
  (∀ o, R (chan_put o c) (chan_put o c')) → chan_kind R c c'.
Proof.
  intros Hp Hr Ho Hs. apply kind_silent; [by unfold chan_owner; rewrite Ho|done|].
  intros [|j]; cbn; [done|]. by rewrite Hp.
Qed.

Lemma receiver_acquire (R : Chan → Chan → Prop) c p :
  owner c = Nobody → recv_holds p = true → chan_kind R c (with_receiver (with_owner c ByReceiver) p).
Proof.
  intros Ho Hp. apply (kind_acquire _ _ _ _ _ _ 0%nat); [by unfold chan_owner; rewrite Ho|done|done|].
  by intros [|j] Hj.
Qed.

Lemma receiver_release (R : Chan → Chan → Prop) c p :
  recv_holds (receiver c) = true → recv_holds p = false → chan_kind R c (with_receiver (with_owner c Nobody) p).
Proof. intros Hc Hp. apply (kind_release _ _ _ _ _ _ 0%nat); [done..|]. by intros [|j] Hj. Qed.

Lemma cv_wake_held c :
  sender (cv_wake c) = sender c ∧ recv_holds (receiver (cv_wake c)) = recv_holds (receiver c) ∧ owner (cv_wake c) = owner c
  ∧ ∀ o, chan_put o (cv_wake c) = cv_wake (chan_put o c).
Proof. unfold cv_wake, chan_put. cbn. destruct (receiver c) eqn:E; cbn; rewrite ?E; done. Qed.

Lemma send_kind c c' i p : sender c !! i = Some p → send_op i p c = Some c' → chan_kind (λ x y, send_op i p x = Some y) c c'.
Proof.
  intros Hi Hop.
  destruct p as [|m|m|m| | | | | | |]; try done; cbn in Hop.
  - injection Hop as <-. eapply (sender_silent _ _ _ i); [done|reflexivity|by destruct (receiver_gone c)|done|done|].
    done.
  - destruct (owner c) eqn:Eo; try done. injection Hop as <-. apply (kind_acquire _ _ _ _ _ _ (S i));
      [by unfold chan_owner; rewrite Eo|done|cbn; by rewrite (held_insert _ _ i (SLock m))|].
    intros [|j] Hj; cbn; [done|]. apply held_insert_ne. congruence.
  - injection Hop as <-. eapply (sender_silent _ _ _ i); [done|reflexivity|done..|]. done.
  - injection Hop as <-. apply (kind_release _ _ _ _ _ _ (S i)); [done|by apply (held_at send_holds _ i SUnlock)|cbn; by rewrite (held_insert _ _ i SUnlock)|].
    intros [|j] Hj; cbn; [done|]. apply held_insert_ne. congruence.
  - injection Hop as <-. eapply (sender_silent _ _ _ i); [done|reflexivity|done..|]. done.
  - injection Hop as <-. destruct (cv_wake_held c) as (H1 & H2 & H3 & H4).
    eapply (sender_silent _ _ _ i); [done|cbn; by rewrite H1|done|done|done|].
    intros o. cbn. rewrite <-H4. done.
Qed.

Lemma drop_kind c c' i p : sender c !! i = Some p → sender_drop_op i p c = Some c' → chan_kind (λ x y, sender_drop_op i p x = Some y) c c'.
Proof.
  intros Hi Hop.
  destruct p; try done; cbn in Hop.
  - injection Hop as <-. eapply (sender_silent _ _ _ i); [done|cbn; by rewrite app_nil_r|by case_decide|done|done|].
    done.
  - injection Hop as <-. eapply (sender_silent _ _ _ i); [done|reflexivity|done..|]. done.
  - injection Hop as <-. destruct (cv_wake_held c) as (H1 & H2 & H3 & H4).
    eapply (sender_silent _ _ _ i); [done|cbn; by rewrite H1|done|done|done|].
    intros o. cbn. rewrite <-H4. done.
Qed.

Lemma receiver_kind c c' : receiver_op (receiver c) c = Some c' → chan_kind (λ x y, receiver_op (receiver x) x = Some y) c c'.
Proof.
  intros Hop. unfold receiver_op in Hop. destruct (receiver c) eqn:Er; cbn in Hop; try done.
  all: unfold pop_front in Hop; repeat case_match; simplify_eq; try done;
    first [ apply receiver_acquire; done
          | apply receiver_release; [by rewrite Er|done]
          | apply receiver_silent; [done|cbn; rewrite Er; repeat case_decide; done|done|]; intros; unfold receiver_op;
            cbn; rewrite Er; cbn; unfold pop_front; cbn;
            repeat match goal with H : queue _ = _ |- _ => rewrite H end; by repeat case_decide ].
Qed.

#[export] Instance channel_lock_client : LockClient chan_step chan_owner chan_put chan_inside channel.
Proof.
  split; [done|by intros [|[|i]]|by intros [? []]|intros [[|i]|]; done|done|by intros o c []|].
  intros c c' Hs. destruct Hs as [c i p c' Hi Hop|c i p c' Hi Hop|c i m Hi|c i Hi|c i Hi|c c' Hop|c p Hr Hp|c q Hq|c Hr].
  - by apply (client_kind_impl _ _ _ _ _ _ _ _ c c' c c' (send_kind c c' i p Hi Hop)); [..|intros o; apply (st_send _ i p)].
  - by apply (client_kind_impl _ _ _ _ _ _ _ _ c c' c c' (drop_kind c c' i p Hi Hop)); [..|intros o; apply (st_drop_op _ i p)].
  - eapply (sender_silent _ _ _ i SIdle); [done|reflexivity|done..|]. intros o. by apply (st_call_send (chan_put o c)).
  - eapply (sender_silent _ _ _ i SIdle); [done|reflexivity|done..|]. intros o. by apply (st_call_drop (chan_put o c)).
  - apply kind_silent; [done|intros o; by apply (st_clone (chan_put o c) i)|].
    intros [|j]; cbn; [done|]. unfold held_in.
    destruct (decide (j < length (sender c))%nat); [by rewrite lookup_app_l|].
    rewrite (lookup_ge_None_2 (sender c)) by lia. rewrite lookup_app_r by lia.
    by destruct (j - length (sender c))%nat as [|[|?]].
  - by apply (client_kind_impl _ _ _ _ _ _ _ _ c c' c c' (receiver_kind c c' Hop)); [..|intros o; apply st_recv].
  - apply receiver_silent; [done|cbn; rewrite Hr; by destruct Hp as [-> | ->]|done|].
    intros o. by apply (st_call_recv (chan_put o c)).
  - apply receiver_silent; [done|cbn; by destruct Hq as [-> | ->]|done|]. intros o. by apply (st_early (chan_put o c)).
  - apply receiver_silent; [done|cbn; by rewrite Hr|done|]. intros o. by apply (st_drop_receiver (chan_put o c)).
Qed.

(** ** Invariant *)
(** Senders counted by [senders]. *)
Definition is_live (p : SenderPc) : nat :=
  match p with SNotifyAll | SWakeAll | SGone => 0 | _ => 1 end.

(** What the receiver knows while it holds the lock. *)
Definition recv_knows (c : Chan) (p : ReceiverPc) : Prop :=
  match p with
  | RCheck | TCheck => queue c = []
  | RRet None | TRet (Err true) => queue c = [] ∧ n_senders c = 0
  | _ => True
  end.

Record chan_inv (c : Chan) : Prop := {
  ci_log : sent c = received c ++ queue c;
  ci_count : n_senders c = Z.of_nat (sum_list_with is_live (sender c));
  ci_recv : owner c = ByReceiver ↔ recv_holds (receiver c) = true;
  ci_send : ∀ i, owner c = BySender i ↔ ∃ p, sender c !! i = Some p ∧ send_holds p = true;
  ci_knows : recv_knows c (receiver c);
}.

Lemma ci_send_at c i p :
  chan_inv c → sender c !! i = Some p → (owner c = BySender i ↔ send_holds p = true).
Proof. intros Hinv Hi. rewrite (ci_send c Hinv i). split; [naive_solver|eauto]. Qed.

Lemma live_pos c i p :
  chan_inv c → sender c !! i = Some p → is_live p = 1%nat → 0 < n_senders c.
Proof.
  intros [_ Hc _ _ _] Hi Hp. rewrite Hc.
  assert (0 < sum_list_with is_live (sender c))%nat; [|lia].
  apply sum_pos. exists i, p. split; [done|lia].
Qed.

(** The receiver's knowledge survives a step of a sender. *)
Lemma knows_keep c c' i p :
  chan_inv c → sender c !! i = Some p → is_live p = 1%nat →
  receiver c' = receiver c → queue c' = queue c ∨ owner c = BySender i → recv_knows c' (receiver c').
Proof.
  intros Hinv Hi Hp Hr Hq. pose proof (live_pos c i p Hinv Hi Hp).
  destruct Hinv as [_ _ Hown _ Hk]. rewrite Hr.
  destruct Hq as [Hq|Ho].
  - destruct (receiver c) as [| | | | | | | | | |[?|]| | | |[?|[]]|]; cbn in *; rewrite ?Hq; try done;
      destruct Hk; lia.
  - assert (recv_holds (receiver c) = false) as Hh.
    { apply not_true_is_false. intros E. apply Hown in E. congruence. }
    destruct (receiver c); done.
Qed.

(** A sender changes its program counter and perhaps the owner. *)
Lemma sender_owner c i p p' o :
  chan_inv c → sender c !! i = Some p →
  (o = owner c ∧ send_holds p' = send_holds p
   ∨ owner c = Nobody ∧ o = BySender i ∧ send_holds p' = true
   ∨ owner c = BySender i ∧ o = Nobody ∧ send_holds p' = false) →
  (o = ByReceiver ↔ recv_holds (receiver c) = true)
  ∧ ∀ j, o = BySender j ↔ ∃ q, <[i := p']> (sender c) !! j = Some q ∧ send_holds q = true.
Proof.
  intros Hinv Hi Ho. pose proof (ci_send_at c i p Hinv Hi) as Hp.
  destruct Hinv as [_ _ Hr Hs _]. split.
  - rewrite <-Hr. destruct Ho as [[-> _]|[(E & -> & _)|(E & -> & _)]]; [done|rewrite E; done..].
  - intros j. setoid_rewrite (lookup_upd _ i p); [|done].
    destruct (decide (j = i)) as [->|Hne].
    + transitivity (send_holds p' = true); [|naive_solver].
      destruct Ho as [[-> ->]|[(E & -> & ->)|(E & -> & ->)]]; [done|done|]. split; done.
    + transitivity (owner c = BySender j).
      * destruct Ho as [[-> _]|[(E & -> & _)|(E & -> & _)]]; [done|rewrite E..].
        -- split; [intros [= ?]; done|done].
        -- split; [done|intros [= ?]; done].
      * rewrite Hs. naive_solver.
Qed.

Lemma live_count c i p p' :
  chan_inv c → sender c !! i = Some p →
  Z.of_nat (sum_list_with is_live (<[i := p']> (sender c)))
  = n_senders c + Z.of_nat (is_live p') - Z.of_nat (is_live p).
Proof.
  intros [_ Hc _ _ _] Hi. pose proof (sum_list_with_insert is_live (sender c) i p p' Hi). lia.
Qed.

Lemma cv_wake_same c :
  queue (cv_wake c) = queue c ∧ owner (cv_wake c) = owner c ∧ n_senders (cv_wake c) = n_senders c
  ∧ sender (cv_wake c) = sender c ∧ sent (cv_wake c) = sent c
  ∧ received (cv_wake c) = received c
  ∧ recv_holds (receiver (cv_wake c)) = recv_holds (receiver c)
  ∧ (recv_knows c (receiver c) → recv_knows (cv_wake c) (receiver (cv_wake c))).
Proof. unfold cv_wake. destruct (receiver c) eqn:E; cbn; rewrite ?E; done. Qed.

Lemma cv_wake_inv c : chan_inv c → chan_inv (cv_wake c).
Proof.
  intros [H1 H2 H3 H4 H5]. destruct (cv_wake_same c) as (E1 & E2 & E3 & E4 & E5 & E6 & E7 & E8).
  constructor; rewrite ?E1, ?E2, ?E3, ?E4, ?E5, ?E6, ?E7; auto.
Qed.

(** A sender moves; the lock, the queue and the count stay, or only the sequence
    number changes. *)
Lemma sender_move c i p p' :
  chan_inv c → sender c !! i = Some p → send_holds p = send_holds p' →
  is_live p = is_live p' → chan_inv (with_sender c i p').
Proof.
  intros Hinv Hi Hh Hl. pose proof (live_count c i p p' Hinv Hi) as Hcount.
  destruct (sender_owner c i p p' (owner c) Hinv Hi) as [Hr Hs]; [left; done|].
  destruct Hinv as [H1 H2 H3 H4 H5]. constructor; cbn; try done. lia.
Qed.

Lemma bump_inv c : chan_inv c → chan_inv (bump_seq c).
Proof. intros [H1 H2 H3 H4 H5]. by constructor. Qed.

Lemma send_op_inv c i p c' :
  chan_inv c → sender c !! i = Some p → send_op i p c = Some c' → chan_inv c'.
Proof.
  intros Hinv Hi Hop. pose proof (ci_send_at c i p Hinv Hi) as Hs.
  destruct p; try done; cbn in Hop, Hs.
  - simplify_eq. apply (sender_move c i (SCheck m)); try done; by destruct (receiver_gone c).
  - destruct (owner c) eqn:Eo; simplify_eq.
    pose proof (live_count c i (SLock m) (SPush m) Hinv Hi) as Hcount.
    pose proof (knows_keep c (with_sender (with_owner c (BySender i)) i (SPush m)) i (SLock m)
                  Hinv Hi eq_refl eq_refl (or_introl eq_refl)) as Hk.
    destruct (sender_owner c i (SLock m) (SPush m) (BySender i) Hinv Hi) as [Hr Hs'];
      [right; left; done|].
    destruct Hinv as [H1 H2 H3 H4 H5]. constructor; cbn in *; try done. lia.
  - simplify_eq. assert (owner c = BySender i) as Ho by (by apply Hs).
    pose proof (knows_keep c (with_sender (push_back c m) i SUnlock) i (SPush m)
                  Hinv Hi eq_refl eq_refl (or_intror Ho)) as Hk.
    pose proof (sender_move c i (SPush m) SUnlock Hinv Hi eq_refl eq_refl) as [H1 H2 H3 H4 _].
    constructor; cbn in *; try done. by rewrite H1, app_assoc.
  - simplify_eq. assert (owner c = BySender i) as Ho by (by apply Hs).
    pose proof (live_count c i SUnlock SNotify Hinv Hi) as Hcount.
    destruct (sender_owner c i SUnlock SNotify Nobody Hinv Hi) as [Hr Hs'];
      [right; right; done|].
    destruct Hinv as [H1 H2 H3 H4 H5]. constructor; cbn in *; try done. lia.
  - simplify_eq. by apply (sender_move (bump_seq c) i SNotify); [apply bump_inv|..].
  - simplify_eq. apply (sender_move (cv_wake c) i SWake); [by apply cv_wake_inv| |done..].
    by rewrite (proj1 (proj2 (proj2 (proj2 (cv_wake_same c))))).
Qed.

Lemma sender_drop_inv c i p c' :
  chan_inv c → sender c !! i = Some p → sender_drop_op i p c = Some c' → chan_inv c'.
Proof.
  intros Hinv Hi Hop. destruct p; try done; cbn in Hop; simplify_eq.
  - set (p' := if decide (n_senders c = 1) then SNotifyAll else SGone).
    assert (is_live p' = 0%nat ∧ send_holds p' = false) as [El Eh]
      by (unfold p'; by destruct (decide _)).
    pose proof (live_count c i SDec p' Hinv Hi) as Hcount. rewrite El in Hcount.
    pose proof (knows_keep c (with_sender (add_senders c (-1) []) i p') i SDec
                  Hinv Hi eq_refl eq_refl (or_introl eq_refl)) as Hk.
    destruct (sender_owner c i SDec p' (owner c) Hinv Hi) as [Hr Hs']; [left; done|].
    destruct Hinv as [H1 H2 H3 H4 H5]. constructor; cbn in *; rewrite ?app_nil_r; try done. lia.
  - by apply (sender_move (bump_seq c) i SNotifyAll); [apply bump_inv|..].
  - apply (sender_move (cv_wake c) i SWakeAll); [by apply cv_wake_inv| |done..].
    by rewrite (proj1 (proj2 (proj2 (proj2 (cv_wake_same c))))).
Qed.

(** The receiver moves, taking, keeping or dropping the lock. *)
Lemma receiver_move c p o :
  chan_inv c →
  (o = owner c ∧ recv_holds p = recv_holds (receiver c)
   ∨ owner c = Nobody ∧ o = ByReceiver ∧ recv_holds p = true
   ∨ owner c = ByReceiver ∧ o = Nobody ∧ recv_holds p = false) →
  recv_knows (with_receiver c p) p →
  chan_inv (with_receiver (with_owner c o) p).
Proof.
  intros [H1 H2 H3 H4 H5] Ho Hk. constructor; cbn; try done.
  - destruct Ho as [[-> ->]|[(E & -> & ->)|(E & -> & ->)]]; [done|done|]. split; done.
  - intros i. rewrite <-(H4 i).
    destruct Ho as [[-> _]|[(E & -> & _)|(E & -> & _)]]; [done|rewrite E; done..].
Qed.

Lemma receiver_stay c p :
  chan_inv c → recv_holds p = recv_holds (receiver c) → recv_knows (with_receiver c p) p →
  chan_inv (with_receiver c p).
Proof.
  intros Hinv Hh Hk.
  assert (with_receiver c p = with_receiver (with_owner c (owner c)) p) as -> by (by destruct c).
  apply receiver_move; auto.
Qed.

Lemma pop_front_inv c f e :
  chan_inv c → recv_holds (receiver c) = true → recv_holds e = true →
  (∀ m, recv_holds (f m) = true ∧ ∀ c, recv_knows c (f m)) →
  (queue c = [] → recv_knows (with_receiver c e) e) → chan_inv (pop_front c f e).
Proof.
  intros Hinv Hh He Hf Hk. unfold pop_front. destruct (queue c) as [|m q] eqn:Eq.
  - apply receiver_stay; [done|congruence|by apply Hk].
  - destruct Hinv as [H1 H2 H3 H4 H5]. destruct (Hf m) as [Hfm Hfk]. constructor; cbn; try done.
    + by rewrite H1, Eq, <-app_assoc.
    + by rewrite Hfm, H3, Hh.
Qed.

Lemma receiver_op_inv c c' :
  chan_inv c → receiver_op (receiver c) c = Some c' → chan_inv c'.
Proof.
  intros Hinv Hop. pose proof (ci_recv c Hinv) as Hr. pose proof (ci_knows c Hinv) as Hk.
  assert (∀ p, owner c = Nobody → recv_holds p = true → recv_knows (with_receiver c p) p →
            chan_inv (with_receiver (with_owner c ByReceiver) p)) as Hlock
    by (intros; apply receiver_move; auto).
  assert (∀ p, recv_holds (receiver c) = true → recv_holds p = false →
            recv_knows (with_receiver c p) p →
            chan_inv (with_receiver (with_owner c Nobody) p)) as Hunlock.
  { intros p Hh ??. apply Hr in Hh. apply receiver_move; auto. }
  assert (∀ f e, recv_holds (receiver c) = true → recv_holds e = true →
            (∀ m, recv_holds (f m) = true ∧ ∀ c, recv_knows c (f m)) →
            (queue c = [] → recv_knows (with_receiver c e) e) → chan_inv (pop_front c f e)) as Hpop
    by (intros; by apply pop_front_inv).
  assert (∀ p, recv_holds p = recv_holds (receiver c) → recv_knows (with_receiver c p) p →
            chan_inv (with_receiver c p)) as Hstay by (intros; by apply receiver_stay).
  unfold receiver_op in Hop. destruct (receiver c) eqn:E; cbn in Hop, Hk; try done.
  - destruct (owner c) eqn:Eo; simplify_eq. by apply Hlock.
  - simplify_eq. by apply Hpop.
  - destruct (decide (n_senders c = 0)); simplify_eq; by apply Hstay.
  - simplify_eq. by apply Hstay.
  - simplify_eq. by apply Hunlock.
  - destruct (decide (seq c = q)); simplify_eq; by apply Hstay.
  - destruct (decide (seq c = q)); simplify_eq; by apply Hstay.
  - destruct (owner c) eqn:Eo; simplify_eq. by apply Hlock.
  - simplify_eq. by apply Hunlock.
  - destruct (owner c) eqn:Eo; simplify_eq. by apply Hlock.
  - simplify_eq. by apply Hpop.
  - simplify_eq. apply Hstay; [done|]. cbn. by destruct (bool_decide_reflect (n_senders c = 0)).
  - simplify_eq. by apply Hunlock.
Qed.

Lemma clone_inv c i : chan_inv c → sender c !! i = Some SIdle → chan_inv (add_senders c 1 [SIdle]).
Proof.
  intros Hinv Hi.
  pose proof (knows_keep c (add_senders c 1 [SIdle]) i SIdle Hinv Hi eq_refl eq_refl
                (or_introl eq_refl)) as Hk.
  destruct Hinv as [H1 H2 H3 H4 H5]. constructor; cbn in *; try done.
  - rewrite sum_list_with_app. cbn. lia.
  - intros j. rewrite H4. split.
    + intros (q & Hj & Hq). exists q. split; [by apply lookup_app_l_Some|done].
    + intros (q & Hj & Hq). apply lookup_app_Some in Hj as [Hj|[Hlen Hj]]; [eauto|].
      destruct (j - length (sender c))%nat; [|done]. cbn in Hj. by simplify_eq.
Qed.

Lemma chan_step_inv c c' : chan_step c c' → chan_inv c → chan_inv c'.
Proof.
  intros Hstep Hinv.
  destruct Hstep as [c i p c' Hi Hop|c i p c' Hi Hop|c i m Hi|c i Hi|c i Hi|c c' Hop|c p Hr Hp|c q Hr|c Hr].
  - by eapply send_op_inv.
  - by eapply sender_drop_inv.
  - by apply (sender_move c i SIdle).
  - by apply (sender_move c i SIdle).
  - by eapply clone_inv.
  - by apply (receiver_op_inv c).
  - apply receiver_stay; [done|rewrite Hr; by destruct Hp as [->| ->]|by destruct Hp as [->| ->]].
  - apply receiver_stay; [done|by destruct Hr as [->| ->]|done].
  - destruct Hinv as [H1 H2 H3 H4 H5]. constructor; cbn; try done. by rewrite H3, Hr.
Qed.

Lemma chan_reachable c : rtc chan_step channel c → chan_inv c.
Proof.
  assert (∀ c0, rtc chan_step c0 c → chan_inv c0 → chan_inv c) as Hall.
  { intros c0. induction 1; eauto using chan_step_inv. }
  intros Hc. apply (Hall _ Hc). constructor; try done. intros i. cbn. split; [done|].
  intros (p & Hp & Hh). destruct i as [|[|i]]; cbn in Hp; by simplify_eq.
Qed.

(** The channel delivers. In every reachable state what was sent is what was received
    followed by the queue, in order; when [recv] (or [try_recv]) reports the channel as
    disconnected, every message sent has been received and no sender is left to send another. *)
Theorem channel_fifo c (Hc : rtc chan_step channel c) :
  sent c = received c ++ queue c
  ∧ (receiver c = RRet None ∨ receiver c = TRet (Err true) →
     received c = sent c ∧ ∀ i p, sender c !! i = Some p → is_live p = 0%nat).
Proof.
  pose proof (chan_reachable c Hc) as Hinv. split; [by apply ci_log|]. intros Hr.
  assert (queue c = [] ∧ n_senders c = 0) as [Hq Hn].
  { pose proof (ci_knows c Hinv) as Hk. destruct Hr as [Hr|Hr]; by rewrite Hr in Hk. }
  split; [by rewrite (ci_log c Hinv), Hq, app_nil_r|].
  intros i p Hi. destruct (decide (is_live p = 0%nat)) as [|Hl]; [done|exfalso].
  assert (is_live p = 1%nat) as Hl1 by (destruct p; cbn in *; lia).
  pose proof (live_pos c i p Hinv Hi Hl1). lia.
Qed.

(** ** Schedules *)
Inductive Act : Type :=
| ACallSend (i : nat) (m : T)
| ACallDrop (i : nat)
| ASender (i : nat)
| ACallRecv
| AReceiver.

Definition exec (a : Act) (c : Chan) : option Chan :=
  match a with
  | ACallSend i m =>
      match sender c !! i with Some SIdle => Some (with_sender c i (SCheck m)) | _ => None end
  | ACallDrop i =>
      match sender c !! i with Some SIdle => Some (with_sender c i SDec) | _ => None end
  | ASender i =>
      p ← sender c !! i;
      match send_op i p c with Some c => Some c | None => sender_drop_op i p c end
  | ACallRecv => match receiver c with RIdle => Some (with_receiver c RLock) | _ => None end
  | AReceiver => receiver_op (receiver c) c
  end.

Fixpoint run (acts : list Act) (c : Chan) : option Chan :=
  match acts with
  | [] => Some c
  | a :: acts => c ← exec a c; run acts c
  end.

Lemma exec_step a c c' : exec a c = Some c' → chan_step c c'.
Proof.
  destruct a as [i m|i|i| |]; cbn.
  - destruct (sender c !! i) as [[]|] eqn:E; try done. intros [= <-]. by apply st_call_send.
  - destruct (sender c !! i) as [[]|] eqn:E; try done. intros [= <-]. by apply st_call_drop.
  - destruct (sender c !! i) as [p|] eqn:E; [|done]. cbn.
    destruct (send_op i p c) eqn:Es.
    + intros [= <-]. by eapply st_send.
    + intros Hd. by eapply st_drop_op.
  - destruct (receiver c) eqn:E; try done. intros [= <-]. by apply st_call_recv; [|left].
  - apply st_recv.
Qed.

Lemma run_steps acts c c' : run acts c = Some c' → rtc chan_step c c'.
Proof.
  revert c. induction acts as [|a acts IH]; cbn; intros c; [intros [= <-]; apply rtc_refl|].
  destruct (exec a c) as [c1|] eqn:E; [|done]. cbn. intros Hr.
  eapply rtc_l; [by eapply exec_step|by apply IH].
Qed.
End channel.
Arguments Chan : clear implicits.
Arguments SenderPc : clear implicits.
Arguments ReceiverPc : clear implicits.
Arguments Act : clear implicits.

(** ** Concrete runs *)
(** One message goes through, the sender goes, the receiver learns about it. *)
Definition sample_chan : Chan Z :=
  mkChan [] ByReceiver 2 0 false (RRet None) [SGone] [5] [5].

Lemma sample_chan_reachable : rtc chan_step (channel (T:=Z)) sample_chan.
Proof.
  apply (run_steps ([ACallSend 0 5] ++ replicate 6 (ASender 0) ++ [ACallRecv]
                    ++ replicate 3 AReceiver ++ [ACallDrop 0] ++ replicate 3 (ASender 0)
                    ++ [ACallRecv] ++ replicate 3 AReceiver)).
  vm_compute. reflexivity.
Qed.

(** An instance. *)
Lemma channel_fifo_witness :
  received sample_chan = sent sample_chan
  ∧ ∀ i p, sender sample_chan !! i = Some p → is_live p = 0%nat.
Proof.
  apply (channel_fifo sample_chan sample_chan_reachable). by left.
Defined.

(** The receiver sleeps on the sequence number the last notification left. *)
Definition lost_chan : Chan Z := mkChan [] Nobody 1 0 false (CAsleep 1) [SGone] [] [].

(** A lost disconnection. The last sender can be dropped between the receiver's look at
    the count and its load of the sequence number; the notification
    is then over before the receiver sleeps, every sender is gone, and no step but
    a spurious return of the futex call is left: [recv] never returns. *)
Theorem recv_lost_disconnect :
  rtc chan_step (channel (T:=Z)) lost_chan
  ∧ ∀ c, chan_step lost_chan c → c = with_receiver lost_chan (CWait 1).
Proof.
  split.
  - apply (run_steps ([ACallRecv] ++ replicate 3 AReceiver ++ [ACallDrop 0]
                      ++ replicate 3 (ASender 0) ++ replicate 4 AReceiver)).
    vm_compute. reflexivity.
  - intros c Hstep.
    inversion Hstep as [? i p ? Hi Hop|? i p ? Hi Hop|? i m Hi|? i Hi|? i Hi|? ? Hop|? p Hr|? q Hr|? Hr];
      subst; try done.
    1-5: destruct i as [|[|i]]; cbn in Hi; simplify_eq; done.
    cbn in Hr. destruct Hr as [[= <-]|?]; [done|done].
Qed.
