(* ===== verification/ChanLive.v ===== *)
(** Progress of the [mpsc] channel (src/src/sync.rs, the system of Mpsc.v): once nobody calls again,
    the calls in progress end, and a receiver is left asleep only with an empty queue.

    The argument is the one the code makes with its condition variable: a message is pushed under the lock
    and announced by a change of [seq] after it, and the receiver reads [seq] under the
    lock, when it has found the queue empty. *)
From S2P Require Import Prelude Mpsc.

Section live.
Context {T : Type}.
Implicit Types (c : Chan T) (p : SenderPc T).

(** ** Announcements *)
(** Messages pushed whose announcement, the change of [seq], is still to come. *)
Definition pend p : nat := match p with SUnlock | SNotify => 1 | _ => 0 end.
(** Senders that have been dropped, or are about to wake the receiver for the last time. *)
Definition over p : nat := match p with SWakeAll | SGone => 1 | _ => 0 end.
Definition wakes p : bool := match p with SWake | SWakeAll => true | _ => false end.

Definition some_wakes c : Prop := ∃ i p, sender c !! i = Some p ∧ wakes p = true.

(** [b] of the announcements were made when the receiver read [seq]: at most those of the messages it
    had received, and [d] by dropped senders. *)
Definition read_at (d : Z) c (q : Z) : Prop :=
  ∃ b, 0 ≤ b ≤ Z.of_nat (length (received c)) + d ∧ q = wrap 32 b.

Definition waits_ok (d : Z) c (r : ReceiverPc T) : Prop :=
  match r with
  | CLoad => queue c = []
  | CUnlock q | CWait q | CSys q => read_at d c q
  | CAsleep q => read_at d c q ∧ (seq c = q ∨ some_wakes c)
  | _ => True
  end.

Record note (d : Z) c : Prop := {
  n_over : 0 ≤ d ≤ Z.of_nat (sum_list_with over (sender c));
  n_pend : (sum_list_with pend (sender c) ≤ length (sent c))%nat;
  n_seq : seq c = wrap 32 (Z.of_nat (length (sent c)) - Z.of_nat (sum_list_with pend (sender c)) + d);
  n_wait : waits_ok d c (receiver c);
}.

(** A sender moves. *)
Lemma note_move d d' c c' i p p' :
  note d c → sender c !! i = Some p → sender c' = <[i := p']> (sender c) →
  received c' = received c → receiver c' = receiver c →
  (receiver c = CLoad → queue c' = queue c) →
  (length (sent c) + pend p' ≤ length (sent c') + pend p)%nat →
  seq c' = wrap 32 (Z.of_nat (length (sent c')) - Z.of_nat (sum_list_with pend (sender c))
                    - Z.of_nat (pend p') + Z.of_nat (pend p) + d') →
  d ≤ d' ≤ d + Z.of_nat (over p') - Z.of_nat (over p) →
  (wakes p' = true ∨ seq c' = seq c ∧ wakes p = false ∨ ∀ q, receiver c ≠ CAsleep q) →
  note d' c'.
Proof.
  intros [H1 H2 H3 H4] Hi Hsd Hrc Hr Hq Hl Hs Hd Ha.
  pose proof (sum_list_with_insert pend _ i p p' Hi) as Hp. pose proof (sum_list_with_insert over _ i p p' Hi) as Ho.
  constructor; rewrite ?Hsd.
  - lia.
  - lia.
  - rewrite Hs. f_equal. lia.
  - assert (∀ q, read_at d c q → read_at d' c' q) as Hread.
    { intros q (b & Hb & ->). exists b. split; [rewrite Hrc; lia|done]. }
    rewrite Hr. destruct (receiver c) eqn:E; cbn in *; auto.
    + by rewrite Hq.
    + destruct H4 as [Hb Hw]. split; [auto|].
      destruct Ha as [Ha|[[Hsq Hp']|Ha]]; [| |by destruct (Ha q)].
      * right. exists i, p'. rewrite Hsd. split; [|done]. apply list_lookup_insert_eq. by eapply lookup_lt_Some.
      * destruct Hw as [<-|(j & x & Hj & Hx)]; [by left|right]. exists j, x.
        rewrite Hsd, list_lookup_insert_ne; [done|]. intros ->. congruence.
Qed.

(** The receiver moves. *)
Lemma note_receiver d c c' :
  note d c → sender c' = sender c → sent c' = sent c → seq c' = seq c → waits_ok d c' (receiver c') → note d c'.
Proof. intros [H1 H2 H3 H4] E1 E2 E3 Hw. constructor; rewrite ?E1, ?E2, ?E3; done. Qed.

Lemma note_cv_wake d c : note d c → note d (cv_wake c) ∧ ∀ q, receiver (cv_wake c) ≠ CAsleep q.
Proof.
  intros Hn. unfold cv_wake. destruct (receiver c) eqn:E; try (split; [done|congruence]).
  split; [|done]. apply (note_receiver d c); try done.
  pose proof (n_wait d c Hn) as Hw. rewrite E in Hw. apply Hw.
Qed.

Lemma send_op_note d c i p c' :
  chan_inv c → note d c → sender c !! i = Some p → send_op i p c = Some c' → note d c'.
Proof.
  intros Hinv Hn Hi Hop. pose proof (ci_send_at c i p Hinv Hi) as Hs.
  pose proof (n_seq d c Hn) as Hseq. destruct p; try done; cbn in Hop, Hs; simplify_eq.
  - apply (note_move d d c _ i (SCheck m) (if receiver_gone c then SIdle else SLock m)); try done;
      destruct (receiver_gone c); cbn; try lia; auto; rewrite Hseq; f_equal; lia.
  - destruct (owner c); simplify_eq. apply (note_move d d c _ i (SLock m) (SPush m)); cbn; auto; try lia.
    rewrite Hseq. f_equal. lia.
  - apply (note_move d d c _ i (SPush m) SUnlock); cbn; auto; rewrite ?length_app; cbn; try lia.
    + intros E. exfalso. pose proof (ci_recv c Hinv) as Hr. rewrite E in Hr. cbn in Hr.
      destruct Hs as [_ Hs]. specialize (Hs eq_refl). destruct Hr as [_ Hr]. rewrite Hr in Hs; done.
    + rewrite Hseq. f_equal. lia.
  - apply (note_move d d c _ i SUnlock SNotify); cbn; auto; try lia. rewrite Hseq. f_equal. lia.
  - apply (note_move d d c _ i SNotify SWake); cbn; auto; try lia.
    rewrite Hseq. unfold wrap. rewrite Zplus_mod_idemp_l. f_equal. lia.
  - destruct (note_cv_wake d c Hn) as [Hn' Ha]. pose proof (n_seq d _ Hn') as Hseq'.
    destruct (cv_wake_same c) as (_ & _ & _ & E4 & _).
    apply (note_move d d (cv_wake c) _ i SWake SIdle); cbn; auto; try lia; try congruence.
    rewrite Hseq'. f_equal. lia.
Qed.
Lemma sender_drop_note d c i p c' :
  note d c → sender c !! i = Some p → sender_drop_op i p c = Some c' → ∃ d', note d' c'.
Proof.
  intros Hn Hi Hop. pose proof (n_seq d c Hn) as Hseq. destruct p; try done; cbn in Hop; simplify_eq.
  - exists d. apply (note_move d d c _ i SDec (if decide (n_senders c = 1) then SNotifyAll else SGone)); cbn;
      rewrite ?app_nil_r; auto; destruct (decide _); cbn; try lia; auto; rewrite Hseq; f_equal; lia.
  - exists (d + 1). apply (note_move d (d + 1) c _ i SNotifyAll SWakeAll); cbn; auto; try lia.
    rewrite Hseq. unfold wrap. rewrite Zplus_mod_idemp_l. f_equal. lia.
  - exists d. destruct (note_cv_wake d c Hn) as [Hn' Ha]. pose proof (n_seq d _ Hn') as Hseq'.
    destruct (cv_wake_same c) as (_ & _ & _ & E4 & _).
    apply (note_move d d (cv_wake c) _ i SWakeAll SGone); cbn; auto; try lia; try congruence.
    rewrite Hseq'. f_equal. lia.
Qed.

(** The receiver reads [seq] when it has received all that was sent. *)
Lemma read_now d c : chan_inv c → note d c → queue c = [] → read_at d c (seq c).
Proof.
  intros Hinv [H1 H2 H3 _] Hq. exists (Z.of_nat (length (sent c)) - Z.of_nat (sum_list_with pend (sender c)) + d).
  split; [|done]. rewrite (ci_log c Hinv), Hq, app_nil_r in *. lia.
Qed.

Lemma receiver_op_note d c c' :
  chan_inv c → note d c → receiver_op (receiver c) c = Some c' → note d c'.
Proof.
  intros Hinv Hn Hop. pose proof (n_wait d c Hn) as Hw. pose proof (ci_knows c Hinv) as Hk.
  pose proof (read_now d c Hinv Hn) as Hnow. unfold receiver_op in Hop.
  destruct (receiver c) eqn:E; cbn in Hop, Hw, Hk; try done; unfold pop_front in Hop; repeat case_match;
    simplify_eq; apply (note_receiver d c); cbn; auto.
Qed.

Lemma chan_step_note d c c' : chan_step c c' → chan_inv c → note d c → ∃ d', note d' c'.
Proof.
  intros Hstep Hinv Hn. pose proof (n_seq d c Hn) as Hseq.
  assert (∀ i x x', sender c !! i = Some x → pend x = pend x' → over x = over x' → wakes x = false →
            note d (with_sender c i x')) as Hmove.
  { intros i x x' Hi E1 E2 E3. apply (note_move d d c _ i x x'); cbn; auto; try lia. rewrite Hseq. f_equal. lia. }
  destruct Hstep as [c i p c' Hi Hop|c i p c' Hi Hop|c i m Hi|c i Hi|c i Hi|c c' Hop|c p Hr Hp|c q Hr|c Hr].
  - exists d. by eapply send_op_note.
  - by eapply sender_drop_note.
  - exists d. by eapply Hmove.
  - exists d. by eapply Hmove.
  - exists d. destruct Hn as [H1 H2 H3 H4]. constructor; cbn; rewrite ?sum_list_with_app; cbn; try lia.
    + rewrite H3. f_equal. lia.
    + destruct (receiver c); cbn in *; try done. destruct H4 as [Hb Hw]. split; [done|].
      destruct Hw as [?|(j & x & Hj & Hx)]; [by left|right]. exists j, x. split; [by apply lookup_app_l_Some|done].
  - exists d. by eapply receiver_op_note.
  - exists d. apply (note_receiver d c); try done. by destruct Hp as [->| ->].
  - exists d. apply (note_receiver d c); try done. pose proof (n_wait d c Hn) as Hw.
    destruct Hr as [Hr|Hr]; rewrite Hr in Hw; apply Hw.
  - exists d. by apply (note_receiver d c).
Qed.

Lemma note_reachable c : rtc chan_step channel c → ∃ d, note d c.
Proof.
  intros Hc. apply (rtc_ind_r (λ c, ∃ d, note d c) channel) in Hc; [done| |].
  - exists 0. by constructor.
  - intros x y Hx Hxy [d Hd]. eapply chan_step_note; [done|by apply chan_reachable|done].
Qed.

(** ** Progress *)
(** The steps of the calls already made, when the kernel never returns early. *)
Inductive chan_quiet : Chan T → Chan T → Prop :=
| cq_send c i p c' : sender c !! i = Some p → send_op i p c = Some c' → chan_quiet c c'
| cq_drop c i p c' : sender c !! i = Some p → sender_drop_op i p c = Some c' → chan_quiet c c'
| cq_recv c c' : receiver_op (receiver c) c = Some c' → chan_quiet c c'.

Lemma chan_quiet_step c c' : chan_quiet c c' → chan_step c c'.
Proof. destruct 1; [by eapply st_send|by eapply st_drop_op|by apply st_recv]. Qed.

Definition sender_todo p : nat :=
  match p with
  | SCheck _ => 6 | SLock _ => 5 | SPush _ => 4 | SUnlock => 3 | SNotify => 2 | SWake => 1
  | SDec => 3 | SNotifyAll => 2 | SWakeAll => 1 | SIdle | SGone => 0
  end.

Definition recv_todo (r : ReceiverPc T) : nat :=
  match r with
  | RIdle | RGone => 0 | RRet _ | TRet _ => 1 | TCheck => 2 | TPop => 3 | TLock => 4
  | _ => 2
  end.

(** How far a receiver is from sleeping, as long as nobody announces anything. *)
Definition recv_rank (k : Z) (r : ReceiverPc T) : nat :=
  match r with
  | CUnlock q => if decide (k = q) then 5 else 12
  | CSys q => if decide (k = q) then 3 else 11
  | CWait q => if decide (k = q) then 4 else 10
  | CRelock | RLock => 9
  | RPop => 8
  | RCheck => 7
  | CLoad => 6
  | _ => 0
  end.

Definition chan_todo c : nat := sum_list_with sender_todo (sender c) + recv_todo (receiver c).
Definition chan_work c : nat := chan_todo c * 13 + recv_rank (seq c) (receiver c).

Lemma recv_rank_bound k r : (recv_rank k r < 13)%nat.
Proof. destruct r; cbn; repeat case_decide; lia. Qed.

Lemma chan_work_bound c : (chan_work c ≤ (6 * length (sender c) + 4) * 13 + 12)%nat.
Proof.
  pose proof (recv_rank_bound (seq c) (receiver c)). unfold chan_work, chan_todo.
  pose proof (sum_le_mul sender_todo 6 (sender c)) as Hs.
  assert (sum_list_with sender_todo (sender c) ≤ 6 * length (sender c))%nat by (apply Hs; intros []; cbn; lia).
  assert (recv_todo (receiver c) ≤ 4)%nat by (destruct (receiver c); cbn; lia). lia.
Qed.

Lemma cv_wake_todo c : recv_todo (receiver (cv_wake c)) = recv_todo (receiver c).
Proof. unfold cv_wake. destruct (receiver c) eqn:E; cbn; by rewrite ?E. Qed.

Lemma send_work c c' i p :
  sender c !! i = Some p → send_op i p c = Some c' ∨ sender_drop_op i p c = Some c' →
  (chan_todo c' < chan_todo c)%nat.
Proof.
  intros Hi Hop. assert (∀ x, _) as Hw by exact (λ x, sum_list_with_insert sender_todo _ i p x Hi).
  destruct (cv_wake_same c) as (_ & _ & _ & E4 & _). pose proof (cv_wake_todo c) as Ek. unfold chan_todo.
  destruct Hop as [Hop|Hop]; destruct p; try done; cbn in Hop; repeat case_match; simplify_eq;
    cbn [sender receiver with_sender with_owner push_back bump_seq add_senders];
    rewrite ?app_nil_r, ?Ek, ?E4;
    match goal with |- context [<[i:=?x]> _] => specialize (Hw x) end; cbn in Hw; lia.
Qed.

Lemma recv_work c c' : receiver_op (receiver c) c = Some c' → (chan_work c' < chan_work c)%nat.
Proof.
  intros Hop. apply lex_lt; [apply recv_rank_bound|]. unfold chan_todo, receiver_op in *.
  destruct (receiver c) eqn:E; cbn in Hop; try done; unfold pop_front in Hop; repeat case_match; simplify_eq; cbn;
    repeat case_decide; try done; lia.
Qed.

Lemma chan_quiet_work c c' : chan_quiet c c' → (chan_work c' < chan_work c)%nat.
Proof.
  destruct 1 as [c i p c' Hi Hop|c i p c' Hi Hop|c c' Hop]; [| |by apply recv_work].
  all: apply lex_lt; [apply recv_rank_bound|left; eapply send_work; eauto].
Qed.

(** At rest no sender is in a call, and the receiver is outside or asleep on an empty queue. *)
Definition chan_rest c : Prop :=
  (∀ i p, sender c !! i = Some p → p = SIdle ∨ p = SGone)
  ∧ match receiver c with
    | RIdle | RGone => True
    | CAsleep _ => Z.of_nat (length (sent c) + length (sender c)) < 2 ^ 32 → queue c = []
    | _ => False
    end.

(** The owner of the lock can step. *)
Lemma chan_owner_quiet c : chan_inv c → owner c ≠ Nobody → ∃ c', chan_quiet c c'.
Proof.
  intros Hinv Ho. destruct (owner c) as [| |i] eqn:Eo; [done| |].
  - apply (ci_recv c Hinv) in Eo. destruct (receiver c) eqn:E; try done.
    all: eexists; apply cq_recv; rewrite E; reflexivity.
  - apply (ci_send c Hinv) in Eo as (p & Hi & Hp). destruct p; try done; eexists; by eapply cq_send.
Qed.

Lemma sender_quiet c i p :
  chan_inv c → sender c !! i = Some p → (0 < sender_todo p)%nat → ∃ c', chan_quiet c c'.
Proof.
  intros Hinv Hi Hp. destruct (owner c) as [| |j] eqn:Eo; [|apply chan_owner_quiet; congruence..].
  destruct p; cbn in Hp; try lia; eexists; try (by eapply cq_drop); eapply cq_send; try done; cbn; by rewrite ?Eo.
Qed.

Lemma receiver_quiet c :
  chan_inv c → (0 < recv_todo (receiver c))%nat → (∀ q, receiver c ≠ CAsleep q) → ∃ c', chan_quiet c c'.
Proof.
  intros Hinv Hr Ha. destruct (owner c) as [| |j] eqn:Eo; [|apply chan_owner_quiet; congruence..].
  destruct (receiver c) eqn:E; cbn in Hr; try lia; try (by destruct (Ha q)).
  all: eexists; apply cq_recv; rewrite E; unfold receiver_op; cbn; rewrite ?Eo; reflexivity.
Qed.

(** A receiver asleep when nobody is about to announce or to wake has received everything. *)
Lemma asleep_empty d c q :
  chan_inv c → note d c → (∀ i p, sender c !! i = Some p → p = SIdle ∨ p = SGone) →
  receiver c = CAsleep q → Z.of_nat (length (sent c) + length (sender c)) < 2 ^ 32 → queue c = [].
Proof.
  intros Hinv [H1 H2 H3 H4] Hs Hr Hl. rewrite Hr in H4. destruct H4 as [(b & Hb & Hq) Hw].
  destruct Hw as [Hw|(i & p & Hi & Hp)]; [|by destruct (Hs i p Hi) as [-> | ->]].
  assert (sum_list_with pend (sender c) = 0%nat) as Hz.
  { destruct (decide (sum_list_with pend (sender c) = 0%nat)) as [|Hne]; [done|].
    assert (0 < sum_list_with pend (sender c))%nat as (i & p & Hi & Hp)%sum_pos by lia.
    destruct (Hs i p Hi) as [-> | ->]; cbn in Hp; lia. }
  assert (sum_list_with over (sender c) ≤ length (sender c))%nat by (apply sum_le_length; intros []; cbn; lia).
  pose proof (f_equal length (ci_log c Hinv)) as Hlog. rewrite length_app in Hlog.
  rewrite Hz in H3. rewrite Hw, Hq, !wrap_small in H3 by lia.
  apply nil_length_inv. lia.
Qed.

Lemma chan_quiet_live c : chan_inv c → (∃ d, note d c) → chan_rest c ∨ ∃ c', chan_quiet c c'.
Proof.
  intros Hinv [d Hn]. destruct (decide (sum_list_with sender_todo (sender c) = 0%nat)) as [Hz|Hz].
  - assert (∀ i p, sender c !! i = Some p → p = SIdle ∨ p = SGone) as Hs.
    { intros i p Hi. destruct (decide (sender_todo p = 0%nat)); [destruct p; auto; done|exfalso].
      assert (0 < sum_list_with sender_todo (sender c))%nat; [|lia]. apply sum_pos. exists i, p. split; [done|lia]. }
    pose proof (receiver_quiet c Hinv) as Hq. pose proof (asleep_empty d c) as He.
    destruct (receiver c) eqn:E; try (right; apply Hq; cbn; [lia|done]);
      left; split; try done; rewrite E; eauto.
  - right. assert (0 < sum_list_with sender_todo (sender c))%nat as (i & p & Hi & Hp)%sum_pos by lia.
    by eapply sender_quiet.
Qed.

(** C8: progress of the channel. In any reachable state, let nobody call again and the kernel never return early.
    Then every schedule ends, within a number of steps linear in the number of senders,
    and stops only when every [send], [drop] and [recv] has returned, except a [recv] that sleeps while the queue
    is empty (as long as fewer than [2^32] messages and senders were made): a message is never left
    in the queue with the receiver asleep. (That the last sender is gone is not always told to a sleeping
    receiver: [recv_lost_disconnect] of Mpsc.v.) *)
Theorem channel_progress c (Hc : rtc chan_step channel c) :
  settles chan_quiet chan_rest ((6 * length (sender c) + 4) * 13 + 12) c.
Proof.
  apply (settling _ (λ x, chan_inv x ∧ ∃ d, note d x) _ chan_work).
  - intros x y [Hx [d Hd]] Hxy. apply chan_quiet_work in Hxy as Hw. apply chan_quiet_step in Hxy.
    split_and!; [by eapply chan_step_inv|by eapply chan_step_note|done].
  - intros x [Hx Hd]. by apply chan_quiet_live.
  - split; [by apply chan_reachable|by apply note_reachable].
  - apply chan_work_bound.
Qed.
End live.

(** ** The receiver sleeps while a sender is about to announce its message *)
Definition sample_live : Chan Z := mkChan [5] Nobody 0 1 false (CAsleep 0) [SNotify] [5] [].

Lemma sample_live_reachable : rtc chan_step (channel (T:=Z)) sample_live.
Proof.
  apply (run_steps ([ACallRecv] ++ replicate 7 AReceiver ++ [ACallSend 0 5] ++ replicate 4 (ASender 0))).
  vm_compute. reflexivity.
Qed.

(** Witness of C8. *)
Lemma channel_progress_witness : ∃ c, rtc chan_quiet sample_live c ∧ chan_rest c.
Proof. exact (proj2 (proj2 (channel_progress sample_live sample_live_reachable))). Defined.
