(* ===== verification/ChanSpec.v ===== *)
(** The contract of the [mpsc] channel (src/src/sync.rs) and its refinement by the code over the futex mutex.

    The contract is a queue with a set of live senders and a receiver, on which each operation of a handle
    is one step.  Every history of the implementation (messages accepted and refused, messages
    delivered, clones and drops, the answers of [try_recv]) is one of the contract, and every history of the contract in which nobody
    sends after the receiver is gone is one of the implementation. *)
From S2P Require Import Prelude Mutex Lock LockSpec.
From S2P Require Import Mpsc.

Section spec.
Context {T : Type}.

Inductive ChanEv : Type :=
| Sent (i : nat) (m : T)        (* send returns Ok *)
| Refused (i : nat) (m : T)     (* send returns Err(SendError(m)) *)
| Cloned (i : nat)
| SenderDropped (i : nat)
| Received (m : T)              (* recv, try_recv or the iterator gives a message *)
| Disconnected                  (* recv or try_recv reports the end *)
| NothingYet                    (* try_recv returns Err(Empty) *)
| ReceiverDropped.

(** * The contract *)
Record ChanSpec := mkChanSpec { sp_queue : list T; sp_live : list bool; sp_receiver : bool }.

(** A [send] that began before the receiver was dropped may still be accepted afterwards ([late]). *)
Inductive spec_step (late : bool) : ChanSpec → ChanEv → ChanSpec → Prop :=
| sp_send q l r i m :
    l !! i = Some true → late || r = true →
    spec_step late (mkChanSpec q l r) (Sent i m) (mkChanSpec (q ++ [m]) l r)
| sp_refuse q l i m :
    l !! i = Some true → spec_step late (mkChanSpec q l false) (Refused i m) (mkChanSpec q l false)
| sp_clone q l r i :
    l !! i = Some true → spec_step late (mkChanSpec q l r) (Cloned i) (mkChanSpec q (l ++ [true]) r)
| sp_drop q l r i :
    l !! i = Some true →
    spec_step late (mkChanSpec q l r) (SenderDropped i) (mkChanSpec q (<[i := false]> l) r)
| sp_receive q l m :
    spec_step late (mkChanSpec (m :: q) l true) (Received m) (mkChanSpec q l true)
| sp_end l :
    true ∉ l → spec_step late (mkChanSpec [] l true) Disconnected (mkChanSpec [] l true)
| sp_empty l :
    true ∈ l → spec_step late (mkChanSpec [] l true) NothingYet (mkChanSpec [] l true)
| sp_drop_receiver q l :
    spec_step late (mkChanSpec q l true) ReceiverDropped (mkChanSpec q l false).

Inductive spec_run (late : bool) (a : ChanSpec) : list ChanEv → ChanSpec → Prop :=
| sr_nil : spec_run late a [] a
| sr_snoc h a' e a'' : spec_run late a h a' → spec_step late a' e a'' → spec_run late a (h ++ [e]) a''.

(** [channel()] *)
Definition spec_start : ChanSpec := mkChanSpec [] [true] true.

(** * What a step of the implementation shows *)
Definition send_event (i : nat) (p : SenderPc T) (c : Chan T) : list ChanEv :=
  match p with
  | SCheck m => if receiver_gone c then [Refused i m] else []
  | SPush m => [Sent i m]
  | SDec => [SenderDropped i]
  | _ => []
  end.

Definition recv_event (p : ReceiverPc T) (c : Chan T) : list ChanEv :=
  match p with
  | RPop | TPop => match queue c with m :: _ => [Received m] | [] => [] end
  | RCheck => if decide (n_senders c = 0) then [Disconnected] else []
  | TCheck => [if decide (n_senders c = 0) then Disconnected else NothingYet]
  | _ => []
  end.

(** The channel with the history it has shown. *)
Inductive log_step : Chan T * list ChanEv → Chan T * list ChanEv → Prop :=
| ls_send c h i p c' :
    sender c !! i = Some p → send_op i p c = Some c' ∨ sender_drop_op i p c = Some c' →
    log_step (c, h) (c', h ++ send_event i p c)
| ls_recv c h c' :
    receiver_op (receiver c) c = Some c' → log_step (c, h) (c', h ++ recv_event (receiver c) c)
| ls_call c h i p :
    sender c !! i = Some SIdle → (∃ m, p = SCheck m) ∨ p = SDec → log_step (c, h) (with_sender c i p, h)
| ls_clone c h i :
    sender c !! i = Some SIdle → log_step (c, h) (add_senders c 1 [SIdle], h ++ [Cloned i])
| ls_call_recv c h p :
    receiver c = RIdle → p = RLock ∨ p = TLock → log_step (c, h) (with_receiver c p, h)
| ls_early c h q :
    receiver c = CAsleep q ∨ receiver c = CSys q → log_step (c, h) (with_receiver c (CWait q), h)
| ls_drop_receiver c h :
    receiver c = RIdle →
    log_step (c, h) (mkChan (queue c) (owner c) (seq c) (n_senders c) true RGone
                       (sender c) (sent c) (received c), h ++ [ReceiverDropped]).

Definition log_owner (x : Chan T * list ChanEv) : option nat := chan_owner x.1.

(** The history does not influence the channel. *)
Lemma log_step_chan x y : log_step x y → chan_step x.1 y.1.
Proof.
  destruct 1 as [c h i p c' Hi [Hop|Hop]|c h c' Hop|c h i p Hi [[m ->]| ->]|c h i Hi|c h p Hr Hp|c h q Hq|c h Hr]; cbn.
  - by eapply st_send.
  - by eapply st_drop_op.
  - by apply st_recv.
  - by apply st_call_send.
  - by apply st_call_drop.
  - by eapply st_clone.
  - by apply st_call_recv.
  - by eapply st_early.
  - by apply st_drop_receiver.
Qed.

Lemma chan_step_log c c' h : chan_step c c' → ∃ h', log_step (c, h) (c', h ++ h').
Proof.
  assert (∀ x : list ChanEv, x = x ++ []) as Hnil by (intros; by rewrite app_nil_r).
  destruct 1 as [c i p c' Hi Hop|c i p c' Hi Hop|c i m Hi|c i Hi|c i Hi|c c' Hop|c p Hr Hp|c q Hq|c Hr].
  - eexists. eapply ls_send; eauto.
  - eexists. eapply ls_send; eauto.
  - exists []. rewrite <-Hnil. eapply ls_call; eauto.
  - exists []. rewrite <-Hnil. eapply ls_call; eauto.
  - eexists. by eapply ls_clone.
  - eexists. by eapply ls_recv.
  - exists []. rewrite <-Hnil. by eapply ls_call_recv.
  - exists []. rewrite <-Hnil. by eapply ls_early.
  - eexists. by eapply ls_drop_receiver.
Qed.

Lemma log_reachable x : rtc log_step (channel, []) x → rtc chan_step channel x.1.
Proof. revert x. apply rtc_ind_r; [done|]. intros x y _ Hs IH. eapply rtc_r; [done|]. by apply log_step_chan. Qed.

Definition log_put (o : option nat) (x : Chan T * list ChanEv) : Chan T * list ChanEv := (chan_put o x.1, x.2).
Definition log_inside (x : Chan T * list ChanEv) (i : nat) : bool := chan_inside x.1 i.

(** The kind of a step of the channel, with the event it shows. *)
Lemma log_kind c c' h h' (R : Chan T → Chan T → Prop) :
  client_kind R chan_owner chan_put chan_inside c c' →
  (∀ o, R (chan_put o c) (chan_put o c') → log_step (chan_put o c, h) (chan_put o c', h')) →
  client_kind log_step log_owner log_put log_inside (c, h) (c', h').
Proof. intros Hk Hs. by eapply client_kind_impl. Qed.

#[export] Instance log_lock_client : LockClient log_step log_owner log_put log_inside (channel, []).
Proof.
  pose proof (channel_lock_client (T := T)) as [H1 H2 H3 H4 H5 H6 H7].
  split; [apply H1|apply H2|by intros [c h]; unfold log_put, log_owner; cbn; rewrite H3|intros o [c h]; apply H4
         |by intros o o' [c h]|intros o [c h]; apply H6|].
  intros x y Hs.
  destruct Hs as [c h i p c' Hi [Hop|Hop]|c h c' Hop|c h i p Hi [[m ->]| ->]|c h i Hi|c h p Hr Hp|c h q Hq|c h Hr].
  - apply (log_kind _ _ _ _ _ (send_kind c c' i p Hi Hop)). intros o Ho. apply (ls_send (chan_put o c)); auto.
  - apply (log_kind _ _ _ _ _ (drop_kind c c' i p Hi Hop)). intros o Ho. apply (ls_send (chan_put o c)); auto.
  - apply (log_kind _ _ _ _ _ (receiver_kind c c' Hop)). intros o Ho. by apply (ls_recv (chan_put o c)).
  - apply (log_kind _ _ _ _ _ (H7 _ _ (st_call_send c i m Hi))). intros o _. apply (ls_call (chan_put o c)); eauto.
  - apply (log_kind _ _ _ _ _ (H7 _ _ (st_call_drop c i Hi))). intros o _. apply (ls_call (chan_put o c)); eauto.
  - apply (log_kind _ _ _ _ _ (H7 _ _ (st_clone c i Hi))). intros o _. by apply (ls_clone (chan_put o c)).
  - apply (log_kind _ _ _ _ _ (H7 _ _ (st_call_recv c p Hr Hp))). intros o _. by apply (ls_call_recv (chan_put o c)).
  - apply (log_kind _ _ _ _ _ (H7 _ _ (st_early c q Hq))). intros o _. by apply (ls_early (chan_put o c)).
  - apply (log_kind _ _ _ _ _ (H7 _ _ (st_drop_receiver c Hr))). intros o _. by apply (ls_drop_receiver (chan_put o c)).
Qed.

(** * Simulation *)
Implicit Types (c : Chan T) (p : SenderPc T).
Definition live (p : SenderPc T) : bool := bool_decide (is_live p = 1%nat).

Definition view (c : Chan T) : ChanSpec := mkChanSpec (queue c) (live <$> sender c) (negb (receiver_gone c)).

(** The flag says whether the receiver was dropped. *)
Definition gone_ok (c : Chan T) : Prop := receiver_gone c = true ↔ receiver c = RGone.

(** A step of a sender leaves the receiver where it is, or wakes it. *)
Lemma sender_receiver c c' i p :
  send_op i p c = Some c' ∨ sender_drop_op i p c = Some c' →
  receiver_gone c' = receiver_gone c ∧ (receiver c' = RGone ↔ receiver c = RGone).
Proof.
  intros [Hop|Hop]; destruct p; simplify_option_eq; try done; try (destruct (owner c); simplify_eq; done);
    unfold cv_wake; by destruct (receiver c) eqn:E; cbn; rewrite ?E.
Qed.

(** A step of the receiver is one of a receiver that is there. *)
Lemma receiver_there c c' :
  receiver_op (receiver c) c = Some c' →
  receiver_gone c' = receiver_gone c ∧ receiver c ≠ RGone ∧ receiver c' ≠ RGone.
Proof.
  intros Hop. unfold receiver_op in Hop. destruct (receiver c) eqn:E; cbn in Hop; try done.
  all: try (destruct (owner c); simplify_eq; done).
  all: unfold pop_front in Hop; try (destruct (queue c)); simplify_eq; cbn; try case_decide; done.
Qed.

Lemma chan_step_gone c c' : chan_step c c' → gone_ok c → gone_ok c'.
Proof.
  intros Hs Hg. unfold gone_ok in *.
  destruct Hs as [c i p c' Hi Hop|c i p c' Hi Hop|c i m Hi|c i Hi|c i Hi|c c' Hop|c p Hr Hp|c q Hq|c Hr]; cbn; try done.
  - destruct (sender_receiver c c' i p (or_introl Hop)) as [-> ->]. done.
  - destruct (sender_receiver c c' i p (or_intror Hop)) as [-> ->]. done.
  - destruct (receiver_there c c' Hop) as (-> & ? & ?). naive_solver.
  - rewrite Hg, Hr. by destruct Hp as [-> | ->].
  - rewrite Hg. by destruct Hq as [-> | ->].
Qed.

Lemma gone_reachable c : rtc chan_step channel c → gone_ok c.
Proof. revert c. apply rtc_ind_r; [done|]. intros c c' _ Hs. by apply chan_step_gone. Qed.

(** A sender that stays live, or leaves. *)
Lemma view_sender c i p p' :
  sender c !! i = Some p →
  live <$> <[i := p']> (sender c) = if decide (live p' = live p) then live <$> sender c else <[i := live p']> (live <$> sender c).
Proof.
  intros Hi. rewrite list_fmap_insert. case_decide as E; [|done].
  rewrite E. apply list_insert_id. by rewrite list_lookup_fmap, Hi.
Qed.

Lemma live_senders c : chan_inv c → n_senders c = 0 ↔ true ∉ live <$> sender c.
Proof.
  intros [_ Hc _ _ _]. rewrite Hc. split.
  - intros H0 (p & Hp & [i Hi]%list_elem_of_lookup)%list_elem_of_fmap.
    symmetry in Hp. apply bool_decide_eq_true in Hp.
    assert (0 < sum_list_with is_live (sender c))%nat; [|lia]. apply sum_pos. exists i, p. split; [done|lia].
  - intros Hno. destruct (decide (sum_list_with is_live (sender c) = 0)%nat) as [->|Hne]; [done|].
    destruct Hno. destruct (proj1 (sum_pos is_live (sender c))) as (i & p & Hi & Hp); [lia|].
    apply list_elem_of_fmap. exists p. split; [|by eapply list_elem_of_lookup_2].
    symmetry. apply bool_decide_eq_true. destruct p; cbn in *; lia.
Qed.

Lemma lookup_live c i p : sender c !! i = Some p → is_live p = 1%nat → (live <$> sender c) !! i = Some true.
Proof. intros Hi Hl. rewrite list_lookup_fmap, Hi. cbn. unfold live. by rewrite bool_decide_eq_true_2. Qed.

(** What a step shows is nothing, or one step of the contract. *)
Definition follows c h (x : Chan T * list ChanEv) : Prop :=
  x.2 = h ∧ view x.1 = view c ∨ ∃ e, x.2 = h ++ [e] ∧ spec_step true (view c) e (view x.1).

Lemma follows_quiet c h c' : view c' = view c → follows c h (c', h ++ []).
Proof. intros E. left. by rewrite app_nil_r. Qed.

Lemma send_sim c h i p c' :
  sender c !! i = Some p → send_op i p c = Some c' ∨ sender_drop_op i p c = Some c' →
  follows c h (c', h ++ send_event i p c).
Proof.
  intros Hi Hop. pose proof (view_sender c i p) as Hv.
  assert (∀ p', live p' = live p → live <$> <[i := p']> (sender c) = live <$> sender c) as Hsame.
  { intros p' E. by rewrite Hv, decide_True. }
  destruct p; cbn [send_op sender_drop_op send_event] in *; destruct Hop as [Hop|Hop]; try done; simplify_eq.
  - destruct (receiver_gone c) eqn:Eg; [right|by apply follows_quiet; unfold view; cbn; rewrite Hsame].
    exists (Refused i m). split; [done|]. unfold view; cbn. rewrite Hsame, Eg by done.
    apply sp_refuse. by eapply lookup_live.
  - destruct (owner c); simplify_eq. apply follows_quiet. unfold view; cbn. by rewrite Hsame.
  - right. exists (Sent i m). split; [done|]. unfold view; cbn. rewrite Hsame by done.
    apply sp_send; [by eapply lookup_live|done].
  - apply follows_quiet. unfold view; cbn. by rewrite Hsame.
  - apply follows_quiet. unfold view; cbn. by rewrite Hsame.
  - apply follows_quiet. unfold view; cbn. rewrite <-(Hsame SIdle) by done.
    by unfold cv_wake; destruct (receiver c).
  - right. exists (SenderDropped i). split; [done|]. unfold view; cbn. rewrite app_nil_r, Hv by done.
    rewrite decide_False by (by case_decide). replace (live _) with false by (by case_decide).
    apply sp_drop. by eapply lookup_live.
  - apply follows_quiet. unfold view; cbn. by rewrite Hsame.
  - apply follows_quiet. unfold view; cbn. rewrite <-(Hsame SGone) by done.
    by unfold cv_wake; destruct (receiver c).
Qed.

Lemma recv_sim c h c' :
  chan_inv c → gone_ok c → receiver_op (receiver c) c = Some c' →
  follows c h (c', h ++ recv_event (receiver c) c).
Proof.
  intros Hinv Hg Hop. destruct (receiver_there c c' Hop) as (_ & Hne & _).
  assert (receiver_gone c = false) as Eg by (apply not_true_is_false; intros Ht; by apply Hg in Ht).
  pose proof (ci_knows c Hinv) as Hk. pose proof (live_senders c Hinv) as Hn.
  assert (∀ f g, let c' := pop_front c f g in
            follows c h (c', h ++ match queue c with m :: _ => [Received m] | [] => [] end)) as Hpop.
  { intros f g. unfold pop_front. destruct (queue c) as [|m q] eqn:Eq; cbn.
    - apply follows_quiet. by unfold view; cbn; rewrite Eq.
    - right. exists (Received m). split; [done|]. unfold view. rewrite Eq, Eg. apply sp_receive. }
  assert (∀ r, follows c h (with_receiver c r, h ++ [])) as Hquiet by (intros; by apply follows_quiet).
  unfold receiver_op in Hop. destruct (receiver c) eqn:E; cbn in Hop; cbn [recv_event recv_knows] in *; try done; simplify_eq.
  all: try (by apply Hpop); try (by apply follows_quiet); try (by destruct (owner c); simplify_eq; apply follows_quiet).
  - case_decide; [|by apply Hquiet]. right. exists Disconnected. split; [done|].
    unfold view; cbn. rewrite Hk, Eg. apply sp_end. by apply Hn.
  - right. exists (if decide (n_senders c = 0) then Disconnected else NothingYet). split; [done|].
    unfold view; cbn. rewrite Hk, Eg. case_decide as E0; constructor; [by apply Hn|].
    destruct (decide (true ∈ live <$> sender c)) as [|Hno]; [done|]. by apply Hn in Hno.
Qed.

Lemma log_step_sim c h x :
  chan_inv c → gone_ok c → log_step (c, h) x → follows c h x.
Proof.
  intros Hinv Hg Hs. inversion Hs as [? ? i p c' Hi Hop|? ? c' Hop|? ? i p Hi Hp|? ? i Hi|? ? p Hr Hp|? ? q Hq|? ? Hr]; subst.
  - by apply send_sim.
  - by apply recv_sim.
  - left. split; [done|]. unfold view; cbn. rewrite (view_sender c i SIdle), decide_True; [done| |done].
    by destruct Hp as [[m ->]| ->].
  - right. exists (Cloned i). split; [done|]. unfold view; cbn. rewrite fmap_app. apply sp_clone. by eapply lookup_live.
  - by left.
  - by left.
  - right. exists ReceiverDropped. split; [done|]. unfold view; cbn.
    assert (receiver_gone c = false) as -> by (apply not_true_is_false; intros Ht; apply Hg in Ht; congruence). constructor.
Qed.

Lemma log_run_sim x : rtc log_step (channel, []) x → spec_run true spec_start x.2 (view x.1).
Proof.
  revert x. apply rtc_ind_r; [constructor|]. intros [c h] x Hx Hs IH. apply log_reachable in Hx; cbn in *.
  destruct (log_step_sim c h x (chan_reachable c Hx) (gone_reachable c Hx) Hs) as [[-> ->]|(e & -> & He)]; [done|].
  by econstructor.
Qed.

(** * Realisation *)
(** A channel at which nobody is in the middle of an operation. *)
Record resting c : Prop := {
  re_owner : owner c = Nobody;
  re_receiver : receiver c = if receiver_gone c then RGone else RIdle;
  re_senders : ∀ i p, sender c !! i = Some p → p = SIdle ∨ p = SGone;
}.

Lemma resting_live c i : resting c → (live <$> sender c) !! i = Some true → sender c !! i = Some SIdle.
Proof.
  intros Hc. rewrite list_lookup_fmap. destruct (sender c !! i) as [p|] eqn:Hi; [|done].
  by destruct (re_senders c Hc i p Hi) as [-> | ->].
Qed.

Lemma insert_resting (l : list (SenderPc T)) i p :
  (∀ j q, l !! j = Some q → q = SIdle ∨ q = SGone) → p = SIdle ∨ p = SGone →
  ∀ j q, <[i := p]> l !! j = Some q → q = SIdle ∨ q = SGone.
Proof. intros Hl Hp j q [(_ & <- & _)|[_ Hj]]%list_lookup_insert_Some; eauto. Qed.

(** The state after an operation. *)
Ltac chan_eval :=
  cbv [with_sender with_owner with_receiver push_back bump_seq add_senders cv_wake pop_front]; cbn;
  rewrite ?app_nil_r, ?list_insert_insert_eq.

(** One operation of sender [i], which is at [p]; one operation of the receiver. *)
Ltac sender_go i p :=
  eapply rtc_l; [eapply (ls_send _ _ i p);
    [by apply list_lookup_insert_eq|first [left; reflexivity|right; reflexivity]]|]; chan_eval.
Ltac receiver_go := eapply rtc_l; [eapply ls_recv; cbn; reflexivity|]; chan_eval.

(** The contract's step from a resting channel, made in one go. *)
Lemma spec_step_real c h e a :
  chan_inv c → resting c → spec_step false (view c) e a →
  ∃ c', rtc log_step (c, h) (c', h ++ [e]) ∧ resting c' ∧ view c' = a.
Proof.
  intros Hinv Hrest Hs. pose proof (live_senders c Hinv) as Hn. pose proof (λ i, resting_live c i Hrest) as Hidle.
  destruct c as [q o sq n gone rc snd st rv]. destruct Hrest as [Ho Hr Hsnd]. cbn in *. subst o rc.
  unfold view in Hs; cbn in Hs. inversion Hs as [? ? ? i m Hi Hlate|? ? i m Hi|? ? ? i Hi|? ? ? i Hi|q' ? m|? Hno|? Hin|]; subst.
  - apply Hidle in Hi. assert (i < length snd)%nat as Hlt by (by eapply lookup_lt_Some).
    destruct gone; [done|]. eexists. split.
    { eapply rtc_l; [by eapply (ls_call _ _ i (SCheck m)); eauto|]. chan_eval.
      sender_go i (SCheck m). sender_go i (SLock m). sender_go i (SPush m). sender_go i (@SUnlock T).
      sender_go i (@SNotify T). sender_go i (@SWake T). apply rtc_refl. }
    split; [constructor; cbn; [done..|]; apply insert_resting; auto|]. unfold view; cbn. f_equal.
    rewrite list_insert_id; done.
  - apply Hidle in Hi. assert (i < length snd)%nat as Hlt by (by eapply lookup_lt_Some).
    destruct gone; [|done]. eexists. split.
    { eapply rtc_l; [by eapply (ls_call _ _ i (SCheck m)); eauto|]. chan_eval. sender_go i (SCheck m). apply rtc_refl. }
    split; [constructor; cbn; [done..|]; apply insert_resting; auto|]. unfold view; cbn. f_equal.
    rewrite list_insert_id; done.
  - apply Hidle in Hi. eexists. split; [apply rtc_once; by eapply (ls_clone _ _ i)|].
    split; [constructor; cbn; [done..|]|unfold view; cbn; by rewrite fmap_app].
    intros j p [Hj|[_ Hj]]%lookup_app_Some; [eauto|]. apply list_lookup_singleton_Some in Hj as [_ <-]. by left.
  - apply Hidle in Hi. assert (i < length snd)%nat as Hlt by (by eapply lookup_lt_Some).
    set (rc := if gone then _ else _). assert (rc = RGone ∨ rc = RIdle) as Hrc by (destruct gone; unfold rc; auto).
    assert (∃ sq', rtc log_step (mkChan q Nobody sq n gone rc snd st rv, h)
      (mkChan q Nobody sq' (n + -1) gone rc (<[i := SGone]> snd) st rv, h ++ [SenderDropped i])) as [sq' Hrun].
    { clearbody rc. destruct (decide (n = 1)) as [->|Hne], Hrc as [-> | ->]; eexists.
      all: eapply rtc_l; [by eapply (ls_call _ _ i SDec); eauto|]; chan_eval; sender_go i (@SDec T).
      1, 2: sender_go i (@SNotifyAll T); sender_go i (@SWakeAll T); apply rtc_refl.
      all: rewrite decide_False by done; apply rtc_refl. }
    eexists. split; [exact Hrun|]. split; [constructor; cbn; [done..|]; apply insert_resting; auto|].
    unfold view; cbn. by rewrite list_fmap_insert.
  - destruct gone; [done|]. eexists. split.
    { eapply rtc_l; [by eapply (ls_call_recv _ _ RLock); auto|]. chan_eval. receiver_go. receiver_go. receiver_go. apply rtc_refl. }
    done.
  - destruct gone; [done|]. apply Hn in Hno as ->. eexists. split.
    { eapply rtc_l; [by eapply (ls_call_recv _ _ RLock); auto|]. chan_eval. receiver_go. receiver_go. receiver_go. receiver_go. apply rtc_refl. }
    done.
  - destruct gone; [done|]. assert (n ≠ 0) by (intros ->; by apply Hn). eexists. split.
    { eapply rtc_l; [by eapply (ls_call_recv _ _ TLock); auto|]. chan_eval. receiver_go. receiver_go. receiver_go.
      rewrite decide_False by done. receiver_go. apply rtc_refl. }
    done.
  - destruct gone; [done|]. eexists. split; [apply rtc_once; by apply ls_drop_receiver|]. done.
Qed.

Lemma spec_run_real h a :
  spec_run false spec_start h a → ∃ c, rtc log_step (channel, []) (c, h) ∧ resting c ∧ view c = a.
Proof.
  induction 1 as [|h a e a' _ (c & Hc & Hrest & <-) Hs].
  - exists channel. split_and!; [done| |done]. constructor; try done.
    intros i p Hi. destruct i as [|i]; cbn in Hi; simplify_eq. by left.
  - pose proof (chan_reachable c (log_reachable _ Hc)) as Hinv.
    destruct (spec_step_real c h e a' Hinv Hrest Hs) as (c' & Hc' & ? & ?). exists c'.
    split_and!; [by etrans|done..].
Qed.

(** C7: the channel is a queue. Over the futex mutex, every history of the handles of a channel is one of the contract:
    messages come out in the order they were accepted, each once; the end is reported exactly when the queue is empty and no sender
    is left, and a message is refused only after the receiver was dropped.  Conversely every history of the contract in which
    nobody sends to a dropped receiver is one of the implementation, so that the contract allows no less. *)
Theorem channel_refines_queue :
  (∀ n c h s, rtc (over_mutex log_step log_put log_inside) ((channel, []), Mutex.init n) ((c, h), s) →
     spec_run true spec_start h (view c))
  ∧ (∀ h a, spec_run false spec_start h a →
     ∃ n c s, rtc (over_mutex log_step log_put log_inside) ((channel, []), Mutex.init n) ((c, h), s) ∧ view c = a).
Proof.
  split.
  - intros n c h s Hr.
    destruct (over_mutex_reach log_step log_owner log_put log_inside (channel, []) n (c, h) s Hr) as [Hc _].
    exact (log_run_sim (chan_put (LockSpec.owner s) c, h) Hc).
  - intros h a (c & Hc & _ & <-)%spec_run_real.
    destruct (reach_over_mutex log_step log_owner log_put log_inside (channel, []) (c, h) Hc) as (n & s & Hr & _).
    eauto.
Qed.
End spec.
