(* ===== verification/Park.v ===== *)
(** [Parker] (src/src/thread.rs) as a system of threads: the thread that parks and any
    number of threads that [unpark] it.

    Every atomic operation of [park], [park_timeout] and [unpark], and of the futex
    calls they make, is one step.  The kernel's futex compares the word and goes to
    sleep in one step; it may return early at any time, which also stands for the
    timeout of [futex_wait_timeout]. *)
From S2P Require Import Prelude.

(** The thread that owns the parker. *)
Inductive ParkPc : Set :=
| PIdle
| PSwap       (* park: the first swap(0) *)
| PLoad       (* futex_wait(&state, 0): load and compare *)
| PSys        (* futex_wait: the system call *)
| PAsleep
| PSwapAgain  (* the loop's swap(0) *)
| TSwap       (* park_timeout: the first swap(0) *)
| TLoad       (* futex_wait_timeout: load and compare *)
| TSys        (* futex_wait_timeout: the system call *)
| TAsleep
| TSwapAgain. (* park_timeout: consume a token if one arrived *)

(** A thread with a handle to it. *)
Inductive UnparkPc : Set :=
| UIdle
| USwap   (* unpark: swap(1) *)
| UWake.  (* unpark: futex_wake *)

#[export] Instance ParkPc_eq_dec : EqDecision ParkPc.
Proof. solve_decision. Defined.

Record ParkSys := mkPark {
  token : Z;                 (* the word *)
  parker : ParkPc;
  unparkers : list UnparkPc;
  unparks : nat;             (* swap(1)s made so far *)
  returns : nat;             (* returns of [park] so far *)
}.

(** [Parker::park] *)
Definition park (p : ParkPc) (w : Z) : option (ParkPc * Z) :=
  match p with
  | PSwap => Some (if decide (w = 1) then PIdle else PLoad, 0)
  | PLoad => Some (if decide (w = 0) then PSys else PSwapAgain, w)
  | PSys => Some (if decide (w = 0) then PAsleep else PLoad, w)
  | PSwapAgain => Some (if decide (w = 1) then PIdle else PLoad, 0)
  | _ => None
  end.

(** [Parker::park_timeout]: one wait, no loop. *)
Definition park_timeout (p : ParkPc) (w : Z) : option (ParkPc * Z) :=
  match p with
  | TSwap => Some (if decide (w = 1) then PIdle else TLoad, 0)
  | TLoad => Some (if decide (w = 0) then TSys else TSwapAgain, w)
  | TSys => Some (if decide (w = 0) then TAsleep else TSwapAgain, w)
  | TSwapAgain => Some (PIdle, 0)
  | _ => None
  end.

(** [Parker::unpark] up to its [futex_wake]. *)
Definition unpark (u : UnparkPc) (w : Z) : option (UnparkPc * Z) :=
  match u with
  | USwap => Some (if decide (w = 0) then UWake else UIdle, 1)
  | _ => None
  end.

(** Where a wake, or an early return of the system call, takes the sleeper. *)
Definition woken (p : ParkPc) : option ParkPc :=
  match p with
  | PAsleep => Some PLoad
  | TAsleep => Some TSwapAgain
  | _ => None
  end.

Definition early (p : ParkPc) : option ParkPc :=
  match p with
  | PSys | PAsleep => Some PLoad
  | TSys | TAsleep => Some TSwapAgain
  | _ => None
  end.

(** A return of [park] itself, not of [park_timeout]. *)
Definition park_returns (p p' : ParkPc) : nat :=
  match p, p' with (PSwap | PSwapAgain), PIdle => 1 | _, _ => 0 end.

Definition move (s : ParkSys) (p : ParkPc) (w : Z) : ParkSys :=
  mkPark w p (unparkers s) (unparks s) (park_returns (parker s) p + returns s).

Definition move_unparker (s : ParkSys) (i : nat) (u : UnparkPc) : ParkSys :=
  mkPark (token s) (parker s) (<[i := u]> (unparkers s)) (unparks s) (returns s).

Inductive park_step : ParkSys → ParkSys → Prop :=
| park_call s p : parker s = PIdle → p = PSwap ∨ p = TSwap → park_step s (move s p (token s))
| park_op s p w : park (parker s) (token s) = Some (p, w) → park_step s (move s p w)
| timeout_op s p w : park_timeout (parker s) (token s) = Some (p, w) → park_step s (move s p w)
| park_early s p : early (parker s) = Some p → park_step s (move s p (token s))
| unpark_call s i : unparkers s !! i = Some UIdle → park_step s (move_unparker s i USwap)
| unpark_op s i u u' w :
    unparkers s !! i = Some u → unpark u (token s) = Some (u', w) →
    park_step s (mkPark w (parker s) (<[i := u']> (unparkers s)) (S (unparks s)) (returns s))
| unpark_wake s i p :
    unparkers s !! i = Some UWake → woken (parker s) = Some p →
    park_step s (move (move_unparker s i UIdle) p (token s))
| unpark_wake_none s i :
    unparkers s !! i = Some UWake → woken (parker s) = None →
    park_step s (move_unparker s i UIdle).

Definition park_init (n : nat) : ParkSys := mkPark 0 PIdle (replicate n UIdle) 0 0.

(** ** Invariant *)
Definition waking (us : list UnparkPc) : Prop := ∃ i, us !! i = Some UWake.

Record park_inv (s : ParkSys) : Prop := {
  pi_word : token s = 0 ∨ token s = 1;
  pi_count : Z.of_nat (returns s) + token s ≤ Z.of_nat (unparks s);
  pi_wake : woken (parker s) ≠ None → token s = 1 → waking (unparkers s);
}.

Lemma waking_keep us i u u' :
  us !! i = Some u → u ≠ UWake → waking us → waking (<[i := u']> us).
Proof.
  intros Hi Hu [j Hj]. exists j. rewrite list_lookup_insert_ne; [done|]. intros <-. congruence.
Qed.

Lemma waking_new us i u : us !! i = Some u → waking (<[i := UWake]> us).
Proof. intros Hi. exists i. apply list_lookup_insert_eq. by eapply lookup_lt_Some. Qed.

(** The parker moves; it does not go to sleep on a token, and takes one if [park] returns. *)
Lemma move_inv s p w :
  park_inv s → w = token s ∨ w = 0 → (w = token s → woken p ≠ None → token s = 0) →
  (park_returns (parker s) p = 1%nat → token s = 1 ∧ w = 0) → park_inv (move s p w).
Proof.
  intros [H1 H2 H3] Hw Hs Hr. constructor; cbn [token parker returns unparks unparkers move].
  - destruct Hw as [->| ->]; auto.
  - assert (park_returns (parker s) p = 0%nat ∨ park_returns (parker s) p = 1%nat) as [E|E]
      by (unfold park_returns; repeat case_match; auto).
    + rewrite E. destruct Hw as [->| ->]; lia.
    + destruct (Hr E). rewrite E. lia.
  - intros Hp E. destruct Hw as [->| ->]; [|done]. rewrite Hs in E; done.
Qed.

Lemma park_op_inv s p w :
  park_inv s →
  park (parker s) (token s) = Some (p, w) ∨ park_timeout (parker s) (token s) = Some (p, w) →
  park_inv (move s p w).
Proof.
  intros Hinv Hop. pose proof (pi_word s Hinv). apply move_inv; [done|..].
  all: destruct Hop as [Hop|Hop]; destruct (parker s); try done; cbn in Hop;
    repeat case_decide; simplify_eq; cbn; auto; try done; try (by intros; lia).
Qed.

Lemma unparker_inv s i u u' :
  park_inv s → unparkers s !! i = Some u → u ≠ UWake ∨ woken (parker s) = None →
  park_inv (move_unparker s i u').
Proof.
  intros [H1 H2 H3] Hi Hu. constructor; cbn; [done..|]. intros Hp Hw.
  destruct Hu as [Hu|Hu]; [|done]. eapply waking_keep; eauto.
Qed.

Lemma park_step_inv s s' : park_step s s' → park_inv s → park_inv s'.
Proof.
  intros Hstep Hinv. destruct Hstep as
    [s p Hp Hp'|s p w Hop|s p w Hop|s p Hp|s i Hi|s i u u' w Hi Hop|s i p Hi Hp|s i Hi Hp].
  - apply move_inv; [done|by left| |]; rewrite ?Hp; by destruct Hp' as [->| ->].
  - by apply park_op_inv; [|left].
  - by apply park_op_inv; [|right].
  - apply move_inv; [done|by left| |]; destruct (parker s); cbn in Hp; by simplify_eq.
  - by apply (unparker_inv s i UIdle); [..|left].
  - destruct u; try done. injection Hop as <- <-. destruct Hinv as [H1 H2 H3].
    constructor; cbn [token parker returns unparks unparkers]; [by right|lia|].
    intros Hp _. destruct H1 as [H1|H1]; rewrite H1.
    + rewrite decide_True by done. by eapply waking_new.
    + rewrite decide_False by lia. apply (waking_keep _ i USwap); auto.
  - destruct Hinv as [H1 H2 H3].
    constructor; cbn [token parker returns unparks unparkers move move_unparker]; [done| |].
    + assert (park_returns (parker s) p = 0%nat) as -> by (by destruct (parker s)). lia.
    + by destruct (parker s); cbn in Hp; simplify_eq.
  - by apply (unparker_inv s i UWake); [..|right].
Qed.

Lemma park_reachable n s : rtc park_step (park_init n) s → park_inv s.
Proof.
  assert (∀ s0, rtc park_step s0 s → park_inv s0 → park_inv s) as Hall.
  { intros s0. induction 1; eauto using park_step_inv. }
  intros Hs. apply (Hall _ Hs). constructor; cbn; auto; lia.
Qed.

(** ** Progress *)
Definition parking (p : ParkPc) : Prop :=
  p = PSwap ∨ p = PLoad ∨ p = PSys ∨ p = PAsleep ∨ p = PSwapAgain.

(** Steps left to the return of [park] once the token is there. *)
Definition left_to_return (p : ParkPc) : nat :=
  match p with
  | PSys | PAsleep => 3
  | PLoad => 2
  | PSwap | PSwapAgain => 1
  | _ => 0
  end.

Definition closer (s s' : ParkSys) : Prop :=
  parker s' = PIdle ∧ returns s' = S (returns s)
  ∨ token s' = 1 ∧ returns s' = returns s
    ∧ (parker s' = parker s
       ∨ parking (parker s') ∧ (left_to_return (parker s') < left_to_return (parker s))%nat).

Lemma park_step_closer s s' :
  park_step s s' → token s = 1 → parking (parker s) → closer s s'.
Proof.
  intros Hstep Hw Hp. unfold closer, parking in *. destruct Hstep as
    [s p Hp' _|s p w Hop|s p w Hop|s p Hop|s i Hi|s i u u' w Hi Hop|s i p Hi Hop|s i Hi Hop];
    cbn [token parker returns unparkers move move_unparker].
  - rewrite Hp' in Hp. naive_solver.
  - rewrite Hw in Hop. destruct Hp as [E|[E|[E|[E|E]]]]; rewrite E in *; cbn in Hop; simplify_eq;
      cbn; auto 10 with lia.
  - destruct Hp as [E|[E|[E|[E|E]]]]; rewrite E in Hop; done.
  - destruct Hp as [E|[E|[E|[E|E]]]]; rewrite E in *; cbn in Hop; simplify_eq; cbn; auto 10 with lia.
  - auto.
  - destruct u; try done. injection Hop as <- <-. auto.
  - destruct Hp as [E|[E|[E|[E|E]]]]; rewrite E in *; cbn in Hop; simplify_eq; cbn; auto 10 with lia.
  - auto.
Qed.

Lemma park_enabled s :
  park_inv s → token s = 1 → parking (parker s) → ∃ s', park_step s s' ∧ parker s' ≠ parker s.
Proof.
  intros [_ _ H3] Hw Hp. unfold parking in Hp.
  destruct (decide (parker s = PAsleep)) as [E|E].
  - destruct H3 as [i Hi]; [by rewrite E|done|].
    exists (move (move_unparker s i UIdle) PLoad (token s)). split; [|by rewrite E].
    apply unpark_wake; [done|]. by rewrite E.
  - destruct (park (parker s) 1) as [[p w]|] eqn:Ep;
      [|by destruct Hp as [F|[F|[F|[F|F]]]]; rewrite F in Ep, E].
    exists (move s p w). split; [apply park_op; by rewrite Hw|].
    cbn [parker move]. destruct Hp as [F|[F|[F|[F|F]]]]; rewrite F in *; cbn in Ep; by simplify_eq.
Qed.

(** Parking. [park] returns at most once for each [unpark], however the threads
    interleave; and once a token is there (an [unpark] before or during the call)
    some thread can take the step that brings [park] closer to its return, every step of
    any thread keeps the token and the distance or shortens it: the wake-up is never lost. *)
Theorem park_correct n s (Hs : rtc park_step (park_init n) s) :
  (returns s ≤ unparks s)%nat
  ∧ (token s = 1 → parking (parker s) →
     (∃ s', park_step s s' ∧ parker s' ≠ parker s) ∧ ∀ s', park_step s s' → closer s s').
Proof.
  apply park_reachable in Hs as Hinv. split.
  - destruct Hinv as [[H|H] H2 _]; lia.
  - intros Hw Hp. split; [by apply park_enabled|]. intros s' Hstep. by apply park_step_closer.
Qed.

(** ** A thread asleep in [park] while another one is about to wake it *)
Definition sample_park : ParkSys := mkPark 1 PAsleep [UWake; UIdle] 1 0.

Lemma sample_park_reachable : rtc park_step (park_init 2) sample_park.
Proof.
  advance ltac:(apply (park_call _ PSwap); auto).
  advance ltac:(by apply (park_op _ PLoad 0)).
  advance ltac:(by apply (park_op _ PSys 0)).
  advance ltac:(by apply (park_op _ PAsleep 0)).
  advance ltac:(by apply (unpark_call _ 0)).
  advance ltac:(by apply (unpark_op _ 0 USwap UWake 1)).
  apply rtc_refl.
Qed.

(** An instance. *)
Lemma park_correct_witness :
  (returns sample_park ≤ unparks sample_park)%nat
  ∧ (∃ s', park_step sample_park s' ∧ parker s' ≠ PAsleep)
  ∧ ∀ s', park_step sample_park s' → closer sample_park s'.
Proof.
  destruct (park_correct 2 sample_park sample_park_reachable) as [H1 H2].
  split; [exact H1|]. apply H2; [reflexivity|]. unfold parking. auto.
Defined.
