(* ===== verification/Join.v ===== *)
(** [JoinHandle] and the thread it belongs to (src/src/thread.rs), as a system of two
    threads that share a [Packet] through an [Arc].

    The child runs [thread_start]; the parent holds the handle until it joins or drops
    it.  Every atomic operation, every access to the result cell, every futex call and every
    drop of an [Arc] is one step. *)
From S2P Require Import Prelude.

Section join.
Context {V : Type}.

(** [thread_start] *)
Inductive ChildPc : Type :=
| CRun                (* inside f *)
| CWrite (v : V)      (* the packet's result = Some(value) *)
| CStore              (* packet.state.store(1) *)
| CWake               (* futex_wake(&packet.state) *)
| CDrop               (* drop(packet) *)
| CExited.            (* thread_exit *)

(** The owner of the [JoinHandle]. *)
Inductive HandlePc : Type :=
| HHeld               (* has the handle *)
| HLoad               (* join: futex_wait(&packet.state, 0): load and compare *)
| HSys                (* join: the system call *)
| HAsleep
| HTake               (* join: the packet's result is taken *)
| HFree (v : V)       (* join returns: the handle's packet is dropped *)
| HReturned (v : V)
| HDetach             (* the handle is dropped instead *)
| HGone.

Record JoinSys := mkJoin {
  jstate : Z;           (* packet.state *)
  jresult : option V;   (* packet.result *)
  refs : nat;           (* the Arc's count; at 0 the packet is freed *)
  child : ChildPc;
  handle : HandlePc;
  produced : option V;  (* what f returned *)
}.

(** One operation of [thread_start]; [f]'s return is a step of its own. *)
Definition thread_start (s : JoinSys) : option JoinSys :=
  match child s with
  | CWrite v => Some (mkJoin (jstate s) (Some v) (refs s) CStore (handle s) (produced s))
  | CStore => Some (mkJoin 1 (jresult s) (refs s) CWake (handle s) (produced s))
  | CWake =>
      let h := match handle s with HAsleep => HLoad | h => h end in
      Some (mkJoin (jstate s) (jresult s) (refs s) CDrop h (produced s))
  | CDrop =>
      Some (mkJoin (jstate s) (jresult s) (pred (refs s)) CExited (handle s) (produced s))
  | _ => None
  end.

Definition with_handle (s : JoinSys) (h : HandlePc) : JoinSys :=
  mkJoin (jstate s) (jresult s) (refs s) (child s) h (produced s).

(** [JoinHandle::join]; [expect] of an empty result is stuck. *)
Definition join (s : JoinSys) : option JoinSys :=
  match handle s with
  | HLoad => Some (with_handle s (if decide (jstate s = 0) then HSys else HTake))
  | HSys => Some (with_handle s (if decide (jstate s = 0) then HAsleep else HLoad))
  | HTake =>
      v ← jresult s;
      Some (mkJoin (jstate s) None (refs s) (child s) (HFree v) (produced s))
  | HFree v =>
      Some (mkJoin (jstate s) (jresult s) (pred (refs s)) (child s) (HReturned v) (produced s))
  | HDetach =>
      Some (mkJoin (jstate s) (jresult s) (pred (refs s)) (child s) HGone (produced s))
  | _ => None
  end.

(** [JoinHandle::is_finished] *)
Definition is_finished (s : JoinSys) : bool := bool_decide (jstate s = 1).

Inductive join_step : JoinSys → JoinSys → Prop :=
| js_f s v :
    child s = CRun →
    join_step s (mkJoin (jstate s) (jresult s) (refs s) (CWrite v) (handle s) (Some v))
| js_child s s' : thread_start s = Some s' → join_step s s'
| js_call s h : handle s = HHeld → h = HLoad ∨ h = HDetach → join_step s (with_handle s h)
| js_join s s' : join s = Some s' → join_step s s'
| js_early s :
    handle s = HSys ∨ handle s = HAsleep → join_step s (with_handle s HLoad).

(** [Builder::spawn] made the packet and gave one reference to the child. *)
Definition spawned : JoinSys := mkJoin 0 None 2 CRun HHeld None.

(** ** Invariant *)
Definition child_ref (c : ChildPc) : nat := match c with CExited => 0 | _ => 1 end.
Definition handle_ref (h : HandlePc) : nat :=
  match h with HReturned _ | HGone => 0 | _ => 1 end.

(** What the child has done so far. *)
Definition child_says (s : JoinSys) : Prop :=
  match child s with
  | CRun => jstate s = 0 ∧ jresult s = None ∧ produced s = None
  | CWrite v => jstate s = 0 ∧ jresult s = None ∧ produced s = Some v
  | CStore => jstate s = 0 ∧ jresult s = produced s ∧ is_Some (produced s)
  | _ => jstate s = 1
  end ∧ (jstate s ≠ 0 → is_Some (produced s)).

(** What the handle knows: it takes the result only after the store, and only once. *)
Definition handle_says (s : JoinSys) : Prop :=
  match handle s with
  | HTake => jstate s = 1 ∧ jresult s = produced s
  | HFree v | HReturned v => jstate s = 1 ∧ produced s = Some v
  | HAsleep => jstate s = 0 ∨ child s = CWake
  | _ => True
  end ∧ (jstate s = 1 → handle_ref (handle s) = 1%nat → (∀ v, handle s ≠ HFree v) →
         jresult s = produced s).

Record join_inv (s : JoinSys) : Prop := {
  ji_refs : refs s = (child_ref (child s) + handle_ref (handle s))%nat;
  ji_child : child_says s;
  ji_handle : handle_says s;
}.

Lemma join_op_inv s s' : join s = Some s' → join_inv s → join_inv s'.
Proof.
  intros Hj [Hr [Hc Hp] [Hh Hk]]. destruct s as [st r n c h pr]; cbn in *.
  destruct h; try done; cbn in Hj; try (case_decide; simplify_eq);
    try (destruct r as [v|]; [|done]; cbn in Hj); simplify_eq;
    (constructor; [cbn in *; lia|split; cbn in *|split; cbn in *]); destruct c; naive_solver.
Qed.

Lemma thread_start_inv s s' : thread_start s = Some s' → join_inv s → join_inv s'.
Proof.
  intros Hj [Hr [Hc Hp] [Hh Hk]]. destruct s as [st r n c h pr]; cbn in *.
  destruct c; try done; cbn in Hj; simplify_eq;
    (constructor; [cbn in *|split; cbn in *|split; cbn in *]); destruct h; cbn in *; try lia;
    naive_solver.
Qed.

Lemma join_step_inv s s' : join_step s s' → join_inv s → join_inv s'.
Proof.
  intros Hstep Hinv. destruct Hstep as [s v Hc|s s' Hj|s h Hh Hh'|s s' Hj|s Hh].
  - destruct Hinv as [Hr [Hs Hp] [Hk Hl]]. destruct s as [st r n c h pr]; cbn in *. subst c.
    constructor; [done|split; cbn in *|split; cbn in *]; [naive_solver..| |naive_solver].
    destruct h; naive_solver.
  - by eapply thread_start_inv.
  - destruct Hinv as [Hr [Hs Hp] [Hk Hl]]. destruct s as [st r n c h0 pr]; cbn in *. subst h0.
    constructor; [|split; cbn in *|split; cbn in *]; destruct Hh' as [->| ->]; naive_solver.
  - by eapply join_op_inv.
  - destruct Hinv as [Hr [Hs Hp] [Hk Hl]]. destruct s as [st r n c h0 pr]; cbn in *.
    constructor; [|split; cbn in *|split; cbn in *]; destruct Hh as [->| ->]; naive_solver.
Qed.

Lemma join_reachable s : rtc join_step spawned s → join_inv s.
Proof.
  assert (∀ s0, rtc join_step s0 s → join_inv s0 → join_inv s) as Hall.
  { intros s0. induction 1; eauto using join_step_inv. }
  intros Hs. apply (Hall _ Hs). constructor; [done|split|split]; done.
Qed.

(** ** Progress *)
(** The steps when the closure returns, the owner of the handle calls nothing more and the kernel never
    returns early. *)
Inductive join_quiet : JoinSys → JoinSys → Prop :=
| jq_f s v :
    child s = CRun →
    join_quiet s (mkJoin (jstate s) (jresult s) (refs s) (CWrite v) (handle s) (Some v))
| jq_child s s' : thread_start s = Some s' → join_quiet s s'
| jq_join s s' : join s = Some s' → join_quiet s s'.

Lemma join_quiet_step s s' : join_quiet s s' → join_step s s'.
Proof. destruct 1; by econstructor. Qed.

Definition child_todo (c : ChildPc) : nat :=
  match c with CRun => 5 | CWrite _ => 4 | CStore => 3 | CWake => 2 | CDrop => 1 | CExited => 0 end.

(** How far the handle is from its return, or from sleeping while the thread runs. *)
Definition handle_todo (st : Z) (h : HandlePc) : nat :=
  match h with
  | HSys => if decide (st = 0) then 3 else 5
  | HLoad => 4
  | HTake => 2
  | HFree _ | HDetach => 1
  | _ => 0
  end.

Definition join_work (s : JoinSys) : nat := child_todo (child s) * 6 + handle_todo (jstate s) (handle s).

Lemma handle_todo_bound st h : (handle_todo st h < 6)%nat.
Proof. destruct h; cbn; repeat case_decide; lia. Qed.

Lemma join_work_bound s : (join_work s ≤ 35)%nat.
Proof.
  pose proof (handle_todo_bound (jstate s) (handle s)). unfold join_work.
  assert (child_todo (child s) ≤ 5)%nat by (destruct (child s); cbn; lia). lia.
Qed.

Lemma join_quiet_work s s' : join_quiet s s' → (join_work s' < join_work s)%nat.
Proof.
  intros Hs. apply lex_lt; [apply handle_todo_bound|]. destruct Hs as [s v E|s s' Hop|s s' Hop].
  - left. cbn. rewrite E. cbn. lia.
  - left. unfold thread_start in Hop. destruct (child s); simplify_eq/=; lia.
  - unfold join in Hop. destruct (handle s) eqn:E; simplify_eq/=; try (left; lia).
    all: try (destruct (jresult s); simplify_eq/=).
    all: try (right; repeat case_decide; split; cbn; try done; repeat case_decide; done || lia).
Qed.

(** The thread has ended, and the handle is still held, has joined or is gone. *)
Definition join_over (s : JoinSys) : Prop :=
  child s = CExited ∧ (handle s = HHeld ∨ handle s = HGone ∨ ∃ v, handle s = HReturned v).

(** Unless both are done one of them can step; a sleeping handle waits for a thread that can. *)
Lemma join_quiet_live (v0 : V) s : join_inv s → join_over s ∨ ∃ s', join_quiet s s'.
Proof.
  intros [_ [Hc Hp] [Hh _]]. destruct (decide (child_todo (child s) = 0%nat)) as [Ec|Ec].
  - assert (child s = CExited) as Ex by (destruct (child s); done). rewrite Ex in Hc. unfold join_over.
    destruct (handle s) eqn:E; eauto 6.
    + right. eexists. apply jq_join. unfold join. by rewrite E.
    + right. eexists. apply jq_join. unfold join. by rewrite E.
    + destruct Hh as [?|?]; [lia|congruence].
    + destruct Hp as [v Hv]; [lia|]. destruct Hh as [_ Hr].
      right. eexists. apply jq_join. unfold join. by rewrite E, Hr, Hv.
    + right. eexists. apply jq_join. unfold join. by rewrite E.
    + right. eexists. apply jq_join. unfold join. by rewrite E.
  - right. destruct (child s) eqn:E; try done.
    + eexists. by apply (jq_f s v0).
    + eexists. apply jq_child. unfold thread_start. by rewrite E.
    + eexists. apply jq_child. unfold thread_start. by rewrite E.
    + eexists. apply jq_child. unfold thread_start. by rewrite E.
    + eexists. apply jq_child. unfold thread_start. by rewrite E.
Qed.

(** C16: joining. [join] returns what the thread's closure returned and its [expect]
    never fails; the packet is freed exactly when the thread has
    dropped it and the handle is gone; and once the closure returns, every schedule ends within 35 steps
    when the kernel does not return early, with the thread ended, and a call of [join] that was made
    returned ([v0] is some value a closure may return). *)
Theorem join_correct (v0 : V) s (Hs : rtc join_step spawned s) :
  (∀ v, handle s = HReturned v → produced s = Some v)
  ∧ (handle s = HTake → is_Some (jresult s))
  ∧ (refs s = 0%nat ↔ child s = CExited ∧ (handle s = HGone ∨ ∃ v, handle s = HReturned v))
  ∧ settles join_quiet join_over 35 s.
Proof.
  apply join_reachable in Hs as Hinv. pose proof Hinv as [Hr [Hc Hp] [Hh Hk]]. split_and!.
  - intros v E. rewrite E in Hh. apply Hh.
  - intros E. rewrite E in Hh. destruct Hh as [Hw ->]. apply Hp. lia.
  - rewrite Hr. destruct (child s), (handle s); cbn; naive_solver lia.
  - apply (settling _ join_inv _ join_work); [|by apply join_quiet_live|done|apply join_work_bound].
    intros x y Hx Hxy. split; [eapply join_step_inv, Hx; by apply join_quiet_step|by apply join_quiet_work].
Qed.
End join.
Arguments ChildPc : clear implicits.
Arguments HandlePc : clear implicits.
Arguments JoinSys : clear implicits.

(** ** The parent sleeps in [join] while the thread publishes 7 *)
Definition sample_join : JoinSys Z := mkJoin 1 (Some 7) 2 CWake HAsleep (Some 7).

Lemma sample_join_reachable : rtc join_step spawned sample_join.
Proof.
  advance ltac:(by apply (js_call _ HLoad); [|left]).
  advance ltac:(by apply js_join).
  advance ltac:(by apply js_join).
  advance ltac:(by apply (js_f _ 7)).
  advance ltac:(by apply js_child).
  advance ltac:(by apply js_child).
  apply rtc_refl.
Qed.

(** Witness of C16. *)
Lemma join_correct_witness : ∃ s, rtc join_quiet sample_join s ∧ join_over s.
Proof.
  destruct (join_correct 0 sample_join sample_join_reachable) as (_ & _ & _ & _ & _ & H). exact H.
Defined.

(** * [ScopedJoinHandle]

    The thread of a scope returns [()]; its value goes through a box, the slot, that the closure
    writes and [ScopedJoinHandle::join] empties and frees after the inner [join]. *)
Section scoped.
Context {T : Type}.

Inductive ScopedPc : Type :=
| SJoin                 (* the inner handle.join() *)
| SFree (v : T)         (* drop(Box::from_raw(slot)) *)
| SRet (v : T).

Record ScopedSys := mkScoped {
  packet : JoinSys unit;
  slot : option T;
  fval : option T;        (* what f returned *)
  box_live : bool;
  scoped : ScopedPc;
}.

(** The part of [ScopedJoinHandle::join] after the inner join; [expect] is stuck on an empty slot. *)
Definition scoped_join (s : ScopedSys) : option ScopedSys :=
  match scoped s, handle (packet s) with
  | SJoin, HReturned _ =>
      v ← slot s; Some (mkScoped (packet s) None (fval s) (box_live s) (SFree v))
  | SFree v, _ => Some (mkScoped (packet s) (slot s) (fval s) false (SRet v))
  | _, _ => None
  end.

(** The closure writes the slot before it returns; the rest of the thread and the inner handle are
    those of [JoinHandle]. *)
Inductive scoped_step : ScopedSys → ScopedSys → Prop :=
| sc_f s r :
    child (packet s) = CRun → fval s = None →
    scoped_step s (mkScoped (packet s) (Some r) (Some r) (box_live s) (scoped s))
| sc_inner s p :
    join_step (packet s) p → (child (packet s) = CRun → child p ≠ CRun → fval s ≠ None) →
    scoped_step s (mkScoped p (slot s) (fval s) (box_live s) (scoped s))
| sc_join s s' : scoped_join s = Some s' → scoped_step s s'.

(** [Scope::spawn] *)
Definition scoped_spawned : ScopedSys := mkScoped spawned None None true SJoin.

Record scoped_inv (s : ScopedSys) : Prop := {
  sv_packet : join_inv (packet s);
  sv_done : child (packet s) ≠ CRun → is_Some (fval s);
  sv_slot : scoped s = SJoin → slot s = fval s ∧ box_live s = true;
  sv_pc : ∀ v, scoped s = SFree v ∨ scoped s = SRet v →
          fval s = Some v ∧ child (packet s) ≠ CRun;
}.

Lemma returned_done (p : JoinSys unit) v : join_inv p → handle p = HReturned v → child p ≠ CRun.
Proof. intros [_ [Hc _] [Hh _]] E Er. rewrite E in Hh. rewrite Er in Hc. lia. Qed.

(** A thread that has left [f] does not enter it again. *)
Lemma child_left (p p' : JoinSys unit) : join_step p p' → child p ≠ CRun → child p' ≠ CRun.
Proof.
  intros Hs Hc. destruct Hs as [s v E|s s' Hj|s h Hh Hh'|s s' Hj|s Hh]; cbn; try done.
  - unfold thread_start in Hj. destruct (child s); by simplify_eq.
  - unfold join in Hj. destruct (handle s); try done; cbn in Hj;
      try (destruct (jresult s); cbn in Hj); by simplify_eq.
Qed.

Lemma scoped_step_inv s s' : scoped_step s s' → scoped_inv s → scoped_inv s'.
Proof.
  intros Hstep [H1 H2 H3 H4]. destruct Hstep as [s r Hc Hf|s p Hp Hg|s s' Hj].
  - constructor; cbn; [done|eauto| |].
    + intros E. by destruct (H3 E).
    + intros v Hv. by destruct (H4 v Hv).
  - constructor; cbn.
    + by eapply join_step_inv.
    + intros Hc. destruct (child (packet s)) eqn:E; try (by apply H2).
      destruct (fval s); [eauto|]. by destruct (Hg eq_refl Hc).
    + done.
    + intros v Hv. destruct (H4 v Hv). split; [done|]. by eapply child_left.
  - unfold scoped_join in Hj. destruct (scoped s) as [|v|v] eqn:Es; [|simplify_eq|done].
    + destruct (handle (packet s)) eqn:Eh; try done. destruct (H3 eq_refl) as [Hs Hb].
      destruct (slot s) as [v0|] eqn:Ev; [|done]. cbn in Hj. simplify_eq.
      constructor; cbn; try done. intros w [[= <-]|?]; [|done].
      split; [done|]. by eapply returned_done.
    + constructor; cbn; try done. intros w [?|[= <-]]; [done|]. apply H4. by left.
Qed.

(** [ScopedJoinHandle::join] returns what the closure returned and its [expect] does not fail; the
    thread never writes to a freed slot. *)
Lemma scoped_join_correct s :
  rtc scoped_step scoped_spawned s →
  (∀ v, scoped s = SRet v → fval s = Some v)
  ∧ (∀ u, scoped s = SJoin → handle (packet s) = HReturned u → is_Some (scoped_join s))
  ∧ (child (packet s) = CRun → box_live s = true).
Proof.
  intros Hs. assert (scoped_inv s) as [H1 H2 H3 H4].
  { cut (scoped_inv scoped_spawned).
    - induction Hs; eauto using scoped_step_inv.
    - constructor; cbn; [constructor; [done|split|split]; done|done|done|].
      by intros v [?|?]. }
  split_and!.
  - intros v Hv. apply (H4 v). by right.
  - intros u Hj Hr. unfold scoped_join. rewrite Hj, Hr. destruct (H3 Hj) as [-> _].
    destruct H2 as [v ->]; [by eapply returned_done|]. by eexists.
  - intros Hc. destruct (scoped s) eqn:E; [by apply H3|..]; by destruct (H4 v ltac:(auto)).
Qed.
End scoped.
