(* ===== verification/Scope.v ===== *)
(** Scoped threads (src/src/thread.rs) as a system: the thread that called [scope] and
    the threads spawned in it, which may spawn further ones.

    [running] and [wake] live in the [Scope] on the stack of the caller of [scope].  Every
    atomic operation on them, every write of a result slot and every futex call is one
    step; operations are sequentially consistent. *)
From S2P Require Import Prelude.

(** A scoped thread: the closure [wrapped] of [Scope::spawn]. *)
Inductive WorkerPc : Set :=
| WRun      (* inside f *)
| WSpawn    (* f called Scope::spawn: running is incremented, the thread not yet created *)
| WSlot     (* write the result slot *)
| WSub      (* running.fetch_sub(1) *)
| WStore    (* it returned 1: wake.store(1) *)
| WWake     (* futex_wake(&wake) *)
| WEnd.

#[export] Instance WorkerPc_eq_dec : EqDecision WorkerPc.
Proof. solve_decision. Defined.

(** The caller of [scope]. *)
Inductive MainPc : Set :=
| MRun      (* inside f *)
| MSpawn
| MLoad     (* while running.load() != 0 *)
| MWait     (* futex_wait(&wake, 0): load and compare *)
| MSys      (* futex_wait: the system call *)
| MAsleep
| MClear    (* wake.store(0) *)
| MDone.    (* scope has returned; its frame is gone *)

#[export] Instance MainPc_eq_dec : EqDecision MainPc.
Proof. solve_decision. Defined.

Record ScopeSys := mkScope {
  running : Z;
  wake : Z;
  main : MainPc;
  workers : list WorkerPc;
}.

Definition with_worker (s : ScopeSys) (i : nat) (p : WorkerPc) : ScopeSys :=
  mkScope (running s) (wake s) (main s) (<[i := p]> (workers s)).

Definition with_main (s : ScopeSys) (p : MainPc) : ScopeSys :=
  mkScope (running s) (wake s) p (workers s).

(** [Scope::spawn]: [running.fetch_add(1)], then the thread is created. *)
Definition add_running (s : ScopeSys) (d : Z) : ScopeSys :=
  mkScope (running s + d) (wake s) (main s) (workers s).
Definition create (s : ScopeSys) : ScopeSys :=
  mkScope (running s) (wake s) (main s) (workers s ++ [WRun]).

(** The end of a scoped thread, after its closure has returned. *)
Definition wrapped (i : nat) (p : WorkerPc) (s : ScopeSys) : option ScopeSys :=
  match p with
  | WSlot => Some (with_worker s i WSub)
  | WSub => Some (with_worker (add_running s (-1)) i (if decide (running s = 1) then WStore else WEnd))
  | WStore => Some (with_worker (mkScope (running s) 1 (main s) (workers s)) i WWake)
  | WWake =>
      let m := match main s with MAsleep => MWait | m => m end in
      Some (with_worker (with_main s m) i WEnd)
  | _ => None
  end.

(** The wait at the end of [scope]. *)
Definition scope_wait (s : ScopeSys) : option ScopeSys :=
  match main s with
  | MLoad => Some (with_main s (if decide (running s = 0) then MDone else MWait))
  | MWait => Some (with_main s (if decide (wake s = 0) then MSys else MClear))
  | MSys => Some (with_main s (if decide (wake s = 0) then MAsleep else MWait))
  | MClear => Some (mkScope (running s) 0 MLoad (workers s))
  | _ => None
  end.

Inductive scope_step : ScopeSys → ScopeSys → Prop :=
| ss_worker s s' i p : workers s !! i = Some p → wrapped i p s = Some s' → scope_step s s'
| ss_return s i : workers s !! i = Some WRun → scope_step s (with_worker s i WSlot)
| ss_worker_add s i :
    workers s !! i = Some WRun → scope_step s (with_worker (add_running s 1) i WSpawn)
| ss_worker_create s i :
    workers s !! i = Some WSpawn → scope_step s (create (with_worker s i WRun))
| ss_main_add s : main s = MRun → scope_step s (with_main (add_running s 1) MSpawn)
| ss_main_create s : main s = MSpawn → scope_step s (create (with_main s MRun))
| ss_main_end s : main s = MRun → scope_step s (with_main s MLoad)
| ss_main s s' : scope_wait s = Some s' → scope_step s s'
| ss_early s : main s = MSys ∨ main s = MAsleep → scope_step s (with_main s MWait).

(** [scope] builds its [ScopeData] and calls [f]. *)
Definition scope_init : ScopeSys := mkScope 0 0 MRun [].

(** ** Invariant *)
(** Threads that have incremented [running] and not yet decremented it, the one
    under creation included. *)
Definition in_flight (p : WorkerPc) : nat :=
  match p with WRun | WSlot | WSub => 1 | WSpawn => 2 | _ => 0 end.
Definition main_flight (p : MainPc) : nat := match p with MSpawn => 1 | _ => 0 end.

Definition some_at (ws : list WorkerPc) (p : WorkerPc) : Prop := ∃ i, ws !! i = Some p.

(** While the caller waits, the end of the last thread cannot have gone unnoticed. *)
Definition noticed (s : ScopeSys) : Prop :=
  match main s with
  | MWait | MSys => running s = 0 → wake s = 1 ∨ some_at (workers s) WStore
  | MAsleep =>
      (running s = 0 → wake s = 1 ∨ some_at (workers s) WStore)
      ∧ (wake s = 1 → some_at (workers s) WWake)
  | _ => True
  end.

Record scope_inv (s : ScopeSys) : Prop := {
  si_count : running s = Z.of_nat (main_flight (main s) + sum_list_with in_flight (workers s));
  si_wake : wake s = 0 ∨ wake s = 1;
  si_noticed : noticed s;
  si_done : main s = MDone → running s = 0;
}.

Lemma some_at_keep ws i q p x :
  ws !! i = Some q → x ≠ q → some_at ws x → some_at (<[i := p]> ws) x.
Proof.
  intros Hi Hx [j Hj]. exists j. rewrite list_lookup_insert_ne; [done|]. intros <-. congruence.
Qed.

Lemma some_at_new ws i q p : ws !! i = Some q → some_at (<[i := p]> ws) p.
Proof. intros Hi. exists i. apply list_lookup_insert_eq. by eapply lookup_lt_Some. Qed.

Lemma some_at_app ws ws' x : some_at ws x → some_at (ws ++ ws') x.
Proof. intros [i Hi]. exists i. by apply lookup_app_l_Some. Qed.

Lemma flight_insert ws i p p' :
  ws !! i = Some p →
  Z.of_nat (sum_list_with in_flight (<[i := p']> ws))
  = Z.of_nat (sum_list_with in_flight ws) + Z.of_nat (in_flight p') - Z.of_nat (in_flight p).
Proof. intros Hi. pose proof (sum_list_with_insert in_flight ws i p p' Hi). lia. Qed.

Lemma flight_pos s i p :
  scope_inv s → workers s !! i = Some p → (0 < in_flight p)%nat → 0 < running s.
Proof.
  intros [Hc _ _ _] Hi Hp. rewrite Hc.
  assert (0 < sum_list_with in_flight (workers s))%nat by (apply sum_pos; eauto). lia.
Qed.

(** A worker moves and changes the two words as its operation does. *)
Lemma worker_move s i p p' r' w' :
  scope_inv s → workers s !! i = Some p → (0 < in_flight p)%nat ∨ p = WStore →
  r' = running s + Z.of_nat (in_flight p') - Z.of_nat (in_flight p) →
  (w' = wake s ∧ p ≠ WStore ∧ p ≠ WWake ∨ w' = 1 ∧ p' = WWake) →
  (r' = 0 → running s = 0 ∨ p' = WStore) →
  scope_inv (mkScope r' w' (main s) (<[i := p']> (workers s))).
Proof.
  intros Hinv Hi Hp Hr Hw Hz. pose proof (flight_pos s i p Hinv Hi) as Hpos.
  pose proof (flight_insert (workers s) i p p' Hi) as Hsum.
  destruct Hinv as [H1 H2 H3 H4]. constructor; cbn [running wake main workers].
  - lia.
  - destruct Hw as [[-> _]|[-> _]]; auto.
  - assert ((running s = 0 → wake s = 1 ∨ some_at (workers s) WStore) →
            r' = 0 → w' = 1 ∨ some_at (<[i := p']> (workers s)) WStore) as Hfirst.
    { intros Hold E. destruct Hw as [(-> & Hs & _)|[-> _]]; [|by left].
      destruct (Hz E) as [E0| ->]; [|right; by eapply some_at_new].
      destruct (Hold E0) as [?|?]; [by left|right; by eapply some_at_keep]. }
    unfold noticed in *. cbn [running wake main workers].
    destruct (main s); try done; [by apply Hfirst..|]. destruct H3 as [H3 H3'].
    split; [by apply Hfirst|]. intros E. destruct Hw as [(-> & _ & Hs)|[_ ->]].
    + eapply some_at_keep; eauto.
    + by eapply some_at_new.
  - intros E. specialize (H4 E). destruct Hp as [Hp| ->]; [specialize (Hpos Hp); lia|].
    destruct Hw as [(_ & ? & _)|[_ ->]]; [done|]. cbn in Hr. lia.
Qed.

Lemma wrapped_inv s s' i p :
  scope_inv s → workers s !! i = Some p → wrapped i p s = Some s' → scope_inv s'.
Proof.
  intros Hinv Hi Hop. destruct p; try done; cbn in Hop; simplify_eq.
  - apply (worker_move s i WSlot); cbn; auto with lia.
  - apply (worker_move s i WSub); cbn; auto with lia.
    + destruct (decide _); cbn; lia.
    + destruct (decide (running s = 1)); [by right|lia].
  - apply (worker_move s i WStore); cbn; auto with lia.
  - pose proof (flight_insert (workers s) i WWake WEnd Hi) as Hsum. cbn in Hsum.
    destruct Hinv as [H1 H2 H3 H4]. constructor; cbn [running wake main workers with_worker with_main].
    + destruct (main s); cbn in *; lia.
    + done.
    + unfold noticed in *. cbn [running wake main workers with_worker with_main].
      assert (∀ x, x ≠ WWake → some_at (workers s) x → some_at (<[i := WEnd]> (workers s)) x)
        as Hk by (intros; by eapply some_at_keep).
      destruct (main s); try done; intros E; naive_solver.
    + destruct (main s); done.
Qed.

Lemma main_move s m :
  scope_inv s → main_flight m = main_flight (main s) → noticed (with_main s m) →
  (m = MDone → running s = 0) → scope_inv (with_main s m).
Proof. intros [H1 H2 H3 H4] Hf Hn Hd. constructor; cbn; [by rewrite Hf|done..]. Qed.

Lemma scope_wait_inv s s' : scope_inv s → scope_wait s = Some s' → scope_inv s'.
Proof.
  intros Hinv Hop. pose proof (si_noticed s Hinv) as Hn. unfold noticed, scope_wait in *.
  destruct (main s) eqn:E; try done; cbn in Hop; simplify_eq.
  - destruct (decide (running s = 0)); apply main_move; rewrite ?E; unfold noticed; cbn; done.
  - destruct (decide (wake s = 0)); apply main_move; rewrite ?E; unfold noticed; cbn; done.
  - destruct (decide (wake s = 0)) as [E0|]; apply main_move; rewrite ?E; unfold noticed; cbn; try done.
    split; [done|]. by rewrite E0.
  - destruct Hinv as [H1 H2 H3 H4]. rewrite E in H1. by constructor; cbn; [|left|..].
Qed.

Lemma worker_create_inv s i :
  scope_inv s → workers s !! i = Some WSpawn → scope_inv (create (with_worker s i WRun)).
Proof.
  intros Hinv Hi. pose proof (flight_pos s i WSpawn Hinv Hi) as Hpos.
  pose proof (flight_insert (workers s) i WSpawn WRun Hi) as Hsum. cbn in Hpos, Hsum.
  assert (∀ x, x ≠ WSpawn → some_at (workers s) x → some_at (<[i := WRun]> (workers s) ++ [WRun]) x)
    as Hk by (intros; apply some_at_app; by eapply some_at_keep).
  destruct Hinv as [H1 H2 H3 H4]. constructor; cbn [running wake main workers with_worker create].
  - rewrite sum_list_with_app. cbn. lia.
  - done.
  - unfold noticed in *. cbn [running wake main workers with_worker create].
    destruct (main s); naive_solver lia.
  - intros E. specialize (H4 E). lia.
Qed.

Lemma scope_step_inv s s' : scope_step s s' → scope_inv s → scope_inv s'.
Proof.
  intros Hstep Hinv.
  destruct Hstep as [s s' i p Hi Hop|s i Hi|s i Hi|s i Hi|s E|s E|s E|s s' Hop|s E].
  - by eapply wrapped_inv.
  - apply (worker_move s i WRun); cbn; auto with lia.
  - pose proof (flight_pos s i WRun Hinv Hi ltac:(cbn; lia)).
    apply (worker_move s i WRun); cbn; auto with lia.
  - by apply worker_create_inv.
  - destruct Hinv as [H1 H2 H3 H4]. rewrite E in H1. constructor; cbn in *; auto; [lia|done].
  - destruct Hinv as [H1 H2 H3 H4]. rewrite E in H1. constructor; cbn in *; auto; [|done].
    rewrite sum_list_with_app. cbn. lia.
  - apply main_move; rewrite ?E; done.
  - by eapply scope_wait_inv.
  - pose proof (si_noticed s Hinv) as Hn. unfold noticed in Hn.
    destruct E as [E|E]; rewrite E in Hn; apply main_move; rewrite ?E; try done; unfold noticed; cbn; tauto.
Qed.

Lemma scope_reachable s : rtc scope_step scope_init s → scope_inv s.
Proof.
  assert (∀ s0, rtc scope_step s0 s → scope_inv s0 → scope_inv s) as Hall.
  { intros s0. induction 1; eauto using scope_step_inv. }
  intros Hs. apply (Hall _ Hs). constructor; cbn; auto; done.
Qed.

(** ** Progress *)
(** The steps when no closure spawns again and the kernel never returns early; a closure returns. *)
Inductive scope_quiet : ScopeSys → ScopeSys → Prop :=
| sq_worker s s' i p : workers s !! i = Some p → wrapped i p s = Some s' → scope_quiet s s'
| sq_return s i : workers s !! i = Some WRun → scope_quiet s (with_worker s i WSlot)
| sq_worker_create s i :
    workers s !! i = Some WSpawn → scope_quiet s (create (with_worker s i WRun))
| sq_main_create s : main s = MSpawn → scope_quiet s (create (with_main s MRun))
| sq_main_end s : main s = MRun → scope_quiet s (with_main s MLoad)
| sq_main s s' : scope_wait s = Some s' → scope_quiet s s'.

Lemma scope_quiet_step s s' : scope_quiet s s' → scope_step s s'.
Proof. destruct 1; by econstructor. Qed.

(** What the threads have left to do; a thread under creation counts for the one it creates. *)
Definition worker_todo (p : WorkerPc) : nat :=
  match p with WEnd => 0 | WWake => 1 | WStore => 3 | WSub => 4 | WSlot => 5 | WRun => 6 | WSpawn => 13 end.

(** The caller: its closure, and the turns of its loop that are left, one per set [wake]. *)
Definition main_todo (p : MainPc) : nat := match p with MSpawn => 8 | MRun => 1 | _ => 0 end.
Definition main_rank (w : Z) (p : MainPc) : nat :=
  match p with
  | MClear => if decide (w = 0) then 4 else 1
  | MLoad => 3
  | MWait => 2
  | MSys => if decide (w = 0) then 1 else 3
  | _ => 0
  end.

Definition scope_todo (s : ScopeSys) : nat :=
  sum_list_with worker_todo (workers s) + main_todo (main s) + (if decide (wake s = 0) then 0 else 1).
Definition scope_work (s : ScopeSys) : nat := scope_todo s * 5 + main_rank (wake s) (main s).

Lemma main_rank_bound w p : (main_rank w p < 5)%nat.
Proof. destruct p; cbn; repeat case_decide; lia. Qed.

Lemma wrapped_work s s' i p :
  workers s !! i = Some p → wrapped i p s = Some s' → (scope_todo s' < scope_todo s)%nat.
Proof.
  intros Hi Hop. assert (∀ q, _) as Hw by exact (λ q, sum_list_with_insert worker_todo _ i p q Hi).
  destruct p; try done; cbn in Hop; simplify_eq; unfold scope_todo; cbn [workers main wake with_worker with_main add_running].
  - specialize (Hw WSub). cbn in Hw. lia.
  - destruct (decide (running s = 1)); [specialize (Hw WStore)|specialize (Hw WEnd)]; cbn in Hw; lia.
  - specialize (Hw WWake). cbn in Hw. case_decide; lia.
  - specialize (Hw WEnd). cbn in Hw. destruct (main s); cbn; lia.
Qed.

Lemma scope_quiet_work s s' : scope_quiet s s' → (scope_work s' < scope_work s)%nat.
Proof.
  intros Hs. apply lex_lt; [apply main_rank_bound|].
  destruct Hs as [s s' i p Hi Hop|s i Hi|s i Hi|s E|s E|s s' Hop].
  - left. by eapply wrapped_work.
  - left. pose proof (sum_list_with_insert worker_todo _ i WRun WSlot Hi). unfold scope_todo. cbn in *. lia.
  - left. pose proof (sum_list_with_insert worker_todo _ i WSpawn WRun Hi). unfold scope_todo.
    cbn [workers main wake create with_worker] in *. rewrite sum_list_with_app. cbn in *. lia.
  - left. unfold scope_todo. cbn [workers main wake create with_main]. rewrite sum_list_with_app, E. cbn. lia.
  - left. unfold scope_todo. cbn [workers main wake with_main]. rewrite E. cbn. lia.
  - unfold scope_wait in Hop. unfold scope_todo. destruct (main s) eqn:E; try done; simplify_eq;
      cbn [workers main wake with_main]; repeat case_decide; cbn; repeat case_decide; try done; lia.
Qed.

(** [scope] has returned and its threads have ended. *)
Definition scope_over (s : ScopeSys) : Prop :=
  main s = MDone ∧ ∀ i p, workers s !! i = Some p → p = WEnd.

Lemma worker_quiet s i p : workers s !! i = Some p → p ≠ WEnd → ∃ s', scope_quiet s s'.
Proof.
  intros Hi Hp. destruct p; try done; eexists.
  - by eapply sq_return.
  - by eapply sq_worker_create.
  - by eapply (sq_worker s _ i WSlot).
  - by eapply (sq_worker s _ i WSub).
  - by eapply (sq_worker s _ i WStore).
  - by eapply (sq_worker s _ i WWake).
Qed.

(** While the caller sleeps some thread is still to act. *)
Lemma sleeper_worker s : scope_inv s → main s = MAsleep → ∃ i p, workers s !! i = Some p ∧ p ≠ WEnd.
Proof.
  intros [Hc _ Hn _] E. unfold noticed in Hn. rewrite E in Hc, Hn.
  destruct Hn as [Hn Hn']. destruct (decide (running s = 0)) as [H0|H0].
  - destruct (Hn H0) as [Hw|[i Hi]]; [destruct (Hn' Hw) as [i Hi]|]; by exists i; eexists.
  - cbn in Hc. destruct (proj1 (sum_pos in_flight (workers s))) as (i & p & Hi & Hp); [lia|].
    exists i, p. split; [done|]. by intros ->; cbn in Hp; lia.
Qed.

Lemma main_quiet s : scope_inv s → main s ≠ MDone → ∃ s', scope_quiet s s'.
Proof.
  intros Hinv Hm. destruct (main s) eqn:E; try done.
  - eexists. by apply sq_main_end.
  - eexists. by apply sq_main_create.
  - eexists. apply sq_main. unfold scope_wait. by rewrite E.
  - eexists. apply sq_main. unfold scope_wait. by rewrite E.
  - eexists. apply sq_main. unfold scope_wait. by rewrite E.
  - destruct (sleeper_worker s Hinv E) as (i & p & Hi & Hp). by eapply worker_quiet.
  - eexists. apply sq_main. unfold scope_wait. by rewrite E.
Qed.

Lemma scope_quiet_live s : scope_inv s → scope_over s ∨ ∃ s', scope_quiet s s'.
Proof.
  intros Hinv. destruct (decide (Forall (λ p, p = WEnd) (workers s))) as [Hall|Hno].
  - destruct (decide (main s = MDone)) as [Hm|Hm]; [left|right; by apply main_quiet].
    split; [done|]. intros i p Hi. by eapply (Forall_lookup_1 _ _ _ _ Hall).
  - right. apply not_Forall_Exists, Exists_exists in Hno as (p & [i Hi]%list_elem_of_lookup_1 & Hp); [|apply _].
    by eapply worker_quiet.
Qed.

(** C17: scoped threads. [scope] returns only when the closure of every thread spawned in
    it, directly or by another scoped thread, has returned and its result is written; while
    the caller sleeps some thread is still to act; and once nobody spawns any more and the kernel
    never returns early, every schedule ends, within a number of steps that the state tells, and
    stops only when [scope] has returned and all its threads have ended. *)
Theorem scope_correct s (Hs : rtc scope_step scope_init s) :
  (main s = MDone → ∀ i p, workers s !! i = Some p → p = WStore ∨ p = WWake ∨ p = WEnd)
  ∧ (main s = MAsleep → ∃ i p, workers s !! i = Some p ∧ p ≠ WEnd)
  ∧ settles scope_quiet scope_over (scope_work s) s.
Proof.
  apply scope_reachable in Hs as Hinv. split_and!.
  - intros E i p Hi. pose proof (si_done s Hinv E) as H0.
    pose proof (flight_pos s i p Hinv Hi) as Hp. destruct p; cbn in Hp; auto; lia.
  - by apply sleeper_worker.
  - apply (settling _ scope_inv _ scope_work); [|apply scope_quiet_live|done|done].
    intros x y Hx Hxy. split; [eapply scope_step_inv, Hx; by apply scope_quiet_step|by apply scope_quiet_work].
Qed.

(** The caller of [scope] sleeps and the only thread is about to set [wake]. *)
Definition sample_scope : ScopeSys := mkScope 0 0 MAsleep [WStore].

Lemma sample_scope_reachable : rtc scope_step scope_init sample_scope.
Proof.
  advance ltac:(by apply ss_main_add).
  advance ltac:(by apply ss_main_create).
  advance ltac:(by apply ss_main_end).
  advance ltac:(by apply ss_main).
  advance ltac:(by apply ss_main).
  advance ltac:(by apply ss_main).
  advance ltac:(by apply (ss_return _ 0)).
  advance ltac:(by apply (ss_worker _ _ 0 WSlot)).
  advance ltac:(by apply (ss_worker _ _ 0 WSub)).
  apply rtc_refl.
Qed.

(** Witness of C17. *)
Lemma scope_correct_witness : ∃ s, rtc scope_quiet sample_scope s ∧ scope_over s.
Proof. apply (scope_correct sample_scope sample_scope_reachable). Defined.

(** The last scoped thread still has to write [wake], in the frame of [scope], when
    [scope] may already have returned: a use of a dead stack frame. *)
Lemma scope_dangling :
  ∃ s, rtc scope_step scope_init s ∧ main s = MDone ∧ workers s = [WStore].
Proof.
  exists (mkScope 0 0 MDone [WStore]). split; [|done].
  advance ltac:(by apply ss_main_add).
  advance ltac:(by apply ss_main_create).
  advance ltac:(by apply ss_main_end).
  advance ltac:(by apply (ss_return _ 0)).
  advance ltac:(by apply (ss_worker _ _ 0 WSlot)).
  advance ltac:(by apply (ss_worker _ _ 0 WSub)).
  advance ltac:(by apply ss_main).
  apply rtc_refl.
Qed.
