(* ===== verification/Clone.v ===== *)
(** The assembly of [__purestd_clone] (src/src/sys_thread.rs) on the five Linux targets, run
    by a small machine: registers, memory in words, forward jumps to numeric labels.

    The listings are kept instruction by instruction; only the combined addressing forms of
    ARM and AArch64 (write-back, register pairs) are written as the separate accesses they
    perform.  The [clone] system call is run from the side of the parent, which gets the thread
    id or an error, or of the child, which gets 0 and continues on the given stack. *)
From S2P Require Import Prelude.
From Stdlib Require Import String.
Open Scope string_scope.
Open Scope Z_scope.

Notation reg := string (only parsing).

Inductive Instr : Type :=
| Li (d : reg) (v : Z)             (* load an immediate; also xor r, r *)
| Mv (d s : reg)
| And (d s : reg) (v : Z)
| Add (d s : reg) (v : Z)
| Ld (d base : reg) (off : Z)
| St (s base : reg) (off : Z)
| Push (r : reg)
| Pop (r : reg)
| Trap                             (* syscall, svc, ecall, int 0x80 *)
| Jz (r : reg) (lab : nat)         (* test and branch if zero *)
| Jnz (r : reg) (lab : nat)
| Label (lab : nat)
| Call (r : reg)
| Ret.

(** What differs between the targets besides the listing. *)
Record Isa := mkIsa {
  word : Z;                  (* bytes in a register *)
  sp : reg;
  number : reg;              (* system call: number, flags, stack and result *)
  flags_reg : reg;
  stack_reg : reg;
  result_reg : reg;
  sys_clone : Z;
  clobbers : list reg;       (* changed by a system call *)
}.

Record Cpu := mkCpu {
  regs : string → Z;
  mem : Z → Z;
  clones : list (Z * Z);     (* flags and stack of each clone so far *)
}.

Definition upd {A} (eqb : A → A → bool) (f : A → Z) (a : A) (v : Z) : A → Z :=
  λ b, if eqb a b then v else f b.

Section machine.
Context (isa : Isa).

Definition bits : Z := 8 * word isa.

Definition set_reg (c : Cpu) (r : reg) (v : Z) : Cpu :=
  mkCpu (upd String.eqb (regs c) r v) (mem c) (clones c).
Definition set_mem (c : Cpu) (a v : Z) : Cpu :=
  mkCpu (regs c) (upd Z.eqb (mem c) a v) (clones c).

(** Which thread we follow, and what it finds in the clobbered registers. *)
Inductive Side : Type := Parent (tid : Z) | Child.

Definition log_clone (c : Cpu) (flags stack : Z) : Cpu :=
  mkCpu (regs c) (mem c) ((flags, stack) :: clones c).

Definition clone_call (side : Side) (junk : Z) (c : Cpu) : option Cpu :=
  if decide (regs c (number isa) = sys_clone isa) then
    let c' := log_clone c (regs c (flags_reg isa)) (regs c (stack_reg isa)) in
    let c' := fold_left (λ c r, set_reg c r junk) (clobbers isa) c' in
    Some (match side with
          | Parent tid => set_reg c' (result_reg isa) tid
          | Child => set_reg (set_reg c' (sp isa) (regs c (stack_reg isa))) (result_reg isa) 0
          end)
  else None.

(** How the routine ends: it returns, or calls the entry of the new thread. *)
Inductive End_ : Type :=
| Returned (c : Cpu)
| Called (target : Z) (c : Cpu).

(** The rest of the program after a label. *)
Fixpoint jump (lab : nat) (prog : list Instr) : list Instr :=
  match prog with
  | [] => []
  | Label l :: prog => if decide (l = lab) then prog else jump lab prog
  | _ :: prog => jump lab prog
  end.

(** Jumps go forward, so the rest of the program is the program counter. *)
Fixpoint run (fuel : nat) (side : Side) (junk : Z) (prog : list Instr) (c : Cpu) : option End_ :=
  match fuel with
  | O => None
  | S fuel =>
      match prog with
      | [] => None
      | i :: prog =>
          let next := run fuel side junk prog in
          let r := regs c in
          match i with
          | Li d v => next (set_reg c d v)
          | Mv d s => next (set_reg c d (r s))
          | And d s v => next (set_reg c d (Z.land (r s) (wrap bits v)))
          | Add d s v => next (set_reg c d (wrap bits (r s + v)))
          | Ld d b off => next (set_reg c d (mem c (wrap bits (r b + off))))
          | St s b off => next (set_mem c (wrap bits (r b + off)) (r s))
          | Push x =>
              let a := wrap bits (r (sp isa) - word isa) in
              next (set_mem (set_reg c (sp isa) a) a (r x))
          | Pop x =>
              next (set_reg (set_reg c x (mem c (r (sp isa)))) (sp isa)
                      (wrap bits (r (sp isa) + word isa)))
          | Trap => c ← clone_call side junk c; next c
          | Jz x lab => if decide (r x = 0) then run fuel side junk (jump lab prog) c else next c
          | Jnz x lab => if decide (r x ≠ 0) then run fuel side junk (jump lab prog) c else next c
          | Label _ => next c
          | Call x => Some (Called (r x) c)
          | Ret => Some (Returned c)
          end
      end
  end.
End machine.

(** ** The listings *)
Definition x86_64 : Isa := mkIsa 8 "rsp" "rax" "rdi" "rsi" "rax" 56 ["rcx"; "r11"].
Definition clone_x86_64 : list Instr := [
  And "rsi" "rsi" (-16);
  Add "rsi" "rsi" (-16);
  St "rdi" "rsi" 0;          (* save entry on child stack *)
  St "rcx" "rsi" 8;          (* save arg *)
  Mv "rdi" "rdx";            (* clone arg1 = flags *)
  Li "rdx" 0;                (* parent_tid = 0 *)
  Li "r10" 0;                (* child_tid = 0 *)
  Li "r8" 0;                 (* tls = 0 *)
  Li "rax" 56;               (* SYS_clone *)
  Trap;
  Jnz "rax" 1;               (* parent: return tid *)
  Li "rbp" 0;
  Pop "rax";                 (* child: rax = entry *)
  Pop "rdi";                 (* rdi = arg *)
  Call "rax";                (* entry(arg); never returns *)
  Li "rax" 60;               (* SYS_exit (fallback) *)
  Li "rdi" 0;
  Trap;
  Label 1;
  Ret ].

Definition aarch64 : Isa := mkIsa 8 "sp" "x8" "x0" "x1" "x0" 220 [].
Definition clone_aarch64 : list Instr := [
  And "x1" "x1" (-16);
  Add "x1" "x1" (-16);       (* stp x0, x3, [x1, #-16]! *)
  St "x0" "x1" 0;
  St "x3" "x1" 8;
  Mv "x0" "x2";              (* clone flags *)
  Li "x2" 0;                 (* parent_tid *)
  Li "x3" 0;                 (* tls *)
  Li "x4" 0;                 (* child_tid *)
  Li "x8" 220;               (* SYS_clone *)
  Trap;
  Jz "x0" 2;                 (* child? *)
  Ret;                       (* parent: return tid *)
  Label 2;
  Ld "x1" "sp" 0;            (* ldp x1, x0, [sp], #16 *)
  Ld "x0" "sp" 8;
  Add "sp" "sp" 16;
  Call "x1";                 (* entry(arg); never returns *)
  Li "x8" 93;                (* SYS_exit (fallback) *)
  Trap ].

Definition riscv64 : Isa := mkIsa 8 "sp" "a7" "a0" "a1" "a0" 220 [].
Definition clone_riscv64 : list Instr := [
  And "a1" "a1" (-16);       (* align child stack *)
  Add "a1" "a1" (-16);       (* reserve a slot for entry+arg *)
  St "a0" "a1" 0;            (* save entry on child stack *)
  St "a3" "a1" 8;            (* save arg *)
  Mv "a0" "a2";              (* clone arg0 = flags *)
  Li "a2" 0;                 (* parent_tid *)
  Li "a3" 0;                 (* tls *)
  Li "a4" 0;                 (* child_tid *)
  Li "a7" 220;               (* SYS_clone *)
  Trap;
  Jnz "a0" 1;                (* parent: a0 = child tid *)
  Ld "a1" "sp" 0;            (* child: a1 = entry *)
  Ld "a0" "sp" 8;            (* a0 = arg *)
  Call "a1";                 (* entry(arg); never returns *)
  Li "a7" 93;                (* SYS_exit (fallback) *)
  Li "a0" 0;
  Trap;
  Label 1;
  Ret ].

Definition i686 : Isa := mkIsa 4 "esp" "eax" "ebx" "ecx" "eax" 120 [].
Definition clone_i686 : list Instr := [
  Push "ebx";
  Push "esi";
  Push "edi";
  Ld "ecx" "esp" 20;         (* ecx = stack_top *)
  And "ecx" "ecx" (-16);
  Ld "eax" "esp" 28;         (* arg *)
  St "eax" "ecx" (-4);       (* save arg near the top of the child stack *)
  Ld "eax" "esp" 16;         (* entry *)
  St "eax" "ecx" (-8);       (* save entry *)
  Add "ecx" "ecx" (-8);      (* child sp -> [entry, arg] *)
  Ld "ebx" "esp" 24;         (* ebx = clone flags *)
  Li "edx" 0;                (* parent_tid *)
  Li "esi" 0;                (* tls *)
  Li "edi" 0;                (* child_tid *)
  Li "eax" 120;              (* SYS_clone *)
  Trap;
  Jz "eax" 2;                (* child? *)
  Pop "edi";                 (* parent: restore callee-saved, return tid *)
  Pop "esi";
  Pop "ebx";
  Ret;
  Label 2;                   (* child runs on the new stack (esp = ecx) *)
  Pop "eax";                 (* eax = entry; esp now points at arg *)
  Call "eax";                (* entry(arg); never returns *)
  Li "eax" 1;                (* SYS_exit (fallback) *)
  Li "ebx" 0;
  Trap ].

Definition arm : Isa := mkIsa 4 "sp" "r7" "r0" "r1" "r0" 120 [].
Definition clone_arm : list Instr := [
  Add "sp" "sp" (-8);        (* push {r4, r7} *)
  St "r4" "sp" 0;
  St "r7" "sp" 4;
  And "r1" "r1" (-16);       (* bic r1, r1, #15: align child stack *)
  Add "r1" "r1" (-8);        (* str r0, [r1, #-8]! *)
  St "r0" "r1" 0;            (* save entry at [r1] *)
  St "r3" "r1" 4;            (* save arg at [r1+4] *)
  Mv "r0" "r2";              (* clone flags *)
  Li "r2" 0;                 (* parent_tid *)
  Li "r3" 0;                 (* tls *)
  Li "r4" 0;                 (* child_tid *)
  Li "r7" 120;               (* SYS_clone *)
  Trap;
  Jnz "r0" 1;                (* cmp r0, #0; bne 1f *)
  Ld "r1" "sp" 0;            (* child (sp = new stack): r1 = entry *)
  Ld "r0" "sp" 4;            (* r0 = arg *)
  Call "r1";                 (* entry(arg); never returns *)
  Li "r7" 1;                 (* SYS_exit (fallback) *)
  Li "r0" 0;
  Trap;
  Label 1;
  Ld "r4" "sp" 0;            (* pop {r4, r7} *)
  Ld "r7" "sp" 4;
  Add "sp" "sp" 8;
  Ret ].

(** ** The routine on a target *)
Definition isa_of (t : Target) : Isa :=
  match t with
  | Aarch64Linux => aarch64 | Riscv64Linux => riscv64 | I686Linux => i686 | ArmLinux => arm
  | _ => x86_64
  end.

Definition purestd_clone (t : Target) : list Instr :=
  match t with
  | X86_64Linux => clone_x86_64 | Aarch64Linux => clone_aarch64 | Riscv64Linux => clone_riscv64
  | I686Linux => clone_i686 | ArmLinux => clone_arm
  | _ => []
  end.

(** The C calling convention: where the caller put the four arguments ... *)
Definition called_with (t : Target) (c : Cpu) (entry top flags arg : Z) : Prop :=
  match t with
  | X86_64Linux => regs c "rdi" = entry ∧ regs c "rsi" = top ∧ regs c "rdx" = flags ∧ regs c "rcx" = arg
  | Aarch64Linux => regs c "x0" = entry ∧ regs c "x1" = top ∧ regs c "x2" = flags ∧ regs c "x3" = arg
  | Riscv64Linux => regs c "a0" = entry ∧ regs c "a1" = top ∧ regs c "a2" = flags ∧ regs c "a3" = arg
  | ArmLinux => regs c "r0" = entry ∧ regs c "r1" = top ∧ regs c "r2" = flags ∧ regs c "r3" = arg
  | I686Linux =>
      mem c (regs c "esp" + 4) = entry ∧ mem c (regs c "esp" + 8) = top
      ∧ mem c (regs c "esp" + 12) = flags ∧ mem c (regs c "esp" + 16) = arg
  | _ => False
  end.

(** ... where a function called now finds its first argument, ... *)
Definition first_arg (t : Target) (c : Cpu) : Z :=
  match t with
  | Aarch64Linux => regs c "x0" | Riscv64Linux => regs c "a0" | ArmLinux => regs c "r0"
  | I686Linux => mem c (regs c "esp")   (* above the return address the call pushes *)
  | _ => regs c "rdi"
  end.

(** ... and the registers a function has to restore. *)
Definition callee_saved (t : Target) : list string :=
  match t with
  | X86_64Linux => ["rbx"; "rbp"; "r12"; "r13"; "r14"; "r15"]
  | Aarch64Linux => ["x19"; "x20"; "x21"; "x22"; "x23"; "x24"; "x25"; "x26"; "x27"; "x28"; "x29"; "x30"]
  | Riscv64Linux => ["ra"; "s0"; "s1"; "s2"; "s3"; "s4"; "s5"; "s6"; "s7"; "s8"; "s9"; "s10"; "s11"]
  | I686Linux => ["ebx"; "esi"; "edi"; "ebp"]
  | ArmLinux => ["r4"; "r5"; "r6"; "r7"; "r8"; "r9"; "r10"; "r11"; "lr"]
  | _ => []
  end.

(** The aligned top of the child's stack. *)
Definition child_top (top : Z) : Z := top - top mod 16.

(** ** Running a listing symbolically *)
Lemma regs_set_reg c d v r : regs (set_reg c d v) r = if String.eqb d r then v else regs c r.
Proof. done. Qed.
Lemma regs_set_mem c a v r : regs (set_mem c a v) r = regs c r.
Proof. done. Qed.
Lemma mem_set_reg c d v a : mem (set_reg c d v) a = mem c a.
Proof. done. Qed.
Lemma mem_set_mem c a v b : mem (set_mem c a v) b = if a =? b then v else mem c b.
Proof. done. Qed.
Lemma clones_set_reg c d v : clones (set_reg c d v) = clones c.
Proof. done. Qed.
Lemma clones_set_mem c a v : clones (set_mem c a v) = clones c.
Proof. done. Qed.

Lemma regs_log_clone c f k r : regs (log_clone c f k) r = regs c r.
Proof. done. Qed.
Lemma mem_log_clone c f k a : mem (log_clone c f k) a = mem c a.
Proof. done. Qed.
Lemma clones_log_clone c f k : clones (log_clone c f k) = (f, k) :: clones c.
Proof. done. Qed.

Create HintDb cpu discriminated.
#[export] Hint Rewrite regs_set_reg regs_set_mem mem_set_reg mem_set_mem clones_set_reg
  clones_set_mem regs_log_clone mem_log_clone clones_log_clone : cpu.

Lemma clone_call_ok isa sd j c :
  regs c (number isa) = sys_clone isa →
  clone_call isa sd j c = Some (
    let c' := fold_left (λ c r, set_reg c r j) (clobbers isa)
                (log_clone c (regs c (flags_reg isa)) (regs c (stack_reg isa))) in
    match sd with
    | Parent tid => set_reg c' (result_reg isa) tid
    | Child => set_reg (set_reg c' (sp isa) (regs c (stack_reg isa))) (result_reg isa) 0
    end).
Proof. intros H. unfold clone_call. by rewrite decide_True. Qed.

Lemma run_cons isa n sd j i p c :
  run isa (S n) sd j (i :: p) c =
  match i with
  | Li d v => run isa n sd j p (set_reg c d v)
  | Mv d s => run isa n sd j p (set_reg c d (regs c s))
  | And d s v => run isa n sd j p (set_reg c d (Z.land (regs c s) (wrap (bits isa) v)))
  | Add d s v => run isa n sd j p (set_reg c d (wrap (bits isa) (regs c s + v)))
  | Ld d b off => run isa n sd j p (set_reg c d (mem c (wrap (bits isa) (regs c b + off))))
  | St s b off => run isa n sd j p (set_mem c (wrap (bits isa) (regs c b + off)) (regs c s))
  | Push x =>
      let a := wrap (bits isa) (regs c (sp isa) - word isa) in
      run isa n sd j p (set_mem (set_reg c (sp isa) a) a (regs c x))
  | Pop x =>
      run isa n sd j p (set_reg (set_reg c x (mem c (regs c (sp isa)))) (sp isa)
        (wrap (bits isa) (regs c (sp isa) + word isa)))
  | Trap => c ← clone_call isa sd j c; run isa n sd j p c
  | Jz x lab => if decide (regs c x = 0) then run isa n sd j (jump lab p) c else run isa n sd j p c
  | Jnz x lab => if decide (regs c x ≠ 0) then run isa n sd j (jump lab p) c else run isa n sd j p c
  | Label _ => run isa n sd j p c
  | Call x => Some (Called (regs c x) c)
  | Ret => Some (Returned c)
  end.
Proof. by destruct i. Qed.

(** Simplify what registers and memory hold. *)
Ltac reads :=
  autorewrite with cpu;
  cbn [String.eqb Ascii.eqb Bool.eqb sp number flags_reg stack_reg result_reg sys_clone
       clobbers word fold_left x86_64 aarch64 riscv64 i686 arm].

(** Run one instruction. *)
Ltac exec :=
  rewrite run_cons; cbn zeta;
  try (rewrite clone_call_ok by (by reads); cbn zeta; unfold mbind, option_bind);
  reads;
  repeat first [rewrite decide_True by done | rewrite decide_False by (by auto)];
  cbn [jump];
  repeat first [rewrite decide_True by done | rewrite decide_False by done].

Lemma land_align w top :
  4 ≤ w → 0 ≤ top < 2 ^ w → Z.land top (wrap w (-16)) = child_top top.
Proof. intros Hw Ht. by apply (land_lnot_ones w 4 top). Qed.

(** The four arguments are in place, the stacks of the two threads are apart and stack
    pointers are aligned to words. *)
Record call_ok (t : Target) (c : Cpu) (entry top flags arg : Z) : Prop := {
  ok_args : called_with t c entry top flags arg;
  ok_top : 0 ≤ top < 2 ^ bits (isa_of t);
  ok_room : 16 ≤ child_top top;
  ok_sp : 12 ≤ regs c (sp (isa_of t)) ≤ 2 ^ bits (isa_of t) - 20;
  ok_word : regs c (sp (isa_of t)) mod word (isa_of t) = 0;
  ok_apart : child_top top ≤ regs c (sp (isa_of t)) - 12
             ∨ regs c (sp (isa_of t)) + 20 ≤ child_top top - 16;
}.

(** Where the child's stack pointer starts. *)
Definition child_sp (t : Target) (top : Z) : Z :=
  child_top top - match t with I686Linux | ArmLinux => 8 | _ => 16 end.

(** The parent's side: the result is returned, everything the caller relies on is as before, and
    memory changes only in the child's stack and below the caller's. *)
Record parent_ok (t : Target) (c : Cpu) (top flags tid : Z) (c' : Cpu) : Prop := {
  po_result : regs c' (result_reg (isa_of t)) = tid;
  po_sp : regs c' (sp (isa_of t)) = regs c (sp (isa_of t));
  po_saved : Forall (λ r, regs c' r = regs c r) (callee_saved t);
  po_clone : clones c' = (flags, child_sp t top) :: clones c;
  po_mem : ∀ a, mem c' a = mem c a ∨ child_top top - 16 ≤ a < child_top top
                ∨ regs c (sp (isa_of t)) - 12 ≤ a < regs c (sp (isa_of t));
}.

(** The child's side, at the call of its entry: the argument is in place and the stack
    pointer is in the new stack, aligned to two words. *)
Record child_ok (t : Target) (c : Cpu) (top flags arg : Z) (c' : Cpu) : Prop := {
  ch_arg : first_arg t c' = arg;
  ch_sp : child_sp t top ≤ regs c' (sp (isa_of t)) ≤ child_top top;
  ch_clone : clones c' = (flags, child_sp t top) :: clones c;
}.

Ltac words :=
  repeat match goal with
  | |- context [?a =? ?b] => destruct (Z.eqb_spec a b); try lia
  end.

(** Clean up addresses once the aligned top is known to be in range. *)
Ltac addresses :=
  change (bits x86_64) with 64 in *; change (bits aarch64) with 64 in *;
  change (bits riscv64) with 64 in *; change (bits i686) with 32 in *;
  change (bits arm) with 32 in *;
  rewrite ?land_align by lia;
  repeat match goal with |- context [wrap ?w ?x] => rewrite (wrap_small w x) by lia end.

Lemma child_top_le top : child_top top ≤ top.
Proof. unfold child_top. pose proof (Z.mod_pos_bound top 16 eq_refl). lia. Qed.

(** The arguments of the call and its stack, by name. *)
Ltac start H E1 E2 E3 E4 :=
  destruct H as [(E1 & E2 & E3 & E4) Htop Hroom Hsp Hword Hapart];
  cbn [isa_of sp word x86_64 aarch64 riscv64 i686 arm] in *;
  change (bits x86_64) with 64 in *; change (bits aarch64) with 64 in *;
  change (bits riscv64) with 64 in *; change (bits i686) with 32 in *;
  change (bits arm) with 32 in *.

Ltac prove_parent :=
  eexists; (split; [reflexivity|]);
  constructor; unfold child_sp; cbn [isa_of callee_saved]; reads;
  [ done | done | repeat (apply Forall_cons_2; [by reads|]); apply Forall_nil_2
  | by addresses
  | intros a; reads; addresses; words; first [by left | right; lia] ].


(** Decide which stored word is read. *)
Ltac resolve :=
  addresses;
  repeat match goal with
  | |- context [?a =? ?b] =>
      first [rewrite (proj2 (Z.eqb_eq a b)) by lia | rewrite (proj2 (Z.eqb_neq a b)) by lia]
  end.

Ltac prove_child :=
  resolve; eexists; (split; [reflexivity|]);
  constructor; unfold child_sp, first_arg; cbn [isa_of]; reads; addresses; words; try done; lia.

Lemma parent_x86_64 c entry top flags arg tid j :
  call_ok X86_64Linux c entry top flags arg → tid ≠ 0 →
  ∃ c', run x86_64 40 (Parent tid) j clone_x86_64 c = Some (Returned c')
        ∧ parent_ok X86_64Linux c top flags tid c'.
Proof.
  intros H Htid. pose proof (child_top_le top). start H E1 E2 E3 E4. subst.
  unfold clone_x86_64. do 12 exec. prove_parent.
Qed.

Lemma parent_aarch64 c entry top flags arg tid j :
  call_ok Aarch64Linux c entry top flags arg → tid ≠ 0 →
  ∃ c', run aarch64 40 (Parent tid) j clone_aarch64 c = Some (Returned c')
        ∧ parent_ok Aarch64Linux c top flags tid c'.
Proof.
  intros H Htid. pose proof (child_top_le top). start H E1 E2 E3 E4. subst.
  unfold clone_aarch64. do 12 exec. prove_parent.
Qed.

Lemma parent_riscv64 c entry top flags arg tid j :
  call_ok Riscv64Linux c entry top flags arg → tid ≠ 0 →
  ∃ c', run riscv64 40 (Parent tid) j clone_riscv64 c = Some (Returned c')
        ∧ parent_ok Riscv64Linux c top flags tid c'.
Proof.
  intros H Htid. pose proof (child_top_le top). start H E1 E2 E3 E4. subst.
  unfold clone_riscv64. do 12 exec. prove_parent.
Qed.

Lemma child_x86_64 c entry top flags arg j :
  call_ok X86_64Linux c entry top flags arg →
  ∃ c', run x86_64 40 Child j clone_x86_64 c = Some (Called entry c')
        ∧ child_ok X86_64Linux c top flags arg c'.
Proof.
  intros H. pose proof (child_top_le top). start H E1 E2 E3 E4. subst.
  unfold clone_x86_64. do 15 exec. prove_child.
Qed.

Lemma child_aarch64 c entry top flags arg j :
  call_ok Aarch64Linux c entry top flags arg →
  ∃ c', run aarch64 40 Child j clone_aarch64 c = Some (Called entry c')
        ∧ child_ok Aarch64Linux c top flags arg c'.
Proof.
  intros H. pose proof (child_top_le top). start H E1 E2 E3 E4. subst.
  unfold clone_aarch64. do 15 exec. prove_child.
Qed.

Lemma child_riscv64 c entry top flags arg j :
  call_ok Riscv64Linux c entry top flags arg →
  ∃ c', run riscv64 40 Child j clone_riscv64 c = Some (Called entry c')
        ∧ child_ok Riscv64Linux c top flags arg c'.
Proof.
  intros H. pose proof (child_top_le top). start H E1 E2 E3 E4. subst.
  unfold clone_riscv64. do 14 exec. prove_child.
Qed.

(** Run one instruction of the i386 listing; an argument is read from the caller's frame. *)
Ltac exec_frame c E1 E2 E3 E4 :=
  exec; resolve;
  replace (regs c "esp" - 4 - 4 - 4 + 16) with (regs c "esp" + 4) by lia;
  replace (regs c "esp" - 4 - 4 - 4 + 20) with (regs c "esp" + 8) by lia;
  replace (regs c "esp" - 4 - 4 - 4 + 24) with (regs c "esp" + 12) by lia;
  replace (regs c "esp" - 4 - 4 - 4 + 28) with (regs c "esp" + 16) by lia;
  rewrite ?E1, ?E2, ?E3, ?E4.

Lemma parent_i686 c entry top flags arg tid j :
  call_ok I686Linux c entry top flags arg → tid ≠ 0 →
  ∃ c', run i686 40 (Parent tid) j clone_i686 c = Some (Returned c')
        ∧ parent_ok I686Linux c top flags tid c'.
Proof.
  intros H Htid. pose proof (child_top_le top). start H E1 E2 E3 E4.
  unfold clone_i686. do 21 exec_frame c E1 E2 E3 E4.
  eexists; (split; [reflexivity|]). constructor; unfold child_sp; cbn [isa_of callee_saved]; reads.
  - done.
  - lia.
  - repeat (apply Forall_cons_2; [by reads|]); apply Forall_nil_2.
  - f_equal; f_equal; lia.
  - intros a; reads; words; first [by left | right; lia].
Qed.

Lemma child_i686 c entry top flags arg j :
  call_ok I686Linux c entry top flags arg →
  ∃ c', run i686 40 Child j clone_i686 c = Some (Called entry c')
        ∧ child_ok I686Linux c top flags arg c'
        ∧ regs c' "esp" = child_top top - 4.
Proof.
  intros H. pose proof (child_top_le top). start H E1 E2 E3 E4.
  unfold clone_i686. do 19 exec_frame c E1 E2 E3 E4.
  eexists; (split; [reflexivity|]). split; [|reads; lia].
  constructor; unfold child_sp, first_arg; cbn [isa_of]; reads; resolve;
    first [done | lia | f_equal; f_equal; lia].
Qed.

Lemma parent_arm c entry top flags arg tid j :
  call_ok ArmLinux c entry top flags arg → tid ≠ 0 →
  ∃ c', run arm 40 (Parent tid) j clone_arm c = Some (Returned c')
        ∧ parent_ok ArmLinux c top flags tid c'.
Proof.
  intros H Htid. pose proof (child_top_le top). start H E1 E2 E3 E4. subst.
  unfold clone_arm. do 18 (exec; resolve).
  eexists; (split; [reflexivity|]). constructor; unfold child_sp; cbn [isa_of callee_saved]; reads.
  - done.
  - lia.
  - repeat (apply Forall_cons_2; [by reads|]); apply Forall_nil_2.
  - f_equal; f_equal; lia.
  - intros a; reads; words; first [by left | right; lia].
Qed.

Lemma child_arm c entry top flags arg j :
  call_ok ArmLinux c entry top flags arg →
  ∃ c', run arm 40 Child j clone_arm c = Some (Called entry c')
        ∧ child_ok ArmLinux c top flags arg c'.
Proof.
  intros H. pose proof (child_top_le top). start H E1 E2 E3 E4. subst.
  unfold clone_arm. do 17 (exec; resolve). prove_child.
Qed.

(** C18: thread creation. On each Linux target, called by the C convention with the two
    stacks apart, the routine issues one [clone] with the given flags and an address
    in the new stack.  In the parent it returns the kernel's answer with the stack pointer
    and the callee-saved registers restored, having written only to the new stack and
    below its own; in the child it calls [entry] on the new stack with [arg] as argument. *)
Theorem clone_correct t c entry top flags arg tid j (Ht : is_linux t = true)
    (H : call_ok t c entry top flags arg) (Htid : tid ≠ 0) :
  (∃ c', run (isa_of t) 40 (Parent tid) j (purestd_clone t) c = Some (Returned c')
         ∧ parent_ok t c top flags tid c')
  ∧ (∃ c', run (isa_of t) 40 Child j (purestd_clone t) c = Some (Called entry c')
           ∧ child_ok t c top flags arg c').
Proof.
  destruct t; try done; split; cbn [isa_of purestd_clone].
  - exact (parent_x86_64 c entry top flags arg tid j H Htid).
  - exact (child_x86_64 c entry top flags arg j H).
  - exact (parent_aarch64 c entry top flags arg tid j H Htid).
  - exact (child_aarch64 c entry top flags arg j H).
  - exact (parent_riscv64 c entry top flags arg tid j H Htid).
  - exact (child_riscv64 c entry top flags arg j H).
  - exact (parent_i686 c entry top flags arg tid j H Htid).
  - destruct (child_i686 c entry top flags arg j H) as (c' & Hr & Hc & _).
    exact (ex_intro _ c' (conj Hr Hc)).
  - exact (parent_arm c entry top flags arg tid j H Htid).
  - exact (child_arm c entry top flags arg j H).
Qed.

(** A caller on 64-bit x86 with its stack at 0x7000 and a new one that ends at 0x5008. *)
Definition sample_cpu : Cpu :=
  mkCpu (λ r, if String.eqb r "rdi" then 0x401000 else if String.eqb r "rsi" then 0x5008
              else if String.eqb r "rdx" then 0x50f00 else if String.eqb r "rcx" then 42
              else if String.eqb r "rsp" then 0x7000 else 0)
        (λ _, 0) [].

(** Witness of C18. *)
Lemma clone_correct_witness :
  ∃ c', run x86_64 40 Child 0 clone_x86_64 sample_cpu = Some (Called 0x401000 c')
        ∧ regs c' "rdi" = 42.
Proof.
  destruct (clone_correct X86_64Linux sample_cpu 0x401000 0x5008 0x50f00 42 7 0)
    as [_ (c' & Hr & Hc)].
  - reflexivity.
  - constructor; [by split_and!|done|done|done|done|by left].
  - done.
  - exists c'. split; [exact Hr|exact (ch_arg _ _ _ _ _ _ Hc)].
Defined.

(** On 32-bit x86 the stack pointer at the call of the entry is 12 above a multiple of 16; the
    psABI wants a multiple of 16 there. *)
Lemma clone_i686_misaligned c entry top flags arg j :
  call_ok I686Linux c entry top flags arg →
  ∃ c', run i686 40 Child j clone_i686 c = Some (Called entry c') ∧ regs c' "esp" mod 16 = 12.
Proof.
  intros H. destruct (child_i686 c entry top flags arg j H) as (c' & Hr & _ & E).
  exists c'. split; [done|]. rewrite E. unfold child_top. pose proof (Z.div_mod top 16 ltac:(done)).
  replace (top - top mod 16 - 4) with (12 + (top / 16 - 1) * 16) by lia.
  by rewrite Z.mod_add by done.
Qed.
