(* ===== verification/Net.v ===== *)
(** Socket addresses and DNS messages (src/src/net.rs).

    The wire formats: [sockaddr] on both kernel families, the DNS query and the
    scanner of DNS answers, and the [timeval] of the timeout options.  [None] is a
    panic (an index out of range); the scanners themselves fail with [Some None]. *)
From S2P Require Import Prelude Str Io.

(** * Addresses *)
Inductive IpAddr : Type :=
| V4 (octets : list Z)
| V6 (octets : list Z).

Inductive SocketAddr : Type :=
| SockV4 (ip : list Z) (port : Z)
| SockV6 (ip : list Z) (port flowinfo scope_id : Z).

#[export] Instance IpAddr_eq_dec : EqDecision IpAddr.
Proof. solve_decision. Defined.
#[export] Instance SocketAddr_eq_dec : EqDecision SocketAddr.
Proof. solve_decision. Defined.

(** [SocketAddr::new] *)
Definition socket_addr (ip : IpAddr) (port : Z) : SocketAddr :=
  match ip with
  | V4 o => SockV4 o port
  | V6 o => SockV6 o port 0 0
  end.

Definition AF_INET : Z := 2.
Definition AF_INET6 (t : Target) : Z := if is_macos t then 30 else 10.

(** [b[off..off + bytes.len()].copy_from_slice(bytes)] *)
Definition write_at (b : list Z) (off : nat) (bytes : list Z) : list Z :=
  take off b ++ bytes ++ drop (off + length bytes) b.

Definition write_sockaddr (t : Target) (addr : SocketAddr) : list Z * Z :=
  let b := replicate 28 0 in
  match addr with
  | SockV4 ip port =>
      let b := if is_macos t then write_at (write_at b 0 [16]) 1 [AF_INET]
               else write_at b 0 (to_le_bytes 2 AF_INET) in
      let b := write_at b 2 (to_be_bytes 2 port) in
      let b := write_at b 4 ip in
      (b, 16)
  | SockV6 ip port _ scope =>
      let b := if is_macos t then write_at (write_at b 0 [28]) 1 [AF_INET6 t]
               else write_at b 0 (to_le_bytes 2 (AF_INET6 t)) in
      let b := write_at b 2 (to_be_bytes 2 port) in
      let b := write_at b 8 ip in
      let b := write_at b 24 (to_le_bytes 4 scope) in
      (b, 28)
  end.

Definition read_sockaddr (t : Target) (b : list Z) : option (option SocketAddr) :=
  let len := Z.of_nat (length b) in
  if decide (len < 8) then Some None
  else
    fam ← (if is_macos t then index b 1 else from_le_bytes <$> slice b 0 2);
    if decide (fam = AF_INET) then
      port ← slice b 2 4;
      ip ← slice b 4 8;
      Some (Some (SockV4 ip (from_be_bytes port)))
    else if decide (fam = AF_INET6 t ∧ 28 ≤ len) then
      port ← slice b 2 4;
      oct ← slice b 8 24;
      scope ← slice b 24 28;
      Some (Some (SockV6 oct (from_be_bytes port) 0 (from_le_bytes scope)))
    else Some None.

Definition family_of (t : Target) (addr : SocketAddr) : Z :=
  match addr with SockV4 _ _ => AF_INET | SockV6 _ _ _ _ => AF_INET6 t end.

(** * DNS *)
(** The labels of a host name, or [InvalidInput]. *)
Fixpoint encode_labels (labels : list str) : result (list Z) Error :=
  match labels with
  | [] => Ok []
  | l :: labels =>
      if decide (l = [] ∨ (63 < length l)%nat) then Err (Simple InvalidInput)
      else
        let? rest := encode_labels labels in
        Ok (Z.of_nat (length l) :: as_bytes l ++ rest)
  end.

(** The query [dns_query] builds. *)
Definition build_query (id : list Z) (host : str) (qtype : Z) : result (list Z) Error :=
  let q := id ++ [0x01; 0x00] ++ [0x00; 0x01] ++ [0; 0; 0; 0; 0; 0] in
  let? labels := encode_labels (split "."%char host) in
  Ok (q ++ labels ++ [0] ++ to_be_bytes 2 qtype ++ to_be_bytes 2 1).

(** [skip_name]: the inner [option] is the source's; the loop moves forward by at least one
    byte a turn. *)
Fixpoint skip_name (fuel : nat) (msg : list Z) (p : Z) : option (option Z) :=
  match fuel with
  | O => None
  | S fuel =>
      match index msg p with
      | None => Some None
      | Some len =>
          if decide (Z.land len 0xc0 = 0xc0) then Some (Some (p + 2))
          else if decide (len = 0) then Some (Some (p + 1))
          else skip_name fuel msg (p + (1 + len))
      end
  end.

Definition name_fuel (msg : list Z) : nat := S (length msg).

(** [for _ in 0..qd { p = skip_name(msg, p)?; p += 4; }] *)
Fixpoint skip_questions (qd : nat) (msg : list Z) (p : Z) : option (option Z) :=
  match qd with
  | O => Some (Some p)
  | S qd =>
      r ← skip_name (name_fuel msg) msg p;
      match r with
      | None => Some None
      | Some p => skip_questions qd msg (p + 4)
      end
  end.

(** The address in the data of a record of the queried type. *)
Definition answer_ip (msg : list Z) (p rtype qtype rdlen : Z) : option (list IpAddr) :=
  if decide (rtype = qtype) then
    if decide (qtype = 1 ∧ rdlen = 4) then
      o ← slice msg p (p + 4); Some [V4 o]
    else if decide (qtype = 28 ∧ rdlen = 16) then
      o ← slice msg p (p + 16); Some [V6 o]
    else Some []
  else Some [].

Fixpoint scan_answers (an : nat) (msg : list Z) (p qtype : Z) (out : list IpAddr)
    : option (option (list IpAddr)) :=
  match an with
  | O => Some (Some out)
  | S an =>
      r ← skip_name (name_fuel msg) msg p;
      match r with
      | None => Some None
      | Some p =>
          let len := Z.of_nat (length msg) in
          if decide (len < p + 10) then Some (Some out)
          else
            rt ← slice msg p (p + 2);
            rl ← slice msg (p + 8) (p + 10);
            let rtype := from_be_bytes rt in
            let rdlen := from_be_bytes rl in
            let p := p + 10 in
            if decide (len < p + rdlen) then Some (Some out)
            else
              ips ← answer_ip msg p rtype qtype rdlen;
              scan_answers an msg (p + rdlen) qtype (out ++ ips)
      end
  end.

Definition parse_dns_answers (msg : list Z) (qtype : Z) : option (option (list IpAddr)) :=
  if decide (Z.of_nat (length msg) < 12) then Some None
  else
    qd ← slice msg 4 6;
    an ← slice msg 6 8;
    r ← skip_questions (Z.to_nat (from_be_bytes qd)) msg 12;
    match r with
    | None => Some None
    | Some p => scan_answers (Z.to_nat (from_be_bytes an)) msg p qtype []
    end.

(** * Socket options *)


Definition encode_timeval (t : Target) (dur : option Duration) : list Z * Z :=
  let tv := replicate 16 0 in
  if is_linux32 t then
    (match dur with
     | Some d => write_at (write_at tv 0 (to_le_bytes 4 (secs d))) 4 (to_le_bytes 4 (subsec_micros d))
     | None => tv
     end, 8)
  else
    (match dur with
     | Some d =>
         let tv := write_at tv 0 (to_le_bytes 8 (secs d)) in
         if is_macos t then write_at tv 8 (to_le_bytes 4 (subsec_micros d))
         else write_at tv 8 (to_le_bytes 8 (subsec_micros d))
     | None => tv
     end, 16).

(** * Round trips *)
Lemma length_to_be_bytes n x : length (to_be_bytes n x) = n.
Proof. unfold to_be_bytes. by rewrite length_reverse, length_to_le_bytes. Qed.

Lemma from_to_be_bytes n x : from_be_bytes (to_be_bytes n x) = wrap (8 * Z.of_nat n) x.
Proof. unfold from_be_bytes, to_be_bytes. by rewrite reverse_involutive, from_to_le_bytes. Qed.

Definition valid_sockaddr (a : SocketAddr) : Prop :=
  match a with
  | SockV4 ip port => length ip = 4%nat ∧ 0 ≤ port < 2 ^ 16
  | SockV6 ip port _ scope =>
      length ip = 16%nat ∧ 0 ≤ port < 2 ^ 16 ∧ 0 ≤ scope < 2 ^ 32
  end.

(** The part of an address that goes through the kernel's structure. *)
Definition on_wire (a : SocketAddr) : SocketAddr :=
  match a with
  | SockV4 ip port => SockV4 ip port
  | SockV6 ip port _ scope => SockV6 ip port 0 scope
  end.

(** Socket addresses survive the kernel's [sockaddr] on every target: reading back the
    28 bytes gives the same family, address, port and scope (an IPv6 flow label is
    written as 0); the length is that of the family's structure. *)
Theorem sockaddr_roundtrip t a (Ha : valid_sockaddr a) :
  let '(b, len) := write_sockaddr t a in
  length b = 28%nat ∧ read_sockaddr t b = Some (Some (on_wire a))
  ∧ len = (match a with SockV4 _ _ => 16 | SockV6 _ _ _ _ => 28 end)
  ∧ family_of t (on_wire a) = family_of t a.
Proof.
  destruct a as [ip port|ip port flow scope]; cbn [valid_sockaddr on_wire] in *.
  - destruct Ha as [Hip Hport].
    assert (from_be_bytes (to_be_bytes 2 port) = port) as Hp
      by (rewrite from_to_be_bytes; by apply wrap_small).
    pose proof (length_to_be_bytes 2 port) as Hpl. unfold write_sockaddr.
    destruct (to_be_bytes 2 port) as [|p0 [|p1 [|]]]; try discriminate Hpl.
    destruct ip as [|o0 [|o1 [|o2 [|o3 [|]]]]]; try discriminate Hip.
    rewrite <-Hp. destruct t; repeat split; reflexivity.
  - destruct Ha as (Hip & Hport & Hscope).
    assert (from_be_bytes (to_be_bytes 2 port) = port) as Hp
      by (rewrite from_to_be_bytes; by apply wrap_small).
    assert (from_le_bytes (to_le_bytes 4 scope) = scope) as Hs
      by (rewrite from_to_le_bytes; by apply wrap_small).
    pose proof (length_to_be_bytes 2 port) as Hpl. pose proof (length_to_le_bytes 4 scope) as Hsl.
    unfold write_sockaddr.
    destruct (to_be_bytes 2 port) as [|p0 [|p1 [|]]]; try discriminate Hpl.
    destruct (to_le_bytes 4 scope) as [|s0 [|s1 [|s2 [|s3 [|]]]]]; try discriminate Hsl.
    do 16 (destruct ip as [|? ip]; [discriminate Hip|]). destruct ip; [|discriminate Hip].
    rewrite <-Hp, <-Hs. destruct t; repeat split; reflexivity.
Qed.

(** ** The scanner never reads out of range *)
Definition is_bytes (msg : list Z) : Prop := Forall is_byte msg.

Lemma index_byte msg p x : is_bytes msg → index msg p = Some x → is_byte x.
Proof.
  unfold index. intros Hm. destruct (decide (0 ≤ p)); [|done]. intros Hx.
  by eapply Forall_lookup_1.
Qed.

Lemma skip_name_loop fuel msg p :
  is_bytes msg → 0 ≤ p → Z.max 0 (Z.of_nat (length msg) - p) < Z.of_nat fuel →
  ∃ r, skip_name fuel msg p = Some r ∧ (∀ q, r = Some q → p < q).
Proof.
  intros Hm. revert p. induction fuel as [|fuel IH]; intros p Hp Hf; [lia|]. cbn [skip_name].
  destruct (index msg p) as [len|] eqn:E; [|by exists None].
  pose proof (index_byte msg p len Hm E) as Hb. unfold is_byte in Hb.
  apply index_Some_range in E.
  destruct (decide _); [eexists; split; [done|]; intros q [= <-]; lia|].
  destruct (decide (len = 0)); [eexists; split; [done|]; intros q [= <-]; lia|].
  destruct (IH (p + (1 + len))) as (r & -> & Hr); [lia|lia|].
  exists r. split; [done|]. intros q Hq. specialize (Hr q Hq). lia.
Qed.

Lemma skip_name_total msg p :
  is_bytes msg → 0 ≤ p →
  ∃ r, skip_name (name_fuel msg) msg p = Some r ∧ (∀ q, r = Some q → p < q).
Proof. intros Hm Hp. apply skip_name_loop; [done|done|unfold name_fuel; lia]. Qed.

Lemma skip_questions_total qd msg p :
  is_bytes msg → 0 ≤ p →
  ∃ r, skip_questions qd msg p = Some r ∧ (∀ q, r = Some q → p ≤ q).
Proof.
  intros Hm. revert p. induction qd as [|qd IH]; intros p Hp; cbn [skip_questions].
  { eexists. split; [done|]. intros q [= <-]. lia. }
  destruct (skip_name_total msg p Hm Hp) as ([q|] & -> & Hq); cbn [mbind option_bind];
    [|by exists None].
  specialize (Hq q eq_refl). destruct (IH (q + 4)) as (r & -> & Hr); [lia|].
  exists r. split; [done|]. intros q' Hq'. specialize (Hr q' Hq'). lia.
Qed.

(** An address of the family a query type asks for. *)
Definition of_qtype (qtype : Z) (ip : IpAddr) : Prop :=
  match ip with
  | V4 o => qtype = 1 ∧ length o = 4%nat
  | V6 o => qtype = 28 ∧ length o = 16%nat
  end.

Lemma slice_length {A} (l : list A) a b :
  0 ≤ a ≤ b → b ≤ Z.of_nat (length l) →
  ∃ x, slice l a b = Some x ∧ Z.of_nat (length x) = b - a.
Proof.
  intros. rewrite slice_Some by done. eexists. split; [done|].
  rewrite length_take, length_drop. lia.
Qed.

Lemma from_be_bytes_range bs :
  is_bytes bs → 0 ≤ from_be_bytes bs.
Proof.
  intros Hb. apply from_le_bytes_range. unfold is_bytes in *. by apply Forall_reverse.
Qed.

Lemma slice_bytes msg a b x : is_bytes msg → slice msg a b = Some x → is_bytes x.
Proof.
  unfold slice. intros Hm. destruct (decide _); [|done]. intros [= <-]. 
  unfold is_bytes in *. eauto with purestd.
Qed.

Lemma answer_ip_total msg p rtype qtype rdlen :
  0 ≤ p → 0 ≤ rdlen → p + rdlen ≤ Z.of_nat (length msg) →
  ∃ ips, answer_ip msg p rtype qtype rdlen = Some ips ∧ Forall (of_qtype qtype) ips.
Proof.
  intros Hp Hr Hl. unfold answer_ip.
  destruct (decide (rtype = qtype)); [|by eexists].
  destruct (decide (qtype = 1 ∧ rdlen = 4)) as [[-> ->]|_].
  { destruct (slice_length msg p (p + 4)) as (o & -> & Ho); [lia..|]. eexists. split; [done|].
    constructor; [|done]. split; [done|lia]. }
  destruct (decide (qtype = 28 ∧ rdlen = 16)) as [[-> ->]|_]; [|by eexists].
  destruct (slice_length msg p (p + 16)) as (o & -> & Ho); [lia..|]. eexists. split; [done|].
  constructor; [|done]. split; [done|lia].
Qed.

Lemma scan_answers_total an msg p qtype out :
  is_bytes msg → 0 ≤ p → Forall (of_qtype qtype) out →
  ∃ r, scan_answers an msg p qtype out = Some r
    ∧ (∀ ips, r = Some ips → Forall (of_qtype qtype) ips).
Proof.
  intros Hm. revert p out. induction an as [|an IH]; intros p out Hp Hout; cbn [scan_answers].
  { eexists. split; [done|]. by intros ips [= <-]. }
  destruct (skip_name_total msg p Hm Hp) as ([q|] & -> & Hq); cbn [mbind option_bind];
    [|by exists None].
  specialize (Hq q eq_refl).
  destruct (decide _) as [|Hge]; [eexists; split; [done|]; by intros ips [= <-]|].
  destruct (slice_length msg q (q + 2)) as (rt & -> & _); [lia..|].
  destruct (slice_length msg (q + 8) (q + 10)) as (rl & Hrl & _); [lia..|]. rewrite Hrl.
  cbn [mbind option_bind]. pose proof (from_be_bytes_range rl (slice_bytes _ _ _ _ Hm Hrl)).
  destruct (decide _) as [|Hge']; [eexists; split; [done|]; by intros ips [= <-]|].
  destruct (answer_ip_total msg (q + 10) (from_be_bytes rt) qtype (from_be_bytes rl))
    as (ips & -> & Hips); [lia..|]. cbn [mbind option_bind].
  apply IH; [lia|]. by apply Forall_app.
Qed.

(** C29: the DNS scanner is safe. On any datagram it returns without an out-of-range access,
    and every address it yields has the family and length of the query type. *)
Theorem parse_dns_answers_safe msg qtype (Hm : is_bytes msg) :
  ∃ r, parse_dns_answers msg qtype = Some r
    ∧ (∀ ips, r = Some ips → Forall (of_qtype qtype) ips).
Proof.
  unfold parse_dns_answers. destruct (decide _) as [|Hge]; [by exists None|].
  destruct (slice_length msg 4 6) as (qd & -> & _); [lia..|].
  destruct (slice_length msg 6 8) as (an & -> & _); [lia..|]. cbn [mbind option_bind].
  destruct (skip_questions_total (Z.to_nat (from_be_bytes qd)) msg 12 Hm) as ([p|] & -> & Hp);
    [lia| |by exists None]. cbn [mbind option_bind]. specialize (Hp p eq_refl).
  apply scan_answers_total; [done|lia|constructor].
Qed.

(** ** Answers of a well-formed response *)
Lemma land_label len : 0 ≤ len < 64 → Z.land len 0xc0 ≠ 0xc0.
Proof.
  intros Hl. assert (Forall (λ x, Z.land x 0xc0 ≠ 0xc0) (seqZ 0 64)) as Hall
    by (apply (bool_decide_unpack _); by vm_compute).
  rewrite Forall_forall in Hall. apply Hall, elem_of_seqZ. lia.
Qed.

(** A name on the wire: labels, then the root, or a pointer to the rest of it. *)
Inductive NameEnd : Type :=
| Root
| Pointer (off : Z).

Record Name := mkName { name_labels : list (list Z); name_end : NameEnd }.

Definition valid_label (l : list Z) : Prop := (1 ≤ length l ≤ 63)%nat.

Definition valid_name (n : Name) : Prop :=
  Forall valid_label (name_labels n)
  ∧ match name_end n with Root => True | Pointer off => 0 ≤ off < 2 ^ 14 end.

Definition encode_label (l : list Z) : list Z := Z.of_nat (length l) :: l.

Definition encode_end (e : NameEnd) : list Z :=
  match e with Root => [0] | Pointer off => to_be_bytes 2 (0xc000 + off) end.

Definition encode_name (n : Name) : list Z :=
  concat (encode_label <$> name_labels n) ++ encode_end (name_end n).

Lemma pointer_bytes off :
  0 ≤ off < 2 ^ 14 → ∃ a b, to_be_bytes 2 (0xc000 + off) = [a; b] ∧ Z.land a 0xc0 = 0xc0.
Proof.
  intros Ho. exists (0xc0 + off / 2 ^ 8), (wrap 8 (0xc000 + off)).
  assert (0 ≤ off / 2 ^ 8 < 64) as Hq by (split; [apply Z.div_pos|apply Z.div_lt_upper_bound]; lia).
  split.
  - unfold to_be_bytes. cbn. unfold wrap. do 2 f_equal.
    change 0xc000 with (0xc0 * 2 ^ 8). rewrite Z.add_comm, Z.div_add by lia.
    change (2 ^ 8) with 256 in *. rewrite Z.mod_small; lia.
  - assert (Forall (λ x, Z.land (0xc0 + x) 0xc0 = 0xc0) (seqZ 0 64)) as Hall
      by (apply (bool_decide_unpack _); by vm_compute).
    rewrite Forall_forall in Hall. apply Hall, elem_of_seqZ. lia.
Qed.

(** The scanner stops at the end of a name, however it ends. *)
Lemma skip_labels ls e fuel pre post msg :
  valid_name (mkName ls e) → msg = pre ++ encode_name (mkName ls e) ++ post → (length ls < fuel)%nat →
  skip_name fuel msg (Z.of_nat (length pre))
  = Some (Some (Z.of_nat (length pre) + Z.of_nat (length (encode_name (mkName ls e))))).
Proof.
  intros [Hls He]. cbn [name_labels name_end] in *. revert fuel pre.
  induction ls as [|l ls IH]; intros fuel pre Hmsg Hf;
    (destruct fuel as [|fuel]; [cbn in Hf; lia|]); cbn [skip_name].
  - destruct e as [|off]; unfold encode_name in *; cbn [name_labels name_end fmap list_fmap concat app encode_end] in *.
    + rewrite (index_at pre post _ 0) by done. by rewrite decide_False, decide_True by done.
    + destruct (pointer_bytes off He) as (x & y & Exy & Hx). rewrite Exy in *. cbn [app] in Hmsg.
      rewrite (index_at pre (y :: post) _ x) by done. by rewrite decide_True.
  - apply Forall_cons in Hls as [Hl Hls]. unfold valid_label in Hl.
    unfold encode_name in Hmsg. cbn [name_labels name_end fmap list_fmap concat] in Hmsg.
    rewrite <-!app_assoc in Hmsg. unfold encode_label in Hmsg at 1. cbn [app] in Hmsg.
    rewrite (index_at pre _ _ (Z.of_nat (length l)) _ Hmsg) by done.
    rewrite decide_False by (apply land_label; lia). rewrite decide_False by lia.
    specialize (IH Hls fuel (pre ++ encode_label l)). rewrite length_app in IH. cbn [encode_label length] in IH.
    replace (Z.of_nat (length pre) + (1 + Z.of_nat (length l)))
      with (Z.of_nat (length pre + S (length l))) by lia.
    rewrite IH; [|rewrite Hmsg; unfold encode_name; cbn; by rewrite <-!app_assoc|cbn in Hf; lia].
    do 2 f_equal. unfold encode_name. cbn [name_labels name_end fmap list_fmap concat].
    rewrite !length_app. cbn [encode_label length]. lia.
Qed.

Lemma labels_count n : (length (name_labels n) < length (encode_name n))%nat.
Proof.
  destruct n as [ls e]. unfold encode_name. cbn [name_labels name_end]. rewrite length_app.
  assert (1 ≤ length (encode_end e))%nat by (destruct e; cbn; lia).
  enough (length ls ≤ length (concat (encode_label <$> ls)))%nat by lia.
  induction ls as [|l ls IH]; cbn [fmap list_fmap concat length]; [lia|]. rewrite length_app. cbn. lia.
Qed.

Lemma skip_encoded n pre post msg :
  valid_name n → msg = pre ++ encode_name n ++ post →
  skip_name (name_fuel msg) msg (Z.of_nat (length pre))
  = Some (Some (Z.of_nat (length pre) + Z.of_nat (length (encode_name n)))).
Proof.
  intros Hn Hmsg. pose proof (labels_count n). destruct n as [ls e]. eapply skip_labels; [done|exact Hmsg|].
  unfold name_fuel. rewrite Hmsg, !length_app. cbn [name_labels] in *. lia.
Qed.

(** The labels of a query are a name that ends at the root. *)
Lemma encode_labels_name labels enc :
  encode_labels labels = Ok enc →
  valid_name (mkName (as_bytes <$> labels) Root) ∧ encode_name (mkName (as_bytes <$> labels) Root) = enc ++ [0].
Proof.
  unfold valid_name, encode_name. cbn [name_labels name_end encode_end].
  revert enc. induction labels as [|l labels IH]; intros enc; cbn [encode_labels].
  { intros [= <-]. split; [|done]. by split; [constructor|]. }
  destruct (decide _) as [|Hl]; [done|]. destruct (encode_labels labels) as [rest|]; [|done].
  intros [= <-]. destruct (IH rest eq_refl) as [[Hv _] He].
  assert (length (as_bytes l) = length l) as Hbl by apply length_fmap. split.
  - split; [|done]. cbn [fmap list_fmap]. constructor; [|done]. unfold valid_label. rewrite Hbl.
    destruct l; [naive_solver|]. destruct (decide (63 < length (a :: l))%nat); [naive_solver|cbn in *; lia].
  - cbn [fmap list_fmap concat]. rewrite <-app_assoc. unfold list_fmap in *. setoid_rewrite He.
    unfold encode_label. by rewrite Hbl; cbn; rewrite <-app_assoc.
Qed.

(** A resource record: its owner, its type, its class and time to live (6 bytes), its data. *)
Record Rr := mkRr { rr_name : Name; rr_type : Z; rr_mid : list Z; rr_data : list Z }.

Definition valid_rr (r : Rr) : Prop :=
  valid_name (rr_name r)
  ∧ 0 ≤ rr_type r < 2 ^ 16 ∧ length (rr_mid r) = 6%nat ∧ Z.of_nat (length (rr_data r)) < 2 ^ 16.

Definition encode_rr (r : Rr) : list Z :=
  encode_name (rr_name r) ++ to_be_bytes 2 (rr_type r) ++ rr_mid r
  ++ to_be_bytes 2 (Z.of_nat (length (rr_data r))) ++ rr_data r.

(** A response: the question, the answers, and whatever authority and additional sections say. *)
Definition encode_response (id flags counts labels : list Z) (qtype : Z) (rrs : list Rr) (more : list Z) : list Z :=
  id ++ flags ++ to_be_bytes 2 1 ++ to_be_bytes 2 (Z.of_nat (length rrs)) ++ counts
  ++ labels ++ [0] ++ to_be_bytes 2 qtype ++ to_be_bytes 2 1 ++ concat (encode_rr <$> rrs) ++ more.

(** The address a record gives for a query type. *)
Definition rr_ip (qtype : Z) (r : Rr) : list IpAddr :=
  if decide (rr_type r = qtype) then
    if decide (qtype = 1 ∧ length (rr_data r) = 4%nat) then [V4 (rr_data r)]
    else if decide (qtype = 28 ∧ length (rr_data r) = 16%nat) then [V6 (rr_data r)]
    else []
  else [].

Lemma answer_rr msg p qtype r pre post :
  msg = pre ++ rr_data r ++ post → Z.of_nat (length pre) = p →
  answer_ip msg p (rr_type r) qtype (Z.of_nat (length (rr_data r))) = Some (rr_ip qtype r).
Proof.
  intros Hmsg Hp. unfold answer_ip, rr_ip. destruct (decide (rr_type r = qtype)); [|done].
  destruct (decide (qtype = 1 ∧ Z.of_nat (length (rr_data r)) = 4)) as [[-> H4]|Hn].
  { rewrite decide_True by (split; [done|lia]). by rewrite (slice_at pre (rr_data r) post) by lia || done. }
  rewrite (decide_False (P := qtype = 1 ∧ length (rr_data r) = 4%nat)) by lia.
  destruct (decide (qtype = 28 ∧ Z.of_nat (length (rr_data r)) = 16)) as [[-> H16]|Hn'].
  { rewrite decide_True by (split; [done|lia]). by rewrite (slice_at pre (rr_data r) post) by lia || done. }
  by rewrite decide_False by lia.
Qed.

Lemma scan_encoded rrs pre post msg qtype out :
  Forall valid_rr rrs → msg = pre ++ concat (encode_rr <$> rrs) ++ post →
  scan_answers (length rrs) msg (Z.of_nat (length pre)) qtype out
  = Some (Some (out ++ concat (rr_ip qtype <$> rrs))).
Proof.
  revert pre out. induction rrs as [|r rrs IH]; intros pre out Hv Hmsg; cbn [length scan_answers].
  { cbn. by rewrite app_nil_r. }
  apply Forall_cons in Hv as [(Hn & Hty & Hmid & Hlen) Hv].
  cbn [fmap list_fmap concat] in Hmsg. rewrite <-app_assoc in Hmsg. unfold encode_rr in Hmsg at 1.
  set (rest := concat (encode_rr <$> rrs) ++ post) in *.
  set (nm := encode_name (rr_name r)) in *.
  set (ty := to_be_bytes 2 (rr_type r)) in *.
  set (rl := to_be_bytes 2 (Z.of_nat (length (rr_data r)))) in *.
  assert (length ty = 2%nat) as Hlt by apply length_to_be_bytes.
  assert (length rl = 2%nat) as Hll by apply length_to_be_bytes.
  assert (Z.of_nat (length msg) = Z.of_nat (length pre) + Z.of_nat (length nm) + 10
            + Z.of_nat (length (rr_data r)) + Z.of_nat (length rest)) as Hml.
  { rewrite Hmsg, !length_app, Hlt, Hll, Hmid. lia. }
  rewrite (skip_encoded (rr_name r) pre (ty ++ rr_mid r ++ rl ++ rr_data r ++ rest) msg Hn)
    by (rewrite Hmsg; by rewrite <-!app_assoc).
  fold nm. cbn [mbind option_bind]. rewrite decide_False by lia.
  rewrite (slice_at (pre ++ nm) ty (rr_mid r ++ rl ++ rr_data r ++ rest) msg
             (Z.of_nat (length pre) + Z.of_nat (length nm)));
    [|rewrite Hmsg; by rewrite <-!app_assoc|rewrite length_app; lia|rewrite ?Hlt, ?Hll; lia].
  rewrite (slice_at (pre ++ nm ++ ty ++ rr_mid r) rl (rr_data r ++ rest) msg
             (Z.of_nat (length pre) + Z.of_nat (length nm) + 8));
    [|rewrite Hmsg; by rewrite <-!app_assoc|rewrite !length_app; lia|rewrite ?Hlt, ?Hll; lia].
  cbn [mbind option_bind]. unfold ty, rl. rewrite !from_to_be_bytes.
  rewrite !wrap_small by (cbn; lia). rewrite decide_False by lia.
  rewrite (answer_rr msg _ qtype r (pre ++ nm ++ ty ++ rr_mid r ++ rl) rest);
    [|rewrite Hmsg; by rewrite <-!app_assoc|rewrite !length_app; lia].
  cbn [mbind option_bind fmap list_fmap concat]. rewrite (app_assoc out).
  rewrite <-(IH (pre ++ encode_rr r)); [|done|rewrite Hmsg; unfold encode_rr; by rewrite <-!app_assoc].
  f_equal. unfold encode_rr. rewrite !length_app. fold nm ty rl. lia.
Qed.

(** C28: DNS answers are read. From a response that repeats the question built for
    [host] and carries any records, whose owners are names with labels and with or without a pointer,
    followed by any other sections, the scanner returns exactly
    the addresses of the queried type, in order, skipping every other record. *)
Theorem dns_answers_roundtrip id flags counts host labels qtype rrs more
    (Hid : length id = 2%nat) (Hfl : length flags = 2%nat) (Hcn : length counts = 4%nat)
    (Hlab : encode_labels (split "."%char host) = Ok labels)
    (Hn : Z.of_nat (length rrs) < 2 ^ 16) (Hv : Forall valid_rr rrs) :
  parse_dns_answers (encode_response id flags counts labels qtype rrs more) qtype
  = Some (Some (concat (rr_ip qtype <$> rrs))).
Proof.
  set (msg := encode_response id flags counts labels qtype rrs more).
  set (answers := concat (encode_rr <$> rrs) ++ more).
  set (body := labels ++ [0] ++ to_be_bytes 2 qtype ++ to_be_bytes 2 1 ++ answers).
  assert (msg = (id ++ flags ++ to_be_bytes 2 1 ++ to_be_bytes 2 (Z.of_nat (length rrs))
                 ++ counts) ++ body) as Hmsg.
  { unfold msg, encode_response, body, answers. by rewrite <-!app_assoc. }
  set (hdr := id ++ flags ++ _) in Hmsg.
  assert (length hdr = 12%nat) as Hh.
  { unfold hdr. rewrite !length_app, !length_to_be_bytes. lia. }
  unfold parse_dns_answers. rewrite decide_False by (rewrite Hmsg, length_app; lia).
  rewrite (slice_at (id ++ flags) (to_be_bytes 2 1)
             (to_be_bytes 2 (Z.of_nat (length rrs)) ++ counts ++ body) msg 4);
    [|rewrite Hmsg; unfold hdr; by rewrite <-!app_assoc
     |rewrite length_app; lia|by rewrite length_to_be_bytes].
  rewrite (slice_at (id ++ flags ++ to_be_bytes 2 1) (to_be_bytes 2 (Z.of_nat (length rrs)))
             (counts ++ body) msg 6);
    [|rewrite Hmsg; unfold hdr; by rewrite <-!app_assoc
     |rewrite !length_app, length_to_be_bytes; lia|by rewrite length_to_be_bytes].
  cbn [mbind option_bind]. rewrite !from_to_be_bytes, !wrap_small by (cbn; lia).
  change (Z.to_nat 1) with 1%nat. cbn [skip_questions].
  change 12 with (Z.of_nat 12). rewrite <-Hh.
  apply encode_labels_name in Hlab as [Hvn Hen].
  rewrite (skip_encoded (mkName (as_bytes <$> split "."%char host) Root) hdr
             (to_be_bytes 2 qtype ++ to_be_bytes 2 1 ++ answers) msg Hvn)
    by (rewrite Hen, Hmsg; unfold body; by rewrite <-!app_assoc).
  rewrite Hen, length_app. cbn [mbind option_bind length]. rewrite Nat2Z.id.
  set (pre := hdr ++ labels ++ [0] ++ to_be_bytes 2 qtype ++ to_be_bytes 2 1).
  replace (Z.of_nat (length hdr) + Z.of_nat (length labels + 1) + 4) with (Z.of_nat (length pre)).
  2: { unfold pre. rewrite !length_app, !length_to_be_bytes. cbn [length]. lia. }
  rewrite (scan_encoded rrs pre more msg qtype []); [done|done|].
  rewrite Hmsg. unfold pre, body, answers. by rewrite <-!app_assoc.
Qed.

(** An instance: an IPv6 address on 32-bit ARM. *)
Lemma sockaddr_roundtrip_witness :
  let a := SockV6 (seqZ 1 16) 8080 7 3 in
  let '(b, len) := write_sockaddr ArmLinux a in
  length b = 28%nat ∧ read_sockaddr ArmLinux b = Some (Some (SockV6 (seqZ 1 16) 8080 0 3))
  ∧ len = 28 ∧ family_of ArmLinux (on_wire a) = family_of ArmLinux a.
Proof.
  apply (sockaddr_roundtrip ArmLinux (SockV6 (seqZ 1 16) 8080 7 3)).
  cbn [valid_sockaddr]. split_and!; [reflexivity|lia..].
Defined.

(** Witness of C29: a datagram of pointers. *)
Lemma parse_dns_answers_safe_witness :
  ∃ r, parse_dns_answers (replicate 40 0xc0) 1 = Some r
    ∧ (∀ ips, r = Some ips → Forall (of_qtype 1) ips).
Proof.
  apply (parse_dns_answers_safe (replicate 40 0xc0) 1). apply Forall_replicate.
  unfold is_byte. lia.
Defined.

(** Witness of C28: a CNAME record is skipped, the two addresses come out, whatever the form of their owner's name. *)
Lemma dns_answers_roundtrip_witness :
  let cname := mkRr (mkName [] (Pointer 12)) 5 [0; 1; 0; 0; 0; 60] [1; 120; 0] in
  let a own n := mkRr own 1 [0; 1; 0; 0; 0; 60] [10; 0; 0; n] in
  parse_dns_answers
    (encode_response [1; 2] [0x81; 0x80] [0; 0; 0; 1] [1; 97; 2; 98; 99] 1
       [cname; a (mkName [[120]] Root) 1; a (mkName [[120; 121]; [122]] (Pointer 300)) 2] [0; 0; 41]) 1
  = Some (Some [V4 [10; 0; 0; 1]; V4 [10; 0; 0; 2]]).
Proof.
  intros cname a.
  apply (dns_answers_roundtrip [1; 2] [0x81; 0x80] [0; 0; 0; 1] (lit "a.bc") [1; 97; 2; 98; 99] 1
           [cname; a (mkName [[120]] Root) 1; a (mkName [[120; 121]; [122]] (Pointer 300)) 2]); [reflexivity..|].
  repeat (apply Forall_cons; split); [..|constructor]; unfold valid_rr, valid_name, valid_label;
    split_and!; repeat (apply Forall_cons; split); try constructor; cbn; lia.
Defined.

(** A positive timeout below a microsecond is encoded as no timeout at all. *)
Theorem timeval_below_micro t n (Hn : 0 < n < 1000) :
  encode_timeval t (Some (mkDuration 0 n)) = encode_timeval t None.
Proof.
  unfold encode_timeval, subsec_micros. cbn [secs nanos].
  rewrite (Z.div_small n 1000) by lia. by destruct t.
Qed.
