(* ===== verification/Syscall.v ===== *)
(** System calls (src/src/syscall.rs, and the traps of src/src/arch/).

    The kernel is a parameter: what it answers may depend on the whole history of calls.
    The state of a program is that history, so every theorem quantifies over every kernel
    and every schedule of faults.  The wrappers are translated argument by argument, with
    the differences between targets, and the open descriptors are a function of the history.

    WASI has no traps (src/src/syscall_wasi.rs); this file is about the other targets. *)
From S2P Require Import Prelude Str Io.
From stdpp Require Import gmultiset.
From stdpp Require Import list.
Open Scope Z_scope.

(** The numbers of [arch::nr], by name. *)
Inductive Nr : Set :=
| READ | WRITE | READV | WRITEV | CLOSE | OPENAT | GETPID | GETCWD | FCNTL | CHDIR
| LLSEEK | LSEEK | FTRUNCATE | FSYNC | DUP | STAT64 | LSTAT64 | NEWFSTATAT | FSTAT
| RENAMEAT2 | RENAMEAT | UNLINKAT | GETDIRENTRIES64 | GETDENTS64 | CLOCK_GETTIME
| GETTIMEOFDAY | GETENTROPY | GETRANDOM | MKDIRAT | SOCKETCALL | SOCKET | CONNECT | BIND
| LISTEN | ACCEPT | SENDTO | RECVFROM | SETSOCKOPT | GETSOCKNAME | GETPEERNAME | SHUTDOWN
| FORK | CLONE | EXECVE | WAIT4 | PIPE | PIPE2 | DUP3 | DUP2 | EXIT_GROUP | EXIT
| SCHED_GETAFFINITY | SYSCTL | THREAD_SELFID | GETTID | MMAP | MUNMAP | NANOSLEEP | FUTEX
| SCHED_YIELD | ULOCK_WAIT | ULOCK_WAKE | MACH_MSG2 | THREAD_SWITCH | BSDTHREAD_TERMINATE
| THREAD_SELF | TASK_SELF | MACH_REPLY_PORT.

(** An argument word: a number, or a pointer together with what it points to. *)
Inductive Arg : Type :=
| W (x : Z)
| CStr (s : str)
| In (b : list Z)
| Out (old : list Z)
| Iov (bufs : list (list Z))
| Strs (ss : list str)
| Args (ws : list Arg).

Record Trap := mkTrap { nr : Nr; args : list Arg }.

(** What comes back: the two result registers, the carry flag (Darwin) and what the kernel
    stored through each pointer it may write to. *)
Record Reply := mkReply { ret0 : Z; ret1 : Z; carry : bool; outs : list (list Z) }.

Definition Hist : Type := list (Trap * Reply).

(** The machine a program runs on. *)
Class Machine := {
  target : Target;
  kernel : Hist → Trap → Reply;
}.

(** A computation that always returns, and one that may run forever or panic. *)
Definition Sys (A : Type) : Type := Hist → A * Hist.
Definition Prog (A : Type) : Type := Hist → option (A * Hist).

#[export] Instance sys_ret : MRet Sys := λ A a h, (a, h).
#[export] Instance sys_bind : MBind Sys := λ A B f m h, let '(a, h) := m h in f a h.
#[export] Instance prog_ret : MRet Prog := λ A a h, Some (a, h).
#[export] Instance prog_bind : MBind Prog := λ A B f m h, '(a, h) ← m h; f a h.

Definition call {A} (m : Sys A) : Prog A := λ h, Some (m h).
Definition of_option {A} (o : option A) : Prog A := λ h, a ← o; Some (a, h).

Lemma bind_call {A B} (m : Sys A) (k : A → Prog B) h :
  (call m ≫= k) h = k (m h).1 (m h).2.
Proof. unfold mbind, prog_bind, call. cbn. by destruct (m h). Qed.

Lemma bind_some {A B} (m : Prog A) (k : A → Prog B) h a h1 :
  m h = Some (a, h1) → (m ≫= k) h = k a h1.
Proof. unfold mbind, prog_bind. by intros ->. Qed.

(** [x?] inside a computation. *)
Notation "x ←? m ; k" :=
  (mbind (λ r, match r with Ok x => k | Err e => mret (Err e) end) m)
  (at level 20, m at level 100, k at level 200) : rust_scope.

(** What a buffer holds after the kernel stored [new] at its front. *)
Definition overlay (old new : list Z) : list Z :=
  take (length old) new ++ drop (length new) old.

Lemma length_overlay old new : length (overlay old new) = length old.
Proof. unfold overlay. rewrite length_app, length_take, length_drop. lia. Qed.

Definition out (i : nat) (r : Reply) : list Z := default [] (outs r !! i).

(** [c".."] and other pointers are words; a number is passed at the width of a register. *)
Section wrappers.
Context `{Machine}.

Definition usize (x : Z) : Z := wrap (usize_bits target) x.
Definition isize (x : Z) : Z := to_signed (usize_bits target) x.
Definition i32 (x : Z) : Z := to_signed 32 x.

(** The trap itself. *)
Definition trap (n : Nr) (a : list Arg) : Sys Reply := λ h,
  let tr := mkTrap n a in let r := kernel h tr in (r, (tr, r) :: h).

(** [arch::syscallN]: Darwin reports errors in the carry flag. *)
Definition raw_ret (r : Reply) : Z :=
  if is_macos target && carry r then usize (- isize (ret0 r)) else ret0 r.

Definition syscall (n : Nr) (a : list Arg) : Sys (Z * Reply) :=
  r ← trap n a; mret (raw_ret r, r).

Definition from_ret (ret : Z) : result Z Z :=
  let s := isize ret in
  if decide (-4095 ≤ s < 0) then Err (i32 (- s)) else Ok ret.

Definition AT_FDCWD : Z := if is_macos target then -2 else -100.

(** *** Descriptors *)
Definition data_of (n : Z) (r : Reply) : list Z :=
  take (Z.to_nat n) (out 0 r ++ replicate (Z.to_nat n) 0).

Definition sc_read (fd : Z) (len : nat) : Sys (result (list Z) Z) :=
  '(ret, r) ← syscall READ [W (usize fd); Out (replicate len 0); W (Z.of_nat len)];
  mret (map_ok (λ n, data_of n r) (from_ret ret)).

Definition sc_write (fd : Z) (buf : list Z) : Sys (result Z Z) :=
  '(ret, r) ← syscall WRITE [W (usize fd); In buf; W (Z.of_nat (length buf))];
  mret (from_ret ret).

(** The buffers of [readv] are read back to back. *)
Definition sc_readv (fd : Z) (lens : list nat) : Sys (result (list Z) Z) :=
  '(ret, r) ← syscall READV
    [W (usize fd); Iov ((λ n, replicate n 0) <$> lens); W (Z.of_nat (length lens))];
  mret (map_ok (λ n, data_of n r) (from_ret ret)).

Definition sc_writev (fd : Z) (bufs : list (list Z)) : Sys (result Z Z) :=
  '(ret, r) ← syscall WRITEV [W (usize fd); Iov bufs; W (Z.of_nat (length bufs))];
  mret (from_ret ret).

Definition done_ (ret : Z) : result unit Z := map_ok (λ _, tt) (from_ret ret).

Definition sc_close (fd : Z) : Sys (result unit Z) :=
  '(ret, r) ← syscall CLOSE [W (usize fd)]; mret (done_ ret).

Definition sc_open (path : str) (flags mode : Z) : Sys (result Z Z) :=
  '(ret, r) ← syscall OPENAT [W (usize AT_FDCWD); CStr path; W flags; W mode];
  mret (map_ok i32 (from_ret ret)).

Definition sc_getpid : Sys Z :=
  '(ret, r) ← syscall GETPID []; mret (wrap 32 ret).

Definition position_nul (b : list Z) : nat :=
  match list_find (λ x, x = 0) b with Some (i, _) => i | None => length b end.

(** [getcwd]: the result, and the buffer. *)
Definition sc_getcwd (buf : list Z) : Sys (result Z Z * list Z) :=
  if is_macos target then
    fd ← sc_open (lit ".") 0 0;
    match fd with
    | Err e => mret (Err e, buf)
    | Ok fd =>
        '(ret, r) ← syscall FCNTL [W (usize fd); W 50; Out buf];
        let buf := overlay buf (out 0 r) in
        _ ← sc_close fd;
        mret (map_ok (λ _, Z.of_nat (position_nul buf)) (from_ret ret), buf)
    end
  else
    '(ret, r) ← syscall GETCWD [Out buf; W (Z.of_nat (length buf))];
    mret (from_ret ret, overlay buf (out 0 r)).

Definition sc_chdir (path : str) : Sys (result unit Z) :=
  '(ret, r) ← syscall CHDIR [CStr path]; mret (done_ ret).

Definition sc_lseek (fd offset whence : Z) : Sys (result Z Z) :=
  if is_linux32 target then
    '(ret, r) ← syscall LLSEEK
      [W (usize fd); W (usize (Z.shiftr offset 32)); W (wrap 32 offset);
       Out (replicate 8 0); W (usize whence)];
    mret (map_ok (λ _, from_le_bytes (overlay (replicate 8 0) (out 0 r))) (from_ret ret))
  else
    '(ret, r) ← syscall LSEEK [W (usize fd); W (usize offset); W (usize whence)];
    mret (from_ret ret).

Definition sc_ftruncate (fd len : Z) : Sys (result unit Z) :=
  '(ret, r) ←
    match target with
    | I686Linux =>
        syscall FTRUNCATE [W (usize fd); W (wrap 32 len); W (usize (Z.shiftr len 32))]
    | ArmLinux =>
        syscall FTRUNCATE [W (usize fd); W 0; W (wrap 32 len); W (usize (Z.shiftr len 32))]
    | _ => syscall FTRUNCATE [W (usize fd); W (usize len)]
    end;
  mret (done_ ret).

Definition sc_fsync (fd : Z) : Sys (result unit Z) :=
  '(ret, r) ← syscall FSYNC [W (usize fd)]; mret (done_ ret).

Definition sc_dup (fd : Z) : Sys (result Z Z) :=
  '(ret, r) ← syscall DUP [W (usize fd)]; mret (map_ok i32 (from_ret ret)).

(** *** Files *)
Definition AT_SYMLINK_NOFOLLOW : Z := if is_macos target then 0x20 else 0x100.
Definition AT_REMOVEDIR : Z := if is_macos target then 0x80 else 0x200.

Definition stat_zero : list Z := replicate 256 0.

Definition sc_statat (path : str) (follow : bool) : Sys (result (list Z) Z) :=
  if is_macos target then
    '(ret, r) ← syscall (if follow then STAT64 else LSTAT64) [CStr path; Out stat_zero];
    mret (map_ok (λ _, overlay stat_zero (out 0 r)) (from_ret ret))
  else
    '(ret, r) ← syscall NEWFSTATAT
      [W (usize AT_FDCWD); CStr path; Out stat_zero;
       W (if follow then 0 else AT_SYMLINK_NOFOLLOW)];
    mret (map_ok (λ _, overlay stat_zero (out 0 r)) (from_ret ret)).

Definition sc_fstat (fd : Z) : Sys (result (list Z) Z) :=
  '(ret, r) ← syscall FSTAT [W (usize fd); Out stat_zero];
  mret (map_ok (λ _, overlay stat_zero (out 0 r)) (from_ret ret)).

Definition sc_rename (old new : str) : Sys (result unit Z) :=
  '(ret, r) ←
    match target with
    | Riscv64Linux =>
        syscall RENAMEAT2
          [W (usize AT_FDCWD); CStr old; W (usize AT_FDCWD); CStr new; W 0]
    | _ => syscall RENAMEAT [W (usize AT_FDCWD); CStr old; W (usize AT_FDCWD); CStr new]
    end;
  mret (done_ ret).

Definition sc_rmdir (path : str) : Sys (result unit Z) :=
  '(ret, r) ← syscall UNLINKAT [W (usize AT_FDCWD); CStr path; W AT_REMOVEDIR];
  mret (done_ ret).

Definition sc_getdirentries (fd : Z) (buf : list Z) : Sys (result Z Z * list Z) :=
  '(ret, r) ←
    (if is_macos target then
       syscall GETDIRENTRIES64
         [W (usize fd); Out buf; W (Z.of_nat (length buf)); Out (replicate 8 0)]
     else syscall GETDENTS64 [W (usize fd); Out buf; W (Z.of_nat (length buf))]);
  mret (from_ret ret, overlay buf (out 0 r)).

Definition sc_unlink (path : str) : Sys (result unit Z) :=
  '(ret, r) ← syscall UNLINKAT [W (usize AT_FDCWD); CStr path; W 0]; mret (done_ ret).

Definition sc_mkdir (path : str) (mode : Z) : Sys (result unit Z) :=
  '(ret, r) ← syscall MKDIRAT [W (usize AT_FDCWD); CStr path; W mode]; mret (done_ ret).

(** *** Clocks *)

(** Linux: a pair of 64-bit fields. *)
Definition sc_monotonic : Sys (Z * Z) :=
  '(_, r) ← syscall CLOCK_GETTIME [W 1; Out (replicate 16 0)];
  let ts := overlay (replicate 16 0) (out 0 r) in
  mret (from_le_bytes (take 8 ts), wrap 32 (from_le_bytes (drop 8 ts))).

(** macOS on arm64: the counter and its frequency are registers. *)
Definition monotonic_counter (cnt freq : Z) : Z * Z :=
  (cnt / freq, wrap 32 (cnt `mod` freq * 1000000000 / freq)).

(** macOS on x86-64 falls back to the wall clock. *)
Definition monotonic_wall : Sys (Z * Z) :=
  '(_, r) ← syscall GETTIMEOFDAY [Out (replicate 16 0); W 0];
  let tv := overlay (replicate 16 0) (out 0 r) in
  mret (from_le_bytes (take 8 tv), wrap 32 (wrap 32 (from_le_bytes (drop 8 tv)) * 1000)).

Definition sc_gettimeofday : Sys (result (Z * Z) Z) :=
  '(ret, r) ← syscall GETTIMEOFDAY [Out (replicate 16 0); W 0];
  let tv := overlay (replicate 16 0) (out 0 r) in
  mret (map_ok (λ _, (from_le_bytes (take 8 tv), from_le_bytes (drop 8 tv))) (from_ret ret)).

(** *** Random bytes *)

(** [getrandom]/[getentropy] into [buf] from offset [off] on; [None]: out of fuel, or the
    slice [buf[off..]] panics. *)
Fixpoint getrandom_loop (fuel : nat) (buf : list Z) (off : Z) : Prog (result unit Z * list Z) :=
  match fuel with
  | O => λ _, None
  | S fuel =>
      let len := Z.of_nat (length buf) in
      if decide (off < len) then
        let tail := drop (Z.to_nat off) buf in
        if is_macos target then
          let n := Z.min 256 (len - off) in
          '(ret, r) ← call (syscall GETENTROPY [Out tail; W n]);
          match from_ret ret with
          | Err e => mret (Err e, take (Z.to_nat off) buf ++ overlay tail (out 0 r))
          | Ok _ => getrandom_loop fuel (take (Z.to_nat off) buf ++ overlay tail (out 0 r)) (off + n)
          end
        else
          '(ret, r) ← call (syscall GETRANDOM [Out tail; W (len - off); W 0]);
          let buf := take (Z.to_nat off) buf ++ overlay tail (out 0 r) in
          match from_ret ret with
          | Err e => mret (Err e, buf)
          | Ok n =>
              if decide (n = 0) then mret (Err 5, buf)
              else getrandom_loop fuel buf (usize (off + n))
          end
      else mret (Ok tt, buf)
  end.

Definition sc_getrandom (buf : list Z) : Prog (result unit Z * list Z) :=
  getrandom_loop (S (length buf)) buf 0.

(** *** Sockets: i386 goes through [socketcall] *)
Definition socket_syscall (n : Nr) (sc : Z) (ws : list Arg) : Sys (Z * Reply) :=
  match target with
  | I686Linux => syscall SOCKETCALL [W sc; Args ws]
  | _ => syscall n ws
  end.

Definition sc_socket (domain ty protocol : Z) : Sys (result Z Z) :=
  '(ret, r) ← socket_syscall SOCKET 1 [W (usize domain); W (usize ty); W (usize protocol)];
  mret (map_ok i32 (from_ret ret)).

Definition sc_connect (fd : Z) (addr : list Z) (addrlen : Z) : Sys (result unit Z) :=
  '(ret, r) ← socket_syscall CONNECT 3 [W (usize fd); In addr; W addrlen];
  mret (done_ ret).

Definition sc_bind (fd : Z) (addr : list Z) (addrlen : Z) : Sys (result unit Z) :=
  '(ret, r) ← socket_syscall BIND 2 [W (usize fd); In addr; W addrlen];
  mret (done_ ret).

Definition sc_listen (fd backlog : Z) : Sys (result unit Z) :=
  '(ret, r) ← socket_syscall LISTEN 4 [W (usize fd); W (usize backlog)];
  mret (done_ ret).

(** The address buffer comes back with what the kernel stored. *)
Definition sc_accept (fd : Z) (addr addrlen : list Z) : Sys (result Z Z * list Z) :=
  '(ret, r) ← socket_syscall ACCEPT 5 [W (usize fd); Out addr; Out addrlen];
  mret (map_ok i32 (from_ret ret), overlay addr (out 0 r)).

(** [addr]: [None] is the null pointer. *)
Definition sc_sendto (fd : Z) (buf : list Z) (flags : Z) (addr : option (list Z)) (addrlen : Z)
    : Sys (result Z Z) :=
  '(ret, r) ← socket_syscall SENDTO 11
    [W (usize fd); In buf; W (Z.of_nat (length buf)); W (usize flags);
     match addr with Some a => In a | None => W 0 end; W addrlen];
  mret (from_ret ret).

(** The result, the buffer and the address buffer. *)
Definition sc_recvfrom (fd : Z) (buf : list Z) (flags : Z) (addr : option (list Z * list Z))
    : Sys (result Z Z * list Z * list Z) :=
  '(ret, r) ← socket_syscall RECVFROM 12
    ([W (usize fd); Out buf; W (Z.of_nat (length buf)); W (usize flags)]
     ++ match addr with Some (a, l) => [Out a; Out l] | None => [W 0; W 0] end);
  mret (from_ret ret, overlay buf (out 0 r),
        match addr with Some (a, _) => overlay a (out 1 r) | None => [] end).

Definition sc_setsockopt (fd level name : Z) (val : list Z) (len : Z) : Sys (result unit Z) :=
  '(ret, r) ← socket_syscall SETSOCKOPT 14
    [W (usize fd); W (usize level); W (usize name); In val; W len];
  mret (done_ ret).

Definition sc_getsockname (fd : Z) (addr addrlen : list Z) : Sys (result unit Z * list Z) :=
  '(ret, r) ← socket_syscall GETSOCKNAME 6 [W (usize fd); Out addr; Out addrlen];
  mret (done_ ret, overlay addr (out 0 r)).

Definition sc_getpeername (fd : Z) (addr addrlen : list Z) : Sys (result unit Z * list Z) :=
  '(ret, r) ← socket_syscall GETPEERNAME 7 [W (usize fd); Out addr; Out addrlen];
  mret (done_ ret, overlay addr (out 0 r)).

Definition sc_shutdown (fd how : Z) : Sys (result unit Z) :=
  '(ret, r) ← socket_syscall SHUTDOWN 13 [W (usize fd); W (usize how)];
  mret (done_ ret).

(** *** Processes *)

(** Darwin marks the child in the second register. *)
Definition sc_fork : Sys (result Z Z) :=
  match target with
  | Aarch64MacOS | X86_64MacOS =>
      r ← trap FORK [];
      mret (if carry r then Err (i32 (ret0 r))
            else if decide (ret1 r = 1) then Ok 0 else Ok (i32 (ret0 r)))
  | Aarch64Linux | Riscv64Linux =>
      '(ret, r) ← syscall CLONE [W 17; W 0; W 0; W 0; W 0];
      mret (map_ok i32 (from_ret ret))
  | _ => '(ret, r) ← syscall FORK []; mret (map_ok i32 (from_ret ret))
  end.

Definition sc_execve (path : str) (argv envp : list str) : Sys Z :=
  '(ret, r) ← syscall EXECVE [CStr path; Strs argv; Strs envp];
  mret (i32 (- isize ret)).

(** The status word is written through a pointer. *)
Definition sc_wait4 (pid : Z) (status : Z) (options : Z) : Sys (result Z Z * Z) :=
  '(ret, r) ← syscall WAIT4 [W (usize pid); Out (to_le_bytes 4 status); W (usize options); W 0];
  mret (map_ok i32 (from_ret ret),
        i32 (from_le_bytes (overlay (to_le_bytes 4 status) (out 0 r)))).

Definition sc_pipe : Sys (result (Z * Z) Z) :=
  if is_macos target then
    r ← trap PIPE [];
    mret (if carry r then Err (i32 (ret0 r)) else Ok (i32 (ret0 r), i32 (ret1 r)))
  else
    '(ret, r) ← syscall PIPE2 [Out (replicate 8 0); W 0];
    let fds := overlay (replicate 8 0) (out 0 r) in
    mret (map_ok (λ _, (i32 (from_le_bytes (take 4 fds)), i32 (from_le_bytes (drop 4 fds))))
                 (from_ret ret)).

Definition sc_dup2 (old new : Z) : Sys (result unit Z) :=
  '(ret, r) ←
    match target with
    | Aarch64Linux | Riscv64Linux => syscall DUP3 [W (usize old); W (usize new); W 0]
    | _ => syscall DUP2 [W (usize old); W (usize new)]
    end;
  mret (done_ ret).

Definition sc_fcntl (fd cmd arg : Z) : Sys (result Z Z) :=
  '(ret, r) ← syscall FCNTL [W (usize fd); W (usize cmd); W (usize arg)];
  mret (map_ok i32 (from_ret ret)).

(** Its callers do not continue: both traps end the process. *)
Definition sc_exit_group (code : Z) : Sys unit :=
  _ ← syscall EXIT_GROUP [W (usize code)]; _ ← syscall EXIT [W (usize code)]; mret tt.

Fixpoint count_ones (n : nat) (x : Z) : Z :=
  match n with
  | O => 0
  | S n => Z.land x 1 + count_ones n (Z.shiftr x 1)
  end.

Definition sc_num_cpus : Sys Z :=
  if is_macos target then
    '(ret, r) ← syscall SYSCTL
      [In (to_le_bytes 4 6 ++ to_le_bytes 4 3); W 2; Out (replicate 4 0);
       Out (to_le_bytes 8 4); W 0; W 0];
    let n := i32 (from_le_bytes (overlay (replicate 4 0) (out 0 r))) in
    mret (match from_ret ret with Ok _ => if decide (0 < n) then n else 1 | Err _ => 1 end)
  else
    '(ret, r) ← syscall SCHED_GETAFFINITY [W 0; W 128; Out (replicate 128 0)];
    let mask := overlay (replicate 128 0) (out 0 r) in
    mret (match from_ret ret with
          | Ok n =>
              Z.max 1 (foldr Z.add 0 (count_ones 8 <$> take (Z.to_nat (Z.min n 128)) mask))
          | Err _ => 1
          end).

Definition sc_gettid : Sys Z :=
  '(ret, r) ← syscall (if is_macos target then THREAD_SELFID else GETTID) [];
  mret (wrap 64 ret).

(** *** Memory *)
Definition PROT_READ : Z := 1.
Definition PROT_WRITE : Z := 2.
Definition MAP_PRIVATE : Z := 2.
Definition MAP_ANONYMOUS : Z := if is_macos target then 0x1000 else 0x20.

Definition sc_mmap_anon (len prot : Z) : Sys (result Z Z) :=
  '(ret, r) ← syscall MMAP
    [W 0; W len; W prot; W (Z.lor MAP_PRIVATE MAP_ANONYMOUS); W (2 ^ usize_bits target - 1); W 0];
  mret (from_ret ret).

Definition sc_munmap (addr len : Z) : Sys (result unit Z) :=
  '(ret, r) ← syscall MUNMAP [W addr; W len]; mret (done_ ret).

(** The calls behind [io::Fd]. *)
#[export] Instance machine_fd_calls : FdCalls Hist := {
  sys_read h fd n := sc_read fd n h;
  sys_readv h fd lens := sc_readv fd lens h;
  sys_write h fd b := sc_write fd b h;
  sys_writev h fd bufs := sc_writev fd bufs h;
  sys_lseek h fd off whence := sc_lseek fd off whence h;
}.

(** ** What the kernel is asked to do *)

(** The operations, free of their encoding. An address the kernel stores has room for as many bytes as the caller's
    length word says. [OpInval]: a call that is answered with [EINVAL] and does nothing. *)
Inductive Op : Type :=
| OpSeek (fd off whence : Z)
| OpTruncate (fd len : Z)
| OpRename (old new : str)
| OpStat (path : str) (follow : bool)
| OpRemoveDir (path : str)
| OpUnlink (path : str)
| OpDup2 (old new : Z)
| OpSocket (domain ty protocol : Z)
| OpConnect (fd : Z) (addr : list Z)
| OpBind (fd : Z) (addr : list Z)
| OpListen (fd backlog : Z)
| OpAccept (fd room : Z)
| OpSend (fd : Z) (buf : list Z) (flags : Z) (to_ : option (list Z))
| OpRecv (fd : Z) (len : nat) (flags : Z) (room : option Z)
| OpSetsockopt (fd level name : Z) (val : list Z)
| OpGetsockname (fd room : Z)
| OpGetpeername (fd room : Z)
| OpShutdown (fd how : Z)
| OpInval.

(** A socket call, by its number and its arguments. *)
Definition decode_socket (n : Nr) (a : list Arg) : option Op :=
  match n, a with
  | SOCKET, [W d; W ty; W p] => Some (OpSocket (i32 d) (i32 ty) (i32 p))
  | CONNECT, [W fd; In b; W l] => Some (OpConnect (i32 fd) (take (Z.to_nat l) b))
  | BIND, [W fd; In b; W l] => Some (OpBind (i32 fd) (take (Z.to_nat l) b))
  | LISTEN, [W fd; W n] => Some (OpListen (i32 fd) (i32 n))
  | ACCEPT, [W fd; Out _; Out l] => Some (OpAccept (i32 fd) (from_le_bytes l))
  | SENDTO, [W fd; In b; W l; W fl; W 0; W 0] =>
      Some (OpSend (i32 fd) (take (Z.to_nat l) b) (i32 fl) None)
  | SENDTO, [W fd; In b; W l; W fl; In a; W al] =>
      Some (OpSend (i32 fd) (take (Z.to_nat l) b) (i32 fl) (Some (take (Z.to_nat al) a)))
  | RECVFROM, [W fd; Out _; W l; W fl; W 0; W 0] => Some (OpRecv (i32 fd) (Z.to_nat l) (i32 fl) None)
  | RECVFROM, [W fd; Out _; W l; W fl; Out _; Out al] =>
      Some (OpRecv (i32 fd) (Z.to_nat l) (i32 fl) (Some (from_le_bytes al)))
  | SETSOCKOPT, [W fd; W lev; W nm; In v; W l] =>
      Some (OpSetsockopt (i32 fd) (i32 lev) (i32 nm) (take (Z.to_nat l) v))
  | GETSOCKNAME, [W fd; Out _; Out l] => Some (OpGetsockname (i32 fd) (from_le_bytes l))
  | GETPEERNAME, [W fd; Out _; Out l] => Some (OpGetpeername (i32 fd) (from_le_bytes l))
  | SHUTDOWN, [W fd; W how] => Some (OpShutdown (i32 fd) (i32 how))
  | _, _ => None
  end.

(** The selectors of i386's [socketcall], from the Linux ABI. *)
Definition socketcall_nr (sc : Z) : option Nr :=
  match sc with
  | 1 => Some SOCKET | 2 => Some BIND | 3 => Some CONNECT | 4 => Some LISTEN
  | 5 => Some ACCEPT | 6 => Some GETSOCKNAME | 7 => Some GETPEERNAME | 11 => Some SENDTO
  | 12 => Some RECVFROM | 13 => Some SHUTDOWN | 14 => Some SETSOCKOPT | _ => None
  end.

(** The kernel's reading of a trap on each target. [dup3], unlike [dup2], refuses equal descriptors. *)
Definition decode (tr : Trap) : option Op :=
  match target, nr tr, args tr with
  | I686Linux, SOCKETCALL, [W sc; Args ws] => n ← socketcall_nr sc; decode_socket n ws
  | (I686Linux | ArmLinux), LLSEEK, [W fd; W hi; W lo; Out _; W whence] =>
      Some (OpSeek (i32 fd) (to_signed 64 (hi * 2 ^ 32 + lo)) (i32 whence))
  | (I686Linux | ArmLinux), LSEEK, _ => None
  | _, LSEEK, [W fd; W off; W whence] =>
      Some (OpSeek (i32 fd) (to_signed 64 off) (i32 whence))
  | I686Linux, FTRUNCATE, [W fd; W lo; W hi] => Some (OpTruncate (i32 fd) (hi * 2 ^ 32 + lo))
  | ArmLinux, FTRUNCATE, [W fd; W _; W lo; W hi] =>
      Some (OpTruncate (i32 fd) (hi * 2 ^ 32 + lo))
  | (I686Linux | ArmLinux), FTRUNCATE, _ => None
  | _, FTRUNCATE, [W fd; W len] => Some (OpTruncate (i32 fd) len)
  | Riscv64Linux, RENAMEAT, _ => None
  | _, RENAMEAT2, [W d1; CStr old; W d2; CStr new; W 0] =>
      if decide (i32 d1 = AT_FDCWD ∧ i32 d2 = AT_FDCWD) then Some (OpRename old new) else None
  | _, RENAMEAT, [W d1; CStr old; W d2; CStr new] =>
      if decide (i32 d1 = AT_FDCWD ∧ i32 d2 = AT_FDCWD) then Some (OpRename old new) else None
  | (Aarch64MacOS | X86_64MacOS), STAT64, [CStr p; Out _] => Some (OpStat p true)
  | (Aarch64MacOS | X86_64MacOS), LSTAT64, [CStr p; Out _] => Some (OpStat p false)
  | _, NEWFSTATAT, [W d; CStr p; Out _; W fl] =>
      if decide (i32 d = AT_FDCWD) then
        Some (OpStat p (bool_decide (Z.land fl AT_SYMLINK_NOFOLLOW = 0)))
      else None
  | _, UNLINKAT, [W d; CStr p; W fl] =>
      if decide (i32 d = AT_FDCWD) then
        Some (if decide (Z.land fl AT_REMOVEDIR = 0) then OpUnlink p else OpRemoveDir p)
      else None
  | (Aarch64Linux | Riscv64Linux), DUP3, [W o; W n; W 0] =>
      Some (if decide (i32 o = i32 n) then OpInval else OpDup2 (i32 o) (i32 n))
  | (Aarch64Linux | Riscv64Linux), DUP2, _ => None
  | _, DUP2, [W o; W n] => Some (OpDup2 (i32 o) (i32 n))
  | I686Linux, _, _ => None
  | _, n, a => decode_socket n a
  end.

(** The operations asked for, newest first. *)
Definition ops (h : Hist) : list (option Op) := decode ∘ fst <$> h.

(** ** Open descriptors *)

(** The descriptors the process got and has not given back. *)
Definition fd_effect (e : Trap * Reply) (fds : gmultiset Z) : gmultiset Z :=
  let '(tr, r) := e in
  let opened :=
    match from_ret (raw_ret r) with Ok fd => {[+ i32 fd +]} ⊎ fds | Err _ => fds end in
  match nr tr, args tr with
  | CLOSE, [W fd] => fds ∖ {[+ i32 fd +]}
  | (OPENAT | SOCKET | ACCEPT | DUP), _ => opened
  | SOCKETCALL, W 1 :: _ | SOCKETCALL, W 5 :: _ => opened
  | PIPE, _ => if carry r then fds else {[+ i32 (ret0 r); i32 (ret1 r) +]} ⊎ fds
  | PIPE2, _ =>
      match from_ret (raw_ret r) with
      | Ok _ =>
          let b := overlay (replicate 8 0) (out 0 r) in
          {[+ i32 (from_le_bytes (take 4 b)); i32 (from_le_bytes (drop 4 b)) +]} ⊎ fds
      | Err _ => fds
      end
  | _, _ => fds
  end.

Definition open_fds (h : Hist) : gmultiset Z := foldr fd_effect ∅ h.
End wrappers.

(** ** Laws of the register widths *)
Lemma to_signed_small w x : 0 < w → - 2 ^ (w - 1) ≤ x < 2 ^ (w - 1) → to_signed w x = x.
Proof.
  intros Hw Hx. assert (2 ^ w = 2 * 2 ^ (w - 1)) as H2.
  { rewrite <-Z.pow_succ_r by lia. f_equal. lia. }
  unfold to_signed, wrap. destruct (decide (0 ≤ x)).
  - rewrite Z.mod_small by lia. by rewrite decide_True by lia.
  - replace x with ((x + 2 ^ w) + (-1) * 2 ^ w) by lia.
    rewrite Z.mod_add, Z.mod_small by lia. rewrite decide_False by lia. lia.
Qed.

Lemma to_signed_wrap v w x : 0 < v ≤ w → to_signed v (wrap w x) = to_signed v x.
Proof. intros. unfold to_signed. by rewrite wrap_wrap by lia. Qed.

Section abi.
Context `{Machine}.

Lemma usize_bits_ge : 32 ≤ usize_bits target.
Proof. by destruct target. Qed.

Lemma i32_usize x : - 2 ^ 31 ≤ x < 2 ^ 31 → i32 (usize x) = x.
Proof.
  intros Hx. pose proof usize_bits_ge. unfold i32, usize. rewrite to_signed_wrap by lia.
  by apply to_signed_small.
Qed.

(** The two halves of a 64-bit argument. *)
Lemma halves x : wrap 32 (Z.shiftr x 32) * 2 ^ 32 + wrap 32 x = wrap 64 x.
Proof.
  unfold wrap. rewrite Z.shiftr_div_pow2 by lia. change (2 ^ 64) with (2 ^ 32 * 2 ^ 32).
  rewrite (Z.rem_mul_r x) by lia. lia.
Qed.

Lemma at_fdcwd_i32 : i32 (usize AT_FDCWD) = AT_FDCWD.
Proof. apply i32_usize. unfold AT_FDCWD. destruct (is_macos target); lia. Qed.

(** [m] asks the kernel for [op], in one trap. *)
Definition asks {A} (m : Sys A) (op : Op) : Prop :=
  ∀ h, ops (m h).2 = Some op :: ops h.

Definition is_i32 (x : Z) : Prop := - 2 ^ 31 ≤ x < 2 ^ 31.

Lemma asks_bind {A B} (m : Sys A) (k : A → Sys B) op :
  asks m op → (∀ x h, (k x h).2 = h) → asks (m ≫= k) op.
Proof.
  intros Hm Hk h. specialize (Hm h). revert Hm. unfold mbind, sys_bind.
  destruct (m h) as [x h']. cbn. by rewrite Hk.
Qed.

Lemma asks_syscall n a op : decode (mkTrap n a) = Some op → asks (syscall n a) op.
Proof. intros Hd h. change (decode (mkTrap n a) :: ops h = Some op :: ops h). by rewrite Hd. Qed.

Lemma decode_direct n ws op :
  target ≠ I686Linux → decode_socket n ws = Some op → decode (mkTrap n ws) = Some op.
Proof. intros Ht Hd. unfold decode. destruct target; try done; by destruct n. Qed.

Lemma decode_socketcall n sc ws op :
  target = I686Linux → socketcall_nr sc = Some n → decode_socket n ws = Some op →
  decode (mkTrap SOCKETCALL [W sc; Args ws]) = Some op.
Proof. intros Ht Hsc Hd. unfold decode. rewrite Ht. cbn. by rewrite Hsc. Qed.

Lemma asks_socket n sc ws op :
  socketcall_nr sc = Some n → decode_socket n ws = Some op →
  asks (socket_syscall n sc ws) op.
Proof.
  intros Hsc Hd. unfold socket_syscall. destruct (decide (target = I686Linux)) as [E|E].
  - rewrite E. apply asks_syscall. by eapply decode_socketcall.
  - pose proof (decode_direct n ws op E Hd) as Hn.
    destruct target; try done; by apply asks_syscall.
Qed.

(** Close [asks] goals of a wrapper: one trap, then a pure conversion. *)
Ltac asks_one :=
  apply asks_bind; [first [apply asks_socket | apply asks_syscall]|by intros [? ?] ?].

Lemma asks_lseek fd off whence :
  target ≠ Wasm32Wasi → is_i32 fd → is_i32 whence → - 2 ^ 63 ≤ off < 2 ^ 63 →
  asks (sc_lseek fd off whence) (OpSeek fd off whence).
Proof.
  intros Ht Hfd Hwh Hoff. unfold sc_lseek.
  assert (∀ x, wrap 64 x = wrap 64 off → to_signed 64 x = off) as Hs.
  { intros x Hx. unfold to_signed. rewrite Hx. by apply (to_signed_small 64). }
  pose proof (i32_usize fd Hfd) as Efd. pose proof (i32_usize whence Hwh) as Ewh.
  destruct target eqn:Et; try done; cbn [is_linux32]; asks_one; unfold decode; rewrite Et;
    cbn [nr args]; rewrite Efd, Ewh; do 2 f_equal; apply Hs; unfold usize; rewrite Et;
    cbn [usize_bits]; rewrite ?halves; by apply wrap_wrap.
Qed.

Lemma asks_ftruncate fd len :
  target ≠ Wasm32Wasi → is_i32 fd → 0 ≤ len < 2 ^ 64 →
  asks (sc_ftruncate fd len) (OpTruncate fd len).
Proof.
  intros Ht Hfd Hlen. unfold sc_ftruncate. pose proof (i32_usize fd Hfd) as Efd.
  destruct target eqn:Et; try done; asks_one; unfold decode; rewrite Et;
    cbn [nr args]; rewrite Efd; do 2 f_equal; unfold usize; rewrite Et;
    cbn [usize_bits]; rewrite ?halves; by apply wrap_small.
Qed.

Lemma asks_rename p q : target ≠ Wasm32Wasi → asks (sc_rename p q) (OpRename p q).
Proof.
  intros Ht. unfold sc_rename. pose proof at_fdcwd_i32 as Ecwd.
  destruct target eqn:Et; try done; asks_one; unfold decode; rewrite Et; cbn [nr args];
    by rewrite decide_True by by rewrite Ecwd.
Qed.

Lemma asks_statat p follow : target ≠ Wasm32Wasi → asks (sc_statat p follow) (OpStat p follow).
Proof.
  intros Ht. unfold sc_statat. pose proof at_fdcwd_i32 as Ecwd.
  destruct target eqn:Et; try done; cbn [is_macos]; asks_one; unfold decode; rewrite Et;
    destruct follow; cbn [nr args]; rewrite ?decide_True by done;
    unfold AT_SYMLINK_NOFOLLOW; rewrite ?Et; reflexivity.
Qed.

Lemma asks_unlinkat p : target ≠ Wasm32Wasi →
  asks (sc_rmdir p) (OpRemoveDir p) ∧ asks (sc_unlink p) (OpUnlink p).
Proof.
  intros Ht. unfold sc_rmdir, sc_unlink. pose proof at_fdcwd_i32 as Ecwd.
  split; asks_one; unfold decode, AT_REMOVEDIR; destruct target eqn:Et; try done;
    cbn [nr args]; by rewrite (decide_True (P := i32 _ = _)) by done.
Qed.

(** [dup3] stands in for [dup2]. *)
Definition only_dup3 : bool := bool_decide (target = Aarch64Linux ∨ target = Riscv64Linux).

Lemma asks_dup2 fd fd' : target ≠ Wasm32Wasi → is_i32 fd → is_i32 fd' →
  asks (sc_dup2 fd fd') (if decide (only_dup3 = true ∧ fd = fd') then OpInval else OpDup2 fd fd').
Proof.
  intros Ht Hfd Hfd'. unfold sc_dup2, only_dup3.
  pose proof (i32_usize fd Hfd) as E. pose proof (i32_usize fd' Hfd') as E'.
  destruct target eqn:Et; try done; asks_one; unfold decode; rewrite Et; cbn [nr args]; rewrite E, E';
    by repeat case_decide; naive_solver.
Qed.

(** Where [dup2] exists, giving a descriptor its own number does nothing and succeeds; where the wrapper has only
    [dup3], the same call is refused. *)
Lemma dup2_same_fd fd : target = Aarch64Linux → is_i32 fd → asks (sc_dup2 fd fd) OpInval.
Proof.
  intros Ht Hfd. pose proof (asks_dup2 fd fd ltac:(by rewrite Ht) Hfd Hfd) as H'.
  unfold only_dup3 in H'. rewrite Ht in H'. by rewrite decide_True in H'.
Qed.

(** C30: the wrappers ask for the same operation on every target: the two halves and the
    padding of 64-bit arguments on 32-bit Linux, the selectors of i386's [socketcall],
    [renameat2] and [dup3] where the plain calls do not exist, and the flags that tell
    [rmdir] from [unlink] and [lstat] from [stat]. The one exception is [dup2] of a descriptor to itself,
    which [dup3] refuses. *)
Theorem wrappers_abi fd fd' off whence len p q dom ty proto backlog how lev name fl
    addr val buf alen follow (Ht : target ≠ Wasm32Wasi)
    (Hi : Forall is_i32 [fd; fd'; whence; dom; ty; proto; backlog; how; lev; name; fl])
    (Hoff : - 2 ^ 63 ≤ off < 2 ^ 63) (Hlen : 0 ≤ len < 2 ^ 64) :
  asks (sc_lseek fd off whence) (OpSeek fd off whence)
  ∧ asks (sc_ftruncate fd len) (OpTruncate fd len)
  ∧ asks (sc_rename p q) (OpRename p q)
  ∧ asks (sc_statat p follow) (OpStat p follow)
  ∧ asks (sc_rmdir p) (OpRemoveDir p)
  ∧ asks (sc_unlink p) (OpUnlink p)
  ∧ asks (sc_dup2 fd fd') (if decide (only_dup3 = true ∧ fd = fd') then OpInval else OpDup2 fd fd')
  ∧ asks (sc_socket dom ty proto) (OpSocket dom ty proto)
  ∧ asks (sc_connect fd addr alen) (OpConnect fd (take (Z.to_nat alen) addr))
  ∧ asks (sc_bind fd addr alen) (OpBind fd (take (Z.to_nat alen) addr))
  ∧ asks (sc_listen fd backlog) (OpListen fd backlog)
  ∧ asks (sc_accept fd addr val) (OpAccept fd (from_le_bytes val))
  ∧ asks (sc_sendto fd buf fl None 0) (OpSend fd buf fl None)
  ∧ asks (sc_sendto fd buf fl (Some addr) alen)
         (OpSend fd buf fl (Some (take (Z.to_nat alen) addr)))
  ∧ asks (sc_recvfrom fd buf fl None) (OpRecv fd (length buf) fl None)
  ∧ asks (sc_recvfrom fd buf fl (Some (addr, val)))
         (OpRecv fd (length buf) fl (Some (from_le_bytes val)))
  ∧ asks (sc_setsockopt fd lev name val alen) (OpSetsockopt fd lev name (take (Z.to_nat alen) val))
  ∧ asks (sc_getsockname fd addr val) (OpGetsockname fd (from_le_bytes val))
  ∧ asks (sc_getpeername fd addr val) (OpGetpeername fd (from_le_bytes val))
  ∧ asks (sc_shutdown fd how) (OpShutdown fd how).
Proof.
  rewrite !Forall_cons in Hi. destruct Hi as (? & ? & ? & ? & ? & ? & ? & ? & ? & ? & ? & _).
  split_and!; first
    [ by apply asks_lseek | by apply asks_ftruncate | by apply asks_rename
    | by apply asks_statat | by apply asks_unlinkat | by apply asks_dup2 | idtac ].
  all: asks_one; [done|].
  all: cbn [decode_socket app]; rewrite ?Nat2Z.id, ?firstn_all, !i32_usize by assumption; done.
Qed.
End abi.

(** Witness of C30: a seek beyond 4 GiB on 32-bit x86 whose kernel answers zero. *)
Lemma wrappers_abi_witness :
  @asks (Build_Machine I686Linux (λ _ _, mkReply 0 0 false [])) _
    (@sc_lseek (Build_Machine I686Linux (λ _ _, mkReply 0 0 false [])) 3 (2 ^ 32 + 5) 0)
    (OpSeek 3 (2 ^ 32 + 5) 0).
Proof.
  apply (@wrappers_abi (Build_Machine I686Linux (λ _ _, mkReply 0 0 false []))
    3 4 (2 ^ 32 + 5) 0 0 [] [] 2 1 0 128 0 1 2 0 [] [] [] 16 true); [done| |lia|lia].
  repeat constructor; unfold is_i32; lia.
Defined.

(** ** Descriptors in and out *)
Section descriptors.
Context `{Machine}.

Lemma to_signed_range w x : 0 < w → - 2 ^ (w - 1) ≤ to_signed w x < 2 ^ (w - 1).
Proof.
  intros Hw. assert (2 ^ w = 2 * 2 ^ (w - 1)) as H2.
  { rewrite <-Z.pow_succ_r by lia. f_equal. lia. }
  pose proof (wrap_range w ltac:(lia) x). unfold to_signed.
  destruct (decide _); lia.
Qed.

Lemma i32_is_i32 x : is_i32 (i32 x).
Proof. by apply (to_signed_range 32). Qed.

(** [m] gives back every descriptor it takes. *)
Definition keeps {A} (m : Sys A) : Prop := ∀ h, open_fds (m h).2 = open_fds h.

(** [m] takes exactly the descriptors of its result. *)
Definition gives {A} (m : Sys A) (owned : A → gmultiset Z) : Prop :=
  ∀ h, open_fds (m h).2 = owned (m h).1 ⊎ open_fds h.

(** The descriptor of a result, if any. *)
Definition own {E} (r : result Z E) : gmultiset Z :=
  match r with Ok fd => {[+ fd +]} | Err _ => ∅ end.

Definition opener (n : Nr) : bool :=
  match n with
  | CLOSE | OPENAT | SOCKET | ACCEPT | DUP | SOCKETCALL | PIPE | PIPE2 => true
  | _ => false
  end.

Lemma keeps_syscall n a : opener n = false → keeps (syscall n a).
Proof. intros Hn h. cbn. by destruct n. Qed.

Lemma keeps_ret {A} (a : A) : keeps (mret a).
Proof. done. Qed.

Lemma keeps_bind {A B} (m : Sys A) (k : A → Sys B) :
  keeps m → (∀ x, keeps (k x)) → keeps (m ≫= k).
Proof.
  intros Hm Hk h. unfold mbind, sys_bind. specialize (Hm h).
  destruct (m h) as [x h'] eqn:E. by rewrite Hk.
Qed.

Lemma keeps_socket n sc ws :
  opener n = false → sc ≠ 1 → sc ≠ 5 → keeps (socket_syscall n sc ws).
Proof.
  intros Hn H1 H5. unfold socket_syscall.
  destruct target; try by apply keeps_syscall. intros h. cbn.
  destruct sc as [|p|p]; [done| |done]. repeat (destruct p as [p|p|]; try done).
Qed.

Lemma sc_close_fds fd h : is_i32 fd → open_fds (sc_close fd h).2 = open_fds h ∖ {[+ fd +]}.
Proof. 
  intros Hfd. change (open_fds h ∖ {[+ i32 (usize fd) +]} = open_fds h ∖ {[+ fd +]}).
  by rewrite i32_usize.
Qed.

Lemma opened_own (ret : Z) (fds : gmultiset Z) :
  match from_ret ret with Ok fd => {[+ i32 fd +]} ⊎ fds | Err _ => fds end
  = own (map_ok i32 (from_ret ret)) ⊎ fds.
Proof. destruct (from_ret ret) as [fd|e]; cbn [map_ok own]; multiset_solver. Qed.

Lemma gives_syscall n a :
  n = OPENAT ∨ n = DUP →
  gives (syscall n a) (λ '(ret, _), own (map_ok i32 (from_ret ret))).
Proof.
  intros Hn h. destruct Hn as [-> | ->]; apply opened_own.
Qed.

Lemma gives_socket n sc ws :
  (n = SOCKET ∧ sc = 1) ∨ (n = ACCEPT ∧ sc = 5) →
  gives (socket_syscall n sc ws) (λ '(ret, _), own (map_ok i32 (from_ret ret))).
Proof.
  intros Hn h. unfold socket_syscall.
  destruct Hn as [[-> ->]|[-> ->]]; destruct target; apply opened_own.
Qed.

Lemma gives_map {A B} (m : Sys A) (f : A → B) owned owned' :
  gives m owned → (∀ a, owned' (f a) = owned a) → gives (a ← m; mret (f a)) owned'.
Proof.
  intros Hm Hf h. specialize (Hm h). unfold mbind, sys_bind.
  destruct (m h) as [x h']. cbn in *. by rewrite Hm, Hf.
Qed.

Lemma sc_open_gives path flags mode : gives (sc_open path flags mode) own.
Proof.
  intros h. unfold sc_open, mbind, sys_bind.
  pose proof (gives_syscall OPENAT [W (usize AT_FDCWD); CStr path; W flags; W mode]
                ltac:(by left) h) as E.
  destruct (syscall _ _ h) as [[ret r] h']. exact E.
Qed.

Lemma sc_dup_gives fd : gives (sc_dup fd) own.
Proof.
  intros h. unfold sc_dup, mbind, sys_bind.
  pose proof (gives_syscall DUP [W (usize fd)] ltac:(by right) h) as E.
  destruct (syscall _ _ h) as [[ret r] h']. exact E.
Qed.

Lemma sc_socket_gives domain ty protocol : gives (sc_socket domain ty protocol) own.
Proof.
  intros h. unfold sc_socket, mbind, sys_bind.
  pose proof (gives_socket SOCKET 1 [W (usize domain); W (usize ty); W (usize protocol)]
                ltac:(by left) h) as E.
  destruct (socket_syscall _ _ _ h) as [[ret r] h']. exact E.
Qed.

Lemma sc_accept_gives fd addr addrlen : gives (sc_accept fd addr addrlen) (own ∘ fst).
Proof.
  intros h. unfold sc_accept, mbind, sys_bind.
  pose proof (gives_socket ACCEPT 5 [W (usize fd); Out addr; Out addrlen] ltac:(by right) h) as E.
  destruct (socket_syscall _ _ _ h) as [[ret r] h']. exact E.
Qed.

(** Descriptors fit an [i32]. *)
Definition fits {E} (r : result Z E) : Prop :=
  match r with Ok fd => is_i32 fd | Err _ => True end.

Lemma map_i32_fits (r : result Z Z) : fits (map_ok i32 r).
Proof. destruct r; [apply i32_is_i32|done]. Qed.

Lemma sc_open_fits path flags mode h : fits (sc_open path flags mode h).1.
Proof. apply map_i32_fits. Qed.
Lemma sc_socket_fits d ty p h : fits (sc_socket d ty p h).1.
Proof.
  unfold sc_socket, mbind, sys_bind. destruct (socket_syscall _ _ _ h) as [[ret r] h'].
  apply map_i32_fits.
Qed.
Lemma sc_dup_fits fd h : fits (sc_dup fd h).1.
Proof. apply map_i32_fits. Qed.
End descriptors.

(** Calls that neither open nor close. *)
Ltac keeps_one :=
  repeat first
    [ apply keeps_bind | apply keeps_ret | by apply keeps_syscall | by apply keeps_socket
    | intros [? ?] | intros ? ].

Section neutral.
Context `{Machine}.

Lemma sc_read_keeps fd n : keeps (sc_read fd n).
Proof. unfold sc_read. keeps_one. Qed.
Lemma sc_write_keeps fd b : keeps (sc_write fd b).
Proof. unfold sc_write. keeps_one. Qed.
Lemma sc_connect_keeps fd addr len : keeps (sc_connect fd addr len).
Proof. unfold sc_connect. keeps_one. Qed.
Lemma sc_bind_keeps fd addr len : keeps (sc_bind fd addr len).
Proof. unfold sc_bind. keeps_one. Qed.
Lemma sc_listen_keeps fd n : keeps (sc_listen fd n).
Proof. unfold sc_listen. keeps_one. Qed.
Lemma sc_setsockopt_keeps fd l n v len : keeps (sc_setsockopt fd l n v len).
Proof. unfold sc_setsockopt. keeps_one. Qed.
Lemma sc_sendto_keeps fd b fl a l : keeps (sc_sendto fd b fl a l).
Proof. unfold sc_sendto. keeps_one. Qed.
Lemma sc_recvfrom_keeps fd b fl a : keeps (sc_recvfrom fd b fl a).
Proof. unfold sc_recvfrom. keeps_one. Qed.
Lemma sc_fstat_keeps fd : keeps (sc_fstat fd).
Proof. unfold sc_fstat. keeps_one. Qed.
Lemma sc_statat_keeps p f : keeps (sc_statat p f).
Proof. unfold sc_statat. destruct (is_macos target), f; keeps_one. Qed.
Lemma sc_getdirentries_keeps fd b : keeps (sc_getdirentries fd b).
Proof. unfold sc_getdirentries. destruct (is_macos target); keeps_one. Qed.
Lemma sc_mkdir_keeps p m : keeps (sc_mkdir p m).
Proof. unfold sc_mkdir. keeps_one. Qed.
Lemma sc_rmdir_keeps p : keeps (sc_rmdir p).
Proof. unfold sc_rmdir. keeps_one. Qed.
Lemma sc_unlink_keeps p : keeps (sc_unlink p).
Proof. unfold sc_unlink. keeps_one. Qed.
Lemma sc_dup2_keeps a b : keeps (sc_dup2 a b).
Proof. unfold sc_dup2. destruct target; keeps_one. Qed.
Lemma sc_chdir_keeps p : keeps (sc_chdir p).
Proof. unfold sc_chdir. keeps_one. Qed.
Lemma sc_fork_keeps : keeps sc_fork.
Proof. unfold sc_fork. destruct target; keeps_one; done. Qed.
End neutral.

(** ** Ownership of descriptors through a computation *)
Section ownership.
Context `{Machine}.

(** Starting with the descriptors [L] on top of the others, [m] ends with the others and
    those of its result, whenever it returns. *)
Definition transfers {A} (L : gmultiset Z) (m : Prog A) (owned : A → gmultiset Z) : Prop :=
  ∀ X h a h', open_fds h = L ⊎ X → m h = Some (a, h') → open_fds h' = owned a ⊎ X.

(** [m] closes [L] and nothing else, and opens nothing it does not close. *)
Definition closes {A} (L : gmultiset Z) (m : Prog A) : Prop := transfers L m (λ _, ∅).
Definition balanced {A} (m : Prog A) : Prop := closes ∅ m.

Lemma transfers_ret {A} (a : A) L (owned : A → gmultiset Z) :
  owned a = L → transfers L (mret a) owned.
Proof. intros Ho X h b h' HX [= <- <-]. by rewrite Ho. Qed.

Lemma transfers_bind {A B} L (m : Prog A) (k : A → Prog B) (owned : B → gmultiset Z) :
  balanced m → (∀ x, transfers L (k x) owned) → transfers L (m ≫= k) owned.
Proof.
  intros Hm Hk X h b h' HX. unfold mbind, prog_bind.
  destruct (m h) as [[x h1]|] eqn:E; cbn; [|done]. apply Hk.
  rewrite (Hm (L ⊎ X) h x h1); [multiset_solver|multiset_solver|done].
Qed.

Lemma transfers_drop {B} L fd (k : unit → Prog B) (owned : B → gmultiset Z) (close : Sys unit) :
  (∀ h, open_fds (close h).2 = open_fds h ∖ {[+ fd +]}) →
  (∀ u, transfers L (k u) owned) → transfers ({[+ fd +]} ⊎ L) (call close ≫= k) owned.
Proof.
  intros Hc Hk X h b h' HX. unfold mbind, prog_bind, call; cbn [mbind option_bind].
  destruct (close h) as [u h1] eqn:E. apply Hk.
  specialize (Hc h). rewrite E in Hc. cbn [snd] in Hc. rewrite Hc, HX. multiset_solver.
Qed.

Lemma transfers_open {A E B} L (o : Sys (result A E)) (fd_of : A → Z)
    (k : result A E → Prog B) (owned : B → gmultiset Z) :
  gives o (λ r, own (map_ok fd_of r)) → (∀ h, fits (map_ok fd_of (o h).1)) →
  (∀ e, transfers L (k (Err e)) owned) →
  (∀ a, is_i32 (fd_of a) → transfers ({[+ fd_of a +]} ⊎ L) (k (Ok a)) owned) →
  transfers L (call o ≫= k) owned.
Proof.
  intros Ho Hf He Hk X h b h' HX. unfold mbind, prog_bind, call; cbn [mbind option_bind].
  specialize (Ho h). specialize (Hf h). destruct (o h) as [[a|e] h1]; cbn [fst snd map_ok own fits] in *.
  - apply Hk; [done|]. rewrite Ho, HX. multiset_solver.
  - apply He. rewrite Ho, HX. multiset_solver.
Qed.

Lemma balanced_call {A} (m : Sys A) : keeps m → balanced (call m).
Proof.
  intros Hm X h a h' HX [= Hh]. specialize (Hm h). rewrite Hh in Hm. cbn [snd] in Hm.
  rewrite Hm, HX. done.
Qed.

Lemma balanced_of_option {A} (o : option A) : balanced (of_option o).
Proof. intros X h a h' HX. unfold of_option. destruct o; cbn; [|done]. by intros [= <- <-]. Qed.

Lemma balanced_ret {A} (a : A) : balanced (mret a).
Proof. by apply transfers_ret. Qed.

Lemma balanced_none {A} L (owned : A → gmultiset Z) : transfers L (λ _, None) owned.
Proof. by intros X h a h' _. Qed.

(** The descriptor calls of [io::Fd] neither open nor close. *)
Lemma retry_keeps {A} fuel (m : Sys (result A Z)) h r h' :
  keeps m → retry fuel m h = Some (r, h') → open_fds h' = open_fds h.
Proof.
  intros Hm. revert h. induction fuel as [|fuel IH]; intros h; cbn [retry]; [done|].
  pose proof (Hm h) as Hk. destruct (m h) as [[a|e] h1] eqn:E; cbn [snd] in Hk.
  { by intros [= <- <-]. }
  destruct (decide (e = 4)) as [->|He].
  { intros Hr. by rewrite (IH _ Hr). }
  intros Hr. assert (h' = h1) as -> by (repeat (case_match; simplify_eq; try done)). done.
Qed.
End ownership.
