(* ===== verification/RandomState.v ===== *)
(** [RandomState], [DefaultHasher] and the constructors of [HashMap] and [HashSet] with the default hasher
    (src/src/hash.rs, src/src/collections.rs): the table of HashMap.v, the hasher of SipHash.v and the
    kernel's random bytes together.

    The keys of a process are fetched once and kept in a [OnceLock]; the cell is threaded through the
    calls (its behaviour under concurrent callers is that of Once.v).  What a key writes into
    the hasher is code of [core] or of the client: the class [Hash]. *)
From S2P Require Import Prelude SipHash HashMap HashSet Syscall.
From stdpp Require Import gmap list.
Open Scope Z_scope.

(** [K: Hash]: the slices that [key.hash(&mut hasher)] hands to [write], in order. *)
Class Hash (K : Type) := {
  hash_chunks : K → list (list Z);
  hash_chunks_bytes k : Forall (Forall is_byte) (hash_chunks k);
}.

Record RandomState := mkRandomState { k0 : Z; k1 : Z }.

(** The static [KEYS]. *)
Notation KeyCell := (option (Z * Z)).

Section defaults.
Context `{Machine}.

(** [process_keys]: the first caller asks the kernel. *)
Definition keys_or_init (c : KeyCell) : Prog ((Z * Z) * KeyCell) :=
  match c with
  | Some k => mret (k, c)
  | None =>
      '(r, buf) ← sc_getrandom (replicate 16 0);
      k ← of_option (process_keys (if is_ok r then Some buf else None));
      mret (k, Some k)
  end.

(** [RandomState::new] *)
Definition random_state_new (c : KeyCell) : Prog (RandomState * KeyCell) :=
  '(k, c) ← keys_or_init c; mret (mkRandomState k.1 k.2, c).

(** [hash_one] with [RandomState::build_hasher]; the slices of [write] are in range, which
    [hash_one_siphash] shows. *)
#[export] Instance random_state_hasher `{Hash K} : BuildHasher RandomState K := λ s k,
  default 0 (finish <$> write_all target (build_hasher (k0 s) (k1 s)) (hash_chunks k)).

Section maps.
Context {K V : Type} `{Countable K} `{Hash K}.

(** [HashMap::new], [HashMap::with_capacity], [HashSet::new] and [HashSet::with_capacity] *)
Definition hashmap_new (c : KeyCell) : Prog (HashMap K V RandomState * KeyCell) :=
  '(s, c) ← random_state_new c; mret (with_hasher s, c).

Definition hashmap_with_capacity (fuel : nat) (cap : Z) (c : KeyCell) : Prog (HashMap K V RandomState * KeyCell) :=
  '(s, c) ← random_state_new c;
  m ← of_option (with_capacity_and_hasher target fuel cap s);
  mret (m, c).
End maps.

Definition hashset_new `{Countable T} `{Hash T} (c : KeyCell) : Prog (HashSet T RandomState * KeyCell) :=
  '(m, c) ← hashmap_new c; mret (mkHashSet m, c).

Definition hashset_with_capacity `{Countable T} `{Hash T} (fuel : nat) (cap : Z) (c : KeyCell)
    : Prog (HashSet T RandomState * KeyCell) :=
  '(m, c) ← hashmap_with_capacity fuel cap c; mret (mkHashSet m, c).

(** * Random bytes always come, or an error *)
(** A result of the kernel is the content of a register. *)
Definition register_results : Prop := ∀ h tr, 0 ≤ ret0 (kernel h tr) < 2 ^ usize_bits target.

Lemma length_refill (buf new : list Z) (off : Z) :
  0 ≤ off → length (take (Z.to_nat off) buf ++ overlay (drop (Z.to_nat off) buf) new) = length buf.
Proof. intros. rewrite length_app, length_overlay, <-length_app. by rewrite take_drop. Qed.

(** A count that the wrapper takes for a success does not wrap the offset around. *)
Lemma from_ret_progress off n n' :
  0 ≤ n < 2 ^ usize_bits target → 0 ≤ off ≤ 4095 → from_ret n = Ok n' → n' ≠ 0 →
  n' = n ∧ usize (off + n) = off + n.
Proof.
  intros Hn Hoff. unfold from_ret, isize, to_signed, usize, wrap.
  destruct (usize_bits_cases target) as [Eb|Eb]; rewrite Eb in *;
    rewrite (Z.mod_small n) by lia; repeat case_decide; intros [= <-] Hne; (split; [done|]);
    apply Z.mod_small; lia.
Qed.

Lemma raw_ret_register (Hreg : register_results) h tr :
  0 ≤ raw_ret (kernel h tr) < 2 ^ usize_bits target.
Proof.
  unfold raw_ret. destruct (_ && _); [|apply Hreg]. apply Z.mod_pos_bound.
  by destruct (usize_bits_cases target) as [-> | ->].
Qed.

Lemma syscall_eq n a h :
  let r := kernel h (mkTrap n a) in syscall n a h = ((raw_ret r, r), (mkTrap n a, r) :: h).
Proof. done. Qed.

(** The system calls that ask for random bytes. *)
Definition asks_random (e : Trap * Reply) : Prop := nr e.1 = GETRANDOM ∨ nr e.1 = GETENTROPY.

(** What a call of the loop leaves: a buffer of the same length, and requests for random bytes only, at most
    one per missing byte. *)
Definition asked (buf : list Z) (off : Z) (h : Hist) (res : option ((result unit Z * list Z) * Hist)) : Prop :=
  ∃ r buf' new, res = Some ((r, buf'), new ++ h) ∧ length buf' = length buf
    ∧ Forall asks_random new ∧ Z.of_nat (length new) ≤ Z.max 0 (Z.of_nat (length buf) - off).

Lemma asked_stop buf off h r buf' e :
  off < Z.of_nat (length buf) → asks_random e → length buf' = length buf → asked buf off h (Some ((r, buf'), e :: h)).
Proof.
  intros Hlt He Hl. exists r, buf', [e]. split_and!; [done|done|by constructor|cbn; lia].
Qed.

Lemma asked_more buf buf1 off off' h e res :
  off < Z.of_nat (length buf) → off < off' → asks_random e → length buf1 = length buf →
  asked buf1 off' (e :: h) res → asked buf off h res.
Proof.
  intros Hlt Ho He Hl (r & buf' & new & -> & Hl' & Hn & Hc). exists r, buf', (new ++ [e]).
  split_and!; [by rewrite <-app_assoc|lia| |rewrite length_app; cbn; lia].
  apply Forall_app. split; [done|by constructor].
Qed.

Lemma getrandom_loop_returns (Hreg : register_results) fuel buf off h :
  0 ≤ off → Z.of_nat (length buf) ≤ 4096 →
  0 < Z.of_nat fuel → Z.of_nat (length buf) - off < Z.of_nat fuel →
  asked buf off h (getrandom_loop fuel buf off h).
Proof.
  revert buf off h. induction fuel as [|fuel IH]; intros buf off h Hoff Hlen Hpos Hfuel; [lia|].
  cbn [getrandom_loop]. destruct (decide (off < _)) as [Hlt|].
  2:{ eexists _, buf, []. split_and!; [done|done|constructor|cbn; lia]. }
  set (tl := drop (Z.to_nat off) buf).
  destruct (is_macos target) eqn:Em; rewrite bind_call, syscall_eq; cbn [fst snd];
    set (tr := mkTrap _ _); set (r := kernel h tr); set (buf1 := take _ _ ++ overlay tl (out 0 r));
    assert (length buf1 = length buf) as E1 by (by apply length_refill).
  - assert (asks_random (tr, r)) as He by (by right).
    destruct (from_ret _); [|by apply asked_stop].
    eapply asked_more; [done| |exact He|exact E1|apply IH]; lia.
  - assert (asks_random (tr, r)) as He by (by left).
    destruct (from_ret (raw_ret r)) as [n|e] eqn:En; [|by apply asked_stop].
    destruct (decide (n = 0)); [by apply asked_stop|].
    destruct (from_ret_progress off (raw_ret r) n) as [-> ->];
      [by apply raw_ret_register|lia|done|done|].
    pose proof (raw_ret_register Hreg h tr : 0 ≤ raw_ret r < _).
    eapply asked_more; [done| |exact He|exact E1|apply IH]; lia.
Qed.

(** [getrandom] returns on every kernel, with a buffer of the length it was given; it makes
    no other calls, and at most one per byte. *)
Lemma getrandom_returns (Hreg : register_results) buf h :
  Z.of_nat (length buf) ≤ 4096 →
  ∃ r buf' new, sc_getrandom buf h = Some ((r, buf'), new ++ h) ∧ length buf' = length buf
    ∧ Forall asks_random new ∧ (length new ≤ length buf)%nat.
Proof.
  intros. destruct (getrandom_loop_returns Hreg (S (length buf)) buf 0 h) as (r & buf' & new & ? & ? & ? & ?);
    [lia..|]. exists r, buf', new. split_and!; [done..|lia].
Qed.

(** A kernel that answers in full is asked once. *)
Definition answers_in_full (h : Hist) (b : list Z) : Prop :=
  ∀ tr, asks_random (tr, kernel h tr) →
    outs (kernel h tr) = [b] ∧ from_ret (raw_ret (kernel h tr)) = Ok (if is_macos target then 0 else 16).

Lemma overlay_all (old new : list Z) : length new = length old → overlay old new = new.
Proof. intros E. unfold overlay. rewrite take_ge, drop_ge by lia. apply app_nil_r. Qed.

Lemma getrandom_loop_end fuel buf off h :
  (0 < fuel)%nat → Z.of_nat (length buf) ≤ off → getrandom_loop fuel buf off h = Some ((Ok tt, buf), h).
Proof. intros Hf Ho. destruct fuel as [|fuel]; [lia|]. cbn [getrandom_loop]. by rewrite decide_False by lia. Qed.

Lemma getrandom_full buf h b :
  answers_in_full h b → length buf = 16%nat → length b = 16%nat →
  ∃ e, sc_getrandom buf h = Some ((Ok tt, b), e :: h) ∧ asks_random e.
Proof.
  intros Hfull Hbuf Hb. unfold sc_getrandom. cbn [getrandom_loop]. rewrite decide_True by lia.
  change (Z.to_nat 0) with 0%nat. rewrite drop_0, take_0.
  assert (usize (0 + 16) = 16) as Hu by (unfold usize; destruct target; vm_compute; reflexivity).
  destruct (is_macos target) eqn:Em; rewrite bind_call, syscall_eq; cbn [fst snd];
    set (tr := mkTrap _ _);
    (destruct (Hfull tr) as [Ho Hr]; [first [by left|by right]|]; rewrite Em in Hr; rewrite Hr; unfold out; rewrite Ho;
     change (default [] ([b] !! 0%nat)) with b; rewrite overlay_all, app_nil_l by lia).
  - rewrite getrandom_loop_end by lia. eexists. split; [reflexivity|by right].
  - rewrite decide_False by done. rewrite Hu, getrandom_loop_end by lia. eexists. split; [reflexivity|by left].
Qed.

(** * The keys of a process *)
(** The keys that 16 bytes are, and those without any. *)
Definition keys_of (buf : list Z) : Z * Z := (from_le_bytes (take 8 buf), from_le_bytes (take 8 (drop 8 buf))).
Definition fallback_keys : Z * Z := (0x0706050403020100, 0x0f0e0d0c0b0a0908).

Lemma process_keys_of buf : length buf = 16%nat → process_keys (Some buf) = Some (keys_of buf).
Proof. intros Hl. unfold process_keys, slice. rewrite Hl. reflexivity. Qed.

(** The first caller asks for 16 bytes and makes them its keys. *)
Lemma random_state_first (Hreg : register_results) h :
  ∃ r buf new, sc_getrandom (replicate 16 0) h = Some ((r, buf), new ++ h)
    ∧ length buf = 16%nat ∧ Forall asks_random new ∧ (length new ≤ 16)%nat
    ∧ let k := if is_ok r then keys_of buf else fallback_keys in
      random_state_new None h = Some ((mkRandomState k.1 k.2, Some k), new ++ h).
Proof.
  destruct (getrandom_returns Hreg (replicate 16 0) h) as (r & buf & new & E & Hl & Hn & Hc); [by vm_compute|].
  rewrite length_replicate in *. exists r, buf, new. split_and!; try done.
  unfold random_state_new, keys_or_init, mbind, prog_bind, of_option. rewrite E. cbn [mbind option_bind].
  destruct (is_ok r); [by rewrite process_keys_of|done].
Qed.

Lemma hash_one_siphash `{Hash K} (s : RandomState) (k : K) :
  hash_one s k = siphash13 (k0 s) (k1 s) (concat (hash_chunks k)).
Proof.
  destruct (write_all_rep target (hv (new_with_keys (k0 s) (k1 s))) (hash_chunks k) []
              (new_with_keys (k0 s) (k1 s))) as (h & Hw & Hr);
    [constructor|apply hash_chunks_bytes|apply new_rep|].
  unfold hash_one, random_state_hasher, build_hasher. rewrite Hw. cbn.
  apply (finish_rep target); [|done]. apply Forall_concat, hash_chunks_bytes.
Qed.

End defaults.

(** ** A kernel with entropy, and keys of type [u64] *)
(** [Hash for u64]: one [write] of its eight bytes. *)
#[export] Program Instance u64_hash : Hash Z := { hash_chunks k := [to_le_bytes 8 k] }.
Next Obligation. intros k. apply Forall_singleton, to_le_bytes_is_byte. Qed.

Definition entropy_kernel (h : Hist) (tr : Trap) : Reply :=
  mkReply 16 0 false [[1; 1; 2; 3; 5; 8; 13; 21; 34; 55; 89; 144; 233; 121; 98; 219]].

