(* ===== verification/Time.v ===== *)
(** [Instant] and [SystemTime] (src/src/time.rs), and the arithmetic of [core]'s [Duration]
    they are built on.

    [None] is a panic where the source says [expect], and the [None] of a checked operation
    elsewhere.  The counter of macOS on arm64 is a pair of registers, given as an
    argument. *)
From S2P Require Import Prelude Str Io Syscall.

Definition NANOS : Z := 1000000000.

(** What a duration measures, and which ones exist: seconds are a [u64]. *)
Definition total (d : Duration) : Z := secs d * NANOS + nanos d.
Definition valid (d : Duration) : Prop := 0 ≤ secs d < 2 ^ 64 ∧ 0 ≤ nanos d < NANOS.

(** ** [core::time] *)

(** [Duration::new] carries whole seconds over; an overflow panics. *)
Definition dur_new (s n : Z) : option Duration :=
  let s := s + n / NANOS in
  if decide (s < 2 ^ 64) then Some (mkDuration s (n mod NANOS)) else None.

Definition ZERO : Duration := mkDuration 0 0.

Definition checked_add (a b : Duration) : option Duration :=
  let s := secs a + secs b in
  let n := nanos a + nanos b in
  let '(s, n) := if decide (NANOS ≤ n) then (s + 1, n - NANOS) else (s, n) in
  if decide (s < 2 ^ 64) then Some (mkDuration s n) else None.

Definition checked_sub (a b : Duration) : option Duration :=
  if decide (secs a < secs b) then None
  else
    let s := secs a - secs b in
    if decide (nanos b ≤ nanos a) then Some (mkDuration s (nanos a - nanos b))
    else if decide (1 ≤ s) then Some (mkDuration (s - 1) (nanos a + NANOS - nanos b))
    else None.

(** ** [Instant] *)
Record Instant := mkInstant { since_boot : Duration }.

Definition instant_duration_since (a earlier : Instant) : Duration :=
  default ZERO (checked_sub (since_boot a) (since_boot earlier)).
Definition checked_duration_since (a earlier : Instant) : option Duration :=
  checked_sub (since_boot a) (since_boot earlier).
Definition saturating_duration_since (a earlier : Instant) : Duration :=
  instant_duration_since a earlier.
Definition instant_checked_add (a : Instant) (d : Duration) : option Instant :=
  mkInstant <$> checked_add (since_boot a) d.
Definition instant_checked_sub (a : Instant) (d : Duration) : option Instant :=
  mkInstant <$> checked_sub (since_boot a) d.

(** [Add<Duration>] and the two [Sub]s *)
Definition instant_add (a : Instant) (d : Duration) : option Instant := instant_checked_add a d.
Definition instant_sub (a : Instant) (d : Duration) : option Instant := instant_checked_sub a d.
Definition instant_sub_instant (a b : Instant) : Duration := instant_duration_since a b.

(** ** [SystemTime] *)
Record SystemTime := mkSystemTime { since_epoch : Duration }.

Definition UNIX_EPOCH : SystemTime := mkSystemTime ZERO.

(** The error carries how far [earlier] is ahead; [None]: that subtraction panics. *)
Definition duration_since (a earlier : SystemTime) : option (result Duration Duration) :=
  match checked_sub (since_epoch a) (since_epoch earlier) with
  | Some d => Some (Ok d)
  | None => Err <$> checked_sub (since_epoch earlier) (since_epoch a)
  end.
Definition system_checked_add (a : SystemTime) (d : Duration) : option SystemTime :=
  mkSystemTime <$> checked_add (since_epoch a) d.
Definition system_checked_sub (a : SystemTime) (d : Duration) : option SystemTime :=
  mkSystemTime <$> checked_sub (since_epoch a) d.

(** [SystemTime + Duration] and [SystemTime - Duration]: [None] is the panic of [expect]. *)
Definition system_add (a : SystemTime) (d : Duration) : option SystemTime := system_checked_add a d.
Definition system_sub (a : SystemTime) (d : Duration) : option SystemTime := system_checked_sub a d.

(** [SystemTimeError::duration] *)
Record SystemTimeError := mkSystemTimeError { ste_duration : Duration }.
Definition error_duration (e : SystemTimeError) : Duration := ste_duration e.

(** ** The clocks *)
Section clocks.
Context `{Machine} (counter : Z * Z).

Definition monotonic : Sys (Z * Z) :=
  match target with
  | Aarch64MacOS => mret (monotonic_counter counter.1 counter.2)
  | X86_64MacOS => monotonic_wall
  | _ => sc_monotonic
  end.

Definition monotonic_now : Prog Duration :=
  '(s, n) ← call monotonic; of_option (dur_new s n).

(** [(usecs as u32) * 1000] *)
Definition now_since_epoch : Prog Duration :=
  r ← call sc_gettimeofday;
  match r with
  | Ok (s, us) => of_option (dur_new s (wrap 32 (wrap 32 us * 1000)))
  | Err _ => mret ZERO
  end.

Definition instant_now : Prog Instant := d ← monotonic_now; mret (mkInstant d).
Definition elapsed (a : Instant) : Prog Duration :=
  now ← instant_now; mret (instant_duration_since now a).
Definition system_now : Prog SystemTime := d ← now_since_epoch; mret (mkSystemTime d).
Definition system_elapsed (a : SystemTime) : Prog (result Duration Duration) :=
  now ← system_now; of_option (duration_since now a).
End clocks.

(** ** Arithmetic *)
Lemma total_inj a b : valid a → valid b → total a = total b → a = b.
Proof.
  destruct a as [sa na], b as [sb nb]. unfold valid, total, NANOS. cbn. intros [? ?] [? ?] E.
  f_equal; lia.
Qed.

Lemma total_nonneg a : valid a → 0 ≤ total a < 2 ^ 64 * NANOS.
Proof. unfold valid, total, NANOS. lia. Qed.

Lemma checked_add_spec a b :
  valid a → valid b →
  match checked_add a b with
  | Some c => valid c ∧ total c = total a + total b
  | None => 2 ^ 64 * NANOS ≤ total a + total b
  end.
Proof.
  unfold valid, total, checked_add, NANOS. intros [? ?] [? ?].
  repeat case_decide; cbn; lia.
Qed.

Lemma checked_sub_spec a b :
  valid a → valid b →
  match checked_sub a b with
  | Some c => valid c ∧ total c = total a - total b
  | None => total a < total b
  end.
Proof.
  unfold valid, total, checked_sub, NANOS. intros [? ?] [? ?].
  repeat case_decide; cbn; lia.
Qed.

Lemma duration_since_spec a b :
  valid (since_epoch a) → valid (since_epoch b) →
  ∃ r, duration_since a b = Some r ∧
    match r with
    | Ok d => valid d ∧ total d = total (since_epoch a) - total (since_epoch b)
    | Err d => valid d ∧ total d = total (since_epoch b) - total (since_epoch a) ∧ 0 < total d
    end.
Proof.
  intros Ha Hb. pose proof (checked_sub_spec _ _ Ha Hb) as H1. pose proof (checked_sub_spec _ _ Hb Ha) as H2.
  unfold duration_since. destruct (checked_sub (since_epoch a) (since_epoch b)) as [d|]; [by exists (Ok d)|].
  destruct (checked_sub (since_epoch b) (since_epoch a)) as [d|]; [|lia].
  exists (Err d). split; [done|]. destruct H2. split_and!; [done..|lia].
Qed.

(** [x] is the duration of [n] nanoseconds, and none if there is no such duration. *)
Definition exactly (x : option Duration) (n : Z) : Prop :=
  match x with
  | Some c => valid c ∧ total c = n
  | None => n < 0 ∨ 2 ^ 64 * NANOS ≤ n
  end.

Lemma exactly_add a b : valid a → valid b → exactly (checked_add a b) (total a + total b).
Proof. intros Ha Hb. pose proof (checked_add_spec a b Ha Hb). destruct (checked_add a b); cbn; [done|lia]. Qed.

Lemma exactly_sub a b : valid a → valid b → exactly (checked_sub a b) (total a - total b).
Proof. intros Ha Hb. pose proof (checked_sub_spec a b Ha Hb). destruct (checked_sub a b); cbn; [done|lia]. Qed.

(** Subtracting undoes adding. *)
Lemma add_sub a d c : valid a → valid d → checked_add a d = Some c → checked_sub c d = Some a ∧ checked_sub c a = Some d.
Proof.
  intros Ha Hd E. pose proof (exactly_add a d Ha Hd) as Hc. rewrite E in Hc. destruct Hc as [Hc Ec].
  pose proof (total_nonneg a Ha). pose proof (total_nonneg d Hd).
  pose proof (exactly_sub c d Hc Hd) as H1. pose proof (exactly_sub c a Hc Ha) as H2.
  destruct (checked_sub c d) as [y|], (checked_sub c a) as [z|]; cbn in H1, H2; try lia.
  destruct H1, H2. split; f_equal; apply total_inj; try done; lia.
Qed.

(** The counter of macOS on arm64, in nanoseconds. *)
Lemma monotonic_counter_spec cnt freq :
  0 ≤ cnt → 0 < freq →
  let '(s, n) := monotonic_counter cnt freq in
  0 ≤ n < NANOS ∧ s * NANOS + n = cnt * NANOS / freq.
Proof.
  intros Hc Hf. unfold monotonic_counter. cbn [fst snd].
  assert (0 ≤ cnt mod freq * 1000000000 / freq < NANOS) as Hn.
  { pose proof (Z.mod_pos_bound cnt freq Hf). unfold NANOS. split.
    - apply Z.div_pos; lia.
    - apply Z.div_lt_upper_bound; lia. }
  rewrite wrap_small by (unfold NANOS in Hn; lia). split; [done|].
  rewrite (Z.div_mod cnt freq) at 3 by lia.
  replace ((freq * (cnt / freq) + cnt mod freq) * NANOS)
    with (cnt / freq * NANOS * freq + cnt mod freq * NANOS) by lia.
  by rewrite Z.div_add_l by lia.
Qed.

(** C32: time arithmetic. On valid durations every operation is exact arithmetic on nanoseconds. Adding a duration to
    an [Instant] or a [SystemTime], and subtracting one, gives the exact sum or difference and panics exactly
    when that is no duration; subtracting what was added gives the time back. The difference of two instants is clipped
    at zero, its checked version fails exactly below zero, [SystemTime::duration_since] never panics and its
    error carries the reverse difference. The arm64 counter is turned into nanoseconds exactly and never
    runs backwards. *)
Theorem time_correct a b d cnt cnt' freq
    (Ha : valid a) (Hb : valid b) (Hd : valid d) (Hc : 0 ≤ cnt ≤ cnt') (Hf : 0 < freq) :
  (exactly (since_boot <$> instant_add (mkInstant a) d) (total a + total d)
   ∧ exactly (since_boot <$> instant_sub (mkInstant a) d) (total a - total d)
   ∧ (∀ c, instant_add (mkInstant a) d = Some c →
        instant_sub c d = Some (mkInstant a) ∧ instant_sub_instant c (mkInstant a) = d))
  ∧ (exactly (since_epoch <$> system_add (mkSystemTime a) d) (total a + total d)
     ∧ exactly (since_epoch <$> system_sub (mkSystemTime a) d) (total a - total d)
     ∧ (∀ c, system_add (mkSystemTime a) d = Some c →
          system_sub c d = Some (mkSystemTime a) ∧ duration_since c (mkSystemTime a) = Some (Ok d)))
  ∧ total (instant_duration_since (mkInstant a) (mkInstant b)) = Z.max 0 (total a - total b)
  ∧ exactly (checked_duration_since (mkInstant a) (mkInstant b)) (total a - total b)
  ∧ (∃ r, duration_since (mkSystemTime a) (mkSystemTime b) = Some r ∧
       match r with
       | Ok x => total x = total a - total b
       | Err x => total x = total b - total a ∧ 0 < total x
       end)
  ∧ (let '(s, n) := monotonic_counter cnt freq in
     let '(s', n') := monotonic_counter cnt' freq in
     0 ≤ n < NANOS ∧ s * NANOS + n = cnt * NANOS / freq ∧ s * NANOS + n ≤ s' * NANOS + n').
Proof.
  pose proof (exactly_add a d Ha Hd) as Had. pose proof (exactly_sub a d Ha Hd) as Hsd.
  pose proof (exactly_sub a b Ha Hb) as Hab. pose proof (λ c, add_sub a d c Ha Hd) as Hback.
  split_and!.
  - unfold instant_add, instant_checked_add. cbn. by destruct (checked_add a d).
  - unfold instant_sub, instant_checked_sub. cbn. by destruct (checked_sub a d).
  - unfold instant_add, instant_checked_add, instant_sub, instant_checked_sub, instant_sub_instant,
      instant_duration_since. cbn. intros c (x & (E1 & E2)%Hback & ->)%fmap_Some. cbn. by rewrite E1, E2.
  - unfold system_add, system_checked_add. cbn. by destruct (checked_add a d).
  - unfold system_sub, system_checked_sub. cbn. by destruct (checked_sub a d).
  - unfold system_add, system_checked_add, system_sub, system_checked_sub, duration_since.
    cbn. intros c (x & (E1 & E2)%Hback & ->)%fmap_Some. cbn. by rewrite E1, E2.
  - pose proof (total_nonneg a Ha). pose proof (total_nonneg b Hb).
    unfold instant_duration_since. cbn. destruct (checked_sub a b) as [c|]; cbn in *.
    + destruct Hab as [?%total_nonneg ?]. lia.
    + change (total ZERO) with 0. lia.
  - done.
  - destruct (duration_since_spec (mkSystemTime a) (mkSystemTime b)) as (r & Hr & Hs); [done..|].
    exists r. split; [done|]. destruct r; naive_solver.
  - pose proof (monotonic_counter_spec cnt freq ltac:(lia) Hf) as H1.
    pose proof (monotonic_counter_spec cnt' freq ltac:(lia) Hf) as H2.
    destruct (monotonic_counter cnt freq), (monotonic_counter cnt' freq).
    destruct H1 as [? E1], H2 as [_ E2]. split_and!; [lia|lia|done|]. rewrite E1, E2.
    apply Z.div_le_mono; [done|]. unfold NANOS. lia.
Qed.

(** Witness of C32. *)
Lemma time_correct_witness :
  total (instant_duration_since (mkInstant (mkDuration 5 1)) (mkInstant (mkDuration 3 999999999)))
  = Z.max 0 (total (mkDuration 5 1) - total (mkDuration 3 999999999))
  ∧ exactly (since_epoch <$> system_sub (mkSystemTime (mkDuration 5 1)) (mkDuration 6 7)) (-1000000006).
Proof.
  split; apply (time_correct (mkDuration 5 1) (mkDuration 3 999999999) (mkDuration 6 7) 10 20 24);
    unfold valid, NANOS; cbn; lia.
Defined.

(** On 32-bit Linux the kernel stores a [timeval] of two 32-bit words; the wrapper reads two
    64-bit ones, so the microseconds end up in the seconds. *)
Lemma gettimeofday_32 `{Machine} h s us :
  target = I686Linux ∨ target = ArmLinux → 0 ≤ s < 2 ^ 32 → 0 ≤ us < 1000000 →
  kernel h (mkTrap GETTIMEOFDAY [Out (replicate 16 0); W 0])
    = mkReply 0 0 false [to_le_bytes 4 s ++ to_le_bytes 4 us] →
  (sc_gettimeofday h).1 = Ok (s + us * 2 ^ 32, 0).
Proof.
  intros Ht Hs Hus Hk. unfold sc_gettimeofday, syscall, trap, mbind, sys_bind, mret, sys_ret. rewrite Hk.
  assert (from_ret (raw_ret (mkReply 0 0 false [to_le_bytes 4 s ++ to_le_bytes 4 us])) = Ok 0) as ->
    by (unfold raw_ret, from_ret, isize, to_signed; destruct Ht as [-> | ->]; reflexivity).
  cbn [map_ok fst]. do 2 f_equal.
  change (from_le_bytes (to_le_bytes 4 s ++ to_le_bytes 4 us) = s + us * 2 ^ 32).
  rewrite from_le_bytes_app, length_to_le_bytes, !from_to_le_bytes, !wrap_small by lia. lia.
Qed.
