(* ===== verification/Fs.v ===== *)
(** Files and directories (src/src/fs.rs).

    A [File] is its descriptor; every operation runs on a machine ([Syscall.v]) and the
    drops at the end of a scope are written out.  [None] is a computation that does not
    return within the fuel (endless interruptions, an endless directory) or panics. *)
From S2P Require Import Prelude Str Utf8 Path Io IoBuf Syscall.
From stdpp Require Import gmultiset.
From stdpp Require Import list.
Open Scope Z_scope.

(** [CString::new] refuses an inner NUL. *)
Definition cstring (s : str) : option str :=
  if decide ("000"%char ∈ s) then None else Some s.

Definition cpath (path : str) : result str Error := ok_or (cstring path) (Simple InvalidInput).

(** ** Opening *)
Record OpenOptions := mkOpenOptions {
  oo_read : bool; oo_write : bool; oo_append : bool; oo_truncate : bool; oo_create : bool }.

Definition oo_new : OpenOptions := mkOpenOptions false false false false false.
Definition set_read (o : OpenOptions) (v : bool) : OpenOptions :=
  mkOpenOptions v (oo_write o) (oo_append o) (oo_truncate o) (oo_create o).
Definition set_write (o : OpenOptions) (v : bool) : OpenOptions :=
  mkOpenOptions (oo_read o) v (oo_append o) (oo_truncate o) (oo_create o).
Definition set_append (o : OpenOptions) (v : bool) : OpenOptions :=
  mkOpenOptions (oo_read o) (oo_write o) v (oo_truncate o) (oo_create o).
Definition set_truncate (o : OpenOptions) (v : bool) : OpenOptions :=
  mkOpenOptions (oo_read o) (oo_write o) (oo_append o) v (oo_create o).
Definition set_create (o : OpenOptions) (v : bool) : OpenOptions :=
  mkOpenOptions (oo_read o) (oo_write o) (oo_append o) (oo_truncate o) v.

Definition O_RDONLY : Z := 0.
Definition O_WRONLY : Z := 1.
Definition O_RDWR : Z := 2.
Definition O_CREAT (t : Target) : Z := if is_macos t then 0x0200 else 64 (* 0o100 *).
Definition O_TRUNC (t : Target) : Z := if is_macos t then 0x0400 else 512 (* 0o1000 *).
Definition O_APPEND (t : Target) : Z := if is_macos t then 0x0008 else 1024 (* 0o2000 *).

Definition open_flags (t : Target) (o : OpenOptions) : Z :=
  let flags :=
    match oo_read o, oo_write o || oo_append o with
    | true, true => O_RDWR
    | false, true => O_WRONLY
    | _, _ => O_RDONLY
    end in
  let flags := if oo_create o then Z.lor flags (O_CREAT t) else flags in
  let flags := if oo_truncate o then Z.lor flags (O_TRUNC t) else flags in
  if oo_append o then Z.lor flags (O_APPEND t) else flags.

Section files.
Context `{Machine}.

Definition os {A} (m : Sys (result A Z)) : Sys (result A Error) := r ← m; mret (map_err Os r).

(** [OpenOptions::open] *)
Definition oo_open (o : OpenOptions) (path : str) : Sys (result Z Error) :=
  match cpath path with
  | Err e => mret (Err e)
  | Ok c => os (sc_open c (open_flags target o) 420 (* 0o644 *))
  end.

Definition file_open (path : str) : Sys (result Z Error) :=
  oo_open (set_read oo_new true) path.

Definition file_create (path : str) : Sys (result Z Error) :=
  oo_open (set_truncate (set_create (set_write oo_new true) true) true) path.

(** [Drop for File]: the result of [close] is ignored. *)
Definition drop_fd (fd : Z) : Sys unit := _ ← sc_close fd; mret tt.

Definition set_len (fd size : Z) : Sys (result unit Error) := os (sc_ftruncate fd size).
Definition sync_all (fd : Z) : Sys (result unit Error) := os (sc_fsync fd).

(** Data and metadata are not told apart. *)
Definition sync_data (fd : Z) : Sys (result unit Error) := os (sc_fsync fd).

(** [io::Fd(self.fd)]: the descriptor on the current kernel. *)
Definition fd_at (fuel : nat) (fd : Z) (h : Hist) : Fd Hist := mkFd fd h fuel.

(** [Seek for File] *)
Definition file_seek (fd : Z) (pos : SeekFrom) : Sys (result Z Error) := λ h,
  let '(res, f) := fd_seek (fd_at 0 fd h) pos in (res, fd_kernel f).

(** [Read for File] and [Write for File]: the calls of the descriptor. *)
Definition file_read (fuel : nat) (fd : Z) (n : nat) : Prog (result (list Z) Error) := λ h,
  '(res, f) ← Io.read (fd_at fuel fd h) n; Some (res, fd_kernel f).

Definition file_write_all (fuel : nat) (fd : Z) (buf : list Z) : Prog (result unit Error) := λ h,
  '(res, f) ← write_all target fuel (fd_at fuel fd h) buf; Some (res, fd_kernel f).

Definition file_read_to_end (fuel : nat) (fd : Z) : Prog (result Z Error * list Z) := λ h,
  '(res, buf, f) ← read_to_end target fuel (fd_at fuel fd h) []; Some (res, buf, fd_kernel f).

(** ** Whole files *)
Definition fs_read (fuel : nat) (path : str) : Prog (result (list Z) Error) :=
  f ←? call (file_open path);
  '(res, buf) ← file_read_to_end fuel f;
  _ ← call (drop_fd f);
  mret (map_ok (λ _, buf) res).

Definition fs_read_to_string (fuel : nat) (path : str) : Prog (result str Error) :=
  f ←? call (file_open path);
  '(res, buf) ← file_read_to_end fuel f;
  let res := match res with
             | Err e => Err e
             | Ok _ => if utf8_valid buf then Ok (of_bytes buf) else Err (Simple InvalidData)
             end in
  _ ← call (drop_fd f);
  mret res.

Definition fs_write (fuel : nat) (path : str) (contents : list Z) : Prog (result unit Error) :=
  f ←? call (file_create path);
  res ← file_write_all fuel f contents;
  _ ← call (drop_fd f);
  mret res.

(** [io::copy] between two files of one process. *)
Fixpoint copy_files (fuel wfuel : nat) (src dst total : Z) : Prog (result Z Error) :=
  match fuel with
  | O => λ _, None
  | S fuel =>
      res ← file_read wfuel src (Z.to_nat 8192);
      match res with
      | Ok [] => mret (Ok total)
      | Ok d =>
          res ← file_write_all wfuel dst d;
          match res with
          | Ok _ => copy_files fuel wfuel src dst (wrap 64 (total + Z.of_nat (length d)))
          | Err e => mret (Err e)
          end
      | Err e => if is_interrupted target e then copy_files fuel wfuel src dst total else mret (Err e)
      end
  end.

(** The destination is dropped before the source. *)
Definition fs_copy (fuel wfuel : nat) (from to_ : str) : Prog (result Z Error) :=
  src ←? call (file_open from);
  dst ← call (file_create to_);
  match dst with
  | Err e => _ ← call (drop_fd src); mret (Err e)
  | Ok dst =>
      res ← copy_files fuel wfuel src dst 0;
      _ ← call (drop_fd dst);
      _ ← call (drop_fd src);
      mret res
  end.

(** ** Names *)
Definition with_path {A} (path : str) (m : str → Sys (result A Z)) : Sys (result A Error) :=
  match cpath path with Err e => mret (Err e) | Ok c => os (m c) end.

Definition remove_file (path : str) : Sys (result unit Error) := with_path path sc_unlink.
Definition create_dir (path : str) : Sys (result unit Error) :=
  with_path path (λ c, sc_mkdir c 493 (* 0o755 *)).
Definition remove_dir (path : str) : Sys (result unit Error) := with_path path sc_rmdir.

Definition rename (from to_ : str) : Sys (result unit Error) :=
  match cpath from with
  | Err e => mret (Err e)
  | Ok a => match cpath to_ with Err e => mret (Err e) | Ok b => os (sc_rename a b) end
  end.
End files.

(** ** Metadata *)
Definition S_IFMT : Z := 0xF000.
Definition S_IFREG : Z := 0x8000.
Definition S_IFDIR : Z := 0x4000.
Definition S_IFLNK : Z := 0xA000.

(** A little-endian field of a [StatBuf]. *)
Definition field (n off : nat) (b : list Z) : Z := from_le_bytes (take n (drop off b)).

Section metadata.
Context (t : Target).
Implicit Types b : list Z.

Definition st_mode b : Z :=
  match t with
  | Aarch64MacOS | X86_64MacOS => field 2 4 b
  | X86_64Linux => field 4 24 b
  | Aarch64Linux | Riscv64Linux | I686Linux | ArmLinux => field 4 16 b
  | Wasm32Wasi => 0
  end.

Definition ST_SIZE_OFF : nat :=
  match t with
  | Aarch64MacOS | X86_64MacOS => 96
  | I686Linux => 44
  | Wasm32Wasi => 0
  | _ => 48
  end.

Definition ST_MTIME_OFF : nat :=
  match t with
  | Aarch64MacOS | X86_64MacOS => 48
  | I686Linux => 72
  | ArmLinux => 80
  | Wasm32Wasi => 0
  | _ => 88
  end.

Definition ST_UID_OFF : nat :=
  match t with
  | Aarch64MacOS | X86_64MacOS => 16
  | X86_64Linux => 28
  | Wasm32Wasi => 0
  | _ => 24
  end.

Definition read_i64 b (off : nat) : Z := to_signed 64 (field 8 off b).

Definition read_time_secs b (off : nat) : Z :=
  if is_linux32 t then field 4 off b else read_i64 b off.

(** [FileType] and [Permissions] are mode bits. *)
Definition ft_is_file (m : Z) : bool := bool_decide (Z.land m S_IFMT = S_IFREG).
Definition ft_is_dir (m : Z) : bool := bool_decide (Z.land m S_IFMT = S_IFDIR).
Definition ft_is_symlink (m : Z) : bool := bool_decide (Z.land m S_IFMT = S_IFLNK).

Definition readonly (p : Z) : bool := bool_decide (Z.land p 0x92 = 0).
Definition set_readonly (p : Z) (ro : bool) : Z :=
  if ro then Z.land p (Z.lxor 0xFFFFFFFF 0x92) else Z.lor p 0x80.

(** [Metadata] is its [StatBuf]. *)
Definition file_type b : Z := Z.land (st_mode b) S_IFMT.
Definition is_file b : bool := ft_is_file (file_type b).
Definition is_dir b : bool := ft_is_dir (file_type b).
Definition is_symlink b : bool := ft_is_symlink (file_type b).
Definition len b : Z := wrap 64 (read_i64 b ST_SIZE_OFF).
Definition permissions b : Z := Z.land (st_mode b) 0xFFF.
(** Seconds since the epoch. *)
Definition modified b : Z := wrap 64 (read_time_secs b ST_MTIME_OFF).
Definition raw_uid b : Z := field 4 ST_UID_OFF b.
Definition raw_gid b : Z := field 4 (ST_UID_OFF + 4) b.
Definition raw_ino b : Z := field 8 8 b.
Definition from_mode_raw (mode : Z) : Z := Z.land mode 0xFFF.
End metadata.

Section dirs.
Context `{Machine}.

Definition file_metadata (fd : Z) : Sys (result (list Z) Error) := os (sc_fstat fd).
Definition metadata (path : str) : Sys (result (list Z) Error) :=
  with_path path (λ c, sc_statat c true).
Definition symlink_metadata (path : str) : Sys (result (list Z) Error) :=
  with_path path (λ c, sc_statat c false).

(** [Path::metadata], [Path::exists], [Path::is_file] and [Path::is_dir] *)
Definition path_metadata (p : str) : Sys (result (list Z) Error) := metadata p.
Definition path_exists (p : str) : Sys bool :=
  r ← metadata p; mret match r with Ok _ => true | Err _ => false end.
Definition path_is_file (p : str) : Sys bool :=
  r ← metadata p; mret match r with Ok m => is_file target m | Err _ => false end.
Definition path_is_dir (p : str) : Sys bool :=
  r ← metadata p; mret match r with Ok m => is_dir target m | Err _ => false end.

(** [create_dir_all]: the recursion is on a strictly shorter path. *)
Fixpoint create_dir_all (fuel : nat) (p : str) : Prog (result unit Error) :=
  match fuel with
  | O => λ _, None
  | S fuel =>
      m ← call (metadata p);
      if match m with Ok m => is_dir target m | Err _ => false end then mret (Ok tt)
      else
        up ← (match parent p with
              | Some up => if decide (up = []) then mret (Ok tt) else create_dir_all fuel up
              | None => mret (Ok tt)
              end : Prog (result unit Error));
        match up with
        | Err e => mret (Err e)
        | Ok _ =>
            r ← call (create_dir p);
            mret match r with
                 | Ok _ => Ok tt
                 | Err e => if decide (kind target e = AlreadyExists) then Ok tt else Err e
                 end
        end
  end.

(** ** Directories *)
Record DirEntry := mkDirEntry { de_name : str; de_type : Z; de_parent : str }.

Definition DT_DIR : Z := 4.
Definition DT_REG : Z := 8.
Definition DT_LNK : Z := 10.

Definition de_path (e : DirEntry) : str := Path.join (de_parent e) (de_name e).

Definition de_file_name (e : DirEntry) : str := de_name e.
Definition de_metadata (e : DirEntry) : Sys (result (list Z) Error) := symlink_metadata (de_path e).

Definition de_file_type (e : DirEntry) : Sys (result Z Error) :=
  if decide (de_type e = DT_DIR) then mret (Ok S_IFDIR)
  else if decide (de_type e = DT_REG) then mret (Ok S_IFREG)
  else if decide (de_type e = DT_LNK) then mret (Ok S_IFLNK)
  else r ← symlink_metadata (de_path e); mret (map_ok (file_type target) r).

Record ReadDir := mkReadDir {
  rd_fd : Z; rd_parent : str; rd_buf : list Z; rd_pos : Z; rd_cap : Z }.

Definition read_dir (path : str) : Sys (result ReadDir Error) :=
  match cpath path with
  | Err e => mret (Err e)
  | Ok c =>
      r ← os (sc_open c O_RDONLY 0);
      mret (map_ok (λ fd, mkReadDir fd path (replicate (Z.to_nat 4096) 0) 0 0) r)
  end.

(** [Path::read_dir] *)
Definition path_read_dir (p : str) : Sys (result ReadDir Error) := read_dir p.

(** The name and the type of the record [rec] of length [reclen]; [None]: out of range. *)
Definition dirent (rec : list Z) (reclen : Z) : option (list Z * Z) :=
  if is_macos target then
    nl ← slice rec 18 20;
    ty ← index rec 20;
    name ← slice rec 21 (21 + from_le_bytes nl);
    Some (name, ty)
  else
    ty ← index rec 18;
    body ← slice rec 19 reclen;
    Some (take (position_nul body) body, ty).

(** The refill of [next]: [Ok false] at the end of the directory. *)
Definition refill (d : ReadDir) : Sys (result bool Error * ReadDir) :=
  if decide (rd_cap d ≤ rd_pos d) then
    '(r, buf) ← sc_getdirentries (rd_fd d) (rd_buf d);
    mret match r with
         | Ok n => if decide (n = 0) then (Ok false, mkReadDir (rd_fd d) (rd_parent d) buf (rd_pos d) (rd_cap d))
                   else (Ok true, mkReadDir (rd_fd d) (rd_parent d) buf 0 n)
         | Err e => (Err (Os e), mkReadDir (rd_fd d) (rd_parent d) buf (rd_pos d) (rd_cap d))
         end
  else mret (Ok true, d).

Definition at_pos (d : ReadDir) (pos : Z) : ReadDir :=
  mkReadDir (rd_fd d) (rd_parent d) (rd_buf d) pos (rd_cap d).

(** What the loop of [next] does with the record at the current position: go round again
    ([Err]), or return an entry. *)
Definition record_step (d : ReadDir) : option (result DirEntry unit * ReadDir) :=
  rec ← slice (rd_buf d) (rd_pos d) (rd_cap d);
  rl ← slice rec 16 18;
  let reclen := from_le_bytes rl in
  if decide (reclen = 0 ∨ rd_cap d < rd_pos d + reclen) then
    Some (Err tt, at_pos d (rd_cap d))
  else
    '(bytes, ty) ← dirent rec reclen;
    let name := from_utf8_lossy bytes in
    let d' := at_pos d (rd_pos d + reclen) in
    if decide (name = lit "." ∨ name = lit "..") then Some (Err tt, d')
    else Some (Ok (mkDirEntry name ty (rd_parent d)), d').

Fixpoint rd_next (fuel : nat) (d : ReadDir) : Prog (option (result DirEntry Error) * ReadDir) :=
  match fuel with
  | O => λ _, None
  | S fuel =>
      '(r, d) ← call (refill d);
      match r with
      | Ok false => mret (None, d)
      | Err e => mret (Some (Err e), d)
      | Ok true =>
          '(s, d) ← of_option (record_step d);
          match s with
          | Err _ => rd_next fuel d
          | Ok e => mret (Some (Ok e), d)
          end
      end
  end.

(** The loop of [remove_dir_all] over the entries; [rec] removes a directory below. *)
Fixpoint remove_entries (rec : str → Prog (result unit Error)) (n rfuel : nat) (d : ReadDir)
    : Prog (result unit Error) :=
  match n with
  | O => λ _, None
  | S n =>
      '(e, d) ← rd_next rfuel d;
      match e with
      | None => mret (Ok tt)
      | Some (Err e) => mret (Err e)
      | Some (Ok e) =>
          ty ←? call (de_file_type e);
          _ ←? (if ft_is_dir ty then rec (de_path e) else call (remove_file (de_path e)));
          remove_entries rec n rfuel d
      end
  end.

(** [fuel] bounds the depth of the tree and the entries of a directory, [rfuel] the records
    one [next] skips. *)
Fixpoint remove_dir_all (fuel rfuel : nat) (p : str) : Prog (result unit Error) :=
  match fuel with
  | O => λ _, None
  | S n =>
      d ←? call (read_dir p);
      r ← remove_entries (remove_dir_all n rfuel) fuel rfuel d;
      _ ← call (drop_fd (rd_fd d));
      match r with Err e => mret (Err e) | Ok _ => call (remove_dir p) end
  end.
End dirs.

(** ** Descriptors are given back *)
Section loops.
Context (t : Target).

Lemma read_to_end_inv {R} `{Read R} (P : R → Prop) fuel r buf res buf' r' :
  (∀ r n res r', P r → Io.read r n = Some (res, r') → P r') →
  P r → read_to_end t fuel r buf = Some (res, buf', r') → P r'.
Proof.
  intros Hstep. unfold read_to_end.
  assert (∀ r buf res buf' r', P r → read_to_end_loop t fuel r buf = Some (res, buf', r') → P r')
    as Hloop.
  { induction fuel as [|fuel IH]; intros r0 b0 res0 b0' r0' Hr0; cbn [read_to_end_loop]; [done|].
    destruct (Io.read r0 _) as [[rs r1]|] eqn:E; cbn [mbind option_bind]; [|done].
    pose proof (Hstep _ _ _ _ Hr0 E) as Hr1. destruct rs as [[|x d]|e].
    - by intros [= <- <- <-].
    - by apply IH.
    - destruct (is_interrupted t e); [by apply IH|]. by intros [= <- <- <-]. }
  intros Hr. destruct (read_to_end_loop t fuel r buf) as [[[rs b] r1]|] eqn:E;
    cbn [mbind option_bind]; [|done].
  intros [= <- <- <-]. by eapply Hloop.
Qed.

Lemma write_all_inv {V} `{Write V} (P : V → Prop) fuel w buf res w' :
  (∀ w b res w', P w → write w b = Some (res, w') → P w') →
  P w → write_all t fuel w buf = Some (res, w') → P w'.
Proof.
  intros Hstep. revert w buf. induction fuel as [|fuel IH]; intros w buf Hw; cbn [write_all].
  { destruct (decide _); [|done]. by intros [= <- <-]. }
  destruct (decide _) as [|Hne]; [by intros [= <- <-]|].
  destruct (write w buf) as [[rs w1]|] eqn:E; cbn [mbind option_bind]; [|done].
  pose proof (Hstep _ _ _ _ Hw E) as Hw1. destruct rs as [n|e].
  - destruct (decide (n = 0)); [by intros [= <- <-]|]. destruct (decide _); [|done]. by apply IH.
  - destruct (is_interrupted t e); [by apply IH|]. by intros [= <- <-].
Qed.
End loops.

Section no_leaks.
Context `{Machine}.

Lemma os_result_kernel {A} (f : Fd Hist) (o : option (result A Z * Hist)) res f' :
  os_result f o = Some (res, f') → ∃ r h', o = Some (r, h') ∧ fd_kernel f' = h'.
Proof. destruct o as [[r h']|]; cbn; [|done]. intros [= <- <-]. by exists r, h'. Qed.

Lemma fd_read_keeps (f : Fd Hist) n res f' :
  Io.read f n = Some (res, f') → open_fds (fd_kernel f') = open_fds (fd_kernel f).
Proof.
  intros (r & h' & Hr & ->)%os_result_kernel. eapply retry_keeps; [|exact Hr].
  apply sc_read_keeps.
Qed.

Lemma fd_write_keeps (f : Fd Hist) b res f' :
  write f b = Some (res, f') → open_fds (fd_kernel f') = open_fds (fd_kernel f).
Proof.
  intros (r & h' & Hr & ->)%os_result_kernel. eapply retry_keeps; [|exact Hr].
  apply sc_write_keeps.
Qed.

Lemma file_read_balanced fuel fd n : balanced (file_read fuel fd n).
Proof.
  intros X h a h' HX. unfold file_read.
  destruct (Io.read _ _) as [[res f]|] eqn:E; cbn [mbind option_bind]; [|done].
  intros [= <- <-]. apply fd_read_keeps in E. rewrite E. exact HX.
Qed.

Lemma file_read_to_end_balanced fuel fd : balanced (file_read_to_end fuel fd).
Proof.
  intros X h a h' HX. unfold file_read_to_end.
  destruct (read_to_end _ _ _ _) as [[[res buf] f]|] eqn:E; cbn [mbind option_bind]; [|done].
  intros [= <- <-].
  apply (read_to_end_inv target (λ f, open_fds (fd_kernel f) = ∅ ⊎ X)) in E; [done| |done].
  intros r n res' r' <- Hr. by apply fd_read_keeps in Hr.
Qed.

Lemma file_write_all_balanced fuel fd b : balanced (file_write_all fuel fd b).
Proof.
  intros X h a h' HX. unfold file_write_all.
  destruct (write_all _ _ _ _) as [[res f]|] eqn:E; cbn [mbind option_bind]; [|done].
  intros [= <- <-].
  apply (write_all_inv target (λ f, open_fds (fd_kernel f) = ∅ ⊎ X)) in E; [done| |done].
  intros r n res' r' <- Hr. by apply fd_write_keeps in Hr.
Qed.

Lemma os_gives {A} (m : Sys (result A Z)) (f : A → Z) :
  gives m (λ r, own (map_ok f r)) → gives (os m) (λ r, own (map_ok f r)).
Proof.
  intros Hm h. specialize (Hm h). unfold os, mbind, sys_bind.
  destruct (m h) as [[a|e] h']; exact Hm.
Qed.

Lemma os_fits (m : Sys (result Z Z)) h : fits (m h).1 → fits (os m h).1.
Proof. unfold os, mbind, sys_bind. by destruct (m h) as [[a|e] h']. Qed.

Lemma os_keeps {A} (m : Sys (result A Z)) : keeps m → keeps (os m).
Proof. intros Hm. apply keeps_bind; [done|]. intros x. apply keeps_ret. Qed.

Lemma map_ok_id {A E} (r : result A E) : map_ok id r = r.
Proof. by destruct r. Qed.

Lemma gives_err {A E} (f : A → Z) (e : E) : gives (mret (Err e)) (λ r, own (map_ok f r)).
Proof. intros h. change (open_fds h = ∅ ⊎ open_fds h). multiset_solver. Qed.

Lemma oo_open_gives o path : gives (oo_open o path) (λ r, own (map_ok id r)).
Proof.
  unfold oo_open. destruct (cpath path); [|apply gives_err].
  apply os_gives. intros h. rewrite map_ok_id. apply sc_open_gives.
Qed.

Lemma oo_open_fits o path h : fits (map_ok id (oo_open o path h).1).
Proof.
  unfold oo_open. destruct (cpath path); [|done]. rewrite map_ok_id. apply os_fits, sc_open_fits.
Qed.

(** One answer of the kernel is never both a file and a directory, and either exists. *)
Lemma path_kinds p h :
  ((path_is_file p h).1 && (path_is_dir p h).1) = false
  ∧ ((path_is_file p h).1 || (path_is_dir p h).1 → (path_exists p h).1).
Proof.
  unfold path_is_file, path_is_dir, path_exists, mbind, sys_bind, mret, sys_ret.
  destruct (metadata p h) as [[m|e] h']; cbn; [|done]. split; [|done].
  unfold is_file, is_dir, ft_is_file, ft_is_dir. unfold S_IFREG, S_IFDIR.
  repeat case_bool_decide; try done. lia.
Qed.

Lemma drop_fd_closes fd h : is_i32 fd → open_fds (drop_fd fd h).2 = open_fds h ∖ {[+ fd +]}.
Proof. apply sc_close_fds. Qed.

Lemma with_path_keeps {A} path (m : str → Sys (result A Z)) :
  (∀ c, keeps (m c)) → keeps (with_path path m).
Proof. intros Hm. unfold with_path. destruct (cpath path); [apply os_keeps, Hm|done]. Qed.
End no_leaks.

Create HintDb balance.
#[export] Hint Resolve balanced_ret balanced_none balanced_call balanced_of_option
  file_read_balanced file_read_to_end_balanced file_write_all_balanced : balance.

(** Walk a computation: results, drops, then steps that keep every descriptor. *)
Ltac balance_step :=
  lazymatch goal with
  | |- transfers _ (mret _) _ => apply transfers_ret; multiset_solver
  | |- transfers _ (call (drop_fd _) ≫= _) _ =>
      first [ apply transfers_drop; [intros; by apply drop_fd_closes|intros ?]
            | rewrite <-(right_id_L ∅ (⊎) ({[+ _ +]}));
              apply transfers_drop; [intros; by apply drop_fd_closes|intros ?] ]
  | |- transfers _ (_ ≫= _) _ => apply transfers_bind; [by eauto with balance|intros ?]
  | |- transfers _ (match ?x with _ => _ end) _ => destruct x
  | |- transfers _ (λ _, None) _ => apply balanced_none
  end.

Ltac balance := unfold balanced, closes; repeat balance_step.

Section balanced_files.
Context `{Machine}.

(** Opening a file, then a computation that closes it. *)
Lemma balanced_opened {A} o path L (k : result Z Error → Prog A) :
  (∀ e, closes L (k (Err e))) →
  (∀ fd, is_i32 fd → closes ({[+ fd +]} ⊎ L) (k (Ok fd))) →
  closes L (call (oo_open o path) ≫= k).
Proof.
  intros He Hk. apply (transfers_open L _ id); [apply oo_open_gives|apply oo_open_fits|done|done].
Qed.

Lemma fs_read_balanced fuel path : balanced (fs_read fuel path).
Proof.
  apply balanced_opened; [intros; apply balanced_ret|]. intros fd Hfd. balance.
Qed.

Lemma fs_read_to_string_balanced fuel path : balanced (fs_read_to_string fuel path).
Proof.
  apply balanced_opened; [intros; apply balanced_ret|]. intros fd Hfd. balance.
Qed.

Lemma fs_write_balanced fuel path contents : balanced (fs_write fuel path contents).
Proof.
  apply balanced_opened; [intros; apply balanced_ret|]. intros fd Hfd. balance.
Qed.

Lemma copy_files_balanced fuel wfuel src dst total :
  balanced (copy_files fuel wfuel src dst total).
Proof.
  revert total. induction fuel as [|fuel IH]; intros total; [apply balanced_none|].
  cbn [copy_files]. unfold balanced, closes. repeat (balance_step || apply IH).
Qed.

Lemma fs_copy_balanced fuel wfuel from to_ : balanced (fs_copy fuel wfuel from to_).
Proof.
  apply balanced_opened; [intros; apply balanced_ret|]. intros src Hsrc.
  apply balanced_opened; [intros e; balance|]. intros dst Hdst.
  apply transfers_bind; [apply copy_files_balanced|intros res]. balance.
Qed.
End balanced_files.

Section balanced_dirs.
Context `{Machine}.

Lemma metadata_keeps path : keeps (metadata path).
Proof. apply with_path_keeps. intros. apply sc_statat_keeps. Qed.
Lemma symlink_metadata_keeps path : keeps (symlink_metadata path).
Proof. apply with_path_keeps. intros. apply sc_statat_keeps. Qed.
Lemma create_dir_keeps path : keeps (create_dir path).
Proof. apply with_path_keeps. intros. apply sc_mkdir_keeps. Qed.
Lemma remove_dir_keeps path : keeps (remove_dir path).
Proof. apply with_path_keeps. intros. apply sc_rmdir_keeps. Qed.
Lemma remove_file_keeps path : keeps (remove_file path).
Proof. apply with_path_keeps. intros. apply sc_unlink_keeps. Qed.

Lemma de_file_type_keeps e : keeps (de_file_type e).
Proof.
  unfold de_file_type. repeat (destruct (decide _); [apply keeps_ret|]).
  apply keeps_bind; [apply symlink_metadata_keeps|intros; apply keeps_ret].
Qed.

Lemma refill_keeps d : keeps (refill d).
Proof.
  unfold refill. destruct (decide _); [|apply keeps_ret].
  apply keeps_bind; [apply sc_getdirentries_keeps|]. intros [? ?]. apply keeps_ret.
Qed.

Lemma read_dir_gives path : gives (read_dir path) (λ r, own (map_ok rd_fd r)).
Proof.
  unfold read_dir. destruct (cpath path) as [c|]; [|apply gives_err].
  intros h. pose proof (os_gives (sc_open c O_RDONLY 0) id) as Hg.
  assert (gives (sc_open c O_RDONLY 0) (λ r, own (map_ok id r))) as Ho.
  { intros h0. rewrite map_ok_id. apply sc_open_gives. }
  specialize (Hg Ho h). unfold mbind, sys_bind.
  destruct (os (sc_open c O_RDONLY 0) h) as [[a|e] h']; exact Hg.
Qed.

Lemma read_dir_fits path h : fits (map_ok rd_fd (read_dir path h).1).
Proof.
  unfold read_dir. destruct (cpath path) as [c|]; [|done].
  pose proof (os_fits (sc_open c O_RDONLY 0) h (sc_open_fits _ _ _ _)) as Hf.
  unfold mbind, sys_bind. by destruct (os (sc_open c O_RDONLY 0) h) as [[a|e] h'].
Qed.

Hint Resolve metadata_keeps create_dir_keeps remove_dir_keeps remove_file_keeps
  de_file_type_keeps refill_keeps : balance.

Lemma create_dir_all_balanced fuel p : balanced (create_dir_all fuel p).
Proof.
  revert p. induction fuel as [|fuel IH]; intros p; [apply balanced_none|].
  cbn [create_dir_all]. unfold balanced, closes.
  apply transfers_bind; [by eauto with balance|intros m].
  destruct (match m with Ok _ => _ | Err _ => _ end); [balance|].
  apply transfers_bind; [|intros up; balance].
  destruct (parent p) as [up|]; [|apply balanced_ret].
  destruct (decide _); [apply balanced_ret|apply IH].
Qed.

Lemma rd_next_balanced fuel d : balanced (rd_next fuel d).
Proof.
  revert d. induction fuel as [|fuel IH]; intros d; [apply balanced_none|].
  cbn [rd_next]. unfold balanced, closes. repeat (balance_step || apply IH).
Qed.

Lemma remove_entries_balanced rec n rfuel d :
  (∀ p, balanced (rec p)) → balanced (remove_entries rec n rfuel d).
Proof.
  intros Hrec. revert d. induction n as [|n IH]; intros d; [apply balanced_none|].
  cbn [remove_entries]. unfold balanced, closes.
  apply transfers_bind; [apply rd_next_balanced|intros [e d']].
  destruct e as [[e|e]|]; [|balance..].
  apply transfers_bind; [by eauto with balance|intros [ty|e']]; [|balance].
  apply transfers_bind; [|intros [u|e']; [apply IH|balance]].
  destruct (ft_is_dir ty); [apply Hrec|by eauto with balance].
Qed.

Lemma remove_dir_all_balanced fuel rfuel p : balanced (remove_dir_all fuel rfuel p).
Proof.
  revert p. induction fuel as [|fuel IH]; intros p; [apply balanced_none|].
  cbn [remove_dir_all]. unfold balanced, closes.
  apply (transfers_open _ _ rd_fd);
    [apply read_dir_gives|apply read_dir_fits|intros; apply balanced_ret|intros d Hd].
  apply transfers_bind; [by apply remove_entries_balanced|intros r].
  balance. apply balanced_call, remove_dir_keeps.
Qed.
End balanced_dirs.

(** ** Directory listings *)

(** A directory record as the kernel lays it out: the inode and offset words, the type, the
    name and its padding. *)
Record Dirent := mkDirent { d_words : list Z; d_type : Z; d_name : list Z; d_pad : list Z }.

Section listing.
Context `{Machine}.

Definition reclen_of (e : Dirent) : nat :=
  ((if is_macos target then 21 else 19) + length (d_name e) + 1 + length (d_pad e))%nat.

Definition encode_dirent (e : Dirent) : list Z :=
  d_words e ++ to_le_bytes 2 (Z.of_nat (reclen_of e))
  ++ (if is_macos target then to_le_bytes 2 (Z.of_nat (length (d_name e))) else [])
  ++ [d_type e] ++ d_name e ++ [0] ++ d_pad e.

Definition encode_dirents (es : list Dirent) : list Z := concat (encode_dirent <$> es).

Definition valid_dirent (e : Dirent) : Prop :=
  length (d_words e) = 16%nat ∧ Z.of_nat (reclen_of e) < 2 ^ 16 ∧ 0 ∉ d_name e.

Lemma length_encode_dirent e : valid_dirent e → length (encode_dirent e) = reclen_of e.
Proof.
  intros (Hw & _ & _). unfold encode_dirent, reclen_of.
  destruct (is_macos target); rewrite !length_app, ?length_to_le_bytes; cbn [length]; lia.
Qed.

Lemma position_nul_app (name rest : list Z) : 0 ∉ name → position_nul (name ++ 0 :: rest) = length name.
Proof.
  intros Hn. unfold position_nul.
  assert (list_find (λ x, x = 0) (name ++ 0 :: rest) = Some (length name, 0)) as ->; [|done].
  apply list_find_Some. split_and!; [|done|].
  - by rewrite lookup_app_r, Nat.sub_diag by lia.
  - intros j y Hj Hlt ->. rewrite lookup_app_l in Hj by lia. by apply list_elem_of_lookup_2 in Hj.
Qed.

(** The name and type of an encoded record are read back. *)
Lemma dirent_encoded e post :
  valid_dirent e →
  dirent (encode_dirent e ++ post) (Z.of_nat (reclen_of e)) = Some (d_name e, d_type e).
Proof.
  intros Hv. pose proof Hv as (Hw & Hlt & Hn). unfold dirent.
  assert (length (to_le_bytes 2 (Z.of_nat (reclen_of e))) = 2%nat) as Hl2
    by apply length_to_le_bytes.
  set (rl := to_le_bytes 2 (Z.of_nat (reclen_of e))) in *.
  assert (Z.of_nat (length (d_name e)) < 2 ^ 16) as Hnl by (unfold reclen_of in Hlt; lia).
  unfold encode_dirent. fold rl. unfold reclen_of. destruct (is_macos target).
  - set (nl := to_le_bytes 2 (Z.of_nat (length (d_name e)))) in *.
    assert (length nl = 2%nat) as Hnl2 by apply length_to_le_bytes.
    rewrite (slice_at (d_words e ++ rl) nl ([d_type e] ++ d_name e ++ [0] ++ d_pad e ++ post));
      [|by rewrite <-!app_assoc|rewrite length_app; lia|lia].
    cbn [mbind option_bind].
    rewrite (index_at (d_words e ++ rl ++ nl) (d_name e ++ [0] ++ d_pad e ++ post) _ (d_type e));
      [|by rewrite <-!app_assoc|rewrite !length_app; lia].
    cbn [mbind option_bind]. unfold nl at 2. rewrite from_to_le_bytes, wrap_small by (cbn; lia).
    rewrite (slice_at (d_words e ++ rl ++ nl ++ [d_type e]) (d_name e) ([0] ++ d_pad e ++ post));
      [done|by rewrite <-!app_assoc|rewrite !length_app; cbn [length]; lia|lia].
  - rewrite (index_at (d_words e ++ rl) (d_name e ++ [0] ++ d_pad e ++ post) _ (d_type e));
      [|by rewrite <-!app_assoc|rewrite !length_app; lia].
    cbn [mbind option_bind].
    rewrite (slice_at (d_words e ++ rl ++ [d_type e]) (d_name e ++ [0] ++ d_pad e) post);
      [|by rewrite <-!app_assoc|rewrite !length_app; cbn [length]; lia
       |rewrite !length_app; cbn [length]; lia].
    cbn [mbind option_bind app]. by rewrite position_nul_app, take_app_length by done.
Qed.

Definition is_dot (e : Dirent) : bool :=
  bool_decide (from_utf8_lossy (d_name e) = lit "." ∨ from_utf8_lossy (d_name e) = lit "..").

(** The entry a record stands for. *)
Definition entry_of (parent : str) (e : Dirent) : DirEntry :=
  mkDirEntry (from_utf8_lossy (d_name e)) (d_type e) parent.

(** The records still in the buffer. *)
Definition holds (d : ReadDir) (es : list Dirent) : Prop :=
  ∃ pre post, rd_buf d = pre ++ encode_dirents es ++ post ∧ rd_pos d = Z.of_nat (length pre)
    ∧ rd_cap d = rd_pos d + Z.of_nat (length (encode_dirents es)) ∧ Forall valid_dirent es
    ∧ length (rd_buf d) = Z.to_nat 4096.

Lemma record_step_encoded d e es :
  holds d (e :: es) →
  ∃ d', record_step d
        = Some (if is_dot e then Err tt else Ok (entry_of (rd_parent d) e), d')
    ∧ holds d' es ∧ rd_fd d' = rd_fd d ∧ rd_parent d' = rd_parent d.
Proof.
  intros (pre & post & Hbuf & Hpos & Hcap & Hv & Hlen). apply Forall_cons in Hv as [He Hv].
  exists (at_pos d (rd_pos d + Z.of_nat (reclen_of e))).
  pose proof (length_encode_dirent e He) as Hle. pose proof He as (Hw & Hlt & _).
  unfold encode_dirents in Hbuf, Hcap. cbn [fmap list_fmap concat] in Hbuf, Hcap.
  fold (encode_dirents es) in Hbuf, Hcap. rewrite length_app, Hle in Hcap.
  split.
  - unfold record_step.
    rewrite (slice_at pre (encode_dirent e ++ encode_dirents es) post);
      [|done|done|rewrite length_app; lia].
    cbn [mbind option_bind].
    rewrite (slice_at (d_words e) (to_le_bytes 2 (Z.of_nat (reclen_of e)))
      ((if is_macos target then to_le_bytes 2 (Z.of_nat (length (d_name e))) else [])
       ++ [d_type e] ++ d_name e ++ [0] ++ d_pad e ++ encode_dirents es));
      [|unfold encode_dirent; by rewrite <-!app_assoc|lia|rewrite length_to_le_bytes; lia].
    cbn [mbind option_bind]. rewrite from_to_le_bytes, wrap_small by (cbn; lia).
    rewrite decide_False by (unfold reclen_of in *; lia).
    rewrite dirent_encoded by done. cbn [mbind option_bind]. unfold is_dot.
    destruct (decide _) as [Hd|Hd].
    + by rewrite bool_decide_true.
    + by rewrite bool_decide_false.
  - split; [|done]. exists (pre ++ encode_dirent e), post. cbn [rd_buf rd_pos rd_cap at_pos].
    rewrite length_app, Hle. split_and!; [by rewrite Hbuf, <-!app_assoc|lia|lia|done|done].
Qed.
End listing.

Section listing_all.
Context `{Machine}.

(** The directory [fd] answers the coming calls with these blocks of records, then ends. *)
Fixpoint dir_stream (fd : Z) (h : Hist) (blocks : list (list Dirent)) : Prop :=
  match blocks with
  | [] => ∀ buf, ∃ b' h', sc_getdirentries fd buf h = (Ok 0, b', h')
  | es :: blocks => ∀ buf, length buf = Z.to_nat 4096 → ∃ h',
      sc_getdirentries fd buf h
      = (Ok (Z.of_nat (length (encode_dirents es))), overlay buf (encode_dirents es), h')
      ∧ (0 < length (encode_dirents es) ≤ Z.to_nat 4096)%nat ∧ Forall valid_dirent es
      ∧ dir_stream fd h' blocks
  end.

(** The records that are entries. *)
Definition visible (es : list Dirent) : list Dirent := filter (λ e, is_dot e = false) es.

Lemma refill_held d e es h :
  holds d (e :: es) → refill d h = (Ok true, d, h).
Proof.
  intros (pre & post & _ & Hpos & Hcap & Hv & _). apply Forall_cons in Hv as [He _].
  unfold refill. rewrite decide_False; [done|].
  unfold encode_dirents in Hcap. cbn [fmap list_fmap concat] in Hcap.
  rewrite length_app, length_encode_dirent in Hcap by done. unfold reclen_of in Hcap. lia.
Qed.

Lemma refill_block d es blocks h :
  holds d [] → dir_stream (rd_fd d) h (es :: blocks) →
  ∃ d' h', refill d h = (Ok true, d', h') ∧ holds d' es ∧ dir_stream (rd_fd d) h' blocks
    ∧ rd_fd d' = rd_fd d ∧ rd_parent d' = rd_parent d ∧ es ≠ [].
Proof.
  intros (pre & post & _ & Hpos & Hcap & _ & Hlen) Hs. cbn in Hcap.
  destruct (Hs (rd_buf d) Hlen) as (h' & Hc & Hle & Hv & Hs').
  unfold refill. rewrite decide_True by lia. unfold mbind, sys_bind. rewrite Hc.
  rewrite decide_False by lia. eexists _, h'. split; [reflexivity|]. split_and!; try done.
  - exists [], (drop (length (encode_dirents es)) (rd_buf d)). cbn [rd_buf rd_pos rd_cap length app].
    unfold overlay. rewrite take_ge by lia. split_and!; [done|done|lia|done|].
    rewrite length_app, length_drop. lia.
  - intros ->. cbn in Hle. lia.
Qed.

(** One turn of [next] on a record: skip it, or return its entry. *)
Lemma rd_next_record fuel d d1 e es h h1 :
  refill d h = (Ok true, d1, h1) → holds d1 (e :: es) →
  ∃ d2, rd_next (S fuel) d h
        = (if is_dot e then rd_next fuel d2 h1
           else Some (Some (Ok (entry_of (rd_parent d1) e)), d2, h1))
    ∧ holds d2 es ∧ rd_fd d2 = rd_fd d1 ∧ rd_parent d2 = rd_parent d1.
Proof.
  intros Hr Hd1. destruct (record_step_encoded d1 e es Hd1) as (d2 & Hs & Hrest).
  exists d2. split; [|done]. cbn [rd_next]. unfold mbind, prog_bind, call. cbn [mbind option_bind].
  rewrite Hr. unfold of_option. rewrite Hs. cbn [mbind option_bind]. by destruct (is_dot e).
Qed.

(** The directory from [d] on: [es] in the buffer, then the blocks. *)
Definition listing (d : ReadDir) (h : Hist) (es : list Dirent) (blocks : list (list Dirent)) : Prop :=
  holds d es ∧ dir_stream (rd_fd d) h blocks.

Definition left_over (es : list Dirent) (blocks : list (list Dirent)) : nat :=
  length es + sum_list_with (S ∘ length) blocks.

(** What [next] does: the first entry left, reading further blocks as needed. *)
Definition next_post (fuel : nat) (d : ReadDir) (h : Hist) (es : list Dirent)
    (blocks : list (list Dirent)) : Prop :=
  match visible (es ++ concat blocks) with
  | [] => ∃ d' h', rd_next fuel d h = Some (None, d', h')
  | e :: rest => ∃ d' h' es' blocks',
      rd_next fuel d h = Some (Some (Ok (entry_of (rd_parent d) e)), d', h')
      ∧ listing d' h' es' blocks' ∧ rest = visible (es' ++ concat blocks')
      ∧ (left_over es' blocks' < left_over es blocks)%nat
      ∧ rd_fd d' = rd_fd d ∧ rd_parent d' = rd_parent d
  end.

Lemma next_post_record fuel d d1 e es blocks h h1 m :
  refill d h = (Ok true, d1, h1) → holds d1 (e :: es) → dir_stream (rd_fd d) h1 blocks →
  rd_fd d1 = rd_fd d → rd_parent d1 = rd_parent d → (left_over es blocks < m)%nat →
  (∀ d2, listing d2 h1 es blocks → next_post fuel d2 h1 es blocks) →
  match visible (e :: es ++ concat blocks) with
  | [] => ∃ d' h', rd_next (S fuel) d h = Some (None, d', h')
  | e' :: rest => ∃ d' h' es' blocks',
      rd_next (S fuel) d h = Some (Some (Ok (entry_of (rd_parent d) e')), d', h')
      ∧ listing d' h' es' blocks' ∧ rest = visible (es' ++ concat blocks')
      ∧ (left_over es' blocks' < m)%nat
      ∧ rd_fd d' = rd_fd d ∧ rd_parent d' = rd_parent d
  end.
Proof.
  intros Hr Hd1 Hs Hfd Hp Hm IH.
  destruct (rd_next_record fuel d d1 e es h h1 Hr Hd1) as (d2 & Hn & Hd2 & Hfd2 & Hp2).
  rewrite Hn. assert (listing d2 h1 es blocks) as Hl by (split; [done|congruence]).
  unfold visible. cbn [filter list_filter]. destruct (is_dot e).
  - rewrite decide_False by done. specialize (IH d2 Hl). unfold next_post, visible in IH.
    destruct (filter _ _) as [|e' rest]; [done|].
    destruct IH as (d' & h' & es' & blocks' & IH1 & IH2 & IH3 & IH4 & IH5 & IH6).
    rewrite IH1, Hp2, Hp. exists d', h', es', blocks'. split_and!; [done|done|done|lia|congruence..].
  - rewrite decide_True by done. rewrite Hp. exists d2, h1, es, blocks.
    split_and!; [done|done|done|done|congruence..].
Qed.

Lemma rd_next_spec fuel d es blocks h :
  listing d h es blocks → (left_over es blocks < fuel)%nat → next_post fuel d h es blocks.
Proof.
  revert d es blocks h. induction fuel as [|fuel IH]; intros d es blocks h [Hd Hs] Hf; [lia|].
  unfold next_post. destruct es as [|e es]; [destruct blocks as [|es blocks]|].
  - destruct Hd as (pre & post & _ & Hpos & Hcap & _ & _). cbn in Hcap. cbn.
    destruct (Hs (rd_buf d)) as (b' & h' & Hc).
    unfold mbind, prog_bind, call. cbn [mbind option_bind].
    unfold refill. rewrite decide_True by lia. unfold mbind, sys_bind. rewrite Hc.
    rewrite decide_True by done. eexists _, _. reflexivity.
  - destruct (refill_block d es blocks h Hd Hs) as (d1 & h1 & Hr & Hd1 & Hs1 & Hfd & Hp & Hne).
    destruct es as [|e es]; [done|]. cbn [app concat].
    unfold left_over in *. cbn [length sum_list_with foldr compose] in Hf |- *.
    eapply next_post_record; [exact Hr|exact Hd1|exact Hs1|exact Hfd|exact Hp|unfold left_over; lia|].
    intros d2 Hl. apply IH; [done|unfold left_over; lia].
  - cbn [app]. unfold left_over in *. cbn [length] in Hf |- *.
    eapply next_post_record; [by eapply refill_held|exact Hd|exact Hs|done|done|unfold left_over; lia|].
    intros d2 Hl. apply IH; [done|unfold left_over; lia].
Qed.

(** Run the iterator to its end. *)
Fixpoint rd_collect (n fuel : nat) (d : ReadDir) : Prog (list (result DirEntry Error)) :=
  match n with
  | O => λ _, None
  | S n =>
      '(e, d) ← rd_next fuel d;
      match e with
      | None => mret []
      | Some e => es ← rd_collect n fuel d; mret (e :: es)
      end
  end.

Lemma rd_collect_spec n fuel d es blocks h :
  listing d h es blocks → (left_over es blocks < fuel)%nat → (left_over es blocks < n)%nat →
  ∃ h', rd_collect n fuel d h
        = Some ((λ e, Ok (entry_of (rd_parent d) e)) <$> visible (es ++ concat blocks), h').
Proof.
  revert d es blocks h. induction n as [|n IH]; intros d es blocks h Hl Hf Hn; [lia|].
  pose proof (rd_next_spec fuel d es blocks h Hl Hf) as Hnext. unfold next_post in Hnext.
  cbn [rd_collect]. unfold mbind, prog_bind. cbn [mbind option_bind].
  destruct (visible _) as [|e rest].
  - destruct Hnext as (d' & h' & ->). by exists h'.
  - destruct Hnext as (d' & h' & es' & blocks' & -> & Hl' & -> & Hlt & _ & <-).
    cbn [mbind option_bind]. destruct (IH d' es' blocks' h' Hl') as [h2 ->]; [lia..|].
    by exists h2.
Qed.

Lemma read_dir_fresh path h d h1 :
  read_dir path h = (Ok d, h1) → holds d [] ∧ rd_parent d = path.
Proof.
  unfold read_dir. destruct (cpath path); [|done].
  unfold mbind, sys_bind. destruct (os _ h) as [[fd|e] h0]; [|done]. intros Hopen.
  assert (mkReadDir fd path (replicate (Z.to_nat 4096) 0) 0 0 = d) as <-
    by exact (Some_inj _ _ (f_equal (ok ∘ fst) Hopen)).
  split; [|done]. exists [], (replicate (Z.to_nat 4096) 0).
  cbn [rd_buf rd_pos rd_cap]. split_and!; [done|done|done|done|apply length_replicate].
Qed.

(** C34: reading a directory. Opening [path] and running the iterator to its end
    returns, without error, exactly the records of the kernel's blocks except [.] and [..], in
    order, with their names, types and parent. *)
Theorem read_dir_correct path h d h1 blocks (Hopen : read_dir path h = (Ok d, h1))
    (Hs : dir_stream (rd_fd d) h1 blocks) :
  ∃ h', rd_collect (S (left_over [] blocks)) (S (left_over [] blocks)) d h1
        = Some ((λ e, Ok (entry_of path e)) <$> visible (concat blocks), h').
Proof.
  destruct (read_dir_fresh path h d h1 Hopen) as [Hd <-].
  apply (rd_collect_spec _ _ d [] blocks h1); [done|lia|lia].
Qed.
End listing_all.

(** ** Creating a directory with its parents *)
Section create_all.
Context `{Machine}.

(** The directories asked for, newest first. *)
Definition mkdir_of (e : Trap * Reply) : option str :=
  match nr e.1, args e.1 with
  | MKDIRAT, [W _; CStr p; W _] => Some p
  | _, _ => None
  end.
Definition mkdirs (h : Hist) : list str := omap mkdir_of h.

(** The path and its parents, innermost first. *)
Fixpoint chain (fuel : nat) (p : str) : list str :=
  match fuel with
  | O => []
  | S fuel =>
      p :: match parent p with
           | Some up => if decide (up = []) then [] else chain fuel up
           | None => []
           end
  end.

(** The kernel said, at some point, that [p] is a directory. *)
Definition seen_dir (p : str) : Prop :=
  ∃ h st, (metadata p h).1 = Ok st ∧ is_dir target st = true.

Lemma metadata_mkdirs p h : mkdirs (metadata p h).2 = mkdirs h.
Proof.
  unfold metadata, with_path, os, sc_statat, mbind, sys_bind. destruct (cpath p); [|done].
  by destruct (is_macos target).
Qed.

Lemma create_dir_mkdirs p h :
  mkdirs (create_dir p h).2 = match cpath p with Ok _ => [p] | Err _ => [] end ++ mkdirs h.
Proof.
  unfold create_dir, with_path, cpath, cstring. by destruct (decide _).
Qed.

Lemma create_dir_nul p h : cpath p = Err (Simple InvalidInput) → (create_dir p h).1 = Err (Simple InvalidInput).
Proof. unfold create_dir, with_path. by intros ->. Qed.

(** What one level does once the parents are there. *)
Lemma create_leaf p h :
  ∃ r h' l, (r ← call (create_dir p);
        mret match r with
             | Ok _ => Ok tt
             | Err e => if decide (kind target e = AlreadyExists) then Ok tt else Err e
             end) h = Some (r, h')
    ∧ mkdirs h' = l ++ mkdirs h ∧ (l = [p] ∨ l = [] ∧ r ≠ Ok tt).
Proof.
  unfold mbind, prog_bind, call. cbn [mbind option_bind].
  pose proof (create_dir_mkdirs p h) as Hm. pose proof (create_dir_nul p h) as Hn.
  assert (cpath p = Ok p ∨ cpath p = Err (Simple InvalidInput)) as Hc
    by (unfold cpath, cstring; destruct (decide _); auto).
  destruct (create_dir p h) as [r h']. cbn [fst snd] in Hm, Hn.
  destruct Hc as [Hc|Hc]; rewrite Hc in Hm.
  - eexists _, h', [p]. split_and!; [reflexivity|done|by left].
  - rewrite (Hn Hc). eexists _, h', []. split_and!; [reflexivity|done|]. by right.
Qed.

Lemma create_dir_all_spec fuel p h :
  (length p < fuel)%nat →
  ∃ r h' j m, create_dir_all fuel p h = Some (r, h')
    ∧ mkdirs h' = take m (drop j (chain fuel p)) ++ mkdirs h
    ∧ (r = Ok tt → j = 0%nat
        ∧ (m = length (chain fuel p) ∨ ∃ q, chain fuel p !! m = Some q ∧ seen_dir q)).
Proof.
  revert p h. induction fuel as [|fuel IH]; intros p h Hf; [lia|].
  cbn [create_dir_all chain]. rewrite bind_call.
  pose proof (metadata_mkdirs p h) as Hmm.
  destruct (metadata p h) as [st h1] eqn:Emeta. cbn [fst snd] in Hmm |- *.
  destruct (match st with Ok m => is_dir target m | Err _ => false end) eqn:Edir.
  { destruct st as [st|]; [|done]. exists (Ok tt), h1, 0%nat, 0%nat. split_and!; [reflexivity|exact Hmm|].
    intros _. split; [done|]. right. exists p. split; [done|]. exists h, st. by rewrite Emeta. }
  destruct (parent p) as [up|] eqn:Ep; [destruct (decide (up = [])) as [Hup|Hup]|].
  - rewrite (bind_some _ _ h1 (Ok tt) h1) by done.
    destruct (create_leaf p h1) as (r & h' & l & -> & Hl & Hcase).
    destruct Hcase as [->|[-> Hr]].
    + exists r, h', 0%nat, 1%nat. rewrite Hl, Hmm. split_and!; [done|done|]. auto.
    + exists r, h', 0%nat, 0%nat. rewrite Hl, Hmm. split_and!; [done|done|by intros ->].
  - destruct (parent_spec p up Ep) as (_ & _ & _ & _ & Hlen & _).
    destruct (IH up h1) as (r & h2 & j & m & Hrec & Hm & Hok); [lia|].
    rewrite (bind_some _ _ _ _ _ Hrec).
    destruct r as [u|e].
    + destruct (Hok ltac:(by destruct u)) as [-> Hend]. rewrite drop_0 in Hm.
      destruct (create_leaf p h2) as (r & h' & l & -> & Hl & Hcase).
      destruct Hcase as [->|[-> Hr]].
      * exists r, h', 0%nat, (S m). rewrite Hl, Hm, Hmm. split_and!; [done|done|].
        intros _. split; [done|]. destruct Hend as [->|(q & Hq & Hs)]; [by left|]. right. by exists q.
      * exists r, h', 1%nat, m. rewrite Hl, Hm, Hmm. split_and!; [done|done|by intros ->].
    + exists (Err e), h2, (S j), m. split_and!; [done|by rewrite Hm, Hmm|done].
  - rewrite (bind_some _ _ h1 (Ok tt) h1) by done.
    destruct (create_leaf p h1) as (r & h' & l & -> & Hl & Hcase).
    destruct Hcase as [->|[-> Hr]].
    + exists r, h', 0%nat, 1%nat. rewrite Hl, Hmm. split_and!; [done|done|]. auto.
    + exists r, h', 0%nat, 0%nat. rewrite Hl, Hmm. split_and!; [done|done|by intros ->].
Qed.
End create_all.

(** ** Permissions *)
Lemma land_lxor_mask p m : 0 ≤ p < 2 ^ 32 → 0 ≤ m < 2 ^ 32 →
  Z.land (Z.land p (Z.lxor (2 ^ 32 - 1) m)) m = 0.
Proof.
  intros Hp Hm. apply Z.bits_inj'. intros i Hi.
  rewrite !Z.land_spec, Z.lxor_spec, Z.bits_0.
  destruct (Z.testbit m i) eqn:E; [|by rewrite andb_false_r].
  assert (i < 32).
  { destruct (decide (i < 32)); [done|]. rewrite Z.bits_above_log2 in E; [done|lia|].
    destruct (decide (m = 0)) as [->|]; [by rewrite Z.bits_0 in E|].
    apply Z.log2_lt_pow2; [lia|]. apply Z.lt_le_trans with (2 ^ 32); [lia|].
    apply Z.pow_le_mono_r; lia. }
  replace (2 ^ 32 - 1) with (Z.ones 32) by done.
  rewrite Z.ones_spec_low by lia. by rewrite andb_false_r.
Qed.

Section theorems.
Context `{Machine}.

(** C35: file operations give back every descriptor they take. On every path
    out of [read], [read_to_string], [write], [copy], [create_dir_all] and [remove_dir_all],
    errors and early returns included and whatever the kernel answers, the open
    descriptors are those from before the call. *)
Theorem fs_no_leak fuel wfuel p q contents h :
  (∀ r h', fs_read fuel p h = Some (r, h') → open_fds h' = open_fds h)
  ∧ (∀ r h', fs_read_to_string fuel p h = Some (r, h') → open_fds h' = open_fds h)
  ∧ (∀ r h', fs_write fuel p contents h = Some (r, h') → open_fds h' = open_fds h)
  ∧ (∀ r h', fs_copy fuel wfuel p q h = Some (r, h') → open_fds h' = open_fds h)
  ∧ (∀ r h', create_dir_all fuel p h = Some (r, h') → open_fds h' = open_fds h)
  ∧ (∀ r h', remove_dir_all fuel wfuel p h = Some (r, h') → open_fds h' = open_fds h).
Proof.
  assert (∀ A (m : Prog A) r h', balanced m → m h = Some (r, h') → open_fds h' = open_fds h) as Hb.
  { intros A m r h' Hm Hr. rewrite (Hm (open_fds h) h r h'); [|multiset_solver|done].
    multiset_solver. }
  split_and!; intros r h' Hr; (eapply Hb; [|exact Hr]).
  - apply fs_read_balanced.
  - apply fs_read_to_string_balanced.
  - apply fs_write_balanced.
  - apply fs_copy_balanced.
  - apply create_dir_all_balanced.
  - apply remove_dir_all_balanced.
Qed.

(** [fs::read]. If [path] opens and the descriptor delivers [s] before its end, the
    whole-file read returns, with [s], and closes the descriptor; if the stream
    ends in an error, that error is returned and the descriptor is closed too. *)
Theorem fs_read_correct k path s fin h fd h1 (Hopen : file_open path h = (Ok fd, h1))
    (Hs : stream target k (fd_at k fd h1) s fin) :
  ∃ h', fs_read k path h = Some (match fin with None => Ok s | Some e => Err e end, h')
    ∧ open_fds h' = open_fds h.
Proof.
  destruct (read_to_end_stream target k _ s fin [] Hs) as [f' Hr].
  assert (file_read_to_end k fd h1 = Some ((ended (Z.of_nat (length s)) fin, s), fd_kernel f')) as Hre.
  { unfold file_read_to_end. by rewrite Hr. }
  destruct (fs_read k path h) as [[r h']|] eqn:E.
  - exists h'. split.
    + rewrite <-E. unfold fs_read. rewrite bind_call, Hopen. cbn [fst snd].
      rewrite (bind_some _ _ _ _ _ Hre), bind_call.
      assert (h' = (drop_fd fd (fd_kernel f')).2) as ->.
      { unfold fs_read in E. rewrite bind_call, Hopen in E. cbn [fst snd] in E.
        rewrite (bind_some _ _ _ _ _ Hre), bind_call in E. by injection E. }
      by destruct fin.
    + rewrite (fs_read_balanced k path (open_fds h) h r h'); [|multiset_solver|done].
      multiset_solver.
  - exfalso. unfold fs_read in E. rewrite bind_call, Hopen in E. cbn [fst snd] in E.
    rewrite (bind_some _ _ _ _ _ Hre), bind_call in E. done.
Qed.

(** [create_dir_all] returns for every kernel, and asks only for the path and its
    parents, each one after the one it lies in; on success it made (or found made) every
    missing one, up to the path itself or a parent the kernel said is a directory. *)
Theorem create_dir_all_correct p h :
  let n := S (length p) in
  ∃ r h' j m, create_dir_all n p h = Some (r, h')
    ∧ mkdirs h' = take m (drop j (chain n p)) ++ mkdirs h
    ∧ (r = Ok tt → j = 0%nat
        ∧ (m = length (chain n p) ∨ ∃ q, chain n p !! m = Some q ∧ seen_dir q)).
Proof. apply create_dir_all_spec. lia. Qed.
End theorems.

(** Permissions. [set_readonly] sets exactly what [readonly] reads, and leaves every
    bit that is not a write bit as it was. *)
Theorem set_readonly_correct p ro (Hp : 0 ≤ p < 2 ^ 32) :
  readonly (set_readonly p ro) = ro
  ∧ Z.land (set_readonly p ro) (2 ^ 32 - 1 - 0x92) = Z.land p (2 ^ 32 - 1 - 0x92).
Proof.
  unfold readonly, set_readonly. destruct ro; split.
  - apply bool_decide_eq_true. by apply land_lxor_mask.
  - rewrite <-Z.land_assoc. f_equal.
  - apply bool_decide_eq_false. intros Hz.
    assert (Z.testbit (Z.land (Z.lor p 0x80) 0x92) 7 = true) as Hb
      by (by rewrite Z.land_spec, Z.lor_spec, orb_true_r).
    by rewrite Hz in Hb.
  - rewrite Z.land_lor_distr_l. by rewrite Z.lor_0_r.
Qed.

(** ** A machine with one file and one directory *)
Definition sample_entry (name : string) (ty : Z) : Dirent :=
  mkDirent (replicate 16 7) ty (as_bytes (lit name)) [0; 0].

Definition sample_block : list Dirent := [sample_entry "." 4; sample_entry "a.txt" 8].

(** How often a number was used. *)
Definition count_calls (p : Nr → bool) (h : Hist) : nat :=
  length (filter (λ e, p (nr (fst e)) = true) h).

(** Every open gives descriptor 3; the file holds one byte and the directory one block. *)
Definition sample_kernel (block : list Z) (h : Hist) (tr : Trap) : Reply :=
  match nr tr with
  | OPENAT => mkReply 3 0 false []
  | READ =>
      if decide (count_calls (λ n, match n with READ => true | _ => false end) h = 0%nat)
      then mkReply 1 0 false [[42]] else mkReply 0 0 false []
  | GETDENTS64 =>
      if decide (count_calls (λ n, match n with GETDENTS64 => true | _ => false end) h = 0%nat)
      then mkReply (Z.of_nat (length block)) 0 false [block] else mkReply 0 0 false []
  | _ => mkReply 0 0 false []
  end.

(** The block as Linux lays it out. *)
Definition sample_bytes : list Z :=
  Eval vm_compute in @encode_dirents (Build_Machine X86_64Linux (λ _ _, mkReply 0 0 false [])) sample_block.

#[local] Instance sample_machine : Machine := Build_Machine X86_64Linux (sample_kernel sample_bytes).

(** An instance: one byte is read. *)
Lemma fs_read_correct_witness :
  ∃ h', fs_read 4 (lit "f") [] = Some (Ok [42], h') ∧ open_fds h' = ∅.
Proof.
  refine (fs_read_correct 4 (lit "f") [42] None [] 3 _ _ _); [reflexivity|].
  intros [|n] Hn; [lia|]. split; [change (1 ≤ S n)%nat; lia|]. exists []. split; [reflexivity|].
  intros [|m] Hm; [lia|]. split; [change (0 ≤ S m)%nat; lia|done].
Defined.

Lemma sample_dir_stream h1 :
  count_calls (λ n, match n with GETDENTS64 => true | _ => false end) h1 = 0%nat →
  dir_stream 3 h1 [sample_block].
Proof.
  intros Hc buf Hbuf. eexists. split_and!.
  - unfold sc_getdirentries, syscall, trap, mbind, sys_bind.
    cbn [is_macos target sample_machine kernel sample_kernel nr]. rewrite decide_True by done.
    reflexivity.
  - vm_compute. lia.
  - vm_compute. lia.
  - apply Forall_cons; split; [|apply Forall_cons; split; [|constructor]];
      (split_and!; [reflexivity|vm_compute; reflexivity|]);
      apply (bool_decide_unpack _); by vm_compute.
  - intros buf'. eexists _, _. unfold sc_getdirentries, syscall, trap, mbind, sys_bind.
    cbn [is_macos target sample_machine kernel sample_kernel nr]. reflexivity.
Qed.

(** Witness of C34: the directory has one entry besides [.]. *)
Lemma read_dir_correct_witness :
  ∃ d h1 h', read_dir (lit "d") [] = (Ok d, h1) ∧
    rd_collect 4 4 d h1 = Some ([Ok (mkDirEntry (lit "a.txt") 8 (lit "d"))], h').
Proof.
  destruct (read_dir (lit "d") []) as [r h1] eqn:E.
  assert (r = Ok (mkReadDir 3 (lit "d") (replicate (Z.to_nat 4096) 0) 0 0)) as ->
    by exact (eq_sym (f_equal fst E)).
  eexists _, h1. destruct (read_dir_correct (lit "d") [] _ h1 [sample_block] E) as [h' Hc].
  { apply sample_dir_stream. by destruct (f_equal snd E : _ = h1). }
  exists h'. split; [reflexivity|exact Hc].
Defined.

(** An instance. *)
Lemma set_readonly_correct_witness : readonly (set_readonly 0x1B6 true) = true.
Proof. apply (set_readonly_correct 0x1B6 true). lia. Defined.
