(* ===== verification/Socket.v ===== *)
(** Sockets and name resolution (src/src/net.rs).

    A [Socket] is its descriptor, closed when it goes out of scope.  The numeric parser of
    [core::net] is a parameter; the one fact used of it is that it reads the two wildcard
    addresses the resolver binds to. *)
From S2P Require Import Prelude Str Io Syscall Fs Net.
From stdpp Require Import gmultiset.
From stdpp Require Import list.
Open Scope Z_scope.

Definition SOCK_STREAM : Z := 1.
Definition SOCK_DGRAM : Z := 2.

Section sockets.
Context `{Machine}.

Definition SOL_SOCKET : Z := if is_macos target then 0xffff else 1.
Definition SO_REUSEADDR : Z := if is_macos target then 4 else 2.

(** [Socket::new], [Drop for Socket]. *)
Definition socket_new (family ty : Z) : Sys (result Z Error) := os (sc_socket family ty 0).

(** The 28-byte address buffer and its length word. *)
Definition addr_buf : list Z := replicate 28 0.
Definition addr_len : list Z := to_le_bytes 4 28.

(** [read_sockaddr(..).ok_or_else(..)], total on 28 bytes. *)
Definition addr_of (b : list Z) : option SocketAddr := default None (read_sockaddr target b).

Definition local_addr (fd : Z) : Sys (result SocketAddr Error) :=
  '(r, b) ← sc_getsockname fd addr_buf addr_len;
  mret match r with
       | Err e => Err (Os e)
       | Ok _ => ok_or (addr_of b) (Simple InvalidData)
       end.

Definition peer_addr (fd : Z) : Sys (result SocketAddr Error) :=
  '(r, b) ← sc_getpeername fd addr_buf addr_len;
  mret match r with
       | Err e => Err (Os e)
       | Ok _ => ok_or (addr_of b) (Simple InvalidData)
       end.

(** ** TCP *)

(** The socket is dropped when [connect] fails. *)
Definition connect_one (addr : SocketAddr) : Sys (result Z Error) :=
  s ← socket_new (family_of target addr) SOCK_STREAM;
  match s with
  | Err e => mret (Err e)
  | Ok sock =>
      let '(sa, len) := write_sockaddr target addr in
      r ← sc_connect sock sa len;
      match r with
      | Ok _ => mret (Ok sock)
      | Err e => _ ← drop_fd sock; mret (Err (Os e))
      end
  end.

(** [for addr in ..  { match f(&addr) { Ok(s) => return Ok(s), Err(e) => last = e } } Err(last)] *)
Fixpoint first_ok (f : SocketAddr → Sys (result Z Error)) (last : Error) (addrs : list SocketAddr)
    : Sys (result Z Error) :=
  match addrs with
  | [] => mret (Err last)
  | a :: addrs =>
      r ← f a;
      match r with Ok s => mret (Ok s) | Err e => first_ok f e addrs end
  end.

Definition tcp_connect (addrs : list SocketAddr) : Sys (result Z Error) :=
  first_ok connect_one (Simple InvalidInput) addrs.

Definition bind_one (addr : SocketAddr) : Sys (result Z Error) :=
  s ← socket_new (family_of target addr) SOCK_STREAM;
  match s with
  | Err e => mret (Err e)
  | Ok sock =>
      _ ← sc_setsockopt sock SOL_SOCKET SO_REUSEADDR (to_le_bytes 4 1) 4;
      let '(sa, len) := write_sockaddr target addr in
      r ← sc_bind sock sa len;
      match r with
      | Err e => _ ← drop_fd sock; mret (Err (Os e))
      | Ok _ =>
          r ← sc_listen sock 128;
          match r with
          | Err e => _ ← drop_fd sock; mret (Err (Os e))
          | Ok _ => mret (Ok sock)
          end
      end
  end.

Definition tcp_bind (addrs : list SocketAddr) : Sys (result Z Error) :=
  first_ok bind_one (Simple InvalidInput) addrs.

(** [accept]: retried while interrupted; the peer defaults to [0.0.0.0:0]. *)
Fixpoint tcp_accept (fuel : nat) (fd : Z) (b : list Z)
    : Prog (result (Z * SocketAddr) Error) :=
  match fuel with
  | O => λ _, None
  | S fuel =>
      '(r, b) ← call (sc_accept fd b addr_len);
      match r with
      | Err e => if decide (e = 4) then tcp_accept fuel fd b else mret (Err (Os e))
      | Ok s => mret (Ok (s, default (SockV4 [0; 0; 0; 0] 0) (addr_of b)))
      end
  end.

Inductive Shutdown : Set := ShutRead | ShutWrite | ShutBoth.

Definition tcp_shutdown (fd : Z) (how : Shutdown) : Sys (result unit Error) :=
  os (sc_shutdown fd (match how with ShutRead => 0 | ShutWrite => 1 | ShutBoth => 2 end)).

(** ** UDP *)
Definition udp_bind_one (addr : SocketAddr) : Sys (result Z Error) :=
  s ← socket_new (family_of target addr) SOCK_DGRAM;
  match s with
  | Err e => mret (Err e)
  | Ok sock =>
      let '(sa, len) := write_sockaddr target addr in
      r ← sc_bind sock sa len;
      match r with
      | Ok _ => mret (Ok sock)
      | Err e => _ ← drop_fd sock; mret (Err (Os e))
      end
  end.

Definition udp_bind (addrs : list SocketAddr) : Sys (result Z Error) :=
  first_ok udp_bind_one (Simple InvalidInput) addrs.

(** The first address, or [InvalidInput]. *)
Definition first_addr (addrs : list SocketAddr) : result SocketAddr Error :=
  ok_or (head addrs) (Simple InvalidInput).

Definition udp_connect (fd : Z) (addrs : list SocketAddr) : Sys (result unit Error) :=
  match first_addr addrs with
  | Err e => mret (Err e)
  | Ok a => let '(sa, len) := write_sockaddr target a in os (sc_connect fd sa len)
  end.

Definition udp_send (fd : Z) (buf : list Z) : Sys (result Z Error) :=
  os (sc_sendto fd buf 0 None 0).

Definition udp_recv (fd : Z) (buf : list Z) : Sys (result Z Error * list Z) :=
  '(r, b, _) ← sc_recvfrom fd buf 0 None; mret (map_err Os r, b).

Definition udp_send_to (fd : Z) (buf : list Z) (addrs : list SocketAddr) : Sys (result Z Error) :=
  match first_addr addrs with
  | Err e => mret (Err e)
  | Ok a => let '(sa, len) := write_sockaddr target a in os (sc_sendto fd buf 0 (Some sa) len)
  end.

Definition udp_recv_from (fd : Z) (buf : list Z) : Sys (result (Z * SocketAddr) Error * list Z) :=
  '(r, b, a) ← sc_recvfrom fd buf 0 (Some (addr_buf, addr_len));
  mret (map_err Os (map_ok (λ n, (n, default (SockV4 [0; 0; 0; 0] 0) (addr_of a))) r), b).

(** ** Options *)
Definition O_NONBLOCK : Z := if is_macos target then 0x4 else 0x800.
Definition SO_RCVTIMEO : Z := if is_macos target then 0x1006 else 20.
Definition SO_SNDTIMEO : Z := if is_macos target then 0x1005 else 21.
Definition IP_TTL : Z := if is_macos target then 4 else 2.

(** Bits of an [i32], as its unsigned form. *)
Definition set_nonblocking_fd (fd : Z) (nonblocking : bool) : Sys (result unit Error) :=
  flags ← sc_fcntl fd 3 0;
  match flags with
  | Err e => mret (Err (Os e))
  | Ok flags =>
      let new := if nonblocking then Z.lor flags O_NONBLOCK
                 else Z.land flags (Z.lnot O_NONBLOCK) in
      r ← sc_fcntl fd 4 new;
      mret (map_ok (λ _, tt) (map_err Os r))
  end.

Definition set_nodelay (fd : Z) (nodelay : bool) : Sys (result unit Error) :=
  os (sc_setsockopt fd 6 1 (to_le_bytes 4 (if nodelay then 1 else 0)) 4).
Definition set_ttl (fd ttl : Z) : Sys (result unit Error) :=
  os (sc_setsockopt fd 0 IP_TTL (to_le_bytes 4 ttl) 4).
Definition set_read_timeout (fd : Z) (dur : option Duration) : Sys (result unit Error) :=
  let '(tv, len) := encode_timeval target dur in os (sc_setsockopt fd SOL_SOCKET SO_RCVTIMEO tv len).
Definition set_write_timeout (fd : Z) (dur : option Duration) : Sys (result unit Error) :=
  let '(tv, len) := encode_timeval target dur in os (sc_setsockopt fd SOL_SOCKET SO_SNDTIMEO tv len).
Definition try_clone (fd : Z) : Sys (result Z Error) := os (sc_dup fd).
Definition tcp_peek (fd : Z) (buf : list Z) : Sys (result Z Error * list Z) :=
  '(r, b, _) ← sc_recvfrom fd buf 2 None; mret (map_err Os r, b).
End sockets.

(** ** Text of the resolver's files *)
(** The length of the white-space character [s] starts with, 0 if none
    ([char::is_whitespace], in UTF-8). *)
Definition space_len (s : str) : nat :=
  match as_bytes s with
  | a :: l =>
      if decide (9 ≤ a ≤ 13 ∨ a = 32) then 1%nat
      else
        match l with
        | b :: l =>
            if decide (a = 0xC2 ∧ (b = 0x85 ∨ b = 0xA0)) then 2%nat
            else
              match l with
              | c :: _ =>
                  if decide ((a = 0xE1 ∧ b = 0x9A ∧ c = 0x80)
                    ∨ (a = 0xE2 ∧ b = 0x80 ∧ (0x80 ≤ c ≤ 0x8A ∨ c = 0xA8 ∨ c = 0xA9 ∨ c = 0xAF))
                    ∨ (a = 0xE2 ∧ b = 0x81 ∧ c = 0x9F) ∨ (a = 0xE3 ∧ b = 0x80 ∧ c = 0x80))
                  then 3%nat else 0%nat
              | [] => 0%nat
              end
        | [] => 0%nat
        end
  | [] => 0%nat
  end.

(** The words of a line ([split_whitespace]); [w] is the word being read. *)
Fixpoint words_loop (fuel : nat) (s w : str) : list str :=
  let flush := if decide (w = []) then [] else [w] in
  match fuel, s with
  | S fuel, c :: s' =>
      match space_len s with
      | O => words_loop fuel s' (w ++ [c])
      | n => flush ++ words_loop fuel (drop n s) []
      end
  | _, _ => flush
  end.
Definition split_whitespace (s : str) : list str := words_loop (length s) s [].

Fixpoint trim_ws_start (fuel : nat) (s : str) : str :=
  match fuel with
  | O => s
  | S fuel => match space_len s with O => s | n => trim_ws_start fuel (drop n s) end
  end.

(** The character at the end: at most three bytes. *)
Definition space_end (s : str) : nat :=
  let n := length s in
  if decide (1 ≤ n ∧ space_len (drop (n - 1) s) = 1)%nat then 1%nat
  else if decide (2 ≤ n ∧ space_len (drop (n - 2) s) = 2)%nat then 2%nat
  else if decide (3 ≤ n ∧ space_len (drop (n - 3) s) = 3)%nat then 3%nat else 0%nat.

Fixpoint trim_ws_end (fuel : nat) (s : str) : str :=
  match fuel with
  | O => s
  | S fuel => match space_end s with O => s | n => trim_ws_end fuel (take (length s - n) s) end
  end.

Definition trim (s : str) : str := trim_ws_end (length s) (trim_ws_start (length s) s).

Definition NL : ascii := "010"%char.
Definition CR : ascii := "013"%char.

(** [str::lines]. *)
Definition strip_cr (l : str) : str :=
  if decide (last l = Some CR) then take (length l - 1) l else l.

Definition lines (s : str) : list str :=
  match rev (Str.split NL s) with
  | [] => []
  | l :: r => rev (strip_cr <$> r) ++ (if decide (l = []) then [] else [l])
  end.

Definition to_lower (c : ascii) : ascii :=
  let n := Z.of_N (N_of_ascii c) in
  if decide (65 ≤ n ≤ 90) then ascii_of_N (Z.to_N (n + 32)) else c.

Definition eq_ignore_ascii_case (a b : str) : bool := bool_decide (to_lower <$> a = to_lower <$> b).

(** [rsplit_once(':')] *)
Definition rsplit_once (c : ascii) (s : str) : option (str * str) :=
  i ← rfind c s; Some (take i s, drop (S i) s).

Definition digit (c : ascii) : option Z :=
  let n := Z.of_N (N_of_ascii c) in if decide (48 ≤ n ≤ 57) then Some (n - 48) else None.

Fixpoint digits (acc : Z) (s : str) : option Z :=
  match s with
  | [] => Some acc
  | c :: s => d ← digit c; let n := acc * 10 + d in if decide (n < 65536) then digits n s else None
  end.

(** [u16::from_str]: an optional sign, then digits, no overflow. *)
Definition parse_u16 (s : str) : option Z :=
  match s with
  | [] => None
  | c :: s' =>
      let ds := if decide (c = "+"%char) then s' else s in
      if decide (ds = []) then None else digits 0 ds
  end.

Section resolver.
Context `{Machine} (parse_ip : str → option IpAddr).

(** The loop of [hosts_lookup]. *)
Fixpoint hosts_scan (host : str) (ls : list str) : option IpAddr :=
  match ls with
  | [] => None
  | line :: ls =>
      let line := default [] (head (Str.split "#"%char line)) in
      match split_whitespace line with
      | [] => hosts_scan host ls
      | ip :: names =>
          if existsb (λ name, eq_ignore_ascii_case name host) names then
            match parse_ip ip with Some ip => Some ip | None => hosts_scan host ls end
          else hosts_scan host ls
      end
  end.

Fixpoint nameserver_scan (ls : list str) : option IpAddr :=
  match ls with
  | [] => None
  | line :: ls =>
      match strip_prefix_str (lit "nameserver") (trim line) with
      | Some rest =>
          match parse_ip (trim rest) with Some ip => Some ip | None => nameserver_scan ls end
      | None => nameserver_scan ls
      end
  end.

Definition hosts_lookup (fuel : nat) (host : str) : Prog (option IpAddr) :=
  text ← fs_read_to_string fuel (lit "/etc/hosts");
  mret (match text with Ok text => hosts_scan host (lines text) | Err _ => None end).

Definition nameserver (fuel : nat) : Prog (option IpAddr) :=
  text ← fs_read_to_string fuel (lit "/etc/resolv.conf");
  mret (match text with Ok text => nameserver_scan (lines text) | Err _ => None end).

(** [impl ToSocketAddrs for str], over [resolve]. *)
Definition str_to_socket_addrs (resolve : str → Z → Prog (result (list SocketAddr) Error))
    (s : str) : Prog (result (list SocketAddr) Error) :=
  match rsplit_once ":"%char s with
  | None => mret (Err (Custom InvalidInput "missing port in address"))
  | Some (host, port) =>
      match parse_u16 port with
      | None => mret (Err (Custom InvalidInput "invalid port"))
      | Some port => resolve (trim_end "]"%char (trim_start "["%char host)) port
      end
  end.

(** The exchange of [dns_query]; [&buf[..n]] panics beyond the buffer. *)
Definition dns_exchange (sock : Z) (ns : IpAddr) (q : list Z) (qtype : Z)
    : Prog (result (list IpAddr) Error) :=
  s ←? call (udp_send_to sock q [socket_addr ns 53]);
  '(r, buf) ← call (udp_recv sock (replicate (Z.to_nat 1500) 0));
  match r with
  | Err e => mret (Err e)
  | Ok n =>
      msg ← of_option (slice buf 0 n);
      ans ← of_option (parse_dns_answers msg qtype);
      mret (ok_or ans (Simple InvalidData))
  end.

Definition dns_query (resolve : str → Z → Prog (result (list SocketAddr) Error))
    (ns : IpAddr) (host : str) (qtype : Z) : Prog (result (list IpAddr) Error) :=
  '(_, id) ← sc_getrandom [0; 0];
  match build_query id host qtype with
  | Err e => mret (Err e)
  | Ok q =>
      addrs ←? str_to_socket_addrs resolve
                 (match ns with V4 _ => lit "0.0.0.0:0" | V6 _ => lit "[::]:0" end);
      sock ←? call (udp_bind addrs);
      r ← dns_exchange sock ns q qtype;
      _ ← call (drop_fd sock);
      mret r
  end.

Definition with_port (port : Z) (r : result (list IpAddr) Error) : list SocketAddr :=
  match r with Ok ips => (λ ip, socket_addr ip port) <$> ips | Err _ => [] end.

(** [resolve]; [depth] bounds the nested resolution of the wildcard addresses. *)
Fixpoint resolve (depth fuel : nat) (host : str) (port : Z)
    : Prog (result (list SocketAddr) Error) :=
  match depth with
  | O => λ _, None
  | S depth =>
      match parse_ip host with
      | Some ip => mret (Ok [socket_addr ip port])
      | None =>
          found ← hosts_lookup fuel host;
          match found with
          | Some ip => mret (Ok [socket_addr ip port])
          | None =>
              ns ← nameserver fuel;
              out ← (match ns with
                     | None => mret []
                     | Some ns =>
                         v4 ← dns_query (resolve depth fuel) ns host 1;
                         let out := with_port port v4 in
                         if decide (out = []) then
                           v6 ← dns_query (resolve depth fuel) ns host 28;
                           mret (with_port port v6)
                         else mret out
                     end : Prog (list SocketAddr));
              mret (if decide (out = []) then Err (Custom NotFound "failed to resolve host")
                    else Ok out)
          end
      end
  end.
End resolver.

Section network.
Context `{Machine} (parse_ip : str → option IpAddr).

(** [connect], [bind] and [UdpSocket::bind] on a "host:port" string. *)
Definition open_str (fuel : nat) (open_all : list SocketAddr → Sys (result Z Error)) (s : str)
    : Prog (result Z Error) :=
  addrs ←? str_to_socket_addrs (resolve parse_ip 2 fuel) s;
  call (open_all addrs).
End network.

(** ** Sockets are not leaked *)
Section lifting.
Context `{Machine}.

Lemma transfers_call_bind {A B} L (m : Sys A) (k : A → Sys B) (owned : B → gmultiset Z) :
  transfers L (call m ≫= λ x, call (k x)) owned → transfers L (call (m ≫= k)) owned.
Proof.
  intros Ht X h b h' HX Hr. apply (Ht X h b h' HX). rewrite bind_call.
  unfold call in *. rewrite <-Hr. unfold mbind at 1, sys_bind. by destruct (m h).
Qed.

Lemma transfers_call_ret {A} L (a : A) (owned : A → gmultiset Z) :
  owned a = L → transfers L (call (mret a)) owned.
Proof. intros Ho X h b h' HX [= <- <-]. by rewrite Ho. Qed.

Lemma gives_transfers {A} (m : Sys A) owned : transfers ∅ (call m) owned → gives m owned.
Proof.
  intros Ht h. apply (Ht (open_fds h) h (m h).1 (m h).2); [multiset_solver|].
  unfold call. by destruct (m h).
Qed.

Lemma socket_new_gives family ty : gives (socket_new family ty) (λ r, own (map_ok id r)).
Proof. apply os_gives. intros h. rewrite map_ok_id. apply sc_socket_gives. Qed.

Lemma socket_new_fits family ty h : fits (map_ok id (socket_new family ty h).1).
Proof. rewrite map_ok_id. apply os_fits, sc_socket_fits. Qed.

(** A fresh socket, then a computation that keeps or closes it. *)
Lemma transfers_socket {A} family ty (k : result Z Error → Prog A) owned :
  (∀ e, transfers ∅ (k (Err e)) owned) →
  (∀ fd, is_i32 fd → transfers ({[+ fd +]} ⊎ ∅) (k (Ok fd)) owned) →
  transfers ∅ (call (socket_new family ty) ≫= k) owned.
Proof.
  intros He Hk. apply (transfers_open ∅ _ id); [apply socket_new_gives|apply socket_new_fits|done|done].
Qed.
End lifting.

#[export] Hint Resolve sc_connect_keeps sc_bind_keeps sc_listen_keeps sc_setsockopt_keeps
  sc_sendto_keeps sc_recvfrom_keeps : balance.

(** The same walk for computations that always return. *)
Ltac sys_balance_step :=
  lazymatch goal with
  | |- transfers _ (call (mret _)) _ => apply transfers_call_ret; cbn [own]; multiset_solver
  | |- transfers _ (call (drop_fd _ ≫= _)) _ =>
      apply transfers_call_bind, transfers_drop; [intros; by apply drop_fd_closes|intros ?]
  | |- transfers _ (call (_ ≫= _)) _ =>
      apply transfers_call_bind, transfers_bind; [by eauto with balance|intros ?]
  | |- transfers _ (call (match ?x with _ => _ end)) _ => destruct x
  end.

Section socket_ownership.
Context `{Machine}.

Lemma connect_one_gives addr : gives (connect_one addr) own.
Proof.
  apply gives_transfers, transfers_call_bind, transfers_socket; intros;
    repeat sys_balance_step.
Qed.

Lemma bind_one_gives addr : gives (bind_one addr) own.
Proof.
  apply gives_transfers, transfers_call_bind, transfers_socket; intros;
    repeat sys_balance_step.
Qed.

Lemma udp_bind_one_gives addr : gives (udp_bind_one addr) own.
Proof.
  apply gives_transfers, transfers_call_bind, transfers_socket; intros;
    repeat sys_balance_step.
Qed.

Lemma first_ok_gives f last addrs :
  (∀ a, gives (f a) own) → gives (first_ok f last addrs) own.
Proof.
  intros Hf. revert last. induction addrs as [|a addrs IH]; intros last h; cbn [first_ok].
  { change (open_fds h = ∅ ⊎ open_fds h). multiset_solver. }
  specialize (Hf a h). unfold mbind, sys_bind. destruct (f a h) as [[s|e] h1]; [exact Hf|].
  rewrite (IH e h1). cbn [own fst snd] in Hf. rewrite Hf. multiset_solver.
Qed.

(** The descriptors are [i32]s. *)
Lemma first_ok_fits f last addrs h :
  (∀ a h, fits (f a h).1) → fits (first_ok f last addrs h).1.
Proof.
  intros Hf. revert last h. induction addrs as [|a addrs IH]; intros last h; cbn [first_ok]; [done|].
  specialize (Hf a h). unfold mbind, sys_bind. destruct (f a h) as [[s|e] h1]; [exact Hf|apply IH].
Qed.

Lemma udp_bind_one_fits addr h : fits (udp_bind_one addr h).1.
Proof.
  unfold udp_bind_one. pose proof (socket_new_fits (family_of target addr) SOCK_DGRAM h) as Hf.
  unfold mbind, sys_bind. destruct (socket_new _ _ h) as [[s|e] h1]; [|done].
  destruct (write_sockaddr target addr). destruct (sc_bind _ _ _ _) as [[u|e] h2]; [exact Hf|done].
Qed.
End socket_ownership.

Section resolver_ownership.
Context `{Machine} (parse_ip : str → option IpAddr).

Lemma getrandom_balanced buf : balanced (sc_getrandom buf).
Proof.
  unfold sc_getrandom. generalize (S (length buf)) as fuel, 0 as off. intros fuel. revert buf.
  induction fuel as [|fuel IH]; intros buf off; [apply balanced_none|].
  cbn [getrandom_loop]. destruct (decide _); [|apply balanced_ret].
  destruct (is_macos target); (apply transfers_bind; [by apply balanced_call, keeps_syscall|]);
    intros [ret r]; destruct (from_ret ret); try apply IH; try apply balanced_ret.
  destruct (decide _); [apply balanced_ret|apply IH].
Qed.

Lemma hosts_lookup_balanced fuel host : balanced (hosts_lookup parse_ip fuel host).
Proof. apply transfers_bind; [apply fs_read_to_string_balanced|intros; apply balanced_ret]. Qed.

Lemma nameserver_balanced fuel : balanced (nameserver parse_ip fuel).
Proof. apply transfers_bind; [apply fs_read_to_string_balanced|intros; apply balanced_ret]. Qed.

Lemma str_to_socket_addrs_balanced rs s :
  (∀ host port, balanced (rs host port)) → balanced (str_to_socket_addrs rs s).
Proof.
  intros Hr. unfold str_to_socket_addrs.
  destruct (rsplit_once _ s) as [[host port]|]; [|apply balanced_ret].
  destruct (parse_u16 port); [apply Hr|apply balanced_ret].
Qed.

Lemma udp_send_to_keeps fd buf addrs : keeps (udp_send_to fd buf addrs).
Proof.
  unfold udp_send_to. destruct (first_addr addrs) as [a|]; [|done].
  destruct (write_sockaddr target a). apply os_keeps, sc_sendto_keeps.
Qed.

Lemma udp_recv_keeps fd buf : keeps (udp_recv fd buf).
Proof. apply keeps_bind; [apply sc_recvfrom_keeps|]. intros [[? ?] ?]. apply keeps_ret. Qed.

Lemma dns_exchange_balanced sock ns q qtype : balanced (dns_exchange sock ns q qtype).
Proof.
  apply transfers_bind; [apply balanced_call, udp_send_to_keeps|intros [s|e]]; [|apply balanced_ret].
  apply transfers_bind; [apply balanced_call, udp_recv_keeps|intros [[n|e] buf]]; [|apply balanced_ret].
  balance.
Qed.

Lemma dns_query_balanced rs ns host qtype :
  (∀ host port, balanced (rs host port)) → balanced (dns_query rs ns host qtype).
Proof.
  intros Hr. apply transfers_bind; [apply getrandom_balanced|intros [u qid]].
  destruct (build_query qid host qtype) as [q|]; [|apply balanced_ret].
  apply transfers_bind; [by apply str_to_socket_addrs_balanced|intros [addrs|e]]; [|apply balanced_ret].
  apply (transfers_open ∅ _ id).
  - intros h. rewrite map_ok_id. apply first_ok_gives. intros. apply udp_bind_one_gives.
  - intros h. rewrite map_ok_id. apply first_ok_fits. intros. apply udp_bind_one_fits.
  - intros. apply balanced_ret.
  - intros sock Hs. apply transfers_bind; [apply dns_exchange_balanced|intros r]. balance.
Qed.

Lemma resolve_balanced depth fuel host port : balanced (resolve parse_ip depth fuel host port).
Proof.
  revert host port. induction depth as [|depth IH]; intros host port; [apply balanced_none|].
  cbn [resolve]. destruct (parse_ip host); [apply balanced_ret|].
  apply transfers_bind; [apply hosts_lookup_balanced|intros [ip|]]; [apply balanced_ret|].
  apply transfers_bind; [apply nameserver_balanced|intros ns].
  apply transfers_bind; [|intros; apply balanced_ret].
  destruct ns as [ns|]; [|apply balanced_ret].
  apply transfers_bind; [by apply dns_query_balanced|intros v4].
  destruct (decide _); [|apply balanced_ret].
  apply transfers_bind; [by apply dns_query_balanced|intros v6]. apply balanced_ret.
Qed.

Lemma open_str_transfers fuel open_all s :
  (∀ addrs, gives (open_all addrs) own) →
  transfers ∅ (open_str parse_ip fuel open_all s) own.
Proof.
  intros Ho. apply transfers_bind.
  { apply str_to_socket_addrs_balanced. intros. apply resolve_balanced. }
  intros [addrs|e]; [|by apply transfers_ret].
  intros X h r h' HX [= Hr]. specialize (Ho addrs h). rewrite Hr in Ho. cbn [fst snd] in Ho.
  rewrite Ho, HX. multiset_solver.
Qed.

(** Sockets are owned. [TcpStream::connect], [TcpListener::bind] and [UdpSocket::bind]
    on any "host:port", resolution included: on success exactly the returned descriptor is
    open besides those from before, on failure none, whatever the kernel answers. *)
Theorem sockets_no_leak fuel s h :
  (∀ r h', open_str parse_ip fuel tcp_connect s h = Some (r, h') → open_fds h' = own r ⊎ open_fds h)
  ∧ (∀ r h', open_str parse_ip fuel tcp_bind s h = Some (r, h') → open_fds h' = own r ⊎ open_fds h)
  ∧ (∀ r h', open_str parse_ip fuel udp_bind s h = Some (r, h') → open_fds h' = own r ⊎ open_fds h).
Proof.
  assert (∀ open_all r h', (∀ addrs, gives (open_all addrs) own) →
    open_str parse_ip fuel open_all s h = Some (r, h') → open_fds h' = own r ⊎ open_fds h) as Hg.
  { intros open_all r h' Ho Hr. eapply open_str_transfers; [exact Ho| |exact Hr].
    multiset_solver. }
  split_and!; intros r h' Hr; (eapply Hg; [|exact Hr]); intros addrs; apply first_ok_gives; intros a.
  - apply connect_one_gives.
  - apply bind_one_gives.
  - apply udp_bind_one_gives.
Qed.
End resolver_ownership.

(** ** What resolution returns *)
Section resolution.
Context `{Machine} (parse_ip : str → option IpAddr).
(** [core::net] reads the two wildcard addresses. *)
Hypothesis parse_v4_any : parse_ip (lit "0.0.0.0") = Some (V4 [0; 0; 0; 0]).
Hypothesis parse_v6_any : parse_ip (lit "::") = Some (V6 (replicate 16 0)).

Definition port_of (a : SocketAddr) : Z :=
  match a with SockV4 _ p => p | SockV6 _ p _ _ => p end.

Lemma resolve_numeric depth fuel host port ip h :
  parse_ip host = Some ip →
  resolve parse_ip (S depth) fuel host port h = Some (Ok [socket_addr ip port], h).
Proof. intros Hip. cbn [resolve]. by rewrite Hip. Qed.

Lemma bind_ext {A B} (m : Prog A) (k k' : A → Prog B) h :
  (∀ x h, k x h = k' x h) → (m ≫= k) h = (m ≫= k') h.
Proof. intros Hk. unfold mbind, prog_bind. destruct (m h) as [[a h1]|]; cbn; [apply Hk|done]. Qed.

Lemma bind_eq {A B} (m m' : Prog A) (k : A → Prog B) h :
  m h = m' h → (m ≫= k) h = (m' ≫= k) h.
Proof. unfold mbind, prog_bind. by intros ->. Qed.

(** The socket of a query is bound without another query. *)
Lemma dns_query_depth d fuel ns host qtype h :
  dns_query (resolve parse_ip (S d) fuel) ns host qtype h
  = dns_query (resolve parse_ip 1 fuel) ns host qtype h.
Proof using parse_v4_any parse_v6_any.
  apply bind_ext. intros [u qid] h1.
  destruct (build_query qid host qtype) as [q|]; [|done].
  destruct ns.
  - change (str_to_socket_addrs ?r (lit "0.0.0.0:0")) with (r (lit "0.0.0.0") 0).
    by rewrite !(bind_some _ _ _ _ _ (resolve_numeric _ fuel _ 0 _ h1 parse_v4_any)).
  - change (str_to_socket_addrs ?r (lit "[::]:0")) with (r (lit "::") 0).
    by rewrite !(bind_some _ _ _ _ _ (resolve_numeric _ fuel _ 0 _ h1 parse_v6_any)).
Qed.

Lemma resolve_depth d fuel host port h :
  resolve parse_ip (S (S d)) fuel host port h = resolve parse_ip 2 fuel host port h.
Proof using parse_v4_any parse_v6_any.
  cbn [resolve]. destruct (parse_ip host); [done|].
  apply bind_ext. intros [ip|] h1; [done|]. apply bind_ext. intros [ns|] h2; [|done].
  apply bind_eq. rewrite (bind_eq _ (dns_query (resolve parse_ip 1 fuel) ns host 1))
    by apply dns_query_depth.
  apply bind_ext. intros v4 h3. destruct (decide _); [|done].
  apply bind_eq, dns_query_depth.
Qed.

Lemma with_port_ports port r : Forall (λ a, port_of a = port) (with_port port r).
Proof.
  destruct r as [ips|e]; [|constructor]. cbn [with_port]. apply Forall_fmap, Forall_true.
  by intros [o|o].
Qed.

(** Resolution. A numeric host is answered without a system call; else the hosts file
    decides if it names the host; else DNS. The bound on nested
    resolutions is no restriction, the addresses all carry the port and there is at least
    one, and the only error is [NotFound]. *)
Theorem resolve_correct fuel host port h :
  (∀ d, resolve parse_ip (S (S d)) fuel host port h = resolve parse_ip 2 fuel host port h)
  ∧ (∀ ip, parse_ip host = Some ip →
       resolve parse_ip 2 fuel host port h = Some (Ok [socket_addr ip port], h))
  ∧ (∀ ip h1, parse_ip host = None → hosts_lookup parse_ip fuel host h = Some (Some ip, h1) →
       resolve parse_ip 2 fuel host port h = Some (Ok [socket_addr ip port], h1))
  ∧ (∀ r h', resolve parse_ip 2 fuel host port h = Some (r, h') →
       match r with
       | Ok l => l ≠ [] ∧ Forall (λ a, port_of a = port) l
       | Err e => kind target e = NotFound
       end).
Proof using parse_v4_any parse_v6_any.
  split_and!.
  - intros d. apply resolve_depth.
  - intros ip. apply resolve_numeric.
  - intros ip h1 Hp Hh. cbn [resolve]. rewrite Hp. by rewrite (bind_some _ _ _ _ _ Hh).
  - intros r h'. remember 1%nat as depth. cbn [resolve].
    assert (∀ ip, Forall (λ a, port_of a = port) [socket_addr ip port]) as Hone
      by (intros [o|o]; by repeat constructor).
    destruct (parse_ip host) as [ip|]; [intros [= <- <-]; by split|].
    unfold mbind at 1, prog_bind at 1.
    destruct (hosts_lookup parse_ip fuel host h) as [[[ip|] h1]|]; cbn [mbind option_bind];
      [intros [= <- <-]; by split| |done].
    unfold mbind at 1, prog_bind at 1.
    destruct (nameserver parse_ip fuel h1) as [[ns h2]|]; cbn [mbind option_bind]; [|done].
    match goal with |- (?m ≫= _) _ = _ → _ => set (query := m) end.
    assert (∀ out h3, query h2 = Some (out, h3) → Forall (λ a, port_of a = port) out) as Hq.
    { intros out h3. unfold query. destruct ns as [ns|]; [|intros [= <- <-]; constructor].
      unfold mbind at 1, prog_bind at 1.
      destruct (dns_query _ ns host 1 h2) as [[v4 h4]|]; cbn [mbind option_bind]; [|done].
      destruct (decide _); [|intros [= <- <-]; apply with_port_ports].
      unfold mbind at 1, prog_bind at 1.
      destruct (dns_query _ ns host 28 h4) as [[v6 h5]|]; cbn [mbind option_bind]; [|done].
      intros [= <- <-]. apply with_port_ports. }
    unfold mbind at 1, prog_bind at 1. destruct (query h2) as [[out h3]|]; cbn [mbind option_bind]; [|done].
    intros [= <- <-]. destruct (decide (out = [])); [done|]. split; [done|]. by eapply Hq.
Qed.
End resolution.

(** A parser that knows three addresses. *)
Definition sample_parse_ip (s : str) : option IpAddr :=
  if decide (s = lit "0.0.0.0") then Some (V4 [0; 0; 0; 0])
  else if decide (s = lit "::") then Some (V6 (replicate 16 0))
  else if decide (s = lit "127.0.0.1") then Some (V4 [127; 0; 0; 1])
  else None.

(** An instance: a numeric host on a kernel that knows no file. *)
Lemma resolve_correct_witness :
  let m := Build_Machine X86_64Linux (λ _ _, mkReply (2 ^ 64 - 2) 0 false []) in
  @resolve m sample_parse_ip 2 1 (lit "127.0.0.1") 80 [] = Some (Ok [SockV4 [127; 0; 0; 1] 80], [])
  ∧ match @resolve m sample_parse_ip 2 1 (lit "nowhere") 80 [] with
    | Some (Err e, _) => kind X86_64Linux e = NotFound
    | _ => False
    end.
Proof.
  intros m. split.
  - by apply (@resolve_correct m sample_parse_ip eq_refl eq_refl).
  - destruct (@resolve m sample_parse_ip 2 1 (lit "nowhere") 80 []) as [[r h']|] eqn:E.
    + apply (@resolve_correct m sample_parse_ip eq_refl eq_refl) in E as E'.
      vm_compute in E. injection E as <- <-. exact E'.
    + vm_compute in E. discriminate E.
Defined.
