(* ===== verification/SocketIo.v ===== *)
(** Programs over sockets (src/src/net.rs): [ToSocketAddrs], the streams and listeners, and the descriptors
    a program holds.

    [TcpStream], [TcpListener] and [UdpSocket] own a descriptor and close it when they are dropped; the
    operations are those of Socket.v, on any address a [ToSocketAddrs] names. *)
From S2P Require Import Prelude Str Io Syscall Fs Net Socket.
From stdpp Require Import gmultiset.
From stdpp Require Import list.
Open Scope Z_scope.

(** * [ToSocketAddrs] *)
(** What names addresses; naming them leaves no descriptor open. *)
Class ToSocketAddrs `{Machine} (A : Type) := {
  to_socket_addrs : nat → A → Prog (result (list SocketAddr) Error);
  to_socket_addrs_balanced fuel a : balanced (to_socket_addrs fuel a);
}.

Record SocketAddrV4 := mkV4 { v4_ip : list Z; v4_port : Z }.
Record SocketAddrV6 := mkV6 { v6_ip : list Z; v6_port : Z; v6_flow : Z; v6_scope : Z }.
Record Ipv4Port := mkIpv4Port { i4_ip : list Z; i4_port : Z }.

Section addresses.
Context `{Machine} (parse_ip : str → option IpAddr).

#[export] Program Instance socketaddr_addrs : ToSocketAddrs SocketAddr := {
  to_socket_addrs fuel a := mret (Ok [a]);
}.
Next Obligation. intros. apply balanced_ret. Qed.

#[export] Program Instance v4_addrs : ToSocketAddrs SocketAddrV4 := {
  to_socket_addrs fuel a := mret (Ok [SockV4 (v4_ip a) (v4_port a)]);
}.
Next Obligation. intros. apply balanced_ret. Qed.

#[export] Program Instance v6_addrs : ToSocketAddrs SocketAddrV6 := {
  to_socket_addrs fuel a := mret (Ok [SockV6 (v6_ip a) (v6_port a) (v6_flow a) (v6_scope a)]);
}.
Next Obligation. intros. apply balanced_ret. Qed.

#[export] Program Instance ip_port_addrs : ToSocketAddrs (IpAddr * Z) := {
  to_socket_addrs fuel a := mret (Ok [socket_addr a.1 a.2]);
}.
Next Obligation. intros. apply balanced_ret. Qed.

#[export] Program Instance ipv4_port_addrs : ToSocketAddrs Ipv4Port := {
  to_socket_addrs fuel a := mret (Ok [SockV4 (i4_ip a) (i4_port a)]);
}.
Next Obligation. intros. apply balanced_ret. Qed.

(** "host:port", and a host with a port; both may ask the name server. *)
Program Definition str_addrs : ToSocketAddrs str := {|
  to_socket_addrs fuel s := str_to_socket_addrs (resolve parse_ip 2 fuel) s;
|}.
Next Obligation. intros. apply str_to_socket_addrs_balanced. intros. apply resolve_balanced. Qed.

Program Definition host_port_addrs : ToSocketAddrs (str * Z) := {|
  to_socket_addrs fuel a := resolve parse_ip 2 fuel a.1 a.2;
|}.
Next Obligation. intros. apply resolve_balanced. Qed.
End addresses.

(** * Programs *)
(** The setters of the three kinds of sockets. *)
Inductive SockOption : Type :=
| Nonblocking (b : bool) | Nodelay (b : bool) | Ttl (n : Z)
| ReadTimeout (dur : option Duration) | WriteTimeout (dur : option Duration).

(** What a program does with its sockets, given by their position among those it holds: every public method of
    [TcpStream], [TcpListener] and [UdpSocket], and their drop. *)
Inductive SockOp (A : Type) : Type :=
| Connect (a : A)
| Listen (a : A)
| Datagram (a : A)
| Accept (i : nat)
| NextIncoming (i : nat)
| TryClone (i : nat)
| ReadSome (i n : nat)
| WriteSome (i : nat) (buf : list Z)
| FlushOp (i : nat)
| Peek (i : nat) (buf : list Z)
| ShutdownOp (i : nat) (how : Shutdown)
| ConnectTo (i : nat) (a : A)
| Send (i : nat) (buf : list Z)
| Recv (i : nat) (buf : list Z)
| SendTo (i : nat) (buf : list Z) (a : A)
| RecvFrom (i : nat) (buf : list Z)
| LocalAddr (i : nat)
| PeerAddr (i : nat)
| SetOption (i : nat) (o : SockOption)
| DropSocket (i : nat).
Arguments Connect {A}.
Arguments Listen {A}.
Arguments Datagram {A}.
Arguments Accept {A}.
Arguments NextIncoming {A}.
Arguments TryClone {A}.
Arguments ReadSome {A}.
Arguments WriteSome {A}.
Arguments FlushOp {A}.
Arguments Peek {A}.
Arguments ShutdownOp {A}.
Arguments ConnectTo {A}.
Arguments Send {A}.
Arguments Recv {A}.
Arguments SendTo {A}.
Arguments RecvFrom {A}.
Arguments LocalAddr {A}.
Arguments PeerAddr {A}.
Arguments SetOption {A}.
Arguments DropSocket {A}.

(** * Streams and listeners *)
Section sockets.
Context `{Machine}.

Section opening.
Context {A : Type} `{!ToSocketAddrs A} (fuel : nat).

Definition open_any (open_all : list SocketAddr → Sys (result Z Error)) (a : A) : Prog (result Z Error) :=
  addrs ←? to_socket_addrs fuel a; call (open_all addrs).

(** [TcpStream::connect], [TcpListener::bind] and [UdpSocket::bind] *)
Definition stream_connect : A → Prog (result Z Error) := open_any tcp_connect.
Definition listener_bind : A → Prog (result Z Error) := open_any tcp_bind.
Definition socket_bind : A → Prog (result Z Error) := open_any udp_bind.

(** [UdpSocket::connect] and [UdpSocket::send_to], on the first address named *)
Definition socket_connect (fd : Z) (a : A) : Prog (result unit Error) :=
  addrs ←? to_socket_addrs fuel a; call (udp_connect fd addrs).
Definition socket_send_to (fd : Z) (buf : list Z) (a : A) : Prog (result Z Error) :=
  addrs ←? to_socket_addrs fuel a; call (udp_send_to fd buf addrs).
End opening.

(** [Read for TcpStream] and [Write for TcpStream] *)
Definition stream_read (fuel : nat) (fd : Z) (n : nat) : Prog (result (list Z) Error) :=
  file_read fuel fd n.
Definition stream_write (fuel : nat) (fd : Z) (buf : list Z) : Prog (result Z Error) := λ h,
  '(res, f) ← write (fd_at fuel fd h) buf; Some (res, fd_kernel f).
Definition stream_flush : Prog (result unit Error) := mret (Ok tt).

(** [Incoming::next]: [accept] without the peer's address; the iterator never ends. *)
Definition incoming_next (fuel : nat) (fd : Z) : Prog (option (result Z Error)) :=
  r ← tcp_accept fuel fd addr_buf; mret (Some (map_ok fst r)).

(** [TcpListener] and [UdpSocket] have the options of a stream. *)
Definition listener_set_nonblocking (fd : Z) (b : bool) : Sys (result unit Error) := set_nonblocking_fd fd b.
Definition listener_try_clone (fd : Z) : Sys (result Z Error) := os (sc_dup fd).
Definition udp_set_nonblocking (fd : Z) (b : bool) : Sys (result unit Error) := set_nonblocking_fd fd b.
Definition udp_set_read_timeout (fd : Z) (dur : option Duration) : Sys (result unit Error) :=
  let '(tv, len) := encode_timeval target dur in os (sc_setsockopt fd SOL_SOCKET SO_RCVTIMEO tv len).

(** The methods that set an option *)
Definition set_option (fd : Z) (o : SockOption) : Sys (result unit Error) :=
  match o with
  | Nonblocking b => set_nonblocking_fd fd b
  | Nodelay b => set_nodelay fd b
  | Ttl n => set_ttl fd n
  | ReadTimeout dur => set_read_timeout fd dur
  | WriteTimeout dur => set_write_timeout fd dur
  end.
Definition udp_try_clone (fd : Z) : Sys (result Z Error) := os (sc_dup fd).

Section program.
Context {A : Type} `{!ToSocketAddrs A} (fuel : nat).

(** A socket that was obtained is held from now on; an error is dropped. *)
Definition take_in (socks : list Z) (r : result Z Error) : list Z :=
  match r with Ok fd => socks ++ [fd] | Err _ => socks end.

Definition with_socket (socks : list Z) (i : nat) (m : Z → Prog (list Z)) : Prog (list Z) :=
  match socks !! i with Some fd => m fd | None => mret socks end.

Definition sock_op (op : SockOp A) (socks : list Z) : Prog (list Z) :=
  match op with
  | Connect a => r ← stream_connect fuel a; mret (take_in socks r)
  | Listen a => r ← listener_bind fuel a; mret (take_in socks r)
  | Datagram a => r ← socket_bind fuel a; mret (take_in socks r)
  | Accept i => with_socket socks i (λ fd,
      r ← tcp_accept fuel fd addr_buf; mret (take_in socks (map_ok fst r)))
  | NextIncoming i => with_socket socks i (λ fd,
      r ← incoming_next fuel fd;
      mret (match r with Some r => take_in socks r | None => socks end))
  | TryClone i => with_socket socks i (λ fd, r ← call (try_clone fd); mret (take_in socks r))
  | ReadSome i n => with_socket socks i (λ fd, _ ← stream_read fuel fd n; mret socks)
  | WriteSome i b => with_socket socks i (λ fd, _ ← stream_write fuel fd b; mret socks)
  | FlushOp i => with_socket socks i (λ fd, _ ← stream_flush; mret socks)
  | Peek i b => with_socket socks i (λ fd, _ ← call (tcp_peek fd b); mret socks)
  | ShutdownOp i how => with_socket socks i (λ fd, _ ← call (tcp_shutdown fd how); mret socks)
  | ConnectTo i a => with_socket socks i (λ fd, _ ← socket_connect fuel fd a; mret socks)
  | Send i b => with_socket socks i (λ fd, _ ← call (udp_send fd b); mret socks)
  | Recv i b => with_socket socks i (λ fd, _ ← call (udp_recv fd b); mret socks)
  | SendTo i b a => with_socket socks i (λ fd, _ ← socket_send_to fuel fd b a; mret socks)
  | RecvFrom i b => with_socket socks i (λ fd, _ ← call (udp_recv_from fd b); mret socks)
  | LocalAddr i => with_socket socks i (λ fd, _ ← call (local_addr fd); mret socks)
  | PeerAddr i => with_socket socks i (λ fd, _ ← call (peer_addr fd); mret socks)
  | SetOption i o => with_socket socks i (λ fd, _ ← call (set_option fd o); mret socks)
  | DropSocket i => with_socket socks i (λ fd, _ ← call (drop_fd fd); mret (delete i socks))
  end.

Fixpoint sock_run (ops : list (SockOp A)) (socks : list Z) : Prog (list Z) :=
  match ops with
  | [] => mret socks
  | op :: ops => socks ← sock_op op socks; sock_run ops socks
  end.
End program.
End sockets.

(** * Every descriptor is accounted for *)
Section accounting.
Context `{Machine}.

Definition socks_held (socks : list Z) : gmultiset Z := list_to_set_disj socks.

Lemma socks_held_snoc socks fd : socks_held (socks ++ [fd]) = {[+ fd +]} ⊎ socks_held socks.
Proof.
  unfold socks_held. rewrite list_to_set_disj_app, list_to_set_disj_cons, list_to_set_disj_nil.
  multiset_solver.
Qed.

Lemma socks_held_delete socks i fd :
  socks !! i = Some fd → socks_held socks = {[+ fd +]} ⊎ socks_held (delete i socks).
Proof.
  intros Hi. unfold socks_held. rewrite delete_take_drop. rewrite <-(take_drop_middle socks i fd Hi) at 1.
  rewrite !list_to_set_disj_app, list_to_set_disj_cons. multiset_solver.
Qed.

(** A computation that gives a descriptor, an [i32], or none. *)
Definition acquires (m : Prog (result Z Error)) : Prop :=
  transfers ∅ m own ∧ ∀ h r h', m h = Some (r, h') → fits r.

Lemma acquires_call (m : Sys (result Z Error)) :
  gives m own → (∀ h, fits (m h).1) → acquires (call m).
Proof.
  intros Hg Hf. split.
  - intros X h r h' HX [= Hr]. specialize (Hg h). rewrite Hr in Hg. cbn [fst snd] in Hg.
    rewrite Hg, HX. multiset_solver.
  - intros h r h' [= Hr]. specialize (Hf h). by rewrite Hr in Hf.
Qed.

Lemma connect_one_fits addr h : fits (connect_one addr h).1.
Proof.
  unfold connect_one. pose proof (socket_new_fits (family_of target addr) SOCK_STREAM h) as Hf.
  unfold mbind, sys_bind. destruct (socket_new _ _ h) as [[s|e] h1]; [|done].
  destruct (write_sockaddr target addr). destruct (sc_connect _ _ _ _) as [[u|e] h2]; [exact Hf|done].
Qed.

Lemma bind_one_fits addr h : fits (bind_one addr h).1.
Proof.
  unfold bind_one. pose proof (socket_new_fits (family_of target addr) SOCK_STREAM h) as Hf.
  unfold mbind, sys_bind. destruct (socket_new _ _ h) as [[s|e] h1]; [|done].
  destruct (sc_setsockopt _ _ _ _ _ _) as [u0 h2]. destruct (write_sockaddr target addr).
  destruct (sc_bind _ _ _ _) as [[u|e] h3]; [|done].
  destruct (sc_listen _ _ _) as [[u'|e] h4]; [exact Hf|done].
Qed.

Lemma open_any_acquires {A} `{!ToSocketAddrs A} fuel open_all (a : A) :
  (∀ addrs, acquires (call (open_all addrs))) → acquires (open_any fuel open_all a).
Proof.
  intros Ho. split.
  - apply transfers_bind; [apply to_socket_addrs_balanced|].
    intros [addrs|e]; [apply Ho|by apply transfers_ret].
  - intros h r h'. unfold open_any, mbind, prog_bind.
    destruct (to_socket_addrs fuel a h) as [[[addrs|e] h1]|]; cbn [mbind option_bind]; [|by intros [= <- <-]|done].
    apply Ho.
Qed.

Lemma first_ok_acquires f last addrs :
  (∀ a, gives (f a) own) → (∀ a h, fits (f a h).1) → acquires (call (first_ok f last addrs)).
Proof. intros. apply acquires_call; [by apply first_ok_gives|intros; by apply first_ok_fits]. Qed.

Lemma accept_acquires fuel fd b : acquires (r ← tcp_accept fuel fd b; mret (map_ok fst r)).
Proof.
  revert b. induction fuel as [|fuel IH]; intros b; [split; [by intros X h r h' _|done]|].
  assert (∀ h, open_fds (sc_accept fd b addr_len h).2
    = own (sc_accept fd b addr_len h).1.1 ⊎ open_fds h) as Hg by apply sc_accept_gives.
  assert (∀ h, fits (sc_accept fd b addr_len h).1.1) as Hf.
  { intros h. unfold sc_accept, mbind, sys_bind. destruct (socket_syscall _ _ _ h) as [[ret r] h'].
    apply map_i32_fits. }
  split.
  - intros X h r h' HX. cbn [tcp_accept]. unfold mbind, prog_bind, call, prog_ret, mret. specialize (Hg h).
    destruct (sc_accept fd b addr_len h) as [[[s|e] b'] h1]; cbn [fst snd own mbind option_bind] in *.
    + intros [= <- <-]. cbn [own map_ok fst]. rewrite Hg, HX. multiset_solver.
    + destruct (decide (e = 4)); [|intros [= <- <-]; rewrite Hg; multiset_solver].
      intros Hr. apply (proj1 (IH b') X h1 r h'); [|exact Hr]. rewrite Hg, HX. multiset_solver.
  - intros h r h'. cbn [tcp_accept]. unfold mbind, prog_bind, call, prog_ret, mret. specialize (Hf h).
    destruct (sc_accept fd b addr_len h) as [[[s|e] b'] h1]; cbn [fst snd fits mbind option_bind] in *.
    + by intros [= <- <-].
    + destruct (decide (e = 4)); [exact (proj2 (IH b') h1 r h')|by intros [= <- <-]].
Qed.

(** The sockets held are the open descriptors besides [X]. *)
Definition accounted (X : gmultiset Z) (socks : list Z) (h : Hist) : Prop :=
  Forall is_i32 socks ∧ open_fds h = socks_held socks ⊎ X.

Lemma accounted_take_in {R} (m : Prog R) (f : R → result Z Error) X socks h socks' h' :
  acquires (r ← m; mret (f r)) → accounted X socks h →
  (r ← m; mret (take_in socks (f r))) h = Some (socks', h') → accounted X socks' h'.
Proof.
  intros [Ht Hf] [Hi Hh]. specialize (Ht (socks_held socks ⊎ X) h). specialize (Hf h).
  unfold mbind, prog_bind, mret, prog_ret in *. destruct (m h) as [[r h1]|]; cbn [mbind option_bind] in *; [|done].
  intros [= <- <-]. specialize (Ht (f r) h1 ltac:(rewrite Hh; multiset_solver) eq_refl).
  specialize (Hf (f r) h1 eq_refl). destruct (f r) as [fd|e]; cbn [own fits take_in] in *; split.
  - by apply Forall_app_2, Forall_singleton.
  - rewrite Ht, socks_held_snoc. multiset_solver.
  - done.
  - rewrite Ht. multiset_solver.
Qed.

Lemma acquires_ret (m : Prog (result Z Error)) : acquires m → acquires (r ← m; mret r).
Proof.
  intros [Ht Hf]. split.
  - intros X h r h' HX. unfold mbind, prog_bind, mret, prog_ret.
    destruct (m h) as [[r1 h1]|] eqn:E; cbn; [|done]. intros [= <- <-]. by eapply Ht.
  - intros h r h'. unfold mbind, prog_bind, mret, prog_ret.
    destruct (m h) as [[r1 h1]|] eqn:E; cbn; [|done]. intros [= <- <-]. by eapply Hf.
Qed.

Lemma accounted_keep {R} (m : Prog R) X socks h socks' h' :
  balanced m → accounted X socks h → (_ ← m; mret socks) h = Some (socks', h') → accounted X socks' h'.
Proof.
  intros Hm [Hi Hh]. unfold mbind, prog_bind, mret, prog_ret.
  destruct (m h) as [[r h1]|] eqn:E; cbn; [|done]. intros [= <- <-]. split; [done|].
  rewrite (Hm (socks_held socks ⊎ X) h r h1); [multiset_solver|rewrite Hh; multiset_solver|done].
Qed.

Lemma accounted_drop X socks i fd h socks' h' :
  socks !! i = Some fd → accounted X socks h →
  (_ ← call (drop_fd fd); mret (delete i socks)) h = Some (socks', h') → accounted X socks' h'.
Proof.
  intros Hi [Hf Hh]. assert (is_i32 fd) as Hfd by (by eapply Forall_lookup_1).
  pose proof (drop_fd_closes fd h Hfd) as Hd.
  unfold mbind, prog_bind, mret, prog_ret, call. destruct (drop_fd fd h) as [u h1]; cbn [snd mbind option_bind] in *.
  intros [= <- <-]. split; [by apply Forall_delete|].
  rewrite Hd, Hh, (socks_held_delete socks i fd Hi). multiset_solver.
Qed.

Lemma stream_write_balanced fuel fd b : balanced (stream_write fuel fd b).
Proof.
  intros X h a h' HX. unfold stream_write.
  destruct (write _ _) as [[res f]|] eqn:E; cbn [mbind option_bind]; [|done].
  intros [= <- <-]. apply fd_write_keeps in E. rewrite E. exact HX.
Qed.

Lemma set_option_keeps fd o : keeps (set_option fd o).
Proof.
  destruct o as [b|b|n|dur|dur]; cbn [set_option]; [|apply os_keeps, sc_setsockopt_keeps..| |].
  - unfold set_nonblocking_fd. apply keeps_bind; [unfold sc_fcntl; keeps_one|intros [fl|e]; [|apply keeps_ret]].
    apply keeps_bind; [unfold sc_fcntl; keeps_one|intros; apply keeps_ret].
  - unfold set_read_timeout. destruct (encode_timeval target dur). apply os_keeps, sc_setsockopt_keeps.
  - unfold set_write_timeout. destruct (encode_timeval target dur). apply os_keeps, sc_setsockopt_keeps.
Qed.

Lemma tcp_shutdown_keeps fd how : keeps (tcp_shutdown fd how).
Proof. apply os_keeps. unfold sc_shutdown. keeps_one. Qed.

Lemma tcp_peek_keeps fd b : keeps (tcp_peek fd b).
Proof. apply keeps_bind; [apply sc_recvfrom_keeps|]. intros [[? ?] ?]. apply keeps_ret. Qed.

Lemma udp_recv_from_keeps fd b : keeps (udp_recv_from fd b).
Proof. apply keeps_bind; [apply sc_recvfrom_keeps|]. intros [[? ?] ?]. apply keeps_ret. Qed.

Lemma udp_connect_keeps fd addrs : keeps (udp_connect fd addrs).
Proof.
  unfold udp_connect. destruct (first_addr addrs) as [a|]; [|apply keeps_ret].
  destruct (write_sockaddr target a). apply os_keeps. unfold sc_connect. keeps_one.
Qed.

Lemma local_addr_keeps fd : keeps (local_addr fd).
Proof. apply keeps_bind; [unfold sc_getsockname; keeps_one|]. intros [? ?]. apply keeps_ret. Qed.

Lemma peer_addr_keeps fd : keeps (peer_addr fd).
Proof. apply keeps_bind; [unfold sc_getpeername; keeps_one|]. intros [? ?]. apply keeps_ret. Qed.

Section program.
Context {A : Type} `{!ToSocketAddrs A} (fuel : nat).

Lemma opens_acquire (a : A) :
  acquires (stream_connect fuel a) ∧ acquires (listener_bind fuel a) ∧ acquires (socket_bind fuel a).
Proof.
  split_and!; apply open_any_acquires; intros addrs; apply first_ok_acquires;
    eauto using connect_one_gives, connect_one_fits, bind_one_gives, bind_one_fits,
      udp_bind_one_gives, udp_bind_one_fits.
Qed.

Lemma try_clone_acquires fd : acquires (call (try_clone fd)).
Proof.
  apply acquires_call.
  - intros h. rewrite <-(map_ok_id (try_clone fd h).1). apply (os_gives (sc_dup fd) id).
    intros h0. rewrite map_ok_id. apply sc_dup_gives.
  - intros h. apply os_fits, sc_dup_fits.
Qed.

Lemma to_addrs_balanced {R} (m : list SocketAddr → Sys (result R Error)) (a : A) :
  (∀ addrs, keeps (m addrs)) → balanced (addrs ←? to_socket_addrs fuel a; call (m addrs)).
Proof.
  intros Hm. apply transfers_bind; [apply to_socket_addrs_balanced|].
  intros [addrs|e]; [by apply balanced_call|apply balanced_ret].
Qed.

Lemma sock_op_accounted (op : SockOp A) X socks h socks' h' :
  accounted X socks h → sock_op fuel op socks h = Some (socks', h') → accounted X socks' h'.
Proof.
  intros Ha. destruct op as [a|a|a|i|i|i|i n|i b|i|i b|i how|i a|i b|i b|i b a|i b|i|i|i o|i];
    cbn [sock_op]; unfold with_socket.
  1-3: destruct (opens_acquire a) as (Hc & Hl & Hd);
    apply (accounted_take_in _ id); [by apply acquires_ret|done].
  all: destruct (socks !! i) as [fd|] eqn:Ei; [|by intros [= <- <-]].
  - apply (accounted_take_in _ (map_ok fst)); [apply accept_acquires|done].
  - intros Hr. eapply (accounted_take_in (tcp_accept fuel fd addr_buf) (map_ok fst));
      [apply accept_acquires|done|]. rewrite <-Hr. unfold incoming_next, mbind, prog_bind, mret, prog_ret.
    by destruct (tcp_accept fuel fd addr_buf h) as [[r h1]|].
  - apply (accounted_take_in _ id); [by apply acquires_ret, try_clone_acquires|done].
  - apply accounted_keep; [apply file_read_balanced|done].
  - apply accounted_keep; [apply stream_write_balanced|done].
  - apply accounted_keep; [apply balanced_ret|done].
  - apply accounted_keep; [apply balanced_call, tcp_peek_keeps|done].
  - apply accounted_keep; [apply balanced_call, tcp_shutdown_keeps|done].
  - apply accounted_keep; [apply to_addrs_balanced, udp_connect_keeps|done].
  - apply accounted_keep; [apply balanced_call, os_keeps, sc_sendto_keeps|done].
  - apply accounted_keep; [apply balanced_call, udp_recv_keeps|done].
  - apply accounted_keep; [apply to_addrs_balanced, udp_send_to_keeps|done].
  - apply accounted_keep; [apply balanced_call, udp_recv_from_keeps|done].
  - apply accounted_keep; [apply balanced_call, local_addr_keeps|done].
  - apply accounted_keep; [apply balanced_call, peer_addr_keeps|done].
  - apply accounted_keep; [apply balanced_call, set_option_keeps|done].
  - by apply accounted_drop.
Qed.

(** C36: sockets are owned. Whatever methods of [TcpStream], [TcpListener] and [UdpSocket] a program calls on the
    sockets it holds, on addresses it names in any form (so that opening, connecting and sending may resolve a name), and
    whatever the kernel answers: whenever the calls return, the open descriptors are those of the sockets it
    holds and those from before. *)
Theorem sockets_accounted ops socks X h socks' h'
    (Hheld : accounted X socks h) (Hrun : sock_run fuel ops socks h = Some (socks', h')) :
  open_fds h' = socks_held socks' ⊎ X.
Proof.
  cut (accounted X socks' h'); [by intros []|]. revert socks h Hheld Hrun.
  induction ops as [|op ops IH]; intros socks h Ha; cbn [sock_run]; [by intros [= <- <-]|].
  unfold mbind, prog_bind. destruct (sock_op fuel op socks h) as [[s1 h1]|] eqn:E; cbn; [|done].
  apply IH. by eapply sock_op_accounted.
Qed.
End program.
End accounting.

(** A kernel that hands out descriptor numbers in order and lets every other call succeed. *)
Definition numbering (h : Hist) (tr : Trap) : Reply :=
  match nr tr with
  | SOCKET | ACCEPT | DUP => mkReply (3 + Z.of_nat (length h)) 0 false []
  | _ => mkReply 0 0 false []
  end.

(** Witness of C36: a listener is bound and cloned, a connection is accepted, a datagram is sent and the listener
    dropped. *)
Lemma sockets_accounted_witness :
  let m := Build_Machine X86_64Linux numbering in
  match @sock_run m SocketAddr _ 1 [Listen (SockV4 [0; 0; 0; 0] 80); TryClone 0; Accept 0; Datagram (SockV4 [0; 0; 0; 0] 9);
      SendTo 3 [1; 2] (SockV4 [127; 0; 0; 1] 9); SetOption 2 (Nodelay true); DropSocket 0] [] [] with
  | Some (socks', h') => length socks' = 3%nat ∧ open_fds h' = socks_held socks' ⊎ ∅
  | None => False
  end.
Proof.
  intros m.
  destruct (@sock_run m _ _ 1 [Listen (SockV4 [0; 0; 0; 0] 80); TryClone 0; Accept 0; Datagram (SockV4 [0; 0; 0; 0] 9);
      SendTo 3 [1; 2] (SockV4 [127; 0; 0; 1] 9); SetOption 2 (Nodelay true); DropSocket 0] [] [])
    as [[socks' h']|] eqn:E.
  - split; [vm_compute in E; injection E as <- _; reflexivity|].
    apply (@sockets_accounted m SocketAddr _ 1
             [Listen (SockV4 [0; 0; 0; 0] 80); TryClone 0; Accept 0; Datagram (SockV4 [0; 0; 0; 0] 9);
      SendTo 3 [1; 2] (SockV4 [127; 0; 0; 1] 9); SetOption 2 (Nodelay true); DropSocket 0] [] ∅ [] socks' h').
    + split; [constructor|done].
    + exact E.
  - vm_compute in E. discriminate E.
Defined.
