(* ===== verification/Env.v ===== *)
(** The environment and the arguments of the process (src/src/env.rs).

    [alloc]'s [BTreeMap] is a list of pairs in key order; the statics [ARGC], [ARGV],
    [ENVP] and [ENV_MAP] are the record [Env].  The map is behind a [OnceLock] and a
    [Mutex] ([Once.v], [Mutex.v]): each operation here is one critical section. *)
From S2P Require Import Prelude Str Utf8 Path Io Syscall Fs.
From stdpp Require Import list.
From Stdlib Require Import Sorted.
Open Scope Z_scope.

(** * Ordered maps *)
Section btreemap.
Context {V : Type}.

(** The order of [String]s: byte by byte. *)
Fixpoint str_cmp (a b : str) : comparison :=
  match a, b with
  | [], [] => Eq
  | [], _ :: _ => Lt
  | _ :: _, [] => Gt
  | x :: a, y :: b =>
      match N.compare (N_of_ascii x) (N_of_ascii y) with Eq => str_cmp a b | c => c end
  end.

Definition BTreeMap : Type := list (str * V).

Fixpoint bt_get (k : str) (m : BTreeMap) : option V :=
  match m with
  | [] => None
  | (k', v) :: m => if decide (k = k') then Some v else bt_get k m
  end.

Fixpoint bt_insert (k : str) (v : V) (m : BTreeMap) : BTreeMap :=
  match m with
  | [] => [(k, v)]
  | (k', v') :: m' =>
      match str_cmp k k' with
      | Lt => (k, v) :: m
      | Eq => (k, v) :: m'
      | Gt => (k', v') :: bt_insert k v m'
      end
  end.

Fixpoint bt_remove (k : str) (m : BTreeMap) : BTreeMap :=
  match m with
  | [] => []
  | (k', v') :: m => if decide (k = k') then m else (k', v') :: bt_remove k m
  end.

(** Keys in strictly increasing order. *)
Definition bt_sorted (m : BTreeMap) : Prop := StronglySorted (λ a b, str_cmp a.1 b.1 = Lt) m.
End btreemap.
Arguments BTreeMap : clear implicits.

Section order.
Lemma str_cmp_refl a : str_cmp a a = Eq.
Proof. induction a as [|x a IH]; [done|]. cbn. by rewrite N.compare_refl. Qed.

Lemma str_cmp_eq a b : str_cmp a b = Eq → a = b.
Proof.
  revert b. induction a as [|x a IH]; intros [|y b]; cbn; try done.
  destruct (N.compare _ _) eqn:E; try done. intros Hc. apply N.compare_eq in E.
  rewrite (IH b Hc). f_equal.
  rewrite <-(ascii_N_embedding x), <-(ascii_N_embedding y). by f_equal.
Qed.

Lemma str_cmp_antisym a b : str_cmp b a = CompOpp (str_cmp a b).
Proof.
  revert b. induction a as [|x a IH]; intros [|y b]; cbn; try done.
  rewrite N.compare_antisym. by destruct (N.compare (N_of_ascii x) (N_of_ascii y)); cbn.
Qed.

Lemma str_cmp_trans a b c : str_cmp a b = Lt → str_cmp b c = Lt → str_cmp a c = Lt.
Proof.
  revert b c. induction a as [|x a IH]; intros [|y b] [|z c]; cbn; try done.
  destruct (N.compare_spec (N_of_ascii x) (N_of_ascii y)) as [Hxy|Hxy|Hxy]; try done;
    destruct (N.compare_spec (N_of_ascii y) (N_of_ascii z)) as [Hyz|Hyz|Hyz]; try done;
    intros H1 H2; destruct (N.compare_spec (N_of_ascii x) (N_of_ascii z)); try lia; try done.
  by eapply IH.
Qed.
End order.

(** ** Ordered maps are finite maps *)
Section laws.
Context {V : Type}.
Implicit Types m : BTreeMap V.

Lemma bt_get_None k m : Forall (λ a, str_cmp k a.1 = Lt) m → bt_get k m = None.
Proof.
  induction 1 as [|[k' v] m Hk _ IH]; [done|]. cbn in *. rewrite decide_False; [done|].
  intros ->. by rewrite str_cmp_refl in Hk.
Qed.

Lemma bt_get_insert k v m k' :
  bt_sorted m → bt_get k' (bt_insert k v m) = if decide (k' = k) then Some v else bt_get k' m.
Proof.
  induction 1 as [|[k1 v1] m Hs IH Hall]; [done|]. cbn.
  destruct (str_cmp k k1) eqn:E; cbn.
  - apply str_cmp_eq in E as ->. by repeat case_decide.
  - done.
  - rewrite IH. repeat case_decide; simplify_eq; try done. by rewrite str_cmp_refl in E.
Qed.

Lemma bt_insert_Forall k v m (P : str * V → Prop) :
  P (k, v) → Forall P m → Forall P (bt_insert k v m).
Proof.
  intros Hk. induction 1 as [|[k1 v1] m H1 Hm IH]; cbn; [by repeat constructor|].
  destruct (str_cmp k k1); by repeat constructor.
Qed.

Lemma bt_insert_sorted k v m : bt_sorted m → bt_sorted (bt_insert k v m).
Proof.
  induction 1 as [|[k1 v1] m Hs IH Hall]; cbn; [by repeat constructor|].
  destruct (str_cmp k k1) eqn:E.
  - apply str_cmp_eq in E as ->. by constructor.
  - constructor; [by constructor|]. constructor; [done|].
    apply (Forall_impl _ _ _ Hall). intros [k2 v2]. cbn. by apply str_cmp_trans.
  - constructor; [done|]. apply bt_insert_Forall; [|done]. cbn.
    by rewrite str_cmp_antisym, E.
Qed.

Lemma bt_remove_Forall k m (P : str * V → Prop) : Forall P m → Forall P (bt_remove k m).
Proof.
  induction 1 as [|[k1 v1] m H1 Hm IH]; cbn; [done|]. case_decide; [done|by constructor].
Qed.

Lemma bt_remove_sorted k m : bt_sorted m → bt_sorted (bt_remove k m).
Proof.
  induction 1 as [|[k1 v1] m Hs IH Hall]; cbn; [constructor|].
  case_decide; [done|]. constructor; [done|by apply bt_remove_Forall].
Qed.

Lemma bt_get_remove k m k' :
  bt_sorted m → bt_get k' (bt_remove k m) = if decide (k' = k) then None else bt_get k' m.
Proof.
  induction 1 as [|[k1 v1] m Hs IH Hall]; cbn; [by case_decide|].
  destruct (decide (k = k1)) as [->|Hk].
  - destruct (decide (k' = k1)) as [->|]; [by apply bt_get_None|done].
  - cbn. rewrite IH. repeat case_decide; congruence.
Qed.
End laws.
#[export] Hint Resolve bt_insert_sorted bt_remove_sorted : purestd.

(** * The environment *)

(** What the loader handed over and the map made from it: C strings are their bytes, a null
    pointer is [None]. *)
Record Env := mkEnv {
  env_argc : Z;
  env_argv : option (list (option (list Z)));
  env_envp : option (list (list Z));
  env_map : option (BTreeMap str);
}.

(** The statics at program start, and [env::init]. *)
Definition env_start : Env := mkEnv 0 None None None.
Definition env_init (argc : Z) (argv : list (option (list Z))) (envp : list (list Z)) (e : Env) : Env :=
  mkEnv argc (Some argv) (Some envp) (env_map e).

Definition cstr_to_string (bytes : list Z) : str := from_utf8_lossy bytes.

(** An assignment of [envp]; an entry without [=] is ignored. *)
Definition assignment (bytes : list Z) : option (str * str) :=
  '(eq, _) ← list_find (λ b, b = 61) bytes;
  Some (from_utf8_lossy (take eq bytes), from_utf8_lossy (drop (S eq) bytes)).

Fixpoint seed (entries : list (list Z)) (m : BTreeMap str) : BTreeMap str :=
  match entries with
  | [] => m
  | b :: entries =>
      seed entries (match assignment b with Some (k, v) => bt_insert k v m | None => m end)
  end.

(** [env_map]: made on first use. *)
Definition get_map (e : Env) : BTreeMap str * Env :=
  match env_map e with
  | Some m => (m, e)
  | None =>
      let m := match env_envp e with Some l => seed l [] | None => [] end in
      (m, mkEnv (env_argc e) (env_argv e) (env_envp e) (Some m))
  end.

Definition with_map (e : Env) (m : BTreeMap str) : Env :=
  mkEnv (env_argc e) (env_argv e) (env_envp e) (Some m).

Inductive VarError : Set := NotPresent.

Definition vars (e : Env) : list (str * str) * Env := get_map e.

Definition var (key : str) (e : Env) : result str VarError * Env :=
  let '(m, e) := get_map e in (ok_or (bt_get key m) NotPresent, e).

Definition set_var (key value : str) (e : Env) : Env :=
  let '(m, e) := get_map e in with_map e (bt_insert key value m).

Definition remove_var (key : str) (e : Env) : Env :=
  let '(m, e) := get_map e in with_map e (bt_remove key m).

Definition temp_dir (e : Env) : str * Env :=
  let '(r, e) := var (lit "TMPDIR") e in
  (match r with
   | Ok d => if decide (d = []) then lit "/tmp" else d
   | Err _ => lit "/tmp"
   end, e).

(** ** Arguments *)
Record ArgsIter := mkArgs { args_idx : Z; args_argc : Z; args_argv : option (list (option (list Z))) }.

Definition args_of (e : Env) : ArgsIter := mkArgs 0 (env_argc e) (env_argv e).

(** [None]: the array is read out of range. *)
Definition args_next (a : ArgsIter) : option (option str * ArgsIter) :=
  match args_argv a with
  | None => Some (None, a)
  | Some argv =>
      if decide (args_argc a ≤ args_idx a) then Some (None, a)
      else
        match index argv (args_idx a) with
        | None => None
        | Some p =>
            Some (cstr_to_string <$> p, mkArgs (args_idx a + 1) (args_argc a) (args_argv a))
        end
  end.

Definition args_len (a : ArgsIter) : Z := Z.max 0 (args_argc a - args_idx a).

(** ** Directories *)
Section cwd.
Context `{Machine}.

Definition current_dir : Sys (result str Error) :=
  '(r, buf) ← sc_getcwd (replicate (Z.to_nat 4096) 0);
  mret match r with
       | Err e => Err (Os e)
       | Ok _ => Ok (from_utf8_lossy (take (position_nul buf) buf))
       end.

Definition set_current_dir (path : str) : Sys (result unit Error) := with_path path sc_chdir.
End cwd.

(** ** What the operations mean *)
Definition env_wf (e : Env) : Prop :=
  match env_map e with Some m => bt_sorted m | None => True end.

Lemma seed_sorted l m : bt_sorted m → bt_sorted (seed l m).
Proof.
  revert m. induction l as [|b l IH]; intros m Hm; cbn; [done|]. apply IH.
  destruct (assignment b) as [[k v]|]; auto with purestd.
Qed.

Lemma get_map_sorted e : env_wf e → bt_sorted (get_map e).1.
Proof.
  unfold env_wf, get_map. destruct (env_map e); [done|]. intros _. cbn.
  destruct (env_envp e); [apply seed_sorted|]; constructor.
Qed.

Lemma get_map_wf e : env_wf e → env_wf (get_map e).2.
Proof. intros Hwf. pose proof (get_map_sorted e Hwf). by destruct e as [ac av ep [m|]]. Qed.

(** What the environment says about a key. *)
Definition lookup_env (e : Env) (k : str) : option str := bt_get k (get_map e).1.

Lemma get_map_again e : get_map (get_map e).2 = get_map e.
Proof. destruct e as [ac av ep [m|]]; done. Qed.

(** The assignments of [envp], and the last one to a key. *)
Definition last_value (k : str) (l : list (str * str)) : option str :=
  snd <$> last (filter (λ a, a.1 = k) l).

Lemma seed_get l m k :
  bt_sorted m →
  bt_get k (seed l m) = match last_value k (omap assignment l) with
                        | Some v => Some v | None => bt_get k m end.
Proof.
  revert m. induction l as [|b l IH]; intros m Hm; cbn; [done|].
  destruct (assignment b) as [[k1 v1]|]; [|by apply IH].
  rewrite IH by auto with purestd. rewrite bt_get_insert by done.
  unfold last_value. cbn [filter list_filter]. cbn. case_decide; case_decide; simplify_eq; try done.
  - rewrite last_cons. destruct (last _); done.
Qed.

(** The environment is a map. A fresh environment holds the last assignment
    to each key; [set_var] and [remove_var] change one key, now and in every later
    reading; [var] and [vars] change nothing; the variables are listed in key order. *)
Theorem env_correct e k v (Hwf : env_wf e) :
  (∀ k', lookup_env (set_var k v e) k' = if decide (k' = k) then Some v else lookup_env e k')
  ∧ (∀ k', lookup_env (remove_var k e) k' = if decide (k' = k) then None else lookup_env e k')
  ∧ (var k e).1 = ok_or (lookup_env e k) NotPresent
  ∧ (∀ k', lookup_env (var k e).2 k' = lookup_env e k')
  ∧ (∀ k', lookup_env (vars e).2 k' = lookup_env e k')
  ∧ bt_sorted (vars e).1
  ∧ env_wf (set_var k v e) ∧ env_wf (remove_var k e) ∧ env_wf (var k e).2
  ∧ (env_map e = None →
       lookup_env e k = last_value k (omap assignment (default [] (env_envp e)))).
Proof.
  pose proof (get_map_sorted e Hwf) as Hs. pose proof (get_map_wf e Hwf) as Hw. pose proof (get_map_again e) as Ha.
  unfold lookup_env, set_var, remove_var, var, vars, env_wf in *.
  destruct (get_map e) as [m e'] eqn:E. cbn [fst snd with_map get_map env_map] in *.
  rewrite Ha. cbn [fst]. split_and!; try done; intros.
  - by apply bt_get_insert.
  - by apply bt_get_remove.
  - auto with purestd.
  - auto with purestd.
  - unfold get_map in E. rewrite H in E. injection E as <- <-. destruct (env_envp e) as [l|]; [|done].
    cbn. rewrite seed_get by constructor. by destruct (last_value _ _).
Qed.

(** An instance. *)
Lemma env_correct_witness :
  let e := env_init 0 [] [as_bytes (lit "A=1"); as_bytes (lit "B=2"); as_bytes (lit "A=3")] env_start in
  lookup_env e (lit "A") = Some (lit "3") ∧ lookup_env (remove_var (lit "A") e) (lit "B") = Some (lit "2").
Proof.
  intros e. split.
  - apply (env_correct e (lit "A") [] I). reflexivity.
  - by rewrite (proj1 (proj2 (env_correct e (lit "A") [] I))).
Defined.
