(* ===== verification/EnvShared.v ===== *)
(** The environment shared by the threads of a process (src/src/env.rs): [var], [set_var], [remove_var]
    and [vars] on the map behind its [Mutex].

    The map is made by the [OnceLock] before anybody locks it, and all callers get the same one
    (Once.v); from then on it is an object of Object.v whose operations are those of Env.v. *)
From S2P Require Import Prelude Lock Mutex LockSpec Object Str Syscall Env.
From stdpp Require Import list.
Open Scope Z_scope.

Inductive EnvOp : Type :=
| EVar (k : str)
| ESet (k v : str)
| ERemove (k : str)
| EVars.

Inductive EnvRes : Type :=
| RVar (r : result str VarError)
| RUnit
| RVars (l : list (str * str)).

(** What an operation does while it has the lock. *)
Definition env_apply (op : EnvOp) (e : Env) : EnvRes * Env :=
  match op with
  | EVar k => let '(r, e) := var k e in (RVar r, e)
  | ESet k v => (RUnit, set_var k v e)
  | ERemove k => (RUnit, remove_var k e)
  | EVars => let '(l, e) := vars e in (RVars l, e)
  end.

(** The environment of [n] threads over the futex mutex, from the statics [e]. *)
Definition env_step : ObjSys * MutexSys → ObjSys * MutexSys → Prop :=
  over_mutex (obj_step env_apply) obj_put obj_inside.
Definition env_shared (n : nat) (e : Env) : ObjSys (T:=Env) (Op:=EnvOp) (Res:=EnvRes) :=
  obj_init n (get_map e).2.

(** What the operations of a log leave a variable at, from the value [o]. *)
Definition assign (k : str) (o : option str) (x : nat * EnvOp * EnvRes) : option str :=
  match x.1.2 with
  | ESet k' v => if decide (k = k') then Some v else o
  | ERemove k' => if decide (k = k') then None else o
  | _ => o
  end.
Definition last_assigned (k : str) (log : list (nat * EnvOp * EnvRes)) (o : option str) : option str :=
  foldl (assign k) o log.

Lemma env_apply_spec op e i r k :
  env_wf e → env_wf (env_apply op e).2
    ∧ lookup_env (env_apply op e).2 k = assign k (lookup_env e k) (i, op, r).
Proof.
  intros Hwf. destruct op as [k'|k' v|k'|]; unfold assign; cbn -[var set_var remove_var vars lookup_env].
  - destruct (env_correct e k' [] Hwf) as (_ & _ & _ & H & _ & _ & _ & _ & Hw & _).
    destruct (var k' e) as [r' e'] eqn:E. by rewrite <-H.
  - destruct (env_correct e k' v Hwf) as (H & _ & _ & _ & _ & _ & Hw & _). by rewrite H.
  - destruct (env_correct e k' [] Hwf) as (_ & H & _ & _ & _ & _ & _ & Hw & _). by rewrite H.
  - destruct (env_correct e k [] Hwf) as (_ & _ & _ & _ & H & _).
    pose proof (get_map_wf e Hwf). unfold vars in *. destruct (get_map e) as [l e'] eqn:E. by rewrite <-H.
Qed.

Lemma env_run_spec e log e' :
  seq_run env_apply e log e' → env_wf e →
  env_wf e' ∧ ∀ k, lookup_env e' k = last_assigned k log (lookup_env e k).
Proof.
  induction 1 as [|e log e' i op Hrun IH]; [done|]. intros Hwf. destruct (IH Hwf) as [Hwf' Hl].
  split; [by apply (env_apply_spec op e' 0 RUnit [])|]. intros k. unfold last_assigned. rewrite foldl_app.
  cbn. fold (last_assigned k log (lookup_env e k)). rewrite <-Hl. by apply env_apply_spec.
Qed.

(** C37: the shared environment. However threads read and change the environment at the same time,
    over the futex mutex, their calls and returns are those of an environment that makes each
    operation in one step between its call and its return; and there is one order of the operations in which every [var]
    returns the value of the last [set_var] of its key before it, nothing after a [remove_var], and the
    value the process was started with before the first change. *)
Theorem env_atomic n e k s m (Hwf : env_wf e) (Hrun : rtc env_step (env_shared n e, init k) (s, m)) :
  (∃ a, rtc (at_step env_apply) (at_init n (get_map e).2) a ∧ at_hist a = ob_hist s ∧ at_data a = ob_data s)
  ∧ ∃ log,
    (∀ key, lookup_env (ob_data s) key = last_assigned key log (lookup_env e key))
    ∧ (∀ i op r, (i, op, r) ∈ log → Invoke i op ∈ ob_hist s)
    ∧ ∀ i r, Return i (RVar r) ∈ ob_hist s →
        ∃ before after key, log = before ++ (i, EVar key, RVar r) :: after
          ∧ r = ok_or (last_assigned key before (lookup_env e key)) NotPresent.
Proof.
  destruct (proj1 (object_atomic env_apply n (get_map e).2 (ob_hist s) (ob_data s))) as (a & Ha & Eh & Ed).
  { by exists k, s, m. }
  split; [by exists a|]. destruct (at_run_explained _ _ _ _ Ha) as [log [H1 _ _ H4 H5]].
  pose proof (get_map_wf e Hwf) as Hwf'.
  assert (∀ key, lookup_env (get_map e).2 key = lookup_env e key) as Eget.
  { intros key. unfold lookup_env. by rewrite get_map_again. }
  exists log. rewrite Eh, Ed in *. split_and!.
  - intros key. destruct (env_run_spec _ _ _ H1 Hwf') as [_ ->]. by rewrite Eget.
  - done.
  - intros i r (op & Hin)%H4. destruct (seq_run_result _ _ _ _ _ _ _ H1 Hin) as (b & l & e1 & -> & Hb & Hr).
    destruct op as [key|?|?|]; cbn -[var vars] in Hr; [|done|done|by destruct (vars e1)].
    exists b, l, key. split; [done|]. destruct (env_run_spec _ _ _ Hb Hwf') as [Hwf1 Hl].
    destruct (env_correct e1 key [] Hwf1) as (_ & _ & Hv & _). rewrite Hl, Eget in Hv.
    destruct (var key e1). cbn in Hr, Hv. congruence.
Qed.

(** ** One thread sets a variable, then reads it *)
Definition home : str := lit "HOME".
Definition sample_env : Env := env_init 0 [] [as_bytes (lit "HOME=/root")] env_start.

Definition sample_hist : list (ObjEv (Op:=EnvOp) (Res:=EnvRes)) :=
  [Invoke 1 (ESet home (lit "/tmp")); Invoke 0 (EVar home); Return 1 RUnit; Return 0 (RVar (Ok (lit "/tmp")))].

Lemma sample_env_atomic :
  rtc (at_step env_apply) (at_init 2 (get_map sample_env).2)
    (mkAt (set_var home (lit "/tmp") (get_map sample_env).2) [AIdle; AIdle] sample_hist).
Proof.
  advance ltac:(by apply (at_invoke _ _ 1 (ESet home (lit "/tmp")))).
  advance ltac:(by apply (at_invoke _ _ 0 (EVar home))).
  advance ltac:(by apply (at_effect _ _ 1 (ESet home (lit "/tmp")))).
  advance ltac:(by apply (at_effect _ _ 0 (EVar home))).
  advance ltac:(by apply (at_return _ _ 1 RUnit)).
  advance ltac:(by apply (at_return _ _ 0 (RVar (Ok (lit "/tmp"))))).
  apply rtc_refl.
Qed.

(** Witness of C37. *)
Lemma env_atomic_witness :
  ∃ log : list (nat * EnvOp * EnvRes), ∃ before after key,
    log = before ++ (0%nat, EVar key, RVar (Ok (lit "/tmp"))) :: after
    ∧ Ok (lit "/tmp") = ok_or (last_assigned key before (lookup_env sample_env key)) NotPresent.
Proof.
  destruct (proj2 (object_atomic env_apply 2 (get_map sample_env).2 sample_hist
    (set_var home (lit "/tmp") (get_map sample_env).2))) as (k & s & m & Hrun & Eh & _).
  { eexists. split; [exact sample_env_atomic|done]. }
  destruct (env_atomic 2 sample_env k s m I Hrun) as (_ & log & _ & _ & H). exists log.
  apply (H 0%nat). rewrite Eh. unfold sample_hist. set_solver.
Defined.
