(* ===== verification/Process.v ===== *)
(** Child processes (src/src/process.rs).

    [spawn] runs on a machine: after [fork] returned 0 the computation is the child's, which
    wires its standard streams, calls [execve] and exits; it ends with [InChild].  In the
    parent the result is the [Child] with the descriptors it owns.  Unwinding a panic is [None]. *)
From S2P Require Import Prelude Str Path Io Syscall Fs Env.
From stdpp Require Import gmultiset.
From stdpp Require Import list fin_maps gmap.
Open Scope Z_scope.

(** ** Exit status *)
Definition code (status : Z) : option Z :=
  if decide (Z.land status 0x7f = 0) then Some (Z.land (Z.shiftr status 8) 0xff) else None.

Definition success (status : Z) : bool := bool_decide (code status = Some 0).

(** ** Commands *)
Inductive StdioKind : Set := Inherit | Null | Piped.
#[export] Instance StdioKind_eq_dec : EqDecision StdioKind.
Proof. solve_decision. Defined.

Record Command := mkCommand {
  program : str;
  cmd_args : list str;
  env_ops : BTreeMap (option str);
  cmd_env_clear : bool;
  cwd : option str;
  cmd_stdin : StdioKind;
  cmd_stdout : StdioKind;
  cmd_stderr : StdioKind;
}.

Definition command_new (program : str) : Command :=
  mkCommand program [] [] false None Inherit Inherit Inherit.

Definition arg (a : str) (c : Command) : Command :=
  mkCommand (program c) (cmd_args c ++ [a]) (env_ops c) (cmd_env_clear c) (cwd c)
    (cmd_stdin c) (cmd_stdout c) (cmd_stderr c).
Definition push_args (l : list str) (c : Command) : Command := foldl (λ c a, arg a c) c l.
Definition current_dir (dir : str) (c : Command) : Command :=
  mkCommand (program c) (cmd_args c) (env_ops c) (cmd_env_clear c) (Some dir)
    (cmd_stdin c) (cmd_stdout c) (cmd_stderr c).
Definition set_env_ops (ops : BTreeMap (option str)) (c : Command) : Command :=
  mkCommand (program c) (cmd_args c) ops (cmd_env_clear c) (cwd c)
    (cmd_stdin c) (cmd_stdout c) (cmd_stderr c).
Definition env (k v : str) (c : Command) : Command :=
  set_env_ops (bt_insert k (Some v) (env_ops c)) c.
Definition env_remove (k : str) (c : Command) : Command :=
  set_env_ops (bt_insert k None (env_ops c)) c.
Definition env_clear (c : Command) : Command :=
  mkCommand (program c) (cmd_args c) (env_ops c) true (cwd c)
    (cmd_stdin c) (cmd_stdout c) (cmd_stderr c).
Definition set_stdio (i o e : StdioKind) (c : Command) : Command :=
  mkCommand (program c) (cmd_args c) (env_ops c) (cmd_env_clear c) (cwd c) i o e.

(** [Stdio::inherit], [Stdio::null] and [Stdio::piped] *)
Definition stdio_inherit : StdioKind := Inherit.
Definition stdio_null : StdioKind := Null.
Definition stdio_piped : StdioKind := Piped.

(** [args] adds its arguments in order, after those before. *)
Lemma args_spec l c : push_args l c = mkCommand (program c) (cmd_args c ++ l) (env_ops c) (cmd_env_clear c)
  (cwd c) (cmd_stdin c) (cmd_stdout c) (cmd_stderr c).
Proof.
  revert c. induction l as [|a l IH]; intros c; cbn [push_args foldl].
  - rewrite app_nil_r. by destruct c.
  - etrans; [apply IH|]. cbn. by rewrite <-app_assoc.
Qed.

(** One step of the loop over [env_ops]. *)
Definition env_op (m : BTreeMap str) (op : str * option str) : BTreeMap str :=
  match op.2 with Some v => bt_insert op.1 v m | None => bt_remove op.1 m end.

Definition child_map (c : Command) (e : Env) : BTreeMap str :=
  foldl env_op (if cmd_env_clear c then [] else (vars e).1) (env_ops c).

Definition env_string (kv : str * str) : str := kv.1 ++ "="%char :: kv.2.

Definition build_env (c : Command) (e : Env) : list str :=
  omap (λ kv, cstring (env_string kv)) (child_map c e).

Record PipePair := mkPipe { parent_end : Z; child_end : Z }.

Record Child := mkChild {
  pid : Z; ch_stdin : option Z; ch_stdout : option Z; ch_stderr : option Z }.

(** What [spawn] comes to: the parent's result, or the end of the child. *)
Inductive Spawned : Type :=
| InParent (r : result Child Error)
| InChild.

Section process.
Context `{Machine}.

Definition make_pipe (kind : StdioKind) (is_stdin : bool) : Sys (result (option PipePair) Error) :=
  if decide (kind = Piped) then
    r ← os sc_pipe;
    mret (map_ok (λ '(r, w), Some (if is_stdin then mkPipe w r else mkPipe r w)) r)
  else mret (Ok None).

Definition open_devnull : Sys (result Z Z) := sc_open (lit "/dev/null") O_RDWR 0.

Definition child_setup_fd (tgt : Z) (kind : StdioKind) (pipe : option PipePair) : Sys unit :=
  match kind with
  | Inherit => mret tt
  | Null =>
      d ← open_devnull;
      match d with
      | Ok devnull => _ ← sc_dup2 devnull tgt; _ ← sc_close devnull; mret tt
      | Err _ => mret tt
      end
  | Piped =>
      match pipe with
      | Some p =>
          _ ← sc_dup2 (child_end p) tgt;
          _ ← sc_close (child_end p);
          _ ← sc_close (parent_end p);
          mret tt
      | None => mret tt
      end
  end.

Definition parent_keep (kind : StdioKind) (pipe : option PipePair) : Sys (option Z) :=
  match kind, pipe with
  | Piped, Some p => _ ← sc_close (child_end p); mret (Some (parent_end p))
  | _, _ => mret None
  end.

(** The candidates of [resolve_program], in the order of [PATH]. *)
Definition candidate (dir program : str) : str :=
  if ends_with_char SEP dir then dir ++ program else dir ++ SEP :: program.

Fixpoint search_path (dirs : list str) (program : str) : Sys (option str) :=
  match dirs with
  | [] => mret None
  | dir :: dirs =>
      if decide (dir = []) then search_path dirs program
      else
        m ← metadata (candidate dir program);
        if match m with Ok m => is_file target m | Err _ => false end
        then mret (Some (candidate dir program))
        else search_path dirs program
  end.

Definition resolve_program (e : Env) (program : str) : Sys (option str) :=
  if decide (SEP ∈ program) then mret (Some program)
  else
    let path := default (lit "/usr/bin:/bin") (ok (var (lit "PATH") e).1) in
    search_path (Str.split ":"%char path) program.

Definition child_chdir (dir : option str) : Sys unit :=
  match dir with Some d => _ ← sc_chdir d; mret tt | None => mret tt end.

(** The child after [fork]: only system calls. *)
Definition run_child (c : Command) (prog : str) (argv envp : list str) (dir : option str)
    (pi po pe : option PipePair) : Sys unit :=
  _ ← child_chdir dir;
  _ ← child_setup_fd 0 (cmd_stdin c) pi;
  _ ← child_setup_fd 1 (cmd_stdout c) po;
  _ ← child_setup_fd 2 (cmd_stderr c) pe;
  _ ← sc_execve prog argv envp;
  sc_exit_group 127.

(** The arguments as C strings, or [InvalidInput]. *)
Fixpoint cstrings (l : list str) : result (list str) Error :=
  match l with
  | [] => Ok []
  | s :: l =>
      let? c := ok_or (cstring s) (Simple InvalidInput) in
      let? l := cstrings l in
      Ok (c :: l)
  end.

(** From the pipes on. *)
Definition spawn_with (c : Command) (prog : str) (argv envp : list str) (dir : option str)
    : Sys Spawned :=
  pi ← make_pipe (cmd_stdin c) true;
  match pi with Err e => mret (InParent (Err e)) | Ok pi =>
  po ← make_pipe (cmd_stdout c) false;
  match po with Err e => mret (InParent (Err e)) | Ok po =>
  pe ← make_pipe (cmd_stderr c) false;
  match pe with Err e => mret (InParent (Err e)) | Ok pe =>
  p ← os sc_fork;
  match p with Err e => mret (InParent (Err e)) | Ok p =>
  if decide (p = 0) then _ ← run_child c prog argv envp dir pi po pe; mret InChild
  else
    i ← parent_keep (cmd_stdin c) pi;
    o ← parent_keep (cmd_stdout c) po;
    e ← parent_keep (cmd_stderr c) pe;
    mret (InParent (Ok (mkChild p i o e)))
  end end end end.

Definition spawn (c : Command) (e : Env) : Prog Spawned :=
  found ← call (resolve_program e (program c));
  match found with
  | None => mret (InParent (Err (Custom NotFound "program not found")))
  | Some path =>
      match ok_or (cstring path) (Simple InvalidInput) with
      | Err e => mret (InParent (Err e))
      | Ok prog =>
          arg0 ← of_option (cstring (program c));
          match cstrings (cmd_args c) with
          | Err e => mret (InParent (Err e))
          | Ok args =>
              dir ← (match cwd c with
                     | Some d => d ← of_option (cstring d); mret (Some d)
                     | None => mret None
                     end : Prog (option str));
              call (spawn_with c prog (arg0 :: args) (build_env c e) dir)
          end
      end
  end.

(** [self.stdin = None] drops the stream. *)
Definition drop_stream (s : option Z) : Sys unit :=
  match s with Some fd => drop_fd fd | None => mret tt end.

(** [Child::id]: [self.pid as u32] *)
Definition child_id (ch : Child) : Z := wrap 32 (pid ch).

(** [Write for ChildStdin], [Read for ChildStdout] and [Read for ChildStderr] *)
Definition child_stdin_write (fuel : nat) (fd : Z) (buf : list Z) : Prog (result Z Error) := λ h,
  '(res, f) ← write (fd_at fuel fd h) buf; Some (res, fd_kernel f).
Definition child_stdout_read (fuel : nat) (fd : Z) (n : nat) : Prog (result (list Z) Error) :=
  file_read fuel fd n.
Definition child_stderr_read (fuel : nat) (fd : Z) (n : nat) : Prog (result (list Z) Error) :=
  file_read fuel fd n.

(** [process::id] *)
Definition process_id : Sys Z := sc_getpid.

(** [Child::wait]: the status, retried while interrupted. *)
Fixpoint wait_loop (fuel : nat) (p status : Z) : Prog (result Z Error) :=
  match fuel with
  | O => λ _, None
  | S fuel =>
      '(r, status) ← call (sc_wait4 p status 0);
      match r with
      | Ok _ => mret (Ok status)
      | Err e => if decide (e = 4) then wait_loop fuel p status else mret (Err (Os e))
      end
  end.

Definition wait (fuel : nat) (ch : Child) : Prog (result Z Error * Child) :=
  _ ← call (drop_stream (ch_stdin ch));
  r ← wait_loop fuel (pid ch) 0;
  mret (r, mkChild (pid ch) None (ch_stdout ch) (ch_stderr ch)).

(** Read a taken stream to its end and drop it. *)
Definition drain (fuel : nat) (s : option Z) : Prog (result (list Z) Error) :=
  match s with
  | None => mret (Ok [])
  | Some fd =>
      '(res, buf) ← file_read_to_end fuel fd;
      _ ← call (drop_fd fd);
      mret (map_ok (λ _, buf) res)
  end.

(** The fields of a [Child] are dropped in order. *)
Definition drop_child (ch : Child) : Sys unit :=
  _ ← drop_stream (ch_stdin ch); _ ← drop_stream (ch_stdout ch); drop_stream (ch_stderr ch).

(** [wait_with_output]. *)
Definition wait_with_output (fuel : nat) (ch : Child) : Prog (result (Z * list Z * list Z) Error) :=
  o ← drain fuel (ch_stdout ch);
  let ch := mkChild (pid ch) (ch_stdin ch) None (ch_stderr ch) in
  match o with
  | Err e => _ ← call (drop_child ch); mret (Err e)
  | Ok o =>
      r ← drain fuel (ch_stderr ch);
      let ch := mkChild (pid ch) (ch_stdin ch) None None in
      match r with
      | Err e => _ ← call (drop_child ch); mret (Err e)
      | Ok err =>
          '(st, ch) ← wait fuel ch;
          _ ← call (drop_child ch);
          mret (map_ok (λ st, (st, o, err)) st)
      end
  end.

(** [output]: both streams piped, then the same as [wait_with_output]. *)
Definition output (fuel : nat) (c : Command) (e : Env)
    : Prog (option (result (Z * list Z * list Z) Error)) :=
  s ← spawn (set_stdio (cmd_stdin c) Piped Piped c) e;
  match s with
  | InChild => mret None
  | InParent (Err e) => mret (Some (Err e))
  | InParent (Ok ch) => r ← wait_with_output fuel ch; mret (Some r)
  end.

Definition status (fuel : nat) (c : Command) (e : Env) : Prog (option (result Z Error)) :=
  s ← spawn c e;
  match s with
  | InChild => mret None
  | InParent (Err e) => mret (Some (Err e))
  | InParent (Ok ch) =>
      '(r, ch) ← wait fuel ch; _ ← call (drop_child ch); mret (Some r)
  end.
End process.

(** ** The child's environment *)
Lemma env_op_sorted m op : bt_sorted m → bt_sorted (env_op m op).
Proof. destruct op as [k [v|]]; cbn; auto with purestd. Qed.

Lemma foldl_env_op_sorted ops m : bt_sorted m → bt_sorted (foldl env_op m ops).
Proof. revert m. induction ops as [|op ops IH]; intros m Hm; cbn; [done|]. by apply IH, env_op_sorted. Qed.

Lemma foldl_env_op_get ops m k :
  bt_sorted m → bt_sorted ops →
  bt_get k (foldl env_op m ops)
  = match bt_get k ops with Some o => o | None => bt_get k m end.
Proof.
  intros Hm Ho. revert m Hm. induction Ho as [|[k1 o1] ops Ho IH Hall]; intros m Hm; cbn; [done|].
  rewrite IH by by apply env_op_sorted. destruct (decide (k = k1)) as [->|Hk].
  - rewrite bt_get_None by done. destruct o1 as [v|]; cbn.
    + rewrite bt_get_insert by done. by case_decide.
    + rewrite bt_get_remove by done. by case_decide.
  - destruct (bt_get k ops); [done|]. destruct o1 as [v|]; cbn.
    + rewrite bt_get_insert by done. by case_decide.
    + rewrite bt_get_remove by done. by case_decide.
Qed.

Lemma bt_get_elem {V} (m : BTreeMap V) k v : bt_sorted m → (k, v) ∈ m ↔ bt_get k m = Some v.
Proof.
  induction 1 as [|[k1 v1] m Hs IH Hall]; cbn; [split; [by intros ?%elem_of_nil|done]|].
  rewrite elem_of_cons, IH. case_decide as Hk.
  - subst. split; [intros [[= ->]|Hin]; [done|]|intros [= ->]; by left].
    by rewrite bt_get_None in Hin.
  - split; [intros [[= -> ->]|Hin]; done|by right].
Qed.

(** A child's environment. It has one string [key=value], in key order, for each
    variable that an operation of the command sets, or that the parent has and no operation
    removes, unless the command starts from an empty environment; a later [env] or
    [env_remove] of a key replaces an earlier one; strings with an inner NUL are left out. *)
Theorem build_env_correct c e k (Hops : bt_sorted (env_ops c)) (He : env_wf e) :
  (∀ s, s ∈ build_env c e ↔
     ∃ k v, s = env_string (k, v) ∧ "000"%char ∉ s ∧ bt_get k (child_map c e) = Some v)
  ∧ bt_sorted (child_map c e)
  ∧ bt_get k (child_map c e)
    = match bt_get k (env_ops c) with
      | Some o => o
      | None => if cmd_env_clear c then None else lookup_env e k
      end
  ∧ (∀ v k', bt_get k' (env_ops (env k v c)) = if decide (k' = k) then Some (Some v) else bt_get k' (env_ops c))
  ∧ (∀ k', bt_get k' (env_ops (env_remove k c)) = if decide (k' = k) then Some None else bt_get k' (env_ops c))
  ∧ (∀ v, bt_sorted (env_ops (env k v c))) ∧ bt_sorted (env_ops (env_remove k c)).
Proof.
  assert (bt_sorted (if cmd_env_clear c then [] else (vars e).1)) as Hbase.
  { destruct (cmd_env_clear c); [constructor|]. by apply get_map_sorted. }
  assert (bt_sorted (child_map c e)) as Hs by by apply foldl_env_op_sorted.
  split_and!; try done.
  - intros s. unfold build_env. rewrite list_elem_of_omap. split.
    + intros ([k1 v1] & Hin & Hc). unfold cstring in Hc. case_decide; [done|]. injection Hc as <-.
      exists k1, v1. split_and!; [done|done|]. by apply bt_get_elem.
    + intros (k1 & v1 & -> & Hn & Hg). exists (k1, v1). split; [by apply bt_get_elem|].
      unfold cstring. by rewrite decide_False.
  - unfold child_map. rewrite foldl_env_op_get by done.
    destruct (bt_get k (env_ops c)); [done|]. by destruct (cmd_env_clear c).
  - intros v k'. by apply bt_get_insert.
  - intros k'. by apply bt_get_insert.
  - intros v. cbn. auto with purestd.
  - cbn. auto with purestd.
Qed.

(** An instance: [A] is overridden, [B] removed. *)
Lemma build_env_correct_witness :
  let e := set_var (lit "B") (lit "2") (set_var (lit "A") (lit "1") env_start) in
  let c := env_remove (lit "B") (env (lit "A") (lit "9") (command_new (lit "ls"))) in
  build_env c e = [lit "A=9"] ∧ bt_get (lit "A") (child_map c e) = Some (lit "9").
Proof.
  intros e c.
  assert (bt_sorted (env_ops c)) as Hops by (repeat constructor).
  assert (env_wf e) as He by (repeat constructor).
  split; [reflexivity|].
  by rewrite (proj1 (proj2 (proj2 (build_env_correct c e (lit "A") Hops He)))).
Defined.

(** ** Descriptors of children *)
Section ownership.
Context `{Machine}.

Definition own_fd (s : option Z) : gmultiset Z := match s with Some fd => {[+ fd +]} | None => ∅ end.
Definition own_child (ch : Child) : gmultiset Z :=
  own_fd (ch_stdin ch) ⊎ (own_fd (ch_stdout ch) ⊎ own_fd (ch_stderr ch)).
Definition own_pipe (p : option PipePair) : gmultiset Z :=
  match p with Some p => {[+ parent_end p +]} ⊎ {[+ child_end p +]} | None => ∅ end.

Definition fits_fd (s : option Z) : Prop := match s with Some fd => is_i32 fd | None => True end.
Definition fits_pipe (p : option PipePair) : Prop :=
  match p with Some p => is_i32 (parent_end p) ∧ is_i32 (child_end p) | None => True end.

Lemma open_fds_cons e h : open_fds (e :: h) = fd_effect e (open_fds h).
Proof. done. Qed.

Lemma sc_pipe_gives h :
  match sc_pipe h with
  | (Ok (r, w), h') => open_fds h' = {[+ r +]} ⊎ {[+ w +]} ⊎ open_fds h ∧ is_i32 r ∧ is_i32 w
  | (Err _, h') => open_fds h' = open_fds h
  end.
Proof.
  unfold sc_pipe. destruct (is_macos target).
  - unfold trap, mbind, sys_bind. cbn. destruct (carry _); [done|].
    split_and!; [multiset_solver|apply i32_is_i32..].
  - unfold syscall, trap, mbind, sys_bind, mret, sys_ret.
    set (r := kernel h _). destruct (from_ret (raw_ret r)) as [n|e] eqn:E; cbn [map_ok].
    + split_and!; [|apply i32_is_i32..].
      rewrite open_fds_cons. unfold fd_effect. cbn [nr args]. rewrite E. multiset_solver.
    + rewrite open_fds_cons. unfold fd_effect. cbn [nr args]. by rewrite E.
Qed.

Lemma make_pipe_gives kind is_stdin h :
  match make_pipe kind is_stdin h with
  | (Ok p, h') => open_fds h' = own_pipe p ⊎ open_fds h ∧ fits_pipe p ∧ (p = None ↔ kind ≠ Piped)
  | (Err _, h') => open_fds h' = open_fds h
  end.
Proof.
  unfold make_pipe. case_decide as Hk.
  - pose proof (sc_pipe_gives h) as Hp. unfold os, mbind, sys_bind, mret, sys_ret.
    destruct (sc_pipe h) as [[[r w]|e] h']; cbn [map_err map_ok]; [|done].
    destruct Hp as (Hp & Hr & Hw). split_and!; [|by destruct is_stdin|naive_solver].
    rewrite Hp. destruct is_stdin; cbn [own_pipe parent_end child_end]; multiset_solver.
  - unfold mret, sys_ret. cbn [own_pipe fits_pipe]. split_and!; [multiset_solver|done|naive_solver].
Qed.

Lemma parent_keep_closes kind p h :
  fits_pipe p → (p = None ↔ kind ≠ Piped) →
  let '(s, h') := parent_keep kind p h in
  s = parent_end <$> p ∧ ∀ X, open_fds h = own_pipe p ⊎ X → open_fds h' = own_fd s ⊎ X.
Proof.
  intros Hf Hn. unfold parent_keep. destruct p as [p|].
  - destruct kind; [by discriminate (proj2 Hn ltac:(done))..|]. destruct Hf as [_ Hc].
    unfold mbind, sys_bind. pose proof (sc_close_fds (child_end p) h Hc) as Hcl.
    destruct (sc_close (child_end p) h) as [u h']. cbn [snd mret sys_ret] in *. split; [done|].
    intros X HX. rewrite Hcl, HX. cbn [own_pipe own_fd]. multiset_solver.
  - destruct kind; unfold mret, sys_ret; (split; [done|]); intros X HX; rewrite HX;
      cbn [own_pipe own_fd]; multiset_solver.
Qed.

(** C38: the parent owns its ends. When [spawn] returns a [Child], the open descriptors are
    those from before and the ones the [Child] holds; every other pipe end has
    been closed, and each stream is there exactly if it was asked to be piped. *)
Theorem spawn_owns c prog argv envp dir h ch h'
    (Hs : spawn_with c prog argv envp dir h = (InParent (Ok ch), h')) :
  open_fds h' = own_child ch ⊎ open_fds h
  ∧ (is_Some (ch_stdin ch) ↔ cmd_stdin c = Piped)
  ∧ (is_Some (ch_stdout ch) ↔ cmd_stdout c = Piped)
  ∧ (is_Some (ch_stderr ch) ↔ cmd_stderr c = Piped).
Proof.
  revert Hs. unfold spawn_with, mbind, sys_bind, mret, sys_ret.
  pose proof (make_pipe_gives (cmd_stdin c) true h) as Hi.
  destruct (make_pipe (cmd_stdin c) true h) as [[pi|e] h1]; [|done].
  pose proof (make_pipe_gives (cmd_stdout c) false h1) as Ho.
  destruct (make_pipe (cmd_stdout c) false h1) as [[po|e] h2]; [|done].
  pose proof (make_pipe_gives (cmd_stderr c) false h2) as He.
  destruct (make_pipe (cmd_stderr c) false h2) as [[pe|e] h3]; [|done].
  pose proof (os_keeps sc_fork sc_fork_keeps h3) as Hf.
  destruct (os sc_fork h3) as [[p|e] h4]; [|done].
  destruct (decide (p = 0)); [by destruct (run_child _ _ _ _ _ _ _ _ _)|].
  destruct Hi as (Hi & Fi & Ni), Ho as (Ho & Fo & No), He as (He & Fe & Ne). cbn [snd] in Hf.
  pose proof (parent_keep_closes (cmd_stdin c) pi h4 Fi Ni) as Ki.
  destruct (parent_keep (cmd_stdin c) pi h4) as [i h5]. destruct Ki as [-> Ki].
  pose proof (parent_keep_closes (cmd_stdout c) po h5 Fo No) as Ko.
  destruct (parent_keep (cmd_stdout c) po h5) as [o h6]. destruct Ko as [-> Ko].
  pose proof (parent_keep_closes (cmd_stderr c) pe h6 Fe Ne) as Ke.
  destruct (parent_keep (cmd_stderr c) pe h6) as [e h7]. destruct Ke as [-> Ke].
  intros [= <- <-]. cbn [ch_stdin ch_stdout ch_stderr own_child]. split_and!.
  - specialize (Ki (own_pipe po ⊎ (own_pipe pe ⊎ open_fds h)) ltac:(rewrite Hf, He, Ho, Hi; multiset_solver)).
    specialize (Ko (own_fd (parent_end <$> pi) ⊎ (own_pipe pe ⊎ open_fds h)) ltac:(rewrite Ki; multiset_solver)).
    specialize (Ke (own_fd (parent_end <$> po) ⊎ (own_fd (parent_end <$> pi) ⊎ open_fds h))
                  ltac:(rewrite Ko; multiset_solver)).
    rewrite Ke. unfold own_child. cbn [ch_stdin ch_stdout ch_stderr]. multiset_solver.
  - destruct pi, (cmd_stdin c); naive_solver.
  - destruct po, (cmd_stdout c); naive_solver.
  - destruct pe, (cmd_stderr c); naive_solver.
Qed.
End ownership.

(** ** The standard streams of the child *)
Section wiring.
Context `{Machine} {A : Type} (file : str → A).

(** What a call does to the descriptor table of a process: [open] adds an entry, [dup2] makes one entry refer to
    what another refers to, [close] removes one. *)
Definition table_effect (e : Trap * Reply) (T : gmap Z A) : gmap Z A :=
  match nr e.1, args e.1 with
  | OPENAT, [_; CStr path; _; _] =>
      match from_ret (raw_ret e.2) with Ok fd => <[i32 fd := file path]> T | Err _ => T end
  | (DUP2 | DUP3), W o :: W n :: _ =>
      match from_ret (raw_ret e.2), T !! i32 o with
      | Ok _, Some x => <[i32 n := x]> T
      | _, _ => T
      end
  | CLOSE, [W fd] => delete (i32 fd) T
  | _, _ => T
  end.
Definition table (T0 : gmap Z A) (h : Hist) : gmap Z A := foldr table_effect T0 h.

(** [dup2] of an open descriptor to another number succeeds. *)
Definition dup_works : Prop :=
  ∀ h n o o' a, n = DUP2 ∨ n = DUP3 → i32 o ≠ i32 o' →
    ∃ v, from_ret (raw_ret (kernel h (mkTrap n (W o :: W o' :: a)))) = Ok v.

(** [/dev/null] can be opened now, on a number that is free and, as the standard streams are open, above theirs. *)
Definition null_opens (T0 : gmap Z A) (h : Hist) : Prop :=
  ∃ fd, from_ret (raw_ret (kernel h (mkTrap OPENAT [W (usize AT_FDCWD); CStr (lit "/dev/null"); W O_RDWR; W 0]))) = Ok fd
        ∧ 2 < i32 fd ∧ table T0 h !! i32 fd = None.

(** The pipe descriptors of a stream, and what the stream should be in the child. *)
Definition ends (kind : StdioKind) (pipe : option PipePair) : list Z :=
  match kind, pipe with Piped, Some p => [child_end p; parent_end p] | _, _ => [] end.

Definition stream (T : gmap Z A) (tgt : Z) (kind : StdioKind) (pipe : option PipePair) : option A :=
  match kind, pipe with
  | Null, _ => Some (file (lit "/dev/null"))
  | Piped, Some p => T !! child_end p
  | _, _ => T !! tgt
  end.

Lemma dup2_table T0 old new h x :
  dup_works → is_i32 old → is_i32 new → old ≠ new → table T0 h !! old = Some x →
  table T0 (sc_dup2 old new h).2 = <[new := x]> (table T0 h).
Proof.
  intros Hd Ho Hn Hne Hx. unfold sc_dup2.
  assert (∀ n a, (n = DUP2 ∨ n = DUP3) →
    table T0 ((mkTrap n (W (usize old) :: W (usize new) :: a),
               kernel h (mkTrap n (W (usize old) :: W (usize new) :: a))) :: h)
    = <[new := x]> (table T0 h)) as Hstep.
  { intros n a Hna. unfold table. cbn [foldr]. fold (table T0 h). unfold table_effect.
    cbn [fst snd nr args].
    destruct (Hd h n (usize old) (usize new) a Hna) as [v ->]; [by rewrite !i32_usize|].
    rewrite !i32_usize by done. rewrite Hx. by destruct Hna as [-> | ->]. }
  destruct target; first [apply (Hstep DUP2 []); by left | apply (Hstep DUP3 [W 0]); by right].
Qed.

Lemma close_table T0 fd h :
  is_i32 fd → table T0 (sc_close fd h).2 = delete fd (table T0 h).
Proof.
  intros Hfd. change (delete (i32 (usize fd)) (table T0 h) = delete fd (table T0 h)).
  by rewrite i32_usize.
Qed.

Lemma null_table T0 h :
  null_opens T0 h → ∃ d, (open_devnull h).1 = Ok d ∧ is_i32 d ∧ 2 < d ∧ table T0 h !! d = None
    ∧ table T0 (open_devnull h).2 = <[d := file (lit "/dev/null")]> (table T0 h).
Proof.
  intros (fd & Hfd & Hgt & Hf).
  exists (i32 fd). unfold open_devnull, sc_open, syscall, trap, mbind, sys_bind, mret, sys_ret. cbn [fst snd].
  rewrite Hfd. split_and!; [done|apply i32_is_i32|done|done|].
  unfold table. cbn [foldr]. unfold table_effect at 1. cbn [fst snd nr args]. by rewrite Hfd.
Qed.

(** One stream: it becomes what it should be, its pipe's descriptors are closed, and no other entry changes. *)
Lemma setup_table T0 tgt kind pipe h :
  dup_works → (kind = Null → null_opens T0 h) → 0 ≤ tgt ≤ 2 → Forall (λ fd, 2 < fd < 2 ^ 31) (ends kind pipe) →
  Forall (λ fd, is_Some (table T0 h !! fd)) (ends kind pipe) →
  let T := table T0 h in
  let T' := table T0 (child_setup_fd tgt kind pipe h).2 in
  T' !! tgt = stream T tgt kind pipe ∧ Forall (λ fd, T' !! fd = None) (ends kind pipe)
  ∧ (∀ fd, fd ≠ tgt → fd ∉ ends kind pipe → T' !! fd = T !! fd).
Proof.
  intros Hd Hn Ht He Hopen T T'. unfold T', child_setup_fd.
  assert (is_i32 tgt) as Hti by (unfold is_i32; lia).
  destruct kind; [split_and!; [done|constructor|done]| |]; cycle 1.
  - destruct pipe as [p|]; [|split_and!; [done|constructor|done]]. cbn [ends stream] in *.
    rewrite !Forall_cons in He, Hopen. destruct He as (Hc & Hp & _), Hopen as ([x Hx] & _).
    assert (is_i32 (child_end p) ∧ is_i32 (parent_end p)) as [Hci Hpi] by (unfold is_i32; lia).
    unfold mbind, sys_bind. pose proof (dup2_table T0 (child_end p) tgt h x Hd Hci Hti ltac:(lia) Hx) as H1.
    destruct (sc_dup2 (child_end p) tgt h) as [u1 h1]. cbn [snd] in H1.
    pose proof (close_table T0 (child_end p) h1 Hci) as H2.
    destruct (sc_close (child_end p) h1) as [u2 h2]. cbn [snd] in H2.
    pose proof (close_table T0 (parent_end p) h2 Hpi) as H3.
    destruct (sc_close (parent_end p) h2) as [u3 h3]. cbn [snd mret sys_ret] in *. rewrite H3, H2, H1.
    split_and!.
    + rewrite !lookup_delete_ne, lookup_insert_eq by lia. done.
    + rewrite !Forall_cons. split_and!; [|apply lookup_delete_eq|constructor].
      destruct (decide (parent_end p = child_end p)) as [->|]; [apply lookup_delete_eq|].
      rewrite lookup_delete_ne by done. apply lookup_delete_eq.
    + intros fd Hfd Hin. rewrite !not_elem_of_cons in Hin. destruct Hin as (Hf1 & Hf2 & _).
      by rewrite !lookup_delete_ne, lookup_insert_ne by congruence.
  - destruct (null_table T0 h (Hn eq_refl)) as (d & E & Hdi & Hgt & Hfree & H1). unfold mbind, sys_bind.
    destruct (open_devnull h) as [r h1]. cbn [fst snd] in E, H1. subst r.
    pose proof (dup2_table T0 d tgt h1 _ Hd Hdi Hti ltac:(lia) ltac:(rewrite H1; apply lookup_insert_eq)) as H2.
    destruct (sc_dup2 d tgt h1) as [u1 h2]. cbn [snd] in H2.
    pose proof (close_table T0 d h2 Hdi) as H3. destruct (sc_close d h2) as [u2 h3].
    cbn [snd mret sys_ret] in *. rewrite H3, H2, H1. split_and!; [|constructor|].
    + rewrite lookup_delete_ne, lookup_insert_eq by lia. done.
    + intros fd Hfd _. destruct (decide (fd = d)) as [->|Hne]; [by rewrite lookup_delete_eq|].
      by rewrite lookup_delete_ne, !lookup_insert_ne by congruence.
Qed.

Lemma chdir_table T0 dir h :
  table T0 (child_chdir dir h).2 = table T0 h.
Proof. by destruct dir. Qed.

Lemma run_child_table c prog argv envp dir pi po pe T0 h :
  table T0 (run_child c prog argv envp dir pi po pe h).2
  = table T0 (child_setup_fd 2 (cmd_stderr c) pe (child_setup_fd 1 (cmd_stdout c) po
                (child_setup_fd 0 (cmd_stdin c) pi (child_chdir dir h).2).2).2).2.
Proof.
  unfold run_child, mbind, sys_bind. destruct (child_chdir dir h) as [u0 h0]. cbn [snd].
  destruct (child_setup_fd 0 (cmd_stdin c) pi h0) as [u1 h1]. cbn [snd].
  destruct (child_setup_fd 1 (cmd_stdout c) po h1) as [u2 h2]. cbn [snd].
  by destruct (child_setup_fd 2 (cmd_stderr c) pe h2) as [u3 h3].
Qed.

(** A stream's own entry and descriptors are not among those of another one. *)
Lemma stream_untouched T T' tgt kind pipe (touched : list Z) :
  (∀ fd, fd ∉ touched → T' !! fd = T !! fd) → tgt ∉ touched → (∀ fd, fd ∈ ends kind pipe → fd ∉ touched) →
  stream T' tgt kind pipe = stream T tgt kind pipe
  ∧ (Forall (λ fd, is_Some (T !! fd)) (ends kind pipe) → Forall (λ fd, is_Some (T' !! fd)) (ends kind pipe)).
Proof.
  intros Hs Ht He. split.
  - destruct kind, pipe as [p|]; cbn [stream ends] in *; try done; apply Hs; try done. apply He. by left.
  - intros Ho. apply Forall_forall. intros fd Hfd. rewrite Hs by auto. rewrite Forall_forall in Ho. by apply Ho.
Qed.

(** C39: the child's streams. Let the standard streams and the pipes of a command be open in the new process,
    with the pipes on different descriptors above 2, and let the kernel open [/dev/null] where it is asked for, on a free
    descriptor above 2, and carry out [dup2]. Then
    by the time of [execve] each of the descriptors 0, 1 and 2 is what its [Stdio] says: what it was,
    [/dev/null], or the child's end of its pipe; none of the pipe descriptors is left open; and every other descriptor is
    what it was. *)
Theorem child_wiring c prog argv envp dir pi po pe T0 h
    (Hd : dup_works)
    (Hn0 : let h0 := (child_chdir dir h).2 in cmd_stdin c = Null → null_opens T0 h0)
    (Hn1 : let h1 := (child_setup_fd 0 (cmd_stdin c) pi (child_chdir dir h).2).2 in
           cmd_stdout c = Null → null_opens T0 h1)
    (Hn2 : let h2 := (child_setup_fd 1 (cmd_stdout c) po
                        (child_setup_fd 0 (cmd_stdin c) pi (child_chdir dir h).2).2).2 in
           cmd_stderr c = Null → null_opens T0 h2)
    (Hends : Forall (λ fd, 2 < fd < 2 ^ 31)
       (ends (cmd_stdin c) pi ++ ends (cmd_stdout c) po ++ ends (cmd_stderr c) pe))
    (Hnd : NoDup (ends (cmd_stdin c) pi ++ ends (cmd_stdout c) po ++ ends (cmd_stderr c) pe))
    (Hopen : Forall (λ fd, is_Some (table T0 h !! fd))
       (ends (cmd_stdin c) pi ++ ends (cmd_stdout c) po ++ ends (cmd_stderr c) pe)) :
  let T := table T0 h in
  let T' := table T0 (run_child c prog argv envp dir pi po pe h).2 in
  T' !! 0 = stream T 0 (cmd_stdin c) pi ∧ T' !! 1 = stream T 1 (cmd_stdout c) po
  ∧ T' !! 2 = stream T 2 (cmd_stderr c) pe
  ∧ (∀ fd, 2 < fd →
       T' !! fd = if decide (fd ∈ ends (cmd_stdin c) pi ++ ends (cmd_stdout c) po ++ ends (cmd_stderr c) pe)
                  then None else T !! fd).
Proof.
  intros T T'. set (ei := ends (cmd_stdin c) pi) in *. set (eo := ends (cmd_stdout c) po) in *.
  set (ee := ends (cmd_stderr c) pe) in *. rewrite !Forall_app in Hends, Hopen.
  destruct Hends as (Bi & Bo & Be), Hopen as (Oi & Oo & Oe).
  apply NoDup_app in Hnd as (_ & Di & (_ & Do & _)%NoDup_app).
  assert (∀ l i, Forall (λ fd, 2 < fd < 2 ^ 31) l → i ≤ 2 → i ∉ l) as Hlow
    by (intros l i Hl Hi Hin; rewrite Forall_forall in Hl; specialize (Hl i Hin); lia).
  assert (∀ l i j, Forall (λ fd, 2 < fd < 2 ^ 31) l → i ≤ 2 → i ≠ j → i ∉ j :: l) as Hout
    by (intros l i j Hl Hi Hij; apply not_elem_of_cons; split; [done|by apply Hlow]).
  assert (∀ l l' j, Forall (λ fd, 2 < fd < 2 ^ 31) l → (∀ x, x ∈ l → x ∉ l') → j ≤ 2 →
            ∀ fd, fd ∈ l → fd ∉ j :: l') as Hapart.
  { intros l l' j Hl Hll Hj fd Hfd. apply not_elem_of_cons. split; [intros ->; by apply (Hlow l j)|by apply Hll]. }
  unfold T'. rewrite run_child_table. pose proof (chdir_table T0 dir h) as H0.
  destruct (child_chdir dir h) as [u0 h0]. cbn [snd] in H0, Hn0, Hn1, Hn2 |- *. fold T in H0.
  destruct (setup_table T0 0 (cmd_stdin c) pi h0 Hd Hn0 ltac:(lia) Bi) as (S1 & N1 & K1); [by rewrite H0|].
  destruct (child_setup_fd 0 (cmd_stdin c) pi h0) as [u1 h1]. cbn [snd] in S1, N1, K1, Hn1, Hn2 |- *.
  rewrite H0 in S1, K1. fold ei in N1, K1.
  destruct (stream_untouched T (table T0 h1) 1 (cmd_stdout c) po (0 :: ei)) as [So Oo1];
    [intros fd [? ?]%not_elem_of_cons; by apply K1|apply Hout; [done|lia|done]|apply (Hapart eo); [done|set_solver|lia]|].
  destruct (stream_untouched T (table T0 h1) 2 (cmd_stderr c) pe (0 :: ei)) as [Se Oe1];
    [intros fd [? ?]%not_elem_of_cons; by apply K1|apply Hout; [done|lia|done]|apply (Hapart ee); [done|set_solver|lia]|].
  destruct (setup_table T0 1 (cmd_stdout c) po h1 Hd Hn1 ltac:(lia) Bo) as (S2 & N2 & K2); [by apply Oo1|].
  destruct (child_setup_fd 1 (cmd_stdout c) po h1) as [u2 h2]. cbn [snd] in S2, N2, K2, Hn2 |- *.
  fold eo in N2, K2.
  destruct (stream_untouched (table T0 h1) (table T0 h2) 2 (cmd_stderr c) pe (1 :: eo)) as [Se2 Oe2];
    [intros fd [? ?]%not_elem_of_cons; by apply K2|apply Hout; [done|lia|done]|apply (Hapart ee); [done|set_solver|lia]|].
  destruct (setup_table T0 2 (cmd_stderr c) pe h2 Hd Hn2 ltac:(lia) Be) as (S3 & N3 & K3); [by apply Oe2, Oe1|].
  destruct (child_setup_fd 2 (cmd_stderr c) pe h2) as [u3 h3]. cbn [snd] in S3, N3, K3 |- *.
  fold ee in N3, K3. rewrite Forall_forall in N1, N2, N3. split_and!.
  - rewrite K3, K2 by (auto with lia). done.
  - rewrite K3 by (auto with lia). by rewrite S2.
  - by rewrite S3, Se2.
  - intros fd Hfd. case_decide as Hin.
    + rewrite !elem_of_app in Hin. destruct (decide (fd ∈ ee)) as [He|He]; [by apply N3|].
      rewrite K3 by (done || lia). destruct (decide (fd ∈ eo)) as [Ho|Ho]; [by apply N2|].
      rewrite K2 by (done || lia). apply N1. naive_solver.
    + rewrite !not_elem_of_app in Hin. destruct Hin as (? & ? & ?). by rewrite K3, K2, K1 by (done || lia).
Qed.
End wiring.

(** ** Waiting gives the streams back *)
Section waiting.
Context `{Machine}.

Definition fits_child (ch : Child) : Prop :=
  fits_fd (ch_stdin ch) ∧ fits_fd (ch_stdout ch) ∧ fits_fd (ch_stderr ch).

Lemma sc_wait4_keeps p st o : keeps (sc_wait4 p st o).
Proof. unfold sc_wait4. keeps_one. Qed.

Lemma wait_loop_balanced fuel p st : balanced (wait_loop fuel p st).
Proof.
  revert st. induction fuel as [|fuel IH]; intros st; [apply balanced_none|]. cbn [wait_loop].
  apply transfers_bind; [apply balanced_call, sc_wait4_keeps|intros [[r|e] st']]; [apply balanced_ret|].
  case_decide; [apply IH|apply balanced_ret].
Qed.

Lemma drop_stream_fds s h :
  fits_fd s → open_fds (drop_stream s h).2 = open_fds h ∖ own_fd s.
Proof.
  destruct s as [fd|]; cbn [drop_stream fits_fd own_fd]; [apply drop_fd_closes|]. intros _.
  unfold mret, sys_ret. cbn [snd]. multiset_solver.
Qed.

Lemma transfers_drop_stream {B} L s (k : unit → Prog B) (owned : B → gmultiset Z) :
  fits_fd s → (∀ u, transfers L (k u) owned) →
  transfers (own_fd s ⊎ L) (call (drop_stream s) ≫= k) owned.
Proof.
  intros Hf Hk X h b h' HX. rewrite bind_call. apply Hk. rewrite drop_stream_fds by done.
  rewrite HX. multiset_solver.
Qed.

Lemma drop_child_fds ch h :
  fits_child ch → open_fds (drop_child ch h).2 = open_fds h ∖ own_child ch.
Proof.
  intros (Hi & Ho & He). unfold drop_child, mbind, sys_bind, own_child.
  pose proof (drop_stream_fds (ch_stdin ch) h Hi) as H1.
  destruct (drop_stream (ch_stdin ch) h) as [u1 h1]. cbn [snd] in H1.
  pose proof (drop_stream_fds (ch_stdout ch) h1 Ho) as H2.
  destruct (drop_stream (ch_stdout ch) h1) as [u2 h2]. cbn [snd] in H2.
  rewrite (drop_stream_fds (ch_stderr ch) h2 He), H2, H1. multiset_solver.
Qed.

Lemma transfers_drop_child {B} ch (k : unit → Prog B) (owned : B → gmultiset Z) :
  fits_child ch → (∀ u, transfers ∅ (k u) owned) →
  transfers (own_child ch) (call (drop_child ch) ≫= k) owned.
Proof.
  intros Hf Hk X h b h' HX. rewrite bind_call. apply Hk. rewrite drop_child_fds by done.
  rewrite HX. multiset_solver.
Qed.

Lemma drain_closes {B} L fuel s (k : result (list Z) Error → Prog B) owned :
  fits_fd s → (∀ r, transfers L (k r) owned) →
  transfers (own_fd s ⊎ L) (drain fuel s ≫= k) owned.
Proof.
  intros Hf Hk X h b h' HX. unfold mbind, prog_bind.
  destruct (drain fuel s h) as [[r h1]|] eqn:E; cbn [mbind option_bind]; [|done]. apply Hk.
  assert (closes (own_fd s) (drain fuel s)) as Hc.
  { unfold drain. destruct s as [fd|]; [|apply balanced_ret]. cbn [own_fd]. unfold closes.
    rewrite <-(right_id_L ∅ (⊎) {[+ fd +]}).
    apply transfers_bind; [apply file_read_to_end_balanced|intros [res buf]].
    apply transfers_drop; [intros; by apply drop_fd_closes|intros u]. apply balanced_ret. }
  rewrite (Hc (L ⊎ X) h r h1); [multiset_solver|multiset_solver|done].
Qed.

Lemma wait_closes {B} L fuel ch (k : result Z Error * Child → Prog B) owned :
  fits_fd (ch_stdin ch) →
  (∀ r, transfers L (k (r, mkChild (pid ch) None (ch_stdout ch) (ch_stderr ch))) owned) →
  transfers (own_fd (ch_stdin ch) ⊎ L) (wait fuel ch ≫= k) owned.
Proof.
  intros Hf Hk.
  assert (∀ h, (wait fuel ch ≫= k) h
    = (call (drop_stream (ch_stdin ch)) ≫= λ _, wait_loop fuel (pid ch) 0 ≫= λ r,
         k (r, mkChild (pid ch) None (ch_stdout ch) (ch_stderr ch))) h) as Heq.
  { intros h. rewrite bind_call. unfold wait, mbind at 1, prog_bind at 1. rewrite bind_call.
    unfold mbind, prog_bind. by destruct (wait_loop fuel (pid ch) 0 _) as [[r h1]|]. }
  intros X h b h' HX. rewrite Heq. revert X h b h' HX.
  apply transfers_drop_stream; [done|intros u].
  apply transfers_bind; [apply wait_loop_balanced|done].
Qed.

(** Collecting output. On every path out of [wait_with_output], failed
    reads and waits included, exactly the streams of the [Child] have been closed. *)
Theorem wait_with_output_closes fuel ch h r h' X (Hf : fits_child ch)
    (Hh : open_fds h = own_child ch ⊎ X)
    (Hr : wait_with_output fuel ch h = Some (r, h')) :
  open_fds h' = X.
Proof.
  assert (transfers (own_fd (ch_stdout ch) ⊎ (own_fd (ch_stderr ch) ⊎ (own_fd (ch_stdin ch) ⊎ ∅)))
            (wait_with_output fuel ch) (λ _, ∅)) as Ht.
  { destruct Hf as (Hi & Ho & He). unfold wait_with_output.
    assert (∀ ch0 B (x : B), fits_child ch0 →
      transfers (own_child ch0) (_ ← call (drop_child ch0); mret x) (λ _, ∅)) as Hdrop.
    { intros ch0 B x Hf0. by apply transfers_drop_child; [|intros u; apply balanced_ret]. }
    apply drain_closes; [done|intros [o|e]].
    - apply drain_closes; [done|intros [err|e]].
      + apply (wait_closes ∅ fuel (mkChild (pid ch) (ch_stdin ch) None None)); [done|].
        intros st. by apply (Hdrop (mkChild (pid ch) None None None)).
      + replace (own_fd (ch_stdin ch) ⊎ ∅) with (own_child (mkChild (pid ch) (ch_stdin ch) None None))
          by (unfold own_child; cbn [ch_stdin ch_stdout ch_stderr own_fd]; multiset_solver).
        by apply Hdrop.
    - replace (own_fd (ch_stderr ch) ⊎ (own_fd (ch_stdin ch) ⊎ ∅))
        with (own_child (mkChild (pid ch) (ch_stdin ch) None (ch_stderr ch)))
        by (unfold own_child; cbn [ch_stdin ch_stdout ch_stderr own_fd]; multiset_solver).
      by apply Hdrop. }
  rewrite (Ht X h r h'); [multiset_solver| |done].
  rewrite Hh. unfold own_child. multiset_solver.
Qed.
End waiting.

(** ** Two defects of [spawn] *)

(** A machine whose second [pipe] fails (EMFILE), and one whose pipe lies on 0 and 3. *)
Definition failing_kernel (h : Hist) (tr : Trap) : Reply :=
  match nr tr with
  | PIPE2 =>
      if decide (h = []) then mkReply 0 0 false [to_le_bytes 4 5 ++ to_le_bytes 4 6]
      else mkReply (2 ^ 64 - 24) 0 false []
  | _ => mkReply 0 0 false []
  end.

(** When a later pipe cannot be made, [spawn] fails and the ends of the earlier one stay open. *)
Theorem spawn_leaks_pipes :
  let m := Build_Machine X86_64Linux failing_kernel in
  let '(s, h') := @spawn_with m (set_stdio Piped Piped Inherit (command_new (lit "ls")))
                    (lit "/bin/ls") [lit "ls"] [] None [] in
  s = InParent (Err (Os 24)) ∧ @open_fds m h' = {[+ 5; 6 +]}.
Proof. vm_compute. split; [reflexivity|]. done. Qed.

(** When descriptor 0 was closed in the parent, the pipe for the child's input can lie on 0:
    [dup2] is then the identity and the stream is closed again. *)
Theorem child_stdin_closed :
  let m := Build_Machine X86_64Linux (λ _ _, mkReply 0 0 false []) in
  let T0 : gmap Z str := <[0 := lit "pipe"]> ∅ in
  @table m str id T0 (@child_setup_fd m 0 Piped (Some (mkPipe 3 0)) []).2 !! 0 = None.
Proof. reflexivity. Qed.

(** ** Witnesses *)

(** A machine where pipes get fresh numbers and [fork] returns 77 in the parent. *)
Definition spawning_kernel (h : Hist) (tr : Trap) : Reply :=
  match nr tr with
  | PIPE2 =>
      let n := 3 + 2 * Z.of_nat (count_calls (λ n, match n with PIPE2 => true | _ => false end) h) in
      mkReply 0 0 false [to_le_bytes 4 n ++ to_le_bytes 4 (n + 1)]
  | FORK => mkReply 77 0 false []
  | _ => mkReply 0 0 false []
  end.
#[local] Instance spawning_machine : Machine := Build_Machine X86_64Linux spawning_kernel.

Definition piped_ls : Command := set_stdio Piped Piped Piped (command_new (lit "ls")).

(** Witness of C38: the parent keeps 4, 5 and 7. *)
Lemma spawn_owns_witness :
  let '(s, h') := spawn_with piped_ls (lit "/bin/ls") [lit "ls"] [] None [] in
  s = InParent (Ok (mkChild 77 (Some 4) (Some 5) (Some 7)))
  ∧ open_fds h' = own_child (mkChild 77 (Some 4) (Some 5) (Some 7)) ⊎ ∅.
Proof.
  destruct (spawn_with piped_ls (lit "/bin/ls") [lit "ls"] [] None []) as [s h'] eqn:E.
  assert (s = InParent (Ok (mkChild 77 (Some 4) (Some 5) (Some 7)))) as ->
    by (vm_compute in E; by injection E as <- <-).
  split; [reflexivity|].
  exact (proj1 (spawn_owns piped_ls (lit "/bin/ls") [lit "ls"] [] None [] _ h' E)).
Defined.

(** A kernel that opens every file as descriptor 5. *)
Definition devnull_kernel (h : Hist) (tr : Trap) : Reply :=
  match nr tr with OPENAT => mkReply 5 0 false [] | _ => mkReply 0 0 false [] end.

(** Witness of C39: input from a pipe, output to [/dev/null], the error stream inherited. *)
Lemma child_wiring_witness :
  let m := Build_Machine X86_64Linux devnull_kernel in
  let c := set_stdio Piped Null Inherit (command_new (lit "ls")) in
  let T0 : gmap Z str := <[3 := lit "in"]> (<[4 := lit "out"]> (<[2 := lit "tty"]> ∅)) in
  @table m str id T0 (@run_child m c (lit "/bin/ls") [lit "ls"] [] None (Some (mkPipe 4 3)) None None []).2 !! 1
  = Some (lit "/dev/null").
Proof.
  intros m c T0.
  apply (@child_wiring m str id c (lit "/bin/ls") [lit "ls"] [] None (Some (mkPipe 4 3)) None None T0 []).
  - intros h n o o' a [-> | ->] _; by exists 0.
  - done.
  - intros h1 _. by exists 5.
  - done.
  - repeat constructor; cbn; lia.
  - apply (bool_decide_unpack _). by vm_compute.
  - repeat constructor; cbn; eexists; reflexivity.
Defined.

(** An instance: reads and waits that fail. *)
Lemma wait_with_output_closes_witness :
  let m := Build_Machine X86_64Linux (λ _ _, mkReply (2 ^ 64 - 5) 0 false []) in
  let ch := mkChild 77 (Some 4) (Some 5) None in
  let h : Hist := [(mkTrap PIPE [], mkReply 4 5 false [])] in
  ∃ r h', @wait_with_output m 3 ch h = Some (r, h') ∧ @open_fds m h' = ∅.
Proof.
  intros m ch h. eexists _, _. split; [vm_compute; reflexivity|].
  eapply (@wait_with_output_closes m 3 ch h _ _ ∅);
    [split_and!; cbn; unfold is_i32; lia || done|reflexivity|vm_compute; reflexivity].
Defined.
