(* ===== verification/SysThread.v ===== *)
(** Sleeping, waiting with a timeout and thread creation as the kernel sees them
    (src/src/sys_thread.rs): the calls of the three backends (Linux, macOS, WASI), and what
    a kernel makes of the timeouts it is given.

    The word of a futex is passed by its address; the value the code loads from it is an
    argument.  [futex_wait], [futex_wake] and [futex_wake_all] as synchronisation are
    part of the systems in Mutex.v, RwLock.v, Condvar.v, Mpsc.v, Park.v, Join.v and Scope.v. *)
From S2P Require Import Prelude Str Io Syscall.

(** [struct timespec]: two [i64]s *)
Definition timespec (d : Duration) : list Z := to_le_bytes 8 (secs d) ++ to_le_bytes 8 (nanos d).

(** The kernel reads a [timespec] at the width of its ABI: the 32-bit [nanosleep] and [futex] take
    two 32-bit words. *)
Definition read_timespec (t : Target) (b : list Z) : Z * Z :=
  if is_linux32 t
  then (to_signed 32 (from_le_bytes (take 4 b)), to_signed 32 (from_le_bytes (take 4 (drop 4 b))))
  else (to_signed 64 (from_le_bytes (take 8 b)), to_signed 64 (from_le_bytes (take 8 (drop 8 b)))).

Definition U32_MAX : Z := 2 ^ 32 - 1.

Section backends.
Context `{Machine}.

Definition FUTEX_WAIT : Z := Z.lor 0 128.
Definition FUTEX_WAKE : Z := Z.lor 1 128.

(** [UL_COMPARE_AND_WAIT | ULF_NO_ERRNO] *)
Definition UL_OP : Z := Z.lor 1 0x1000000.

(** arm64 macOS: the system call inside [futex_wait]'s loop, the wait with a timeout in microseconds, and the
    two wakes.  [loaded] is the value of the first [addr.load()]. *)
Definition ulock_wait (addr expected : Z) : Sys unit :=
  _ ← trap ULOCK_WAIT [W UL_OP; W addr; W expected; W 0]; mret tt.

Definition ulock_wait_timeout (addr loaded expected : Z) (dur : Duration) : Sys unit :=
  if decide (loaded ≠ expected) then mret tt
  else
    let us := Z.min (as_micros dur) U32_MAX in
    _ ← trap ULOCK_WAIT [W UL_OP; W addr; W expected; W us]; mret tt.

Definition ulock_wake (addr : Z) : Sys unit :=
  _ ← trap ULOCK_WAKE [W UL_OP; W addr; W 0]; mret tt.

Definition ulock_wake_all (addr : Z) : Sys unit :=
  _ ← trap ULOCK_WAKE [W (Z.lor UL_OP 0x100); W addr; W 0]; mret tt.

(** The loop of [sleep] on macOS, [wait] being its system call: the timeout is a [u32] of microseconds. *)
Fixpoint sleep_loop (wait : Z → Sys unit) (fuel : nat) (us : Z) : Prog unit :=
  match fuel with
  | O => λ _, None
  | S fuel =>
      if decide (0 < us) then
        let chunk := Z.min us U32_MAX in
        _ ← call (wait chunk);
        sleep_loop wait fuel (us - chunk)
      else mret tt
  end.

(** [dummy] is the address of a word that never changes. *)
Definition ulock_sleep (fuel : nat) (dummy : Z) (dur : Duration) : Prog unit :=
  sleep_loop (λ chunk, _ ← trap ULOCK_WAIT [W UL_OP; W dummy; W 0; W chunk]; mret tt) fuel (as_micros dur).

(** x86-64 macOS: the same through [arch::syscall3] and [arch::syscall4]. *)
Definition X64_UL_OP : Z := 1.
Definition ULF_WAKE_ALL : Z := 0x100.

Definition x64_futex_wait (addr expected : Z) : Sys unit :=
  _ ← syscall ULOCK_WAIT [W X64_UL_OP; W addr; W expected; W 0]; mret tt.

Definition x64_futex_wait_timeout (addr loaded expected : Z) (dur : Duration) : Sys unit :=
  if decide (loaded ≠ expected) then mret tt
  else
    let us := Z.min (as_micros dur) U32_MAX in
    _ ← syscall ULOCK_WAIT [W X64_UL_OP; W addr; W expected; W us]; mret tt.

Definition x64_futex_wake (addr : Z) : Sys unit :=
  _ ← syscall ULOCK_WAKE [W X64_UL_OP; W addr; W 0]; mret tt.

Definition x64_futex_wake_all (addr : Z) : Sys unit :=
  _ ← syscall ULOCK_WAKE [W (Z.lor X64_UL_OP ULF_WAKE_ALL); W addr; W 0]; mret tt.

Definition x64_sleep (fuel : nat) (dummy : Z) (dur : Duration) : Prog unit :=
  sleep_loop (λ chunk, _ ← syscall ULOCK_WAIT [W X64_UL_OP; W dummy; W 0; W chunk]; mret tt) fuel (as_micros dur).

(** The same on Linux, and what each target does. *)
Definition futex_wait_call (addr expected : Z) : Sys unit :=
  match target with
  | Wasm32Wasi => mret tt
  | Aarch64MacOS => ulock_wait addr expected
  | X86_64MacOS => x64_futex_wait addr expected
  | _ => _ ← trap FUTEX [W addr; W FUTEX_WAIT; W expected; W 0]; mret tt
  end.

Definition futex_wake (addr : Z) : Sys unit :=
  match target with
  | Wasm32Wasi => mret tt
  | Aarch64MacOS => ulock_wake addr
  | X86_64MacOS => x64_futex_wake addr
  | _ => _ ← trap FUTEX [W addr; W FUTEX_WAKE; W 1]; mret tt
  end.

Definition futex_wake_all (addr : Z) : Sys unit :=
  match target with
  | Wasm32Wasi => mret tt
  | Aarch64MacOS => ulock_wake_all addr
  | X86_64MacOS => x64_futex_wake_all addr
  | _ => _ ← trap FUTEX [W addr; W FUTEX_WAKE; W (2 ^ 31 - 1)]; mret tt
  end.

Definition futex_wait_timeout (addr loaded expected : Z) (dur : Duration) : Sys unit :=
  match target with
  | Wasm32Wasi => mret tt
  | Aarch64MacOS => ulock_wait_timeout addr loaded expected dur
  | X86_64MacOS => x64_futex_wait_timeout addr loaded expected dur
  | _ =>
      if decide (loaded ≠ expected) then mret tt
      else _ ← trap FUTEX [W addr; W FUTEX_WAIT; W expected; In (timespec dur)]; mret tt
  end.

Definition sleep (fuel : nat) (dummy : Z) (dur : Duration) : Prog unit :=
  match target with
  | Wasm32Wasi => mret tt
  | Aarch64MacOS => ulock_sleep fuel dummy dur
  | X86_64MacOS => x64_sleep fuel dummy dur
  | _ => _ ← call (trap NANOSLEEP [In (timespec dur); W 0]); mret tt
  end.

Definition yield_now : Sys unit :=
  match target with
  | Wasm32Wasi | X86_64MacOS => mret tt
  | Aarch64MacOS => _ ← trap THREAD_SWITCH [W 0; W 0; W 0]; mret tt
  | _ => _ ← trap SCHED_YIELD []; mret tt
  end.
End backends.

(** ** How long the kernel was asked to sleep, in nanoseconds *)
Section asked.
Context `{Machine}.

Definition asked_ns (e : Trap * Reply) : Z :=
  match nr e.1, args e.1 with
  | NANOSLEEP, [In b; W 0] => let '(s, n) := read_timespec target b in s * 1000000000 + n
  | ULOCK_WAIT, [W _; W _; W _; W us] => us * 1000
  | _, _ => 0
  end.

(** The calls of a run, oldest last, and the time they ask for. *)
Definition asked_total (h : Hist) : Z := foldr (λ e acc, asked_ns e + acc) 0 h.

(** No single call waits for ever: a timeout of 0 means that on macOS. *)
Definition bounded_waits (h : Hist) : Prop :=
  Forall (λ e, match nr e.1, args e.1 with ULOCK_WAIT, [_; _; _; W us] => 0 < us ≤ U32_MAX | _, _ => True end) h.
End asked.

Lemma asked_app `{Machine} h h' : asked_total (h ++ h') = asked_total h + asked_total h'.
Proof. unfold asked_total. induction h as [|e h IH]; cbn [foldr app]; [done|]. rewrite IH. lia. Qed.

Section sleeping.
Context `{Machine}.

(** A call that waits for [chunk] microseconds. *)
Definition waits_for (op dummy chunk : Z) : Trap := mkTrap ULOCK_WAIT [W op; W dummy; W 0; W chunk].

Lemma sleep_loop_spec wait op dummy fuel us h :
  (∀ chunk h, wait chunk h = (tt, (waits_for op dummy chunk, kernel h (waits_for op dummy chunk)) :: h)) →
  0 ≤ us < Z.of_nat fuel →
  ∃ new, sleep_loop wait fuel us h = Some (tt, new ++ h)
    ∧ asked_total new = us * 1000 ∧ bounded_waits new.
Proof.
  intros Hwait. revert us h. induction fuel as [|fuel IH]; intros us h Hus; [lia|].
  cbn [sleep_loop]. destruct (decide (0 < us)) as [Hpos|Hz].
  2:{ exists []. assert (us = 0) as -> by lia. split_and!; [done|done|constructor]. }
  rewrite bind_call, Hwait. set (chunk := Z.min us U32_MAX).
  assert (0 < chunk ≤ U32_MAX ∧ chunk ≤ us) as [Hc Hc'] by (unfold chunk, U32_MAX; lia).
  set (tr := waits_for op dummy chunk).
  destruct (IH (us - chunk) ((tr, kernel h tr) :: h)) as (new & Hr & Ha & Hb); [lia|].
  exists (new ++ [(tr, kernel h tr)]). split_and!.
  - rewrite <-app_assoc. exact Hr.
  - rewrite asked_app, Ha. unfold asked_total. cbn [foldr].
    change (asked_ns (tr, kernel h tr)) with (chunk * 1000). lia.
  - apply Forall_app. split; [done|]. constructor; [exact Hc|constructor].
Qed.

Lemma read_timespec_64 t d :
  is_linux32 t = false → 0 ≤ secs d < 2 ^ 63 → 0 ≤ nanos d < 1000000000 →
  read_timespec t (timespec d) = (secs d, nanos d).
Proof.
  intros Ht Hs Hn. unfold read_timespec, timespec. rewrite Ht.
  change (take 8 (to_le_bytes 8 (secs d) ++ to_le_bytes 8 (nanos d))) with (to_le_bytes 8 (secs d)).
  change (take 8 (drop 8 (to_le_bytes 8 (secs d) ++ to_le_bytes 8 (nanos d))))
    with (to_le_bytes 8 (nanos d)).
  rewrite !from_to_le_bytes, !to_signed_wrap, !to_signed_small by lia. done.
Qed.

(** Sleeping. [thread::sleep] returns on every target; on 64-bit Linux and on macOS it
    asks the kernel for exactly the duration (to the microsecond on macOS, in pieces
    that fit the call's 32-bit timeout, none of which means "for ever"). *)
Theorem sleep_correct dummy dur h (Hs : 0 ≤ secs dur < 2 ^ 63) (Hn : 0 ≤ nanos dur < 1000000000)
    (Ht : target ≠ Wasm32Wasi) (H32 : is_linux32 target = false) :
  ∃ new, sleep (S (Z.to_nat (as_micros dur))) dummy dur h = Some (tt, new ++ h)
    ∧ asked_total new = (if is_macos target then as_micros dur * 1000
                         else secs dur * 1000000000 + nanos dur)
    ∧ bounded_waits new.
Proof.
  assert (0 ≤ as_micros dur) as Hus.
  { unfold as_micros, subsec_micros. pose proof (Z.div_pos (nanos dur) 1000). lia. }
  assert (∀ wait op, (∀ chunk h, wait chunk h
             = (tt, (waits_for op dummy chunk, kernel h (waits_for op dummy chunk)) :: h)) →
    ∃ new, sleep_loop wait (S (Z.to_nat (as_micros dur))) (as_micros dur) h = Some (tt, new ++ h)
    ∧ asked_total new = as_micros dur * 1000 ∧ bounded_waits new) as Hloop
    by (intros wait op Hw; apply (sleep_loop_spec wait op dummy); [done|lia]).
  assert (∃ new, (_ ← call (trap NANOSLEEP [In (timespec dur); W 0]); mret tt : Prog unit) h
                 = Some (tt, new ++ h)
    ∧ asked_total new = secs dur * 1000000000 + nanos dur ∧ bounded_waits new) as Hlinux.
  { exists [(mkTrap NANOSLEEP [In (timespec dur); W 0], kernel h (mkTrap NANOSLEEP [In (timespec dur); W 0]))].
    rewrite bind_call. split_and!; [reflexivity| |repeat constructor].
    unfold asked_total. cbn [foldr asked_ns nr args fst]. rewrite read_timespec_64 by done. lia. }
  unfold sleep, ulock_sleep, x64_sleep. destruct target; try done; by eapply Hloop.
Qed.

(** On 32-bit Linux the kernel takes the low word of the seconds for the seconds and their high word for the
    nanoseconds: a sleep of less than a second does not sleep. *)
Lemma sleep_32 d :
  is_linux32 target = true → secs d = 0 → read_timespec target (timespec d) = (0, 0).
Proof.
  intros Ht Hs. unfold read_timespec, timespec. rewrite Ht, Hs. reflexivity.
Qed.
End sleeping.

(** An instance: five milliseconds on 64-bit Linux. *)
Lemma sleep_correct_witness :
  ∃ new, @sleep (Build_Machine X86_64Linux (λ _ _, mkReply 0 0 false [])) (S (Z.to_nat 5000)) 0
           (mkDuration 0 5000000) [] = Some (tt, new ++ [])
    ∧ @asked_total (Build_Machine X86_64Linux (λ _ _, mkReply 0 0 false [])) new = 5000000.
Proof.
  destruct (@sleep_correct (Build_Machine X86_64Linux (λ _ _, mkReply 0 0 false [])) 0
    (mkDuration 0 5000000) []) as (new & Hr & Ha & _); [cbn; lia|cbn; lia|done|done|].
  exists new. split; [exact Hr|exact Ha].
Defined.
