(* ===== verification/Thread.v ===== *)
(** [Builder::spawn] and the creation of OS threads (src/src/thread.rs,
    src/src/sys_thread.rs) on an arbitrary kernel: the stack it maps, the call that starts the
    thread, and what is given back when that fails.

    Joining, parking and scopes are in Join.v, Park.v and Scope.v; the assembly behind the Linux call is in Clone.v. *)
From S2P Require Import Prelude Clone Str Io Syscall SysThread.
From stdpp Require Import gmultiset.
From stdpp Require Import list.
Open Scope Z_scope.

Definition DEFAULT_STACK : Z := 2 * 1024 * 1024.

(** [Builder] *)
Record Builder := mkBuilder { stack_size : option Z; thread_name : option str }.

Definition builder_new : Builder := mkBuilder None None.
Definition set_stack_size (size : Z) (b : Builder) : Builder := mkBuilder (Some size) (thread_name b).
Definition set_name (n : str) (b : Builder) : Builder := mkBuilder (stack_size b) (Some n).

(** [Thread]: its identifier and name; the parker is in Park.v. *)
Record Thread := mkThread { id : Z; name : option str }.

(** [ThreadId::next]: the counter is a [u64] and wraps. *)
Definition next_id (next : Z) : Z * Z := (next, wrap 64 (next + 1)).

Definition thread_new (n : option str) (next : Z) : Thread * Z :=
  let '(i, next) := next_id next in (mkThread i n, next).

Definition CLONE_VM : Z := 0x00000100.
Definition CLONE_FS : Z := 0x00000200.
Definition CLONE_FILES : Z := 0x00000400.
Definition CLONE_SIGHAND : Z := 0x00000800.
Definition CLONE_THREAD : Z := 0x00010000.
Definition CLONE_SYSVSEM : Z := 0x00040000.
Definition clone_flags : Z :=
  Z.lor (Z.lor (Z.lor (Z.lor (Z.lor CLONE_VM CLONE_FS) CLONE_FILES) CLONE_SIGHAND) CLONE_THREAD)
        CLONE_SYSVSEM.

Section spawn.
Context `{Machine}.

(** The static [PORTS]: the two Mach ports of the process, once they were made. *)
Context (PORTS : option (Z * Z)).

(** [ports]: [get_or_init] of the static. *)
Definition ports : Sys (Z * Z) :=
  match PORTS with
  | Some p => mret p
  | None =>
      t ← trap TASK_SELF []; r ← trap MACH_REPLY_PORT [];
      mret (wrap 32 (ret0 t), wrap 32 (ret0 r))
  end.

(** [MsgHdr]: six words *)
Record MsgHdr := mkMsgHdr {
  bits : Z; msg_size : Z; remote : Z; local_port : Z; voucher : Z; msg_id : Z
}.

(** [CreateReq]: the header, NDR record, flavor and count, and the 34 registers of the new thread. *)
Record CreateReq := mkCreateReq { hdr : MsgHdr; ndr : list Z; flavor : Z; count : Z; regs : list Z }.

(** Its bytes, as [repr(C)] lays it out. *)
Definition req_bytes (r : CreateReq) : list Z :=
  let h := hdr r in
  concat (to_le_bytes 4 <$> [bits h; msg_size h; remote h; local_port h; voucher h; msg_id h])
  ++ ndr r ++ to_le_bytes 4 (flavor r) ++ to_le_bytes 4 (count r)
  ++ concat (to_le_bytes 8 <$> regs r).

Definition send_size : Z := 24 + 8 + 4 + 4 + 68 * 4.

(** The request [spawn_os] fills in over [zeroed]. *)
Definition create_req (task reply entry arg stack_top : Z) : CreateReq :=
  mkCreateReq (mkMsgHdr 0x1513 send_size task reply 0 3412) (replicate 8 0) 6 68
    (<[32%nat := entry]> (<[31%nat := stack_top]> (<[0%nat := arg]> (replicate 34 0)))).

(** SEND, RCV and SEND_ANY *)
Definition MSG_OPT : Z := Z.lor (Z.lor 1 2) 0x800000000.

(** [sys_thread::spawn_os] of arm64 macOS: one [mach_msg2] that sends the request and takes the
    reply; creations are serialised by a spin lock around it. *)
Definition spawn_os_mach (entry arg stack_top : Z) : Sys (result unit unit) :=
  '(task, reply) ← ports;
  let req := create_req task reply entry arg stack_top in
  let bits_size := Z.lor (bits (hdr req)) (Z.shiftl send_size 32) in
  let rem_loc := Z.lor task (Z.shiftl reply 32) in
  let vouch_id := Z.shiftl (msg_id (hdr req)) 32 in
  let desc_rcv := Z.shiftl reply 32 in
  let rcvsz_prio := Z.of_nat (length (req_bytes req)) in
  r ← trap MACH_MSG2
    [Out (req_bytes req); W MSG_OPT; W bits_size; W rem_loc; W vouch_id; W desc_rcv; W rcvsz_prio; W 0];
  mret (if decide (ret0 r = 0) then Ok tt else Err tt).

(** [sys_thread::spawn_os] of Linux: what [__purestd_clone] asks for (Clone.v). *)
Definition spawn_os_linux (stack_top : Z) : Sys (result unit unit) :=
  '(ret, _) ← syscall CLONE [W clone_flags; W (child_sp target stack_top); W 0; W 0; W 0];
  mret (if decide (0 < isize ret) then Ok tt else Err tt).

(** [sys_thread::spawn_os] of x86-64 macOS: no threads yet *)
Definition spawn_os_x64 (_entry _arg _stack_top : Z) : Sys (result unit unit) := mret (Err tt).

(** The backends without threads refuse. *)
Definition spawn_os (entry arg stack_top : Z) : Sys (result unit unit) :=
  match target with
  | Wasm32Wasi => mret (Err tt)
  | X86_64MacOS => spawn_os_x64 entry arg stack_top
  | Aarch64MacOS => spawn_os_mach entry arg stack_top
  | _ => spawn_os_linux stack_top
  end.

(** [sys_thread::thread_exit]: the last call of a thread; on arm64 macOS it also frees the stack. *)
Definition thread_exit_mach (stack_base size : Z) : Sys unit :=
  r ← trap THREAD_SELF [];
  _ ← trap BSDTHREAD_TERMINATE [W stack_base; W size; W (ret0 r); W 0]; mret tt.

Definition thread_exit_x64 (_stack_base _size : Z) : Sys unit := _ ← syscall EXIT [W 0]; mret tt.

Definition thread_exit (stack_base size : Z) : Sys unit :=
  match target with
  | Wasm32Wasi => mret tt
  | Aarch64MacOS => thread_exit_mach stack_base size
  | X86_64MacOS => thread_exit_x64 stack_base size
  | _ => _ ← trap EXIT [W 0]; mret tt
  end.

(** Round up to a page (16 KiB covers both targets). *)
Definition round_stack (size : Z) : Z := Z.land (usize (size + 0x3fff)) (usize (Z.lnot 0x3fff)).
Definition stack_top (base size : Z) : Z := Z.land (usize (base + size)) (usize (Z.lnot 15)).

(** [Builder::spawn]: [entry] is [thread_start] and [arg] the boxed payload; [next] is the
    counter of [ThreadId::next]. *)
Definition spawn (b : Builder) (entry arg next : Z) : Sys (result Thread Error * Z) :=
  match target with
  | Wasm32Wasi => mret (Err (Custom Unsupported "threads are not supported on wasm"), next)
  | _ =>
      let size := round_stack (default DEFAULT_STACK (stack_size b)) in
      r ← sc_mmap_anon size (Z.lor PROT_READ PROT_WRITE);
      match r with
      | Err e => mret (Err (Os e), next)
      | Ok base =>
          let top := stack_top base size in
          let '(thread, next) := thread_new (thread_name b) next in
          s ← spawn_os entry arg top;
          match s with
          | Ok _ => mret (Ok thread, next)
          | Err _ =>
              _ ← sc_munmap base size;
              mret (Err (Custom Other "failed to spawn OS thread"), next)
          end
      end
  end.

(** [Payload] *)
Record Payload {T : Type} := mkPayload {
  f : Sys T; packet : Z; thread : Thread; stack_base : Z; payload_size : Z
}.

(** What the kernel sees of [thread_start]: [install] is [CURRENT.with] (Current.v, Tls.v), [packet] the
    address of the state word; the result cell, the store and the count of the packet are in Join.v. *)
Definition thread_start_calls {T} (install : Thread → Sys unit) (p : @Payload T) : Sys T :=
  _ ← install (thread p);
  value ← f p;
  _ ← futex_wake (packet p);
  _ ← thread_exit (stack_base p) (payload_size p);
  mret value.

(** [thread::spawn]: [expect] panics when the thread cannot be made. *)
Definition thread_spawn (entry arg next : Z) : Prog (Thread * Z) :=
  '(r, next) ← call (spawn builder_new entry arg next);
  match r with Ok t => mret (t, next) | Err _ => λ _, None end.

(** [available_parallelism]: [NonZeroUsize::new] of the number of processors *)
Definition available_parallelism : Sys (result Z Error) :=
  n ← sc_num_cpus; mret (if decide (n = 0) then Err (Simple Other) else Ok n).

(** ** The mappings of the process, from the calls it made *)
(** A mapping is given back only when the kernel does not refuse. *)
Definition refused (e : Trap * Reply) : bool :=
  match nr e.1 with
  | MUNMAP => match from_ret (raw_ret e.2) with Ok _ => false | Err _ => true end
  | _ => carry e.2
  end.

Definition map_effect (e : Trap * Reply) (ms : gmultiset (Z * Z)) : gmultiset (Z * Z) :=
  let '(tr, r) := e in
  match nr tr, args tr with
  | MMAP, [W 0; W len; _; _; _; _] =>
      match from_ret (raw_ret r) with Ok p => {[+ (p, len) +]} ⊎ ms | Err _ => ms end
  | MUNMAP, [W p; W len] | BSDTHREAD_TERMINATE, [W p; W len; _; _] =>
      if refused (tr, r) then ms else ms ∖ {[+ (p, len) +]}
  | _, _ => ms
  end.

Definition mapped (h : Hist) : gmultiset (Z * Z) := foldr map_effect ∅ h.

(** The thread creations asked for: the address the new stack starts from. *)
Definition started (e : Trap * Reply) : option Z :=
  match nr e.1, args e.1 with
  | CLONE, [W f; W sp; _; _; _] => if decide (f = clone_flags) then Some sp else None
  | MACH_MSG2, Out req :: _ => Some (from_le_bytes (take 8 (drop 288 req)))
  | _, _ => None
  end.
End spawn.

Section spawning.
Context `{Machine} (PORTS : option (Z * Z)).

Lemma usize_bits_pos : 32 ≤ usize_bits target.
Proof. by destruct target. Qed.

Lemma round_stack_spec s :
  0 ≤ s → s + 0x3fff < 2 ^ usize_bits target →
  s ≤ round_stack s < s + 0x4000 ∧ round_stack s mod 0x4000 = 0.
Proof.
  intros Hs Hw. pose proof usize_bits_pos. unfold round_stack, usize.
  change (Z.lnot 0x3fff) with (Z.lnot (Z.ones 14)).
  rewrite (wrap_small _ (s + 0x3fff)), land_lnot_ones by lia.
  change (2 ^ 14) with 0x4000. pose proof (Z.mod_pos_bound (s + 0x3fff) 0x4000 ltac:(done)).
  split; [lia|]. rewrite Zminus_mod, Zmod_mod, Z.sub_diag. done.
Qed.

Lemma stack_top_spec base size :
  0 ≤ base → 0 ≤ size → base + size < 2 ^ usize_bits target → base mod 16 = 0 → size mod 16 = 0 →
  stack_top base size = base + size.
Proof.
  intros Hb Hs Hw. pose proof usize_bits_pos. assert (0 ≤ 4 ≤ usize_bits target) by lia.
  assert (0 ≤ base + size < 2 ^ usize_bits target) by lia. intros Hb16 Hs16. unfold stack_top, usize.
  change (Z.lnot 15) with (Z.lnot (Z.ones 4)).
  rewrite (wrap_small _ (base + size)), land_lnot_ones by done.
  change (2 ^ 4) with 16. rewrite Zplus_mod, Hb16, Hs16. cbn. apply Z.sub_0_r.
Qed.

(** ** Mappings and threads *)
Lemma futex_wake_mapped addr h : mapped (futex_wake addr h).2 = mapped h.
Proof.
  unfold futex_wake, ulock_wake, x64_futex_wake, syscall, trap, mbind, sys_bind, mret, sys_ret.
  destruct target; reflexivity.
Qed.

(** The mappings after a call that gives [(base, size)] back, the last one made. *)
Definition given_back (base size : Z) (before : gmultiset (Z * Z)) (h' : Hist) : Prop :=
  ∃ e, head h' = Some e ∧ mapped h' = if refused e then before else before ∖ {[+ (base, size) +]}.

(** What becomes of a thread's stack: arm64 macOS gives it back, the other targets keep it. *)
Lemma thread_exit_mapped base size h :
  if decide (target = Aarch64MacOS) then given_back base size (mapped h) (thread_exit base size h).2
  else mapped (thread_exit base size h).2 = mapped h.
Proof.
  unfold thread_exit, thread_exit_mach, thread_exit_x64, syscall, trap, mbind, sys_bind, mret, sys_ret.
  destruct target; try reflexivity. cbn. eexists. split; reflexivity.
Qed.

Lemma thread_start_mapped {T} install (p : @Payload T) h v h' :
  thread_start_calls install p h = (v, h') →
  ∃ h1, (_ ← install (thread p); f p) h = (v, h1)
    ∧ if decide (target = Aarch64MacOS)
      then given_back (stack_base p) (payload_size p) (mapped h1) h' else mapped h' = mapped h1.
Proof.
  intros E. unfold thread_start_calls, mbind, sys_bind in *.
  destruct (install (thread p) h) as [u h0]. destruct (f p h0) as [v1 h1].
  pose proof (futex_wake_mapped (packet p) h1) as Hw. destruct (futex_wake (packet p) h1) as [u2 h2].
  pose proof (thread_exit_mapped (stack_base p) (payload_size p) h2) as Hx.
  destruct (thread_exit (stack_base p) (payload_size p) h2) as [u3 h3].
  unfold mret, sys_ret in E. injection E as <- <-. exists h1. split; [done|]. cbn [snd] in *. by rewrite Hw in Hx.
Qed.

Lemma mmap_mapped len prot h r h1 :
  sc_mmap_anon len prot h = (r, h1) →
  mapped h1 = match r with Ok p => {[+ (p, len) +]} ⊎ mapped h | Err _ => mapped h end.
Proof.
  intros E. unfold sc_mmap_anon, syscall, trap, mbind, sys_bind, mret, sys_ret in E.
  injection E as <- <-. reflexivity.
Qed.

Lemma munmap_mapped p len h : given_back p len (mapped h) (sc_munmap p len h).2.
Proof. eexists. split; reflexivity. Qed.

(** Giving back what was mapped last: nothing is left, unless the kernel refused. *)
Lemma given_back_new base size ms before h' :
  given_back base size before h' → before = {[+ (base, size) +]} ⊎ ms →
  ∃ e, head h' = Some e ∧ mapped h' = if refused e then {[+ (base, size) +]} ⊎ ms else ms.
Proof.
  intros (e & He & Hm) ->. exists e. split; [done|]. rewrite Hm. destruct (refused e); [done|multiset_solver].
Qed.

(** The thread is asked for with one call, on the stack it was given. *)
Lemma spawn_os_mach_spec entry arg top h r h1 :
  spawn_os_mach PORTS entry arg top h = (r, h1) →
  mapped h1 = mapped h ∧ ∃ e, head h1 = Some e ∧ started e = Some (wrap 64 top).
Proof.
  intros E. unfold spawn_os_mach, trap, mbind, sys_bind in E.
  destruct (ports PORTS h) as [[task reply] h0] eqn:Ep. unfold mret, sys_ret in E. injection E as <- <-. split.
  - transitivity (mapped h0); [reflexivity|]. unfold ports in Ep. destruct PORTS as [[]|]; by injection Ep as _ _ <-.
  - eexists. split; [reflexivity|]. cbn [started nr args fst].
    change (take 8 (drop 288 (req_bytes (create_req task reply entry arg top)))) with (to_le_bytes 8 top).
    by rewrite from_to_le_bytes.
Qed.

Lemma spawn_os_spec entry arg top h r h1 :
  spawn_os PORTS entry arg top h = (r, h1) →
  mapped h1 = mapped h
  ∧ (r = Ok tt → ∃ e, head h1 = Some e
      ∧ started e = Some (if decide (target = Aarch64MacOS) then wrap 64 top
                          else child_sp target top)).
Proof.
  intros E. unfold spawn_os in E. destruct (decide (target = Aarch64MacOS)) as [Et|Et].
  - rewrite Et in E. apply spawn_os_mach_spec in E as [? ?]. done.
  - unfold spawn_os_x64, spawn_os_linux, syscall, trap, mbind, sys_bind, mret, sys_ret in E.
    destruct target; try done; injection E as <- <-; (split; [reflexivity|]); intros Hr; try done;
      (eexists; split; [reflexivity|]); reflexivity.
Qed.

(** What [spawn] leaves behind. *)
Definition spawn_post (b : Builder) (next : Z) (h : Hist) (r : result Thread Error) (next' : Z)
    (h' : Hist) : Prop :=
  match r with
  | Err _ => mapped h' = mapped h
             ∨ ∃ base size e, head h' = Some e ∧ e.1 = mkTrap MUNMAP [W base; W size] ∧ refused e = true
                              ∧ mapped h' = {[+ (base, size) +]} ⊎ mapped h
  | Ok thread => ∃ base size e,
      mapped h' = {[+ (base, size) +]} ⊎ mapped h
      ∧ size = round_stack (default DEFAULT_STACK (stack_size b))
      ∧ thread = mkThread next (thread_name b) ∧ next' = wrap 64 (next + 1)
      ∧ head h' = Some e
      ∧ started e = Some (if decide (target = Aarch64MacOS) then wrap 64 (stack_top base size)
                          else child_sp target (stack_top base size))
  end.

Lemma spawn_spec b entry arg next h r next' h' :
  spawn PORTS b entry arg next h = ((r, next'), h') → spawn_post b next h r next' h'.
Proof.
  intros E. unfold spawn in E. destruct (decide (target = Wasm32Wasi)) as [Ew|Ew].
  { rewrite Ew in E. injection E as <- <- <-. by left. }
  assert (∀ A (x y : A), match target with Wasm32Wasi => x | _ => y end = y) as Hm
    by (intros; by destruct target).
  rewrite Hm in E. clear Hm. unfold mbind, sys_bind, mret, sys_ret in E.
  set (size := round_stack _) in E.
  destruct (sc_mmap_anon size (Z.lor PROT_READ PROT_WRITE) h) as [m h1] eqn:Em.
  apply mmap_mapped in Em. destruct m as [base|e]; [|injection E as <- <- <-; by left].
  cbn [thread_new next_id] in E.
  destruct (spawn_os PORTS entry arg (stack_top base size) h1) as [s h2] eqn:Es.
  apply spawn_os_spec in Es as [Hm Hs]. destruct s as [[]|[]].
  - injection E as <- <- <-. destruct Hs as (e & Hh & He); [done|]. exists base, size, e. split_and!; try done.
    by rewrite Hm, Em.
  - assert ((sc_munmap base size h2).2 = h') as <- by (destruct (sc_munmap base size h2); by injection E as _ _ <-).
    assert (r = Err (Custom Other "failed to spawn OS thread")) as ->
      by (destruct (sc_munmap base size h2); by injection E as <- _).
    destruct (given_back_new base size (mapped h) _ _ (munmap_mapped base size h2)) as (e & He & Hg);
      [by rewrite Hm, Em|]. cbn [spawn_post]. destruct (refused e) eqn:Hr; [right|by left].
    exists base, size, e. split_and!; [done| |done|done]. by injection He as <-.
Qed.

Lemma started_in_stack base size :
  0 ≤ base → 0 ≤ size → base + size < 2 ^ usize_bits target → base mod 16 = 0 → size mod 16 = 0 →
  base + size - 16 ≤ (if decide (target = Aarch64MacOS) then wrap 64 (stack_top base size)
                      else child_sp target (stack_top base size)) ≤ base + size.
Proof.
  intros Hb Hs Hw Hb16 Hs16. rewrite stack_top_spec by done.
  assert (child_top (base + size) = base + size) as Ht
    by (unfold child_top; rewrite Zplus_mod, Hb16, Hs16; apply Z.sub_0_r).
  destruct (decide _) as [E|E].
  - rewrite E in Hw. rewrite wrap_small by (change (usize_bits Aarch64MacOS) with 64 in Hw; lia). lia.
  - unfold child_sp. rewrite Ht. destruct target; lia.
Qed.

(** C19: spawning. Whatever the kernel answers, [Builder::spawn] leaves one new mapping when it
    returns a thread and none when it fails, unless the kernel refused to take the stack back; the mapping is the requested stack size rounded up to
    16 KiB, the last call asks for a thread on that stack (just below its
    end), and the new thread has the next identifier and the given name. When the new
    thread has run a closure that leaves the mappings alone, its stack is gone on arm64 macOS (unless, again, the kernel
    refused) and still mapped on every other target. *)
Theorem thread_spawn_correct b entry arg next h r next' h'
    (Hsize : 0 ≤ default DEFAULT_STACK (stack_size b) < 2 ^ usize_bits target - 0x3fff)
    (Hs : spawn PORTS b entry arg next h = ((r, next'), h')) :
  let want := default DEFAULT_STACK (stack_size b) in
  match r with
  | Err _ => mapped h' = mapped h
             ∨ ∃ base size e, head h' = Some e ∧ e.1 = mkTrap MUNMAP [W base; W size] ∧ refused e = true
                              ∧ mapped h' = {[+ (base, size) +]} ⊎ mapped h
  | Ok thread => ∃ base size e sp,
      mapped h' = {[+ (base, size) +]} ⊎ mapped h
      ∧ want ≤ size < want + 0x4000 ∧ size mod 0x4000 = 0
      ∧ thread = mkThread next (thread_name b) ∧ next' = wrap 64 (next + 1)
      ∧ head h' = Some e ∧ started e = Some sp
      ∧ (0 ≤ base → base mod 16 = 0 → base + size < 2 ^ usize_bits target →
         base + size - 16 ≤ sp ≤ base + size)
      ∧ (∀ T install (f : Sys T) packet v h1 h2,
         (_ ← install thread; f) h' = (v, h1) → mapped h1 = mapped h' →
         thread_start_calls install (mkPayload T f packet thread base size) h' = (v, h2) →
         if decide (target = Aarch64MacOS)
         then ∃ e, head h2 = Some e ∧ mapped h2 = if refused e then mapped h' else mapped h
         else mapped h2 = mapped h')
  end.
Proof.
  intros want. apply spawn_spec in Hs. destruct r as [thread|e]; [|exact Hs].
  destruct Hs as (base & size & e & Hm & -> & -> & -> & Hh & He).
  destruct (round_stack_spec want) as [Hr Hr']; [unfold want; lia..|].
  exists base, (round_stack want), e. eexists. split_and!; [done|lia|lia|done|done|done|done|exact He| |].
  - intros Hb Hb16 Hw. apply started_in_stack; try done; [lia|].
    apply Z.mod_divide in Hr'; [|done]. apply Z.mod_divide; [done|].
    destruct Hr' as [k ->]. exists (k * 0x400). lia.
  - intros T install f packet v h1 h2 E1 Hk (h3 & E2 & Hg)%thread_start_mapped. cbn in E2.
    rewrite E1 in E2. injection E2 as <-. rewrite Hk, Hm in Hg. rewrite Hm. case_decide; [|done].
    by eapply given_back_new.
Qed.
End spawning.

(** A kernel that maps at 0x10000 and starts threads. *)
Definition spawn_kernel (_ : Hist) (tr : Trap) : Reply :=
  match nr tr with
  | MMAP => mkReply 0x10000 0 false []
  | _ => mkReply 7 0 false []
  end.

(** Witness of C19. *)
Lemma thread_spawn_correct_witness :
  let M := Build_Machine X86_64Linux spawn_kernel in
  ∃ base size, @mapped M (@spawn M None builder_new 1 2 5 []).2 = {[+ (base, size) +]} ⊎ ∅
               ∧ DEFAULT_STACK ≤ size < DEFAULT_STACK + 0x4000.
Proof.
  intros M.
  destruct (@thread_spawn_correct M None builder_new 1 2 5 [] (Ok (mkThread 5 None)) 6
    (@spawn M None builder_new 1 2 5 []).2) as (base & size & _ & _ & Hm & Hsz & _).
  - split; vm_compute; congruence.
  - reflexivity.
  - exists base, size. split; [exact Hm|exact Hsz].
Defined.

(** * The lock around the Mach call ([lock] and [unlock] of the arm64 macOS backend)

    The reply port is shared, so one thread at a time may exchange a message. *)
Inductive CreatePc : Set :=
| CIdle
| CLock                 (* compare_exchange_weak(0, 1) in a loop *)
| CCall                 (* svc(MACH_MSG2_TRAP, ..) *)
| CUnlock.              (* store(0) *)

Record CreateSys := mkCreate { create_lock : Z; creators : list CreatePc }.

(** The weak exchange may fail although the word is 0. *)
Definition mach_lock (weak_fails : bool) (w : Z) : CreatePc * Z :=
  if decide (w = 0 ∧ weak_fails = false) then (CCall, 1) else (CLock, w).
Definition mach_unlock (w : Z) : CreatePc * Z := (CIdle, 0).

Definition create_op (weak_fails : bool) (p : CreatePc) (w : Z) : CreatePc * Z :=
  match p with
  | CIdle => (CLock, w)
  | CLock => mach_lock weak_fails w
  | CCall => (CUnlock, w)
  | CUnlock => mach_unlock w
  end.

Inductive create_step : CreateSys → CreateSys → Prop :=
| cr_step s i p b :
    creators s !! i = Some p →
    create_step s (let '(p', w) := create_op b p (create_lock s) in
                   mkCreate w (<[i := p']> (creators s))).

Definition in_section (p : CreatePc) : nat := match p with CCall | CUnlock => 1 | _ => 0 end.

Definition create_inv (s : CreateSys) : Prop :=
  create_lock s = Z.of_nat (sum_list_with in_section (creators s)) ∧ 0 ≤ create_lock s ≤ 1.

Lemma create_step_inv s s' : create_step s s' → create_inv s → create_inv s'.
Proof.
  intros Hstep [H1 H2]. destruct Hstep as [s i p b Hi].
  assert (∀ p', Z.of_nat (sum_list_with in_section (<[i := p']> (creators s)))
    = create_lock s + Z.of_nat (in_section p') - Z.of_nat (in_section p)) as Hsum.
  { intros p'. pose proof (sum_list_with_insert in_section (creators s) i p p' Hi). lia. }
  assert (p = CUnlock → create_lock s = 1) as Hu.
  { intros ->. assert (0 < sum_list_with in_section (creators s))%nat; [|lia].
    apply sum_pos. exists i, CUnlock. split; [done|cbn; lia]. }
  destruct p; cbn; unfold mach_lock; try case_decide; unfold create_inv; cbn; rewrite Hsum; cbn;
    try specialize (Hu eq_refl); lia.
Qed.

(** At most one thread is between [lock] and [unlock]. *)
Lemma create_exclusive n s i j p q :
  rtc create_step (mkCreate 0 (replicate n CIdle)) s →
  creators s !! i = Some p → creators s !! j = Some q →
  in_section p = 1%nat → in_section q = 1%nat → i = j.
Proof.
  intros Hs Hi Hj Hp Hq. assert (create_inv s) as [H1 H2].
  { cut (create_inv (mkCreate 0 (replicate n CIdle))); [induction Hs; eauto using create_step_inv|].
    split; cbn; [|lia]. clear. by induction n. }
  destruct (decide (i = j)) as [|Hne]; [done|].
  pose proof (sum_list_with_insert in_section (creators s) i p CIdle Hi) as Hi'.
  assert (0 < sum_list_with in_section (<[i := CIdle]> (creators s)))%nat; [|cbn in Hi'; lia].
  apply sum_pos. exists j, q. rewrite list_lookup_insert_ne by done. split; [done|lia].
Qed.
