(* ===== verification/Tls.v ===== *)
(** Thread-local storage (src/src/tls.rs) as a system of threads that share the registry.

    [LocalKey::with] locks the registry twice, to look the slot up and to insert a new
    one; between the two it runs the initialiser and boxes its value.  The lock is used through
    what Mutex shows of it: each locked access is one step.  The initialiser and the closure given to [with]
    are arbitrary code: either may call [with] again, on the same key or another one, so a thread has a stack of
    calls; the closure may access the value any number of times (the value is shared by reference, so a change is one of
    [Cell] or [RefCell]).  Values of all keys have one type here. *)
From S2P Require Import Prelude.
From stdpp Require Import gmap.
Open Scope Z_scope.

Section tls.
Context {V : Type}.

(** Where a call of [with] is. *)
Inductive Frame : Type :=
| Lookup (key : Z)        (* reg.lock().get(&(tid, key)).copied() *)
| Init (key : Z)          (* (self.init)(), and then Box::into_raw(Box::new(..)) *)
| Insert (key ptr : Z)    (* reg.lock().insert((tid, key), p) *)
| Use (key ptr : Z).      (* f(&*ptr) *)

(** What has happened: the initialiser of a key was started, its value was registered, the value was accessed
    (with what it was before and after). *)
Inductive TlsEvent : Type :=
| Began (tid key : Z)
| Made (tid key : Z) (v : V)
| Accessed (tid key : Z) (before after : V).

Record TlsSys := mkTls {
  registry : gmap (Z * Z) Z;
  heap : gmap Z V;
  pcs : list (list Frame);   (* the calls each thread is in, innermost first *)
  log : list TlsEvent;       (* newest first *)
}.

(** What the code in control does next. *)
Inductive Action : Type :=
| Call (key : Z)             (* key.with(..), by the thread itself, an initialiser or a closure *)
| Continue                   (* the next step of with *)
| Return (v : V)             (* the initialiser returns v *)
| Change (f : V → V)         (* the closure accesses the value *)
| Leave.                     (* the closure returns *)

(** [gettid] of each thread. *)
Context (tids : list Z).

Definition move (s : TlsSys) (i : nat) (st : list Frame) : TlsSys :=
  mkTls (registry s) (heap s) (<[i := st]> (pcs s)) (log s).

Definition note (e : TlsEvent) (s : TlsSys) : TlsSys := mkTls (registry s) (heap s) (pcs s) (e :: log s).

(** One step of thread [i] with id [tid]; [fresh] is the address the allocator would return. *)
Definition with_ (i : nat) (tid fresh : Z) (a : Action) (st : list Frame) (s : TlsSys) : option TlsSys :=
  match a, st with
  | Call key, ([] | Init _ :: _ | Use _ _ :: _) => Some (move s i (Lookup key :: st))
  | Continue, Lookup key :: st =>
      Some (match registry s !! (tid, key) with
            | Some ptr => move s i (Use key ptr :: st)
            | None => note (Began tid key) (move s i (Init key :: st))
            end)
  | Return v, Init key :: st =>
      Some (mkTls (registry s) (<[fresh := v]> (heap s)) (<[i := Insert key fresh :: st]> (pcs s)) (log s))
  | Continue, Insert key ptr :: st =>
      v ← heap s !! ptr;
      Some (mkTls (<[(tid, key) := ptr]> (registry s)) (heap s) (<[i := Use key ptr :: st]> (pcs s))
                  (Made tid key v :: log s))
  | Change f, Use key ptr :: _ =>
      v ← heap s !! ptr;
      Some (mkTls (registry s) (<[ptr := f v]> (heap s)) (pcs s) (Accessed tid key v (f v) :: log s))
  | Leave, Use _ _ :: st => Some (move s i st)
  | _, _ => None
  end.

Inductive tls_step : TlsSys → TlsSys → Prop :=
| tls_op s s' i tid st fresh a :
    pcs s !! i = Some st → tids !! i = Some tid → heap s !! fresh = None →
    with_ i tid fresh a st s = Some s' → tls_step s s'.

Definition tls_start : TlsSys := mkTls ∅ ∅ (replicate (length tids) []) [].

(** ** The value of a slot, from what has happened so far *)
Fixpoint value_of (tid key : Z) (l : list TlsEvent) : option V :=
  match l with
  | [] => None
  | Began _ _ :: l => value_of tid key l
  | Made t k v :: l | Accessed t k _ v :: l =>
      if decide (t = tid ∧ k = key) then Some v else value_of tid key l
  end.

(** Every access found the slot as the thread's last access of the key, or its initialiser, left it; and
    no initialiser was started for a slot that had a value. *)
Fixpoint consistent (l : list TlsEvent) : Prop :=
  match l with
  | [] => True
  | Began t k :: l => value_of t k l = None ∧ consistent l
  | Made _ _ _ :: l => consistent l
  | Accessed t k v _ :: l => value_of t k l = Some v ∧ consistent l
  end.

(** ** Invariant *)
Definition waiting (f : Frame) : Prop := match f with Init _ | Use _ _ => True | _ => False end.

Definition not_using (key : Z) (f : Frame) : Prop := ∀ ptr, f ≠ Use key ptr.

Fixpoint stack_ok (s : TlsSys) (tid : Z) (st : list Frame) : Prop :=
  match st with
  | [] => True
  | f :: st =>
      match f with
      | Lookup _ => True
      | Init key | Insert key _ => Forall (not_using key) st
      | Use key ptr => registry s !! (tid, key) = Some ptr
      end ∧ Forall waiting st ∧ stack_ok s tid st
  end.

(** A box that is about to be registered is nobody else's. *)
Definition unclaimed (s : TlsSys) (i : nat) (ptr : Z) : Prop :=
  is_Some (heap s !! ptr) ∧ (∀ x, registry s !! x ≠ Some ptr)
  ∧ (∀ j k st, pcs s !! j = Some (Insert k ptr :: st) → j = i).

Record tls_inv (s : TlsSys) : Prop := {
  ti_heap : ∀ tid key ptr, registry s !! (tid, key) = Some ptr →
              is_Some (heap s !! ptr) ∧ heap s !! ptr = value_of tid key (log s);
  ti_none : ∀ tid key, registry s !! (tid, key) = None → value_of tid key (log s) = None;
  ti_inj : ∀ x y ptr, registry s !! x = Some ptr → registry s !! y = Some ptr → x = y;
  ti_new : ∀ i key ptr st, pcs s !! i = Some (Insert key ptr :: st) → unclaimed s i ptr;
  ti_stack : ∀ i tid st, tids !! i = Some tid → pcs s !! i = Some st → stack_ok s tid st;
  ti_log : consistent (log s);
}.

Context (Htids : NoDup tids).

Lemma stack_ok_registry s s' tid st :
  (∀ key ptr, Use key ptr ∈ st → registry s !! (tid, key) = Some ptr → registry s' !! (tid, key) = Some ptr) →
  stack_ok s tid st → stack_ok s' tid st.
Proof.
  induction st as [|f st IH]; [done|]. intros Hr (Hf & Hw & Hst). cbn. split_and!; [|done|].
  - destruct f; try done. apply Hr; [by left|done].
  - apply IH; [|done]. intros key ptr Hin. apply Hr. by right.
Qed.

Lemma using_registered s tid st key :
  stack_ok s tid st → registry s !! (tid, key) = None → Forall (not_using key) st.
Proof.
  induction st as [|f st IH]; [constructor|]. intros (Hf & _ & Hst) Hn. constructor; [|by apply IH].
  intros ptr ->. congruence.
Qed.

(** A thread's stack changes without boxing or registering. *)
Lemma tls_move_inv s i tid st st' :
  tls_inv s → pcs s !! i = Some st → tids !! i = Some tid →
  (∀ key ptr rest, st' ≠ Insert key ptr :: rest) → stack_ok s tid st' → tls_inv (move s i st').
Proof.
  intros [H1 H2 H3 H4 H5 H6] Hi Ht Hno Hok. constructor; try done; cbn.
  - intros j key ptr rest [[-> E]|[_ E]]%(lookup_upd _ i st); [by destruct (Hno key ptr rest)| |done].
    destruct (H4 _ _ _ _ E) as (Ha & Hb & Hc). split_and!; [done..|].
    intros j' k' st1 [[-> E']|[_ E']]%(lookup_upd _ i st); [by destruct (Hno k' ptr st1)|eauto|done].
  - intros j tj q Hj [[-> ->]|[_ Hq]]%(lookup_upd _ i st); [|by apply (stack_ok_registry s), (H5 j)|done].
    simplify_eq. by apply (stack_ok_registry s).
Qed.

Lemma note_began_inv s tid key :
  tls_inv s → registry s !! (tid, key) = None → tls_inv (note (Began tid key) s).
Proof.
  intros [H1 H2 H3 H4 H5 H6] Hn. constructor; try done.
  - intros j tj q Hj Hq. apply (stack_ok_registry s); [done|by apply (H5 j)].
  - cbn. split; [by apply H2|done].
Qed.

Lemma tls_box_inv s i tid key st fresh v :
  tls_inv s → tids !! i = Some tid → pcs s !! i = Some (Init key :: st) → heap s !! fresh = None →
  tls_inv (mkTls (registry s) (<[fresh := v]> (heap s)) (<[i := Insert key fresh :: st]> (pcs s)) (log s)).
Proof.
  intros [H1 H2 H3 H4 H5 H6] Ht Hi Hf.
  assert (∀ x ptr, registry s !! x = Some ptr → ptr ≠ fresh) as Hne.
  { intros [t k] ptr Hp ->. destruct (H1 t k fresh Hp) as [Hs _]. rewrite Hf in Hs. by destruct Hs. }
  constructor; cbn.
  - intros t k ptr Hp. rewrite lookup_insert_ne by (symmetry; by eapply Hne). by apply H1.
  - done.
  - done.
  - intros j k ptr st1 [[-> E]|[Hj E]]%(lookup_upd _ i (Init key :: st)); [| |done].
    + injection E as -> -> ->. split_and!; cbn.
      * rewrite lookup_insert_eq. done.
      * intros x Hx. by apply (Hne x fresh).
      * intros j' k' st2 [[-> _]|[_ E']]%(lookup_upd _ i (Init key :: st)); [done| |done].
        destruct (H4 _ _ _ _ E') as ([y Hy] & _). congruence.
    + destruct (H4 _ _ _ _ E) as (Ha & Hb & Hc). assert (ptr ≠ fresh) by (intros ->; rewrite Hf in Ha; by destruct Ha).
      split_and!; cbn; [by rewrite lookup_insert_ne|done|].
      intros j' k' st2 [[-> E']|[_ E']]%(lookup_upd _ i (Init key :: st)); [by simplify_eq|eauto|done].
  - intros j tj q Hj [[-> ->]|[_ Hq]]%(lookup_upd _ i (Init key :: st)); [| |done].
    + simplify_eq. apply (stack_ok_registry s); [done|]. apply (H5 i tid (Init key :: st) Ht Hi).
    + apply (stack_ok_registry s); [done|by apply (H5 j)].
  - done.
Qed.

Lemma tls_insert_inv s i tid key ptr0 st v :
  tls_inv s → tids !! i = Some tid → pcs s !! i = Some (Insert key ptr0 :: st) → heap s !! ptr0 = Some v →
  tls_inv (mkTls (<[(tid, key) := ptr0]> (registry s)) (heap s) (<[i := Use key ptr0 :: st]> (pcs s))
                 (Made tid key v :: log s)).
Proof.
  intros [H1 H2 H3 H4 H5 H6] Ht Hi Hv. destruct (H4 _ _ _ _ Hi) as (_ & Hun & Hown).
  constructor; cbn.
  - intros t k ptr. destruct (decide ((tid, key) = (t, k))) as [E|E].
    + injection E as <- <-. rewrite lookup_insert_eq, decide_True by done. intros [= <-]. by rewrite Hv.
    + rewrite lookup_insert_ne by done. rewrite decide_False by naive_solver. apply H1.
  - intros t k. destruct (decide ((tid, key) = (t, k))) as [E|E].
    + injection E as <- <-. by rewrite lookup_insert_eq.
    + rewrite lookup_insert_ne by done. rewrite decide_False by naive_solver. apply H2.
  - intros x y ptr [[<- <-]|[Nx Hx]]%lookup_insert_Some [[<- E]|[Ny Hy]]%lookup_insert_Some; [done| | |].
    + by destruct (Hun y).
    + subst. by destruct (Hun x).
    + by eapply H3.
  - intros j k ptr st1 [[_ E]|[Hj E]]%(lookup_upd _ i (Insert key ptr0 :: st)); [done| |done].
    destruct (H4 _ _ _ _ E) as (Ha & Hb & Hc). split_and!; cbn; [done| |].
    + intros x [[<- ->]|[_ Hx]]%lookup_insert_Some; [|by apply (Hb x)]. apply Hj. symmetry. by eapply Hc.
    + intros j' k' st2 [[_ E']|[_ E']]%(lookup_upd _ i (Insert key ptr0 :: st)); [done|eauto|done].
  - intros j tj q Hj [[-> ->]|[Hne Hq]]%(lookup_upd _ i (Insert key ptr0 :: st)); [| |done].
    + simplify_eq. destruct (H5 i tid _ Ht Hi) as (Hnu & Hw & Hst). cbn. split_and!; [apply lookup_insert_eq|done|].
      apply (stack_ok_registry s); [|done]. intros k ptr Hin Hr. cbn. rewrite lookup_insert_ne; [done|].
      intros [= ->]. rewrite Forall_forall in Hnu. by destruct (Hnu _ Hin ptr).
    + apply (stack_ok_registry s); [|by apply (H5 j)]. intros k ptr _ Hr. cbn. rewrite lookup_insert_ne; [done|].
      intros [= ->]. apply Hne. by eapply NoDup_lookup.
  - done.
Qed.

Lemma tls_change_inv s i tid key ptr0 st v w :
  tls_inv s → tids !! i = Some tid → pcs s !! i = Some (Use key ptr0 :: st) → heap s !! ptr0 = Some v →
  tls_inv (mkTls (registry s) (<[ptr0 := w]> (heap s)) (pcs s) (Accessed tid key v w :: log s)).
Proof.
  intros [H1 H2 H3 H4 H5 H6] Ht Hi Hv. destruct (H5 i tid _ Ht Hi) as (Hreg & _). constructor; cbn.
  - intros t k ptr Hp. destruct (decide ((tid, key) = (t, k))) as [E|E].
    + injection E as <- <-. assert (ptr0 = ptr) as <- by congruence.
      by rewrite lookup_insert_eq, decide_True.
    + assert (ptr0 ≠ ptr) by (intros <-; apply E; by eapply H3).
      rewrite lookup_insert_ne by done. rewrite decide_False by naive_solver. by apply H1.
  - intros t k Hn. rewrite decide_False; [by apply H2|]. intros [<- <-]. congruence.
  - done.
  - intros j k ptr st1 E. destruct (H4 _ _ _ _ E) as (Ha & Hb & Hc). split_and!; cbn; [|done|done].
    destruct (decide (ptr0 = ptr)) as [<-|]; [rewrite lookup_insert_eq; done|by rewrite lookup_insert_ne].
  - intros j tj q Hj Hq. apply (stack_ok_registry s); [done|by apply (H5 j)].
  - split; [|done]. rewrite <-Hv. symmetry. by apply H1.
Qed.

Lemma tls_step_inv s s' : tls_step s s' → tls_inv s → tls_inv s'.
Proof.
  intros [s0 s1 i tid st fresh a Hi Ht Hf Hop] Hinv. pose proof (ti_stack s0 Hinv i tid st Ht Hi) as Hok.
  assert (∀ key, Forall waiting st → stack_ok s0 tid (Lookup key :: st)) as Hcall by (intros; by split_and!).
  destruct a as [key| |v|f|], st as [|[key'|key'|key' ptr|key' ptr] st]; try done; cbn [with_] in Hop.
  - simplify_eq. by eapply tls_move_inv; [..|apply Hcall; constructor].
  - simplify_eq. eapply tls_move_inv; [done..|]. apply Hcall. constructor; [done|apply Hok].
  - simplify_eq. eapply tls_move_inv; [done..|]. apply Hcall. constructor; [done|apply Hok].
  - destruct Hok as (_ & Hw & Hst). destruct (registry s0 !! (tid, key')) as [ptr|] eqn:Hr; simplify_eq.
    + by eapply tls_move_inv; [..|split_and!].
    + apply note_began_inv; [|done]. eapply tls_move_inv; [done..|]. split_and!; [|done|done].
      by eapply using_registered.
  - destruct (heap s0 !! ptr) as [v|] eqn:Hv; cbn in Hop; simplify_eq. by eapply tls_insert_inv.
  - simplify_eq. by eapply tls_box_inv.
  - destruct (heap s0 !! ptr) as [v|] eqn:Hv; cbn in Hop; simplify_eq. by eapply tls_change_inv.
  - simplify_eq. destruct Hok as (_ & Hw & Hst). eapply tls_move_inv; [done..| |done].
    intros k p rest ->. by apply Forall_cons in Hw as [? _].
Qed.

Lemma tls_reachable s : rtc tls_step tls_start s → tls_inv s.
Proof.
  revert s. apply rtc_ind_r; [|intros x y _ Hxy; by apply tls_step_inv].
  constructor; cbn; try done.
  - by intros i key ptr st [? _]%lookup_replicate.
  - by intros i tid p _ [-> _]%lookup_replicate.
Qed.

(** C20: thread-local storage, for threads whose kernel ids differ and are not used again. However the threads interleave
    and however deep initialisers and closures call [with] again, every access of a thread to a
    key finds what that thread's previous access of the key left, or what its initialiser returned the first time,
    so no thread sees another one's; an initialiser is never started once the thread has a value; every value a call is
    using, at any depth, exists and is the thread's current one; and two slots never share a box. *)
Theorem tls_correct s (Hs : rtc tls_step tls_start s) :
  consistent (log s)
  ∧ (∀ i tid st key ptr, tids !! i = Some tid → pcs s !! i = Some st → Use key ptr ∈ st →
       ∃ v, heap s !! ptr = Some v ∧ value_of tid key (log s) = Some v)
  ∧ (∀ x y ptr, registry s !! x = Some ptr → registry s !! y = Some ptr → x = y).
Proof.
  destruct (tls_reachable s Hs) as [H1 _ H3 _ H5 H6]. split_and!; [done| |done].
  intros i tid st key ptr Ht Hi Hu. specialize (H5 i tid st Ht Hi).
  enough (registry s !! (tid, key) = Some ptr) as Hr by (destruct (H1 _ _ _ Hr) as [[v Hv] E]; exists v; by rewrite <-E).
  clear Hi. induction st as [|f st IH]; [by apply not_elem_of_nil in Hu|]. destruct H5 as (Hf & _ & Hst).
  apply elem_of_cons in Hu as [<-|Hu]; [done|by apply IH].
Qed.
End tls.
Arguments Frame : clear implicits.
Arguments Action : clear implicits.
Arguments TlsEvent : clear implicits.
Arguments TlsSys : clear implicits.

(** ** Two threads increment a counter that starts at 0 *)
Ltac act i tid p a := advance ltac:(eapply (tls_op _ _ _ i tid _ p a); cbn; reflexivity).

Ltac first_use i tid p q key :=
  act i tid p (@Call Z key); act i tid p (@Continue Z); act i tid p (Return 0); act i tid q (@Continue Z).

Lemma sample_tls :
  ∃ s, rtc (tls_step [11; 12]) (tls_start [11; 12]) s
       ∧ log s = [Accessed 11 1 1 2; Accessed 12 1 0 1; Made 12 1 0; Began 12 1; Accessed 11 1 0 1; Made 11 1 0; Began 11 1].
Proof.
  eexists. split.
  - first_use 0%nat 11 100 101 1. act 0%nat 11 102 (Change Z.succ).
    first_use 1%nat 12 200 201 1. act 1%nat 12 202 (Change Z.succ).
    act 0%nat 11 102 (@Call Z 1). act 0%nat 11 102 (@Continue Z). act 0%nat 11 102 (Change Z.succ). apply rtc_refl.
  - reflexivity.
Qed.

(** Witness of C20: the second access of the first thread is inside the closure of the first. *)
Lemma tls_correct_witness :
  consistent [Accessed 11 1 1 2; Accessed 12 1 0 1; Made 12 1 0; Began 12 1; Accessed 11 1 0 1; Made 11 1 0; Began 11 1].
Proof.
  destruct sample_tls as (s & Hs & <-).
  apply (tls_correct [11; 12]); [|exact Hs]. by apply (bool_decide_unpack (NoDup [11; 12])).
Defined.

(** Slots are keyed by the kernel's thread id and never removed: when the kernel gives the id of an
    ended thread to a new one, the new thread finds the old one's value instead of the initial one. *)
Lemma tls_recycled :
  ∃ s, rtc (tls_step [11; 11]) (tls_start [11; 11]) s
       ∧ log s = [Accessed 11 1 1 2; Accessed 11 1 0 1; Made 11 1 0; Began 11 1].
Proof.
  eexists. split.
  - first_use 0%nat 11 100 101 1. act 0%nat 11 102 (Change Z.succ). act 0%nat 11 102 (@Leave Z).
    act 1%nat 11 102 (@Call Z 1). act 1%nat 11 102 (@Continue Z). act 1%nat 11 102 (Change Z.succ). apply rtc_refl.
  - reflexivity.
Qed.

(** An initialiser that uses its own key makes the value twice: the inner one is used and then replaced. *)
Lemma tls_reentrant :
  ∃ s, rtc (tls_step [11]) (tls_start [11]) s
       ∧ log s = [Made 11 1 7; Accessed 11 1 0 1; Made 11 1 0; Began 11 1; Began 11 1].
Proof.
  eexists. split.
  - act 0%nat 11 100 (@Call Z 1). act 0%nat 11 100 (@Continue Z).
    first_use 0%nat 11 100 101 1. act 0%nat 11 102 (Change Z.succ). act 0%nat 11 102 (@Leave Z).
    act 0%nat 11 102 (Return 7). act 0%nat 11 103 (@Continue Z). apply rtc_refl.
  - reflexivity.
Qed.
