(* ===== verification/Wasi.v ===== *)
(** The WASI backend (src/src/syscall_wasi.rs, src/src/arch/wasi.rs, and [init_wasm] of
    src/src/env.rs): the host's functions are an interface, the wrappers are
    translated from the source.

    A host function returns its error number, 0 for success; data it stores
    through a pointer is part of its answer. *)
From S2P Require Import Prelude Str Io Env.
From stdpp Require Import list.
Open Scope Z_scope.

(** The imports of [wasi_snapshot_preview1] that the wrappers use, on a state [κ] of
    the host. *)
Class WasiHost (κ : Type) := {
  fd_read : κ → Z → nat → (Z * list Z) * κ;      (* one buffer of that length *)
  fd_write : κ → Z → list Z → (Z * Z) * κ;       (* one buffer *)
  fd_close : κ → Z → Z * κ;
  random_get : κ → nat → (Z * list Z) * κ;
  clock_time_get : κ → Z → Z → (Z * Z) * κ;
  environ_sizes_get : κ → (Z * (Z * Z)) * κ;
  environ_get : κ → (Z * list (list Z)) * κ;
}.

(** ** src/src/arch/wasi.rs *)
Definition EIO : Z := 5.
Definition EBADF : Z := 9.
Definition EACCES : Z := 13.
Definition EEXIST : Z := 17.
Definition EINVAL : Z := 22.
Definition ENOSYS : Z := 38.
Definition ENOENT : Z := 2.

Definition wasi_to_linux (e : Z) : Z :=
  match e with
  | 0 => 0
  | 2 => EACCES
  | 8 => EBADF
  | 20 => EEXIST
  | 28 => EINVAL
  | 44 => ENOENT
  | 52 => ENOSYS
  | _ => EIO
  end.

Definition check (e : Z) : result unit Z :=
  if decide (e = 0) then Ok tt else Err (wasi_to_linux e).

Section wrappers.
Context {κ : Type} `{WasiHost κ}.

Definition write (k : κ) (fd : Z) (buf : list Z) : result Z Z * κ :=
  let '((e, n), k) := fd_write k (wrap 32 fd) buf in (map_ok (λ _, n) (check e), k).

Definition read (k : κ) (fd : Z) (len : nat) : result (list Z) Z * κ :=
  let '((e, d), k) := fd_read k (wrap 32 fd) len in (map_ok (λ _, d) (check e), k).

Definition close (k : κ) (fd : Z) : result unit Z * κ :=
  let '(e, k) := fd_close k (wrap 32 fd) in (check e, k).

Definition getrandom (k : κ) (len : nat) : result (list Z) Z * κ :=
  let '((e, d), k) := random_get k len in (map_ok (λ _, d) (check e), k).

(** The error of [clock_time_get] is ignored: the time is then the 0 it was set to. *)
Definition clock (k : κ) (clock_id : Z) : (Z * Z) * κ :=
  let '((e, t), k) := clock_time_get k clock_id 1000 in
  let t := if decide (e = 0) then t else 0 in
  ((t / 1000000000, t mod 1000000000), k).

(** ** src/src/syscall_wasi.rs *)
Definition CLOCKID_REALTIME : Z := 0.
Definition CLOCKID_MONOTONIC : Z := 1.

(** [readv]: one read per buffer until one comes back short. *)
Fixpoint readv (k : κ) (fd : Z) (lens : list nat) (got : list Z) : result (list Z) Z * κ :=
  match lens with
  | [] => (Ok got, k)
  | len :: lens =>
      let '(r, k) := read k fd len in
      match r with
      | Ok d =>
          if decide (length d = 0%nat) then (Ok got, k)
          else if decide (length d < len)%nat then (Ok (got ++ d), k)
          else readv k fd lens (got ++ d)
      | Err e => (Err e, k)
      end
  end.

Fixpoint writev (k : κ) (fd : Z) (bufs : list (list Z)) (total : Z) : result Z Z * κ :=
  match bufs with
  | [] => (Ok total, k)
  | b :: bufs =>
      let '(r, k) := write k fd b in
      match r with
      | Ok n =>
          if decide (n < Z.of_nat (length b)) then (Ok (total + n), k)
          else writev k fd bufs (total + n)
      | Err e => (Err e, k)
      end
  end.

Definition monotonic (k : κ) : (Z * Z) * κ := clock k CLOCKID_MONOTONIC.

Definition gettimeofday (k : κ) : result (Z * Z) Z * κ :=
  let '((s, n), k) := clock k CLOCKID_REALTIME in (Ok (s, n / 1000), k).

(** ** The calls that are not wired *)
(** A call with a buffer leaves it as it is. *)
Definition wasi_mmap_anon (len prot : Z) : result Z Z := Err ENOSYS.
Definition wasi_open (path : str) (flags mode : Z) : result Z Z := Err ENOSYS.
Definition wasi_getcwd (buf : list Z) : result Z Z * list Z := (Err ENOSYS, buf).
Definition wasi_chdir (path : str) : result unit Z := Err ENOSYS.
Definition wasi_lseek (fd offset whence : Z) : result Z Z := Err ENOSYS.
Definition wasi_ftruncate (fd len : Z) : result unit Z := Err ENOSYS.
Definition wasi_fsync (fd : Z) : result unit Z := Err ENOSYS.
Definition wasi_dup (fd : Z) : result Z Z := Err ENOSYS.
Definition wasi_statat (path : str) (follow : bool) : result (list Z) Z := Err ENOSYS.
Definition wasi_fstat (fd : Z) : result (list Z) Z := Err ENOSYS.
Definition wasi_rename (old new : str) : result unit Z := Err ENOSYS.
Definition wasi_rmdir (path : str) : result unit Z := Err ENOSYS.
Definition wasi_getdirentries (fd : Z) (buf : list Z) : result Z Z * list Z := (Err ENOSYS, buf).
Definition wasi_unlink (path : str) : result unit Z := Err ENOSYS.
Definition wasi_mkdir (path : str) (mode : Z) : result unit Z := Err ENOSYS.
Definition wasi_socket (domain ty protocol : Z) : result Z Z := Err ENOSYS.
Definition wasi_connect (fd : Z) (addr : list Z) (addrlen : Z) : result unit Z := Err ENOSYS.
Definition wasi_bind (fd : Z) (addr : list Z) (addrlen : Z) : result unit Z := Err ENOSYS.
Definition wasi_listen (fd backlog : Z) : result unit Z := Err ENOSYS.
Definition wasi_accept (fd : Z) (addr : option (list Z)) : result Z Z * option (list Z) := (Err ENOSYS, addr).
Definition wasi_sendto (fd : Z) (buf : list Z) (flags : Z) (addr : option (list Z)) (addrlen : Z) : result Z Z := Err ENOSYS.
Definition wasi_recvfrom (fd : Z) (buf : list Z) (flags : Z) (addr : option (list Z)) : result Z Z * list Z * option (list Z) := (Err ENOSYS, buf, addr).
Definition wasi_setsockopt (fd level name : Z) (val : list Z) (len : Z) : result unit Z := Err ENOSYS.
Definition wasi_getsockname (fd : Z) (addr : list Z) : result unit Z * list Z := (Err ENOSYS, addr).
Definition wasi_getpeername (fd : Z) (addr : list Z) : result unit Z * list Z := (Err ENOSYS, addr).
Definition wasi_shutdown (fd how : Z) : result unit Z := Err ENOSYS.
Definition wasi_fork : result Z Z := Err ENOSYS.
Definition wasi_execve (path : str) (argv envp : list str) : Z := ENOSYS.
Definition wasi_wait4 (pid status options : Z) : result Z Z * Z := (Err ENOSYS, status).
Definition wasi_pipe : result (Z * Z) Z := Err ENOSYS.
Definition wasi_dup2 (old new : Z) : result unit Z := Err ENOSYS.
Definition wasi_fcntl (fd cmd arg : Z) : result Z Z := Err ENOSYS.

Definition munmap (addr len : Z) : result unit Z := Ok tt.
Definition getpid : Z := 1.
Definition gettid : Z := 0.
Definition num_cpus : Z := 1.

(** [env::init_wasm]: the environment is fetched into buffers that are never freed. *)
Definition init_wasm (argc : Z) (argv : list (option (list Z))) (k : κ) (e : Env) : Env * κ :=
  let e := mkEnv argc (Some argv) (env_envp e) (env_map e) in
  let '((err, (count, _)), k) := environ_sizes_get k in
  if decide (err = 0 ∧ 0 < count) then
    let '((err, strings), k) := environ_get k in
    if decide (err = 0)
    then (mkEnv argc (Some argv) (Some (take (Z.to_nat count) strings)) (env_map e), k)
    else (e, k)
  else (e, k).

(** The descriptor calls behind [io::Fd] on this target. *)
#[export] Instance wasi_fd_calls : FdCalls κ := {
  sys_read := read;
  sys_readv k fd lens := readv k fd lens [];
  sys_write := write;
  sys_writev k fd bufs := writev k fd bufs 0;
  sys_lseek k fd off whence := (wasi_lseek fd off whence, k);
}.
End wrappers.

(** ** A host whose descriptors are byte streams *)
Class WasiStreams (κ : Type) `{WasiHost κ} := {
  rest : κ → Z → list Z;       (* input not read yet *)
  sunk : κ → Z → list Z;       (* output taken so far *)
  read_law : ∀ k fd n e d k', fd_read k fd n = ((e, d), k') →
    if decide (e = 0) then (length d ≤ n)%nat ∧ rest k fd = d ++ rest k' fd
    else rest k' fd = rest k fd;
  write_law : ∀ k fd b e n k', fd_write k fd b = ((e, n), k') →
    if decide (e = 0) then 0 ≤ n ≤ Z.of_nat (length b) ∧ sunk k' fd = sunk k fd ++ take (Z.to_nat n) b
    else sunk k' fd = sunk k fd;
}.

Section streams.
Context {κ : Type} `{WasiStreams κ}.

(** The host filled each of the buffers, in order. *)
Inductive filled (fd : Z) : κ → list nat → list Z → κ → Prop :=
| filled_nil k : filled fd k [] [] k
| filled_cons k n lens d k1 data k2 :
    fd_read k fd n = ((0, d), k1) → (0 < n)%nat → length d = n →
    filled fd k1 lens data k2 → filled fd k (n :: lens) (d ++ data) k2.

(** The host took each of the buffers whole, in order. *)
Inductive sent (fd : Z) : κ → list (list Z) → κ → Prop :=
| sent_nil k : sent fd k [] k
| sent_cons k b bufs k1 k2 :
    fd_write k fd b = ((0, Z.of_nat (length b)), k1) → sent fd k1 bufs k2 → sent fd k (b :: bufs) k2.

(** A pass over the buffers: [full] were filled with [data], and then it stopped for a reason. *)
Definition read_pass (fd : Z) (k : κ) (lens : list nat) (r : result (list Z) Z) (k' : κ) : Prop :=
  ∃ full more data k1, lens = full ++ more ∧ filled fd k full data k1 ∧
    match r with
    | Ok got =>
        more = [] ∧ got = data ∧ k' = k1
        ∨ ∃ n more' d, more = n :: more' ∧ fd_read k1 fd n = ((0, d), k')
                       ∧ (d = [] ∨ (length d < n)%nat) ∧ got = data ++ d
    | Err e =>
        ∃ n more' c d, more = n :: more' ∧ fd_read k1 fd n = ((c, d), k') ∧ c ≠ 0 ∧ e = wasi_to_linux c
                       ∧ rest k fd = data ++ rest k' fd
    end.

Definition write_pass (fd : Z) (k : κ) (bufs : list (list Z)) (r : result Z Z) (k' : κ) : Prop :=
  ∃ full more k1, bufs = full ++ more ∧ sent fd k full k1 ∧
    match r with
    | Ok m =>
        more = [] ∧ m = Z.of_nat (length (concat full)) ∧ k' = k1
        ∨ ∃ b more' n, more = b :: more' ∧ fd_write k1 fd b = ((0, n), k')
                       ∧ n < Z.of_nat (length b) ∧ m = Z.of_nat (length (concat full)) + n
    | Err e =>
        ∃ b more' c n, more = b :: more' ∧ fd_write k1 fd b = ((c, n), k') ∧ c ≠ 0 ∧ e = wasi_to_linux c
                       ∧ sunk k' fd = sunk k fd ++ concat full
    end.

Lemma filled_rest fd k lens data k' : filled fd k lens data k' → rest k fd = data ++ rest k' fd.
Proof.
  induction 1 as [k|k n lens d k1 data k2 Hr Hn Hd _ IH]; [done|].
  apply read_law in Hr as [_ ->]. by rewrite IH, app_assoc.
Qed.

Lemma filled_sum fd k lens data k' : filled fd k lens data k' → length data = sum_list lens.
Proof. induction 1 as [|???????? ? Hd ? IH]; [done|]. rewrite length_app, Hd, IH. done. Qed.

Lemma sent_sunk fd k bufs k' : sent fd k bufs k' → sunk k' fd = sunk k fd ++ concat bufs.
Proof.
  induction 1 as [k|k b bufs k1 k2 Hw _ IH]; cbn [concat]; [by rewrite app_nil_r|].
  apply write_law in Hw as [_ Hw]. rewrite IH, Hw, Nat2Z.id, firstn_all. by rewrite app_assoc.
Qed.

(** One more buffer in front of a pass. *)
Lemma read_pass_cons fd k n lens d k1 r k' :
  fd_read k fd n = ((0, d), k1) → (0 < n)%nat → length d = n → read_pass fd k1 lens r k' →
  read_pass fd k (n :: lens) (map_ok (app d) r) k'.
Proof.
  intros Hr Hn Hd (full & more & data & k2 & -> & Hf & Hs). exists (n :: full), more, (d ++ data), k2.
  split; [done|]. split; [by econstructor|]. destruct r as [got|e]; cbn.
  - destruct Hs as [(-> & -> & ->)|(m & more' & x & -> & Hx & Hm & ->)]; [by left|right].
    exists m, more', x. by rewrite app_assoc.
  - destruct Hs as (m & more' & c & x & -> & Hx & Hc & -> & Hrest). exists m, more', c, x.
    split_and!; [done..|]. apply read_law in Hr as [_ ->]. by rewrite Hrest, app_assoc.
Qed.

Lemma write_pass_cons fd k b bufs k1 r k' :
  fd_write k fd b = ((0, Z.of_nat (length b)), k1) → write_pass fd k1 bufs r k' →
  write_pass fd k (b :: bufs) (map_ok (Z.add (Z.of_nat (length b))) r) k'.
Proof.
  intros Hw (full & more & k2 & -> & Hf & Hs). exists (b :: full), more, k2.
  split; [done|]. split; [by econstructor|]. cbn [concat]. rewrite length_app. destruct r as [m|e]; cbn.
  - destruct Hs as [(-> & -> & ->)|(b' & more' & n & -> & Hn & Hlt & ->)]; [left|right].
    + split_and!; [done|lia|done].
    + exists b', more', n. split_and!; [done..|lia].
  - destruct Hs as (b' & more' & c & n & -> & Hn & Hc & -> & Hsunk). exists b', more', c, n.
    split_and!; [done..|]. apply write_law in Hw as [_ Hw].
    by rewrite Hsunk, Hw, Nat2Z.id, firstn_all, app_assoc.
Qed.

Lemma read_host k fd n :
  read k fd n = (let '((e, d), k') := fd_read k (wrap 32 fd) n in
                 ((if decide (e = 0) then Ok d else Err (wasi_to_linux e)), k')).
Proof. unfold read, check. destruct (fd_read _ _ _) as [[e d] k']. by destruct (decide (e = 0)). Qed.

Lemma write_host k fd b :
  write k fd b = (let '((e, n), k') := fd_write k (wrap 32 fd) b in
                  ((if decide (e = 0) then Ok n else Err (wasi_to_linux e)), k')).
Proof. unfold write, check. destruct (fd_write _ _ _) as [[e n] k']. by destruct (decide (e = 0)). Qed.

Lemma readv_pass lens : ∀ k fd got r k',
  readv k fd lens got = (r, k') → ∃ r0, r = map_ok (app got) r0 ∧ read_pass (wrap 32 fd) k lens r0 k'.
Proof.
  induction lens as [|n lens IH]; intros k fd got r k' E; cbn [readv] in E.
  { injection E as <- <-. exists (Ok []). cbn. rewrite app_nil_r. split; [done|].
    exists [], [], [], k. split_and!; [done|constructor|by left]. }
  rewrite read_host in E. destruct (fd_read k (wrap 32 fd) n) as [[c d] k1] eqn:Er.
  pose proof (read_law _ _ _ _ _ _ Er) as Hl. destruct (decide (c = 0)) as [->|Hc].
  2:{ injection E as <- <-. exists (Err (wasi_to_linux c)). split; [done|]. exists [], (n :: lens), [], k.
      split_and!; [done|constructor|]. exists n, lens, c, d. by split_and!. }
  destruct Hl as [Hd _].
  assert (∀ x, x = got ++ d → (d = [] ∨ (length d < n)%nat) → (Ok x, k1) = (r, k') →
    ∃ r0, r = map_ok (app got) r0 ∧ read_pass (wrap 32 fd) k (n :: lens) r0 k') as Hstop.
  { intros x -> Hs [= <- <-]. exists (Ok d). split; [done|]. exists [], (n :: lens), [], k.
    split_and!; [done|constructor|]. right. exists n, lens, d. by split_and!. }
  destruct (decide (length d = 0%nat)) as [Hz|Hz].
  { apply nil_length_inv in Hz as ->. apply (Hstop got); [by rewrite app_nil_r|by left|done]. }
  destruct (decide (length d < n)%nat) as [Hs|Hs]; [apply (Hstop (got ++ d)); [done|by right|done]|].
  apply IH in E as (r0 & -> & Hp). exists (map_ok (app d) r0). split.
  - destruct r0; cbn; [by rewrite <-app_assoc|done].
  - eapply read_pass_cons; [exact Er|lia|lia|done].
Qed.

Lemma writev_pass bufs : ∀ k fd total r k',
  writev k fd bufs total = (r, k') → ∃ r0, r = map_ok (Z.add total) r0 ∧ write_pass (wrap 32 fd) k bufs r0 k'.
Proof.
  induction bufs as [|b bufs IH]; intros k fd total r k' E; cbn [writev] in E.
  { injection E as <- <-. exists (Ok 0). cbn. rewrite Z.add_0_r. split; [done|].
    exists [], [], k. split_and!; [done|constructor|by left]. }
  rewrite write_host in E. destruct (fd_write k (wrap 32 fd) b) as [[c n] k1] eqn:Ew.
  pose proof (write_law _ _ _ _ _ _ Ew) as Hl. destruct (decide (c = 0)) as [->|Hc].
  2:{ injection E as <- <-. exists (Err (wasi_to_linux c)). split; [done|]. exists [], (b :: bufs), k.
      split_and!; [done|constructor|]. exists b, bufs, c, n. split_and!; [done..|]. by rewrite app_nil_r. }
  destruct Hl as [Hn _]. destruct (decide (n < Z.of_nat (length b))) as [Hs|Hs].
  { injection E as <- <-. exists (Ok n). split; [done|]. exists [], (b :: bufs), k.
    split_and!; [done|constructor|]. right. exists b, bufs, n. by split_and!. }
  apply IH in E as (r0 & -> & Hp). assert (n = Z.of_nat (length b)) as -> by lia.
  exists (map_ok (Z.add (Z.of_nat (length b))) r0). split; [destruct r0; cbn; f_equal; lia|].
  by eapply write_pass_cons.
Qed.

(** What a pass has done to the streams. *)
Lemma read_pass_rest fd k lens data k' :
  read_pass fd k lens (Ok data) k' → (length data ≤ sum_list lens)%nat ∧ rest k fd = data ++ rest k' fd.
Proof.
  intros (full & more & d & k1 & -> & Hf & Hs). pose proof (filled_rest _ _ _ _ _ Hf) as Hr.
  pose proof (filled_sum _ _ _ _ _ Hf) as Hl. rewrite sum_list_with_app.
  destruct Hs as [(-> & -> & ->)|(n & more' & x & -> & Hx & _ & ->)].
  - split; [lia|done].
  - apply read_law in Hx as [Hn Hx]. rewrite length_app. cbn. split; [lia|]. by rewrite Hr, Hx, app_assoc.
Qed.

Lemma write_pass_sunk fd k bufs n k' :
  write_pass fd k bufs (Ok n) k' →
  0 ≤ n ≤ Z.of_nat (length (concat bufs)) ∧ sunk k' fd = sunk k fd ++ take (Z.to_nat n) (concat bufs).
Proof.
  intros (full & more & k1 & -> & Hf & Hs). pose proof (sent_sunk _ _ _ _ Hf) as Hk. rewrite concat_app, length_app.
  destruct Hs as [(-> & -> & ->)|(b & more' & m & -> & Hm & Hlt & ->)].
  - split; [lia|]. by rewrite Nat2Z.id, take_app_length.
  - apply write_law in Hm as [Hn Hm]. cbn [concat]. rewrite length_app. split; [lia|].
    rewrite Hm, Hk, <-app_assoc, Z2Nat.inj_add, Nat2Z.id, take_app_add, take_app_le by lia. done.
Qed.

(** No host error is an interruption, so the loops of [io::Fd] make one call. *)
Lemma wasi_to_linux_not_4 e : wasi_to_linux e ≠ 4.
Proof. unfold wasi_to_linux. repeat case_match; done. Qed.

Lemma check_not_4 e : check e ≠ Err 4.
Proof. unfold check. case_decide; [done|]. intros [= E]. by apply wasi_to_linux_not_4 in E. Qed.

Lemma read_not_4 k fd n k' : read k fd n ≠ (Err 4, k').
Proof.
  unfold read. destruct (fd_read _ _ _) as [[e d] k1]. pose proof (check_not_4 e).
  destruct (check e); cbn; congruence.
Qed.

Lemma write_not_4 k fd b k' : write k fd b ≠ (Err 4, k').
Proof.
  unfold write. destruct (fd_write _ _ _) as [[e n] k1]. pose proof (check_not_4 e).
  destruct (check e); cbn; congruence.
Qed.

Lemma readv_not_4 lens : ∀ k fd got k', readv k fd lens got ≠ (Err 4, k').
Proof.
  induction lens as [|n lens IH]; intros k fd got k'; cbn [readv]; [done|].
  pose proof (read_not_4 k fd n) as Hr. destruct (read k fd n) as [[d|e] k1]; [|congruence].
  repeat case_decide; [done..|]. apply IH.
Qed.

Lemma writev_not_4 bufs : ∀ k fd total k', writev k fd bufs total ≠ (Err 4, k').
Proof.
  induction bufs as [|b bufs IH]; intros k fd total k'; cbn [writev]; [done|].
  pose proof (write_not_4 k fd b) as Hw. destruct (write k fd b) as [[n|e] k1]; [|congruence].
  case_decide; [done|]. apply IH.
Qed.

Lemma retry_once {A} (call : κ → result A Z * κ) p k :
  (∀ k', call k ≠ (Err 4, k')) → retry (S p) call k = Some (call k).
Proof.
  intros Hn. cbn [retry]. destruct (call k) as [[a|e] k1]; [done|].
  assert (e ≠ 4) by (intros ->; by destruct (Hn k1)).
  repeat case_match; congruence.
Qed.

(** C33: vectored I/O on WASI. A vectored read or write of [io::Fd] makes one pass over its buffers, one host call each:
    it stops after the last buffer, or after the first one the host filled or took only in part, and reports
    exactly what the host did so far, which is the next bytes of the input in order, or a prefix of the buffers
    appended to the output. If the host fails at a buffer, the call fails with that error, which is never an
    interruption, and what the earlier buffers moved is not reported. Seeking fails as unsupported. *)
Theorem wasi_fd_correct k fd p lens bufs pos :
  (∃ r k', fd_read_vectored (mkFd fd k (S p)) lens = Some (map_err Os r, mkFd fd k' (S p))
     ∧ read_pass (wrap 32 fd) k lens r k'
     ∧ match r with
       | Ok data => (length data ≤ sum_list lens)%nat ∧ rest k (wrap 32 fd) = data ++ rest k' (wrap 32 fd)
       | Err e => kind Wasm32Wasi (Os e) ≠ Interrupted
       end)
  ∧ (∃ r k', fd_write_vectored (mkFd fd k (S p)) bufs = Some (map_err Os r, mkFd fd k' (S p))
     ∧ write_pass (wrap 32 fd) k bufs r k'
     ∧ match r with
       | Ok n => 0 ≤ n ≤ Z.of_nat (length (concat bufs))
                 ∧ sunk k' (wrap 32 fd) = sunk k (wrap 32 fd) ++ take (Z.to_nat n) (concat bufs)
       | Err e => kind Wasm32Wasi (Os e) ≠ Interrupted
       end)
  ∧ (∃ e, fd_seek (mkFd fd k (S p)) pos = (Err e, mkFd fd k (S p)) ∧ kind Wasm32Wasi e = Unsupported).
Proof.
  assert (∀ e, e ≠ 4 → kind Wasm32Wasi (Os e) ≠ Interrupted) as Hk
    by (intros e He; cbn; unfold errno_kind; repeat case_match; congruence).
  split_and!.
  - unfold fd_read_vectored, os_result. cbn [fd_num fd_kernel fd_patience].
    change (λ k0, sys_readv k0 fd lens) with (λ k0 : κ, readv k0 fd lens []).
    rewrite retry_once by (intros; apply readv_not_4).
    pose proof (readv_not_4 lens k fd []) as Hn. cbn beta.
    destruct (readv k fd lens []) as [r k'] eqn:E. apply readv_pass in E as (r0 & -> & Hp).
    exists r0, k'. split; [by destruct r0|]. split; [done|]. destruct r0 as [data|e].
    + by apply read_pass_rest.
    + apply Hk. intros ->. by destruct (Hn k').
  - unfold fd_write_vectored, os_result. cbn [fd_num fd_kernel fd_patience].
    change (λ k0, sys_writev k0 fd bufs) with (λ k0 : κ, writev k0 fd bufs 0).
    rewrite retry_once by (intros; apply writev_not_4).
    pose proof (writev_not_4 bufs k fd 0) as Hn. cbn beta.
    destruct (writev k fd bufs 0) as [r k'] eqn:E. apply writev_pass in E as (r0 & -> & Hp).
    exists r0, k'. split; [by destruct r0|]. split; [done|]. destruct r0 as [n|e].
    + by apply write_pass_sunk.
    + apply Hk. intros ->. by destruct (Hn k').
  - exists (Os ENOSYS). by destruct pos.
Qed.
End streams.

(** ** A host with one input and one output *)
Record Console := mkConsole { input : list Z; output : list Z; broken : bool }.

#[export] Instance console_host : WasiHost Console := {
  fd_read k fd n :=
    if broken k then ((29, []), k)
    else ((0, take n (input k)),
          mkConsole (drop n (input k)) (output k) (bool_decide (length (input k) ≤ n)%nat));
  fd_write k fd b := ((0, Z.of_nat (length b)), mkConsole (input k) (output k ++ b) (broken k));
  fd_close k fd := (0, k);
  random_get k n := ((0, replicate n 4), k);
  clock_time_get k _ _ := ((0, 5), k);
  environ_sizes_get k := ((0, (0, 0)), k);
  environ_get k := ((0, []), k);
}.

#[export] Instance console_streams : WasiStreams Console.
Proof.
  refine {| rest k _ := input k; sunk k _ := output k |}.
  - intros k fd n e d k' E. cbn in E. destruct (broken k); simplify_eq; cbn; [done|].
    split; [rewrite length_take; lia|]. by rewrite take_drop.
  - intros k fd b e n k' E. cbn in E. simplify_eq. cbn. split; [lia|].
    by rewrite Nat2Z.id, firstn_all.
Defined.

(** Witness of C33: three bytes into buffers of two and two. *)
Lemma wasi_fd_correct_witness :
  let k := mkConsole [1; 2; 3] [] false in
  ∃ r k', fd_read_vectored (mkFd 0 k 1) [2%nat; 2%nat] = Some (map_err Os r, mkFd 0 k' 1)
    ∧ read_pass 0 k [2%nat; 2%nat] r k'.
Proof.
  destruct (wasi_fd_correct (mkConsole [1; 2; 3] [] false) 0 0 [2%nat; 2%nat] [[7]] (Current 0))
    as ((r & k' & Hr & Hp & _) & _).
  exists r, k'. split; [exact Hr|exact Hp].
Defined.

(** Bytes are lost when a later buffer's read fails: the error hides what the
    earlier ones received. *)
Lemma readv_loses :
  let k := mkConsole [1; 2] [] false in
  readv k 0 [2%nat; 2%nat] [] = (Err EIO, mkConsole [] [] true).
Proof. reflexivity. Qed.

(** An empty buffer in front makes [readv] stop at once, which its caller takes for the end of the input. *)
Lemma readv_empty_front k fd lens :
  (∀ e d k', fd_read k (wrap 32 fd) 0 = ((e, d), k') → e = 0 ∧ d = []) →
  ∃ k' : Console, readv k fd (0%nat :: lens) [] = (Ok [], k').
Proof.
  intros Hr. cbn [readv]. unfold read.
  destruct (fd_read k (wrap 32 fd) 0) as [[e d] k1] eqn:E. destruct (Hr e d k1) as [-> ->]; [done|].
  by exists k1.
Qed.
