(* ===== verification/Stdio.v ===== *)
(** The standard output and error streams (src/src/io.rs) shared by several threads: [print!] and [eprint!] hold
    the stream's lock while they format, [Stdout::write] and [Stderr::write] hold it for one write.

    The lock is used through its contract (Lock.v).  A step is the lock, one [write] system
    call of [Fd], which takes some of the bytes or fails, or the drop of the guard. *)
From S2P Require Import Prelude IoBuf Lock.

(** A thread at the stream.  [msg] is what it was asked to print, [sofar] what the descriptor
    took, [pieces] the arguments of the [write_all] calls still to come, the current one
    first. *)
Inductive OutPc : Type :=
| Idle
| Lock (pieces : list (list Z))
| Print (msg sofar : list Z) (pieces : list (list Z))   (* _print: the guard is held *)
| WLock (buf : list Z)
| Write (buf : list Z)                                  (* Stdout::write: the guard is held *)
| Drop (msg sofar : list Z) (ok : bool).                (* the guard is dropped *)

(** One use of the stream: what was asked for, what was sent and whether no write failed. *)
Record Block := mkBlock { asked : list Z; sent : list Z; ok : bool }.

Record OutSys := mkOut {
  owner : option nat;
  output : list Z;
  blocks : list Block;    (* finished uses, in order *)
  printers : list OutPc;
}.

Definition at_pc (s : OutSys) (i : nat) (p : OutPc) : OutSys :=
  mkOut (owner s) (output s) (blocks s) (<[i := p]> (printers s)).

(** What a write system call does with [buf]: it takes the first [n] bytes, or fails. *)
Inductive WriteResult : Set := Took (n : nat) | Failed.

Definition sink (s : OutSys) (b : list Z) : OutSys :=
  mkOut (owner s) (output s ++ b) (blocks s) (printers s).

(** [_print]: [stdout().lock().write_fmt(args)], its result ignored; [write_all] of an empty
    piece makes no call, a write that takes nothing fails ([WriteZero]) and one that reports more
    than it was given panics. *)
Definition _print (i : nat) (w : WriteResult) (p : OutPc) (s : OutSys) : option OutSys :=
  match p with
  | Lock pieces =>
      match owner s with
      | None => Some (at_pc (mkOut (Some i) (output s) (blocks s) (printers s)) i
                        (Print (concat pieces) [] pieces))
      | Some _ => None
      end
  | Print msg sofar [] => Some (at_pc s i (Drop msg sofar true))
  | Print msg sofar (piece :: pieces) =>
      if decide (piece = []) then Some (at_pc s i (Print msg sofar pieces))
      else
        match w with
        | Failed => Some (at_pc s i (Drop msg sofar false))
        | Took n =>
            if decide (n = 0%nat) then Some (at_pc s i (Drop msg sofar false))
            else if decide (length piece < n)%nat then None
            else Some (at_pc (sink s (take n piece)) i
                         (Print msg (sofar ++ take n piece) (drop n piece :: pieces)))
        end
  | _ => None
  end.

(** [println!]: the pieces of its arguments, then the newline *)
Definition println (args : list (list Z)) : list (list Z) := args ++ [[10]].

(** [Stdout::write] *)
Definition stdout_write (i : nat) (w : WriteResult) (p : OutPc) (s : OutSys) : option OutSys :=
  match p with
  | WLock buf =>
      match owner s with
      | None => Some (at_pc (mkOut (Some i) (output s) (blocks s) (printers s)) i (Write buf))
      | Some _ => None
      end
  | Write buf =>
      Some (match w with
            | Failed => at_pc s i (Drop buf [] false)
            | Took n =>
                at_pc (sink s (take n buf)) i (Drop buf (take n buf) (bool_decide (length buf ≤ n)%nat))
            end)
  | _ => None
  end.

Definition drop_guard (i : nat) (p : OutPc) (s : OutSys) : option OutSys :=
  match p with
  | Drop msg sofar b =>
      Some (mkOut None (output s) (blocks s ++ [mkBlock msg sofar b]) (<[i := Idle]> (printers s)))
  | _ => None
  end.

Inductive out_step : OutSys → OutSys → Prop :=
| os_call s i p :
    printers s !! i = Some Idle → (∃ l, p = Lock l) ∨ (∃ b, p = WLock b) → out_step s (at_pc s i p)
| os_print s s' i p w : printers s !! i = Some p → _print i w p s = Some s' → out_step s s'
| os_write s s' i p w : printers s !! i = Some p → stdout_write i w p s = Some s' → out_step s s'
| os_drop s s' i p : printers s !! i = Some p → drop_guard i p s = Some s' → out_step s s'.

Definition out_init (n : nat) : OutSys := mkOut None [] [] (replicate n Idle).

(** ** The lock *)
Definition holds (p : OutPc) : bool :=
  match p with Print _ _ _ | Write _ | Drop _ _ _ => true | _ => false end.

Definition out_put (o : option nat) (s : OutSys) : OutSys := mkOut o (output s) (blocks s) (printers s).
Definition out_inside (s : OutSys) (i : nat) : bool := held_in holds (printers s) i.

Notation out_kind := (client_kind out_step owner out_put out_inside).

(** A silent step of thread [i]: the same step is possible whoever has the lock. *)
Lemma out_silent s s' i p p' :
  printers s !! i = Some p → printers s' = <[i := p']> (printers s) → holds p' = holds p → owner s' = owner s →
  (∀ o, out_step (out_put o s) (out_put o s')) → out_kind s s'.
Proof.
  intros Hi Hp Hh Ho Hs. apply kind_silent; [done..|]. intros j. unfold out_inside. rewrite Hp.
  by apply held_insert_same with p.
Qed.

Lemma out_acquire s s' i p p' :
  printers s !! i = Some p → printers s' = <[i := p']> (printers s) → holds p' = true → owner s = None →
  owner s' = Some i → out_kind s s'.
Proof.
  intros Hi Hp Hh Ho Ho'. apply (kind_acquire _ _ _ _ _ _ i); unfold out_inside; rewrite ?Hp; [done..| |].
  - by rewrite (held_insert holds _ i p).
  - intros j Hj. by apply held_insert_ne.
Qed.

Lemma print_kind s s' i p w : printers s !! i = Some p → _print i w p s = Some s' → out_kind s s'.
Proof.
  intros Hi Hop. assert (∀ o, _print i w p (out_put o s) = Some (out_put o s') → out_step (out_put o s) (out_put o s'))
    as Hs by (intros; by eapply (os_print _ _ i p w)).
  destruct p as [|l|msg sofar [|piece l]| | |]; try done; cbn in Hop.
  - destruct (owner s) eqn:Eo; [done|]. injection Hop as <-. by eapply (out_acquire _ _ i (Lock l)).
  - injection Hop as <-. eapply (out_silent _ _ i); [done|reflexivity|done|done|]. intros. by apply Hs.
  - repeat (case_decide || case_match); simplify_eq;
      (eapply (out_silent _ _ i); [done|reflexivity|done|done|]); intros; apply Hs; cbn;
      repeat (case_decide; try done).
Qed.

Lemma write_kind s s' i p w : printers s !! i = Some p → stdout_write i w p s = Some s' → out_kind s s'.
Proof.
  intros Hi Hop. assert (∀ o, stdout_write i w p (out_put o s) = Some (out_put o s') → out_step (out_put o s) (out_put o s'))
    as Hs by (intros; by eapply (os_write _ _ i p w)).
  destruct p as [| | |b|b|]; try done; cbn in Hop.
  - destruct (owner s) eqn:Eo; [done|]. injection Hop as <-. by eapply (out_acquire _ _ i (WLock b)).
  - injection Hop as <-. destruct w; (eapply (out_silent _ _ i); [done|reflexivity|done|done|]); intros; by apply Hs.
Qed.

#[export] Instance stdout_lock_client n : LockClient out_step owner out_put out_inside (out_init n).
Proof.
  split; [done|intros; by apply held_replicate|by intros []|done|done|done|].
  intros s s' Hs. destruct Hs as [s i p Hi Hp|s s' i p w Hi Hop|s s' i p w Hi Hop|s s' i p Hi Hop].
  - eapply (out_silent _ _ i Idle); [done|reflexivity|by destruct Hp as [[? ->]|[? ->]]|done|].
    intros o. by apply (os_call (out_put o s)).
  - by eapply print_kind.
  - by eapply write_kind.
  - destruct p as [| | | | |msg sofar b]; try done. injection Hop as <-.
    apply (kind_release _ _ _ _ _ _ i); [done|by apply (held_at holds _ i (Drop msg sofar b))| |].
    + by apply (held_insert holds _ i (Drop msg sofar b)).
    + intros j Hj. by apply held_insert_ne.
Qed.

(** ** Invariant *)
(** What the holder has sent so far. *)
Definition partial (p : OutPc) : list Z :=
  match p with Print _ sofar _ | Drop _ sofar _ => sofar | _ => [] end.

Definition pc_ok (p : OutPc) : Prop :=
  match p with
  | Print msg sofar pieces => msg = sofar ++ concat pieces
  | Drop msg sofar b => sofar `prefix_of` msg ∧ (b = true → sofar = msg)
  | _ => True
  end.

Definition block_ok (b : Block) : Prop :=
  sent b `prefix_of` asked b ∧ (ok b = true → sent b = asked b).

Record out_inv (s : OutSys) : Prop := {
  oi_owner : ∀ i, owner s = Some i ↔ ∃ p, printers s !! i = Some p ∧ holds p = true;
  oi_pc : ∀ i p, printers s !! i = Some p → pc_ok p;
  oi_blocks : Forall block_ok (blocks s);
  oi_out : output s = concat (sent <$> blocks s)
           ++ match owner s with
              | Some i => default [] (partial <$> printers s !! i)
              | None => []
              end;
}.

Lemma holder_lookup s i p :
  out_inv s → printers s !! i = Some p → holds p = true → owner s = Some i.
Proof. intros Hinv Hi Hp. apply (oi_owner s Hinv). eauto. Qed.

Lemma bystander s i p :
  out_inv s → printers s !! i = Some p → holds p = false → owner s ≠ Some i.
Proof. intros Hinv Hi Hp E. apply (oi_owner s Hinv) in E as (q & Hq & ?). congruence. Qed.

(** The holder sends [b] and goes on. *)
Lemma holder_move s i p p' b :
  out_inv s → printers s !! i = Some p → holds p = true → holds p' = true →
  pc_ok p' → partial p' = partial p ++ b → out_inv (at_pc (sink s b) i p').
Proof.
  intros Hinv Hi Hp Hp' Hok Hpart. pose proof (holder_lookup s i p Hinv Hi Hp) as Ho.
  destruct Hinv as [H1 H2 H3 H4]. constructor; cbn.
  - apply (owner_update holds (printers s) (owner s) _ i p); auto. left. by rewrite Hp, Hp'.
  - intros j q [[-> ->]|[_ Hq]]%(lookup_upd _ i p); eauto.
  - done.
  - rewrite H4, Ho, Hi, list_lookup_insert_eq by (by eapply lookup_lt_Some). cbn.
    by rewrite Hpart, app_assoc.
Qed.

Lemma holder_stay s i p p' :
  out_inv s → printers s !! i = Some p → holds p = true → holds p' = true →
  pc_ok p' → partial p' = partial p → out_inv (at_pc s i p').
Proof.
  intros Hinv Hi Hp Hp' Hok Hpart.
  assert (s = sink s []) as -> by (destruct s; unfold sink; cbn; by rewrite app_nil_r).
  apply (holder_move s i p); try done. by rewrite app_nil_r.
Qed.

Lemma lock_move s i p p' :
  out_inv s → printers s !! i = Some p → owner s = None → holds p' = true → pc_ok p' → partial p' = [] →
  out_inv (at_pc (mkOut (Some i) (output s) (blocks s) (printers s)) i p').
Proof.
  intros [H1 H2 H3 H4] Hi Ho Hp' Hok Hpart. constructor; cbn.
  - apply (owner_update holds (printers s) (owner s) _ i p); auto.
  - intros j q [[-> ->]|[_ Hq]]%(lookup_upd _ i p); eauto.
  - done.
  - rewrite H4, Ho, list_lookup_insert_eq by (by eapply lookup_lt_Some). cbn. by rewrite Hpart.
Qed.

Lemma call_move s i p :
  out_inv s → printers s !! i = Some Idle → holds p = false → pc_ok p → out_inv (at_pc s i p).
Proof.
  intros Hinv Hi Hp Hok. pose proof (bystander s i Idle Hinv Hi eq_refl) as Hno.
  destruct Hinv as [H1 H2 H3 H4]. constructor; cbn.
  - apply (owner_update holds (printers s) (owner s) _ i Idle); auto.
  - intros j q [[-> ->]|[_ Hq]]%(lookup_upd _ i Idle); eauto.
  - done.
  - rewrite H4. destruct (owner s) as [j|]; [|done].
    by rewrite list_lookup_insert_ne by congruence.
Qed.

Lemma print_inv s s' i p w :
  out_inv s → printers s !! i = Some p → _print i w p s = Some s' → out_inv s'.
Proof.
  intros Hinv Hi Hop. pose proof (oi_pc s Hinv i p Hi) as Hok. destruct p; try done; cbn in Hop, Hok.
  - destruct (owner s) eqn:Eo; simplify_eq. by apply (lock_move s i (Lock pieces)).
  - assert (∀ b, b = true → pieces = [] → pc_ok (Drop msg sofar b)) as Hend.
    { intros b _ ->. rewrite app_nil_r in Hok. subst. split; done. }
    assert (pc_ok (Drop msg sofar false)) as Hfail by (split; [by rewrite Hok; apply prefix_app_r|done]).
    assert (∀ q, holds q = true → pc_ok q → partial q = sofar → out_inv (at_pc s i q)) as Hstay
      by (intros; by apply (holder_stay s i (Print msg sofar pieces))).
    destruct pieces as [|piece pieces]; [injection Hop as <-; apply Hstay; try done; by apply Hend|].
    destruct (decide (piece = [])) as [->|Hne]; [injection Hop as <-; by apply Hstay|].
    destruct w as [n|]; [|injection Hop as <-; by apply Hstay].
    destruct (decide (n = 0%nat)) as [?|Hn]; [injection Hop as <-; by apply Hstay|].
    destruct (decide _); [done|injection Hop as <-].
    apply (holder_move s i (Print msg sofar (piece :: pieces))); try done.
    cbn. rewrite Hok, <-app_assoc. f_equal. cbn. by rewrite app_assoc, take_drop.
Qed.

Lemma stdout_write_inv s s' i p w :
  out_inv s → printers s !! i = Some p → stdout_write i w p s = Some s' → out_inv s'.
Proof.
  intros Hinv Hi Hop. destruct p; try done; cbn in Hop.
  - destruct (owner s) eqn:Eo; simplify_eq. by apply (lock_move s i (WLock buf)).
  - simplify_eq. destruct w as [n|].
    + apply (holder_move s i (Write buf)); try done. split; [apply prefix_take|].
      intros Hn%bool_decide_eq_true. by apply take_ge.
    + apply (holder_stay s i (Write buf)); try done. split; [apply prefix_nil|done].
Qed.

Lemma drop_guard_inv s s' i p :
  out_inv s → printers s !! i = Some p → drop_guard i p s = Some s' → out_inv s'.
Proof.
  intros Hinv Hi Hop. destruct p; try done; cbn in Hop. simplify_eq.
  pose proof (holder_lookup s i _ Hinv Hi eq_refl) as Ho. pose proof (oi_pc s Hinv i _ Hi) as Hok.
  destruct Hinv as [H1 H2 H3 H4]. constructor; cbn.
  - eapply (owner_update holds (printers s) (owner s) _ i); [done..|]. by right; right.
  - intros j q Hj. apply (lookup_upd _ i _ Idle j q Hi) in Hj.
    destruct Hj as [[-> ->]|[_ Hq]]; [done|eauto].
  - apply Forall_app. split; [done|]. by constructor.
  - rewrite H4, Ho, Hi, fmap_app, concat_app. cbn. by rewrite !app_nil_r.
Qed.

Lemma out_step_inv s s' : out_step s s' → out_inv s → out_inv s'.
Proof.
  intros Hstep Hinv. destruct Hstep as [s i p Hi Hp|s s' i p w Hi Hop|s s' i p w Hi Hop|s s' i p Hi Hop].
  - by destruct Hp as [[l ->]|[b ->]]; apply call_move.
  - by eapply print_inv.
  - by eapply stdout_write_inv.
  - by eapply drop_guard_inv.
Qed.

Lemma out_reachable n s : rtc out_step (out_init n) s → out_inv s.
Proof.
  assert (∀ s0, rtc out_step s0 s → out_inv s0 → out_inv s) as Hall.
  { intros s0. induction 1; eauto using out_step_inv. }
  intros Hs. apply (Hall _ Hs). constructor; cbn; try done.
  - intros i. split; [done|]. intros (p & [-> _]%lookup_replicate & ?). done.
  - intros i p [-> _]%lookup_replicate. done.
Qed.

(** What a stream shows: the blocks, then what the thread that holds it has sent. *)
Lemma out_shows n s :
  rtc out_step (out_init n) s →
  Forall (λ b, sent b `prefix_of` asked b ∧ (ok b = true → sent b = asked b)) (blocks s)
  ∧ (∀ i p, printers s !! i = Some p → holds p = true →
       output s = concat (sent <$> blocks s) ++ partial p)
  ∧ ((∀ i p, printers s !! i = Some p → holds p = false) → output s = concat (sent <$> blocks s)).
Proof.
  intros Hs. apply out_reachable in Hs as Hinv. pose proof Hinv as [H1 H2 H3 H4]. split_and!.
  - done.
  - intros i p Hi Hp. by rewrite H4, (holder_lookup s i p Hinv Hi Hp), Hi.
  - intros Hno. rewrite H4. destruct (owner s) as [i|] eqn:Eo; [|apply app_nil_r].
    destruct (proj1 (H1 i) eq_refl) as (p & Hp & Hh). specialize (Hno i p Hp). congruence.
Qed.

(** ** Both streams *)
(** Standard error has its own lock and descriptor; a thread is at one of the two streams at a time. *)
Record Streams := mkStreams { stdout : OutSys; stderr : OutSys }.

Definition on_stderr (op : OutSys → option OutSys) (s : Streams) : option Streams :=
  e ← op (stderr s); Some (mkStreams (stdout s) e).

(** [_eprint] and [Stderr::write], on [StderrLock] *)
Definition _eprint (i : nat) (w : WriteResult) (p : OutPc) : Streams → option Streams :=
  on_stderr (_print i w p).
Definition stderr_write (i : nat) (w : WriteResult) (p : OutPc) : Streams → option Streams :=
  on_stderr (stdout_write i w p).

Definition away (o : OutSys) (i : nat) : Prop := printers o !! i = Some Idle.

Inductive streams_step : Streams → Streams → Prop :=
| ss_call s i p :
    away (stdout s) i → away (stderr s) i → (∃ l, p = Lock l) ∨ (∃ b, p = WLock b) →
    streams_step s (mkStreams (at_pc (stdout s) i p) (stderr s))
| ss_print s o i p w :
    printers (stdout s) !! i = Some p → _print i w p (stdout s) = Some o →
    streams_step s (mkStreams o (stderr s))
| ss_write s o i p w :
    printers (stdout s) !! i = Some p → stdout_write i w p (stdout s) = Some o →
    streams_step s (mkStreams o (stderr s))
| ss_drop s o i p :
    printers (stdout s) !! i = Some p → drop_guard i p (stdout s) = Some o →
    streams_step s (mkStreams o (stderr s))
| se_call s i p :
    away (stdout s) i → away (stderr s) i → (∃ l, p = Lock l) ∨ (∃ b, p = WLock b) →
    streams_step s (mkStreams (stdout s) (at_pc (stderr s) i p))
| se_print s s' i p w :
    printers (stderr s) !! i = Some p → _eprint i w p s = Some s' → streams_step s s'
| se_write s s' i p w :
    printers (stderr s) !! i = Some p → stderr_write i w p s = Some s' → streams_step s s'
| se_drop s s' i p :
    printers (stderr s) !! i = Some p → on_stderr (drop_guard i p) s = Some s' → streams_step s s'.

Definition streams_init (n : nat) : Streams := mkStreams (out_init n) (out_init n).

(** A step is one of one stream, and leaves the other alone. *)
Lemma streams_step_one s s' :
  streams_step s s' →
  out_step (stdout s) (stdout s') ∧ stderr s' = stderr s ∨ out_step (stderr s) (stderr s') ∧ stdout s' = stdout s.
Proof.
  destruct 1 as [s i p Ho He Hp|s o i p w Hi Hop|s o i p w Hi Hop|s o i p Hi Hop
                |s i p Ho He Hp|s s' i p w Hi Hop|s s' i p w Hi Hop|s s' i p Hi Hop]; cbn.
  - left. split; [|done]. by apply os_call.
  - left. split; [|done]. by eapply os_print.
  - left. split; [|done]. by eapply os_write.
  - left. split; [|done]. by eapply os_drop.
  - right. split; [|done]. by apply os_call.
  - unfold _eprint, on_stderr in Hop. destruct (_print i w p (stderr s)) as [e|] eqn:E; simplify_eq/=.
    right. split; [|done]. by eapply os_print.
  - unfold stderr_write, on_stderr in Hop. destruct (stdout_write i w p (stderr s)) as [e|] eqn:E; simplify_eq/=.
    right. split; [|done]. by eapply os_write.
  - unfold on_stderr in Hop. destruct (drop_guard i p (stderr s)) as [e|] eqn:E; simplify_eq/=.
    right. split; [|done]. by eapply os_drop.
Qed.

Lemma streams_run n s :
  rtc streams_step (streams_init n) s →
  rtc out_step (out_init n) (stdout s) ∧ rtc out_step (out_init n) (stderr s).
Proof.
  revert s. apply rtc_ind_r; [by split|]. intros s s' _ Hs [IHo IHe].
  apply streams_step_one in Hs as [[Hs ->]|[Hs ->]]; split; eauto using rtc_r.
Qed.


Lemma split_inclusive_lines ls :
  Forall (λ l, 10 ∉ l) ls → split_inclusive 10 (concat ((λ l, l ++ [10]) <$> ls)) = (λ l, l ++ [10]) <$> ls.
Proof.
  induction 1 as [|l ls Hl _ IH]; [done|]. cbn [fmap list_fmap concat].
  rewrite <-app_assoc. cbn [app]. induction l as [|x l IHl]; cbn [app split_inclusive].
  - by rewrite decide_True, IH.
  - apply not_elem_of_cons in Hl as [? Hl]. rewrite decide_False by done. by rewrite (IHl Hl).
Qed.

(** When every finished use of the stream was a [println!] of one line and no write failed, the lines
    of the output are the lines asked for, whichever threads they came from. *)
Lemma println_lines n s (argss : list (list (list Z))) :
  rtc out_step (out_init n) s → (∀ i p, printers s !! i = Some p → holds p = false) →
  Forall (λ b, ok b = true) (blocks s) → asked <$> blocks s = (λ a, concat (println a)) <$> argss →
  Forall (λ a, 10 ∉ concat a) argss →
  split_inclusive 10 (output s) = asked <$> blocks s.
Proof.
  intros Hs Hno Hok Hasked Hargs. apply out_reachable in Hs as Hinv. destruct Hinv as [H1 _ H3 H4].
  assert (owner s = None) as Ho.
  { destruct (owner s) as [i|] eqn:Eo; [|done]. destruct (proj1 (H1 i) eq_refl) as (p & Hp & Hh).
    specialize (Hno i p Hp). congruence. }
  assert (sent <$> blocks s = asked <$> blocks s) as Hsent.
  { apply Forall_fmap_ext_1. rewrite Forall_forall in *. intros b Hb. by apply (H3 b Hb), Hok. }
  rewrite H4, Ho, app_nil_r, Hsent, Hasked.
  assert ((λ a, concat (println a)) <$> argss = (λ l, l ++ [10]) <$> ((λ a, concat a) <$> argss)) as ->.
  { rewrite <-list_fmap_compose. apply list_fmap_ext. intros _ a _. unfold println.
    cbn. by rewrite concat_app. }
  by apply split_inclusive_lines, Forall_fmap.
Qed.

(** ** Two threads print, the second one waits for the first one's two pieces; meanwhile a third thread has reported an error. *)
Definition sample_streams : Streams :=
  mkStreams (mkOut (Some 1%nat) [72; 105; 10; 79] [mkBlock [72; 105; 10] [72; 105; 10] true]
               [Idle; Print [79; 75] [79] [[75]]; Idle])
            (mkOut None [33] [mkBlock [33] [33] true] [Idle; Idle; Idle]).

Lemma sample_streams_reachable : rtc streams_step (streams_init 3) sample_streams.
Proof.
  advance ltac:(apply (ss_call _ 0 (Lock [[72; 105]; [10]])); [done|done|eauto]).
  advance ltac:(apply (ss_call _ 1 (Lock [[79; 75]])); [done|done|eauto]).
  advance ltac:(by eapply (ss_print _ _ 0 _ Failed)).
  advance ltac:(by eapply (ss_print _ _ 0 _ (Took 1))).
  advance ltac:(apply (se_call _ 2 (WLock [33])); [done|done|eauto]).
  advance ltac:(by eapply (se_write _ _ 2 _ Failed)).
  advance ltac:(by eapply (ss_print _ _ 0 _ (Took 1))).
  advance ltac:(by eapply (ss_print _ _ 0 _ Failed)).
  advance ltac:(by eapply (se_write _ _ 2 _ (Took 1))).
  advance ltac:(by eapply (ss_print _ _ 0 _ (Took 1))).
  advance ltac:(by eapply (ss_print _ _ 0 _ Failed)).
  advance ltac:(by eapply (ss_print _ _ 0 _ Failed)).
  advance ltac:(by eapply (ss_drop _ _ 0)).
  advance ltac:(by eapply (se_drop _ _ 2)).
  advance ltac:(by eapply (ss_print _ _ 1 _ Failed)).
  advance ltac:(by eapply (ss_print _ _ 1 _ (Took 1))).
  apply rtc_refl.
Qed.

