(* ===== verification/Arch.v ===== *)
(** The system call instruction (src/src/arch/): the number tables of the seven native
    targets and the inline assembly of [syscall0] to [syscall6].

    Syscall.v and its clients name calls by their constant in [arch::nr]; here the constants get
    their values, and the assembly that puts them and the arguments into registers is run
    on a register machine.  The kernel's side of the call (which registers it reads and
    changes) is the documented convention of each target. *)
From S2P Require Import Prelude Clone Syscall.
From Stdlib Require Import String.
From stdpp Require Import list.
Open Scope string_scope.
Open Scope Z_scope.

(** ** The tables *)
Definition nr_x86_64 (n : Nr) : option Z :=
  match n with
  | READ => Some 0 | WRITE => Some 1 | READV => Some 19 | WRITEV => Some 20 | CLOSE => Some 3
  | LSEEK => Some 8 | MMAP => Some 9 | MUNMAP => Some 11 | GETPID => Some 39 | DUP => Some 32
  | EXIT => Some 60 | GETTIMEOFDAY => Some 96 | EXIT_GROUP => Some 231 | MKDIRAT => Some 258
  | UNLINKAT => Some 263 | OPENAT => Some 257 | GETRANDOM => Some 318 | GETENTROPY => Some 318
  | SCHED_YIELD => Some 24 | NANOSLEEP => Some 35 | FUTEX => Some 202 | CLONE => Some 56
  | GETTID => Some 186 | SOCKET => Some 41 | CONNECT => Some 42 | ACCEPT => Some 43
  | BIND => Some 49 | LISTEN => Some 50 | GETSOCKNAME => Some 51 | GETPEERNAME => Some 52
  | SENDTO => Some 44 | RECVFROM => Some 45 | SHUTDOWN => Some 48 | SETSOCKOPT => Some 54
  | CLOCK_GETTIME => Some 228 | FTRUNCATE => Some 77 | FSYNC => Some 74 | RENAMEAT => Some 264
  | FSTAT => Some 5 | NEWFSTATAT => Some 262 | GETDENTS64 => Some 217 | CHDIR => Some 80
  | GETCWD => Some 79 | FORK => Some 57 | EXECVE => Some 59 | WAIT4 => Some 61
  | PIPE2 => Some 293 | DUP2 => Some 33 | FCNTL => Some 72 | SCHED_GETAFFINITY => Some 204
  | _ => None
  end.

Definition nr_aarch64 (n : Nr) : option Z :=
  match n with
  | MKDIRAT => Some 34 | UNLINKAT => Some 35 | OPENAT => Some 56 | CLOSE => Some 57
  | LSEEK => Some 62 | READ => Some 63 | WRITE => Some 64 | READV => Some 65 | WRITEV => Some 66
  | EXIT => Some 93 | EXIT_GROUP => Some 94 | CLOCK_GETTIME => Some 113
  | GETTIMEOFDAY => Some 169 | GETPID => Some 172 | DUP => Some 23 | MUNMAP => Some 215
  | MMAP => Some 222 | GETRANDOM => Some 278 | GETENTROPY => Some 278 | SCHED_YIELD => Some 124
  | NANOSLEEP => Some 101 | FUTEX => Some 98 | CLONE => Some 220 | GETTID => Some 178
  | SOCKET => Some 198 | BIND => Some 200 | LISTEN => Some 201 | ACCEPT => Some 202
  | CONNECT => Some 203 | GETSOCKNAME => Some 204 | GETPEERNAME => Some 205 | SENDTO => Some 206
  | RECVFROM => Some 207 | SETSOCKOPT => Some 208 | SHUTDOWN => Some 210 | FTRUNCATE => Some 46
  | FSYNC => Some 82 | RENAMEAT => Some 38 | FSTAT => Some 80 | NEWFSTATAT => Some 79
  | GETDENTS64 => Some 61 | CHDIR => Some 49 | GETCWD => Some 17 | EXECVE => Some 221
  | WAIT4 => Some 260 | PIPE2 => Some 59 | DUP3 => Some 24 | FCNTL => Some 25
  | SCHED_GETAFFINITY => Some 123
  | _ => None
  end.

Definition nr_riscv64 (n : Nr) : option Z :=
  match n with
  | MKDIRAT => Some 34 | UNLINKAT => Some 35 | OPENAT => Some 56 | CLOSE => Some 57
  | LSEEK => Some 62 | READ => Some 63 | WRITE => Some 64 | READV => Some 65 | WRITEV => Some 66
  | EXIT => Some 93 | EXIT_GROUP => Some 94 | CLOCK_GETTIME => Some 113
  | GETTIMEOFDAY => Some 169 | GETPID => Some 172 | DUP => Some 23 | MUNMAP => Some 215
  | MMAP => Some 222 | GETRANDOM => Some 278 | GETENTROPY => Some 278 | SCHED_YIELD => Some 124
  | NANOSLEEP => Some 101 | FUTEX => Some 98 | CLONE => Some 220 | GETTID => Some 178
  | SOCKET => Some 198 | BIND => Some 200 | LISTEN => Some 201 | ACCEPT => Some 202
  | CONNECT => Some 203 | GETSOCKNAME => Some 204 | GETPEERNAME => Some 205 | SENDTO => Some 206
  | RECVFROM => Some 207 | SETSOCKOPT => Some 208 | SHUTDOWN => Some 210 | FTRUNCATE => Some 46
  | FSYNC => Some 82 | RENAMEAT => Some 38 | RENAMEAT2 => Some 276 | FSTAT => Some 80
  | NEWFSTATAT => Some 79 | GETDENTS64 => Some 61 | CHDIR => Some 49 | GETCWD => Some 17
  | EXECVE => Some 221 | WAIT4 => Some 260 | PIPE2 => Some 59 | DUP3 => Some 24
  | FCNTL => Some 25 | SCHED_GETAFFINITY => Some 123
  | _ => None
  end.

Definition nr_i686 (n : Nr) : option Z :=
  match n with
  | EXIT => Some 1 | FORK => Some 2 | READ => Some 3 | WRITE => Some 4 | CLOSE => Some 6
  | EXECVE => Some 11 | CHDIR => Some 12 | GETPID => Some 20 | DUP => Some 41 | DUP2 => Some 63
  | GETTIMEOFDAY => Some 78 | MUNMAP => Some 91 | SOCKETCALL => Some 102 | WAIT4 => Some 114
  | FSYNC => Some 118 | CLONE => Some 120 | LLSEEK => Some 140 | READV => Some 145
  | WRITEV => Some 146 | SCHED_YIELD => Some 158 | NANOSLEEP => Some 162 | GETCWD => Some 183
  | MMAP => Some 192 | FTRUNCATE => Some 194 | GETDENTS64 => Some 220 | FCNTL => Some 221
  | GETTID => Some 224 | FUTEX => Some 240 | SCHED_GETAFFINITY => Some 242
  | EXIT_GROUP => Some 252 | CLOCK_GETTIME => Some 265 | OPENAT => Some 295 | MKDIRAT => Some 296
  | NEWFSTATAT => Some 300 | FSTAT => Some 197 | UNLINKAT => Some 301 | RENAMEAT => Some 302
  | DUP3 => Some 330 | PIPE2 => Some 331 | RENAMEAT2 => Some 353 | GETRANDOM => Some 355
  | GETENTROPY => Some 355
  | _ => None
  end.

Definition nr_arm (n : Nr) : option Z :=
  match n with
  | EXIT => Some 1 | FORK => Some 2 | READ => Some 3 | WRITE => Some 4 | CLOSE => Some 6
  | EXECVE => Some 11 | CHDIR => Some 12 | GETPID => Some 20 | DUP => Some 41 | DUP2 => Some 63
  | GETTIMEOFDAY => Some 78 | MUNMAP => Some 91 | WAIT4 => Some 114 | FSYNC => Some 118
  | CLONE => Some 120 | LLSEEK => Some 140 | READV => Some 145 | WRITEV => Some 146
  | SCHED_YIELD => Some 158 | NANOSLEEP => Some 162 | GETCWD => Some 183 | MMAP => Some 192
  | FTRUNCATE => Some 194 | FSTAT => Some 197 | GETDENTS64 => Some 217 | FCNTL => Some 221
  | GETTID => Some 224 | FUTEX => Some 240 | SCHED_GETAFFINITY => Some 242
  | EXIT_GROUP => Some 248 | CLOCK_GETTIME => Some 263 | SOCKET => Some 281 | BIND => Some 282
  | CONNECT => Some 283 | LISTEN => Some 284 | ACCEPT => Some 285 | GETSOCKNAME => Some 286
  | GETPEERNAME => Some 287 | SENDTO => Some 290 | RECVFROM => Some 292 | SHUTDOWN => Some 293
  | SETSOCKOPT => Some 294 | NEWFSTATAT => Some 327 | OPENAT => Some 322 | MKDIRAT => Some 323
  | UNLINKAT => Some 328 | RENAMEAT => Some 329 | DUP3 => Some 358 | PIPE2 => Some 359
  | RENAMEAT2 => Some 382 | GETRANDOM => Some 384 | GETENTROPY => Some 384
  | _ => None
  end.

(** The BSD class selector of Darwin. *)
Definition bsd (n : Z) : Z := Z.lor 0x2000000 n.

Definition nr_macos_aarch64 (n : Nr) : option Z :=
  match n with
  | EXIT => Some (bsd 1) | READ => Some (bsd 3) | WRITE => Some (bsd 4) | READV => Some (bsd 120)
  | WRITEV => Some (bsd 121) | CLOSE => Some (bsd 6) | GETPID => Some (bsd 20)
  | DUP => Some (bsd 41) | LSEEK => Some (bsd 199) | GETTIMEOFDAY => Some (bsd 116)
  | UNLINKAT => Some (bsd 472) | MKDIRAT => Some (bsd 475) | MUNMAP => Some (bsd 73)
  | MMAP => Some (bsd 197) | OPENAT => Some (bsd 463) | GETENTROPY => Some (bsd 500)
  | SOCKET => Some (bsd 97) | CONNECT => Some (bsd 98) | ACCEPT => Some (bsd 30)
  | BIND => Some (bsd 104) | LISTEN => Some (bsd 106) | GETSOCKNAME => Some (bsd 32)
  | GETPEERNAME => Some (bsd 31) | SENDTO => Some (bsd 133) | RECVFROM => Some (bsd 29)
  | SETSOCKOPT => Some (bsd 105) | SHUTDOWN => Some (bsd 134) | FTRUNCATE => Some (bsd 201)
  | FSYNC => Some (bsd 95) | RENAMEAT => Some (bsd 465) | FSTAT => Some (bsd 339)
  | STAT64 => Some (bsd 338) | LSTAT64 => Some (bsd 340) | GETDIRENTRIES64 => Some (bsd 344)
  | CHDIR => Some (bsd 12) | FCNTL => Some (bsd 92) | FORK => Some (bsd 2)
  | EXECVE => Some (bsd 59) | WAIT4 => Some (bsd 7) | DUP2 => Some (bsd 90)
  | PIPE => Some (bsd 42) | SYSCTL => Some (bsd 202) | THREAD_SELFID => Some (bsd 372)
  | EXIT_GROUP => Some (bsd 1) | GETRANDOM => Some (bsd 500)
  | _ => None
  end.

Definition nr_macos_x86_64 (n : Nr) : option Z :=
  match n with
  | EXIT => Some (bsd 1) | READ => Some (bsd 3) | WRITE => Some (bsd 4) | READV => Some (bsd 120)
  | WRITEV => Some (bsd 121) | CLOSE => Some (bsd 6) | GETPID => Some (bsd 20)
  | DUP => Some (bsd 41) | LSEEK => Some (bsd 199) | GETTIMEOFDAY => Some (bsd 116)
  | UNLINKAT => Some (bsd 472) | MKDIRAT => Some (bsd 475) | MUNMAP => Some (bsd 73)
  | MMAP => Some (bsd 197) | OPENAT => Some (bsd 463) | GETENTROPY => Some (bsd 500)
  | SOCKET => Some (bsd 97) | CONNECT => Some (bsd 98) | ACCEPT => Some (bsd 30)
  | BIND => Some (bsd 104) | LISTEN => Some (bsd 106) | GETSOCKNAME => Some (bsd 32)
  | GETPEERNAME => Some (bsd 31) | SENDTO => Some (bsd 133) | RECVFROM => Some (bsd 29)
  | SETSOCKOPT => Some (bsd 105) | SHUTDOWN => Some (bsd 134) | FTRUNCATE => Some (bsd 201)
  | FSYNC => Some (bsd 95) | RENAMEAT => Some (bsd 465) | FSTAT => Some (bsd 339)
  | STAT64 => Some (bsd 338) | LSTAT64 => Some (bsd 340) | GETDIRENTRIES64 => Some (bsd 344)
  | CHDIR => Some (bsd 12) | FCNTL => Some (bsd 92) | FORK => Some (bsd 2)
  | EXECVE => Some (bsd 59) | WAIT4 => Some (bsd 7) | DUP2 => Some (bsd 90)
  | PIPE => Some (bsd 42) | SYSCTL => Some (bsd 202) | THREAD_SELFID => Some (bsd 372)
  | EXIT_GROUP => Some (bsd 1) | GETRANDOM => Some (bsd 500)
  | _ => None
  end.

(** The calls of src/src/sys_thread.rs on macOS: Mach traps have negative numbers. *)
Definition nr_thread_aarch64 (n : Nr) : option Z :=
  match n with
  | MACH_REPLY_PORT => Some (-26) | TASK_SELF => Some (-28)
  | THREAD_SELF => Some (-27) | THREAD_SWITCH => Some (-61) | MACH_MSG2 => Some (-47)
  | BSDTHREAD_TERMINATE => Some (bsd 361) | ULOCK_WAIT => Some (bsd 515)
  | ULOCK_WAKE => Some (bsd 516)
  | _ => None
  end.

Definition nr_thread_x86_64 (n : Nr) : option Z :=
  match n with
  | ULOCK_WAIT => Some (bsd 515) | ULOCK_WAKE => Some (bsd 516)
  | _ => None
  end.

(** ** The assembly *)
Inductive Asm : Type :=
| APush (r : reg)
| APop (r : reg)
| ALd (d base : reg) (off : Z)
| ATrap                              (* syscall, svc, ecall, int 0x80 *)
| ASetc (d : reg).                   (* cset, setc *)

(** What an [asm!] block is given: its operands, the words in memory behind a pointer
    operand, its code, and the registers it declares as changed. *)
Record Stub := mkStub {
  operands : list (reg * Z);
  array : list Z;
  code : list Asm;
  outputs : list reg;
}.

(** [syscall0] to [syscall5] pass zeros for what [syscall6] takes besides. *)
Definition pad (k : nat) (args : list Z) : list Z := args ++ replicate (k - length args) 0.

(** The macro makes one block per number of arguments. *)
Definition syscall_x86_64 (n : Z) (args : list Z) : Stub :=
  mkStub (("rax", n) :: zip ["rdi"; "rsi"; "rdx"; "r10"; "r8"; "r9"] args) []
    [ATrap] ["rax"; "rcx"; "r11"].

Definition syscall_aarch64 (n : Z) (args : list Z) : Stub :=
  mkStub (("x8", n) :: zip ["x0"; "x1"; "x2"; "x3"; "x4"; "x5"] (pad 6 args)) []
    [ATrap] ["x0"].

Definition syscall_riscv64 (n : Z) (args : list Z) : Stub :=
  mkStub (("a7", n) :: zip ["a0"; "a1"; "a2"; "a3"; "a4"; "a5"] (pad 6 args)) []
    [ATrap] ["a0"].

Definition syscall_arm (n : Z) (args : list Z) : Stub :=
  mkStub (("r7", n) :: zip ["r0"; "r1"; "r2"; "r3"; "r4"; "r5"] (pad 6 args)) []
    [ATrap] ["r0"].

(** [ebx], [ebp] and [esi] cannot be operands, so the arguments come from an array. *)
Definition syscall_i686 (ptr n : Z) (args : list Z) : Stub :=
  mkStub [("eax", ptr)] (pad 6 args ++ [n])
    [APush "ebp"; APush "ebx"; APush "esi"; APush "edi";
     ALd "ebx" "eax" 0; ALd "ecx" "eax" 4; ALd "edx" "eax" 8; ALd "esi" "eax" 12;
     ALd "edi" "eax" 16; ALd "ebp" "eax" 20; ALd "eax" "eax" 24;
     ATrap;
     APop "edi"; APop "esi"; APop "ebx"; APop "ebp"]
    ["eax"; "ecx"; "edx"].

(** [err] stands for the register the compiler picks for that operand. *)
Definition syscall_macos_aarch64 (n : Z) (args : list Z) : Stub :=
  mkStub (("x16", n) :: zip ["x0"; "x1"; "x2"; "x3"; "x4"; "x5"] (pad 6 args)) []
    [ATrap; ASetc "err"] ["x16"; "x17"; "x0"; "err"].

Definition syscall_macos_x86_64 (n : Z) (args : list Z) : Stub :=
  mkStub (("rax", n) :: zip ["rdi"; "rsi"; "rdx"; "r10"; "r8"; "r9"] (pad 6 args)) []
    [ATrap; ASetc "err"] ["rax"; "err"; "rcx"; "r11"].

(** [svc] and [svcn!] of src/src/sys_thread.rs: eight arguments, and the result as it is. *)
Definition svc (n : Z) (args : list Z) : Stub :=
  mkStub (("x16", n) :: zip ["x0"; "x1"; "x2"; "x3"; "x4"; "x5"; "x6"; "x7"] (pad 8 args)) []
    [ATrap] ["x16"; "x17"; "x0"].

(** A way into the kernel. *)
Inductive Gateway : Set := Native (t : Target) | Mach.

Definition stub_of (e : Gateway) (ptr n : Z) (args : list Z) : Stub :=
  match e with
  | Mach => svc n args
  | Native X86_64Linux => syscall_x86_64 n args
  | Native Aarch64Linux => syscall_aarch64 n args
  | Native Riscv64Linux => syscall_riscv64 n args
  | Native I686Linux => syscall_i686 ptr n args
  | Native ArmLinux => syscall_arm n args
  | Native Aarch64MacOS => syscall_macos_aarch64 n args
  | Native X86_64MacOS => syscall_macos_x86_64 n args
  | Native Wasm32Wasi => mkStub [] [] [] []
  end.

Definition number_of (e : Gateway) (n : Nr) : option Z :=
  match e with
  | Mach => nr_thread_aarch64 n
  | Native X86_64Linux => nr_x86_64 n
  | Native Aarch64Linux => nr_aarch64 n
  | Native Riscv64Linux => nr_riscv64 n
  | Native I686Linux => nr_i686 n
  | Native ArmLinux => nr_arm n
  | Native Aarch64MacOS => nr_macos_aarch64 n
  | Native X86_64MacOS => match nr_macos_x86_64 n with Some k => Some k | None => nr_thread_x86_64 n end
  | Native Wasm32Wasi => None
  end.

(** ** The machine *)
(** The kernel's convention: stack pointer, number, arguments, result, and what a call may
    change besides. *)
#[export] Instance Gateway_eq_dec : EqDecision Gateway.
Proof. solve_decision. Defined.

Record Abi := mkAbi {
  stack : reg; nr_reg : reg; arg_regs : list reg; res_reg : reg; changed : list reg;
}.

(** Darwin's calls have a second result ([fork] and [pipe] read it), in a register of its own. *)
Definition second_result (e : Gateway) : list reg :=
  match e with
  | Mach | Native Aarch64MacOS => ["x1"]
  | Native X86_64MacOS => ["rdx"]
  | Native _ => []
  end.

Definition abi_of (e : Gateway) : Abi :=
  match e with
  | Mach => mkAbi "sp" "x16" ["x0"; "x1"; "x2"; "x3"; "x4"; "x5"; "x6"; "x7"] "x0" ["x16"; "x17"; "x1"]
  | Native Aarch64MacOS =>
      mkAbi "sp" "x16" ["x0"; "x1"; "x2"; "x3"; "x4"; "x5"] "x0" ["x16"; "x17"; "x1"]
  | Native Aarch64Linux => mkAbi "sp" "x8" ["x0"; "x1"; "x2"; "x3"; "x4"; "x5"] "x0" []
  | Native Riscv64Linux => mkAbi "sp" "a7" ["a0"; "a1"; "a2"; "a3"; "a4"; "a5"] "a0" []
  | Native ArmLinux => mkAbi "sp" "r7" ["r0"; "r1"; "r2"; "r3"; "r4"; "r5"] "r0" []
  | Native I686Linux => mkAbi "esp" "eax" ["ebx"; "ecx"; "edx"; "esi"; "edi"; "ebp"] "eax" []
  | Native X86_64MacOS => mkAbi "rsp" "rax" ["rdi"; "rsi"; "rdx"; "r10"; "r8"; "r9"] "rax" ["rcx"; "r11"; "rdx"]
  | Native _ => mkAbi "rsp" "rax" ["rdi"; "rsi"; "rdx"; "r10"; "r8"; "r9"] "rax" ["rcx"; "r11"]
  end.

(** Darwin reports an error in the carry flag, and [syscall6] negates the result then. *)
Definition carries (e : Gateway) : bool := match e with Native t => is_macos t | Mach => false end.

Record Core := mkCore {
  cregs : string → Z;
  cmem : Z → Z;
  carry_flag : bool;
  calls : list (Z * list Z);         (* number and argument registers of each trap so far *)
}.

Section machine.
Context (kern : Z → list Z → Z * bool) (junk : string → Z) (abi : Abi).

Definition put (c : Core) (r : reg) (v : Z) : Core :=
  mkCore (upd String.eqb (cregs c) r v) (cmem c) (carry_flag c) (calls c).
Definition poke (c : Core) (a v : Z) : Core :=
  mkCore (cregs c) (upd Z.eqb (cmem c) a v) (carry_flag c) (calls c).

Definition enter_kernel (c : Core) : Core :=
  let n := cregs c (nr_reg abi) in
  let args := cregs c <$> arg_regs abi in
  let '(ret, cf) := kern n args in
  let c := foldr (λ r c, put c r (junk r)) c (changed abi) in
  put (mkCore (cregs c) (cmem c) cf ((n, args) :: calls c)) (res_reg abi) ret.

(** Stack and array words are those of i686, the only listing that has any. *)
Definition step_asm (c : Core) (i : Asm) : Core :=
  match i with
  | APush r =>
      let a := cregs c (stack abi) - 4 in poke (put c (stack abi) a) a (cregs c r)
  | APop r =>
      let a := cregs c (stack abi) in put (put c r (cmem c a)) (stack abi) (a + 4)
  | ALd d b off => put c d (cmem c (cregs c b + off))
  | ATrap => enter_kernel c
  | ASetc d => put c d (if carry_flag c then 1 else 0)
  end.

Fixpoint store_words (a : Z) (ws : list Z) (c : Core) : Core :=
  match ws with [] => c | w :: ws => store_words (a + 4) ws (poke c a w) end.

(** The compiler's part: the array is stored and the operands loaded. *)
Definition load (s : Stub) (ptr : Z) (c : Core) : Core :=
  foldr (λ o c, put c o.1 o.2) (store_words ptr (array s) c) (operands s).

Definition run_asm (s : Stub) (c : Core) : Core := fold_left step_asm (code s) c.
End machine.

(** What the wrapper returns. *)
Definition value (e : Gateway) (c : Core) : Z :=
  let ret := cregs c (res_reg (abi_of e)) in
  if carries e && negb (cregs c "err" =? 0) then wrap 64 (- ret) else ret.

(** ** Decoding a number *)
Definition all_nr : list Nr :=
  [READ; WRITE; READV; WRITEV; CLOSE; OPENAT; GETPID; GETCWD; FCNTL; CHDIR; LLSEEK; LSEEK;
   FTRUNCATE; FSYNC; DUP; STAT64; LSTAT64; NEWFSTATAT; FSTAT; RENAMEAT2; RENAMEAT; UNLINKAT;
   GETDIRENTRIES64; GETDENTS64; CLOCK_GETTIME; GETTIMEOFDAY; GETRANDOM; GETENTROPY; MKDIRAT;
   SOCKETCALL; SOCKET; CONNECT; BIND; LISTEN; ACCEPT; SENDTO; RECVFROM; SETSOCKOPT; GETSOCKNAME;
   GETPEERNAME; SHUTDOWN; FORK; CLONE; EXECVE; WAIT4; PIPE; PIPE2; DUP3; DUP2; EXIT; EXIT_GROUP;
   SCHED_GETAFFINITY; SYSCTL; THREAD_SELFID; GETTID; MMAP; MUNMAP; NANOSLEEP; FUTEX;
   SCHED_YIELD; ULOCK_WAIT; ULOCK_WAKE; MACH_MSG2; THREAD_SWITCH; BSDTHREAD_TERMINATE;
   THREAD_SELF; TASK_SELF; MACH_REPLY_PORT].

Lemma all_nr_complete n : n ∈ all_nr.
Proof. destruct n; unfold all_nr; repeat (first [apply list_elem_of_here|apply list_elem_of_further]). Qed.

(** The call a kernel with these tables takes a number for. *)
Definition decode_nr (e : Gateway) (k : Z) : option Nr :=
  snd <$> list_find (λ n, number_of e n = Some k) all_nr.

(** Two constants are second names: on every target the source of random bytes, on macOS the
    exit of the process. *)
Definition canonical (e : Gateway) (n : Nr) : Nr :=
  match n with
  | GETENTROPY => GETRANDOM
  | EXIT_GROUP => if carries e then EXIT else n
  | _ => n
  end.

(** The tables give different calls different numbers. *)
Lemma decode_number e n k : number_of e n = Some k → decode_nr e k = Some (canonical e n).
Proof.
  destruct e as [t|]; [destruct t|]; destruct n; intros E; try discriminate E;
    injection E as <-; reflexivity.
Qed.

(** ** What an [asm!] block promises its compiler *)
(** The frame the i686 block runs in: four words below the stack pointer are free and
    the array lies above it. *)
Definition frame_ok (e : Gateway) (ptr : Z) (c : Core) : Prop :=
  match e with
  | Native I686Linux => 16 ≤ cregs c "esp" ≤ ptr ∧ ptr + 28 ≤ 2 ^ 32
  | Native Wasm32Wasi => False
  | _ => True
  end.

Definition arity (e : Gateway) : nat := length (arg_regs (abi_of e)).

Lemma put_same c r v : cregs (put c r v) r = v.
Proof. cbn. unfold upd. by rewrite String.eqb_refl. Qed.

Lemma put_other c r v x : x ≠ r → cregs (put c r v) x = cregs c x.
Proof. intros H. cbn. unfold upd. destruct (String.eqb_spec r x); congruence. Qed.

Section promise.
Context (kern : Z → list Z → Z * bool) (junk : string → Z).

(** From [c], the block of [e] for call [n] and [args] with its array at [ptr] keeps its promises and ends
    in [c']. *)
Record block_ok (e : Gateway) (ptr n : Z) (args : list Z) (c c' : Core) : Prop := {
  bo_call : ∃ seen, calls c' = (n, seen) :: calls c ∧ take (length args) seen = args
            ∧ value e c' = (let '(ret, cf) := kern n seen in
                            if carries e && cf then wrap 64 (- ret) else ret);
  bo_regs : ∀ r, r ∉ outputs (stub_of e ptr n args) → r ∉ second_result e →
            cregs c' r = cregs (load (stub_of e ptr n args) ptr c) r;
  bo_mem : ∀ a, cregs c (stack (abi_of e)) ≤ a →
           cmem c' a = cmem (load (stub_of e ptr n args) ptr c) a;
}.
End promise.

Ltac absent := rewrite ?not_elem_of_cons; repeat split; try done; apply not_elem_of_nil.

Section blocks.
Context (kern : Z → list Z → Z * bool) (junk : string → Z).

(** What entering the kernel changes. *)
Lemma enter_kernel_spec abi c :
  let seen := cregs c <$> arg_regs abi in
  let c' := enter_kernel kern junk abi c in
  calls c' = (cregs c (nr_reg abi), seen) :: calls c
  ∧ cregs c' (res_reg abi) = (kern (cregs c (nr_reg abi)) seen).1
  ∧ carry_flag c' = (kern (cregs c (nr_reg abi)) seen).2
  ∧ cmem c' = cmem c
  ∧ (∀ r, r ≠ res_reg abi → r ∉ changed abi → cregs c' r = cregs c r).
Proof.
  intros seen c'. unfold c', enter_kernel. fold seen. destruct (kern _ seen) as [ret cf].
  set (d := foldr _ c (changed abi)).
  assert (calls d = calls c ∧ cmem d = cmem c ∧ ∀ r, r ∉ changed abi → cregs d r = cregs c r) as (Hc & Hm & Hr).
  { subst d c' seen. induction (changed abi) as [|x l IH]; [done|]. destruct IH as (IH1 & IH2 & IH3). cbn [foldr].
    split_and!; [done..|]. intros r [Hx Hl]%not_elem_of_cons. rewrite put_other by done. by apply IH3. }
  split_and!.
  - cbn. by rewrite Hc.
  - apply put_same.
  - done.
  - done.
  - intros r Hne Hch. rewrite put_other by done. cbn. by apply Hr.
Qed.

(** The operands are where the kernel looks for them. *)
Lemma operands_loaded e ptr n (args : list Z) c :
  e ≠ Native I686Linux → e ≠ Native Wasm32Wasi → (length args ≤ arity e)%nat →
  let c0 := load (stub_of e ptr n args) ptr c in
  cregs c0 (nr_reg (abi_of e)) = n ∧ take (length args) (cregs c0 <$> arg_regs (abi_of e)) = args
  ∧ calls c0 = calls c.
Proof.
  intros Hi Hw Hl.
  destruct e as [[]|]; try done; cbn in Hl;
    do 9 (try (destruct args as [|? args]; [by repeat split|cbn in Hl])); try lia.
Qed.

Lemma outputs_cover e ptr n (args : list Z) r :
  e ≠ Native I686Linux → e ≠ Native Wasm32Wasi → r ∉ outputs (stub_of e ptr n args) → r ∉ second_result e →
  r ≠ res_reg (abi_of e) ∧ r ∉ changed (abi_of e) ∧ (carries e = true → r ≠ "err").
Proof.
  intros Hi Hw Hr Hs. destruct e as [[]|]; try done; cbn in Hr, Hs |- *;
    repeat (apply not_elem_of_cons in Hr as [? Hr]); rewrite ?not_elem_of_cons in Hs;
    repeat split; rewrite ?not_elem_of_cons; naive_solver.
Qed.

Lemma register_block_ok e ptr n (args : list Z) c :
  e ≠ Native I686Linux → e ≠ Native Wasm32Wasi → (length args ≤ arity e)%nat → 
  let s := stub_of e ptr n args in
  block_ok kern e ptr n args c (run_asm kern junk (abi_of e) s (load s ptr c)).
Proof.
  intros Hi Hw Hl s. destruct (operands_loaded e ptr n args c Hi Hw Hl) as (Hn & Ha & Hc).
  fold s in Hn, Ha, Hc. destruct (enter_kernel_spec (abi_of e) (load s ptr c)) as (H1 & H2 & H3 & H4 & H5).
  rewrite Hn, Hc in *.
  assert (res_reg (abi_of e) ≠ "err") as He by (by destruct e as [[]|]).
  assert (run_asm kern junk (abi_of e) s (load s ptr c)
    = let c1 := enter_kernel kern junk (abi_of e) (load s ptr c) in
      if carries e then put c1 "err" (if carry_flag c1 then 1 else 0) else c1) as ->
    by (by destruct e as [[]|]).
  set (c1 := enter_kernel _ _ _ _) in *. cbn zeta. constructor.
  - exists (cregs (load s ptr c) <$> arg_regs (abi_of e)). split_and!; [by destruct (carries e)|done|].
    destruct (kern n _) as [ret cf]. cbn in H2, H3. unfold value. destruct (carries e); cbn [andb].
    + rewrite put_same, put_other, H2, H3 by done. by destruct cf.
    + done.
  - intros r Hr Hs. destruct (outputs_cover e ptr n args r Hi Hw Hr Hs) as (Ho & Hch & Her).
    destruct (carries e); [rewrite put_other by auto|]; by apply H5.
  - intros a _. fold s. destruct (carries e); by rewrite <- H4.
Qed.

(** ** The i686 listing *)
Lemma cregs_put c r v x : cregs (put c r v) x = if String.eqb r x then v else cregs c x.
Proof. done. Qed.
Lemma cregs_poke c a v x : cregs (poke c a v) x = cregs c x.
Proof. done. Qed.
Lemma cmem_put c r v a : cmem (put c r v) a = cmem c a.
Proof. done. Qed.
Lemma cmem_poke c a v b : cmem (poke c a v) b = if a =? b then v else cmem c b.
Proof. done. Qed.

Create HintDb core_state discriminated.
#[local] Hint Rewrite cregs_put cregs_poke cmem_put cmem_poke : core_state.

Ltac look :=
  autorewrite with core_state; cbn [String.eqb Ascii.eqb Bool.eqb stack];
  repeat first [rewrite (proj2 (Z.eqb_eq _ _)) by lia | rewrite (proj2 (Z.eqb_neq _ _)) by lia].

Notation i686_abi := (abi_of (Native I686Linux)).

Definition i686_save : list Asm := [APush "ebp"; APush "ebx"; APush "esi"; APush "edi"].
Definition i686_args : list Asm :=
  [ALd "ebx" "eax" 0; ALd "ecx" "eax" 4; ALd "edx" "eax" 8; ALd "esi" "eax" 12;
   ALd "edi" "eax" 16; ALd "ebp" "eax" 20; ALd "eax" "eax" 24].
Definition i686_restore : list Asm := [APop "edi"; APop "esi"; APop "ebx"; APop "ebp"].

Notation steps := (fold_left (step_asm kern junk i686_abi)).

Lemma i686_saved c :
  let e := cregs c "esp" in let c' := steps i686_save c in
  cregs c' "esp" = e - 16 ∧ (∀ r, r ≠ "esp" → cregs c' r = cregs c r)
  ∧ cmem c' (e - 16) = cregs c "edi" ∧ cmem c' (e - 12) = cregs c "esi"
  ∧ cmem c' (e - 8) = cregs c "ebx" ∧ cmem c' (e - 4) = cregs c "ebp"
  ∧ (∀ a, e ≤ a → cmem c' a = cmem c a) ∧ calls c' = calls c.
Proof.
  cbn zeta. cbn [fold_left step_asm i686_save abi_of stack].
  split_and!; intros; try done;
    lazymatch goal with
    | |- cregs _ ?x = cregs _ ?x => by repeat first [rewrite cregs_poke | rewrite put_other by done]
    | _ => look; first [done|lia]
    end.
Qed.

Lemma i686_loaded c ptr :
  cregs c "eax" = ptr →
  let c' := steps i686_args c in
  cregs c' "eax" = cmem c (ptr + 24) ∧ cregs c' "esp" = cregs c "esp" ∧ cmem c' = cmem c
  ∧ calls c' = calls c
  ∧ (cregs c' <$> arg_regs i686_abi)
    = cmem c <$> [ptr + 0; ptr + 4; ptr + 8; ptr + 12; ptr + 16; ptr + 20]
  ∧ (∀ r, r ∉ ["eax"; "ebx"; "ecx"; "edx"; "esi"; "edi"; "ebp"] → cregs c' r = cregs c r).
Proof.
  intros <-. cbn zeta. cbn [fold_left step_asm i686_args abi_of stack arg_regs fmap list_fmap].
  split_and!; try done.
  intros r Hr. repeat (apply not_elem_of_cons in Hr as [? Hr]). by rewrite !put_other by done.
Qed.

Lemma i686_restored c :
  let e := cregs c "esp" in let c' := steps i686_restore c in
  cregs c' "edi" = cmem c e ∧ cregs c' "esi" = cmem c (e + 4) ∧ cregs c' "ebx" = cmem c (e + 8)
  ∧ cregs c' "ebp" = cmem c (e + 12) ∧ cregs c' "esp" = e + 16 ∧ cmem c' = cmem c
  ∧ calls c' = calls c
  ∧ (∀ r, r ∉ ["edi"; "esi"; "ebx"; "ebp"; "esp"] → cregs c' r = cregs c r).
Proof.
  cbn zeta. cbn [fold_left step_asm i686_restore abi_of stack].
  split_and!; try done; try (look; by rewrite <-?Z.add_assoc).
  intros r Hr. repeat (apply not_elem_of_cons in Hr as [? Hr]). by rewrite !put_other by done.
Qed.

(** What the compiler stored is what the listing loads. *)
Lemma i686_array ptr n (args : list Z) c :
  (length args ≤ 6)%nat →
  let c0 := load (syscall_i686 ptr n args) ptr c in
  cmem c0 <$> [ptr + 0; ptr + 4; ptr + 8; ptr + 12; ptr + 16; ptr + 20] = pad 6 args
  ∧ cmem c0 (ptr + 24) = n ∧ cregs c0 "eax" = ptr ∧ calls c0 = calls c
  ∧ cregs c0 "esp" = cregs c "esp".
Proof.
  intros Hl. do 7 (try (destruct args as [|? args]; [|cbn in Hl])); try lia;
    cbn [load foldr operands array syscall_i686 pad app replicate length Nat.sub store_words fst snd
         fmap list_fmap]; split_and!; try done; repeat f_equal; look; done.
Qed.

Lemma i686_code ptr n args c :
  run_asm kern junk i686_abi (syscall_i686 ptr n args) c
  = steps i686_restore (enter_kernel kern junk i686_abi (steps i686_args (steps i686_save c))).
Proof.
  unfold run_asm. change (code (syscall_i686 ptr n args))
    with (i686_save ++ i686_args ++ [ATrap] ++ i686_restore)%list. by rewrite !fold_left_app.
Qed.

Lemma i686_block_ok ptr n (args : list Z) c :
  frame_ok (Native I686Linux) ptr c → (length args ≤ 6)%nat →
  let s := syscall_i686 ptr n args in
  block_ok kern (Native I686Linux) ptr n args c (run_asm kern junk i686_abi s (load s ptr c)).
Proof.
  intros [[Hlo Hhi] Htop] Hl s. destruct (i686_array ptr n args c Hl) as (Ha & Hn & He & Hc & Hsp).
  fold s in Ha, Hn, He, Hc, Hsp. set (c0 := load s ptr c) in *. unfold s. rewrite i686_code. fold s.
  destruct (i686_saved c0) as (S1 & S2 & M1 & M2 & M3 & M4 & S3 & S4).
  set (c1 := steps i686_save c0) in *.
  destruct (i686_loaded c1 ptr) as (L1 & L2 & L3 & L4 & L5 & L6); [by rewrite S2|].
  set (c2 := steps i686_args c1) in *.
  destruct (enter_kernel_spec i686_abi c2) as (K1 & K2 & _ & K4 & K5).
  set (c3 := enter_kernel kern junk i686_abi c2) in *.
  destruct (i686_restored c3) as (R1 & R2 & R3 & R4 & R5 & R6 & R7 & R8).
  set (c4 := steps i686_restore c3) in *.
  clearbody c4 c3 c2 c1.
  assert (∀ k, 0 ≤ k → cmem c1 (ptr + k) = cmem c0 (ptr + k)) as Hk by (intros; apply S3; lia).
  assert (cregs c2 <$> arg_regs i686_abi = pad 6 args) as Hseen
    by (rewrite L5, <- Ha; cbn [fmap list_fmap]; by rewrite !Hk by lia).
  assert (cregs c2 (nr_reg i686_abi) = n) as Hnr by (cbn; by rewrite L1, Hk by lia).
  assert (cregs c3 "esp" = cregs c "esp" - 16) as Hesp.
  { rewrite K5, L2, S1, Hsp; [done..|apply not_elem_of_nil]. }
  assert (cmem c3 = cmem c1) as Hmem by (by rewrite K4, L3).
  rewrite Hseen, Hnr in *. constructor.
  - exists (pad 6 args). split_and!.
    + by rewrite R7, K1, L4, S4, Hc.
    + unfold pad. by rewrite take_app_length.
    + unfold value. cbn [carries is_macos andb abi_of res_reg]. rewrite R8 by absent.
      cbn [abi_of res_reg] in K2. rewrite K2. by destruct (kern n _).
  - intros r Hr _. cbn in Hr. repeat (apply not_elem_of_cons in Hr as [? Hr]). change (load _ ptr c) with c0.
    rewrite Hesp, Hmem in *. rewrite Hsp in *.
    destruct (decide (r ∈ ["edi"; "esi"; "ebx"; "ebp"; "esp"])) as [Hin|Hin].
    + rewrite !elem_of_cons in Hin.
      destruct Hin as [-> | [-> | [-> | [-> | [-> | Hin]]]]]; [..|by apply not_elem_of_nil in Hin].
      * by rewrite R1.
      * rewrite R2, <- M2. f_equal. lia.
      * rewrite R3, <- M3. f_equal. lia.
      * rewrite R4, <- M4. f_equal. lia.
      * rewrite R5, Hsp. lia.
    + rewrite R8 by done. rewrite !not_elem_of_cons in Hin. destruct Hin as (? & ? & ? & ? & ? & _).
      rewrite K5; [|done|apply not_elem_of_nil]. rewrite L6; [by apply S2|].
      absent.
  - intros a Ha'. cbn in Ha'. change (load _ ptr c) with c0. rewrite R6, Hmem. apply S3. by rewrite Hsp.
Qed.

(** C31: the system call instruction. For every target and every call the tables know, the
    [asm!] block enters the kernel once; the kernel finds the call's number, which it can
    tell from those of all other calls, and the arguments in order; the wrapper returns the
    kernel's result (negated when Darwin flags an error); and the block changes no
    register it does not declare, except the one in which Darwin stores a second result, and no memory from the
    stack pointer up. *)
Theorem syscall_stub_correct e nr n args ptr c
    (Hn : number_of e nr = Some n) (Hl : (length args ≤ arity e)%nat) (Hf : frame_ok e ptr c) :
  decode_nr e n = Some (canonical e nr)
  ∧ block_ok kern e ptr n args c
      (run_asm kern junk (abi_of e) (stub_of e ptr n args) (load (stub_of e ptr n args) ptr c)).
Proof.
  split; [by apply decode_number|]. destruct (decide (e = Native I686Linux)) as [->|Hi].
  - by apply i686_block_ok.
  - apply register_block_ok; [done| |done]. by intros ->.
Qed.

(** The exception is real: on macOS the block declares that register as an input only, so it promises that it keeps
    its value, and it does not whenever the kernel stores something else there. *)
Lemma second_result_undeclared e ptr n args c r :
  r ∈ second_result e → (length args ≤ arity e)%nat →
  let s := stub_of e ptr n args in
  r ∉ outputs s ∧ cregs (run_asm kern junk (abi_of e) s (load s ptr c)) r = junk r.
Proof.
  intros Hr Hl s. destruct e as [[]|]; cbn in Hr; try (by apply not_elem_of_nil in Hr);
    apply list_elem_of_singleton in Hr as ->; (split; [cbn; absent|]); unfold run_asm; cbn [s stub_of code fold_left
      syscall_macos_aarch64 syscall_macos_x86_64 svc step_asm]; rewrite ?put_other by done; unfold enter_kernel;
    destruct (kern _ _); rewrite ?put_other by done; cbn [changed abi_of foldr cregs]; rewrite ?put_other by done;
    apply put_same.
Qed.
End blocks.

(** The thread routine of Clone.v uses the number of the table. *)
Lemma clone_number t :
  is_linux t = true → number_of (Native t) CLONE = Some (sys_clone (isa_of t)).
Proof. by destruct t. Qed.

(** A state with a stack, and a kernel that answers with the sum of its arguments. *)
Definition sample_core : Core := mkCore (λ r, if String.eqb r "esp" then 4096 else 7) (λ _, 0) false [].
Definition sum_kernel (n : Z) (args : list Z) : Z * bool := (foldr Z.add n args, false).

(** Witness of C31: a write on i686. *)
Lemma syscall_stub_correct_witness :
  let s := syscall_i686 4096 4 [1; 5000; 12] in
  let c := run_asm sum_kernel (λ _, 0) (abi_of (Native I686Linux)) s (load s 4096 sample_core) in
  decode_nr (Native I686Linux) 4 = Some WRITE ∧ cregs c "ebx" = 7.
Proof.
  destruct (syscall_stub_correct sum_kernel (λ _, 0) (Native I686Linux) WRITE 4 [1; 5000; 12] 4096
              sample_core) as [Hd [_ Hr _]].
  - reflexivity.
  - cbn. lia.
  - cbn. lia.
  - split; [exact Hd|]. refine (eq_trans (Hr "ebx" _ _) eq_refl); cbn; absent.
Defined.
