(* ===== verification/Stdin.v ===== *)
(** Standard input (src/src/io.rs) shared by several threads: one [BufReader] on descriptor 0,
    made on first use, behind a lock.

    The lock is used through its contract (Lock.v) and the one-time creation through Once.v:
    a thread works on the reader only between taking and dropping the guard.  The inner reader is
    any reader that delivers a finite input, with interruptions. *)
From S2P Require Import Prelude Lock Str Utf8 Io IoBuf.
From stdpp Require Import list.

(** ** One operation on the reader *)
Section operations.
Context (t : Target) {R : Type} `{Read R}.
Implicit Types b : BufReader R.

Lemma br_stream_pos k b s fin : br_stream t k b s fin → (1 ≤ k)%nat.
Proof. intros [_ (s' & _ & Hs)]. destruct k; [done|lia]. Qed.

(** A read takes the next bytes, none only when none are asked for or left. *)
Lemma br_read_step (Hf : fused (R:=R) t) k b s n :
  br_stream t k b s None →
  ∃ res b' k', br_read b n = Some (res, b') ∧ (k' ≤ k)%nat ∧
    match res with
    | Ok d => (length d ≤ n)%nat ∧ (d = [] → n = 0%nat ∨ s = [])
              ∧ ∃ s', s = d ++ s' ∧ br_stream t k' b' s' None
    | Err e => is_interrupted t e = true ∧ br_stream t k' b' s None
    end.
Proof.
  intros Hb. unfold br_read.
  destruct (bool_decide _ && bool_decide _) eqn:Ec.
  - apply andb_true_iff in Ec as [Hpc%bool_decide_eq_true Hle%bool_decide_eq_true].
    destruct Hb as [Hok (s' & -> & Hs)]. pose proof Hok as [_ Hpos].
    assert (buffered b = []) as E by (apply nil_length_inv; rewrite length_buffered by done; lia).
    rewrite E. cbn [app]. destruct k as [|k]; [done|].
    specialize (Hs n ltac:(lia)). destruct (read (br_inner b) n) as [[res r]|] eqn:Er; [|by destruct Hs].
    cbn [mbind option_bind].
    assert (∀ k s, stream t k r s None →
      br_stream t k (mkBufReader r (br_buf b) (br_pos b) (br_cap b)) s None) as Hkeep.
    { intros k1 s1 Hs1. split; [done|]. exists s1. split; [|done].
      change (s1 = buffered b ++ s1). by rewrite E. }
    destruct res as [d|e].
    + destruct Hs as [Hl Hs]. destruct (decide (d = [])) as [->|Hd].
      * destruct Hs as [-> _]. eexists _, _, 1%nat. split; [done|]. split_and!; [lia|lia|by right|].
        exists []. split; [done|]. apply Hkeep. apply (Hf (br_inner b) n); [lia|done].
      * destruct Hs as (s1 & -> & Hs). eexists _, _, k. split; [done|]. split_and!; [lia|lia|done|]. eauto.
    + eexists _, _, k. split; [done|]. split; [lia|]. destruct (is_interrupted t e); [|by destruct Hs].
      split; [done|]. by apply Hkeep.
  - clear Ec. destruct (fill_buf_spec t k b s None Hb) as (res & b' & -> & Hres). cbn [mbind option_bind].
    destruct res as [d|e].
    + destruct Hres as (Hd & _ & Hres). cbn zeta. rewrite (Nat.min_comm (length d) n), take_min_length.
      destruct (decide (d = [])) as [->|Hne].
      * destruct Hres as (-> & _ & Hok & r & m & Hm & Hr). rewrite take_nil.
        pose proof (br_stream_pos k b [] None Hb).
        eexists _, _, 1%nat. split; [done|]. split_and!; [lia|cbn; lia|by right|]. exists []. split; [done|].
        destruct (buffered_consume b' 0) as [Hok' Hb']; [done|lia|].
        rewrite Nat.min_0_r. split; [done|].
        exists []. rewrite <-Hd in Hb'. rewrite Hb'. split; [done|]. by apply (Hf r m).
      * destruct Hres as (k' & Hk' & [Hok (s' & -> & Hs)] & _). rewrite <-Hd.
        destruct (buffered_consume b' (Nat.min n (length d))) as [Hok' Hb'];
          [done|rewrite <-Hd; lia|]. rewrite <-Hd in Hb'.
        eexists _, _, k'. split; [done|]. split_and!; [done|rewrite length_take; lia| |].
        { intros E. destruct n; [by left|]. by destruct d. }
        exists (drop n d ++ s'). split; [by rewrite app_assoc, take_drop|].
        split; [done|]. exists s'. by rewrite Hb', drop_min_length.
    + eexists _, _. destruct (is_interrupted t e) eqn:Ei; [|by destruct Hres].
      destruct Hres as (k' & Hk' & Hb' & _). exists k'. split; [done|]. split_and!; [lia|done|done].
Qed.

(** The next line with its terminator, or what is left. *)
Definition next_line (s : list Z) : list Z := default [] (head (split_inclusive 10 s)).

(** [read_line] takes it in any case and hands it over when it is UTF-8. *)
Lemma read_line_step (Hf : fused (R:=R) t) fuel k b s buf :
  br_stream t k b s None → (k + length s ≤ fuel)%nat →
  let line := next_line s in
  ∃ b' k' s', (k' ≤ k)%nat ∧ s = line ++ s' ∧ br_stream t k' b' s' None ∧
    read_line t fuel b buf
    = Some (if utf8_valid line then (Ok (Z.of_nat (length line)), buf ++ line, b')
            else (Err (Simple InvalidData), buf, b')).
Proof.
  intros Hb Hk line. unfold read_line, line, next_line. rewrite split_inclusive_position.
  pose proof (br_stream_pos k b s None Hb).
  assert (k + length (buffered b) ≤ fuel)%nat as Hk'.
  { destruct Hb as [_ (s' & -> & _)]. rewrite length_app in Hk. lia. }
  pose proof (read_until_spec t Hf fuel k b s None 10 [] 0 Hb Hk') as Hr.
  destruct (position 10 s) as [i|] eqn:Ei.
  - destruct Hr as (b' & k' & -> & Hb' & Hle). apply position_lt in Ei. cbn [hd_error from_option id].
    exists b', k', (drop (S i) s). split_and!; [done|by rewrite take_drop|done|].
    cbn [mbind option_bind app]. rewrite length_take, Nat.min_l by lia. rewrite Z.add_0_l.
    by destruct (utf8_valid _).
  - destruct Hr as (b' & -> & Hb'). cbn [mbind option_bind app ended].
    exists b', 1%nat, []. rewrite app_nil_r.
    assert (default [] (head (if decide (s = []) then [] else [s])) = s) as ->
      by (by destruct (decide (s = [])) as [->|]).
    split_and!; [done|done|by apply Hb'|]. rewrite Z.add_0_l. by destruct (utf8_valid _).
Qed.
End operations.

(** ** The shared stream *)
Inductive StdinOp : Set := ReadOp (n : nat) | ReadLineOp.

(** What a call returned: the data of a [read], the count and the line of a [read_line]. *)
Inductive StdinRes : Type :=
| ReadRes (r : result (list Z) Error)
| LineRes (r : result Z Error) (line : list Z).

Inductive InPc : Type :=
| Idle
| Lock (op : StdinOp)                  (* stdin_buf().lock() *)
| Held (op : StdinOp)                  (* the guard is held *)
| Drop (op : StdinOp) (res : StdinRes).

Section stdin.
Context (t : Target) {R : Type} `{Read R} (fuel : nat).

Record InSys := mkIn {
  in_owner : option nat;
  cell : option (BufReader R);         (* STDIN_BUF *)
  users : list InPc;
  results : list (StdinOp * StdinRes);  (* finished calls, in order *)
}.

Definition in_at (s : InSys) (i : nat) (p : InPc) : InSys :=
  mkIn (in_owner s) (cell s) (<[i := p]> (users s)) (results s).

(** [stdin_buf]: the reader is made by the first caller. *)
Definition stdin_buf (r0 : R) (s : InSys) : BufReader R :=
  default (br_new r0) (cell s).

(** [Stdin::read] and [Stdin::read_line] of a [String]. *)
Definition stdin_op (op : StdinOp) (b : BufReader R) : option (StdinRes * BufReader R) :=
  match op with
  | ReadOp n => '(res, b) ← br_read b n; Some (ReadRes res, b)
  | ReadLineOp => '(res, line, b) ← read_line t fuel b []; Some (LineRes res line, b)
  end.

Definition stdin_call (i : nat) (r0 : R) (p : InPc) (s : InSys) : option InSys :=
  match p with
  | Lock op =>
      match in_owner s with
      | None => Some (mkIn (Some i) (Some (stdin_buf r0 s)) (<[i := Held op]> (users s)) (results s))
      | Some _ => None
      end
  | Held op =>
      b ← cell s;
      '(res, b) ← stdin_op op b;
      Some (mkIn (in_owner s) (Some b) (<[i := Drop op res]> (users s)) (results s))
  | Drop op res =>
      Some (mkIn None (cell s) (<[i := Idle]> (users s)) (results s ++ [(op, res)]))
  | Idle => None
  end.

Inductive in_step (r0 : R) : InSys → InSys → Prop :=
| in_call s i op : users s !! i = Some Idle → in_step r0 s (in_at s i (Lock op))
| in_move s s' i p : users s !! i = Some p → stdin_call i r0 p s = Some s' → in_step r0 s s'.

Definition in_init (n : nat) : InSys := mkIn None None (replicate n Idle) [].

(** ** The lock *)
Definition in_holds (p : InPc) : bool := match p with Held _ | Drop _ _ => true | _ => false end.
Definition in_put (o : option nat) (s : InSys) : InSys := mkIn o (cell s) (users s) (results s).
Definition in_inside (s : InSys) (i : nat) : bool := held_in in_holds (users s) i.

#[export] Instance stdin_lock_client r0 n : LockClient (in_step r0) in_owner in_put in_inside (in_init n).
Proof.
  split; [done|intros; by apply held_replicate|by intros []|done|done|done|].
  assert (∀ s s' i p p', users s !! i = Some p → users s' = <[i := p']> (users s) → in_holds p' = in_holds p →
    in_owner s' = in_owner s → (∀ o, in_step r0 (in_put o s) (in_put o s')) →
    client_kind (in_step r0) in_owner in_put in_inside s s') as Hsilent.
  { intros s s' i p p' Hi Hp Hh Ho Hs. apply kind_silent; [done..|]. intros j. unfold in_inside. rewrite Hp.
    by apply held_insert_same with p. }
  intros s s' Hs. destruct Hs as [s i op Hi|s s' i p Hi Hop].
  - eapply (Hsilent _ _ i Idle); [done|reflexivity|done|done|]. intros o. by apply (in_call r0 (in_put o s)).
  - destruct p as [|op|op|op res]; try done; cbn in Hop.
    + destruct (in_owner s) eqn:Eo; [done|]. injection Hop as <-. apply (kind_acquire _ _ _ _ _ _ i); [done..| |].
      * by apply (held_insert in_holds _ i (Lock op)).
      * intros j Hj. by apply held_insert_ne.
    + destruct (cell s) as [b|] eqn:Eb; [|done]. cbn in Hop. destruct (stdin_op op b) as [[res b']|] eqn:Er; [|done].
      injection Hop as <-. eapply (Hsilent _ _ i (Held op)); [done|reflexivity|done|done|].
      intros o. eapply (in_move r0 _ _ i (Held op)); [done|]. cbn. rewrite Eb. cbn. by rewrite Er.
    + injection Hop as <-. apply (kind_release _ _ _ _ _ _ i); [done|by apply (held_at in_holds _ i (Drop op res))| |].
      * by apply (held_insert in_holds _ i (Drop op res)).
      * intros j Hj. by apply held_insert_ne.
Qed.

(** ** Specification: the calls cut the input into pieces *)
(** A call with this result has taken [d] from the front of [input]. *)
Definition took (op : StdinOp) (res : StdinRes) (d input : list Z) : Prop :=
  match op, res with
  | ReadOp n, ReadRes (Ok data) =>
      d = data ∧ (length d ≤ n)%nat ∧ (d = [] → n = 0%nat ∨ input = [])
  | ReadOp n, ReadRes (Err e) => d = [] ∧ is_interrupted t e = true
  | ReadLineOp, LineRes (Ok n) line =>
      d = line ∧ d = next_line input ∧ n = Z.of_nat (length d) ∧ utf8_valid d = true
  | ReadLineOp, LineRes (Err e) line =>
      line = [] ∧ e = Simple InvalidData ∧ d = next_line input ∧ utf8_valid d = false
  | _, _ => False
  end.

(** The finished calls, one after the other, took the part of [input] before [rest]. *)
Inductive served : list (StdinOp * StdinRes) → list Z → list Z → Prop :=
| served_nil input : served [] input input
| served_cons op res l d input rest :
    took op res d (d ++ input) → served l input rest → served ((op, res) :: l) (d ++ input) rest.

Lemma served_snoc l input d rest op res :
  served l input (d ++ rest) → took op res d (d ++ rest) → served (l ++ [(op, res)]) input rest.
Proof.
  intros Hl. remember (d ++ rest) as x eqn:Ex. induction Hl as [x|op' res' l d' input x Ht Hl IH].
  - intros Hk. subst. apply served_cons; [done|]. constructor.
  - intros Hk. cbn. apply served_cons; auto.
Qed.


Section runs.
Context (Hf : fused (R:=R) t) (r0 : R) (k0 : nat) (input : list Z).
Hypothesis Hinput : stream t k0 r0 input None.
Hypothesis Hfuel : (k0 + length input ≤ fuel)%nat.

(** What is left of the input when all finished calls, and the one whose guard is about to be
    dropped, have taken theirs. *)
Definition left_over (s : InSys) (rest : list Z) : Prop :=
  match in_owner s with
  | Some i =>
      match users s !! i with
      | Some (Drop op res) => ∃ d, served (results s) input (d ++ rest) ∧ took op res d (d ++ rest)
      | _ => served (results s) input rest
      end
  | None => served (results s) input rest
  end.

Record in_inv (s : InSys) : Prop := {
  ii_owner : ∀ i, in_owner s = Some i ↔ ∃ p, users s !! i = Some p ∧ in_holds p = true;
  ii_cell : in_owner s ≠ None → is_Some (cell s);
  ii_rest : ∃ rest k, (k ≤ k0)%nat ∧ (length rest ≤ length input)%nat
            ∧ left_over s rest ∧ br_stream t k (stdin_buf r0 s) rest None;
}.

Lemma stdin_op_spec k b rest op :
  br_stream t k b rest None → (k + length rest ≤ fuel)%nat →
  ∃ res b' d rest' k', stdin_op op b = Some (res, b') ∧ rest = d ++ rest' ∧ took op res d rest
    ∧ br_stream t k' b' rest' None ∧ (k' ≤ k)%nat.
Proof.
  intros Hb Hk. destruct op as [n|]; cbn [stdin_op].
  - destruct (br_read_step t Hf k b rest n Hb) as (res & b' & k' & -> & Hk' & Hres).
    cbn [mbind option_bind]. destruct res as [d|e].
    + destruct Hres as (Hl & Hd & s' & -> & Hs). exists (ReadRes (Ok d)), b', d, s', k'.
      by split_and!.
    + destruct Hres as [Hi Hs]. exists (ReadRes (Err e)), b', [], rest, k'. by split_and!.
  - destruct (read_line_step t Hf fuel k b rest [] Hb Hk) as (b' & k' & s' & Hk' & Hsp & Hb' & ->).
    cbn [mbind option_bind]. destruct (utf8_valid (next_line rest)) eqn:Eu;
      (eexists _, _, (next_line rest), s', k'; split_and!; [done|done| |done|done]); by cbn.
Qed.

(** The thread at [i] does not hold the guard before or after. *)
Lemma left_over_outside s i p p' rest :
  (∀ j, in_owner s = Some j ↔ ∃ q, users s !! j = Some q ∧ in_holds q = true) →
  users s !! i = Some p → in_holds p = false → left_over s rest → left_over (in_at s i p') rest.
Proof.
  intros Hown Hi Hp Hl. unfold left_over in *. cbn. destruct (in_owner s) as [j|]; [|done].
  assert (i ≠ j).
  { intros ->. destruct (proj1 (Hown j) eq_refl) as (q & ? & ?). congruence. }
  by rewrite list_lookup_insert_ne.
Qed.

Lemma in_step_inv s s' : in_inv s → in_step r0 s s' → in_inv s'.
Proof.
  intros [H1 H2 (rest & k & Hk & Hlen & Hl & Hb)] Hstep.
  destruct Hstep as [s i op Hi|s s' i p Hi Hop].
  - constructor; cbn.
    + apply (owner_update in_holds (users s) (in_owner s) _ i Idle); auto.
    + done.
    + exists rest, k. split_and!; try done. by apply (left_over_outside s i Idle).
  - destruct p as [|op|op|op res]; cbn in Hop; [done|..].
    + destruct (in_owner s) eqn:Eo; [done|]. injection Hop as <-. constructor; cbn.
      * apply (owner_update in_holds (users s) None _ i (Lock op)); auto.
      * eauto.
      * exists rest, k. unfold left_over in *. rewrite Eo in Hl. cbn.
        rewrite list_lookup_insert_eq by (by eapply lookup_lt_Some). done.
    + assert (in_owner s = Some i) as Eo by (apply H1; eauto).
      destruct (H2 ltac:(congruence)) as [b Eb]. rewrite Eb in Hop. cbn [mbind option_bind] in Hop.
      unfold stdin_buf in Hb. rewrite Eb in Hb. cbn in Hb.
      destruct (stdin_op_spec k b rest op Hb ltac:(lia)) as (res & b' & d & rest' & k' & Er & -> & Ht & Hb' & Hk').
      rewrite Er in Hop. injection Hop as <-. constructor; cbn.
      * apply (owner_update in_holds (users s) (in_owner s) _ i (Held op)); auto.
      * eauto.
      * rewrite length_app in Hlen. exists rest', k'. split_and!; [lia|lia| |done].
        unfold left_over in *. rewrite Eo, Hi in Hl. cbn. rewrite Eo.
        rewrite list_lookup_insert_eq by (by eapply lookup_lt_Some). eauto.
    + injection Hop as <-. assert (in_owner s = Some i) as Eo by (apply H1; eauto).
      constructor; cbn.
      * apply (owner_update in_holds (users s) (in_owner s) _ i (Drop op res)); auto.
      * done.
      * exists rest, k. split_and!; try done. unfold left_over in *. rewrite Eo, Hi in Hl. cbn.
        destruct Hl as (d & Hs & Ht). by eapply served_snoc.
Qed.

Lemma in_reachable n s : rtc (in_step r0) (in_init n) s → in_inv s.
Proof.
  intros Hs. cut (in_inv (in_init n)).
  { intros Hinit. induction Hs; eauto using in_step_inv. }
  constructor; cbn.
  - intros i. split; [done|]. intros (p & [-> _]%lookup_replicate & ?). done.
  - done.
  - exists input, k0. split_and!; [done|done|constructor|].
    assert (br_ok (br_with_capacity (Z.to_nat 8192) r0)) as Hok.
    { unfold br_ok. cbn [br_pos br_cap br_buf br_with_capacity]. rewrite length_replicate. lia. }
    split; [done|]. exists input. split; [|done].
    replace (buffered _) with (@nil Z); [done|]. symmetry. apply nil_length_inv.
    by rewrite length_buffered.
Qed.

(** C27: sharing the input, for an input that ends without an error and keeps reporting its end (a failing read would
    make [read_line] drop what it has taken). However the threads interleave, the finished calls cut the input,
    from its start and without gaps, into what each of them took: a [read] its data,
    a [read_line] the next whole line, which it hands over when it is UTF-8 and discards
    with an error when it is not; one thread has the reader at a time, and its operation
    returns. *)
Theorem stdin_partition n s (Hs : rtc (in_step r0) (in_init n) s) :
  (∃ rest, served (results s) input rest)
  ∧ (∀ i j p q, users s !! i = Some p → users s !! j = Some q →
       in_holds p = true → in_holds q = true → i = j)
  ∧ (∀ i op, users s !! i = Some (Held op) → ∃ s', stdin_call i r0 (Held op) s = Some s').
Proof.
  apply in_reachable in Hs as [H1 H2 (rest & k & Hk & Hlen & Hl & Hb)]. split_and!.
  - unfold left_over in Hl. repeat case_match; eauto. destruct Hl as (d & Hd & _). eauto.
  - intros i j p q Hi Hj Hp Hq. assert (in_owner s = Some i) as E by (apply H1; eauto).
    assert (in_owner s = Some j) by (apply H1; eauto). congruence.
  - intros i op Hi. assert (in_owner s = Some i) as Eo by (apply H1; eauto).
    destruct (H2 ltac:(congruence)) as [b Eb]. cbn. unfold stdin_buf in Hb. rewrite Eb in Hb |- *.
    cbn [mbind option_bind]. cbn in Hb.
    destruct (stdin_op_spec k b rest op Hb ltac:(lia)) as (res & b' & _ & _ & _ & -> & _).
    cbn [mbind option_bind]. eauto.
Qed.
End runs.
End stdin.

(** Two threads read the text [a LF b LF]: one of them a byte, the other the rest of the line. *)
Definition sample_in : InSys (R:=list Z) :=
  mkIn None (Some (mkBufReader [] ([97; 10; 98; 10] ++ drop 4 (replicate (Z.to_nat 8192) 0))%Z 2 4))
    [Idle; Idle] [(ReadOp 1, ReadRes (Ok [97%Z])); (ReadLineOp, LineRes (Ok 1%Z) [10%Z])].

Lemma sample_in_reachable :
  rtc (in_step X86_64Linux 20 [97; 10; 98; 10]%Z) (in_init 2) sample_in.
Proof.
  advance ltac:(by apply (in_call _ _ _ _ 0%nat (ReadOp 1))).
  advance ltac:(by apply (in_call _ _ _ _ 1%nat ReadLineOp)).
  advance ltac:(by eapply (in_move _ _ _ _ _ 0%nat)).
  advance ltac:(by eapply (in_move _ _ _ _ _ 0%nat)).
  advance ltac:(by eapply (in_move _ _ _ _ _ 0%nat)).
  advance ltac:(by eapply (in_move _ _ _ _ _ 1%nat)).
  advance ltac:(by eapply (in_move _ _ _ _ _ 1%nat)).
  advance ltac:(by eapply (in_move _ _ _ _ _ 1%nat)).
  apply rtc_refl.
Qed.

(** Witness of C27. *)
Lemma stdin_partition_witness :
  ∃ rest, served X86_64Linux (results sample_in) [97; 10; 98; 10]%Z rest.
Proof.
  apply (stdin_partition X86_64Linux 20 (slice_fused X86_64Linux) [97; 10; 98; 10]%Z 5
           [97; 10; 98; 10]%Z (slice_stream X86_64Linux _) ltac:(cbn; lia) 2 sample_in
           sample_in_reachable).
Defined.
