(* ===== verification/LockClients.v ===== *)
(** The channel, the monitors and the standard streams over the futex mutex.

    Mpsc.v, Condvar.v, Stdio.v and Stdin.v are proved against the contract of Lock.v; LockSpec.v
    shows that a client of the contract reaches the same states over the implementation.  Here the
    two meet: what the components promise holds when their lock is the futex mutex. *)
From S2P Require Import Prelude.
From S2P Require Import Mutex.
From S2P Require Import Lock.
From S2P Require Import LockSpec.
From S2P Require Import Stdio.
From S2P Require Import Mpsc.

Section clients.
Context {T : Type}.

(** A channel whose queue is protected by the futex mutex. *)
Definition mpsc_over_mutex : Chan T * MutexSys → Chan T * MutexSys → Prop :=
  over_mutex chan_step chan_put chan_inside.

(** The mutex is held exactly while the receiver or one sender is between lock and unlock. *)
Lemma channel_over_mutex n (c : Chan T) s :
  rtc mpsc_over_mutex (channel, Mutex.init n) (c, s) →
  sent c = received c ++ queue c
  ∧ (Mutex.state s ≠ 0 ↔ recv_holds (receiver c) = true
       ∨ ∃ i p, sender c !! i = Some p ∧ send_holds p = true).
Proof.
  intros Hrun. pose proof (over_mutex_lock _ _ _ _ _ _ Hrun) as (_ & Hm & _); cbn in Hm.
  destruct (over_mutex_reach chan_step chan_owner chan_put chan_inside channel n c s Hrun) as [Hc Hin].
  split; [apply (ci_log _ (chan_reachable _ Hc))|]. rewrite <-(owner_none s Hm). split.
  - intros Ho. destruct (LockSpec.owner s) as [[|i]|]; [left|right|done].
    + by apply (Hin 0%nat).
    + pose proof (proj1 (Hin (S i)) eq_refl) as Hi. cbn in Hi. unfold held_in in Hi.
      destruct (sender c !! i) as [p|] eqn:E; [|done]. by exists i, p.
  - intros [Hr|(i & p & Hi & Hp)] Hn.
    + apply (Hin 0%nat) in Hr. congruence.
    + assert (LockSpec.owner s = Some (S i)) by (apply Hin; cbn; by rewrite (held_at _ _ i p)). congruence.
Qed.
End clients.

(** Printing through the futex mutex: the blocks of output do not mix. *)
Lemma stdout_over_mutex n s m :
  rtc (over_mutex out_step out_put out_inside) (out_init n, Mutex.init n) (s, m) →
  Forall block_ok (blocks s)
  ∧ (∀ i p, printers s !! i = Some p → holds p = true → output s = concat (Stdio.sent <$> blocks s) ++ partial p).
Proof.
  intros Hrun. destruct (over_mutex_reach out_step Stdio.owner out_put out_inside (out_init n) n s m Hrun) as [Hs _].
  destruct (out_shows n _ Hs) as (Hb & Ho & _). split; [exact Hb|exact Ho].
Qed.

(** Witness of C5. *)
Lemma lock_client_over_mutex_witness :
  ∃ n s, rtc mpsc_over_mutex (channel, Mutex.init n) (sample_chan, s) ∧ LockSpec.owner s = chan_owner sample_chan.
Proof.
  apply (lock_client_over_mutex chan_step chan_owner chan_put chan_inside channel channel_lock_client).
  exact sample_chan_reachable.
Defined.
