(* ===== verification/Current.v ===== *)
(** [thread::current] (src/src/thread.rs): how a thread finds the handle that its parent keeps
    in the [JoinHandle], and how a thread that was not spawned here gets one.

    [CURRENT] is a thread-local value, so a slot per thread (Tls.v).  Identifiers
    come from one counter of 64 bits. *)
From S2P Require Import Prelude Clone Str Io Syscall Thread.
From stdpp Require Import list.
Open Scope Z_scope.

(** A thread in [current()] or at its start. *)
Inductive CurPc : Type :=
| Start (t : Thread)          (* thread_start: CURRENT.with(..) to come *)
| Out
| Get                         (* CURRENT.with(|c| c.borrow().clone()) *)
| New                         (* Thread::new(None) *)
| Set_ (t : Thread).          (* CURRENT.with(|c| *c.borrow_mut() = Some(t.clone())) *)

Record CurSys := mkCur {
  next : Z;                          (* ThreadId's counter *)
  slots : list (option Thread);      (* CURRENT of each thread *)
  threads : list CurPc;
  returned : list (nat * Thread);    (* what current() gave each caller *)
  handles : list (nat * Thread);     (* what spawn() gave for each new thread *)
  owners : list nat;                 (* which thread each identifier was made for *)
}.

Definition go (s : CurSys) (i : nat) (p : CurPc) : CurSys :=
  mkCur (next s) (slots s) (<[i := p]> (threads s)) (returned s) (handles s) (owners s).

Definition answer (s : CurSys) (i : nat) (t : Thread) : CurSys :=
  mkCur (next s) (slots s) (<[i := Out]> (threads s)) (returned s ++ [(i, t)]) (handles s) (owners s).

Definition install (s : CurSys) (i : nat) (t : Thread) : CurSys :=
  mkCur (next s) (<[i := Some t]> (slots s)) (threads s) (returned s) (handles s) (owners s).

(** [current()], one access of a shared word or slot at a time. *)
Definition current (i : nat) (p : CurPc) (s : CurSys) : option CurSys :=
  match p with
  | Get =>
      match slots s !! i with
      | Some (Some t) => Some (answer s i t)
      | _ => Some (go s i New)
      end
  | New =>
      let '(t, n) := thread_new None (next s) in
      Some (mkCur n (slots s) (<[i := Set_ t]> (threads s)) (returned s) (handles s) (owners s ++ [i]))
  | Set_ t => Some (answer (install s i t) i t)
  | _ => None
  end.

(** [Builder::spawn] makes the handle; the new thread starts with it. *)
Definition spawn_handle (name : option str) (s : CurSys) : CurSys :=
  let '(t, n) := thread_new name (next s) in
  let child := length (threads s) in
  mkCur n (slots s ++ [None]) (threads s ++ [Start t]) (returned s) (handles s ++ [(child, t)])
    (owners s ++ [child]).

Inductive cur_step : CurSys → CurSys → Prop :=
| cu_call s i : threads s !! i = Some Out → cur_step s (go s i Get)
| cu_current s s' i p : threads s !! i = Some p → current i p s = Some s' → cur_step s s'
| cu_spawn s i name : threads s !! i = Some Out → cur_step s (spawn_handle name s)
| cu_start s i t : threads s !! i = Some (Start t) → cur_step s (go (install s i t) i Out).

(** Threads that were not spawned here, such as main. *)
Definition cur_init (n : nat) : CurSys := mkCur 1 (replicate n None) (replicate n Out) [] [] [].

(** ** Invariant *)
(** [t] was made for thread [i]. *)
Definition made_for (os : list nat) (i : nat) (t : Thread) : Prop :=
  ∃ k, os !! k = Some i ∧ id t = wrap 64 (1 + Z.of_nat k).

Definition cur_says (s : CurSys) (i : nat) (p : CurPc) : Prop :=
  match p with
  | Start t => slots s !! i = Some None ∧ made_for (owners s) i t
  | Set_ t => slots s !! i = Some None ∧ made_for (owners s) i t ∧ ∀ t', (i, t') ∉ handles s
  | New => slots s !! i = Some None ∧ ∀ t', (i, t') ∉ handles s
  | _ => True
  end.

(** The handle of thread [i]: in its slot, or still to be installed. *)
Definition own_handle (s : CurSys) (i : nat) (t : Thread) : Prop :=
  slots s !! i = Some (Some t) ∨ threads s !! i = Some (Start t).

Record cur_inv (s : CurSys) : Prop := {
  ci_next : next s = wrap 64 (1 + Z.of_nat (length (owners s)));
  ci_len : length (slots s) = length (threads s);
  ci_pc : ∀ i p, threads s !! i = Some p → cur_says s i p;
  ci_slot : ∀ i t, slots s !! i = Some (Some t) → made_for (owners s) i t;
  ci_returned : ∀ i t, (i, t) ∈ returned s → slots s !! i = Some (Some t);
  ci_handles : ∀ i t, (i, t) ∈ handles s → own_handle s i t;
}.

Lemma made_for_snoc os i t j : made_for os i t → made_for (os ++ [j]) i t.
Proof. intros (k & Hk & Hid). exists k. split; [by apply lookup_app_l_Some|done]. Qed.

Lemma made_for_new os i n name :
  n = wrap 64 (1 + Z.of_nat (length os)) → made_for (os ++ [i]) i (mkThread n name).
Proof. intros ->. exists (length os). split; [by apply list_lookup_middle|done]. Qed.

Lemma next_snoc os (i : nat) n :
  n = wrap 64 (1 + Z.of_nat (length os)) →
  wrap 64 (n + 1) = wrap 64 (1 + Z.of_nat (length (os ++ [i]))).
Proof.
  intros ->. unfold wrap. rewrite length_app. cbn [length].
  rewrite Z.add_mod_idemp_l by done. f_equal. lia.
Qed.

(** A thread moves and neither it nor its slot changes what is known of the handles. *)
Lemma go_inv s i p p' :
  cur_inv s → threads s !! i = Some p → (∀ t, p ≠ Start t) → cur_says s i p' → cur_inv (go s i p').
Proof.
  intros [H1 H2 H3 H4 H5 H6] Hi Hp Hp'. constructor; cbn; try done.
  - by rewrite length_insert.
  - intros j q [[-> ->]|[_ Hq]]%(lookup_upd _ i p); [done| |done]. by apply H3.
  - intros j t Hj. destruct (H6 j t Hj) as [Hs|Hs]; [by left|right].
    cbn. apply (lookup_upd _ i p); [done|]. right. split; [|done]. intros ->. naive_solver.
Qed.

Lemma answer_inv s i p t :
  cur_inv s → threads s !! i = Some p → (∀ t', p ≠ Start t') → slots s !! i = Some (Some t) →
  cur_inv (answer s i t).
Proof.
  intros Hinv Hi Hp Hs. destruct (go_inv s i p Out Hinv Hi Hp I) as [H1 H2 H3 H4 H5 H6].
  constructor; try done. intros j t' [Hj| [= -> ->]%list_elem_of_singleton]%elem_of_app; [by apply H5|done].
Qed.

(** The slot of a thread is filled with the handle made for it. *)
Lemma install_inv s i p t :
  cur_inv s → threads s !! i = Some p → p = Start t ∨ p = Set_ t →
  cur_inv (go (install s i t) i Out).
Proof.
  intros Hinv Hi Hp. pose proof Hinv as [H1 H2 H3 H4 H5 H6].
  assert (slots s !! i = Some None ∧ made_for (owners s) i t ∧ ∀ t', (i, t') ∈ handles s → t' = t)
    as (Hs & Hm & Hh).
  { specialize (H3 i p Hi). destruct Hp as [-> | ->]; cbn in H3; destruct H3 as (Hs & Hm).
    - split_and!; [done..|]. intros t' Ht'. destruct (H6 i t' Ht') as [E|E]; congruence.
    - destruct Hm as [Hm Hn]. split_and!; [done..|]. intros t' Ht'. by destruct (Hn t'). }
  assert (∀ j x, <[i := Some t]> (slots s) !! j = Some x
                 ↔ (j = i ∧ x = Some t ∨ j ≠ i ∧ slots s !! j = Some x)) as Hslot
    by (intros j x; by apply (lookup_upd _ i None)).
  assert (∀ j t', slots s !! j = Some (Some t') → j ≠ i) as Hfull by (intros j t' Hj ->; congruence).
  constructor; cbn; try done.
  - by rewrite !length_insert.
  - intros j q [[-> ->]|[Hne Hq]]%(lookup_upd _ i p); [done| |done].
    specialize (H3 j q Hq). destruct q; cbn in *; try done;
      rewrite Hslot; destruct H3 as [? ?]; (split; [by right|done]).
  - intros j t' [[-> [= <-]]|[_ Hj]]%Hslot; eauto.
  - intros j t' Hj. apply Hslot. right. specialize (H5 j t' Hj). eauto.
  - intros j t' Hj. unfold own_handle. cbn. rewrite Hslot, (lookup_upd _ i p) by done.
    destruct (decide (j = i)) as [->|Hne]; [left; left; by rewrite (Hh t' Hj)|].
    destruct (H6 j t' Hj); auto.
Qed.

(** A fresh identifier. *)
Lemma made_inv s i p t n :
  cur_inv s → threads s !! i = Some New → thread_new None (next s) = (t, n) → p = Set_ t →
  cur_inv (mkCur n (slots s) (<[i := p]> (threads s)) (returned s) (handles s) (owners s ++ [i])).
Proof.
  intros Hinv Hi Hn ->. pose proof Hinv as [H1 H2 H3 H4 H5 H6]. pose proof (H3 i New Hi) as [Hs Hh].
  injection Hn as <- <-. constructor; cbn; try done.
  - by apply next_snoc.
  - by rewrite length_insert.
  - intros j q [[-> ->]|[Hne Hq]]%(lookup_upd _ i New); [| |done].
    + split_and!; [done|by apply made_for_new|done].
    + specialize (H3 j q Hq). destruct q; cbn in *; try done; naive_solver eauto using made_for_snoc.
  - eauto using made_for_snoc.
  - intros j t Hj. destruct (H6 j t Hj) as [E|E]; [by left|right]. cbn.
    apply (lookup_upd _ i New); [done|]. right. split; [|done]. intros ->. congruence.
Qed.

Lemma spawn_handle_inv s name : cur_inv s → cur_inv (spawn_handle name s).
Proof.
  intros [H1 H2 H3 H4 H5 H6]. unfold spawn_handle, thread_new, next_id.
  assert (∀ i t, (i, t) ∈ handles s → i < length (threads s))%nat as Hold.
  { intros i t Hi. destruct (H6 i t Hi) as [E|E]; apply lookup_lt_Some in E; lia. }
  assert (∀ i x, (slots s ++ [None]) !! i = Some x ↔
     slots s !! i = Some x ∨ i = length (threads s) ∧ x = None) as Hslot.
  { intros i x. rewrite lookup_app_Some, list_lookup_singleton_Some, <-H2.
    split; [intros [?|(? & ? & <-)]; [by left|right; split; [lia|done]]|].
    intros [?|[-> ->]]; [by left|right; split_and!; [lia|lia|done]]. }
  assert (∀ i p, threads s !! i = Some p → cur_says (mkCur (next s) (slots s ++ [None]) (threads s)
    (returned s) (handles s ++ [(length (threads s), mkThread (next s) name)])
    (owners s ++ [length (threads s)])) i p) as Hsays.
  { intros i p Hi. specialize (H3 i p Hi). apply lookup_lt_Some in Hi.
    destruct p; cbn in *; try done; rewrite Hslot; destruct H3 as [? Hr];
      repeat split; try (by left); try (apply made_for_snoc; naive_solver);
      intros t' [Ht'| [= -> _]%list_elem_of_singleton]%elem_of_app; try lia; naive_solver. }
  constructor; cbn.
  - by apply next_snoc.
  - rewrite !length_app, H2. done.
  - intros i p [Hi|(Hge & [Hz <-]%list_lookup_singleton_Some)]%lookup_app_Some; [by apply Hsays|].
    assert (i = length (threads s)) as -> by lia. cbn. rewrite Hslot.
    split; [by right|by apply made_for_new].
  - intros i t [Hi|[_ ?]]%Hslot; [|done]. eauto using made_for_snoc.
  - intros i t Hi. apply Hslot. left. by apply H5.
  - intros i t [Hi| [= -> ->]%list_elem_of_singleton]%elem_of_app; unfold own_handle; cbn.
    + destruct (H6 i t Hi) as [E|E]; [left; apply Hslot; by left|right; by apply lookup_app_l_Some].
    + right. by apply list_lookup_middle.
Qed.

Lemma cur_step_inv s s' : cur_inv s → cur_step s s' → cur_inv s'.
Proof.
  intros Hinv Hstep. destruct Hstep as [s i Hi|s s' i p Hi Hop|s i name Hi|s i t Hi].
  - by apply (go_inv s i Out).
  - destruct p as [t| | | |t]; try done; cbn in Hop.
    + destruct (slots s !! i) as [[t|]|] eqn:Es; injection Hop as <-.
      * by apply (answer_inv s i Get).
      * apply (go_inv s i Get); [done..|]. split; [done|]. intros t' Ht'.
        destruct (ci_handles s Hinv i t' Ht'); congruence.
      * apply lookup_ge_None in Es. apply lookup_lt_Some in Hi. rewrite (ci_len s Hinv) in Es. lia.
    + injection Hop as <-. by eapply made_inv.
    + injection Hop as <-. pose proof (install_inv s i (Set_ t) t Hinv Hi ltac:(by right)) as Hin.
      assert (i < length (slots s))%nat
        by (rewrite (ci_len s Hinv); by eapply lookup_lt_Some).
      pose proof (answer_inv _ i Out t Hin) as Ha. unfold answer, go, install in *. cbn in Ha.
      rewrite list_insert_insert_eq in Ha. apply Ha; [|done|by apply list_lookup_insert_eq].
      apply list_lookup_insert_eq. by eapply lookup_lt_Some.
  - by apply spawn_handle_inv.
  - by apply (install_inv s i (Start t)); [..|left].
Qed.

Lemma cur_reachable n s : rtc cur_step (cur_init n) s → cur_inv s.
Proof.
  intros Hs. cut (cur_inv (cur_init n)).
  { intros Hinit. induction Hs; eauto using cur_step_inv. }
  constructor; cbn; try done.
  - by rewrite !length_replicate.
  - by intros i p [-> _]%lookup_replicate.
  - by intros i t [? _]%lookup_replicate.
  - by intros i t ?%not_elem_of_nil.
  - by intros i t ?%not_elem_of_nil.
Qed.

Lemma made_for_inj os i j t t' :
  Z.of_nat (length os) < 2 ^ 64 → made_for os i t → made_for os j t' → id t = id t' → i = j.
Proof.
  intros Hl (k & Hk & Ek) (k' & Hk' & Ek'). pose proof (lookup_lt_Some _ _ _ Hk).
  pose proof (lookup_lt_Some _ _ _ Hk'). rewrite Ek, Ek'. unfold wrap. intros E.
  cut (k = k'); [intros ->; congruence|].
  destruct (decide (1 + Z.of_nat k < 2 ^ 64)), (decide (1 + Z.of_nat k' < 2 ^ 64)).
  - rewrite !Z.mod_small in E by lia. lia.
  - replace (1 + Z.of_nat k') with (2 ^ 64) in E by lia. rewrite Z_mod_same_full, Z.mod_small in E by lia. lia.
  - replace (1 + Z.of_nat k) with (2 ^ 64) in E by lia. rewrite Z_mod_same_full, Z.mod_small in E by lia. lia.
  - lia.
Qed.

(** The current thread. However the threads interleave, all calls of [current()] in one thread
    give the same handle, in a spawned thread the very one its [JoinHandle]
    holds (so that [unpark] on it reaches the thread that parks); and as long
    as fewer than [2^64] handles were made, different threads have different identifiers. *)
Theorem current_correct n s (Hs : rtc cur_step (cur_init n) s) :
  (∀ i t t', (i, t) ∈ returned s → (i, t') ∈ returned s → t = t')
  ∧ (∀ i t t', (i, t) ∈ handles s → (i, t') ∈ returned s → t = t')
  ∧ (Z.of_nat (length (owners s)) < 2 ^ 64 →
     ∀ i j t t', (i, t) ∈ returned s → (j, t') ∈ returned s → id t = id t' → i = j).
Proof.
  apply cur_reachable in Hs as [H1 H2 H3 H4 H5 H6]. split_and!.
  - intros i t t' Ht%H5 Ht'%H5. congruence.
  - intros i t t' [Ht|Ht]%H6 Ht'%H5; [congruence|]. specialize (H3 i _ Ht) as [? _]. congruence.
  - intros Hl i j t t' Ht%H5%H4 Ht'%H5%H4. by apply (made_for_inj (owners s)).
Qed.

(** Main asks for its handle and spawns a thread, which asks for its own. *)
Definition sample_cur : CurSys :=
  mkCur 3 [Some (mkThread 1 None); Some (mkThread 2 None)] [Out; Out]
    [(0%nat, mkThread 1 None); (1%nat, mkThread 2 None)] [(1%nat, mkThread 2 None)] [0%nat; 1%nat].

Lemma sample_cur_reachable : rtc cur_step (cur_init 1) sample_cur.
Proof.
  advance ltac:(by apply (cu_call _ 0%nat)).
  do 3 advance ltac:(by eapply (cu_current _ _ 0%nat)).
  advance ltac:(by apply (cu_spawn _ 0%nat None)).
  advance ltac:(by eapply (cu_start _ 1%nat)).
  advance ltac:(by apply (cu_call _ 1%nat)).
  advance ltac:(by eapply (cu_current _ _ 1%nat)).
  apply rtc_refl.
Qed.

(** An instance. *)
Lemma current_correct_witness :
  ∃ t, (1%nat, t) ∈ handles sample_cur ∧ t = mkThread 2 None.
Proof.
  destruct (current_correct 1 sample_cur sample_cur_reachable) as (_ & H & _).
  exists (mkThread 2 None). split; [left|]. apply (H 1%nat); [left|right; left].
Defined.
