(* ===== verification/ParkThreads.v ===== *)
(** [thread::park], [thread::park_timeout] and [Thread::unpark] (src/src/thread.rs): the parkers of Park.v reached
    through the handles of Current.v.

    A thread parks on the parker of the handle that [current()] gives it; any thread that has a handle may
    unpark it.  Park.v takes for granted that one thread waits on each parker: here that is shown, and
    with it that every parker of a program behaves as Park.v says. *)
From S2P Require Import Prelude Clone Str Io Syscall Thread Park Current.
From stdpp Require Import list.
Open Scope Z_scope.

(** Where a thread is; a parker is named by the identifier of its handle. *)
Inductive PtPc : Set :=
| PtOut
| PtAsk (timeout : bool)        (* park() or park_timeout(): in current() *)
| PtPark (h : Z) (p : ParkPc)   (* .0.parker.park() *)
| PtUnpark (h : Z) (u : UnparkPc).

#[export] Instance UnparkPc_eq_dec : EqDecision UnparkPc.
Proof. solve_decision. Defined.

Record PtSys := mkPt {
  cur : CurSys;
  tok : Z → Z;              (* the word of each parker *)
  pts : nat → PtPc;
  n_unparks : Z → nat;      (* unparks of each handle, and returns of park on it *)
  n_returns : Z → nat;
}.

Definition upd {A B} `{EqDecision A} (f : A → B) (a : A) (b : B) : A → B :=
  λ x, if decide (x = a) then b else f x.

Definition pt_go (s : PtSys) (i : nat) (p : PtPc) : PtSys :=
  mkPt (cur s) (tok s) (upd (pts s) i p) (n_unparks s) (n_returns s).

(** A thread that parks moves from [p] to [p'] and leaves [w] in the word. *)
Definition pt_move (s : PtSys) (i : nat) (h : Z) (p p' : ParkPc) (w : Z) : PtSys :=
  mkPt (cur s) (upd (tok s) h w) (upd (pts s) i (if decide (p' = PIdle) then PtOut else PtPark h p'))
    (n_unparks s) (upd (n_returns s) h (park_returns p p' + n_returns s h)%nat).

(** A thread that unparks. *)
Definition pt_unpark (s : PtSys) (i : nat) (h : Z) (u : UnparkPc) (w : Z) : PtSys :=
  mkPt (cur s) (upd (tok s) h w) (upd (pts s) i (if decide (u = UIdle) then PtOut else PtUnpark h u))
    (upd (n_unparks s) h (S (n_unparks s h))) (n_returns s).

(** A handle somebody has: from [spawn] or from [current()]. *)
Definition known (c : CurSys) (t : Thread) : Prop := ∃ j, (j, t) ∈ handles c ∨ (j, t) ∈ returned c.

Inductive pt_step : PtSys → PtSys → Prop :=
| pt_cur s c : cur_step (cur s) c → pt_step s (mkPt c (tok s) (pts s) (n_unparks s) (n_returns s))
| pt_ask s i b :   (* thread::park() calls current() *)
    pts s i = PtOut → threads (cur s) !! i = Some Out →
    pt_step s (pt_go (mkPt (go (cur s) i Get) (tok s) (pts s) (n_unparks s) (n_returns s)) i (PtAsk b))
| pt_begin s i t b :   (* current() has answered: the parker of the handle *)
    pts s i = PtAsk b → threads (cur s) !! i = Some Out → (i, t) ∈ returned (cur s) →
    pt_step s (pt_go s i (PtPark (id t) (if b : bool then TSwap else PSwap)))
| pt_park s i h p p' w :
    pts s i = PtPark h p → park p (tok s h) = Some (p', w) ∨ park_timeout p (tok s h) = Some (p', w) →
    pt_step s (pt_move s i h p p' w)
| pt_early s i h p p' :
    pts s i = PtPark h p → early p = Some p' → pt_step s (pt_move s i h p p' (tok s h))
| pt_unpark_call s i t :   (* handle.unpark() *)
    pts s i = PtOut → (i < length (threads (cur s)))%nat → known (cur s) t →
    pt_step s (pt_go s i (PtUnpark (id t) USwap))
| pt_unpark_op s i h u u' w :
    pts s i = PtUnpark h u → unpark u (tok s h) = Some (u', w) → pt_step s (pt_unpark s i h u' w)
| pt_wake s i j h p p' :
    pts s i = PtUnpark h UWake → pts s j = PtPark h p → woken p = Some p' →
    pt_step s (pt_move (pt_go s i PtOut) j h p p' (tok s h))
| pt_wake_none s i h :
    pts s i = PtUnpark h UWake → (∀ j p, pts s j = PtPark h p → woken p = None) →
    pt_step s (pt_go s i PtOut).

Definition pt_init (n : nat) : PtSys := mkPt (cur_init n) (λ _, 0) (λ _, PtOut) (λ _, 0%nat) (λ _, 0%nat).

(** * One thread per parker *)
Record pt_inv (s : PtSys) : Prop := {
  pv_cur : cur_inv (cur s);
  pv_park : ∀ i h p, pts s i = PtPark h p → p ≠ PIdle ∧ ∃ t, (i, t) ∈ returned (cur s) ∧ id t = h;
  pv_unpark : ∀ i h u, pts s i = PtUnpark h u → u ≠ UIdle;
  pv_in : ∀ i, pts s i ≠ PtOut → (i < length (threads (cur s)))%nat;
}.

Lemma upd_eq {A B} `{EqDecision A} (f : A → B) a b : upd f a b a = b.
Proof. unfold upd. by rewrite decide_True. Qed.
Lemma upd_ne {A B} `{EqDecision A} (f : A → B) a b x : x ≠ a → upd f a b x = f x.
Proof. intros. unfold upd. by rewrite decide_False. Qed.

(** Answers and threads are only added. *)
Lemma cur_step_mono c c' :
  cur_step c c' →
  (∀ x, x ∈ returned c → x ∈ returned c') ∧ (length (threads c) ≤ length (threads c'))%nat
  ∧ (length (owners c) ≤ length (owners c'))%nat.
Proof.
  assert (∀ i p l, length (<[i := p]> l) = length (l : list CurPc)) as Hlen by (intros; apply length_insert).
  destruct 1 as [s i Hi|s s' i p Hi Hop|s i name Hi|s i t Hi]; cbn.
  - rewrite Hlen. split_and!; [done|lia..].
  - destruct p; try done; cbn in Hop; repeat case_match; simplify_eq; cbn;
      rewrite ?Hlen, ?length_app; cbn; (split_and!; [try done; set_solver|lia..]).
  - rewrite !length_app. cbn. split_and!; [done|lia..].
  - rewrite Hlen. split_and!; [done|lia..].
Qed.

(** The invariant after a change of one thread's counter. *)
Lemma pt_inv_go s i p tk nu nr :
  pt_inv s → (p ≠ PtOut → (i < length (threads (cur s)))%nat) →
  (∀ h q, p = PtPark h q → q ≠ PIdle ∧ ∃ t, (i, t) ∈ returned (cur s) ∧ id t = h) →
  (∀ h u, p = PtUnpark h u → u ≠ UIdle) →
  pt_inv (mkPt (cur s) tk (upd (pts s) i p) nu nr).
Proof.
  intros [H1 H2 H3 H4] Hlt Hp Hu. constructor; cbn; [done|..]; intros j; unfold upd;
    destruct (decide (j = i)) as [->|Hj]; eauto.
Qed.

Lemma pt_inv_cur s c :
  cur_step (cur s) c → pt_inv s → pt_inv (mkPt c (tok s) (pts s) (n_unparks s) (n_returns s)).
Proof.
  intros Hs [H1 H2 H3 H4]. destruct (cur_step_mono _ _ Hs) as (Hr & Hl & _). constructor; cbn; [|..].
  - by eapply cur_step_inv.
  - intros i h p Hp. destruct (H2 i h p Hp) as (? & t & ? & ?). eauto.
  - done.
  - intros i Hi. specialize (H4 i Hi). lia.
Qed.

Lemma pt_move_inv s i h p p' w : pt_inv s → pts s i = PtPark h p → pt_inv (pt_move s i h p p' w).
Proof.
  intros Hinv Hi. pose proof (pv_park s Hinv i h p Hi) as [_ Ht]. unfold pt_move.
  destruct (decide (p' = PIdle)); apply pt_inv_go; try done; [|naive_solver].
  intros _. apply (pv_in s Hinv). congruence.
Qed.

Lemma pt_step_inv s s' : pt_step s s' → pt_inv s → pt_inv s'.
Proof.
  intros Hstep Hinv. destruct Hstep as [s c Hc|s i b Hi Ho|s i t b Hi Ho Ht|s i h p p' w Hi Hop|s i h p p' Hi Hop
    |s i t Hi Hlt Hk|s i h u u' w Hi Hop|s i j h p p' Hi Hj Hw|s i h Hi Hno].
  - by apply pt_inv_cur.
  - unfold pt_go. cbn. pose proof (pt_inv_cur s _ (cu_call (cur s) i Ho) Hinv) as Hinv'.
    apply (pt_inv_go _ i (PtAsk b) (tok s) (n_unparks s) (n_returns s)) in Hinv'; try done.
    intros _. cbn. rewrite length_insert. by eapply lookup_lt_Some.
  - apply pt_inv_go; try done.
    + intros _. by eapply lookup_lt_Some.
    + intros h q [= <- <-]. split; [by destruct b|eauto].
  - by apply pt_move_inv.
  - by apply pt_move_inv.
  - apply pt_inv_go; try done. by intros h u [= <- <-].
  - unfold pt_unpark. destruct (decide (u' = UIdle)); apply pt_inv_go; try done; [|naive_solver].
    intros _. apply (pv_in s Hinv). congruence.
  - apply pt_move_inv; [by apply pt_inv_go|]. cbn. rewrite upd_ne by congruence. done.
  - by apply pt_inv_go.
Qed.

Lemma pt_reachable n s : rtc pt_step (pt_init n) s → pt_inv s.
Proof.
  intros Hs. cut (pt_inv (pt_init n)).
  { intros Hinit. induction Hs; eauto using pt_step_inv. }
  constructor; cbn; try done. apply (cur_reachable n). constructor.
Qed.

(** As long as fewer than [2^64] handles were made, two threads never wait on one parker. *)
Lemma one_parker s i j h p q :
  pt_inv s → Z.of_nat (length (owners (cur s))) < 2 ^ 64 →
  pts s i = PtPark h p → pts s j = PtPark h q → i = j.
Proof.
  intros Hinv Hl (_ & t & Ht & Et)%(pv_park s Hinv) (_ & t' & Ht' & Et')%(pv_park s Hinv).
  destruct (pv_cur s Hinv) as [_ _ _ H4 H5 _].
  apply (made_for_inj (owners (cur s)) i j t t'); [done|by apply H4, H5|by apply H4, H5|congruence].
Qed.

(** * Each parker is a system of Park.v *)
(** What thread [i] is to the parker [h]. *)
Definition unparker_of (h : Z) (p : PtPc) : UnparkPc :=
  match p with PtUnpark h' u => if decide (h' = h) then u else UIdle | _ => UIdle end.

Definition parks_on (h : Z) (p : PtPc) : Prop := ∃ q, p = PtPark h q.

Record seen (N : nat) (s : PtSys) (h : Z) (ps : ParkSys) : Prop := {
  se_token : token ps = tok s h;
  se_unparks : unparks ps = n_unparks s h;
  se_returns : returns ps = n_returns s h;
  se_parker : parker ps = PIdle ∧ (∀ i, ¬ parks_on h (pts s i)) ∨ ∃ i, pts s i = PtPark h (parker ps);
  se_unparkers : unparkers ps = (λ i, unparker_of h (pts s i)) <$> seq 0 N;
}.

Lemma unparker_of_new h h' u :
  unparker_of h (if decide (u = UIdle) then PtOut else PtUnpark h' u) = if decide (h' = h) then u else UIdle.
Proof. destruct (decide (u = UIdle)) as [->|]; cbn; [by destruct (decide _)|done]. Qed.

(** The view of the unparkers after thread [i] changed. *)
Lemma unparkers_upd N (f : nat → PtPc) i p h :
  (i < N)%nat →
  (λ j, unparker_of h (upd f i p j)) <$> seq 0 N
  = <[i := unparker_of h p]> ((λ j, unparker_of h (f j)) <$> seq 0 N).
Proof.
  intros Hi. apply list_eq. intros j. destruct (decide (j = i)) as [->|Hne].
  - rewrite list_lookup_insert_eq by (by rewrite length_fmap, length_seq).
    rewrite list_lookup_fmap, lookup_seq_lt by done. cbn. by rewrite upd_eq.
  - rewrite list_lookup_insert_ne, !list_lookup_fmap by done.
    destruct (seq 0 N !! j) as [k|] eqn:E; [|done]. apply lookup_seq in E as [-> _]. cbn. by rewrite upd_ne.
Qed.

Lemma unparkers_lookup N s h ps i :
  seen N s h ps → (i < N)%nat → unparkers ps !! i = Some (unparker_of h (pts s i)).
Proof. intros Hs Hi. rewrite (se_unparkers _ _ _ _ Hs), list_lookup_fmap, lookup_seq_lt by done. done. Qed.

Section view.
Context (N : nat) (s : PtSys) (h : Z) (ps : ParkSys) (Hseen : seen N s h ps).

(** A step that the parker does not notice. *)
Lemma seen_frame s' i p :
  (i < N)%nat → pts s' = upd (pts s) i p → tok s' h = tok s h → n_unparks s' h = n_unparks s h →
  n_returns s' h = n_returns s h → ¬ parks_on h p → ¬ parks_on h (pts s i) →
  unparker_of h p = unparker_of h (pts s i) → seen N s' h ps.
Proof using All.
  intros Hi Hp Ht Hu Hr Hnew Hold Hun. pose proof Hseen as [H1 H2 H3 H4 H5]. constructor; try congruence.
  - rewrite Hp. destruct H4 as [[E Hno]|[j Hj]].
    + left. split; [done|]. intros j. unfold upd. by destruct (decide (j = i)).
    + right. exists j. rewrite upd_ne; [done|]. intros ->. apply Hold. by eexists.
  - rewrite Hp, unparkers_upd, Hun, <-H5 by done. symmetry. apply list_insert_id.
    by apply (unparkers_lookup N).
Qed.

(** The thread that waits on the parker moves. *)
Lemma seen_parker_move i p p' w :
  (∀ j, parks_on h (pts s j) → j = i) → (i < N)%nat → pts s i = PtPark h p →
  parker ps = p ∧ seen N (pt_move s i h p p' w) h (move ps p' w).
Proof using All.
  intros Huniq Hi Hp. pose proof Hseen as [H1 H2 H3 H4 H5].
  assert (parker ps = p) as E.
  { destruct H4 as [[_ Hno]|[j Hj]]; [destruct (Hno i); by eexists|].
    assert (j = i) as -> by (apply Huniq; by eexists). congruence. }
  split; [done|]. constructor; cbn [token parker returns unparks unparkers move pt_move tok pts n_unparks n_returns].
  - by rewrite upd_eq.
  - done.
  - by rewrite upd_eq, E, H3.
  - destruct (decide (p' = PIdle)) as [->|Hne].
    + left. split; [done|]. intros j. unfold upd. destruct (decide (j = i)) as [_|Hj]; [by intros [? ?]|].
      intros Hpk. by apply Hj, Huniq.
    + right. exists i. by rewrite upd_eq.
  - rewrite unparkers_upd, H5 by done. symmetry. apply list_insert_id.
    rewrite <-H5, (unparkers_lookup N s h ps) by done. rewrite Hp. by destruct (decide _).
Qed.

(** A thread begins to wait on it. *)
Lemma seen_begin i p :
  (∀ j, ¬ parks_on h (pts s j)) → (i < N)%nat → unparker_of h (pts s i) = UIdle →
  p = PSwap ∨ p = TSwap → parker ps = PIdle ∧ seen N (pt_go s i (PtPark h p)) h (move ps p (token ps)).
Proof using All.
  intros Hno Hi Hun Hp. pose proof Hseen as [H1 H2 H3 H4 H5].
  assert (parker ps = PIdle) as E.
  { destruct H4 as [[? _]|[j Hj]]; [done|]. destruct (Hno j). by eexists. }
  split; [done|]. constructor; cbn [token parker returns unparks unparkers move pt_go tok pts n_unparks n_returns].
  - done.
  - done.
  - rewrite E, H3. by destruct Hp as [->| ->].
  - right. exists i. by rewrite upd_eq.
  - rewrite unparkers_upd, H5 by done. symmetry. apply list_insert_id.
    rewrite <-H5, (unparkers_lookup N s h ps), Hun by done. done.
Qed.

(** A thread that unparks it moves. *)
Lemma seen_unparker s' i p w k :
  (i < N)%nat → pts s' = upd (pts s) i p → tok s' h = w → n_unparks s' h = k →
  n_returns s' h = n_returns s h → ¬ parks_on h p → ¬ parks_on h (pts s i) →
  seen N s' h (mkPark w (parker ps) (<[i := unparker_of h p]> (unparkers ps)) k (returns ps)).
Proof using All.
  intros Hi Hp Ht Hu Hr Hnew Hold. pose proof Hseen as [H1 H2 H3 H4 H5].
  constructor; cbn; try congruence.
  - rewrite Hp. destruct H4 as [[E Hno]|[j Hj]].
    + left. split; [done|]. intros j. unfold upd. by destruct (decide (j = i)).
    + right. exists j. rewrite upd_ne; [done|]. intros ->. apply Hold. by eexists.
  - by rewrite Hp, unparkers_upd, <-H5 by done.
Qed.
End view.

Lemma own_parker s i t j :
  pt_inv s → Z.of_nat (length (owners (cur s))) < 2 ^ 64 →
  (i, t) ∈ returned (cur s) → parks_on (id t) (pts s j) → j = i.
Proof.
  intros Hinv Hl Ht [q (_ & t' & Ht' & Et')%(pv_park s Hinv)].
  destruct (pv_cur s Hinv) as [_ _ _ H4 H5 _].
  apply (made_for_inj (owners (cur s)) j i t' t); [done|by apply H4, H5|by apply H4, H5|congruence].
Qed.

Section simulation.
Context (N : nat) (s : PtSys) (h : Z) (ps : ParkSys).
Context (Hinv : pt_inv s) (Hl : Z.of_nat (length (owners (cur s))) < 2 ^ 64).
Context (HN : (length (threads (cur s)) ≤ N)%nat) (Hseen : seen N s h ps).

Lemma in_view i : pts s i ≠ PtOut → (i < N)%nat.
Proof using HN Hinv. intros Hi%(pv_in s Hinv). lia. Qed.

(** The thread that parks on [h'] makes an operation of its parker. *)
Lemma park_move_sim i h' p p' w :
  pts s i = PtPark h' p →
  (h' = h → parker ps = p → token ps = tok s h' → park_step ps (move ps p' w)) →
  ∃ ps', rtc park_step ps ps' ∧ seen N (pt_move s i h' p p' w) h ps'.
Proof using All.
  intros Hi Hstep. pose proof (in_view i ltac:(congruence)) as HiN.
  destruct (pv_park s Hinv i h' p Hi) as (_ & t & Ht & Et).
  destruct (decide (h' = h)) as [->|Hne].
  - destruct (seen_parker_move N s h ps Hseen i p p' w) as [Ep Hs]; [|done..|].
    + intros j Hj. rewrite <-Et in Hj. by apply (own_parker s i t).
    + exists (move ps p' w). split; [|done]. apply rtc_once, Hstep; [done..|]. apply Hseen.
  - exists ps. split; [done|]. eapply (seen_frame N s h ps Hseen _ i); [done|done|..]; cbn; rewrite ?upd_ne; try done.
    + destruct (decide _); [by intros [? ?]|]. by intros [? [= ? ?]].
    + rewrite Hi. by intros [? [= ? ?]].
    + rewrite Hi. by destruct (decide _).
Qed.

(** A thread that unparks [h'] makes an operation. *)
Lemma unpark_sim s' i h' p w k :
  (i < N)%nat → pts s' = upd (pts s) i p → (¬ ∃ g q, p = PtPark g q) → (¬ ∃ g q, pts s i = PtPark g q) →
  (∀ g, g ≠ h' → tok s' g = tok s g ∧ n_unparks s' g = n_unparks s g ∧ unparker_of g p = unparker_of g (pts s i)) →
  (∀ g, n_returns s' g = n_returns s g) → tok s' h' = w → n_unparks s' h' = k →
  (h' = h → park_step ps (mkPark w (parker ps) (<[i := unparker_of h p]> (unparkers ps)) k (returns ps))) →
  ∃ ps', rtc park_step ps ps' ∧ seen N s' h ps'.
Proof using Hseen.
  intros Hi Hp Hnp Hnp' Hother Hr Ht Hk Hstep.
  assert (¬ parks_on h p) by (intros [q ->]; apply Hnp; eauto).
  assert (¬ parks_on h (pts s i)) by (intros [q Hq]; apply Hnp'; eauto).
  destruct (decide (h' = h)) as [->|Hne].
  - eexists. split; [by apply rtc_once, Hstep|]. by apply (seen_unparker N s h ps Hseen s' i p).
  - exists ps. destruct (Hother h ltac:(congruence)) as (? & ? & ?). split; [done|].
    by apply (seen_frame N s h ps Hseen s' i p).
Qed.
End simulation.

(** A thread that wakes the sleeper of [h']. *)
Lemma wake_sim N s i j h' p p' h ps :
  pt_inv s → Z.of_nat (length (owners (cur s))) < 2 ^ 64 → (length (threads (cur s)) ≤ N)%nat →
  seen N s h ps → pts s i = PtUnpark h' UWake → pts s j = PtPark h' p → woken p = Some p' →
  ∃ ps', rtc park_step ps ps' ∧ seen N (pt_move (pt_go s i PtOut) j h' p p' (tok s h')) h ps'.
Proof.
  intros Hinv Hl HN Hseen Hi Hj Hw. assert (i < N)%nat as HiN by (by apply (in_view N s); [..|congruence]).
  assert (¬ parks_on h (pts s i)) as Hni by (rewrite Hi; by intros [? ?]).
  assert (¬ parks_on h PtOut) as Hno by (by intros [? ?]).
  set (s1 := pt_go s i PtOut). assert (pts s1 j = PtPark h' p) as Hj1
    by (cbn; rewrite upd_ne by congruence; done).
  assert (pt_inv s1) as Hinv1 by (by apply pt_inv_go).
  destruct (decide (h' = h)) as [->|Hne].
  - assert (seen N s1 h (move_unparker ps i UIdle)) as Hs1.
    { apply (seen_unparker N s h ps Hseen s1 i PtOut); try done; symmetry; apply Hseen. }
    assert (unparkers ps !! i = Some UWake) as Hui.
    { rewrite (unparkers_lookup N s h ps), Hi by done. cbn. by rewrite decide_True. }
    destruct (pv_park s Hinv j h p Hj) as (_ & t & Ht & Et).
    destruct (seen_parker_move N s1 h _ Hs1 j p p' (tok s h)) as [Ep Hs2]; [|by apply (in_view N s1); [..|congruence]|done|].
    { intros k Hk. rewrite <-Et in Hk. by apply (own_parker s1 j t k). }
    eexists. split; [|exact Hs2]. apply rtc_once. rewrite <-(se_token _ _ _ _ Hseen).
    apply (unpark_wake ps i p'); [done|]. cbn in Ep. by rewrite Ep.
  - assert (seen N s1 h ps) as Hs1.
    { apply (seen_frame N s h ps Hseen s1 i PtOut); try done. rewrite Hi. cbn. by rewrite decide_False. }
    change (tok s h') with (tok s1 h'). by apply park_move_sim.
Qed.

Lemma pt_step_seen N s s' h ps :
  pt_inv s → Z.of_nat (length (owners (cur s))) < 2 ^ 64 → (length (threads (cur s)) ≤ N)%nat →
  seen N s h ps → pt_step s s' → ∃ ps', rtc park_step ps ps' ∧ seen N s' h ps'.
Proof.
  intros Hinv Hl HN Hseen Hstep. pose proof (unparkers_lookup N s h ps) as Hlook.
  assert (∀ i, pts s i ≠ PtOut → (i < N)%nat) as Hin by (intros i Hi%(pv_in s Hinv); lia).
  destruct Hstep as [s c Hc|s i b Hi Ho|s i t b Hi Ho Ht|s i h' p p' w Hi Hop|s i h' p p' Hi Hop
    |s i t Hi Hlt Hk|s i h' u u' w Hi Hop|s i j h' p p' Hi Hj Hw|s i h' Hi Hno].
  - exists ps. split; [done|]. by destruct Hseen.
  - exists ps. split; [done|]. apply lookup_lt_Some in Ho.
    eapply (seen_frame N s h ps Hseen _ i (PtAsk b)); try done; cbn; rewrite ?Hi; try done; try lia;
      by intros [? ?].
  - apply lookup_lt_Some in Ho. assert (∀ j, ¬ parks_on (id t) (pts s j)) as Hno.
    { intros j Hj. pose proof (own_parker s i t j Hinv Hl Ht Hj) as ->. rewrite Hi in Hj. by destruct Hj. }
    destruct (decide (id t = h)) as [<-|Hne].
    + destruct (seen_begin N s (id t) ps Hseen i (if b then TSwap else PSwap)) as [Ep Hs];
        [done|lia|by rewrite Hi|destruct b; auto|].
      eexists. split; [|done]. apply rtc_once, park_call; [done|]. destruct b; auto.
    + exists ps. split; [done|].
      eapply (seen_frame N s h ps Hseen _ i); try done; try lia; rewrite ?Hi; try done; by intros [? [= ? ?]].
  - apply park_move_sim; try done. intros -> Ep Et. rewrite <-Ep, <-Et in Hop.
    destruct Hop; [by apply park_op|by apply timeout_op].
  - apply park_move_sim; try done. intros -> Ep Et. rewrite <-Et. apply park_early. by rewrite Ep.
  - eapply (unpark_sim N s h ps Hseen _ i (id t) (PtUnpark (id t) USwap) (tok s (id t)) (n_unparks s (id t)));
      rewrite ?Hi; try done; try lia; try (by intros (? & ? & ?)).
    + intros g Hg. cbn. by rewrite decide_False.
    + intros <-. cbn. rewrite decide_True by done. rewrite <-(se_token _ _ _ _ Hseen), <-(se_unparks _ _ _ _ Hseen).
      apply (unpark_call ps i). rewrite Hlook, Hi by (done || lia). done.
  - destruct u; try done. injection Hop as <- <-. specialize (Hin i ltac:(congruence)).
    eapply (unpark_sim N s h ps Hseen _ i h' _ 1 (S (n_unparks s h')));
      rewrite ?Hi; [done|reflexivity|..]; cbn; rewrite ?upd_eq; try done; try (by intros (? & ? & ?)).
    + intros (? & ? & Hf). destruct (decide _); [|done]. by destruct (decide (tok s h' = 0)).
    + intros g Hg. rewrite !upd_ne by done. split_and!; [done..|]. 
      by rewrite unparker_of_new, !decide_False by done.
    + intros ->. rewrite <-(se_unparks _ _ _ _ Hseen), <-(se_token _ _ _ _ Hseen).
      rewrite unparker_of_new, decide_True by done.
      apply (unpark_op ps i USwap); [|done]. rewrite Hlook, Hi by done. cbn. by rewrite decide_True.
  - by apply wake_sim.
  - specialize (Hin i ltac:(congruence)).
    eapply (unpark_sim N s h ps Hseen _ i h' PtOut (tok s h') (n_unparks s h'));
      rewrite ?Hi; try done; try (by intros (? & ? & ?)).
    + intros g Hg. cbn. by rewrite decide_False.
    + intros ->. cbn [unparker_of]. rewrite <-(se_unparks _ _ _ _ Hseen), <-(se_token _ _ _ _ Hseen).
      apply (unpark_wake_none ps i).
      * rewrite Hlook, Hi by done. cbn. by rewrite decide_True.
      * destruct (se_parker _ _ _ _ Hseen) as [[-> _]|[k Hk]]; [done|by eapply Hno].
Qed.

(** Handles and threads are only added. *)
Lemma pt_step_mono s s' :
  pt_step s s' → (length (threads (cur s)) ≤ length (threads (cur s')))%nat
  ∧ (length (owners (cur s)) ≤ length (owners (cur s')))%nat.
Proof. destruct 1 as [s c Hc| | | | | | | |]; cbn; rewrite ?length_insert; [by apply cur_step_mono|lia..]. Qed.

Lemma pt_steps_mono s s' :
  rtc pt_step s s' → (length (threads (cur s)) ≤ length (threads (cur s')))%nat
  ∧ (length (owners (cur s)) ≤ length (owners (cur s')))%nat.
Proof. induction 1 as [|s s1 s' Hs%pt_step_mono _ IH]; lia. Qed.

Lemma pt_run_seen s0 s h ps :
  rtc pt_step s0 s → pt_inv s0 → Z.of_nat (length (owners (cur s))) < 2 ^ 64 →
  seen (length (threads (cur s))) s0 h ps →
  ∃ ps', rtc park_step ps ps' ∧ seen (length (threads (cur s))) s h ps'.
Proof.
  intros Hs. revert ps. induction Hs as [s|s0 s1 s Hs Hr IH]; intros ps Hinv Hl Hseen; [by exists ps|].
  pose proof (pt_steps_mono s0 s ltac:(by eapply rtc_l)) as [Ht Ho].
  destruct (pt_step_seen _ s0 s1 h ps Hinv ltac:(lia) Ht Hseen Hs) as (ps1 & Hp1 & Hs1).
  destruct (IH ps1) as (ps' & Hp' & Hs'); [by eapply pt_step_inv|done|done|].
  exists ps'. split; [by etrans|done].
Qed.

Lemma seen_init n N h : seen N (pt_init n) h (park_init N).
Proof.
  constructor; cbn; try done.
  - left. split; [done|]. by intros i [? ?].
  - apply list_eq. intros i. rewrite list_lookup_fmap.
    destruct (decide (i < N)%nat).
    + by rewrite lookup_replicate_2, lookup_seq_lt by done.
    + rewrite lookup_ge_None_2 by (rewrite length_replicate; lia). by rewrite lookup_seq_ge by lia.
Qed.

(** C15: parking through handles. As long as fewer than [2^64] handles were made, no two threads ever wait on one parker,
    and the parker of every handle, the word, the thread that parks and
    the threads that unpark it, goes through a run of the system of Park.v; so that [thread::park] returns in a
    thread at most as often as somebody called [unpark] on its handle, and a sleeper whose token is there
    has a thread about to wake it. *)
Theorem park_threads_correct n s (Hs : rtc pt_step (pt_init n) s)
    (Hl : Z.of_nat (length (owners (cur s))) < 2 ^ 64) h :
  (∀ i j p q, pts s i = PtPark h p → pts s j = PtPark h q → i = j)
  ∧ (∃ N ps, rtc park_step (park_init N) ps ∧ seen N s h ps)
  ∧ (n_returns s h ≤ n_unparks s h)%nat
  ∧ (∀ i p, pts s i = PtPark h p → woken p ≠ None → tok s h = 1 → ∃ j, pts s j = PtUnpark h UWake).
Proof.
  pose proof (pt_reachable n s Hs) as Hinv. set (N := length (threads (cur s))).
  destruct (pt_run_seen (pt_init n) s h (park_init N)) as (ps & Hps & Hseen);
    [done|by apply (pt_reachable n); constructor|done|apply seen_init|].
  pose proof (park_reachable N ps Hps) as [H1 H2 H3].
  pose proof Hseen as [E1 E2 E3 E4 E5]. split_and!.
  - intros i j p q. by apply (one_parker s).
  - by exists N, ps.
  - rewrite <-E2, <-E3. destruct H1; lia.
  - intros i p Hi Hw Ht. assert (parker ps = p) as Ep.
    { destruct E4 as [[_ Hno]|[j Hj]]; [destruct (Hno i); by eexists|].
      assert (j = i) as -> by (by eapply one_parker). congruence. }
    destruct H3 as [j Hj]; [by rewrite Ep|by rewrite E1|]. exists j.
    rewrite E5, list_lookup_fmap in Hj. destruct (seq 0 _ !! j) as [k|] eqn:Ek; [|done].
    apply lookup_seq in Ek as [-> _]. cbn in Hj. unfold unparker_of in Hj.
    destruct (pts s j) as [| | |g u]; try done. destruct (decide (g = h)) as [->|]; [congruence|done].
Qed.

(** ** The main thread calls [park] for the first time *)
Definition sample_pt : PtSys :=
  pt_go (pt_go (mkPt (mkCur 2 [Some (mkThread 1 None)] [Out] [(0%nat, mkThread 1 None)] [] [0%nat])
                  (λ _, 0) (λ _, PtOut) (λ _, 0%nat) (λ _, 0%nat)) 0 (PtAsk false))
    0 (PtPark 1 PSwap).

Lemma sample_pt_reachable : rtc pt_step (pt_init 1) sample_pt.
Proof.
  eapply rtc_l; [by apply (pt_ask (pt_init 1) 0 false)|].
  do 3 (eapply rtc_l; [eapply pt_cur; by eapply (cu_current _ _ 0%nat)|]).
  eapply rtc_l; [by apply (pt_begin _ 0 (mkThread 1 None) false); [..|left]|]. apply rtc_refl.
Qed.

(** Witness of C15. *)
Lemma park_threads_correct_witness : ∃ N ps, rtc park_step (park_init N) ps ∧ seen N sample_pt 1 ps.
Proof.
  apply (park_threads_correct 1 sample_pt sample_pt_reachable). vm_compute. reflexivity.
Defined.
