(* ===== verification/Rt.v ===== *)
(** Start-up, the value of [main], panics and exit codes (src/src/rt.rs, src/src/panic.rs,
    [ExitCode] of src/src/process.rs): what a program's end looks like to its parent.

    Standard error is any [Write]r; [main] is a parameter.  On a native target the C runtime calls the
    entry point and passes its result to [exit]. *)
From S2P Require Import Prelude Wasi Str Io Syscall Fs Env Process.
From stdpp Require Import list.
Open Scope Z_scope.

Section rt.
Context (t : Target) (fuel : nat) {W : Type} `{Write W}.

(** [Termination]: a value of [main] is turned into an exit code, with [w] as standard error. *)
Class Termination (T : Type) := report : T → W → option (Z * W).

#[export] Instance report_unit : Termination unit := λ _ w, Some (0, w).

(** [i32], and [ExitCode] with its [u8]. *)
Record I32 := mkI32 { i32_val : Z }.
#[export] Instance report_i32 : Termination I32 := λ n w, Some (i32_val n, w).

Record ExitCode := mkExitCode { exit_u8 : Z }.
Definition SUCCESS : ExitCode := mkExitCode 0.
Definition FAILURE : ExitCode := mkExitCode 1.
#[export] Instance report_exit_code : Termination ExitCode := λ c w, Some (exit_u8 c, w).

(** [eprintln!]: a failure to write is ignored. *)
Definition eprintln (pieces : list FmtPiece) (w : W) : option W :=
  '(_, w) ← write_fmt t fuel w (pieces ++ [Piece (as_bytes [ascii_of_nat 10])]); Some w.

(** [E: Debug]: the pieces [{:?}] sends. *)
Class Debug (E : Type) := debug : E → list FmtPiece.

#[export] Instance report_result {T E} `{Termination T, Debug E} : Termination (result T E) := λ r w,
  match r with
  | Ok v => report v w
  | Err e => w ← eprintln (Piece (as_bytes (lit "Error: ")) :: debug e) w; Some (1, w)
  end.

(** [rt::__entry]: [main] runs with the arguments and environment recorded. *)
Definition __entry {T} `{Termination T} (argc : Z) (argv : list (option (list Z)))
    (envp : list (list Z)) (main : Env → W → option (T * W)) (w : W) : option (Z * W) :=
  let e := env_init argc argv envp env_start in
  '(v, w) ← main e w; report v w.

(** [rt::__entry_wasm]: the environment is asked of the host [k]. *)
Definition __entry_wasm {T} `{Termination T} `{WasiHost κ} (argc : Z) (argv : list (option (list Z)))
    (main : Env → κ → W → option (T * κ * W)) (k : κ) (w : W) : option (Z * κ * W) :=
  let '(e, k) := init_wasm argc argv k env_start in
  '(v, k, w) ← main e k w; '(c, w) ← report v w; Some (c, k, w).

(** The panic handler: the message and its place on standard error, then exit code 101. *)
Definition panic (info : list FmtPiece) (w : W) : option (Z * W) :=
  '(_, w) ← write_fmt t fuel w
     (Piece (as_bytes (lit "thread 'main' panicked:" ++ [ascii_of_nat 10])) :: info
      ++ [Piece (as_bytes [ascii_of_nat 10])]);
  Some (101, w).
End rt.

(** [rt::exit] and [rt::abort] *)
Definition exit `{Machine} (code : Z) : Sys unit := sc_exit_group code.
Definition abort `{Machine} : Sys unit := sc_exit_group 134.

(** [ExitCode::exit_process] and [From<u8>] *)
Definition exit_process `{Machine} (c : ExitCode) : Sys unit := exit (exit_u8 c).
Definition exit_code_from (n : Z) : ExitCode := mkExitCode n.

(** [std::panic]: a panic ends the process, so that [catch_unwind] is a call of the closure, which
    never comes back with a payload ([None] is a closure that does not return). *)
Section unwinding.
Context {St R Payload Hook : Type}.
Definition catch_unwind (f : St → option (R * St)) (s : St) : option (result R Payload * St) :=
  '(r, s) ← f s; Some (Ok r, s).
Definition resume_unwind `{Machine} (payload : Payload) : Sys unit := abort.
Definition set_hook (hook : Hook) (s : St) : St := s.

Lemma catch_unwind_ok f s r s' :
  catch_unwind f s = Some (r, s') ↔ ∃ v, r = Ok v ∧ f s = Some (v, s').
Proof. unfold catch_unwind. destruct (f s) as [[v s1]|]; cbn; naive_solver. Qed.
End unwinding.

(** The status the kernel keeps for a process that left with this argument, for [wait4]. *)
Definition wait_status (x : Z) : Z := Z.shiftl (Z.land x 0xff) 8.

(** ** What the parent sees *)
Lemma code_wait_status x : code (wait_status x) = Some (x mod 256).
Proof.
  unfold code, wait_status. change 0xff with (Z.ones 8). rewrite !Z.land_ones by lia.
  change 0x7f with (Z.ones 7). rewrite Z.land_ones, Z.shiftl_mul_pow2 by lia.
  replace (x mod 2 ^ 8 * 2 ^ 8) with (x mod 2 ^ 8 * 2 * 2 ^ 7) by lia.
  rewrite Z.mod_mul, decide_True by done. rewrite Z.shiftr_div_pow2 by lia.
  replace (x mod 2 ^ 8 * 2 * 2 ^ 7) with (x mod 2 ^ 8 * 2 ^ 8) by lia.
  by rewrite Z.div_mul, Z.mod_mod by done.
Qed.

Lemma usize_mod_256 `{Machine} x : usize x mod 256 = x mod 256.
Proof.
  unfold usize, wrap. change 256 with (2 ^ 8).
  assert (8 ≤ usize_bits target) by (destruct target; cbn; lia).
  replace (usize_bits target) with ((usize_bits target - 8) + 8) by lia.
  rewrite Z.pow_add_r, Z.mul_comm by lia. rewrite Z.rem_mul_r by (try lia; apply Z.pow_pos_nonneg; lia).
  rewrite (Z.mul_comm (2 ^ 8)), Z.mod_add by lia. by rewrite Z.mod_mod.
Qed.

Section ending.
Context (t : Target) {Out : Type} `{Sink t Out}.

(** A [main] that fails and a panic return their codes whatever becomes of the message, and
    the parent's [ExitStatus::code] is the low byte of the code the program left with. *)
Lemma exit_code_correct `{Machine} {T E} `{Termination Out T} `{Debug E} fuel (w : Out) (e : E) (v : T) info c h :
  (∀ s, Piece s ∈ debug e ∨ Piece s ∈ info → (length s + patience w ≤ fuel)%nat) →
  (24 + patience w ≤ fuel)%nat →
  (∃ w' d, report_result t fuel (Err e) w = Some (1, w') ∧ log w' = log w ++ d)
  ∧ report_result (E:=E) t fuel (Ok v) w = report v w
  ∧ (∃ w' d, panic t fuel info w = Some (101, w') ∧ log w' = log w ++ d)
  ∧ ∃ e1 e2 x, exit c h = (tt, e2 :: e1 :: h) ∧ e1.1 = mkTrap EXIT_GROUP [W x]
      ∧ code (wait_status x) = Some (c mod 256).
Proof.
  intros Hp Hf. split_and!.
  - destruct (write_fmt_spec t fuel w ((Piece (as_bytes (lit "Error: ")) :: debug e)
      ++ [Piece (as_bytes [ascii_of_nat 10])])) as (res & w' & Hw & Hr).
    { intros s [[[= ->]|Hs]%elem_of_cons|Hs]%elem_of_app;
        [cbn; lia|auto|apply list_elem_of_singleton in Hs as [= ->]; cbn; lia]. }
    unfold report_result, eprintln. rewrite Hw. cbn [mbind option_bind].
    destruct res; [destruct Hr as (ps & _ & Hr)|destruct Hr as (d & Hr)]; eauto.
  - done.
  - destruct (write_fmt_spec t fuel w
      (Piece (as_bytes (lit "thread 'main' panicked:" ++ [ascii_of_nat 10])) :: info
       ++ [Piece (as_bytes [ascii_of_nat 10])])) as (res & w' & Hw & Hr).
    { intros s [[= ->]|[Hs|Hs]%elem_of_app]%elem_of_cons;
        [cbn; lia|auto|apply list_elem_of_singleton in Hs as [= ->]; cbn; lia]. }
    unfold panic. rewrite Hw. cbn [mbind option_bind].
    destruct res; [destruct Hr as (ps & _ & Hr)|destruct Hr as (d & Hr)]; eauto.
  - eexists _, _, (usize c). split; [reflexivity|]. split; [done|].
    by rewrite code_wait_status, usize_mod_256.
Qed.
End ending.
