(* ===== verification/Ffi.v ===== *)
(** OS strings and the conversions between the string types (src/src/ffi.rs, src/src/path.rs).

    [OsStr] and [Path] are transparent wrappers of [str], [OsString] and [PathBuf] wrappers of
    [String]: every value of them is well-formed UTF-8, so that the conversions to strings, which
    may fail in the standard library, always succeed here. *)
From S2P Require Import Prelude Str Utf8 Path Syscall Fs.
From stdpp Require Import list.
Open Scope Z_scope.

(** [OsStr] and its methods *)
Record OsStr := mkOsStr { os_str : str }.
Definition osstr_new (s : str) : OsStr := mkOsStr s.
Definition osstr_to_str (o : OsStr) : option str := Some (os_str o).
Definition osstr_to_string_lossy (o : OsStr) : str := os_str o.
Definition osstr_is_empty (o : OsStr) : bool := bool_decide (os_str o = []).
Definition osstr_display (o : OsStr) : str := os_str o.

(** [OsString] *)
Record OsString := mkOsString { os_string : str }.
Definition osstring_new : OsString := mkOsString [].
Definition from_string (s : str) : OsString := mkOsString s.
Definition into_string (o : OsString) : result str OsString := Ok (os_string o).
Definition osstring_to_str (o : OsString) : option str := Some (os_string o).
Definition osstring_deref (o : OsString) : OsStr := osstr_new (os_string o).
Definition osstring_from (s : str) : OsString := mkOsString s.
Definition osstring_display (o : OsString) : str := os_string o.

(** [Path] and [PathBuf] *)
Record PathBuf := mkPathBuf { path_buf : str }.
Definition path_new (s : str) : str := s.
Definition path_as_str (p : str) : str := p.
Definition path_to_str (p : str) : option str := Some p.
Definition to_path_buf (p : str) : PathBuf := mkPathBuf p.
Definition pathbuf_new : PathBuf := mkPathBuf [].
Definition as_path (b : PathBuf) : str := path_new (path_buf b).
Definition pathbuf_into_string (b : PathBuf) : str := path_buf b.
Definition pathbuf_from (s : str) : PathBuf := mkPathBuf s.

(** [DirEntry::file_name] *)
Definition entry_file_name (e : DirEntry) : OsString := osstring_from (de_name e).

(** A value of either type is a well-formed string ... *)
Definition os_wf (o : OsString) : Prop := valid_str (os_string o).

(** ... the constructors keep that, and conversions give back what went in, never an error. *)
Lemma os_conversions s :
  valid_str s →
  os_wf (osstring_from s) ∧ os_wf (from_string s) ∧ os_wf osstring_new
  ∧ into_string (from_string s) = Ok s
  ∧ osstr_to_str (osstring_deref (osstring_from s)) = Some s
  ∧ from_utf8_lossy (as_bytes (osstr_to_string_lossy (osstr_new s))) = s
  ∧ osstr_is_empty (osstring_deref (from_string s)) = is_empty_str s
  ∧ as_path (to_path_buf (path_new s)) = s ∧ pathbuf_into_string (pathbuf_from s) = s.
Proof. intros Hs. split_and!; try done. by apply lossy_id. Qed.

(** The name of an entry that the directory iterator made is a string. *)
Lemma entry_name_wf e bytes :
  Forall is_byte bytes → de_name e = from_utf8_lossy bytes → os_wf (entry_file_name e).
Proof. intros Hb He. unfold os_wf. cbn. rewrite He. by apply lossy_valid. Qed.
