(* ===== verification/Os.v ===== *)
(** [std::os] (src/src/os.rs): owned descriptors and the byte views of OS strings.

    An [OwnedFd] is closed when it is dropped; a run of a program is a sequence of operations
    on the descriptors it owns. *)
From S2P Require Import Prelude Str Utf8 Io IoBuf Syscall Fs.
From stdpp Require Import gmultiset.
From stdpp Require Import list.
Open Scope Z_scope.

Section owned.
Context `{Machine}.

(** [OwnedFd] *)
Record OwnedFd := mkOwned { raw : Z }.

Definition as_raw_fd (f : OwnedFd) : Z := raw f.
Definition from_raw_fd (fd : Z) : OwnedFd := mkOwned fd.
Definition into_raw_fd (f : OwnedFd) : Z := raw f.
Definition owned_drop (f : OwnedFd) : Sys unit := _ ← sc_close (raw f); mret tt.
Definition owned_try_clone (f : OwnedFd) : Sys (result OwnedFd Error) :=
  r ← sc_dup (raw f); mret (map_err Os (map_ok mkOwned r)).

(** [BorrowedFd] *)
Record BorrowedFd := mkBorrowed { borrowed : Z }.
Definition borrow_raw (fd : Z) : BorrowedFd := mkBorrowed fd.
Definition borrowed_as_raw_fd (f : BorrowedFd) : Z := borrowed f.

(** What a program does with the descriptors it owns: the [i]-th one is cloned, dropped or given up, or
    a raw one is taken over. *)
Inductive OwnedOp : Set := CloneFd (i : nat) | DropFd (i : nat) | IntoRaw (i : nat) | FromRaw (fd : Z).

(** The values owned, and the raw descriptors in the program's hands. *)
Record Holder := mkHolder { owned : list OwnedFd; raws : gmultiset Z }.

Definition owned_op (op : OwnedOp) (s : Holder) : Sys Holder :=
  match op with
  | CloneFd i =>
      match owned s !! i with
      | Some f =>
          r ← owned_try_clone f;
          mret (match r with
                | Ok f' => mkHolder (owned s ++ [f']) (raws s)
                | Err _ => s
                end)
      | None => mret s
      end
  | DropFd i =>
      match owned s !! i with
      | Some f => _ ← owned_drop f; mret (mkHolder (delete i (owned s)) (raws s))
      | None => mret s
      end
  | IntoRaw i =>
      mret (match owned s !! i with
            | Some f => mkHolder (delete i (owned s)) ({[+ into_raw_fd f +]} ⊎ raws s)
            | None => s
            end)
  | FromRaw fd =>
      mret (if decide (fd ∈ raws s)
            then mkHolder (owned s ++ [from_raw_fd fd]) (raws s ∖ {[+ fd +]}) else s)
  end.

Fixpoint owned_run (ops : list OwnedOp) (s : Holder) : Sys Holder :=
  match ops with
  | [] => mret s
  | op :: ops => s ← owned_op op s; owned_run ops s
  end.

(** ** Accounting *)
Definition held (s : Holder) : gmultiset Z := list_to_set_disj (raw <$> owned s) ⊎ raws s.

Lemma held_delete s i f :
  owned s !! i = Some f →
  list_to_set_disj (raw <$> owned s) = {[+ raw f +]} ⊎ list_to_set_disj (raw <$> delete i (owned s)) :> gmultiset Z.
Proof.
  intros Hi. rewrite delete_take_drop. rewrite <-(take_drop_middle (owned s) i f Hi) at 1.
  rewrite !fmap_app, fmap_cons, !list_to_set_disj_app, list_to_set_disj_cons. multiset_solver.
Qed.

Lemma held_snoc l f :
  list_to_set_disj (raw <$> l ++ [f]) = {[+ raw f +]} ⊎ list_to_set_disj (raw <$> l) :> gmultiset Z.
Proof.
  rewrite fmap_app, list_to_set_disj_app, fmap_cons, fmap_nil, list_to_set_disj_cons, list_to_set_disj_nil.
  multiset_solver.
Qed.

(** The descriptors held are small integers, as those the kernel hands out. *)
Definition held_fits (s : Holder) : Prop := ∀ fd, fd ∈ held s → is_i32 fd.

Lemma owned_op_keeps op s h base :
  held_fits s → open_fds h = held s ⊎ base →
  let '(s', h') := owned_op op s h in held_fits s' ∧ open_fds h' = held s' ⊎ base.
Proof.
  intros Hf Hh. destruct op as [i|i|i|fd]; cbn [owned_op].
  - destruct (owned s !! i) as [f|] eqn:Ei; [|done]. unfold owned_try_clone, mbind, sys_bind, mret, sys_ret.
    pose proof (sc_dup_gives (raw f) h) as Hg. pose proof (sc_dup_fits (raw f) h) as Hfit.
    destruct (sc_dup (raw f) h) as [[fd|e] h1]; cbn [fst snd own map_ok map_err fits] in Hg, Hfit |- *;
      [|split; [done|rewrite Hg, Hh; multiset_solver]].
    assert (held (mkHolder (owned s ++ [mkOwned fd]) (raws s)) = {[+ fd +]} ⊎ held s) as E.
    { unfold held. cbn [owned raws]. rewrite held_snoc. cbn [raw from_raw_fd]. multiset_solver. }
    split; [|rewrite E; multiset_solver]. intros x. rewrite E.
    intros [->%gmultiset_elem_of_singleton|Hx]%gmultiset_elem_of_disj_union; [done|by apply Hf].
  - destruct (owned s !! i) as [f|] eqn:Ei; [|done]. unfold owned_drop, mbind, sys_bind, mret, sys_ret.
    assert (is_i32 (raw f)) as Hi.
    { apply Hf. unfold held. rewrite (held_delete s i f Ei). multiset_solver. }
    pose proof (sc_close_fds (raw f) h Hi) as Hc. destruct (sc_close (raw f) h) as [u h1]; cbn [fst snd] in Hc |- *.
    pose proof (held_delete s i f Ei) as E. split.
    + intros x Hx. apply Hf. unfold held in *. cbn [owned raws] in Hx. rewrite E. multiset_solver.
    + rewrite Hc, Hh. unfold held. cbn [owned raws]. rewrite E. multiset_solver.
  - destruct (owned s !! i) as [f|] eqn:Ei; [|done]. cbn zeta.
    assert (held (mkHolder (delete i (owned s)) ({[+ into_raw_fd f +]} ⊎ raws s)) = held s) as E.
    { unfold held. cbn [owned raws]. rewrite (held_delete s i f Ei). unfold into_raw_fd. multiset_solver. }
    unfold mret, sys_ret, held_fits. rewrite E. done.
  - unfold mret, sys_ret. destruct (decide (fd ∈ raws s)) as [Hin|]; [|done].
    assert (held (mkHolder (owned s ++ [from_raw_fd fd]) (raws s ∖ {[+ fd +]})) = held s) as E.
    { unfold held. cbn [owned raws]. rewrite held_snoc. cbn [raw from_raw_fd]. multiset_solver. }
    unfold mret, sys_ret, held_fits. rewrite E. done.
Qed.

(** Whatever the program does with its owned descriptors, the open ones are those it holds and those it never
    owned: none is leaked and none is closed behind its back. *)
Lemma owned_fd_accounting ops s h base :
  held_fits s → open_fds h = held s ⊎ base →
  let '(s', h') := owned_run ops s h in open_fds h' = held s' ⊎ base.
Proof.
  revert s h. induction ops as [|op ops IH]; intros s h Hf Hh; [done|]. cbn [owned_run].
  unfold mbind, sys_bind. pose proof (owned_op_keeps op s h base Hf Hh) as Hop.
  destruct (owned_op op s h) as [s1 h1]. destruct Hop as [Hf1 Hh1]. by apply IH.
Qed.
End owned.

(** ** [OsStrExt] and [OsStringExt] *)
Definition os_as_bytes (s : str) : list Z := as_bytes s.
Definition os_from_bytes (b : list Z) : str := if utf8_valid b then of_bytes b else [].
Definition os_from_vec (b : list Z) : str := from_utf8_lossy b.
Definition os_into_vec (s : str) : list Z := as_bytes s.

(** UTF-8 survives the round trip; other bytes become the empty string. *)
Lemma os_bytes_roundtrip b :
  Forall is_byte b → os_as_bytes (os_from_bytes b) = if utf8_valid b then b else [].
Proof.
  intros Hb. unfold os_as_bytes, os_from_bytes. destruct (utf8_valid b); [|done].
  by apply as_of_bytes.
Qed.
