(* ===== verification/Fmt.v ===== *)
(** Text: [Display] and [Debug] of the library's errors and values (src/src/io.rs, src/src/path.rs,
    src/src/env.rs, src/src/time.rs, src/src/sync.rs, src/src/lib.rs), and how errors are made.

    A value formatted with [{}] or [{:?}] is the string it writes.  [Debug] of a [str] and of the
    payload of a custom error is code of [core] and of the client: a parameter. *)
From S2P Require Import Prelude Str Utf8 Io Time Env.
From stdpp Require Import pretty list.
Open Scope Z_scope.

(** * [io::Error] *)
(** [Error::new], [Error::from_raw_os_error] and the two [From] instances *)
Definition error_new (k : ErrorKind) (msg : string) : Error := Custom k msg.
Definition from_raw_os_error (c : Z) : Error := Os c.
Definition error_from_kind (k : ErrorKind) : Error := Simple k.
Definition error_from_errno (e : Z) : Error := Os e.

(** [ErrorKind::as_str] *)
Definition kind_as_str (k : ErrorKind) : str :=
  lit match k with
      | NotFound => "entity not found"
      | PermissionDenied => "permission denied"
      | ConnectionRefused => "connection refused"
      | ConnectionReset => "connection reset"
      | ConnectionAborted => "connection aborted"
      | NotConnected => "not connected"
      | AddrInUse => "address in use"
      | AddrNotAvailable => "address not available"
      | BrokenPipe => "broken pipe"
      | AlreadyExists => "entity already exists"
      | WouldBlock => "operation would block"
      | InvalidInput => "invalid input parameter"
      | InvalidData => "invalid data"
      | TimedOut => "timed out"
      | WriteZero => "write zero"
      | Interrupted => "operation interrupted"
      | UnexpectedEof => "unexpected end of file"
      | Unsupported => "unsupported"
      | OutOfMemory => "out of memory"
      | Other => "other error"
      end.

(** The derived [Debug] of [ErrorKind]: the name of the variant. *)
Definition kind_debug (k : ErrorKind) : str :=
  lit match k with
      | NotFound => "NotFound" | PermissionDenied => "PermissionDenied"
      | ConnectionRefused => "ConnectionRefused" | ConnectionReset => "ConnectionReset"
      | ConnectionAborted => "ConnectionAborted" | NotConnected => "NotConnected"
      | AddrInUse => "AddrInUse" | AddrNotAvailable => "AddrNotAvailable"
      | BrokenPipe => "BrokenPipe" | AlreadyExists => "AlreadyExists"
      | WouldBlock => "WouldBlock" | InvalidInput => "InvalidInput" | InvalidData => "InvalidData"
      | TimedOut => "TimedOut" | WriteZero => "WriteZero" | Interrupted => "Interrupted"
      | UnexpectedEof => "UnexpectedEof" | Unsupported => "Unsupported"
      | OutOfMemory => "OutOfMemory" | Other => "Other"
      end.

(** [{}] of an integer *)
Definition decimal (c : Z) : str := lit (pretty c).

(** [Display for Error] *)
Definition display_error (t : Target) (e : Error) : str :=
  match e with
  | Os c => kind_as_str (errno_kind t c) ++ lit " (os error " ++ decimal c ++ lit ")"
  | Simple k => kind_as_str k
  | Custom _ msg => lit msg
  end.

(** [Debug for Error]; [payload] is the [Debug] of the error inside. *)
Definition debug_error (t : Target) (payload : string → str) (e : Error) : str :=
  match e with
  | Os c =>
      lit "Os { code: " ++ decimal c ++ lit ", kind: " ++ kind_debug (errno_kind t c) ++ lit " }"
  | Simple k => lit "Kind(" ++ kind_debug k ++ lit ")"
  | Custom k msg =>
      lit "Custom { kind: " ++ kind_debug k ++ lit ", error: " ++ payload msg ++ lit " }"
  end.

(** * Other text *)
Definition display_var_error (e : VarError) : str :=
  match e with NotPresent => lit "environment variable not found" end.
Definition display_strip_prefix_error : str := lit "prefix not found".
Definition display_system_time_error : str := lit "second time provided was later than self".
Definition debug_poison_error : str := lit "PoisonError { .. }".
Definition display_poison_error : str := lit "poisoned lock: another task failed inside".
Definition debug_send_error : str := lit "SendError(..)".

(** A path and an OS string are written as they are; [Debug] is that of [str]. *)
Definition display_path (p : str) : str := p.
Definition debug_path (str_debug : str → str) (p : str) : str := str_debug p.

(** [std::backtrace]: there is never one. *)
Inductive BacktraceStatus : Set := BtUnsupported | BtDisabled | BtCaptured.
Inductive Backtrace : Set := mkBacktrace.
Definition capture : Backtrace := mkBacktrace.
Definition force_capture : Backtrace := mkBacktrace.
Definition bt_disabled : Backtrace := mkBacktrace.
Definition bt_status (b : Backtrace) : BacktraceStatus := BtUnsupported.
Definition display_backtrace (b : Backtrace) : str := lit "unsupported backtrace".
Definition debug_backtrace (b : Backtrace) : str := lit "Backtrace(unsupported)".

(** * What the text tells *)
Lemma lit_inj a b : lit a = lit b → a = b.
Proof.
  unfold lit. intros H. by rewrite <-(String.string_of_list_ascii_of_string a), H,
    String.string_of_list_ascii_of_string.
Qed.

Lemma decimal_inj a b : decimal a = decimal b → a = b.
Proof. intros H. apply lit_inj in H. by apply (inj pretty) in H. Qed.

(** The texts of the kinds have no parenthesis, and no two are the same. *)
Lemma kind_as_str_plain k : "("%char ∉ kind_as_str k.
Proof. destruct k; apply (bool_decide_unpack _); vm_compute; done. Qed.

Lemma kind_as_str_inj k k' : kind_as_str k = kind_as_str k' → k = k'.
Proof. destruct k, k'; intros H; try done; by vm_compute in H. Qed.

Lemma kind_debug_inj k k' : kind_debug k = kind_debug k' → k = k'.
Proof. destruct k, k'; intros H; try done; by vm_compute in H. Qed.

(** The first parenthesis of the message. *)
Lemma cut_at_paren (a b x y : str) (c : ascii) :
  c ∉ a → c ∉ b → a ++ c :: x = b ++ c :: y → a = b ∧ x = y.
Proof.
  revert b. induction a as [|z a IH]; intros [|w b] Ha Hb E; cbn in E; simplify_eq; [done|..].
  - by apply not_elem_of_cons in Hb as [].
  - by apply not_elem_of_cons in Ha as [].
  - apply not_elem_of_cons in Ha as [_ Ha], Hb as [_ Hb]. by destruct (IH b Ha Hb) as [-> ->].
Qed.

(** The message of an OS error begins with the text of its kind and determines the error
    number; the messages of different kinds differ, also from those of OS errors. *)
Lemma error_text t t' a b k k' :
  (display_error t (Os a) = display_error t' (Os b) → a = b)
  ∧ (display_error t (Simple k) = display_error t' (Simple k') → k = k')
  ∧ display_error t (Os a) ≠ display_error t' (Simple k)
  ∧ kind_as_str (kind t (Os a)) `prefix_of` display_error t (Os a).
Proof.
  pose proof kind_as_str_plain as Hp. split_and!.
  - cbn [display_error]. change (lit " (os error ") with ([" "%char] ++ "("%char :: lit "os error ").
    rewrite !(assoc_L (++) (kind_as_str _)), <-!(assoc_L (++) _ ("("%char :: _)). cbn [app]. intros E.
    apply cut_at_paren in E as [_ E];
      [|rewrite elem_of_app, list_elem_of_singleton; intros [?%Hp|?]; done..].
    apply (inj (app (lit "os error "))), (inj (.++ lit ")")) in E. by apply decimal_inj.
  - apply kind_as_str_inj.
  - intros E. apply (Hp k). change (kind_as_str k) with (display_error t' (Simple k)). rewrite <-E.
    cbn [display_error]. rewrite !elem_of_app. right; left. by apply (bool_decide_unpack _).
  - eexists. reflexivity.
Qed.
